(* ===== verification/_CoqProject ===== *)
-Q . S2P
Prelude.v
Text.v
Blacklist.v
Priority.v
Redact.v
BTree.v
Wire.v
Sock.v
FailoverCore.v
FailoverChain.v
Freshest.v
PushSession.v
Relay.v
PushServe.v
Node.v
Peers.v
Peerd.v
PeerdLoop.v
Sources.v
Race.v
FailoverSession.v
FailoverIO.v
Status.v
ClientBlocks.v
ClientFetch.v
ClientServe.v
Cache.v
Capture.v
Pace.v
Gateway.v
Start.v
Session.v
Handover.v
EnvCheck.v
Proxy.v
ProxyConn.v
ProxyServe.v
Responder.v
CacheMode.v
CommandLine.v
Tools.v
FakeNode.v
