(* ===== verification/Prelude.v ===== *)
(** * hypersync: a verification of the gateway's core logic

    hypersync is a gateway between Hyperliquid nodes and the public gossip peers they sync from. A
    node connects to the gateway instead of to a peer; the gateway picks a good upstream peer,
    relays its live block stream to the node, watches the stream, and moves the node to another
    upstream without a gap when the first one stalls. A companion daemon (peerd) discovers and
    probes peers and publishes the pool the gateway picks from. The program is in [src/src/].

    ** Parts, and where they are modelled

    - [Prelude] (this file): machine integers, time, byte slices, shared lemmas, the interface
      [HashOrder] of a hash map whose iteration order is unspecified.
    - [Text]: the string functions of the standard library the code uses, decimal and IPv4
      parsing and printing, [util.rs].
    - [Blacklist] ([blacklist.rs]): the operator's list of banned addresses, its reload, and the
      dial guard. The class [UpstreamFilter] is what the other parts rely on.
    - [Priority] ([priority.rs]): the operator's preferred peers: session slots, cooldowns, the
      candidate list, configuration, the replacement of addresses in a line.
    - [Redact] ([priority.rs]): the labels installed at the start, and what redaction leaves of a line.
    - [BTree]: [BTreeMap] as a sorted association list.
    - [Wire] ([protocol.rs]): extraction of a block's round from its partly decompressed bytes,
      the bounded LZ4 decoder, plausibility and lag, frame counting, clustering of reported rounds,
      the forward gate.
    - [FailoverCore], [FailoverChain] ([failover/core.rs]): the decision core of hot-standby
      failover (one active upstream, standbys that buffer what they deliver), and its properties.
    - [Freshest] ([push/live.rs]): the reference round that two peers must have reached, and the
      lag, stall and jump judgements on one stream.
    - [Sock] ([protocol.rs]): reads from a socket whose bytes arrive in arbitrary segments, and the
      readers of headers and frames over it.
    - [PushSession] ([push/live.rs]): the parts of a push session: the gates of the stream, the
      bounded queue towards the node, the select loop and who is blamed for its end.
    - [Relay] ([push/live.rs]): the copies of bytes in both directions and the splice of two sockets.
    - [PushServe] ([push/live.rs]): [serve_push] as a machine: greeting, prefetched frames, reader,
      queue, writer and select loop, from the peer's socket to the node's.
    - [Node] ([gateway/node.rs]): the state the gateway keeps per node (active pin, catch-up
      runs) and the registry of nodes with its eviction.
    - [Peers] ([peerd/peers_file.rs], [peerd/crawl.rs], [peerd/probe.rs]): peer files, the gossip
      crawl, the live probe.
    - [Peerd] ([peerd/daemon.rs]): one discovery cycle, the pool it publishes and [peers.json].
    - [PeerdLoop] ([peerd/daemon.rs], [peerd/crawl.rs]): the daemon as a process: settings, the query
      of a peer over its socket, both files replaced with failing writes and renames, crashes.
    - [Sources] ([gateway/select.rs]): candidate lists, state-server memory, the vetting of one
      live or bootstrap peer.
    - [Race] ([gateway/select.rs]): live selection, bootstrap selection and the fallback as races
      of concurrent attempts next to other sessions; the checks that return a node to the priority
      tier.
    - [FailoverSession] ([failover/session.rs], [failover/mod.rs]): the task around the failover core
      as a step function on its events and ticks: the dial race for standbys, switches, the end of a
      dead session.
    - [FailoverIO] ([failover/session.rs]): the tasks between that session and the sockets: the reader
      of an upstream with its byte budget, the dial of a standby, the node's reader and writer.
    - [Status] ([failover/session.rs]): the snapshots and summary lines of a failover session, and the
      task that replaces the status file.
    - [ClientBlocks], [ClientFetch], [ClientServe] ([gateway/client_blocks.rs]): client-block
      requests: formats, hedge candidates, the prefetched next range; the race that answers one
      request; the service with its concurrent requests, background fetches and shared limits.
    - [Cache] ([gateway/cache.rs]): the bootstrap cache: policy, the tap that fills it from a
      transparent bootstrap, the cache file and its writers.
    - [Capture] ([gateway/cache.rs], [gateway/mod.rs]): captures of the background refresh, their
      race, and the refresh loop.
    - [Pace] ([gateway/pace.rs]): the reference streams that feed the freshest round.
    - [Gateway] ([gateway/mod.rs], [gateway/session.rs]): the refresher of the pool and the tip, the
      cooldown of faulty peers, routing, the slot of a push session, bootstrap sessions with their
      replay guard and tap permit.
    - [Start] ([gateway/mod.rs], [gateway/cache.rs]): where the cache file lives, and the start of
      [run_gateway] up to its loops: settings, blacklist, pool, cache file.
    - [Session] ([gateway/session.rs]): every 4001 handler of every node as one machine: greeting,
      selection, pin, push, splice or relay, switches, the end of a session, panics.
    - [Handover] ([gateway/select.rs], [gateway/session.rs]): a vetted peer from its first byte to the
      push session it is handed to.
    - [EnvCheck] ([env_check.rs]): the start-up check of the settings, against their readers.
    - [Proxy], [ProxyConn] ([push/proxy.rs], [push/legacy.rs]): failover over a fixed list as atomic
      operations, a raw proxied connection, the merge of several upstreams.
    - [ProxyServe] ([push/proxy.rs], [push/legacy.rs]): the proxy as a process: its connections on all
      ports next to each other, failovers, the stall monitor.
    - [Responder] ([responder.rs]): the accept loops of the responder, its permits and counters.
    - [CacheMode], [FakeNode] ([testing.rs]): the standalone cache; the synthetic node that tests a
      gateway from outside.
    - [CommandLine] ([main.rs]): the arguments of every mode and the dispatch.
    - [Tools] ([testing.rs], [util.rs]): the benchmark, the mock upstream, the lock that recovers from
      a panic.

    How they interact: [Race] dials the lists of [Sources], which come from [Priority] and the pool
    [Peerd] publishes, through the filter of [Blacklist]; a vetted peer's frames go to
    [PushSession], which reads rounds with [Wire] and judges its stream with [Freshest]; the round
    the node has reached and its pin are in [Node]; [FailoverCore] replaces the single stream of a
    push session by an active one and standbys, driven by [FailoverSession], which [FailoverIO] ties
    to the sockets and [Status] reports on with [Redact]. [Start] hands the loops of [Gateway] and
    [Capture] the tier, the pool and the cache that the writers of [Cache] left. A node's bootstrap goes
    through [Gateway], which replays the blob of [Cache] or relays with its tap; [Capture] refreshes
    that blob. A node's block requests go to [ClientServe], which races them with [ClientFetch],
    pinned to the peer of its session by [Node]. [Pace] and the push sessions feed [Freshest].
    [Session] runs all handlers of a gateway next to each other over the shared tier and registry;
    [Handover] composes vetting, [PushServe] and the node's socket. [PeerdLoop] publishes the file the
    gateway reads its pool from.

    ** What the theorems show

    - Failover: a switch continues the node's chain without a gap, replays the new active's buffer up
      to the first missing parent and drops none of the rest, happens only towards a verified standby for a reason that holds. A whole session
      refines the core: what it sends a node is a history of core operations; its connections, ids and
      priority slots stay consistent through every step; a dead active is handed over or the session
      ends. With the sockets: what the node reads is the greeting and then whole frames in strictly
      increasing rounds, whatever its writer meets; a reader passes on a prefix of its peer's stream
      within its byte budget and never waits for permits that cannot come.
    - Status and logs: no line that goes through redaction names a priority peer, nor does what a
      failover session publishes; a reader of the status file sees whole snapshots, as long as one
      session writes it (two sessions of one node can tear it: [status_writers_of_one_node_tear]).
    - Streams: from the first byte a vetted peer sends to the node's socket, the node receives exactly
      the gated part of the stream, in order, where the frames are those the headers of the bytes cut
      ([Sock.frames_of]) and [PushServe.gated] says which of them are due; the hand-over never blocks;
      frames survive any segmentation; relays pass bytes on unchanged and blame the side whose end,
      error or silence ended them.
    - Handlers: over every interleaving of sessions, races, switches and panics the slots in use are
      exactly those held and a pin belongs to a running handler, except the pin of a hot-standby
      session that panicked after a switch. One theorem shows when a freshly vetted peer's first block
      trips the session's own jump guard; one, that the upstream a session's end blames is kept away.
    - Selection: the pool is never raced against pending priority peers of an exclusive tier; no
      priority slot leaks under any interleaving.
    - Client blocks: a node gets, once, an answer an upstream gave to exactly its request; the service
      keeps its slots and its byte budget; a request wakes a bounded number of times and gives every
      slot back, the pool waits for the priority round, a prefetched range is never served under
      another pin.
    - Bootstrap cache: what the tap caches is one whole bootstrap the node was sent; the cache file is
      never torn, under concurrent writers and crashes; it is loaded exactly when it is fresh and
      complete; a restart over what the writers left takes back a good cache and only such a one; a
      capture is whole and ends, a refresh turn never uses priority peers and wakes in time while it
      starts no race; one replay per node and one tap at a time.
    - Tiers and lists: slots count the guards alive; accepted settings are read as written.
    - Other modes: a node behind the proxy is served by one upstream, the active one or one that is
      being left; the merge loses no round; a node of the standalone cache gets or has waiting every
      block that arrives while it is connected, unless it lags too far.
    - Rounds: the bounded decoder agrees with full decompression.
    - Discovery: the gateway reads a whole and clean pool whatever fails in the daemon.

    Beside these, each file proves further theorems about its part without a number, among them: after
    a reload exactly the listed addresses are refused; connected nodes are never evicted and a guard
    unpins only its own pin; vetting accepts exactly a fresh, plausible first block; trust in a standby
    is what its comparison history says; the freshest round needs two peers and the median of the best
    cluster lies between honest rounds; the bootstrap race ends the priority head start on time; a raw
    connection is blamed by how its directions ended and not by their order; the benchmark finds no
    mismatch and the mock replays its capture; the node queue is bounded and first-in first-out; a race
    of captures keeps to its limits; the published pool is clean; the exactness of the candidate list, of the forward gate, of the lag timers and of frame
    counting; the bounds of the crawl and of the responder; the round trips of range requests, peer
    tables, the candidates file and [peers.json]; the meaning of the gateway's arguments and of the
    synthetic node's exit code; and a defect ([leading_zero_escapes_the_blacklist]): an address with a
    leading zero in an octet is kept by peerd's [is_ipv4] but is not an address for the blacklist.

    ** Modelling choices

    - A machine integer is a [Z] with its saturation or wrap-around written out; [usize] counts and
      indices of lists are [nat]. An [Instant] or [Duration] is a number of nanoseconds.
    - Text is ASCII (see [Text]). A byte is a [Z] in [0, 256).
    - A method that holds one lock, or one atomic operation, is one step. Where a method releases a
      lock in between it is several steps ([Node.take_epoch], [Node.store_pin]). Concurrent sessions
      are arbitrary sequences of such steps, and clock readings and I/O outcomes are inputs.
      Coarser than that: [candidates_at] reads the session counters of all peers in one step (the code
      loads them one by one under the cooldown lock); [Proxy.fail_over] reads the active upstream
      together with the cooldowns, and bumps the generation together with the time of the last data
      (separate atomics in [proxy.rs]); [ClientFetch.answer] gives the slots of the attempts it aborts
      back at once (the runtime drops an aborted task soon after).
    - Counters without their width, because their range is out of reach: the comparisons of a standby
      ([verified], a [u32], at most one per block), the round-robin counter of client blocks (a
      wrapping [usize]), and durations converted from milliseconds to [i64] (settings below 2^63 ms).
    - [lz4_flex], the decompressor of the [lz4_flex] package, is a parameter; the theorems that
      rely on it state what they need as [Wire.lz4_flex_sound], and for the compressor of the
      benchmark and the mock as [Tools.compress_sound].
    - Floating-point rates are compared as fractions: [bytes * 1e9 < limit * nanoseconds].
    - A file is its contents; a write, a sync, a rename or a crash is one step. A process that dies
      keeps the files (not a power failure).
    - A socket is the list of what its reads will meet: segments of bytes, the expiry of a timeout,
      the end, an error ([Sock.Read]). A permit of a semaphore returns when the value holding it is
      dropped, so what is left is what no live value holds.
    - A hash map's iteration order is the class [HashOrder]: theorems hold for every order. The
      order in which concurrent queries of a crawl finish is the class [Peers.JoinOrder].
    - Fuel: each loop that is not structural runs on fuel equal to a bound of its iterations: the
      length of its input or the size of the buffer it drains, of which each turn uses up at least
      one element ([scan_round], [lz4_loop], [count_frames], [cut_frames], [trim_high], [take_chain],
      [redact_loop], [fk_drain], [boot_loop], [live_loop]), or its constant cap ([launch_pool],
      [boot_launch]). The theorems about these functions are stated at that fuel and give the loop's result, not only a partial one.

    ** Not modelled

    The wording of log lines other than the failover status and summary (among it the text of a
    declined bootstrap, an input of the vetting); binding and accepting sockets and their options; the
    probes' concurrency limit and the call of curl in the daemon; the allocator setting of [main.rs];
    the clock, the runtime's scheduling (replaced by every interleaving) and power failures; tests.
    These are effects of the operating system or of the runtime with no logic of the program in
    them. *)

From stdpp Require Export prelude list gmap strings sorting.
From Stdlib Require Export ZArith Lia.

#[global] Open Scope Z_scope.

(** ** Machine integers *)

Definition u32_max : Z := 4294967295.
Definition u64_max : Z := 18446744073709551615.

(** [u32::saturating_add] and the saturating subtraction of unsigned types. *)
Definition sat_add32 (a b : Z) : Z := Z.min (a + b) u32_max.
Definition sat_sub (a b : Z) : Z := Z.max 0 (a - b).

Definition is_u32 (a : Z) : Prop := 0 <= a <= u32_max.
Definition is_byte (b : Z) : Prop := 0 <= b < 256.

#[global] Instance is_u32_dec a : Decision (is_u32 a).
Proof. unfold is_u32. apply _. Defined.
#[global] Instance is_byte_dec b : Decision (is_byte b).
Proof. unfold is_byte. apply _. Defined.

Abbreviation bytes := (list Z).

(** ** Time *)

(** An [Instant] and a [Duration] are a number of nanoseconds. *)
Definition millis (n : Z) : Z := n * 1000000.
Definition seconds (n : Z) : Z := n * 1000000000.
Definition as_millis (d : Z) : Z := d / 1000000.
Definition as_secs (d : Z) : Z := d / 1000000000.

(** [Instant::saturating_duration_since]. *)
Definition since (now t : Z) : Z := Z.max 0 (now - t).

(** ** Byte slices *)

Definition byte_at (l : bytes) (i : nat) : Z := nth i l 0.

Definition from_le (b : bytes) : Z :=
  foldr (fun x acc => x + 256 * acc) 0 b.

Definition from_be (b : bytes) : Z :=
  foldl (fun acc x => acc * 256 + x) 0 b.

Fixpoint to_le (n : nat) (z : Z) : bytes :=
  match n with
  | O => []
  | S n => z mod 256 :: to_le n (z / 256)
  end.

Definition to_be (n : nat) (z : Z) : bytes := rev (to_le n z).

(** [payload.windows(pat.len()).any(|w| w == pat)]. *)
Fixpoint contains_seq {A} `{EqDecision A} (pat l : list A) : bool :=
  bool_decide (take (length pat) l = pat) ||
  match l with
  | [] => false
  | _ :: l' => contains_seq pat l'
  end.

(** Bytes of an ASCII literal. *)
Definition ascii_bytes (s : string) : bytes :=
  map (fun c => Z.of_N (Ascii.N_of_ascii c)) (String.list_ascii_of_string s).

(** ** Automation *)

Create HintDb hyper.

Ltac zify_bool :=
  repeat match goal with
  | H : (_ && _)%bool = true |- _ => apply andb_true_iff in H as [? ?]
  | H : (_ || _)%bool = false |- _ => apply orb_false_iff in H as [? ?]
  | H : negb _ = true |- _ => apply negb_true_iff in H
  | H : negb _ = false |- _ => apply negb_false_iff in H
  | H : bool_decide _ = true |- _ => apply bool_decide_eq_true in H
  | H : bool_decide _ = false |- _ => apply bool_decide_eq_false in H
  | H : (_ <=? _) = true |- _ => apply Z.leb_le in H
  | H : (_ <=? _) = false |- _ => apply Z.leb_gt in H
  | H : (_ <? _) = true |- _ => apply Z.ltb_lt in H
  | H : (_ <? _) = false |- _ => apply Z.ltb_ge in H
  | H : (_ =? _) = true |- _ => apply Z.eqb_eq in H
  | H : (_ =? _) = false |- _ => apply Z.eqb_neq in H
  end.

(** Case analysis on the guard of a conditional of the goal or a hypothesis. *)
Ltac case_if :=
  match goal with
  | |- context [if ?b then _ else _] => let E := fresh "E" in destruct b eqn:E
  | H : context [if ?b then _ else _] |- _ => let E := fresh "E" in destruct b eqn:E
  end.

(** Case analysis on an [option] scrutinee. *)
Ltac case_opt :=
  match goal with
  | |- context [match ?o with Some _ => _ | None => _ end] =>
      let E := fresh "E" in destruct o eqn:E
  | H : context [match ?o with Some _ => _ | None => _ end] |- _ =>
      let E := fresh "E" in destruct o eqn:E
  end.

Ltac unroll := repeat (case_if || case_opt); simplify_eq/=; zify_bool.

(** ** Arithmetic *)

Lemma sat_add32_le a b : sat_add32 a b <= u32_max.
Proof. unfold sat_add32. lia. Qed.

Lemma sat_add32_ge a b : is_u32 a -> 0 <= b -> a <= sat_add32 a b.
Proof. unfold sat_add32, is_u32. lia. Qed.

Lemma sat_add32_exact a b : a + b <= u32_max -> sat_add32 a b = a + b.
Proof. unfold sat_add32. lia. Qed.

Lemma sat_sub_nonneg a b : 0 <= sat_sub a b.
Proof. unfold sat_sub. lia. Qed.

Lemma since_nonneg now t : 0 <= since now t.
Proof. unfold since. lia. Qed.

#[export] Hint Resolve sat_add32_le sat_add32_ge sat_sub_nonneg since_nonneg : hyper.

(** ** Bytes *)

Lemma from_le_cons x l : from_le (x :: l) = x + 256 * from_le l.
Proof. reflexivity. Qed.

Lemma from_le_nonneg l : Forall is_byte l -> 0 <= from_le l.
Proof. induction 1 as [|x l Hx _ IH]; [done|]. rewrite from_le_cons. unfold is_byte in Hx. lia. Qed.

Lemma from_le_range l :
  Forall is_byte l -> 0 <= from_le l < 256 ^ Z.of_nat (length l).
Proof.
  induction 1 as [|x l Hx _ IH]; [done|]. rewrite from_le_cons. cbn [length].
  rewrite Nat2Z.inj_succ, Z.pow_succ_r by lia. unfold is_byte in Hx. lia.
Qed.

Lemma from_le_to_le n z :
  from_le (to_le n z) = z mod 256 ^ Z.of_nat n.
Proof.
  revert z. induction n as [|n IH]; intros z.
  - cbn. by rewrite Z.mod_1_r.
  - cbn [to_le]. rewrite from_le_cons, IH.
    rewrite Nat2Z.inj_succ, Z.pow_succ_r by lia.
    rewrite Z.rem_mul_r by (pose proof (Z.pow_pos_nonneg 256 (Z.of_nat n)); lia). lia.
Qed.

Lemma to_le_from_le l :
  Forall is_byte l -> to_le (length l) (from_le l) = l.
Proof.
  induction 1 as [|x l Hx _ IH]; [done|].
  cbn [length to_le]. rewrite from_le_cons. unfold is_byte in Hx.
  replace ((x + 256 * from_le l) mod 256) with x
    by (rewrite (Z.mul_comm 256), Z.mod_add by lia; rewrite Z.mod_small; lia).
  replace ((x + 256 * from_le l) / 256) with (from_le l)
    by (rewrite (Z.mul_comm 256), Z.div_add by lia; rewrite Z.div_small; lia).
  by rewrite IH.
Qed.

Lemma to_le_length n z : length (to_le n z) = n.
Proof. revert z. induction n as [|n IH]; intros z; cbn; [done|]. by rewrite IH. Qed.

Lemma to_le_bytes n z : Forall is_byte (to_le n z).
Proof.
  revert z. induction n as [|n IH]; intros z; cbn; constructor; [|done].
  unfold is_byte. apply Z.mod_pos_bound. lia.
Qed.

Lemma from_be_snoc l x : from_be (l ++ [x]) = from_be l * 256 + x.
Proof. unfold from_be. by rewrite foldl_app. Qed.

Lemma from_be_rev l : from_be (rev l) = from_le l.
Proof.
  induction l as [|x l IH]; [done|]. cbn [rev]. rewrite from_be_snoc, IH, from_le_cons. lia.
Qed.

Lemma from_be_to_be n z : from_be (to_be n z) = z mod 256 ^ Z.of_nat n.
Proof. unfold to_be. by rewrite from_be_rev, from_le_to_le. Qed.

Lemma to_be_length n z : length (to_be n z) = n.
Proof. unfold to_be. by rewrite List.length_rev, to_le_length. Qed.

Lemma from_be_nonneg l : Forall is_byte l -> 0 <= from_be l.
Proof.
  intros H. rewrite <- (List.rev_involutive l), from_be_rev. apply from_le_nonneg.
  by apply List.Forall_rev.
Qed.

#[export] Hint Resolve from_le_nonneg from_be_nonneg to_le_bytes : hyper.

(** ** Lists *)

Lemma filter_all {A} (P : A -> Prop) `{forall x, Decision (P x)} l :
  Forall P l -> filter P l = l.
Proof.
  induction 1 as [|x l Hx _ IH]; [done|]. rewrite filter_cons. case_decide; [|done]. by rewrite IH.
Qed.

Lemma filter_none {A} (P : A -> Prop) `{forall x, Decision (P x)} l :
  Forall (fun x => ~ P x) l -> filter P l = [].
Proof. induction 1 as [|x l Hx _ IH]; [done|]. rewrite filter_cons. by case_decide. Qed.

(** An invariant of the step function is an invariant of the fold. *)
Lemma foldl_inv {A B} (f : B -> A -> B) (P : B -> Prop) (b : B) (l : list A) :
  P b -> (forall b x, P b -> P (f b x)) -> P (foldl f b l).
Proof. intros Hb Hf. revert b Hb. induction l as [|x l IH]; intros b Hb; cbn; auto. Qed.

Lemma foldl_inv_Forall {A B} (f : B -> A -> B) (P : B -> Prop) (Q : A -> Prop) (b : B) (l : list A) :
  P b -> Forall Q l -> (forall b x, P b -> Q x -> P (f b x)) -> P (foldl f b l).
Proof. intros Hb Hl Hf. revert b Hb. induction Hl as [|x l Hx _ IH]; intros b Hb; cbn; auto. Qed.

(** What is collected from a list with one element replaced. *)
Lemma omap_insert {A B} (f : A -> option B) (l : list A) k x :
  l !! k = Some x ->
  exists rest, omap f l ≡ₚ option_list (f x) ++ rest /\
    forall y, omap f (<[k := y]> l) ≡ₚ option_list (f y) ++ rest.
Proof.
  intros Hk. exists (omap f (take k l) ++ omap f (drop (S k) l)).
  assert (Hsplit : forall y, omap f (take k l ++ y :: drop (S k) l) ≡ₚ
    option_list (f y) ++ omap f (take k l) ++ omap f (drop (S k) l)).
  { intros y. rewrite omap_app. cbn. destruct (f y); cbn; [|done]. symmetry. apply Permutation_middle. }
  split; [rewrite <- (take_drop_middle l k x Hk) at 1; apply Hsplit|].
  intros y. rewrite insert_take_drop by (by eapply lookup_lt_Some). apply Hsplit.
Qed.

Lemma bind_insert {A B} (f : A -> list B) (l : list A) k x :
  l !! k = Some x ->
  exists rest, l ≫= f ≡ₚ f x ++ rest /\ forall y, <[k := y]> l ≫= f ≡ₚ f y ++ rest.
Proof.
  intros Hk. exists ((take k l ≫= f) ++ (drop (S k) l ≫= f)).
  assert (Hsplit : forall y, (take k l ++ y :: drop (S k) l) ≫= f ≡ₚ
    f y ++ (take k l ≫= f) ++ (drop (S k) l ≫= f)).
  { intros y. rewrite bind_app, bind_cons. rewrite !app_assoc. apply Permutation_app_tail, Permutation_app_comm. }
  split; [rewrite <- (take_drop_middle l k x Hk) at 1; apply Hsplit|].
  intros y. rewrite insert_take_drop by (by eapply lookup_lt_Some). apply Hsplit.
Qed.

(** ** Hash maps *)

(** A Rust [HashMap] keyed by an integer is a [gmap Z V]. Its iteration order is unspecified: the
    code that iterates is modelled against this interface, so its theorems hold for every order. *)
Class HashOrder := {
  iter_order : forall {V : Type}, gmap Z V -> list (Z * V);
  iter_order_perm : forall (V : Type) (m : gmap Z V), iter_order m ≡ₚ map_to_list m
}.

(** One concrete order, for evaluation. *)
#[export] Instance default_order : HashOrder | 100 :=
  { iter_order V m := map_to_list m; iter_order_perm V m := Permutation_refl _ }.

Lemma elem_of_iter_order `{HashOrder} {V} (m : gmap Z V) k v :
  (k, v) ∈ iter_order m <-> m !! k = Some v.
Proof. rewrite (iter_order_perm V m). apply elem_of_map_to_list. Qed.
