(* ===== verification/Text.v ===== *)
(** Strings as the code uses them: splitting, trimming, decimal numbers and IPv4 addresses.

    Text is ASCII: a Rust [str] is a [string] of its bytes, and [trim] drops ASCII white space (the
    non-ASCII white space [str::trim] also drops does not occur in the settings and addresses this
    code parses). [split_csv] is [src/util.rs]; the rest is the standard library the code calls. *)

From S2P Require Import Prelude.
From Stdlib Require Export Ascii.

Definition chars (s : string) : list ascii := String.list_ascii_of_string s.
Definition text (l : list ascii) : string := String.string_of_list_ascii l.

Lemma chars_text l : chars (text l) = l.
Proof. apply String.list_ascii_of_string_of_list_ascii. Qed.

Lemma text_chars s : text (chars s) = s.
Proof. apply String.string_of_list_ascii_of_string. Qed.

Lemma chars_app s t : chars (s +:+ t) = chars s ++ chars t.
Proof.
  unfold chars. induction s as [|c s IH]; [done|].
  change (String c s +:+ t) with (String c (s +:+ t)). cbn. by rewrite IH.
Qed.

Lemma text_inj l l' : text l = text l' -> l = l'.
Proof. intros H. by rewrite <- (chars_text l), H, chars_text. Qed.

(** ** Characters *)

Definition code (c : ascii) : Z := Z.of_N (Ascii.N_of_ascii c).
Definition of_code (z : Z) : ascii := Ascii.ascii_of_N (Z.to_N z).

Definition is_digit (c : ascii) : bool := (48 <=? code c) && (code c <=? 57).
Definition digit_val (c : ascii) : Z := code c - 48.
Definition digit_char (d : Z) : ascii := of_code (48 + d).
Definition is_space (c : ascii) : bool :=
  (code c =? 32) || ((9 <=? code c) && (code c <=? 13)).
Definition lower (c : ascii) : ascii :=
  if (65 <=? code c) && (code c <=? 90) then of_code (code c + 32) else c.

Lemma code_range c : 0 <= code c < 256.
Proof. unfold code. pose proof (Ascii.N_ascii_bounded c). lia. Qed.

Lemma code_of_code z : 0 <= z < 256 -> code (of_code z) = z.
Proof. intros H. unfold code, of_code. rewrite Ascii.N_ascii_embedding; lia. Qed.

Lemma of_code_code c : of_code (code c) = c.
Proof. unfold code, of_code. by rewrite N2Z.id, Ascii.ascii_N_embedding. Qed.

Lemma code_inj c d : code c = code d -> c = d.
Proof. intros H. by rewrite <- (of_code_code c), H, of_code_code. Qed.

Lemma digit_char_digit d : 0 <= d < 10 -> is_digit (digit_char d) = true.
Proof. intros H. unfold is_digit, digit_char. rewrite code_of_code by lia. lia. Qed.

Lemma digit_val_char d : 0 <= d < 10 -> digit_val (digit_char d) = d.
Proof. intros H. unfold digit_val, digit_char. rewrite code_of_code by lia. lia. Qed.

Lemma digit_char_val c : is_digit c = true -> digit_char (digit_val c) = c.
Proof.
  unfold digit_char, digit_val. intros _. replace (48 + (code c - 48)) with (code c) by lia.
  apply of_code_code.
Qed.

Lemma digit_val_range c : is_digit c = true -> 0 <= digit_val c < 10.
Proof. unfold is_digit, digit_val. intros H. zify_bool. lia. Qed.

#[export] Hint Resolve digit_char_digit digit_val_range : hyper.

(** ** Splitting and trimming *)

(** [s.split(c)]: always at least one piece. *)
Fixpoint split_list (c : ascii) (l : list ascii) : list (list ascii) :=
  match l with
  | [] => [[]]
  | x :: l =>
      if decide (x = c) then [] :: split_list c l
      else match split_list c l with
           | p :: ps => (x :: p) :: ps
           | [] => [[x]]
           end
  end.

Definition split_on (c : ascii) (s : string) : list string := text <$> split_list c (chars s).

Fixpoint trim_start_list (l : list ascii) : list ascii :=
  match l with
  | x :: l' => if is_space x then trim_start_list l' else l
  | [] => []
  end.

Definition trim_list (l : list ascii) : list ascii :=
  rev (trim_start_list (rev (trim_start_list l))).

Definition trim (s : string) : string := text (trim_list (chars s)).
Definition to_ascii_lowercase (s : string) : string := text (lower <$> chars s).

(** [str::lines]: split at line feeds, without the final empty piece, each without a trailing
    carriage return. *)
Definition LF : ascii := of_code 10.
Definition CR : ascii := of_code 13.

Definition strip_cr (l : list ascii) : list ascii :=
  match rev l with
  | x :: r => if decide (x = CR) then rev r else l
  | [] => l
  end.

Definition lines (s : string) : list string :=
  let ps := split_list LF (chars s) in
  let ps := match rev ps with [] :: r => rev r | _ => ps end in
  text <$> (strip_cr <$> ps).

Definition COMMA : ascii := of_code 44.
Definition DOT : ascii := of_code 46.
Definition COLON : ascii := of_code 58.
Definition HASH : ascii := of_code 35.

Definition split_csv (v : string) : list string :=
  filter (fun s => s <> EmptyString) (trim <$> split_on COMMA v).

(** [s.rsplit_once(c)]: split at the last [c]. *)
Fixpoint rsplit_list (c : ascii) (l : list ascii) : option (list ascii * list ascii) :=
  match l with
  | [] => None
  | x :: l =>
      match rsplit_list c l with
      | Some (a, b) => Some (x :: a, b)
      | None => if decide (x = c) then Some ([], l) else None
      end
  end.

Definition rsplit_once (c : ascii) (s : string) : option (string * string) :=
  prod_map text text <$> rsplit_list c (chars s).

(** ** Decimal numbers *)

Fixpoint dec_val (acc : Z) (l : list ascii) : option Z :=
  match l with
  | [] => Some acc
  | x :: l => if is_digit x then dec_val (10 * acc + digit_val x) l else None
  end.

(** [s.parse::<uN>()] for an unsigned type with maximum [max]: an optional [+], then digits. *)
Definition PLUS : ascii := of_code 43.

Definition parse_uint_list (max : Z) (l : list ascii) : option Z :=
  let l := match l with x :: l' => if decide (x = PLUS) then l' else l | [] => l end in
  match l with
  | [] => None
  | _ => match dec_val 0 l with Some n => if n <=? max then Some n else None | None => None end
  end.

Definition parse_uint (max : Z) (s : string) : option Z := parse_uint_list max (chars s).

Fixpoint show_aux (fuel : nat) (n : Z) (acc : list ascii) : list ascii :=
  match fuel with
  | O => acc
  | S fuel =>
      let acc := digit_char (n mod 10) :: acc in
      if n <? 10 then acc else show_aux fuel (n / 10) acc
  end.

(** Decimal printing of a non-negative number. *)
Definition show_list (n : Z) : list ascii := show_aux (S (Z.to_nat (Z.log2 n))) n [].
Definition show (n : Z) : string := text (show_list n).

(** ** IPv4 addresses *)

Record Ipv4 := mkIp { oct1 : Z; oct2 : Z; oct3 : Z; oct4 : Z }.

#[global] Instance Ipv4_eq_dec : EqDecision Ipv4.
Proof. solve_decision. Defined.
#[global] Instance Ipv4_countable : Countable Ipv4.
Proof.
  refine (inj_countable' (fun i => (oct1 i, oct2 i, oct3 i, oct4 i))
    (fun '(a, b, c, d) => mkIp a b c d) _). by intros [].
Defined.

Definition octet (n : Z) : Prop := 0 <= n < 256.
Definition valid_ip (i : Ipv4) : Prop :=
  octet (oct1 i) /\ octet (oct2 i) /\ octet (oct3 i) /\ octet (oct4 i).

(** One component of [Ipv4Addr::from_str]: one to three digits, no leading zero, at most 255. *)
Definition parse_octet (l : list ascii) : option Z :=
  match l with
  | [] => None
  | x :: r =>
      if (3 <? length l)%nat then None
      else if bool_decide (x = digit_char 0) && (0 <? length r)%nat then None
      else match dec_val 0 l with Some n => if n <=? 255 then Some n else None | None => None end
  end.

Definition parse_ipv4 (s : string) : option Ipv4 :=
  match split_list DOT (chars s) with
  | [a; b; c; d] =>
      a ← parse_octet a; b ← parse_octet b; c ← parse_octet c; d ← parse_octet d;
      Some (mkIp a b c d)
  | _ => None
  end.

Definition show_ipv4_list (i : Ipv4) : list ascii :=
  show_list (oct1 i) ++ DOT :: show_list (oct2 i) ++ DOT :: show_list (oct3 i) ++ DOT ::
  show_list (oct4 i).
Definition show_ipv4 (i : Ipv4) : string := text (show_ipv4_list i).

(** ** Lemmas: splitting *)

Lemma split_list_nonempty c l : split_list c l <> [].
Proof. destruct l as [|x l]; cbn; [done|]. case_decide; [done|]. by destruct (split_list c l). Qed.

Lemma split_list_free c p : c ∉ p -> split_list c p = [p].
Proof.
  induction p as [|x p IH]; intros H; [done|]. cbn. rewrite decide_False by set_solver.
  rewrite IH by set_solver. done.
Qed.

Lemma split_list_sep c p l : c ∉ p -> split_list c (p ++ c :: l) = p :: split_list c l.
Proof.
  induction p as [|x p IH]; intros H; cbn; [by rewrite decide_True|].
  rewrite decide_False by set_solver. by rewrite IH by set_solver.
Qed.

(** Putting the separators back gives the text, so the split loses nothing. *)
Fixpoint join_list (c : ascii) (ps : list (list ascii)) : list ascii :=
  match ps with
  | [] => []
  | [p] => p
  | p :: ps => p ++ c :: join_list c ps
  end.

Lemma join_split c l : join_list c (split_list c l) = l.
Proof.
  induction l as [|x l IH]; [done|]. cbn. pose proof (split_list_nonempty c l).
  case_decide; subst.
  - cbn. destruct (split_list c l); [done|]. cbn in *. by rewrite IH.
  - destruct (split_list c l) as [|p [|q ps]]; [done|..]; cbn in *; by rewrite IH.
Qed.

Lemma rsplit_list_None c l : rsplit_list c l = None <-> c ∉ l.
Proof.
  induction l as [|x l IH]; cbn; [split; [intros _; apply not_elem_of_nil|done]|].
  destruct (rsplit_list c l) as [[a b]|].
  - split; [done|]. intros H. apply not_elem_of_cons in H as [_ H]. by apply IH in H.
  - rewrite not_elem_of_cons, <- IH. case_decide; split; try done; intros [? _]; congruence.
Qed.

Lemma rsplit_list_sep c a b : c ∉ b -> rsplit_list c (a ++ c :: b) = Some (a, b).
Proof.
  intros H. induction a as [|x a IH]; cbn.
  - by rewrite (proj2 (rsplit_list_None c b)), decide_True.
  - by rewrite IH.
Qed.

(** ** Lemmas: numbers and addresses *)

Lemma dec_val_digits acc l n : dec_val acc l = Some n -> forallb is_digit l = true.
Proof. revert acc. induction l as [|x l IH]; intros acc; cbn; [done|]. destruct (is_digit x); [|done]. apply IH. Qed.

Lemma dec_val_app acc l l' n : dec_val acc l = Some n -> dec_val acc (l ++ l') = dec_val n l'.
Proof.
  revert acc. induction l as [|x l IH]; intros acc; cbn; [by intros [= ->]|].
  destruct (is_digit x); [|done]. apply IH.
Qed.

Lemma show_aux_app fuel n acc : show_aux fuel n acc = show_aux fuel n [] ++ acc.
Proof.
  revert n acc. induction fuel as [|fuel IH]; intros n acc; [done|]. cbn.
  destruct (n <? 10); [done|]. rewrite IH, (IH _ [_]), <- app_assoc. done.
Qed.

Lemma dec_val_show_aux fuel n :
  0 <= n < 2 ^ Z.of_nat fuel -> dec_val 0 (show_aux fuel n []) = Some n.
Proof.
  revert n. induction fuel as [|fuel IH]; intros n H; [cbn in *; f_equal; lia|].
  cbn [show_aux]. pose proof (Z.mod_pos_bound n 10).
  destruct (Z.ltb_spec n 10).
  - cbn. rewrite digit_char_digit, digit_val_char, Z.mod_small by lia. done.
  - rewrite show_aux_app, (dec_val_app _ _ _ (n / 10)).
    + cbn [dec_val]. rewrite digit_char_digit, digit_val_char by lia. f_equal.
      rewrite (Z.div_mod n 10) at 3 by lia. lia.
    + apply IH. rewrite Nat2Z.inj_succ, Z.pow_succ_r in H by lia.
      split; [apply Z.div_pos; lia|apply Z.div_lt_upper_bound; lia].
Qed.

Lemma dec_val_show n : 0 <= n -> dec_val 0 (show_list n) = Some n.
Proof.
  intros H. apply dec_val_show_aux. split; [done|].
  rewrite Nat2Z.inj_succ, Z2Nat.id by apply Z.log2_nonneg.
  destruct (Z.eq_dec n 0) as [-> |]; [done|]. apply Z.log2_spec. lia.
Qed.

Lemma show_list_digits n : 0 <= n -> forallb is_digit (show_list n) = true.
Proof. intros H. eapply dec_val_digits, dec_val_show, H. Qed.

Lemma show_list_nonempty n : show_list n <> [].
Proof.
  unfold show_list. cbn [show_aux]. destruct (n <? 10); [done|]. rewrite show_aux_app.
  by destruct (show_aux _ _ []).
Qed.

Lemma digits_free c l : forallb is_digit l = true -> is_digit c = false -> c ∉ l.
Proof. intros Hl Hc Hin. rewrite forallb_forall in Hl. rewrite Hl in Hc; [done|]. by apply list_elem_of_In. Qed.

Lemma parse_octet_show n : octet n -> parse_octet (show_list n) = Some n.
Proof.
  intros H. assert (Hall : forallb (fun k => bool_decide (parse_octet (show_list (Z.of_nat k)) =
    Some (Z.of_nat k))) (seq 0 256) = true) by (vm_compute; reflexivity).
  rewrite forallb_forall in Hall. specialize (Hall (Z.to_nat n)).
  rewrite Z2Nat.id in Hall by (unfold octet in H; lia). apply bool_decide_eq_true in Hall; [done|].
  apply in_seq. unfold octet in H. lia.
Qed.

(** Every three-digit numeral below 1000 without a leading zero prints back to itself. *)
Lemma show_digits3 a b c :
  0 <= a < 10 -> 0 <= b < 10 -> 0 <= c < 10 ->
  show_list a = [digit_char a] /\
  (a <> 0 -> show_list (10 * a + b) = [digit_char a; digit_char b]) /\
  (a <> 0 -> show_list (10 * (10 * a + b) + c) = [digit_char a; digit_char b; digit_char c]).
Proof.
  intros Ha Hb Hc.
  set (dig := seq 0 10).
  assert (Hall : forallb (fun a => forallb (fun b => forallb (fun c =>
    let a := Z.of_nat a in let b := Z.of_nat b in let c := Z.of_nat c in
    bool_decide (show_list a = [digit_char a]) &&
    ((a =? 0) || bool_decide (show_list (10 * a + b) = [digit_char a; digit_char b])) &&
    ((a =? 0) || bool_decide (show_list (10 * (10 * a + b) + c) =
       [digit_char a; digit_char b; digit_char c]))) dig) dig) dig = true)
    by (vm_compute; reflexivity).
  assert (Hin : forall x, 0 <= x < 10 -> In (Z.to_nat x) dig) by (intros; apply in_seq; lia).
  rewrite forallb_forall in Hall. specialize (Hall _ (Hin a Ha)).
  rewrite forallb_forall in Hall. specialize (Hall _ (Hin b Hb)).
  rewrite forallb_forall in Hall. specialize (Hall _ (Hin c Hc)).
  cbv zeta in Hall. rewrite !Z2Nat.id in Hall by lia. zify_bool.
  split_and!; [done|..]; intros Hz;
    match goal with Hor : (_ || bool_decide (?x = _))%bool = true |- ?x = _ =>
      apply orb_true_iff in Hor as [?|?]; zify_bool; [lia|done] end.
Qed.

Lemma parse_octet_canonical l n : parse_octet l = Some n -> octet n /\ l = show_list n.
Proof.
  unfold parse_octet. destruct l as [|x r]; [done|]. destruct (Nat.ltb_spec 3 (length (x :: r))); [done|].
  destruct (bool_decide (x = digit_char 0) && _) eqn:Ez; [done|].
  destruct (dec_val 0 (x :: r)) as [m|] eqn:Ed; [|done].
  destruct (Z.leb_spec m 255); [|done]. intros [= <-].
  pose proof (dec_val_digits _ _ _ Ed) as Hd. cbn [forallb] in Hd. apply andb_true_iff in Hd as [Hx Hr].
  assert (Hx0 : r <> [] -> digit_val x <> 0).
  { intros Hne Hv. rewrite <- (digit_char_val x Hx), Hv in Ez.
    rewrite bool_decide_eq_true_2 in Ez by done. destruct r; [done|]. cbn in Ez. done. }
  pose proof (digit_val_range x Hx).
  destruct r as [|y [|z [|w r]]]; cbn in H; [..|lia]; cbn [dec_val forallb] in *; zify_bool;
    rewrite Hx in Ed; repeat match goal with Hy : is_digit _ = true |- _ =>
      rewrite ?Hy in Ed; pose proof (digit_val_range _ Hy); revert Hy end; intros;
    apply Some_inj in Ed; subst m; unfold octet; (split; [lia|]).
  - destruct (show_digits3 (digit_val x) 0 0) as (E & _); [lia..|].
    rewrite Z.mul_0_r, Z.add_0_l, E. by rewrite digit_char_val.
  - destruct (show_digits3 (digit_val x) (digit_val y) 0) as (_ & E & _); [lia..|].
    rewrite Z.mul_0_r, Z.add_0_l, E by auto. by rewrite !digit_char_val.
  - destruct (show_digits3 (digit_val x) (digit_val y) (digit_val z)) as (_ & _ & E); [lia..|].
    rewrite Z.mul_0_r, Z.add_0_l, E by auto. by rewrite !digit_char_val.
Qed.

Lemma dot_free n : 0 <= n -> DOT ∉ show_list n.
Proof. intros H. eapply digits_free; [by apply show_list_digits|done]. Qed.

Lemma split_show_ipv4 i :
  valid_ip i -> split_list DOT (show_ipv4_list i) =
    [show_list (oct1 i); show_list (oct2 i); show_list (oct3 i); show_list (oct4 i)].
Proof.
  intros (H1 & H2 & H3 & H4). unfold octet in *. unfold show_ipv4_list.
  rewrite !split_list_sep by (apply dot_free; lia). by rewrite split_list_free by (apply dot_free; lia).
Qed.

Lemma parse_show_ipv4 i : valid_ip i -> parse_ipv4 (show_ipv4 i) = Some i.
Proof.
  intros H. unfold parse_ipv4, show_ipv4. rewrite chars_text, split_show_ipv4 by done.
  destruct H as (? & ? & ? & ?). rewrite !parse_octet_show by done. by destruct i.
Qed.

(** The parser is strict, so an address has one spelling. *)
Lemma parse_ipv4_canonical s i : parse_ipv4 s = Some i -> valid_ip i /\ s = show_ipv4 i.
Proof.
  unfold parse_ipv4. destruct (split_list DOT (chars s)) as [|a [|b [|c [|d [|]]]]] eqn:E; try done.
  destruct (parse_octet a) as [na|] eqn:Ea; [|done].
  destruct (parse_octet b) as [nb|] eqn:Eb; [|done].
  destruct (parse_octet c) as [nc|] eqn:Ec; [|done].
  destruct (parse_octet d) as [nd|] eqn:Ed; [|done]. cbn. intros [= <-].
  apply parse_octet_canonical in Ea as [? ->], Eb as [? ->], Ec as [? ->], Ed as [? ->].
  split; [done|]. rewrite <- (text_chars s), <- (join_split DOT (chars s)), E. done.
Qed.
