(* ===== verification/Blacklist.v ===== *)
(** The upstream IP blacklist: [src/blacklist.rs].

    [UpstreamFilter] is what the other components rely on: a test saying whether an address must
    never be dialed. A loaded blacklist is an instance of it. *)

From S2P Require Import Prelude Text.

(** ** Data *)

(** The process-wide state: [LIST] (with [LEN] its size), [INVALID] and [VERSION]. *)
Record Blacklist := mkBl { bl_list : gset Ipv4; bl_invalid : list string; bl_version : Z }.

Definition bl_initial : Blacklist := mkBl ∅ [] 0.

(** ** Operations *)

Definition current (b : Blacklist) : gset Ipv4 := bl_list b.
Definition version (b : Blacklist) : Z := bl_version b.

Definition install_set (b : Blacklist) (ips : gset Ipv4) : Blacklist :=
  mkBl ips (bl_invalid b) ((bl_version b + 1) mod 2 ^ 64).

(** The tokens of the two sources, trimmed, without the empty ones. *)
Definition env_tokens (env_val : option string) : list string :=
  match env_val with Some v => split_on COMMA v | None => [] end.

Definition before_hash (l : string) : string := default EmptyString (head (split_on HASH l)).

Definition file_tokens (file : option string) : list string :=
  match file with Some f => before_hash <$> lines f | None => [] end.

Definition tokens (env_val file : option string) : list string :=
  filter (fun t => t <> EmptyString) (trim <$> (env_tokens env_val ++ file_tokens file)).

Definition parse_step (acc : gset Ipv4 * list string) (tok : string) : gset Ipv4 * list string :=
  match parse_ipv4 tok with
  | Some ip => ({[ip]} ∪ acc.1, acc.2)
  | None => (acc.1, acc.2 ++ [tok])
  end.

Definition parse (env_val file : option string) : gset Ipv4 * list string :=
  foldl parse_step (∅, []) (tokens env_val file).

(** Re-read both sources; the list is installed (and the version bumped) only when it changed. *)
Definition reload (b : Blacklist) (env_val file : option string) : Z * Blacklist :=
  let '(ips, invalid) := parse env_val file in
  let b := mkBl (bl_list b) invalid (bl_version b) in
  (Z.of_nat (size ips), if decide (bl_list b = ips) then b else install_set b ips).

(** The host part of ["ip"] or ["ip:port"]. *)
Definition host_of (addr : string) : string :=
  match rsplit_once COLON addr with
  | Some (h, p) => match parse_uint 65535 p with Some _ => h | None => addr end
  | None => addr
  end.

Definition contains (b : Blacklist) (addr : string) : bool :=
  if (size (bl_list b) =? 0)%nat then false
  else
    match parse_ipv4 (host_of addr) with
    | Some ip => bool_decide (ip ∈ current b)
    | None => false
    end.

Definition ips (b : Blacklist) : list string := show_ipv4 <$> elements (current b).

Definition filtered (b : Blacklist) (addrs : list string) : list string :=
  if (size (bl_list b) =? 0)%nat then addrs
  else filter (fun a => contains b a = false) addrs.

(** The one upstream dial; [dial] stands for [TcpStream::connect]. *)
Inductive DialResult (T : Type) := PermissionDenied | Dialed (r : T).
Arguments PermissionDenied {T}.
Arguments Dialed {T} r.

Definition connect {T} (dial : string -> T) (b : Blacklist) (addr : string) : DialResult T :=
  if contains b addr then PermissionDenied else Dialed (dial addr).

(** [wait_blacklisted] polls every five seconds; [polls] are the states it sees. Returns how many
    sleeps it took, if it resolved. *)
Fixpoint wait_blacklisted (polls : list Blacklist) (ip : string) : option nat :=
  match polls with
  | [] => None
  | b :: polls => if contains b ip then Some 0%nat else S <$> wait_blacklisted polls ip
  end.

(** ** The interface to the components that choose upstreams *)

Class UpstreamFilter := { blocked : string -> bool }.

Definition filter_of (b : Blacklist) : UpstreamFilter := {| blocked := contains b |}.
#[export] Instance no_filter : UpstreamFilter | 100 := {| blocked _ := false |}.

(** ** Lemmas *)

Lemma foldl_parse_ips l acc ip :
  ip ∈ (foldl parse_step acc l).1 <-> ip ∈ acc.1 \/ exists t, t ∈ l /\ parse_ipv4 t = Some ip.
Proof.
  revert acc. induction l as [|t l IH]; intros acc; cbn.
  - split; [by left|]. intros [?|(t & Ht & _)]; [done|]. by apply elem_of_nil in Ht.
  - rewrite IH. setoid_rewrite elem_of_cons. unfold parse_step.
    destruct (parse_ipv4 t) as [i|] eqn:E; cbn; [rewrite elem_of_union, elem_of_singleton|].
    + split; [intros [[-> |?]|(t' & ? & ?)]|intros [?|(t' & [-> |?] & ?)]]; eauto 6; simplify_eq; eauto.
    + split; [intros [?|(t' & ? & ?)]|intros [?|(t' & [-> |?] & ?)]]; eauto 6. congruence.
Qed.

Lemma reload_list b env_val file : bl_list (reload b env_val file).2 = (parse env_val file).1.
Proof. unfold reload. destruct (parse _ _) as [s inv]. cbn. by case_decide. Qed.

Lemma contains_spec b addr :
  contains b addr = true <-> exists ip, parse_ipv4 (host_of addr) = Some ip /\ ip ∈ bl_list b.
Proof.
  unfold contains, current. destruct (Nat.eqb_spec (size (bl_list b)) 0) as [E|E].
  - split; [done|]. intros (ip & _ & Hin). apply size_empty_inv in E. set_solver.
  - destruct (parse_ipv4 _) as [ip|]; [rewrite bool_decide_eq_true|].
    + split; [by eauto|]. intros (? & [= ->] & ?). done.
    + split; [done|]. by intros (? & ? & _).
Qed.

Lemma colon_free_ip i : valid_ip i -> COLON ∉ show_ipv4_list i.
Proof.
  intros (H1 & H2 & H3 & H4). unfold octet in *. unfold show_ipv4_list.
  assert (Hd : forall n, 0 <= n -> COLON ∉ show_list n)
    by (intros n Hn; eapply digits_free; [by apply show_list_digits|done]).
  rewrite !not_elem_of_app, !not_elem_of_cons, !not_elem_of_app, !not_elem_of_cons,
    !not_elem_of_app, !not_elem_of_cons. split_and!; try (apply Hd; lia); done.
Qed.

Lemma host_of_ip i : valid_ip i -> host_of (show_ipv4 i) = show_ipv4 i.
Proof.
  intros H. unfold host_of, rsplit_once. unfold show_ipv4 at 1. rewrite chars_text.
  by rewrite (proj2 (rsplit_list_None _ _) (colon_free_ip i H)).
Qed.

Lemma parse_uint_show max n : 0 <= n <= max -> parse_uint max (show n) = Some n.
Proof.
  intros H. unfold parse_uint, show. rewrite chars_text.
  pose proof (show_list_digits n ltac:(lia)) as Hd. pose proof (show_list_nonempty n).
  pose proof (dec_val_show n ltac:(lia)) as Hv. unfold parse_uint_list.
  destruct (show_list n) as [|x l]; [done|]. cbn [forallb] in Hd. apply andb_true_iff in Hd as [Hx _].
  rewrite decide_False by (intros ->; done). rewrite Hv. by rewrite (proj2 (Z.leb_le _ _)) by lia.
Qed.

Definition ip_port (ip : string) (port : Z) : string := ip +:+ ":" +:+ show port.

Lemma host_of_ip_port i port :
  valid_ip i -> 0 <= port <= 65535 -> host_of (ip_port (show_ipv4 i) port) = show_ipv4 i.
Proof.
  intros Hi Hp. unfold host_of.
  assert (rsplit_once COLON (ip_port (show_ipv4 i) port) = Some (show_ipv4 i, show port)) as ->.
  { unfold rsplit_once, ip_port. rewrite !chars_app.
    unfold show_ipv4 at 1. unfold show at 1. rewrite !chars_text.
    change (chars ":") with [COLON]. cbn [app].
    rewrite rsplit_list_sep by (eapply digits_free; [apply show_list_digits; lia|done]). done. }
  by rewrite parse_uint_show.
Qed.

(** An address in one of the sources: a trimmed item of the setting, or a trimmed line of the file
    up to its comment. *)
Definition listed (env_val file : option string) (i : Ipv4) : Prop :=
  (exists v item, env_val = Some v /\ item ∈ split_on COMMA v /\ trim item = show_ipv4 i) \/
  (exists f l, file = Some f /\ l ∈ lines f /\ trim (before_hash l) = show_ipv4 i).

Lemma show_ipv4_nonempty i : show_ipv4 i <> EmptyString.
Proof.
  unfold show_ipv4, show_ipv4_list. pose proof (show_list_nonempty (oct1 i)).
  by destruct (show_list (oct1 i)).
Qed.

Lemma parse_listed env_val file i :
  valid_ip i -> i ∈ (parse env_val file).1 <-> listed env_val file i.
Proof.
  intros Hi. unfold parse. rewrite foldl_parse_ips. cbn.
  assert (Ht : forall t, parse_ipv4 t = Some i <-> t = show_ipv4 i).
  { intros t. split; [by intros [_ ->]%parse_ipv4_canonical|]. intros ->. by apply parse_show_ipv4. }
  setoid_rewrite Ht. unfold tokens. setoid_rewrite list_elem_of_filter.
  setoid_rewrite list_elem_of_fmap. setoid_rewrite elem_of_app. unfold listed, env_tokens, file_tokens.
  pose proof (show_ipv4_nonempty i). split.
  - intros [?|(t & (_ & y & Hy & Hin) & ->)]; [set_solver|].
    destruct Hin as [Hin|Hin].
    + left. destruct env_val as [v|]; [|by apply elem_of_nil in Hin]. by eauto.
    + right. destruct file as [f|]; [|by apply elem_of_nil in Hin].
      apply list_elem_of_fmap in Hin as (l & -> & Hl). by eauto.
  - intros Hl. right. exists (show_ipv4 i). split; [|done]. split; [done|].
    destruct Hl as [(v & item & -> & Hin & Ht')|(f & l & -> & Hin & Ht')]; [by eauto|].
    exists (before_hash l). split; [done|]. right. by apply list_elem_of_fmap_2.
Qed.

(** The blacklist is enforced exactly. After a reload, dialing an IPv4 address (alone or with a
    port) is refused, and filtered out of candidate lists, exactly when the address is an item of
    the environment setting or a line of the blacklist file (comments and blanks aside), whatever
    was loaded before; and the version changes exactly when the set does. *)
Theorem reload_enforces_exactly_the_listed_ips {T} (dial : string -> T) (b : Blacklist)
    (env_val file : option string) (i : Ipv4) (port : Z) :
  valid_ip i -> 0 <= port <= 65535 -> 0 <= bl_version b < 2 ^ 64 ->
  let b' := (reload b env_val file).2 in
  (connect dial b' (ip_port (show_ipv4 i) port) = PermissionDenied <-> listed env_val file i) /\
  (connect dial b' (show_ipv4 i) = PermissionDenied <-> listed env_val file i) /\
  (show_ipv4 i ∈ filtered b' [show_ipv4 i] <-> ~ listed env_val file i) /\
  (bl_version b' = bl_version b <-> bl_list b' = bl_list b).
Proof.
  intros Hi Hp Hv b'.
  assert (Hc : forall addr, host_of addr = show_ipv4 i ->
    contains b' addr = true <-> listed env_val file i).
  { intros addr Ha. rewrite contains_spec, Ha, parse_show_ipv4 by done. unfold b'.
    rewrite reload_list, <- parse_listed by done. naive_solver. }
  pose proof (Hc _ (host_of_ip_port i port Hi Hp)) as H1. pose proof (Hc _ (host_of_ip i Hi)) as H2.
  unfold connect. split_and!.
  - clear H2. rewrite <- H1. destruct (contains b' _); by split.
  - clear H1. rewrite <- H2. destruct (contains b' _); by split.
  - clear H1. rewrite <- H2. unfold filtered. destruct (Nat.eqb_spec (size (bl_list b')) 0) as [E|E].
    + unfold contains. rewrite (proj2 (Nat.eqb_eq _ _) E). rewrite list_elem_of_singleton. by split.
    + rewrite list_elem_of_filter, list_elem_of_singleton. destruct (contains b' _); naive_solver.
  - unfold b', reload. destruct (parse env_val file) as [s inv]. cbn.
    case_decide as Hd; cbn; [by rewrite Hd|]. split; [|congruence]. intros Hm.
    destruct (Z.eq_dec (bl_version b + 1) (2 ^ 64)) as [E|E]; [rewrite E, Z.mod_same in Hm by lia; lia|].
    rewrite Z.mod_small in Hm; lia.
Qed.

Lemma reload_enforces_exactly_the_listed_ips_witness :
  connect (fun a => a)
    (reload bl_initial (Some "1.2.3.4, 5.6.7.8"%string) (Some "7.7.7.7 # note"%string)).2
    "7.7.7.7:4001" = PermissionDenied.
Proof.
  pose proof (reload_enforces_exactly_the_listed_ips (fun a => a) bl_initial
    (Some "1.2.3.4, 5.6.7.8"%string) (Some "7.7.7.7 # note"%string) (mkIp 7 7 7 7) 4001) as H.
  destruct H as [H _]; [unfold valid_ip, octet; cbn; lia|lia|cbn; lia|].
  change "7.7.7.7:4001"%string with (ip_port (show_ipv4 (mkIp 7 7 7 7)) 4001).
  apply H. right. exists "7.7.7.7 # note"%string, "7.7.7.7 # note"%string.
  split; [reflexivity|]. split; [by left|]. vm_compute. reflexivity.
Defined.
