(* ===== verification/Priority.v ===== *)
(** The priority tier of operator-pinned upstreams: [src/priority.rs].

    Session slots are atomics and the cooldown table is behind a mutex, so every method is one
    atomic step; concurrent sessions are sequences of these steps ([op]). *)

From S2P Require Import Prelude Text Blacklist.

(** ** Data *)

Definition PRIORITY_COOLDOWN : Z := seconds 30.
Definition PRIORITY_HUNG_COOLDOWN : Z := seconds 4.
Definition DEFAULT_STAGE_MS : Z := 1500.

Inductive BootstrapPolicy := Fallback | Never | Prefer.

#[global] Instance BootstrapPolicy_eq_dec : EqDecision BootstrapPolicy.
Proof. solve_decision. Defined.

Definition policy_parse (v : string) : option BootstrapPolicy :=
  let s := to_ascii_lowercase (trim v) in
  if decide (s = "fallback"%string) then Some Fallback
  else if decide (s = "never"%string) then Some Never
  else if decide (s = "prefer"%string) then Some Prefer
  else None.

Definition policy_as_str (p : BootstrapPolicy) : string :=
  match p with Fallback => "fallback" | Never => "never" | Prefer => "prefer" end.

Record PriorityTier := mkTier {
  peers : list string;
  sessions : list Z;
  cooldown_until : list (option Z);
  max_sessions : Z;
  stage : Z;
  bootstrap : BootstrapPolicy;
  exclusive_flag : bool
}.

(** ** Operations *)

Definition tier_new (ps : list string) (max st : Z) (b : BootstrapPolicy) : PriorityTier :=
  mkTier ps (replicate (length ps) 0) (replicate (length ps) None) max st b false.

Definition with_exclusive (t : PriorityTier) (e : bool) : PriorityTier :=
  mkTier (peers t) (sessions t) (cooldown_until t) (max_sessions t) (stage t) (bootstrap t) e.

Definition is_empty (t : PriorityTier) : bool := bool_decide (peers t = []).

Definition exclusive (t : PriorityTier) : bool := exclusive_flag t && negb (is_empty t).

Definition index (t : PriorityTier) (ip : string) : option nat :=
  fst <$> list_find (fun p => p = ip) (peers t).

Definition contains (t : PriorityTier) (ip : string) : bool := bool_decide (is_Some (index t ip)).

Definition set_sessions (t : PriorityTier) (s : list Z) : PriorityTier :=
  mkTier (peers t) s (cooldown_until t) (max_sessions t) (stage t) (bootstrap t) (exclusive_flag t).

Definition set_cooldown (t : PriorityTier) (c : list (option Z)) : PriorityTier :=
  mkTier (peers t) (sessions t) c (max_sessions t) (stage t) (bootstrap t) (exclusive_flag t).

Definition cooling (now : Z) (until : option Z) : bool :=
  match until with Some t => now <? t | None => false end.

(** The order of [(load, index)] pairs. *)
Definition load_le (p q : Z * nat) : Prop := p.1 < q.1 \/ (p.1 = q.1 /\ (p.2 <= q.2)%nat).

#[global] Instance load_le_dec : RelDecision load_le.
Proof. intros p q. unfold load_le. apply _. Defined.

Section Filtered.
Context `{UpstreamFilter}.

(** The tests of the loop of [candidates_at] for one peer. *)
Definition usable (t : PriorityTier) (now : Z) (i : nat) : bool :=
  let load := nth i (sessions t) 0 in
  negb (cooling now (nth i (cooldown_until t) None) || blocked (nth i (peers t) EmptyString)) &&
  negb (negb (max_sessions t =? 0) && (max_sessions t <=? load)).

Definition candidate_indices (t : PriorityTier) (now : Z) : list (Z * nat) :=
  merge_sort load_le
    (map (fun i => (nth i (sessions t) 0, i))
       (filter (fun i => usable t now i = true) (seq 0 (length (cooldown_until t))))).

Definition candidates_at (t : PriorityTier) (now : Z) : list string :=
  map (fun e => nth e.2 (peers t) EmptyString) (candidate_indices t now).

Definition pool_allowed (t : PriorityTier) (now : Z) : bool :=
  negb (exclusive t) || bool_decide (candidates_at t now = []).
End Filtered.

Definition cool_until (t : PriorityTier) (ip : string) (until : Z) : PriorityTier :=
  match index t ip with
  | Some i =>
      let c := nth i (cooldown_until t) None in
      set_cooldown t
        (<[i := Some (match c with Some u => Z.max u until | None => until end)]> (cooldown_until t))
  | None => t
  end.

Definition mark_failed_at (t : PriorityTier) (ip : string) (now : Z) : PriorityTier :=
  cool_until t ip (now + PRIORITY_COOLDOWN).

Definition mark_hung_at (t : PriorityTier) (ip : string) (now : Z) : PriorityTier :=
  if exclusive t then cool_until t ip (now + PRIORITY_HUNG_COOLDOWN) else mark_failed_at t ip now.

(** [acquire] and [try_acquire] return the guard's index. *)
Definition acquire (t : PriorityTier) (ip : string) : option (nat * PriorityTier) :=
  i ← index t ip;
  Some (i, set_sessions t (<[i := nth i (sessions t) 0 + 1]> (sessions t))).

Definition try_acquire (t : PriorityTier) (ip : string) : option (nat * PriorityTier) :=
  i ← index t ip;
  let n := nth i (sessions t) 0 in
  if (max_sessions t =? 0) || (n <? max_sessions t)
  then Some (i, set_sessions t (<[i := n + 1]> (sessions t)))
  else None.

(** [Drop for PrioritySession]. *)
Definition drop_session (t : PriorityTier) (i : nat) : PriorityTier :=
  set_sessions t (<[i := nth i (sessions t) 0 - 1]> (sessions t)).

Definition sessions_of (t : PriorityTier) (ip : string) : Z :=
  match index t ip with Some i => nth i (sessions t) 0 | None => 0 end.

Definition strip (t : PriorityTier) (pool : list string) : list string :=
  if is_empty t then pool else filter (fun ip => contains t ip = false) pool.

Definition tier_of (t : PriorityTier) (ip : string) : string :=
  if contains t ip then "prio" else "pool".

Definition describe (t : PriorityTier) : string :=
  "priority peers=" +:+ show (Z.of_nat (length (peers t))) +:+
  " max_sessions=" +:+ (if max_sessions t =? 0 then "none" else show (max_sessions t)) +:+
  " stage=" +:+ show (as_millis (stage t)) +:+ "ms bootstrap=" +:+ policy_as_str (bootstrap t) +:+
  " exclusive=" +:+ (if exclusive t then "true" else "false").

(** ** Configuration *)

Definition priority_peers_from_raw (raw : string) : list string :=
  foldl (fun out item =>
    match parse_ipv4 item with
    | Some ip => let s := show_ipv4 ip in if decide (s ∈ out) then out else out ++ [s]
    | None => out
    end) [] (split_csv raw).

Definition QUOTE : ascii := of_code 34.
Definition APOS : ascii := of_code 39.

Fixpoint strip_quotes_start (l : list ascii) : list ascii :=
  match l with
  | x :: l' => if decide (x = QUOTE \/ x = APOS) then strip_quotes_start l' else l
  | [] => []
  end.

(** [trim_matches] of both quote characters. *)
Definition trim_quotes (s : string) : string :=
  text (rev (strip_quotes_start (rev (strip_quotes_start (chars s))))).

Definition exclusive_setting (v : option string) : bool :=
  match v with
  | None => true
  | Some v =>
      bool_decide (to_ascii_lowercase (trim_quotes (trim v)) ∉
        ["0"; "false"; "no"; "off"]%string)
  end.

Definition clamp (lo hi x : Z) : Z := Z.max lo (Z.min hi x).

(** [PriorityTier::from_env]; [env] is [std::env::var]. *)
Definition from_env (env : string -> option string) : PriorityTier :=
  let ps := priority_peers_from_raw (default EmptyString (env "HYPERSYNC_PRIORITY_PEERS")) in
  let excl := exclusive_setting (env "HYPERSYNC_PRIORITY_EXCLUSIVE") in
  let max := default 0
    (v ← env "HYPERSYNC_PRIORITY_MAX_SESSIONS"; parse_uint u64_max (trim v)) in
  let stage_ms := clamp 200 3000 (default DEFAULT_STAGE_MS
    (v ← env "HYPERSYNC_PRIORITY_STAGE_MS"; parse_uint u64_max (trim v))) in
  let unset := if excl then Prefer else Fallback in
  let b :=
    match env "HYPERSYNC_PRIORITY_BOOTSTRAP" with
    | Some v =>
        if decide (trim v = EmptyString) then unset
        else default Fallback (policy_parse v)
    | None => unset
    end in
  with_exclusive (tier_new ps max (millis stage_ms) b) excl.

(** ** Log redaction *)

Definition is_priority (labels : list string) (ip : string) : bool := bool_decide (ip ∈ labels).

(** [s.find(pat)]: the first position at which [pat] occurs. *)
Fixpoint find_sub (pat l : list ascii) : option nat :=
  if decide (take (length pat) l = pat) then Some 0%nat
  else match l with [] => None | _ :: l => S <$> find_sub pat l end.

Definition addr_char (c : ascii) : bool := is_digit c || bool_decide (c = DOT).

Definition before_ok (pre : list ascii) : bool :=
  match last pre with Some c => negb (addr_char c) | None => true end.

Definition after_ok (post : list ascii) : bool :=
  match post with
  | [] => true
  | c :: post =>
      if is_digit c then false
      else if decide (c = DOT)
           then match post with d :: _ => negb (is_digit d) | [] => true end
           else true
  end.

(** The loop of [redact_with] for one address: [pre] is the text before [from], [rest] the text
    after it. *)
Fixpoint redact_loop (fuel : nat) (ip label pre rest : list ascii) : list ascii :=
  match fuel with
  | O => pre ++ rest
  | S fuel =>
      match find_sub ip rest with
      | None => pre ++ rest
      | Some p =>
          let post := drop (p + length ip) rest in
          if before_ok (pre ++ take p rest) && after_ok post
          then redact_loop fuel ip label (pre ++ take p rest ++ label) post
          else redact_loop fuel ip label (pre ++ take (p + 1) rest) (drop (p + 1) rest)
      end
  end.

Definition redact_one (out : list ascii) (e : nat * string) : list ascii :=
  redact_loop (S (length out)) (chars e.2) (chars ("prio-" +:+ show (Z.of_nat (e.1 + 1)))) [] out.

Definition redact_with (line : string) (labels : list string) : string :=
  if bool_decide (labels = []) ||
     negb (existsb (fun p => bool_decide (is_Some (find_sub (chars p) (chars line)))) labels)
  then line
  else text (foldl redact_one (chars line) (imap pair labels)).

(** ** Invariant *)

Definition tier_ok (t : PriorityTier) : Prop :=
  NoDup (peers t) /\ length (sessions t) = length (peers t) /\
  length (cooldown_until t) = length (peers t).

Lemma tier_new_ok ps max st b : NoDup ps -> tier_ok (tier_new ps max st b).
Proof. intros H. unfold tier_ok, tier_new. cbn. by rewrite !length_replicate. Qed.

Lemma cool_until_ok t ip u : tier_ok t -> tier_ok (cool_until t ip u).
Proof.
  intros (H1 & H2 & H3). unfold cool_until. destruct (index t ip); [|done].
  unfold tier_ok. cbn. by rewrite length_insert.
Qed.

Lemma set_sessions_ok t i n : tier_ok t -> tier_ok (set_sessions t (<[i := n]> (sessions t))).
Proof. intros (H1 & H2 & H3). unfold tier_ok. cbn. by rewrite length_insert. Qed.

Lemma index_lt t ip i : index t ip = Some i -> (i < length (peers t))%nat /\ peers t !! i = Some ip.
Proof.
  unfold index. destruct (list_find _ _) as [[j p]|] eqn:E; [|done]. cbn. intros [= <-].
  apply list_find_Some in E as (Hl & -> & _). split; [by eapply lookup_lt_Some|done].
Qed.

Lemma index_of_lookup t i ip : NoDup (peers t) -> peers t !! i = Some ip -> index t ip = Some i.
Proof.
  intros Hn Hi. unfold index. destruct (list_find _ _) as [[j p]|] eqn:E; cbn.
  - apply list_find_Some in E as (Hl & -> & _). f_equal. by eapply NoDup_lookup.
  - apply list_find_None in E. rewrite Forall_forall in E.
    exfalso. apply (E ip); [by eapply list_elem_of_lookup_2|done].
Qed.

Lemma index_is_Some t ip : is_Some (index t ip) <-> ip ∈ peers t.
Proof.
  split.
  - intros [i Hi]. apply index_lt in Hi as [_ Hi]. by eapply list_elem_of_lookup_2.
  - intros Hin. unfold index. destruct (list_find _ _) as [[j p]|] eqn:E; [done|].
    apply list_find_None in E. rewrite Forall_forall in E. by apply E in Hin.
Qed.

#[export] Hint Resolve tier_new_ok cool_until_ok set_sessions_ok : hyper.

(** Whole addresses only: not inside longer addresses, but before a port or a full stop. *)
Lemma redact_examples :
  redact_with "dial 1.2.3.4:4001, 10.0.0.5. not 11.2.3.45 or 1.2.3.4.5"
    ["1.2.3.4"; "10.0.0.5"]%string = "dial prio-1:4001, prio-2. not 11.2.3.45 or 1.2.3.4.5"%string.
Proof. vm_compute. reflexivity. Qed.

(** ** Candidates *)

Section Candidates.
Context `{UpstreamFilter}.

Definition load (t : PriorityTier) (i : nat) : Z := nth i (sessions t) 0.

(** What the code comments promise of a candidate: not cooling down, not blacklisted, below the
    session cap. *)
Definition peer_usable (t : PriorityTier) (now : Z) (i : nat) : Prop :=
  exists ip, peers t !! i = Some ip /\ blocked ip = false /\
    (forall u, cooldown_until t !! i = Some (Some u) -> u <= now) /\
    (max_sessions t = 0 \/ load t i < max_sessions t).

Lemma usable_spec t now i :
  tier_ok t -> (i < length (peers t))%nat -> usable t now i = true <-> peer_usable t now i.
Proof.
  intros (_ & Hs & Hc) Hi. unfold usable, peer_usable, load.
  destruct (lookup_lt_is_Some_2 (peers t) i Hi) as [ip Hip].
  destruct (lookup_lt_is_Some_2 (cooldown_until t) i) as [u Hu]; [lia|].
  rewrite (nth_lookup_Some _ _ _ _ Hip), (nth_lookup_Some _ _ _ _ Hu), andb_true_iff, !negb_true_iff.
  rewrite orb_false_iff, andb_false_iff, negb_false_iff, Z.eqb_eq, Z.leb_gt.
  assert (Hcool : cooling now u = false <->
    forall u0, cooldown_until t !! i = Some (Some u0) -> u0 <= now).
  { rewrite Hu. unfold cooling. destruct u as [u|]; [rewrite Z.ltb_ge|]; split; try done.
    - by intros ? ? [= <-].
    - intros Hall. by apply Hall. }
  rewrite Hcool. split.
  - intros [[? ?] ?]. eauto 6.
  - intros (ip' & Heq & ? & ? & ?). rewrite Hip in Heq. apply Some_inj in Heq as ->. done.
Qed.

Lemma load_le_trans p q r : load_le p q -> load_le q r -> load_le p r.
Proof. unfold load_le. intros. lia. Qed.

#[global] Instance load_le_transitive : Transitive load_le.
Proof. intros p q r. apply load_le_trans. Qed.
#[global] Instance load_le_total : Total load_le.
Proof. intros p q. unfold load_le. lia. Qed.

Lemma candidate_indices_perm t now :
  candidate_indices t now ≡ₚ map (fun i => (load t i, i))
    (filter (fun i => usable t now i = true) (seq 0 (length (cooldown_until t)))).
Proof. apply merge_sort_Permutation. Qed.

Lemma candidate_indices_load t now e :
  e ∈ candidate_indices t now -> e.1 = load t e.2 /\ usable t now e.2 = true /\
    (e.2 < length (cooldown_until t))%nat.
Proof.
  rewrite candidate_indices_perm. intros (i & -> & Hi)%list_elem_of_fmap.
  apply list_elem_of_filter in Hi as [? Hi]. apply elem_of_seq in Hi. cbn. split_and!; [done|done|lia].
Qed.

Lemma sorted_strict t (l : list (Z * nat)) :
  NoDup (map snd l) -> (forall e, e ∈ l -> e.1 = load t e.2) -> StronglySorted load_le l ->
  StronglySorted (fun i j => load t i < load t j \/ (load t i = load t j /\ (i < j)%nat)) (map snd l).
Proof.
  intros Hn Hl Hs. induction Hs as [|e l Hs IH Hall]; cbn; constructor.
  - apply IH; [by inversion Hn|]. intros x Hx. apply Hl. by right.
  - cbn in Hn. inversion Hn as [|? ? Hnin _]; subst. apply List.Forall_map.
    rewrite List.Forall_forall in Hall |- *. intros x Hx. specialize (Hall x Hx).
    apply list_elem_of_In in Hx. unfold load_le in Hall.
    rewrite (Hl e ltac:(by left)), (Hl x ltac:(by right)) in Hall.
    assert (e.2 <> x.2) by (intros Heq; apply Hnin; rewrite Heq; by apply (list_elem_of_fmap_2 snd)).
    lia.
Qed.

(** The candidate list is exactly the usable priority peers. [candidates_at] lists each priority
    peer that is not cooling down, not blacklisted and below the session cap once, least loaded
    first and in configured order among equals; and an exclusive tier refuses the pool exactly when
    one of its peers is usable. *)
Theorem candidates_exactly_usable (t : PriorityTier) (now : Z) :
  tier_ok t ->
  exists idx, candidates_at t now = map (fun i => nth i (peers t) EmptyString) idx /\ NoDup idx /\
    (forall i, i ∈ idx <-> peer_usable t now i) /\
    StronglySorted (fun i j => load t i < load t j \/ (load t i = load t j /\ (i < j)%nat)) idx /\
    (pool_allowed t now = false <-> exclusive_flag t = true /\ exists i, peer_usable t now i).
Proof.
  intros Ht. set (idx := map snd (candidate_indices t now)).
  assert (Hperm : idx ≡ₚ filter (fun i => usable t now i = true) (seq 0 (length (cooldown_until t)))).
  { unfold idx. rewrite candidate_indices_perm, List.map_map. cbn. by rewrite List.map_id. }
  assert (Hin : forall i, i ∈ idx <-> peer_usable t now i).
  { intros i. rewrite Hperm, list_elem_of_filter, elem_of_seq. split.
    - intros [Hu Hi]. apply usable_spec; [done| |done]. destruct Ht as (_ & _ & ?). lia.
    - intros Hu. assert (Hi : (i < length (peers t))%nat)
        by (destruct Hu as (ip & Hl & _); by eapply lookup_lt_Some).
      split; [by apply usable_spec|]. destruct Ht as (_ & _ & ?). lia. }
  assert (Hnd : NoDup idx) by (rewrite Hperm; apply NoDup_filter, NoDup_seq).
  exists idx. split_and!; try done.
  - unfold candidates_at, idx. by rewrite List.map_map.
  - apply sorted_strict; [done| |].
    + intros e He. by apply candidate_indices_load in He as [? _].
    + apply StronglySorted_merge_sort; apply _.
  - unfold pool_allowed. rewrite orb_false_iff, negb_false_iff, bool_decide_eq_false.
    unfold exclusive, is_empty. rewrite andb_true_iff, negb_true_iff, bool_decide_eq_false.
    setoid_rewrite <- Hin. unfold candidates_at, idx. split.
    + intros [[He _] Hne]. split; [done|]. destruct (candidate_indices t now) as [|e l]; [done|].
      exists e.2. cbn. by left.
    + intros [He [i Hi]]. split_and!; [done| |].
      * intros Hnil. apply Hin in Hi as (ip & Hl & _). by rewrite Hnil in Hl.
      * by destruct (candidate_indices t now); [apply elem_of_nil in Hi|].
Qed.
End Candidates.

Definition example_tier : PriorityTier :=
  with_exclusive (tier_new ["10.0.0.1"; "10.0.0.2"]%string 1 (millis 1500) Prefer) true.

Lemma example_tier_ok : tier_ok example_tier.
Proof. split; [|done]. by apply (bool_decide_unpack _). Qed.

Lemma candidates_exactly_usable_witness :
  exists idx, candidates_at (mark_failed_at example_tier "10.0.0.1" 0) (seconds 5) =
    map (fun i => nth i ["10.0.0.1"; "10.0.0.2"]%string EmptyString) idx /\ 1%nat ∈ idx.
Proof.
  destruct (candidates_exactly_usable (mark_failed_at example_tier "10.0.0.1" 0) (seconds 5))
    as (idx & E & _ & Hin & _).
  - apply cool_until_ok, example_tier_ok.
  - exists idx. split; [exact E|]. apply Hin. exists "10.0.0.2"%string.
    split; [vm_compute; reflexivity|]. split; [reflexivity|]. split; [|right; vm_compute; reflexivity].
    assert (E1 : cooldown_until (mark_failed_at example_tier "10.0.0.1" 0) !! 1%nat = Some None)
      by (vm_compute; reflexivity).
    intros u Hu. rewrite E1 in Hu. discriminate Hu.
Defined.

(** ** Traces of tier operations *)

Inductive op :=
| OAcquire (ip : string)
| OTryAcquire (ip : string)
| ODrop (k : nat)                (* drop the k-th guard held *)
| OFailed (ip : string) (now : Z)
| OHung (ip : string) (now : Z).

(** A tier and the guards ([PrioritySession] indices) alive. *)
Definition op_step (s : PriorityTier * list nat) (o : op) : PriorityTier * list nat :=
  let '(t, gs) := s in
  match o with
  | OAcquire ip => match acquire t ip with Some (i, t) => (t, i :: gs) | None => (t, gs) end
  | OTryAcquire ip => match try_acquire t ip with Some (i, t) => (t, i :: gs) | None => (t, gs) end
  | ODrop k => match gs !! k with
               | Some i => (drop_session t i, delete k gs)
               | None => (t, gs)
               end
  | OFailed ip now => (mark_failed_at t ip now, gs)
  | OHung ip now => (mark_hung_at t ip now, gs)
  end.

Definition run_ops (s : PriorityTier * list nat) (os : list op) : PriorityTier * list nat :=
  foldl op_step s os.

Definition held (gs : list nat) (i : nat) : Z := Z.of_nat (length (filter (fun j => j = i) gs)).

(** Slots count the guards alive. *)
Definition counted (s : PriorityTier * list nat) : Prop :=
  tier_ok s.1 /\ Forall (fun i => (i < length (peers s.1))%nat) s.2 /\
  forall i, (i < length (peers s.1))%nat -> load s.1 i = held s.2 i.

Lemma nth_insert {A} (l : list A) i j n d :
  (i < length l)%nat -> nth j (<[i := n]> l) d = if decide (i = j) then n else nth j l d.
Proof.
  intros Hi. rewrite !nth_lookup. case_decide as E.
  - subst. by rewrite list_lookup_insert_eq.
  - by rewrite list_lookup_insert_ne.
Qed.

Lemma load_insert t i j n :
  (i < length (sessions t))%nat ->
  load (set_sessions t (<[i := n]> (sessions t))) j = if decide (i = j) then n else load t j.
Proof. intros Hi. by apply nth_insert. Qed.

Lemma held_cons gs i j : held (i :: gs) j = held gs j + if decide (i = j) then 1 else 0.
Proof. unfold held. rewrite filter_cons. case_decide; cbn; lia. Qed.

Lemma held_delete gs k i j :
  gs !! k = Some i -> held (delete k gs) j = held gs j - if decide (i = j) then 1 else 0.
Proof.
  intros Hk. assert (Hp : gs ≡ₚ i :: delete k gs) by (by apply delete_Permutation).
  assert (held gs j = held (i :: delete k gs) j) as -> by (unfold held; by rewrite <- Hp).
  rewrite held_cons. lia.
Qed.

Lemma held_pos gs k i : gs !! k = Some i -> 1 <= held gs i.
Proof.
  intros Hk. pose proof (held_delete gs k i i Hk) as H. rewrite decide_True in H by done.
  unfold held in *. lia.
Qed.

Lemma slot_taken t gs i n :
  counted (t, gs) -> (i < length (peers t))%nat -> n = load t i + 1 ->
  counted (set_sessions t (<[i := n]> (sessions t)), i :: gs).
Proof.
  intros (Hok & Hg & Hl) Hi ->. split; [cbn; auto with hyper|]. split; [by constructor|].
  cbn [fst snd]. intros j Hj. rewrite load_insert, held_cons; [|destruct Hok as (_ & E & _); cbn in *; lia].
  cbn in Hj. case_decide; subst; rewrite <- Hl by done; cbn; lia.
Qed.

Lemma cool_until_frame t ip u :
  peers (cool_until t ip u) = peers t /\ sessions (cool_until t ip u) = sessions t /\
  max_sessions (cool_until t ip u) = max_sessions t.
Proof. unfold cool_until. by destruct (index t ip). Qed.

Lemma counted_cool t gs ip u : counted (t, gs) -> counted (cool_until t ip u, gs).
Proof.
  intros (Hok & Hg & Hl). destruct (cool_until_frame t ip u) as (E1 & E2 & _).
  split; [cbn; auto with hyper|]. unfold load. cbn in *. rewrite E1, E2. done.
Qed.

Lemma op_step_counted s o : counted s -> counted (op_step s o).
Proof.
  destruct s as [t gs]. intros Hc. pose proof Hc as (Hok & Hg & Hl).
  destruct o as [ip|ip|k|ip now|ip now]; cbn.
  - unfold acquire. destruct (index t ip) as [i|] eqn:E; [|done]. cbn.
    apply index_lt in E as [? _]. by apply slot_taken.
  - unfold try_acquire. destruct (index t ip) as [i|] eqn:E; [|done]. cbn.
    destruct (_ || _); [|done]. apply index_lt in E as [? _]. by apply slot_taken.
  - destruct (gs !! k) as [i|] eqn:E; [|done]. unfold drop_session.
    assert (Hi : (i < length (peers t))%nat) by (rewrite Forall_forall in Hg; eapply Hg, list_elem_of_lookup_2, E).
    split; [cbn; auto with hyper|]. split; [by apply Forall_delete|].
    cbn [fst snd]. intros j Hj. rewrite load_insert, (held_delete _ _ _ _ E); [|destruct Hok as (_ & E0 & _); cbn in *; lia].
    cbn in Hj. fold (load t i). case_decide; subst; rewrite <- Hl by done; cbn; lia.
  - by apply counted_cool.
  - unfold mark_hung_at, mark_failed_at. destruct (exclusive t); by apply counted_cool.
Qed.

Lemma run_ops_inv (P : PriorityTier * list nat -> Prop) (Q : op -> Prop) s os :
  (forall s o, P s -> Q o -> P (op_step s o)) -> P s -> Forall Q os -> P (run_ops s os).
Proof.
  intros Hstep. revert s. induction os as [|o os IH]; intros s Hs Hq; [done|].
  inversion Hq; subst. cbn. apply IH; auto.
Qed.

Definition capped (o : op) : Prop := match o with OAcquire _ => False | _ => True end.

Lemma op_step_cap s o :
  counted s /\ (forall i, max_sessions s.1 <> 0 -> load s.1 i <= max_sessions s.1) -> capped o ->
  let s' := op_step s o in
  counted s' /\ max_sessions s'.1 = max_sessions s.1 /\ peers s'.1 = peers s.1 /\
  (forall i, max_sessions s'.1 <> 0 -> load s'.1 i <= max_sessions s'.1).
Proof.
  intros [Hc Hm] Ho. split; [by apply op_step_counted|]. destruct s as [t gs].
  destruct Hc as ((_ & Hlen & _) & Hg & Hl). cbn in *.
  assert (Hcool : forall ip u, max_sessions (cool_until t ip u) = max_sessions t /\
    peers (cool_until t ip u) = peers t /\ forall i, max_sessions (cool_until t ip u) <> 0 ->
      load (cool_until t ip u) i <= max_sessions (cool_until t ip u)).
  { intros ip u. destruct (cool_until_frame t ip u) as (-> & E2 & ->). unfold load.
    rewrite E2. split_and!; [done|done|]. intros i. apply Hm. }
  destruct o as [ip|ip|k|ip now|ip now]; cbn in *; [done|..].
  - unfold try_acquire. destruct (index t ip) as [i|] eqn:E; [|done]. cbn.
    destruct (_ || _) eqn:Eb; [|done]. cbn. split_and!; [done|done|]. intros j Hz.
    apply index_lt in E as [Hi _]. unfold load in *. cbn in *. rewrite nth_insert by lia.
    case_decide; [|by apply Hm]. apply orb_true_iff in Eb as [?|?]; lia.
  - destruct (gs !! k) as [i|] eqn:E; [|done]. cbn. split_and!; [done|done|]. intros j Hz.
    assert (Hi : (i < length (peers t))%nat) by (rewrite Forall_forall in Hg; eapply Hg, list_elem_of_lookup_2, E).
    unfold load in *. cbn in *. rewrite nth_insert by lia. pose proof (Hm j Hz).
    case_decide; subst; lia.
  - apply Hcool.
  - unfold mark_hung_at, mark_failed_at. destruct (exclusive t); apply Hcool.
Qed.

(** C37: session slots are exact. From a fresh tier, after any interleaving of acquisitions, guard
    drops and cooldown marks by any number of sessions, each peer's counter equals the number of its
    guards alive (so it never underflows and every slot is returned), and as long as sessions come
    from [try_acquire] no peer ever carries more than [max_sessions] of them. *)
Theorem session_slots_exact (ps : list string) (max st : Z) (b : BootstrapPolicy) (e : bool)
    (os : list op) (i : nat) :
  NoDup ps -> 0 <= max -> (i < length ps)%nat ->
  let s := run_ops (with_exclusive (tier_new ps max st b) e, []) os in
  load s.1 i = held s.2 i /\ (Forall capped os -> max <> 0 -> load s.1 i <= max).
Proof.
  intros Hn Hmax Hi. cbn zeta. set (s0 := (with_exclusive (tier_new ps max st b) e, [])).
  assert (Hl0 : forall j, load s0.1 j = 0).
  { intros j. unfold load. cbn. rewrite nth_lookup.
    destruct (replicate (length ps) 0 !! j) as [x|] eqn:E; [|done]. by apply lookup_replicate in E as [-> _]. }
  assert (H0 : counted s0).
  { split; [by apply (tier_new_ok ps max st b)|]. split; [constructor|]. intros j _. by rewrite Hl0. }
  assert (Hall : forall os, counted (run_ops s0 os) /\ peers (run_ops s0 os).1 = ps).
  { intros os'. apply (run_ops_inv (fun s => counted s /\ peers s.1 = ps) (fun _ => True)).
    - intros s o [Hc Hp] _. split; [by apply op_step_counted|]. rewrite <- Hp. destruct s as [t gs].
      destruct o; cbn; repeat case_match; simplify_eq/=; try done;
        unfold acquire, try_acquire, mark_hung_at, mark_failed_at in *;
        repeat case_match; simplify_eq/=; try done; try apply cool_until_frame;
        destruct (index t _); simplify_eq/=; repeat case_match; simplify_eq/=; done.
    - done.
    - by apply Forall_true. }
  destruct (Hall os) as [(_ & _ & Hcnt) Hp]. rewrite Hp in Hcnt. split; [by apply Hcnt|].
  intros Hcap Hz.
  enough (H : (counted (run_ops s0 os) /\ (forall i, max_sessions (run_ops s0 os).1 <> 0 ->
      load (run_ops s0 os).1 i <= max_sessions (run_ops s0 os).1)) /\
    max_sessions (run_ops s0 os).1 = max)
    by (destruct H as [[_ H] E]; rewrite E in H; by apply H).
  apply (run_ops_inv (fun s => (counted s /\ (forall i, max_sessions s.1 <> 0 ->
      load s.1 i <= max_sessions s.1)) /\ max_sessions s.1 = max) capped); [|split; [|done]|done].
  - intros s o [Hs Hm] Ho. pose proof (op_step_cap s o Hs Ho) as (H1 & H2 & _ & H4).
    split; [by split|]. by rewrite H2.
  - split; [done|]. intros j _. rewrite Hl0. done.
Qed.

Lemma session_slots_exact_witness :
  let s := run_ops (example_tier, [])
    [OTryAcquire "10.0.0.1"; OTryAcquire "10.0.0.1"; OTryAcquire "10.0.0.2"; ODrop 0] in
  load s.1 0 = 1 /\ load s.1 0 <= 1 /\ load s.1 0 = held s.2 0.
Proof.
  split; [vm_compute; reflexivity|].
  destruct (session_slots_exact ["10.0.0.1"; "10.0.0.2"]%string 1 (millis 1500) Prefer true
    [OTryAcquire "10.0.0.1"; OTryAcquire "10.0.0.1"; OTryAcquire "10.0.0.2"; ODrop 0] 0) as [H1 H2].
  - by apply (bool_decide_unpack _).
  - lia.
  - cbn. lia.
  - split; [|exact H1]. apply H2; [by repeat constructor|lia].
Defined.

(** ** Cooldowns *)

Lemma cool_until_lookup t ip u i c :
  tier_ok t -> cooldown_until t !! i = Some c ->
  exists c', cooldown_until (cool_until t ip u) !! i = Some c' /\
    (forall x, c = Some x -> exists y, c' = Some y /\ x <= y) /\
    (peers t !! i = Some ip -> exists y, c' = Some y /\ u <= y).
Proof.
  intros (Hn & _ & Hlen) Hc. unfold cool_until. destruct (index t ip) as [j|] eqn:E.
  - cbn. destruct (decide (i = j)) as [-> |Hne].
    + rewrite list_lookup_insert_eq by (by eapply lookup_lt_Some).
      rewrite (nth_lookup_Some _ _ _ _ Hc).
      eexists. split; [done|]. split.
      * intros x ->. eexists. split; [done|]. lia.
      * intros _. eexists. split; [done|]. destruct c; lia.
    + rewrite list_lookup_insert_ne by done. exists c. split; [done|]. split; [eauto with lia|].
      intros Hp. apply (index_of_lookup t i ip Hn) in Hp. congruence.
  - exists c. split; [done|]. split; [eauto with lia|]. intros Hp.
    apply (index_of_lookup t i ip Hn) in Hp. congruence.
Qed.

(** The peer at [i] cools down at least until [u]. *)
Definition cools (u : Z) (i : nat) (t : PriorityTier) : Prop :=
  tier_ok t /\ exists x, cooldown_until t !! i = Some (Some x) /\ u <= x.

Lemma cools_cool_until u i t ip v : cools u i t -> cools u i (cool_until t ip v).
Proof.
  intros [Hok (x & Hx & Hu)]. split; [auto with hyper|].
  destruct (cool_until_lookup t ip v i _ Hok Hx) as (c' & Hc' & Hmono & _).
  destruct (Hmono x eq_refl) as (y & -> & ?). exists y. split; [done|]. lia.
Qed.

Lemma op_step_cools u i s o : cools u i s.1 -> cools u i (op_step s o).1.
Proof.
  destruct s as [t gs]. intros Hc.
  assert (Hs : forall j n, cools u i (set_sessions t (<[j := n]> (sessions t)))).
  { intros j n. destruct Hc as [Hok Hx]. split; [auto with hyper|done]. }
  destruct o as [ip|ip|k|ip now|ip now]; cbn.
  - unfold acquire. by destruct (index t ip); [apply Hs|].
  - unfold try_acquire. destruct (index t ip); [|done]. cbn. by destruct (_ || _); [apply Hs|].
  - by destruct (gs !! k); [apply Hs|].
  - by apply cools_cool_until.
  - unfold mark_hung_at, mark_failed_at. destruct (exclusive t); by apply cools_cool_until.
Qed.

(** A failed priority peer stays out for its whole cooldown. Once a peer is marked failed at
    [at_], no later sequence of marks, acquisitions or drops brings it back among the candidates
    before [at_ + PRIORITY_COOLDOWN]: cooldowns only ever extend. *)
Theorem failed_peer_stays_out `{UpstreamFilter} (t : PriorityTier) (gs : list nat) (ip : string)
    (at_ now : Z) (os : list op) :
  tier_ok t -> now < at_ + PRIORITY_COOLDOWN ->
  forall i, peers t !! i = Some ip ->
  let t' := (run_ops (mark_failed_at t ip at_, gs) os).1 in
  ~ peer_usable t' now i /\ ~ exists e, e ∈ candidate_indices t' now /\ e.2 = i.
Proof.
  intros Hok Hnow i Hi. cbn zeta.
  assert (Hc : cools (at_ + PRIORITY_COOLDOWN) i (run_ops (mark_failed_at t ip at_, gs) os).1).
  { apply (run_ops_inv (fun s => cools (at_ + PRIORITY_COOLDOWN) i s.1) (fun _ => True)).
    - intros s o Hs _. by apply op_step_cools.
    - cbn. split; [unfold mark_failed_at; auto with hyper|].
      destruct (lookup_lt_is_Some_2 (cooldown_until t) i) as [c Hc].
      { destruct Hok as (_ & _ & ->). by eapply lookup_lt_Some. }
      destruct (cool_until_lookup t ip (at_ + PRIORITY_COOLDOWN) i c Hok Hc) as (c' & H1 & _ & H3).
      destruct (H3 Hi) as (y & -> & ?). by exists y.
    - by apply Forall_true. }
  destruct (run_ops _ os) as [t' gs']. cbn in *. destruct Hc as [Hok' (x & Hx & Hle)].
  assert (Hnot : ~ peer_usable t' now i).
  { intros (ip' & _ & _ & Hcool & _). specialize (Hcool x Hx). lia. }
  split; [done|]. intros (e & He & <-). apply Hnot.
  apply candidate_indices_load in He as (_ & Hu & Hlt). apply usable_spec; [done| |done].
  destruct Hok' as (_ & _ & <-). done.
Qed.

Lemma failed_peer_stays_out_witness :
  ~ peer_usable (run_ops (mark_failed_at example_tier "10.0.0.1" 0, [])
      [OHung "10.0.0.1" (seconds 1); OTryAcquire "10.0.0.2"]).1 (seconds 29) 0.
Proof.
  apply (failed_peer_stays_out example_tier [] "10.0.0.1" 0 (seconds 29)
    [OHung "10.0.0.1" (seconds 1); OTryAcquire "10.0.0.2"] example_tier_ok); [|reflexivity].
  unfold PRIORITY_COOLDOWN, seconds. lia.
Defined.
