(* ===== verification/Redact.v ===== *)
(** Log redaction: what [redact_with] of [src/priority.rs] leaves of a line.

    The operations are in [Priority]; here is what they guarantee. An address leaks from a text when
    it stands in it as a whole address: not glued to more of an address on either side. *)

From S2P Require Import Prelude Text Blacklist Priority.

(** [env] is [std::env::var]. *)
Definition priority_peers_from_env (env : string -> option string) : list string :=
  priority_peers_from_raw (default EmptyString (env "HYPERSYNC_PRIORITY_PEERS")).

(** The process-wide list, set once. *)
Definition init_redaction (labels : option (list string)) (peers : list string) : option (list string) :=
  match labels with Some l => Some l | None => Some peers end.

Definition labels (l : option (list string)) : list string := default [] l.

Definition redact (l : option (list string)) (line : string) : string := redact_with line (labels l).

(** ** Leaks *)

(** [ip] stands in [s] as a whole address: the character before it is neither a digit nor a dot, the
    one behind it is not a digit, nor a dot with a digit after it. So it does in "1.2.3.4:4001" and in
    "via 1.2.3.4.", and not inside 11.2.3.45 or 1.2.3.4.5. *)
Definition leaks (ip s : list ascii) : Prop :=
  exists pre post, s = pre ++ ip ++ post /\
    (forall p c, pre = p ++ [c] -> is_digit c = false /\ c <> "."%char) /\
    (forall c p, post = c :: p -> is_digit c = false) /\
    (forall c p, post = "."%char :: c :: p -> is_digit c = false).

(** The same by the code's test. *)
Definition occurs (ip s : list ascii) : Prop :=
  exists pre post, s = pre ++ ip ++ post /\ before_ok pre = true /\ after_ok post = true.

Lemma leaks_occurs ip s : leaks ip s <-> occurs ip s.
Proof.
  assert (Hb : forall pre, before_ok pre = true <-> forall p c, pre = p ++ [c] -> is_digit c = false /\ c <> "."%char).
  { intros pre. unfold before_ok. destruct (last pre) as [c|] eqn:E.
    - apply last_Some in E as [p ->]. unfold addr_char. rewrite negb_true_iff, orb_false_iff, bool_decide_eq_false. split.
      + intros H p' c' [-> ->]%app_inj_tail. exact H.
      + intros H. exact (H p c eq_refl).
    - apply last_None in E as ->. split; [|done]. intros _ p c E. by destruct p. }
  assert (Ha : forall post, after_ok post = true <->
    (forall c p, post = c :: p -> is_digit c = false) /\ (forall c p, post = "."%char :: c :: p -> is_digit c = false)).
  { intros [|c post]; cbn [after_ok]; [done|]. destruct (is_digit c) eqn:Ec.
    - split; [done|]. intros [H _]. by rewrite (H c post eq_refl) in Ec.
    - case_decide as Hd; [subst c|].
      + destruct post as [|d post]; [split; [|done]; intros _; split; by intros c p [= <- <-]|].
        rewrite negb_true_iff. split; [|intros [_ H]; by apply (H d post)].
        intros H. split; [by intros c p [= <- <-]|by intros c p [= <- <-]].
      + split; [|done]. intros _. split; [by intros x p [= <- <-]|]. intros x p [= E _]. by destruct Hd. }
  unfold leaks, occurs. split; intros (pre & post & E & H); exists pre, post; (split; [exact E|]).
  - split; [apply Hb, H|apply Ha, H].
  - destruct H as [H1 H2]. split; [by apply Hb|by apply Ha].
Qed.

(** What an IPv4 address looks like: digits and dots, starting with a digit, with a dot somewhere,
    and a digit after every dot. *)
Fixpoint dotted (l : list ascii) : bool :=
  match l with
  | [] => true
  | c :: l =>
      (if decide (c = DOT) then match l with d :: _ => is_digit d | [] => false end else is_digit c) && dotted l
  end.

Definition address (ip : list ascii) : Prop :=
  dotted ip = true /\ DOT ∈ ip /\ match ip with c :: _ => is_digit c = true | [] => False end.

(** A label: something that ends in a character no address has, then digits. *)
Definition label_text (l : list ascii) : Prop :=
  exists c w x d, l = c :: w ++ x :: d /\ Forall (fun y => addr_char y = false) (c :: w ++ [x]) /\ d <> [] /\
    Forall (fun y => is_digit y = true) d.

(** ** Lemmas: addresses *)

Lemma dot_not_digit : is_digit DOT = false.
Proof. reflexivity. Qed.

Lemma digit_addr c : is_digit c = true -> addr_char c = true.
Proof. unfold addr_char. by intros ->. Qed.

Lemma dotted_chars l : dotted l = true -> Forall (fun c => addr_char c = true) l.
Proof.
  induction l as [|c l IH]; cbn [dotted]; intros Hd; [by apply Forall_nil_2|]. apply andb_true_iff in Hd as [Hc Hd].
  constructor; [|auto]. unfold addr_char. case_decide; [subst; by rewrite orb_true_r|by rewrite Hc].
Qed.

Lemma dotted_app_r l l' : dotted (l ++ l') = true -> dotted l' = true.
Proof. induction l as [|c l IH]; cbn; [done|]. intros [_ Hd]%andb_true_iff. auto. Qed.

Lemma dotted_dot l : dotted (DOT :: l) = true -> exists d l', l = d :: l' /\ is_digit d = true.
Proof.
  cbn [dotted]. rewrite decide_True by done. intros [Hd _]%andb_true_iff. destruct l as [|d l]; [done|]. by exists d, l.
Qed.

(** The last character of an address is a digit. *)
Lemma dotted_last l c : dotted l = true -> last l = Some c -> is_digit c = true.
Proof.
  intros Hd (l' & ->)%last_Some. apply dotted_app_r in Hd. cbn in Hd. case_decide; [done|]. by rewrite andb_true_r in Hd.
Qed.

(** A text that starts with digits and then fits the end of an address is none itself. *)
Lemma no_address_after d post ip b :
  Forall (fun y => is_digit y = true) d -> after_ok post = true -> address ip -> d ++ post <> ip ++ b.
Proof.
  intros Hd Hp (Hdot & Hin & _) E. revert ip Hdot Hin E. induction Hd as [|y d Hy _ IH]; intros ip Hdot Hin E.
  - cbn in E. subst post. destruct ip as [|c ip]; [by apply elem_of_nil in Hin|]. cbn in Hp.
    destruct (is_digit c) eqn:Ec; [done|]. assert (c = DOT) as ->.
    { cbn in Hdot. case_decide; [done|]. by rewrite Ec in Hdot. }
    rewrite decide_True in Hp by done. apply dotted_dot in Hdot as (x & l & -> & Hx). cbn in Hp. by rewrite Hx in Hp.
  - destruct ip as [|c ip]; [by apply elem_of_nil in Hin|]. cbn in E. injection E as <- E.
    apply (IH ip); [by apply (dotted_app_r [y])| |done].
    apply elem_of_cons in Hin as [<-|?]; [by rewrite dot_not_digit in Hy|done].
Qed.

(** ** Lemmas: replacing one occurrence *)

(** What follows decides [after_ok] only through its first two characters. *)
Lemma after_ok_swap c x y :
  c <> [] -> last c <> Some DOT -> after_ok (c ++ x) = true -> after_ok (c ++ y) = true.
Proof.
  destruct c as [|a [|b c]]; intros Hc Hl; [done| |by cbn]. cbn. cbn in Hl.
  destruct (is_digit a); [done|]. rewrite !decide_False by congruence. done.
Qed.

Lemma before_ok_last pre c : before_ok (pre ++ [c]) = negb (addr_char c).
Proof. unfold before_ok. by rewrite last_snoc. Qed.

Lemma before_ok_app pre x : x <> [] -> before_ok (pre ++ x) = before_ok x.
Proof. intros Hx. destruct (exists_last Hx) as (x' & c & ->). by rewrite app_assoc, !before_ok_last. Qed.

(** Two splits of a list, by the longer left part. *)
Lemma app_split {A} (l1 l2 k1 k2 : list A) :
  l1 ++ l2 = k1 ++ k2 -> (exists x, k1 = l1 ++ x /\ l2 = x ++ k2) \/ (exists x, x <> [] /\ l1 = k1 ++ x /\ k2 = x ++ l2).
Proof.
  revert k1. induction l1 as [|a l1 IH]; intros k1 E; [left; by exists k1|].
  destruct k1 as [|b k1]; [right; by exists (a :: l1)|]. injection E as -> E.
  destruct (IH k1 E) as [(x & -> & ->)|(x & Hx & -> & ->)]; [left|right]; by exists x.
Qed.

(** A leak that starts at or after the label is one behind it. *)
Lemma leak_behind t L P post x b :
  address t -> label_text L -> after_ok post = true -> L ++ post = x ++ t ++ b -> before_ok (P ++ x) = true ->
  exists a', a' <> [] /\ x = L ++ a' /\ post = a' ++ t ++ b.
Proof.
  intros Ht (c0 & w & x0 & d & -> & Hw & Hd0 & Hd) Hpost E Ha. pose proof Ht as (_ & _ & Hhd).
  destruct (app_split (c0 :: w ++ [x0]) (d ++ post) x (t ++ b)) as [(y & -> & E3)|(y & Hy & E4 & E5)].
  { rewrite <- E. cbn. by rewrite <- !app_assoc. }
  2:{ exfalso. destruct y as [|y0 y]; [done|]. destruct t as [|t0 t]; [done|]. cbn in E5. injection E5 as <- _.
      rewrite E4 in Hw. apply Forall_app in Hw as [_ Hw]. apply Forall_cons_1 in Hw as [Hw _].
      apply digit_addr in Hhd. congruence. }
  destruct (decide (y = [])) as [->|Hy]; [by destruct (no_address_after d post t b Hd Hpost Ht E3)|].
  rewrite app_assoc, before_ok_app in Ha by done.
  assert (Hno : forall y1 y2, y = y1 ++ y2 -> d = y1 \/ y2 = [] /\ y1 `prefix_of` d -> y2 <> []).
  { intros y1 y2 -> Hy2 ->. rewrite app_nil_r in *. destruct (exists_last Hy) as (y' & yl & ->).
    rewrite before_ok_last in Ha. assert (Hyl : is_digit yl = true).
    { destruct Hy2 as [->|[_ [k ->]]]; repeat (apply Forall_app in Hd as [Hd ?]); decompose_Forall; done. }
    apply digit_addr in Hyl. by rewrite Hyl in Ha. }
  destruct (app_split _ _ _ _ E3) as [(z & -> & E4)|(z & Hz & -> & E5)].
  - exists z. split_and!; [apply (Hno d); auto|cbn; by rewrite <- !app_assoc|done].
  - destruct (Hno y [] (eq_sym (app_nil_r y))); [right; split; [done|by exists z]|done].
Qed.

(** A leak that starts before the label was there before. *)
Lemma leak_before t L a x b new :
  address t -> label_text L -> x <> [] -> before_ok (a ++ x) = true -> t ++ b = x ++ L ++ new -> after_ok b = true ->
  exists c, x = t ++ c /\ forall old, after_ok (c ++ old) = true.
Proof.
  intros (Hdot & _ & Hhd) (c0 & w & x0 & d & -> & Hw & _) Hx HP E Hb.
  destruct (app_split _ _ _ _ E) as [(y & -> & E3)|(y & Hy & -> & E3)].
  - exists y. split; [done|]. intros old. assert (Ht : t <> []) by (by intros ->).
    destruct (decide (y = [])) as [->|Hy].
    + exfalso. rewrite app_nil_r, before_ok_app in HP by done. destruct (exists_last Ht) as (t' & tl & Et).
      pose proof (dotted_last t tl Hdot) as Hl. rewrite Et in *. rewrite before_ok_last in HP. rewrite last_snoc in Hl.
      specialize (Hl eq_refl). apply digit_addr in Hl. by rewrite Hl in HP.
    + subst b. eapply after_ok_swap; [done| |exact Hb]. intros (y' & ->)%last_Some.
      rewrite !app_assoc, before_ok_last in HP. done.
  - exfalso. destruct y as [|y0 y]; [done|]. cbn in E3. injection E3 as <- _.
    pose proof (dotted_chars _ Hdot) as Hch. apply Forall_app in Hch as [_ Hch]. apply Forall_cons_1 in Hch as [Hch _].
    apply Forall_cons_1 in Hw as [Hw _]. congruence.
Qed.

(** After an address is replaced by its label, an address occurs only where one did, before it or
    behind it. *)
Lemma replaced_leak t ip L P post a b :
  address t -> address ip -> label_text L -> before_ok P = true -> after_ok post = true ->
  P ++ L ++ post = a ++ t ++ b -> before_ok a = true -> after_ok b = true ->
  (exists c, P = a ++ t ++ c /\ after_ok (c ++ ip ++ post) = true) \/
  (exists a', a' <> [] /\ a = P ++ L ++ a' /\ post = a' ++ t ++ b).
Proof.
  intros Ht Hip HL HP Hpost E Ha Hb. destruct (app_split _ _ _ _ E) as [(x & -> & E2)|(x & Hx & -> & E2)].
  - right. destruct (leak_behind t L P post x b Ht HL Hpost E2 Ha) as (a' & H1 & -> & H3). by exists a'.
  - left. destruct (leak_before t L a x b post Ht HL Hx HP E2 Hb) as (c & -> & Hc). exists c. split; [done|apply Hc].
Qed.

(** ** Lemmas: the loop *)

Lemma find_sub_Some pat l p :
  find_sub pat l = Some p -> exists post, l = take p l ++ pat ++ post /\ post = drop (p + length pat) l /\
    (p <= length l)%nat /\ forall x y, l = x ++ pat ++ y -> (p <= length x)%nat.
Proof.
  revert p. induction l as [|c l IH]; intros p; cbn [find_sub]; case_decide as Hd.
  - intros [= <-]. rewrite take_nil in Hd. subst pat. exists []. split_and!; [done|done|cbn; lia|lia].
  - done.
  - intros [= <-]. exists (drop (length pat) (c :: l)). split_and!; [|done|lia|lia]. rewrite <- Hd at 1. by rewrite take_drop.
  - destruct (find_sub pat l) as [q|]; [|done]. intros [= <-]. destruct (IH q eq_refl) as (post & E & -> & Hq & Hm).
    exists (drop (q + length pat) l). split_and!; [|done|cbn; lia|].
    + cbn [take app Nat.add]. f_equal. exact E.
    + intros [|a x] y Ex; [|cbn in Ex; injection Ex as -> Ex; apply Hm in Ex; cbn; lia].
      destruct Hd. cbn in Ex. rewrite Ex. by rewrite take_app_length.
Qed.

Lemma find_sub_None pat l : find_sub pat l = None -> forall x y, l <> x ++ pat ++ y.
Proof.
  induction l as [|c l IH]; cbn [find_sub]; case_decide as Hd; try done; intros Hn x y E.
  - destruct x; [|done]. destruct pat; done.
  - destruct x as [|a x]; [destruct Hd; cbn in E; rewrite E; by rewrite take_app_length|].
    destruct (find_sub pat l); [done|]. cbn in E. injection E as _ E. by eapply IH.
Qed.

Section Loop.
Context (ip L : list ascii) (Hip : address ip) (HL : label_text L).

Lemma address_length : (0 < length ip)%nat.
Proof. destruct Hip as (_ & _ & Hh). destruct ip; [done|cbn; lia]. Qed.

(** Leaks only from a position on. *)
Definition leaks_from (n : nat) (t s : list ascii) : Prop :=
  forall a b, s = a ++ t ++ b -> before_ok a = true -> after_ok b = true -> (n <= length a)%nat.

(** One turn of the loop. *)
Lemma redact_turn pre rest p :
  find_sub ip rest = Some p ->
  let P := pre ++ take p rest in let post := drop (p + length ip) rest in
  pre ++ rest = P ++ ip ++ post /\
  (leaks_from (length pre) ip (pre ++ rest) -> leaks_from (length P) ip (pre ++ rest)).
Proof.
  intros (post' & E & -> & Hp & Hm)%find_sub_Some P post. unfold P, post. split; [by rewrite <- app_assoc, <- E|].
  intros Hf a b Ea Ha Hb. pose proof (Hf a b Ea Ha Hb) as Hl.
  destruct (app_split _ _ _ _ Ea) as [(x & -> & Ex)|(x & Hx & -> & Ex)].
  - apply Hm in Ex. rewrite !length_app, length_take. lia.
  - rewrite length_app in Hl. destruct x; [done|cbn in Hl; lia].
Qed.

Lemma redact_loop_own fuel pre rest :
  (length rest < fuel)%nat -> leaks_from (length pre) ip (pre ++ rest) -> ~ occurs ip (redact_loop fuel ip L pre rest).
Proof.
  revert pre rest. induction fuel as [|fuel IH]; intros pre rest Hfu Hf; [lia|]. cbn [redact_loop].
  pose proof address_length as Hn. destruct (find_sub ip rest) as [p|] eqn:Ef.
  2:{ intros (a & b & Ea & Ha & Hb). pose proof (Hf a b Ea Ha Hb) as Hl.
      destruct (app_split _ _ _ _ Ea) as [(x & -> & Ex)|(x & Hx & -> & Ex)]; [by apply (find_sub_None _ _ Ef x b)|].
      rewrite length_app in Hl. destruct x; [done|cbn in Hl; lia]. }
  destruct (redact_turn pre rest p Ef) as [E Hfrom]. specialize (Hfrom Hf).
  apply find_sub_Some in Ef as (_ & _ & _ & Hp & _).
  assert (Hr : (length ip <= length rest)%nat /\ (p + length ip <= length rest)%nat).
  { apply (f_equal length) in E. rewrite !length_app, length_take, length_drop in E. lia. }
  destruct (before_ok _ && after_ok _) eqn:Eb.
  - apply andb_true_iff in Eb as [E1 E2]. rewrite app_assoc. apply IH; [rewrite length_drop; lia|].
    rewrite E in Hfrom. intros a b Ea Ha Hb. rewrite <- app_assoc in Ea.
    destruct (replaced_leak ip ip L _ _ a b Hip Hip HL E1 E2 Ea Ha Hb) as [(c & Ec & Hc)|(a' & _ & -> & _)].
    + assert (Hl : (length (pre ++ take p rest) <= length a)%nat).
      { apply (Hfrom a (c ++ ip ++ drop (p + length ip) rest)); [|done|done]. rewrite Ec. by rewrite <- !app_assoc. }
      rewrite Ec in Hl. rewrite !length_app in Hl. lia.
    + rewrite !length_app. lia.
  - apply IH; [rewrite length_drop; lia|]. rewrite <- app_assoc, take_drop. intros a b Ea Ha Hb.
    pose proof (Hfrom a b Ea Ha Hb) as Hl. destruct (decide (length a = length (pre ++ take p rest))) as [El|Hne].
    + exfalso. rewrite E in Ea. apply app_inj_1 in Ea as [Ea1 Ea2]; [|done]. apply app_inv_head in Ea2.
      rewrite Ea1, Ha, Ea2, Hb in Eb. done.
    + rewrite !length_app, !length_take in *. lia.
Qed.

(** Another address that does not leak before does not leak after. *)
Lemma redact_loop_other t fuel pre rest :
  address t -> ~ occurs t (pre ++ rest) -> ~ occurs t (redact_loop fuel ip L pre rest).
Proof.
  intros Ht. revert pre rest. induction fuel as [|fuel IH]; intros pre rest Hf; cbn [redact_loop]; [done|].
  destruct (find_sub ip rest) as [p|] eqn:Ef; [|done]. destruct (redact_turn pre rest p Ef) as [E _].
  destruct (before_ok _ && after_ok _) eqn:Eb.
  - apply andb_true_iff in Eb as [E1 E2]. rewrite app_assoc. apply IH. rewrite E in Hf.
    intros (a & b & Ea & Ha & Hb). apply Hf. rewrite <- app_assoc in Ea.
    destruct (replaced_leak t ip L _ _ a b Ht Hip HL E1 E2 Ea Ha Hb) as [(c & Ec & Hc)|(a' & Ha' & -> & Ep)].
    + exists a, (c ++ ip ++ drop (p + length ip) rest). rewrite Ec at 1. by rewrite <- !app_assoc.
    + exists ((pre ++ take p rest) ++ ip ++ a'), b. rewrite Ep. split_and!; [by rewrite <- !app_assoc| |done].
      rewrite !app_assoc in *. by rewrite before_ok_app in * by done.
  - apply IH. by rewrite <- app_assoc, take_drop.
Qed.

(** Nothing else is touched. *)
Lemma redact_loop_id fuel pre rest : ~ occurs ip (pre ++ rest) -> redact_loop fuel ip L pre rest = pre ++ rest.
Proof.
  revert pre rest. induction fuel as [|fuel IH]; intros pre rest Hf; cbn [redact_loop]; [done|].
  destruct (find_sub ip rest) as [p|] eqn:Ef; [|done]. destruct (redact_turn pre rest p Ef) as [E _].
  destruct (before_ok _ && after_ok _) eqn:Eb.
  - apply andb_true_iff in Eb as [E1 E2]. destruct Hf. rewrite E. by eexists _, _.
  - rewrite IH; rewrite <- app_assoc, take_drop; done.
Qed.
End Loop.

(** ** Lemmas: the list of addresses *)

Lemma digits_dotted d l : forallb is_digit d = true -> dotted (d ++ l) = dotted l.
Proof.
  induction d as [|c d IH]; cbn [forallb app dotted]; [done|]. intros [Hc Hd]%andb_true_iff. rewrite (IH Hd).
  rewrite decide_False by (intros ->; by rewrite dot_not_digit in Hc). by rewrite Hc.
Qed.

Lemma dot_then_digits d l : forallb is_digit d = true -> d <> [] -> dotted (DOT :: d ++ l) = dotted l.
Proof.
  intros Hd Hn. pose proof (digits_dotted d l Hd) as E. destruct d as [|c d]; [done|]. cbn [dotted app] in *.
  rewrite decide_True by done. cbn in Hd. apply andb_true_iff in Hd as [Hc _]. rewrite Hc in *. exact E.
Qed.

Lemma ipv4_address i : valid_ip i -> address (chars (show_ipv4 i)).
Proof.
  intros (H1 & H2 & H3 & H4). unfold octet in *. unfold show_ipv4. rewrite chars_text. unfold show_ipv4_list.
  assert (Hd : forall n, 0 <= n < 256 -> forallb is_digit (show_list n) = true) by (intros; apply show_list_digits; lia).
  pose proof show_list_nonempty as Hn. split_and!.
  - rewrite digits_dotted, !dot_then_digits by auto. rewrite <- (app_nil_r (show_list (oct4 i))).
    by rewrite dot_then_digits by auto.
  - set_solver.
  - pose proof (Hd _ H1) as Hx. destruct (show_list (oct1 i)) as [|c l] eqn:E; [by apply Hn in E|]. cbn in *. by apply andb_true_iff in Hx as [? _].
Qed.

Lemma prio_label n : 0 <= n -> label_text (chars ("prio-" +:+ show n)).
Proof.
  intros Hn. rewrite chars_app. unfold show. rewrite chars_text.
  eexists _, [_; _; _], _, (show_list n). split; [reflexivity|]. split_and!.
  - repeat (apply Forall_cons_2; [vm_compute; reflexivity|]). apply Forall_nil_2.
  - apply show_list_nonempty.
  - apply Forall_forall. intros c Hc. pose proof (show_list_digits n Hn) as Hd.
    rewrite forallb_forall in Hd. apply Hd. by apply list_elem_of_In.
Qed.

Definition ip_entry (e : nat * string) : Prop := address (chars e.2).

Lemma redact_one_own out e : ip_entry e -> ~ occurs (chars e.2) (redact_one out e).
Proof. intros He. apply redact_loop_own; [done|apply prio_label; lia|lia|]. intros a b _ _ _. cbn. lia. Qed.

Lemma redact_one_other t out e : ip_entry e -> address t -> ~ occurs t out -> ~ occurs t (redact_one out e).
Proof. intros He Ht Hl. apply redact_loop_other; [done|apply prio_label; lia|done|done]. Qed.

Lemma redact_fold es out :
  Forall ip_entry es ->
  (forall t, address t -> ~ occurs t out -> ~ occurs t (foldl redact_one out es)) /\
  (forall e, e ∈ es -> ~ occurs (chars e.2) (foldl redact_one out es)).
Proof.
  intros He. revert out. induction He as [|e es He _ IH]; intros out; cbn [foldl]; [split; [done|by intros e ?%elem_of_nil]|].
  destruct (IH (redact_one out e)) as [IH1 IH2]. split.
  - intros t Ht Hl. apply IH1; [done|]. by apply redact_one_other.
  - intros x [->|Hx]%elem_of_cons; [|by apply IH2]. apply IH1; [done|]. by apply redact_one_own.
Qed.

Lemma redact_fold_id es out :
  (forall e, e ∈ es -> ~ occurs (chars e.2) out) -> foldl redact_one out es = out.
Proof.
  induction es as [|e es IH]; intros He; cbn [foldl]; [done|].
  assert (E : redact_one out e = out) by (apply redact_loop_id; apply He; by left).
  rewrite E. apply IH. intros x Hx. apply He. by right.
Qed.

Lemma entries_of (ls : list string) (ip : string) : ip ∈ ls -> exists i, (i, ip) ∈ imap pair ls.
Proof.
  intros [i Hi]%list_elem_of_lookup. exists i. apply list_elem_of_lookup. exists i. rewrite list_lookup_imap, Hi. done.
Qed.

Lemma entries_in (ls : list string) e : e ∈ imap pair ls -> e.2 ∈ ls.
Proof.
  intros [i Hi]%list_elem_of_lookup. rewrite list_lookup_imap in Hi. destruct (ls !! i) as [x|] eqn:E; [|done].
  cbn in Hi. injection Hi as <-. by eapply list_elem_of_lookup_2.
Qed.

Lemma redact_with_hidden line ls :
  Forall (fun ip => address (chars ip)) ls ->
  (forall ip, ip ∈ ls -> ~ occurs (chars ip) (chars (redact_with line ls))) /\
  ((forall ip, ip ∈ ls -> ~ occurs (chars ip) (chars line)) -> redact_with line ls = line).
Proof.
  intros Hl. assert (He : Forall ip_entry (imap pair ls)).
  { apply Forall_forall. intros e Hi%entries_in. rewrite Forall_forall in Hl. by apply Hl. }
  unfold redact_with. destruct (_ || _) eqn:E.
  - split; [|done]. intros ip Hin (a & b & Ea & _). apply orb_true_iff in E as [E|E].
    { apply bool_decide_eq_true in E. subst. by apply elem_of_nil in Hin. }
    apply negb_true_iff in E. assert (Hx : existsb (fun p => bool_decide (is_Some (find_sub (chars p) (chars line)))) ls = true).
    { apply existsb_exists. exists ip. split; [by apply list_elem_of_In|]. apply bool_decide_eq_true.
      destruct (find_sub (chars ip) (chars line)) eqn:Ef; [done|]. by destruct (find_sub_None _ _ Ef a b). }
    congruence.
  - rewrite chars_text. destruct (redact_fold _ (chars line) He) as [_ H2]. split.
    + intros ip Hin. destruct (entries_of ls ip Hin) as [i Hi]. exact (H2 _ Hi).
    + intros Hc. rewrite redact_fold_id, text_chars; [done|]. intros e Hi%entries_in. by apply Hc.
Qed.

Lemma redact_with_hides line ls :
  Forall (fun ip => address (chars ip)) ls ->
  (forall ip, ip ∈ ls -> ~ leaks (chars ip) (chars (redact_with line ls))) /\
  ((forall ip, ip ∈ ls -> ~ leaks (chars ip) (chars line)) -> redact_with line ls = line).
Proof.
  intros Hl. destruct (redact_with_hidden line ls Hl) as [H1 H2]. split.
  - intros ip Hip. rewrite leaks_occurs. by apply H1.
  - intros H. apply H2. intros ip Hip. rewrite <- leaks_occurs. by apply H.
Qed.

Lemma priority_peers_addresses raw : Forall (fun ip => address (chars ip)) (priority_peers_from_raw raw).
Proof.
  unfold priority_peers_from_raw. apply foldl_inv; [by apply Forall_nil_2|]. intros out item Ho.
  destruct (parse_ipv4 item) as [i|] eqn:E; [|done]. case_decide; [done|]. apply Forall_app. split; [done|].
  apply Forall_singleton, ipv4_address. by apply parse_ipv4_canonical in E as [? _].
Qed.

(** ** Property *)

(** C32: the log never names a priority peer. Whatever the line and whatever
    [HYPERSYNC_PRIORITY_PEERS] lists, the redacted line holds none of the listed addresses as a whole
    address, not even one that the replacement of another would have freed; a line that names none
    is printed as it is, so redacting twice changes nothing; and the list installed first stays. *)
Theorem redaction_hides_priority_peers (env : string -> option string) (line : string) (later : list string) :
  let l := init_redaction None (priority_peers_from_env env) in
  (forall ip, ip ∈ priority_peers_from_env env -> ~ leaks (chars ip) (chars (redact l line))) /\
  ((forall ip, ip ∈ priority_peers_from_env env -> ~ leaks (chars ip) (chars line)) -> redact l line = line) /\
  redact l (redact l line) = redact l line /\ init_redaction l later = l.
Proof.
  intros l. pose proof (priority_peers_addresses (default EmptyString (env "HYPERSYNC_PRIORITY_PEERS"))) as Ha. fold (priority_peers_from_env env) in Ha. unfold l, redact, labels. cbn [init_redaction default].
  destruct (redact_with_hides line _ Ha) as [H1 H2]. split_and!; [done|done| |done].
  by apply redact_with_hides.
Qed.
