(* ===== verification/BTree.v ===== *)
(** Rust's [BTreeMap<u32, V>] as a strictly key-sorted association list, with the operations the
    failover core uses ([insert], [remove], [get], [pop_first], [pop_last], [range]), and its
    agreement with a finite map. *)

From S2P Require Import Prelude.

Section Ops.
Context {V : Type}.
Implicit Types (m : list (Z * V)) (k : Z) (v : V).

Fixpoint bt_get k m : option V :=
  match m with
  | [] => None
  | (k', v) :: m => if k =? k' then Some v else bt_get k m
  end.

Fixpoint bt_insert k v m : list (Z * V) :=
  match m with
  | [] => [(k, v)]
  | (k', v') :: m' =>
      if k <? k' then (k, v) :: m
      else if k =? k' then (k, v) :: m'
      else (k', v') :: bt_insert k v m'
  end.

Fixpoint bt_remove k m : list (Z * V) :=
  match m with
  | [] => []
  | (k', v') :: m' => if k =? k' then m' else (k', v') :: bt_remove k m'
  end.

(** [pop_last]: the highest entry and the rest. *)
Fixpoint bt_pop_last m : option ((Z * V) * list (Z * V)) :=
  match m with
  | [] => None
  | [kv] => Some (kv, [])
  | kv :: m' =>
      match bt_pop_last m' with
      | Some (top, rest) => Some (top, kv :: rest)
      | None => None
      end
  end.

(** [range(k..)], in key order. *)
Definition bt_range k m : list (Z * V) := filter (fun kv => k <= kv.1) m.

Definition bt_ok m : Prop := StronglySorted Z.lt (map fst m).
End Ops.

Section Laws.
Context {V : Type}.
Implicit Types (m : list (Z * V)) (k : Z) (v : V).

Lemma bt_ok_cons k v m : bt_ok ((k, v) :: m) <-> bt_ok m /\ Forall (fun kv => k < kv.1) m.
Proof.
  unfold bt_ok. cbn [map fst]. split.
  - intros [Hm Hk]%StronglySorted_inv. split; [done|]. by rewrite List.Forall_map in Hk.
  - intros [Hm Hk]. constructor; [done|]. by rewrite List.Forall_map.
Qed.

Lemma bt_insert_Forall (P : Z * V -> Prop) k v m :
  P (k, v) -> Forall P m -> Forall P (bt_insert k v m).
Proof.
  intros Hp Hm. induction Hm as [|[k' v'] m Hx Hm IH]; cbn; [by repeat constructor|].
  destruct (k <? k'); [by repeat constructor|]. destruct (k =? k'); by constructor.
Qed.

Lemma bt_remove_Forall (P : Z * V -> Prop) k m : Forall P m -> Forall P (bt_remove k m).
Proof.
  intros Hm. induction Hm as [|[k' v'] m Hx Hm IH]; cbn; [done|].
  destruct (k =? k'); [done|by constructor].
Qed.

Lemma bt_insert_ok k v m : bt_ok m -> bt_ok (bt_insert k v m).
Proof.
  induction m as [|[k' v'] m IH]; cbn; intros Hm.
  { apply bt_ok_cons. split; [done|constructor]. }
  apply bt_ok_cons in Hm as [Hm Hk].
  destruct (k <? k') eqn:E1; [|destruct (k =? k') eqn:E2]; zify_bool.
  - apply bt_ok_cons. split; [by apply bt_ok_cons|]. constructor; [cbn; lia|].
    eapply Forall_impl; [done|]. cbn. lia.
  - subst k'. by apply bt_ok_cons.
  - apply bt_ok_cons. split; [by apply IH|]. apply bt_insert_Forall; [cbn; lia|done].
Qed.

Lemma bt_remove_ok k m : bt_ok m -> bt_ok (bt_remove k m).
Proof.
  induction m as [|[k' v'] m IH]; cbn; intros Hm; [done|].
  apply bt_ok_cons in Hm as [Hm Hk]. destruct (k =? k'); [done|].
  apply bt_ok_cons. split; [by apply IH|by apply bt_remove_Forall].
Qed.

Lemma bt_get_elem k v m : bt_ok m -> bt_get k m = Some v <-> (k, v) ∈ m.
Proof.
  induction m as [|[k' v'] m IH]; cbn; intros Hm; [split; [done|by intros ?%elem_of_nil]|].
  apply bt_ok_cons in Hm as [Hm Hk]. rewrite elem_of_cons, <- IH by done.
  destruct (k =? k') eqn:E; zify_bool.
  - subst k'. split; [intros [= ->]; by left|]. intros [[= ->]|Hg]; [done|].
    apply IH in Hg; [|done]. rewrite Forall_forall in Hk. apply Hk in Hg. cbn in Hg. lia.
  - split; [by right|]. intros [[= -> _]|?]; done.
Qed.

(** The association list is the finite map it represents: the operations commute with
    [list_to_map]. *)
Lemma bt_get_gmap k m : bt_get k m = (list_to_map m : gmap Z V) !! k.
Proof.
  induction m as [|[k' v'] m IH]; cbn; [by rewrite lookup_empty|].
  rewrite lookup_insert. destruct (Z.eqb_spec k k') as [->|]; case_decide; congruence.
Qed.

Lemma bt_insert_gmap k v m :
  (list_to_map (bt_insert k v m) : gmap Z V) = <[k := v]> (list_to_map m).
Proof.
  induction m as [|[k' v'] m IH]; cbn; [done|].
  destruct (k <? k'); [done|]. destruct (Z.eqb_spec k k') as [->|Hne]; cbn.
  - by rewrite insert_insert_eq.
  - rewrite IH. by rewrite insert_insert_ne.
Qed.

Lemma bt_remove_not_elem k m : bt_ok m -> Forall (fun kv => kv.1 <> k) (bt_remove k m).
Proof.
  induction m as [|[k' v'] m IH]; cbn; intros Hm; [constructor|].
  apply bt_ok_cons in Hm as [Hm Hk]. destruct (Z.eqb_spec k k') as [->|].
  - eapply Forall_impl; [done|]. cbn. lia.
  - constructor; [cbn; lia|auto].
Qed.

Lemma bt_remove_sub k m kv : kv ∈ bt_remove k m -> kv ∈ m.
Proof.
  induction m as [|[k' v'] m IH]; cbn; [done|]. destruct (k =? k').
  - intros. by constructor.
  - rewrite !elem_of_cons. naive_solver.
Qed.

Lemma bt_get_remove_ne k r m : k <> r -> bt_get k (bt_remove r m) = bt_get k m.
Proof.
  intros Hne. induction m as [|[k' v'] m IH]; cbn; [done|].
  destruct (Z.eqb_spec r k') as [->|]; cbn; destruct (Z.eqb_spec k k'); done.
Qed.

(** [pop_last] removes the last entry of the list. *)
Lemma bt_pop_last_spec m top rest : bt_pop_last m = Some (top, rest) -> m = rest ++ [top].
Proof.
  revert top rest. induction m as [|kv m IH]; intros top rest; cbn; [done|].
  destruct m as [|kv' m]; [by intros [= <- <-]|].
  destruct (bt_pop_last (kv' :: m)) as [[t r]|] eqn:E; [|done]. intros [= <- <-].
  by rewrite (IH _ _ eq_refl).
Qed.

Lemma bt_pop_last_None m : bt_pop_last m = None -> m = [].
Proof.
  induction m as [|kv m IH]; cbn; [done|]. destruct m as [|kv' m]; [done|].
  destruct (bt_pop_last (kv' :: m)) as [[t r]|]; [done|]. intros _. by discriminate IH.
Qed.

Lemma bt_ok_app_l m m' : bt_ok (m ++ m') -> bt_ok m.
Proof. unfold bt_ok. rewrite map_app. apply StronglySorted_app_1_l. Qed.

Lemma bt_ok_app_r m m' : bt_ok (m ++ m') -> bt_ok m'.
Proof. unfold bt_ok. rewrite map_app. apply StronglySorted_app_1_r. Qed.

Lemma bt_ok_app_lt m m' a b : bt_ok (m ++ m') -> a ∈ m -> b ∈ m' -> a.1 < b.1.
Proof.
  induction m as [|[k v] m IH]; cbn; intros Hok Ha Hb; [by apply elem_of_nil in Ha|].
  apply bt_ok_cons in Hok as [Hok Hk]. apply elem_of_cons in Ha as [->|Ha]; [|by apply IH].
  rewrite Forall_forall in Hk. apply (Hk b). rewrite elem_of_app. by right.
Qed.

Lemma bt_range_ok k m : bt_ok m -> bt_ok (bt_range k m).
Proof.
  intros Hm. unfold bt_range. induction m as [|[k' v] m IH]; [done|].
  apply bt_ok_cons in Hm as [Hm Hk]. rewrite filter_cons. case_decide; [|auto].
  apply bt_ok_cons. split; [auto|]. apply Forall_forall. intros x Hx.
  apply list_elem_of_filter in Hx as [_ Hx]. rewrite Forall_forall in Hk. auto.
Qed.

Lemma elem_of_bt_range k m kv : kv ∈ bt_range k m <-> k <= kv.1 /\ kv ∈ m.
Proof. unfold bt_range. by rewrite list_elem_of_filter. Qed.

(** Removing the first entry of a range leaves the rest of the range. *)
Lemma bt_range_remove k m r v rest :
  bt_ok m -> bt_range k m = (r, v) :: rest ->
  forall k', r < k' -> bt_range k' (bt_remove r m) = bt_range k' m.
Proof.
  intros Hm _ k' Hr. unfold bt_range. induction m as [|[k1 v1] m IH]; [done|].
  apply bt_ok_cons in Hm as [Hm _]. cbn [bt_remove]. destruct (Z.eqb_spec r k1) as [->|].
  - rewrite filter_cons. case_decide as Hd; [cbn in Hd; lia|done].
  - rewrite !filter_cons. case_decide; [f_equal|]; auto.
Qed.

(** The entries of a range above its first one. *)
Lemma bt_range_tail k m r v rest k' :
  bt_ok m -> bt_range k m = (r, v) :: rest -> k' = r + 1 -> bt_range k' m = rest.
Proof.
  intros Hm. unfold bt_range. induction m as [|[k1 v1] m IH]; [done|].
  apply bt_ok_cons in Hm as [Hm Hk]. rewrite !filter_cons. cbn [fst].
  destruct (decide (k <= k1)) as [Hle|Hgt].
  - intros [= -> -> <-] ->. case_decide as Hd; [cbn in Hd; lia|].
    rewrite !filter_all; [done|eapply Forall_impl; [done|]; cbn; lia..].
  - intros Hf Hk'. assert (Hr : (r, v) ∈ filter (fun kv => k <= kv.1) m)
      by (rewrite Hf; constructor).
    apply list_elem_of_filter in Hr as [Hr _]. cbn in Hr. case_decide; [lia|]. auto.
Qed.
End Laws.

#[export] Hint Resolve bt_insert_ok bt_remove_ok bt_range_ok : hyper.
