(* ===== verification/Wire.v ===== *)
(** Wire format and round logic: [src/protocol.rs].

    Block-round extraction from a (possibly only partly decompressed) live block, the bounded LZ4
    decoder, plausibility and lag checks, frame counting, round clustering, and the
    forward gate with its de-duplication window. *)

From S2P Require Import Prelude.

(** ** Constants *)

Definition GREET_FALSE : bytes := [0; 0; 0; 3; 0; 0; 0; 0].
Definition GREET_TRUE : bytes := [0; 0; 0; 3; 0; 1; 0; 0].
Definition MIN_PLAUSIBLE_MAINNET_ROUND : Z := 1000000000.
Definition MIN_COMPLETE_BOOTSTRAP_BYTES : Z := 5200000000.
Definition MIN_COMPLETE_BOOTSTRAP_FRAMES : Z := 4000.
Definition MAX_LIVE_FRAME : Z := 8000000.
Definition ACTIVE_ROUND_MAX_LAG : Z := 1500.
Definition NET_TIP_SLACK_ROUNDS : Z := 200000.
Definition ROUND_SCAN_BYTES : nat := 1024.
Definition MAX_PARENT_ROUND_GAP : Z := 256.
Definition MAX_DECOMPRESSED_BLOCK : Z := 4000000.

(** ** Plausibility and lag *)

Definition is_plausible_mainnet_round (round net_tip : Z) : bool :=
  (MIN_PLAUSIBLE_MAINNET_ROUND <=? round) &&
  ((net_tip =? 0) || (round <=? sat_add32 net_tip NET_TIP_SLACK_ROUNDS)).

Definition round_lag_from_tip (round net_tip max_lag : Z) : option Z :=
  if (net_tip =? 0) || (net_tip <=? round) then None
  else
    let lag := net_tip - round in
    if max_lag <? lag then Some lag else None.

(** ** The round triple in a decompressed block *)

(** The closure [rd] of [find_block_round_parent]: the u32 after the marker at [o]. *)
Definition rd (dec : bytes) (o : nat) : Z :=
  from_le [byte_at dec (o + 1); byte_at dec (o + 2); byte_at dec (o + 3); byte_at dec (o + 4)].

(** One iteration of the scan: the test at offset [o]. *)
Definition triple_at (dec : bytes) (o : nat) : option (Z * Z) :=
  if (byte_at dec o =? 252) && (byte_at dec (o + 5) =? 252) && (byte_at dec (o + 10) =? 252)
  then
    let r := rd dec o in
    let r1 := rd dec (o + 5) in
    let r2 := rd dec (o + 10) in
    if (r1 <? r) && (r - r1 <=? MAX_PARENT_ROUND_GAP) &&
       (r2 <? r1) && (r1 - r2 <=? MAX_PARENT_ROUND_GAP)
    then Some (r, r1) else None
  else None.

Fixpoint scan_round (fuel : nat) (dec : bytes) (end_ o : nat) : option (Z * Z) :=
  match fuel with
  | O => None
  | S fuel =>
      if (o + 15 <=? end_)%nat then
        match triple_at dec o with
        | Some x => Some x
        | None => scan_round fuel dec end_ (S o)
        end
      else None
  end.

Definition find_block_round_parent (dec : bytes) : option (Z * Z) :=
  let end_ := Nat.min (length dec) ROUND_SCAN_BYTES in
  scan_round (S end_) dec end_ 0.

Definition find_block_round (dec : bytes) : option Z :=
  fst <$> find_block_round_parent dec.

(** ** Bounded LZ4 decoding *)

(** The length-extension loop: add bytes while they are 255; [None] when the input runs out. *)
Fixpoint ext_bytes (acc : nat) (input : bytes) : option (nat * bytes) :=
  match input with
  | [] => None
  | b :: rest =>
      if b =? 255 then ext_bytes (acc + 255) rest
      else Some ((acc + Z.to_nat b)%nat, rest)
  end.

Definition ext_len (nibble : nat) (input : bytes) : option (nat * bytes) :=
  if (nibble =? 15)%nat then ext_bytes 15 input else Some (nibble, input).

(** [for _ in 0..take { out[op] = out[op - offset]; op += 1 }]. *)
Fixpoint copy_match (out : bytes) (offset take : nat) : bytes :=
  match take with
  | O => out
  | S k => copy_match (out ++ [byte_at out (length out - offset)]) offset k
  end.

Definition lit_nibble (token : Z) : nat := Z.to_nat (Z.shiftr token 4).
Definition match_nibble (token : Z) : nat := Z.to_nat (Z.land token 15).
Definition match_offset (lo hi : Z) : nat := Z.to_nat (Z.lor lo (Z.shiftl hi 8)).

(** The decode loop. [input] is the slice from [ip] on and [out] the bytes produced so far
    ([out[..op]]); [n] is the size of the output buffer. *)
Fixpoint lz4_loop (fuel : nat) (input out : bytes) (n : nat) : option bytes :=
  match input with
  | [] => Some out
  | token :: rest =>
      match fuel with
      | O => None
      | S fuel =>
          match ext_len (lit_nibble token) rest with
          | None => None
          | Some (lit, body) =>
              if (length body <? lit)%nat then None
              else
                let out1 := out ++ take (Nat.min lit (n - length out)) body in
                if (0 <? lit)%nat && (n <=? length out1)%nat then Some out1
                else
                  match drop lit body with
                  | [] => Some out1
                  | [_] => None
                  | lo :: hi :: rest2 =>
                      let offset := match_offset lo hi in
                      if (offset =? 0)%nat || (length out1 <? offset)%nat then None
                      else
                        match ext_len (match_nibble token) rest2 with
                        | None => None
                        | Some (mlen, rest3) =>
                            let out2 :=
                              copy_match out1 offset (Nat.min (mlen + 4) (n - length out1)) in
                            if (n <=? length out2)%nat then Some out2
                            else lz4_loop fuel rest3 out2 n
                        end
                  end
          end
      end
  end.

Definition lz4_first_n (input : bytes) (n : nat) : option bytes :=
  lz4_loop (length input) input [] n.

(** The u32-LE decompressed-size prefix. *)
Definition declared_size_ok (payload : bytes) : bool :=
  (4 <=? length payload)%nat && (from_le (take 4 payload) <=? MAX_DECOMPRESSED_BLOCK).

(** ** Block rounds; [lz4_decompress] is [lz4_flex::block::decompress_size_prepended(..).ok()] *)

Section BlockRound.
Variable lz4_decompress : bytes -> option bytes.

Definition decompress_block (payload : bytes) : option bytes :=
  if declared_size_ok payload then lz4_decompress payload else None.

Definition block_round_full (payload : bytes) : option Z :=
  dec ← decompress_block payload; find_block_round dec.

Definition block_round (payload : bytes) : option Z :=
  if (length payload <? 5)%nat || negb (declared_size_ok payload)
  then block_round_full payload
  else
    match lz4_first_n (drop 4 payload) ROUND_SCAN_BYTES with
    | Some buf => find_block_round buf
    | None => block_round_full payload
    end.

Definition block_round_parent (payload : bytes) : option (Z * Z) :=
  let fallback := dec ← decompress_block payload; find_block_round_parent dec in
  if (5 <=? length payload)%nat && declared_size_ok payload then
    match lz4_first_n (drop 4 payload) ROUND_SCAN_BYTES with
    | Some buf => find_block_round_parent buf
    | None => fallback
    end
  else fallback.
End BlockRound.

(** ** De-duplication window and forward gate *)

Record RoundDedup := mkDedup { slots : list Z; mask : Z }.

Definition next_power_of_two (n : Z) : Z := 2 ^ Z.log2_up n.

Definition RoundDedup_new (cap : Z) : RoundDedup :=
  let cap := next_power_of_two cap in
  mkDedup (replicate (Z.to_nat cap) 0) (cap - 1).

(** [slots[r & mask].swap(r) != r]. *)
Definition is_new (d : RoundDedup) (r : Z) : bool * RoundDedup :=
  let i := Z.to_nat (Z.land r (mask d)) in
  (negb (nth i (slots d) 0 =? r), mkDedup (<[i := r]> (slots d)) (mask d)).

Definition should_forward_block_round
    (round : Z) (from_active : bool) (last_forwarded : Z) (dedup : RoundDedup)
    : bool * Z * RoundDedup :=
  if from_active then
    if negb (last_forwarded =? 0) && (round <=? last_forwarded)
    then (false, last_forwarded, dedup)
    else
      let '(fresh, dedup) := is_new dedup round in
      if fresh then (true, round, dedup) else (false, last_forwarded, dedup)
  else
    if (last_forwarded =? 0) || negb (round =? sat_add32 last_forwarded 1)
    then (false, last_forwarded, dedup)
    else
      let '(fresh, dedup) := is_new dedup round in
      if fresh then (true, round, dedup) else (false, last_forwarded, dedup).

Record RoundForwardGate := mkGate { gate_last : Z; gate_dedup : RoundDedup }.

Definition with_last_forwarded (cap last : Z) : RoundForwardGate :=
  mkGate last (RoundDedup_new cap).

Definition should_forward (g : RoundForwardGate) (round : Z) (from_active : bool)
    : bool * RoundForwardGate :=
  let '(ok, last, d) := should_forward_block_round round from_active (gate_last g) (gate_dedup g) in
  (ok, mkGate last d).

(** ** Frames *)

Definition response_is_peer_full (payload : bytes) : bool :=
  if (length payload =? 6)%nat && bool_decide (take 4 payload = [0; 0; 0; 1]) &&
     (byte_at payload 4 =? 0)
  then byte_at payload 5 =? 4
  else contains_seq (ascii_bytes "Peer full") payload.

(** A framed message [[u32 BE length][type][payload]]. *)
Definition frame_len (buf : bytes) : Z := from_be (take 4 buf).
Definition encode_frame (typ : Z) (payload : bytes) : bytes :=
  to_be 4 (Z.of_nat (length payload)) ++ typ :: payload.

Definition complete_bootstrap_at_frame_boundary (nbytes frames : Z) : bool :=
  (MIN_COMPLETE_BOOTSTRAP_BYTES <=? nbytes) && (MIN_COMPLETE_BOOTSTRAP_FRAMES <=? frames).

(** [buf] is the slice from [off] on; [frames] the frames counted so far. *)
Fixpoint count_frames (fuel : nat) (buf : bytes) (frames : Z) : option Z :=
  match buf with
  | [] => Some frames
  | _ =>
      match fuel with
      | O => None
      | S fuel =>
          if (length buf <? 5)%nat then None
          else
            let len := frame_len buf in
            if 1500000000 <? len then None
            else if Z.of_nat (length buf) <? 5 + len then None
            else count_frames fuel (drop (Z.to_nat (5 + len)) buf) (frames + 1)
      end
  end.

Definition complete_frame_count (buf : bytes) : option Z :=
  count_frames (length buf) buf 0.

(** ** Round clustering *)

Definition gap_ok (rounds : list Z) (max_gap : Z) (i : nat) : bool :=
  sat_sub (nth i rounds 0) (nth (i - 1) rounds 0) <=? max_gap.

(** One iteration of the [for i in 1..=rounds.len()] loop over (best_start, best_len, cur_start). *)
Definition cluster_step (rounds : list Z) (max_gap : Z)
    (st : nat * nat * nat) (i : nat) : nat * nat * nat :=
  let '(best_start, best_len, cur_start) := st in
  if (i <? length rounds)%nat && gap_ok rounds max_gap i then st
  else if (best_len <=? i - cur_start)%nat then (cur_start, i - cur_start, i)%nat
  else (best_start, best_len, i).

Definition best_round_cluster (rounds : list Z) (min_cluster : nat) (max_gap : Z)
    : option (list Z) :=
  if (length rounds <? min_cluster)%nat || (min_cluster =? 0)%nat then None
  else
    let rounds := merge_sort Z.le rounds in
    let '(best_start, best_len, _) :=
      foldl (cluster_step rounds max_gap) (0, 1, 0)%nat (seq 1 (length rounds)) in
    if (min_cluster <=? best_len)%nat then Some (take best_len (drop best_start rounds)) else None.

Definition max_clustered_round (rounds : list Z) (min_cluster : nat) (max_gap : Z) : option Z :=
  (fun c => nth (length c - 1) c 0) <$> best_round_cluster rounds min_cluster max_gap.

Definition corroborated_clustered_round (rounds : list Z) (min_cluster : nat) (max_gap : Z)
    : option Z :=
  (fun c => nth ((length c - 1) / 2) c 0) <$>
    best_round_cluster rounds (Nat.max min_cluster 2) max_gap.

(** ** Highest clustered round in a captured blob *)

Section FrameRounds.
Variable lz4_decompress : bytes -> option bytes.

Definition MIN_ROUND_CLUSTER : nat := 4.
Definition MAX_ROUND_CLUSTER_GAP : Z := 10000.

Fixpoint rounds_in_frames (fuel : nat) (blob : bytes) : list Z :=
  match fuel with
  | O => []
  | S fuel =>
      if (length blob <? 5)%nat then []
      else
        let len := frame_len blob in
        let typ := byte_at blob 4 in
        let rest := drop 5 blob in
        if Z.of_nat (length rest) <? len then []
        else
          let payload := take (Z.to_nat len) rest in
          let here :=
            if (typ =? 1) && (len <=? MAX_LIVE_FRAME) then
              match block_round lz4_decompress payload with
              | Some round => if is_plausible_mainnet_round round 0 then [round] else []
              | None => []
              end
            else [] in
          here ++ rounds_in_frames fuel (drop (Z.to_nat len) rest)
  end.

Definition max_block_round_in_frames (blob : bytes) : option Z :=
  max_clustered_round (rounds_in_frames (length blob) blob)
    MIN_ROUND_CLUSTER MAX_ROUND_CLUSTER_GAP.
End FrameRounds.

(** ** Lemmas: the header scan *)

Lemma scan_round_spec fuel dec end_ o x :
  (end_ < o + fuel)%nat ->
  scan_round fuel dec end_ o = Some x <->
  exists k, (o <= k)%nat /\ (k + 15 <= end_)%nat /\ triple_at dec k = Some x /\
    forall j, (o <= j < k)%nat -> triple_at dec j = None.
Proof.
  revert o. induction fuel as [|fuel IH]; intros o Hf; cbn [scan_round].
  { split; [done|]. intros (k & ? & ? & _). lia. }
  destruct (Nat.leb_spec (o + 15) end_) as [Hle|Hgt].
  2:{ split; [done|]. intros (k & ? & ? & _). lia. }
  destruct (triple_at dec o) as [y|] eqn:E.
  - split.
    + intros [= ->]. exists o. repeat split; [lia..|done|lia].
    + intros (k & Hk & _ & Ht & Hn).
      destruct (decide (k = o)) as [->|]; [congruence|].
      specialize (Hn o). rewrite E in Hn. discriminate Hn. lia.
  - rewrite IH by lia. split; intros (k & Hk & He & Ht & Hn).
    + exists k. repeat split; [lia|lia|done|].
      intros j Hj. destruct (decide (j = o)) as [->|]; [done|apply Hn; lia].
    + exists k. destruct (decide (k = o)) as [->|]; [congruence|].
      repeat split; [lia|lia|done|]. intros j Hj. apply Hn. lia.
Qed.

(** The scan depends on the first [ROUND_SCAN_BYTES] bytes only. *)
Lemma byte_at_take n l i : (i < n)%nat -> byte_at (take n l) i = byte_at l i.
Proof.
  unfold byte_at. revert n l. induction i as [|i IH]; intros [|n] [|x l]; cbn; try lia; try done.
  intros. apply IH. lia.
Qed.

Lemma triple_at_take n dec o :
  (o + 15 <= n)%nat -> triple_at (take n dec) o = triple_at dec o.
Proof. intros H. unfold triple_at, rd. by rewrite !byte_at_take by lia. Qed.

Lemma scan_round_ext fuel dec dec' end_ o :
  (forall k, (k + 15 <= end_)%nat -> triple_at dec k = triple_at dec' k) ->
  scan_round fuel dec end_ o = scan_round fuel dec' end_ o.
Proof.
  intros H. revert o. induction fuel as [|fuel IH]; intros o; cbn [scan_round]; [done|].
  destruct (Nat.leb_spec (o + 15) end_); [|done]. rewrite <- H by done. by rewrite IH.
Qed.

Lemma find_block_round_parent_take dec :
  find_block_round_parent (take ROUND_SCAN_BYTES dec) = find_block_round_parent dec.
Proof.
  unfold find_block_round_parent. rewrite length_take.
  replace (Nat.min (Nat.min ROUND_SCAN_BYTES (length dec)) ROUND_SCAN_BYTES)
    with (Nat.min (length dec) ROUND_SCAN_BYTES) by lia.
  apply scan_round_ext. intros k Hk. apply triple_at_take. lia.
Qed.

(** ** Lemmas: the bounded decoder against the LZ4 block format *)

(** The LZ4 block format: [lz4_block out input final] holds when decoding [input] with [out]
    already produced ends with [final]. A sequence is a token, literals and a back reference; the
    last one has literals only. Ending right after a back reference is also allowed, which makes
    the relation (a hypothesis below) weaker to assume. *)
Inductive lz4_block : bytes -> bytes -> bytes -> Prop :=
| lz4_done out : lz4_block out [] out
| lz4_last out token rest lit body :
    ext_len (lit_nibble token) rest = Some (lit, body) ->
    length body = lit ->
    lz4_block out (token :: rest) (out ++ body)
| lz4_seq out token rest lit body lo hi rest2 mlen rest3 final :
    ext_len (lit_nibble token) rest = Some (lit, body) ->
    drop lit body = lo :: hi :: rest2 ->
    (match_offset lo hi <> 0)%nat ->
    (match_offset lo hi <= length out + lit)%nat ->
    ext_len (match_nibble token) rest2 = Some (mlen, rest3) ->
    lz4_block (copy_match (out ++ take lit body) (match_offset lo hi) (mlen + 4)) rest3 final ->
    lz4_block out (token :: rest) final.

Lemma ext_bytes_length acc input n rest :
  ext_bytes acc input = Some (n, rest) -> (length rest < length input)%nat.
Proof.
  revert acc. induction input as [|b input IH]; intros acc; cbn; [done|].
  destruct (b =? 255); [|intros [= _ ->]; lia]. intros H%IH. lia.
Qed.

Lemma ext_len_length nib input n rest :
  ext_len nib input = Some (n, rest) -> (length rest <= length input)%nat.
Proof.
  unfold ext_len. destruct (nib =? 15)%nat; [|by intros [= _ ->]].
  intros H%ext_bytes_length. lia.
Qed.

Lemma copy_match_length out offset k :
  length (copy_match out offset k) = (length out + k)%nat.
Proof.
  revert out. induction k as [|k IH]; intros out; cbn; [lia|].
  rewrite IH, length_app. cbn. lia.
Qed.

Lemma copy_match_prefix out offset k :
  exists t, copy_match out offset k = out ++ t.
Proof.
  revert out. induction k as [|k IH]; intros out; cbn.
  - exists []. by rewrite app_nil_r.
  - destruct (IH (out ++ [byte_at out (length out - offset)])) as [t ->].
    eexists. by rewrite <- app_assoc.
Qed.

(** A back reference copied with a smaller count is a prefix of the full copy. *)
Lemma copy_match_take out offset j k :
  (j <= k)%nat ->
  copy_match out offset j = take (length out + j) (copy_match out offset k).
Proof.
  revert out j. induction k as [|k IH]; intros out j Hj.
  - assert (j = 0%nat) as -> by lia. cbn. by rewrite take_ge by lia.
  - destruct j as [|j].
    + destruct (copy_match_prefix out offset (S k)) as [t Ht]. rewrite Ht. cbn [copy_match].
      rewrite take_app_le by lia. by rewrite take_ge by lia.
    + cbn [copy_match]. rewrite (IH _ j) by lia. f_equal. rewrite length_app. cbn. lia.
Qed.

Lemma lz4_block_prefix out input final :
  lz4_block out input final -> exists t, final = out ++ t.
Proof.
  induction 1 as [out|out token rest lit body _ _|out token rest lit body lo hi r2 ml r3 final
                  _ _ _ _ _ _ [t ->]].
  - exists []. by rewrite app_nil_r.
  - by exists body.
  - destruct (copy_match_prefix (out ++ take lit body) (match_offset lo hi) (ml + 4)) as [u ->].
    eexists. by rewrite <- !app_assoc.
Qed.

Lemma take_prefix_full {A} (n : nat) (l t : list A) :
  (n <= length l)%nat -> take n (l ++ t) = take n l.
Proof. intros. by rewrite take_app_le. Qed.

(** Literals appended up to the buffer size. *)
Lemma take_append_lits (out body : bytes) lit n :
  (length out < n)%nat -> (lit <= length body)%nat ->
  out ++ take (Nat.min lit (n - length out)) body = take n (out ++ take lit body).
Proof.
  intros Ho Hl. rewrite take_app_ge by lia. f_equal. rewrite take_take. f_equal. lia.
Qed.

Lemma lz4_loop_sound fuel input out final n :
  lz4_block out input final ->
  (length out < n)%nat -> (length input <= fuel)%nat ->
  lz4_loop fuel input out n = Some (take n final).
Proof.
  intros H. revert fuel. induction H as [out|out token rest lit body He Hl
    |out token rest lit body lo hi r2 ml r3 final He Hd Hz Ho Hm Hb IH]; intros fuel Hn Hf.
  - destruct fuel; cbn; by rewrite take_ge by lia.
  - cbn in Hf. destruct fuel as [|fuel]; [lia|]. cbn [lz4_loop]. rewrite He.
    destruct (Nat.ltb_spec (length body) lit); [lia|].
    rewrite take_append_lits by lia. rewrite (take_ge body) by lia.
    rewrite drop_ge by lia. by destruct (_ && _).
  - cbn in Hf. destruct fuel as [|fuel]; [lia|]. cbn [lz4_loop]. rewrite He.
    assert (Hlb : (lit + 2 <= length body)%nat).
    { apply (f_equal length) in Hd. rewrite length_drop in Hd. cbn in Hd. lia. }
    destruct (Nat.ltb_spec (length body) lit); [lia|].
    rewrite take_append_lits by lia.
    assert (Hlt : length (out ++ take lit body) = (length out + lit)%nat)
      by (rewrite length_app, length_take; lia).
    destruct (lz4_block_prefix _ _ _ Hb) as [t Ht].
    destruct (copy_match_prefix (out ++ take lit body) (match_offset lo hi) (ml + 4)) as [u Hu].
    destruct (decide (n <= length out + lit)%nat) as [Hfull|Hmore].
    + destruct (Nat.ltb_spec 0 lit); [|lia].
      destruct (Nat.leb_spec n (length (take n (out ++ take lit body)))) as [_|Hc];
        [|rewrite length_take in Hc; lia].
      cbn [andb]. rewrite Ht, Hu, <- app_assoc. by rewrite (take_prefix_full n (out ++ take lit body)) by lia.
    + rewrite (take_ge (out ++ take lit body)) by lia.
      destruct (Nat.leb_spec n (length (out ++ take lit body))); [lia|].
      rewrite andb_false_r, Hd.
      destruct (Nat.eqb_spec (match_offset lo hi) 0); [lia|].
      destruct (Nat.ltb_spec (length (out ++ take lit body)) (match_offset lo hi)); [lia|].
      cbn [orb]. rewrite Hm, copy_match_length.
      destruct (Nat.leb_spec n (length (out ++ take lit body) +
        Nat.min (ml + 4) (n - length (out ++ take lit body)))) as [Hge|Hlt2].
      * f_equal. rewrite Ht, take_prefix_full by (rewrite copy_match_length; lia).
        rewrite (copy_match_take _ _ _ (ml + 4)) by lia. f_equal. lia.
      * rewrite Nat.min_l by lia.
        apply IH; [rewrite copy_match_length; lia|].
        apply ext_len_length in He, Hm. apply (f_equal length) in Hd.
        rewrite length_drop in Hd. cbn in Hd. lia.
Qed.

Lemma lz4_first_n_prefix input dec n :
  lz4_block [] input dec -> (0 < n)%nat -> lz4_first_n input n = Some (take n dec).
Proof. intros. unfold lz4_first_n. apply lz4_loop_sound; [done|cbn; lia|lia]. Qed.

(** ** Properties: rounds and decoding *)

(** The round and parent found in a decompressed block are those of the first offset, within
    the first 0x400 bytes, that holds a valid triple (so look-alikes failing the parent check are
    skipped); the scan always terminates, and it fails only when no offset holds one. *)
Theorem find_block_round_parent_first (dec : bytes) (x : Z * Z) :
  (find_block_round_parent dec = Some x <->
   exists k, (k + 15 <= Nat.min (length dec) ROUND_SCAN_BYTES)%nat /\
     triple_at dec k = Some x /\ forall j, (j < k)%nat -> triple_at dec j = None) /\
  (find_block_round_parent dec = None <->
   forall k, (k + 15 <= Nat.min (length dec) ROUND_SCAN_BYTES)%nat -> triple_at dec k = None).
Proof.
  unfold find_block_round_parent.
  set (e := Nat.min (length dec) ROUND_SCAN_BYTES). cbv zeta.
  split; [|split].
  - rewrite scan_round_spec by lia. split.
    + intros (k & _ & He & Ht & Hn). exists k. repeat split; [done..|]. intros j ?. apply Hn. lia.
    + intros (k & He & Ht & Hn). exists k. repeat split; [lia|done..|]. intros j ?. apply Hn. lia.
  - intros H k. induction k as [k IH] using lt_wf_ind. intros Hk.
    destruct (triple_at dec k) as [y|] eqn:E; [|done].
    assert (scan_round (S e) dec e 0 = Some y) as Hs; [|congruence].
    apply scan_round_spec; [lia|]. exists k. repeat split; [lia|done..|].
    intros j Hj. apply IH; lia.
  - intros H. destruct (scan_round (S e) dec e 0) as [y|] eqn:E; [|done].
    apply scan_round_spec in E as (k & _ & Hk & Ht & _); [|lia]. rewrite H in Ht; done.
Qed.

(** ** The bounded decoder *)

Section Equivalence.
Context (lz4_decompress : bytes -> option bytes).

(** What the gateway relies on from lz4_flex: a successful [decompress_size_prepended] returns the
    LZ4 block-format decoding of the bytes after the 4-byte size prefix. *)
Definition lz4_flex_sound : Prop :=
  forall payload dec, lz4_decompress payload = Some dec -> lz4_block [] (drop 4 payload) dec.

(** The bounded decoder sees what the scan of the whole block sees. *)
Lemma block_round_agrees payload dec :
  lz4_flex_sound -> decompress_block lz4_decompress payload = Some dec ->
  block_round lz4_decompress payload = find_block_round dec /\ block_round_full lz4_decompress payload = find_block_round dec.
Proof.
  intros Hs Hd. pose proof Hd as Hd'. unfold decompress_block in Hd'.
  destruct (declared_size_ok payload) eqn:Hok; [|done].
  pose proof (lz4_first_n_prefix _ _ ROUND_SCAN_BYTES (Hs _ _ Hd')) as Hf.
  assert (Hfull : block_round_full lz4_decompress payload = find_block_round dec).
  { unfold block_round_full. by rewrite Hd. }
  split; [|done]. unfold block_round. rewrite Hok. destruct (_ <? _)%nat; [done|]. cbn [orb negb].
  rewrite Hf by (cbv; lia). unfold find_block_round. by rewrite find_block_round_parent_take.
Qed.

(** C38: decoding only the first 0x400 bytes gives the same round and parent as decompressing the
    whole block: whenever the reference decompression of a payload succeeds, [block_round],
    [block_round_full] and [block_round_parent] all report what the scan of the fully decompressed
    block reports. *)
Theorem block_round_bounded_eq_full (payload dec : bytes) :
  lz4_flex_sound ->
  decompress_block lz4_decompress payload = Some dec ->
  block_round lz4_decompress payload = find_block_round dec /\
  block_round_full lz4_decompress payload = find_block_round dec /\
  block_round_parent lz4_decompress payload = find_block_round_parent dec.
Proof.
  intros Hs Hd. destruct (block_round_agrees payload dec Hs Hd) as [H1 H2]. split_and!; [done..|].
  pose proof Hd as Hd'. unfold decompress_block in Hd'. destruct (declared_size_ok payload) eqn:Hok; [|done].
  unfold block_round_parent. rewrite Hok, andb_true_r, Hd. destruct (_ <=? _)%nat; [|done].
  rewrite (lz4_first_n_prefix _ _ ROUND_SCAN_BYTES (Hs _ _ Hd')) by (cbv; lia). by rewrite find_block_round_parent_take.
Qed.
End Equivalence.

(** A block with one 15-byte literal run holding the triple 1003, 1002, 1001. *)
Definition example_dec : bytes :=
  252 :: to_le 4 1003 ++ 252 :: to_le 4 1002 ++ 252 :: to_le 4 1001.
Definition example_payload : bytes := to_le 4 15 ++ 240 :: 0 :: example_dec.
Definition example_lz4 (p : bytes) : option bytes :=
  if decide (p = example_payload) then Some example_dec else None.

Lemma block_round_bounded_eq_full_witness :
  block_round example_lz4 example_payload = Some 1003 /\
  block_round_parent example_lz4 example_payload = Some (1003, 1002).
Proof.
  destruct (block_round_bounded_eq_full example_lz4 example_payload example_dec) as (H1 & _ & H3).
  - intros p d. unfold example_lz4. case_decide; [|done]. intros [= <-]. subst p.
    apply (lz4_last [] 240 (0 :: example_dec) 15 example_dec); reflexivity.
  - vm_compute. reflexivity.
  - rewrite H1, H3. vm_compute. split; reflexivity.
Defined.

(** ** Properties: plausibility *)

(** With a known tip, a round accepted as plausible and not reported as lagging lies in
    [tip - max_lag, tip + NET_TIP_SLACK_ROUNDS], and a reported lag is exactly how far the round
    trails the tip; with an unknown tip (0) only the floor applies and no lag is ever reported. *)
Theorem plausible_and_fresh_window (round net_tip max_lag : Z) :
  0 <= max_lag ->
  (round_lag_from_tip round 0 max_lag = None /\
   is_plausible_mainnet_round round 0 = (MIN_PLAUSIBLE_MAINNET_ROUND <=? round)) /\
  (forall lag, round_lag_from_tip round net_tip max_lag = Some lag ->
     lag = net_tip - round /\ max_lag < lag) /\
  (net_tip <> 0 -> is_plausible_mainnet_round round net_tip = true ->
   round_lag_from_tip round net_tip max_lag = None ->
   net_tip - max_lag <= round <= net_tip + NET_TIP_SLACK_ROUNDS).
Proof.
  intros Hm. unfold round_lag_from_tip, is_plausible_mainnet_round.
  split; [|split].
  - cbn. by rewrite andb_true_r.
  - intros lag. unroll; intros [= <-]; lia.
  - intros Ht. assert (Hz : (net_tip =? 0) = false) by lia. rewrite Hz. cbn [orb].
    unfold sat_add32. intros Hp Hl. zify_bool. destruct (net_tip <=? round) eqn:E1.
    + unfold NET_TIP_SLACK_ROUNDS in *. lia.
    + destruct (max_lag <? net_tip - round) eqn:E2; [done|].
      unfold NET_TIP_SLACK_ROUNDS in *. lia.
Qed.

Lemma plausible_and_fresh_window_witness :
  1483968338 - 1500 <= 1483968000 <= 1483968338 + NET_TIP_SLACK_ROUNDS.
Proof.
  apply (plausible_and_fresh_window 1483968000 1483968338 1500); [lia|lia|reflexivity|reflexivity].
Defined.

(** ** Lemmas: the forward gate *)

(** Window invariant: every slot is at most the last forwarded round, the slots cover the mask. *)
Definition gate_inv (g : RoundForwardGate) : Prop :=
  0 <= gate_last g /\
  length (slots (gate_dedup g)) = Z.to_nat (mask (gate_dedup g) + 1) /\
  (exists k, 0 <= k /\ mask (gate_dedup g) = 2 ^ k - 1) /\
  Forall (fun s => 0 <= s <= gate_last g) (slots (gate_dedup g)).

Lemma gate_inv_init cap last : 0 <= last -> gate_inv (with_last_forwarded cap last).
Proof.
  intros H. unfold gate_inv, with_last_forwarded, RoundDedup_new, next_power_of_two. cbn.
  repeat split; [done| |exists (Z.log2_up cap); split; [apply Z.log2_up_nonneg|done]|].
  - rewrite length_replicate. f_equal. lia.
  - apply Forall_replicate. lia.
Qed.

Lemma gate_slot_in_range (g : RoundForwardGate) r :
  gate_inv g -> 0 <= r ->
  (Z.to_nat (Z.land r (mask (gate_dedup g))) < length (slots (gate_dedup g)))%nat.
Proof.
  intros (_ & Hl & (k & Hk & Hm) & _) Hr. rewrite Hl, Hm.
  replace (2 ^ k - 1) with (Z.ones k) by (rewrite Z.ones_equiv; lia).
  rewrite Z.land_ones by done.
  pose proof (Z.mod_pos_bound r (2 ^ k) ltac:(lia)). rewrite Z.ones_equiv. lia.
Qed.

Lemma gate_slot_bounds (g : RoundForwardGate) r :
  gate_inv g ->
  0 <= nth (Z.to_nat (Z.land r (mask (gate_dedup g)))) (slots (gate_dedup g)) 0 <= gate_last g.
Proof.
  intros (H0 & _ & _ & Hs). set (i := Z.to_nat _).
  destruct (nth_in_or_default i (slots (gate_dedup g)) 0) as [Hin| ->]; [|lia].
  rewrite List.Forall_forall in Hs. by apply Hs in Hin.
Qed.

Lemma Forall_insert_slot (P : Z -> Prop) (l : list Z) i x :
  Forall P l -> P x -> Forall P (<[i := x]> l).
Proof.
  intros Hl Hx. apply Forall_forall. intros y Hy.
  apply list_elem_of_lookup in Hy as [j Hj].
  apply list_lookup_insert_Some in Hj as [(_ & <- & _)|[_ Hj]]; [done|].
  rewrite Forall_lookup in Hl. eauto.
Qed.

(** The gate's decision is a comparison with the last forwarded round: the window never
    rejects a higher round. *)
Lemma should_forward_active (g : RoundForwardGate) round :
  gate_inv g -> 0 <= round ->
  fst (should_forward g round true) = (gate_last g <? round) /\
  gate_last (snd (should_forward g round true)) = Z.max (gate_last g) round /\
  gate_inv (snd (should_forward g round true)).
Proof.
  intros Hi Hr. pose proof (gate_slot_bounds g round Hi) as Hb.
  pose proof Hi as (H0 & Hlen & Hmask & Hs).
  unfold should_forward, should_forward_block_round, is_new.
  set (i := Z.to_nat _) in *. set (v := nth i _ 0) in *.
  destruct (gate_last g <? round) eqn:E; zify_bool.
  - rewrite (proj2 (Z.leb_gt _ _)), andb_false_r by lia.
    rewrite (proj2 (Z.eqb_neq v round)) by lia. unfold gate_inv. cbn. repeat split; [lia|lia| |done|].
    + by rewrite length_insert.
    + apply Forall_insert_slot; [|lia]. eapply Forall_impl; [done|]. cbn. lia.
  - destruct (negb (gate_last g =? 0) && (round <=? gate_last g)) eqn:E2; cbn.
    + rewrite Z.max_l by lia. by destruct g.
    + apply andb_false_iff in E2 as [E2|E2]; zify_bool; [|lia].
      rewrite (proj2 (Z.eqb_eq v round)) by lia. unfold gate_inv. cbn. repeat split; [lia|done| |done|].
      * by rewrite length_insert.
      * apply Forall_insert_slot; [done|lia].
Qed.

(** The rounds forwarded by a gate fed with the blocks of one active stream. *)
Fixpoint gate_run (g : RoundForwardGate) (rounds : list Z) : list Z :=
  match rounds with
  | [] => []
  | r :: rounds =>
      let '(ok, g) := should_forward g r true in
      if ok then r :: gate_run g rounds else gate_run g rounds
  end.

(** Reference: the rounds above everything before them. *)
Fixpoint new_highs (last : Z) (rounds : list Z) : list Z :=
  match rounds with
  | [] => []
  | r :: rounds => if last <? r then r :: new_highs r rounds else new_highs last rounds
  end.

Lemma gate_run_new_highs g rounds :
  gate_inv g -> Forall (fun r => 0 <= r) rounds ->
  gate_run g rounds = new_highs (gate_last g) rounds.
Proof.
  revert g. induction rounds as [|r rounds IH]; intros g Hg Hr; [done|]. cbn [gate_run new_highs].
  apply Forall_cons_1 in Hr as [Hr0 Hr].
  destruct (should_forward_active g r Hg Hr0) as (H1 & H2 & H3).
  destruct (should_forward g r true) as [ok g']. cbn in *. subst ok.
  destruct (gate_last g <? r) eqn:E; zify_bool.
  - rewrite IH, H2 by done. by rewrite Z.max_r by lia.
  - rewrite IH, H2 by done. by rewrite Z.max_l by lia.
Qed.

Lemma new_highs_sorted last rounds :
  StronglySorted Z.lt (last :: new_highs last rounds).
Proof.
  revert last. induction rounds as [|r rounds IH]; intros last; cbn [new_highs].
  { repeat constructor. }
  destruct (last <? r) eqn:E; zify_bool; [|apply IH].
  constructor; [apply IH|]. specialize (IH r). apply StronglySorted_inv in IH as [_ IH].
  constructor; [lia|]. eapply Forall_impl; [done|]. cbn. lia.
Qed.

(** The forward gate of a session forwards, from any sequence of rounds of its active stream,
    exactly the new highs above the session's starting round: the de-duplication window (any
    capacity) never drops a higher round, and the rounds the node receives are strictly
    increasing and above the starting round. *)
Theorem gate_forwards_exactly_new_highs (cap last : Z) (rounds : list Z) :
  0 <= last -> Forall (fun r => 0 <= r) rounds ->
  gate_run (with_last_forwarded cap last) rounds = new_highs last rounds /\
  StronglySorted Z.lt (last :: gate_run (with_last_forwarded cap last) rounds).
Proof.
  intros Hl Hr.
  assert (H : gate_run (with_last_forwarded cap last) rounds = new_highs last rounds)
    by (by apply gate_run_new_highs; [apply gate_inv_init|]).
  rewrite H. split; [done|apply new_highs_sorted].
Qed.

Lemma gate_forwards_exactly_new_highs_witness :
  gate_run (with_last_forwarded 16 5) [3; 7; 7; 6; 23; 8; 39] = [7; 23; 39].
Proof.
  destruct (gate_forwards_exactly_new_highs 16 5 [3; 7; 7; 6; 23; 8; 39]) as [H _].
  - lia.
  - repeat constructor; lia.
  - rewrite H. vm_compute. reflexivity.
Defined.

(** ** Lemmas: frame boundaries *)

Lemma encode_frame_length typ payload :
  length (encode_frame typ payload) = (5 + length payload)%nat.
Proof. unfold encode_frame. rewrite length_app, to_be_length. cbn. lia. Qed.

Lemma frame_len_encode typ payload rest :
  Z.of_nat (length payload) <= u32_max ->
  frame_len (encode_frame typ payload ++ rest) = Z.of_nat (length payload).
Proof.
  intros H. unfold frame_len, encode_frame. rewrite <- app_assoc.
  rewrite take_app_length' by (symmetry; apply to_be_length).
  rewrite from_be_to_be. apply Z.mod_small. unfold u32_max in H. lia.
Qed.

Lemma to_be_from_be l : Forall is_byte l -> to_be (length l) (from_be l) = l.
Proof.
  intros H. rewrite <- (List.rev_involutive l) at 2. rewrite from_be_rev. unfold to_be.
  rewrite <- (List.length_rev l), to_le_from_le by (by apply List.Forall_rev).
  apply List.rev_involutive.
Qed.

(** A buffer that holds a whole frame is that frame followed by the rest. *)
Lemma frame_split buf :
  Forall is_byte buf -> (5 <= length buf)%nat ->
  5 + frame_len buf <= Z.of_nat (length buf) ->
  buf = encode_frame (byte_at buf 4) (take (Z.to_nat (frame_len buf)) (drop 5 buf))
        ++ drop (Z.to_nat (5 + frame_len buf)) buf /\
  length (take (Z.to_nat (frame_len buf)) (drop 5 buf)) = Z.to_nat (frame_len buf) /\
  0 <= frame_len buf.
Proof.
  intros Hb Hl Hf.
  destruct buf as [|b0 [|b1 [|b2 [|b3 [|t rest]]]]]; cbn in Hl; try lia.
  assert (Hb4 : Forall is_byte [b0; b1; b2; b3]).
  { repeat (apply Forall_cons_1 in Hb as [? Hb]). do 4 (apply Forall_cons_2; [done|]). constructor. }
  change (frame_len (b0 :: b1 :: b2 :: b3 :: t :: rest)) with (from_be [b0; b1; b2; b3]) in *.
  set (len := from_be [b0; b1; b2; b3]) in *.
  assert (Hn : 0 <= len) by (by apply from_be_nonneg).
  cbn [length] in Hf. change (drop 5 _) with (drop 0 rest). change (byte_at _ 4) with t.
  rewrite drop_0.
  assert (Hlen : length (take (Z.to_nat len) rest) = Z.to_nat len) by (rewrite length_take; lia).
  split; [|done]. unfold encode_frame. rewrite Hlen, Z2Nat.id by done.
  unfold len at 1. change 4%nat with (length [b0; b1; b2; b3]). rewrite to_be_from_be by done.
  replace (Z.to_nat (5 + len)) with (5 + Z.to_nat len)%nat by lia.
  cbn. by rewrite take_drop.
Qed.

Definition encode_frames (fs : list (Z * bytes)) : bytes :=
  concat (map (fun f => encode_frame (fst f) (snd f)) fs).

Lemma count_frames_complete fs fuel acc :
  Forall (fun f => Z.of_nat (length (snd f)) <= 1500000000) fs ->
  (length (encode_frames fs) <= fuel)%nat ->
  count_frames fuel (encode_frames fs) acc = Some (acc + Z.of_nat (length fs)).
Proof.
  revert fuel acc. induction fs as [|[t p] fs IH]; intros fuel acc Hb Hf.
  { destruct fuel; cbn; f_equal; lia. }
  apply Forall_cons_1 in Hb as [Hp Hb]. cbn [snd] in Hp.
  change (encode_frames ((t, p) :: fs)) with (encode_frame t p ++ encode_frames fs) in *.
  rewrite length_app, encode_frame_length in Hf. destruct fuel as [|fuel]; [lia|].
  pose proof (encode_frame_length t p) as Hlp.
  pose proof (frame_len_encode t p (encode_frames fs) ltac:(unfold u32_max; lia)) as Hfl.
  pose proof (drop_app_length (encode_frame t p) (encode_frames fs)) as Hd. rewrite Hlp in Hd.
  pose proof (length_app (encode_frame t p) (encode_frames fs)) as Hla. rewrite Hlp in Hla.
  destruct (encode_frame t p ++ encode_frames fs) as [|x l] eqn:E; [cbn in Hla; lia|].
  cbn [count_frames]. rewrite Hfl.
  destruct (Nat.ltb_spec (length (x :: l)) 5); [lia|].
  rewrite (proj2 (Z.ltb_ge _ _)) by lia. rewrite (proj2 (Z.ltb_ge _ _)) by lia.
  replace (Z.to_nat (5 + Z.of_nat (length p))) with (5 + length p)%nat by lia.
  rewrite Hd, IH by (done || lia). f_equal. cbn. lia.
Qed.

Lemma count_frames_sound fuel buf acc k :
  Forall is_byte buf -> count_frames fuel buf acc = Some k ->
  exists fs, buf = encode_frames fs /\ k = acc + Z.of_nat (length fs) /\
    Forall (fun f => Z.of_nat (length (snd f)) <= 1500000000) fs.
Proof.
  revert buf acc. induction fuel as [|fuel IH]; intros buf acc Hb H.
  { destruct buf; [|done]. injection H as <-. exists []. repeat split; [cbn; lia|constructor]. }
  destruct (decide (buf = [])) as [->|Hne].
  { injection H as <-. exists []. repeat split; [cbn; lia|constructor]. }
  assert (Hc : (if (length buf <? 5)%nat then None
    else if 1500000000 <? frame_len buf then None
    else if Z.of_nat (length buf) <? 5 + frame_len buf then None
    else count_frames fuel (drop (Z.to_nat (5 + frame_len buf)) buf) (acc + 1)) = Some k)
    by (by destruct buf).
  clear H. destruct (Nat.ltb_spec (length buf) 5); [done|].
  destruct (1500000000 <? frame_len buf) eqn:E1; [done|].
  destruct (Z.of_nat (length buf) <? 5 + frame_len buf) eqn:E2; [done|]. zify_bool.
  destruct (frame_split buf Hb ltac:(lia) ltac:(lia)) as (Hsplit & Hlen & Hnn).
  apply IH in Hc as (fs & Hd & -> & Hfs); [|by apply Forall_drop].
  exists ((byte_at buf 4, take (Z.to_nat (frame_len buf)) (drop 5 buf)) :: fs).
  split; [etrans; [exact Hsplit|]; rewrite Hd; reflexivity|].
  split; [cbn [length]; lia|]. constructor; [cbn [snd]; rewrite Hlen; lia|done].
Qed.

(** A capture has a complete frame count exactly when it is a concatenation of frames, each at
    most 1.5 GB, and the count is their number; a trailing partial frame gives none. *)
Theorem complete_frame_count_spec (buf : bytes) (k : Z) :
  Forall is_byte buf ->
  complete_frame_count buf = Some k <->
  exists fs, buf = encode_frames fs /\ k = Z.of_nat (length fs) /\
    Forall (fun f => Z.of_nat (length (snd f)) <= 1500000000) fs.
Proof.
  intros Hb. unfold complete_frame_count. split.
  - intros H. by apply count_frames_sound in H.
  - intros (fs & -> & -> & Hf). by apply count_frames_complete.
Qed.

Lemma complete_frame_count_spec_witness :
  complete_frame_count (encode_frames [(0, [3]); (1, [7; 8])]) = Some 2.
Proof.
  apply complete_frame_count_spec.
  - vm_compute. repeat constructor; discriminate.
  - exists [(0, [3]); (1, [7; 8])]. repeat split; repeat constructor; cbn; lia.
Defined.

(** ** Lemmas: round clusters *)

(** [run s gap a b]: the half-open index range is non-empty and its neighbours are within the gap. *)
Definition run (s : list Z) (max_gap : Z) (a b : nat) : Prop :=
  (a < b <= length s)%nat /\ forall j, (a < j < b)%nat -> gap_ok s max_gap j = true.

(** Loop invariant after the iterations [1..k]. *)
Definition cluster_inv (s : list Z) (max_gap : Z) (k : nat) (st : nat * nat * nat) : Prop :=
  let '(bs, bl, cs) := st in
  (cs <= k)%nat /\
  (forall j, (cs < j <= k)%nat -> (j < length s)%nat -> gap_ok s max_gap j = true) /\
  (k = length s -> cs = k) /\
  ((0 < cs < length s)%nat -> gap_ok s max_gap cs = false) /\
  run s max_gap bs (bs + bl) /\
  (forall a b, run s max_gap a b -> (b <= cs)%nat -> (b - a <= bl)%nat).

(** Any run that ends by [k+1] is no longer than the best one or the current one. *)
Lemma cluster_inv_runs s max_gap k bs bl cs a b :
  cluster_inv s max_gap k (bs, bl, cs) -> (k < length s)%nat ->
  run s max_gap a b -> (b <= S k)%nat -> (b - a <= Nat.max bl (S k - cs))%nat.
Proof.
  intros (Hc & Hrun & Hend & Hcut & Hbest & Hmax) Hk Hab Hb.
  destruct (decide (b <= cs)%nat) as [Hbc|Hbc]; [specialize (Hmax a b Hab Hbc); lia|].
  destruct (decide (cs <= a)%nat); [lia|]. destruct Hab as [Hab Hj].
  assert (Ht : gap_ok s max_gap cs = true) by (apply Hj; lia).
  rewrite Hcut in Ht; [done|lia].
Qed.

Lemma cluster_step_inv s max_gap k st :
  (k < length s)%nat ->
  cluster_inv s max_gap k st ->
  cluster_inv s max_gap (S k) (cluster_step s max_gap st (S k)).
Proof.
  destruct st as [[bs bl] cs]. intros Hk Hinv.
  pose proof (fun a b => cluster_inv_runs s max_gap k bs bl cs a b Hinv Hk) as Hall.
  destruct Hinv as (Hc & Hrun & Hend & Hcut & Hbest & Hmax).
  unfold cluster_step. destruct (_ && _) eqn:Eg.
  - apply andb_true_iff in Eg as [El Eg]. apply Nat.ltb_lt in El.
    split; [lia|]. split; [|split; [lia|done]].
    intros j Hj Hj2. destruct (decide (j = S k)) as [->|]; [done|]. apply Hrun; lia.
  - assert (Hg : (0 < S k < length s)%nat -> gap_ok s max_gap (S k) = false).
    { intros Hlt. apply andb_false_iff in Eg as [Eg|Eg]; [apply Nat.ltb_ge in Eg; lia|done]. }
    assert (Hcur : run s max_gap cs (cs + (S k - cs))).
    { split; [lia|]. intros j Hj. apply Hrun; lia. }
    destruct (Nat.leb_spec bl (S k - cs)); (split; [lia|]; split; [lia|]; split; [lia|];
      split; [done|]; split; [done|]); intros a b Hab Hb; specialize (Hall a b Hab Hb); lia.
Qed.

Lemma cluster_fold_inv s max_gap k :
  (k <= length s)%nat -> (0 < length s)%nat ->
  cluster_inv s max_gap k (foldl (cluster_step s max_gap) (0, 1, 0)%nat (seq 1 k)).
Proof.
  intros Hk Hs. induction k as [|k IH].
  - cbn. unfold run. repeat split; try lia; intros; lia.
  - rewrite seq_S, foldl_app. cbn [foldl]. apply cluster_step_inv; [lia|]. apply IH. lia.
Qed.

(** The chosen cluster as an index range of the sorted rounds. *)
Lemma best_round_cluster_range rounds min_cluster max_gap c :
  best_round_cluster rounds min_cluster max_gap = Some c ->
  let s := merge_sort Z.le rounds in
  exists bs bl, c = take bl (drop bs s) /\ length c = bl /\ (0 < min_cluster <= bl)%nat /\
    run s max_gap bs (bs + bl) /\
    forall a b, run s max_gap a b -> (b - a <= bl)%nat.
Proof.
  unfold best_round_cluster.
  destruct (_ || _) eqn:E; [done|]. apply orb_false_iff in E as [E1 E2].
  apply Nat.ltb_ge in E1. apply Nat.eqb_neq in E2.
  set (s := merge_sort Z.le rounds).
  assert (Hl : length s = length rounds) by (apply Permutation_length, merge_sort_Permutation).
  pose proof (cluster_fold_inv s max_gap (length s) ltac:(lia) ltac:(lia)) as Hinv.
  destruct (foldl _ _ _) as [[bs bl] cs].
  destruct Hinv as (_ & _ & Hend & _ & Hbest & Hmax). rewrite Hend in Hmax by done.
  destruct (Nat.leb_spec min_cluster bl); [|done]. intros [= <-]. exists bs, bl.
  pose proof (proj1 Hbest).
  split; [done|]. split; [rewrite length_take, length_drop; lia|]. split; [lia|].
  split; [done|]. intros a b Hab. apply (Hmax a b Hab). apply Hab.
Qed.

Lemma nth_take_drop (s : list Z) a n i :
  (i < n)%nat -> nth i (take n (drop a s)) 0 = nth (a + i) s 0.
Proof.
  intros Hi. rewrite !nth_lookup, lookup_take_lt, lookup_drop by lia. done.
Qed.

Lemma merge_sort_StronglySorted (l : list Z) : StronglySorted Z.le (merge_sort Z.le l).
Proof. apply StronglySorted_merge_sort; intros ?; lia. Qed.

Lemma StronglySorted_nth_le (l : list Z) i j :
  StronglySorted Z.le l -> (i <= j < length l)%nat -> nth i l 0 <= nth j l 0.
Proof.
  intros Hs. revert i j. induction Hs as [|x l _ IH Hx]; intros i j Hij; cbn in *; [lia|].
  destruct i as [|i], j as [|j]; try lia.
  - rewrite List.Forall_forall in Hx. apply Hx, nth_In. lia.
  - apply IH. lia.
Qed.

Lemma best_round_cluster_sorted rounds min_cluster max_gap c :
  best_round_cluster rounds min_cluster max_gap = Some c -> StronglySorted Z.le c.
Proof.
  intros (bs & bl & -> & _)%best_round_cluster_range.
  pose proof (merge_sort_StronglySorted rounds) as H.
  rewrite <- (take_drop bs (merge_sort Z.le rounds)) in H at 1.
  apply StronglySorted_app_1_r in H.
  rewrite <- (take_drop bl (drop bs (merge_sort Z.le rounds))) in H at 1.
  by apply StronglySorted_app_1_l in H.
Qed.

(** The chosen round cluster is drawn from the given rounds, is sorted, has at least the
    required size, and each neighbour step is within the gap; and no run of the sorted rounds
    with that property is longer. *)
Theorem best_round_cluster_longest (rounds : list Z) (min_cluster : nat) (max_gap : Z) (c : list Z) :
  best_round_cluster rounds min_cluster max_gap = Some c ->
  c ⊆ rounds /\ StronglySorted Z.le c /\ (0 < min_cluster <= length c)%nat /\
  (forall i, (S i < length c)%nat -> nth (S i) c 0 - nth i c 0 <= max_gap) /\
  (forall a b, run (merge_sort Z.le rounds) max_gap a b -> (b - a <= length c)%nat).
Proof.
  intros H. pose proof (best_round_cluster_sorted _ _ _ _ H) as Hsort.
  apply best_round_cluster_range in H as (bs & bl & -> & Hl & Hm & [Hr1 Hr2] & Hmax).
  rewrite Hl. split; [|split; [done|split; [done|split; [|done]]]].
  - intros x Hx. rewrite <- (merge_sort_Permutation Z.le rounds).
    apply list_elem_of_lookup in Hx as [i Hi]. apply lookup_take_Some in Hi as [Hi _].
    rewrite lookup_drop in Hi. apply list_elem_of_lookup. eauto.
  - intros i Hi. rewrite !nth_take_drop by lia.
    specialize (Hr2 (bs + S i)%nat ltac:(lia)). unfold gap_ok, sat_sub in Hr2. zify_bool.
    replace (bs + S i - 1)%nat with (bs + i)%nat in Hr2 by lia. lia.
Qed.

Lemma best_round_cluster_longest_witness :
  [100; 101; 105] ⊆ [101; 900; 100; 105; 5; 901].
Proof. apply (best_round_cluster_longest _ 2 10 [100; 101; 105]). vm_compute. reflexivity. Defined.

(** ** Lemmas: the median of a cluster *)

Section Median.
Context (P : Z -> Prop) `{forall x, Decision (P x)}.

Definition count (l : list Z) : nat := length (filter P l).

Lemma count_app l k : count (l ++ k) = (count l + count k)%nat.
Proof. unfold count. by rewrite filter_app, length_app. Qed.

Lemma count_le_length l : (count l <= length l)%nat.
Proof. apply length_filter. Qed.

Lemma count_pos_exists l : (0 < count l)%nat -> exists i, (i < length l)%nat /\ P (nth i l 0).
Proof.
  unfold count. intros Hp. destruct (filter P l) as [|x k] eqn:E; [cbn in Hp; lia|].
  assert (Hx : x ∈ filter P l) by (rewrite E; constructor).
  apply list_elem_of_filter in Hx as [HP Hx]. apply list_elem_of_lookup in Hx as [i Hi].
  exists i. split; [by eapply lookup_lt_Some|]. by rewrite (nth_lookup_Some _ _ 0 _ Hi).
Qed.

(** With a strict majority in [P], one such element is at or before the lower median and one at or
    after it. *)
Lemma median_between (c : list Z) :
  (length c < 2 * count c)%nat ->
  exists i j, (i <= (length c - 1) / 2 <= j)%nat /\ (j < length c)%nat /\
    P (nth i c 0) /\ P (nth j c 0).
Proof.
  intros Hmaj. pose proof (count_le_length c) as Hle. set (m := ((length c - 1) / 2)%nat).
  assert (Hm : (2 * m <= length c - 1 < 2 * m + 2)%nat).
  { unfold m. pose proof (Nat.div_mod_eq (length c - 1) 2).
    pose proof (Nat.mod_upper_bound (length c - 1) 2). lia. }
  assert (Hlo : (0 < count (take (S m) c))%nat).
  { pose proof (count_le_length (drop (S m) c)) as Hd. rewrite length_drop in Hd.
    pose proof (count_app (take (S m) c) (drop (S m) c)) as Ha. rewrite take_drop in Ha. lia. }
  assert (Hhi : (0 < count (drop m c))%nat).
  { pose proof (count_le_length (take m c)) as Hd. rewrite length_take in Hd.
    pose proof (count_app (take m c) (drop m c)) as Ha. rewrite take_drop in Ha. lia. }
  apply count_pos_exists in Hlo as (i & Hi & HPi). apply count_pos_exists in Hhi as (j & Hj & HPj).
  rewrite length_take in Hi. rewrite length_drop in Hj.
  exists i, (m + j)%nat. repeat split; [lia..| |].
  - by rewrite nth_lookup, lookup_take_lt, <- nth_lookup in HPi by lia.
  - by rewrite nth_lookup, lookup_drop, <- nth_lookup in HPj.
Qed.
End Median.

(** A minority cannot move the published round tip. When more than half of the chosen cluster's
    rounds are honest (any predicate), the corroborated round lies between two honest rounds of
    that cluster; and a cluster always has at least two members. *)
Theorem corroborated_round_between_honest
    (honest : Z -> Prop) `{forall x, Decision (honest x)}
    (rounds : list Z) (min_cluster : nat) (max_gap m : Z) (c : list Z) :
  corroborated_clustered_round rounds min_cluster max_gap = Some m ->
  best_round_cluster rounds (Nat.max min_cluster 2) max_gap = Some c ->
  (length c < 2 * count honest c)%nat ->
  (2 <= length c)%nat /\ m ∈ c /\
  exists lo hi, lo ∈ c /\ hi ∈ c /\ honest lo /\ honest hi /\ lo <= m <= hi.
Proof.
  intros Hc Hb Hmaj. unfold corroborated_clustered_round in Hc. rewrite Hb in Hc.
  apply Some_inj in Hc as <-. pose proof (best_round_cluster_sorted _ _ _ _ Hb) as Hs.
  apply best_round_cluster_range in Hb as (bs & bl & _ & Hl & Hm & _).
  destruct (median_between honest c Hmaj) as (i & j & Hij & Hj & Hi & HPj).
  assert (Hin : forall k, (k < length c)%nat -> nth k c 0 ∈ c)
    by (intros; by apply list_elem_of_In, nth_In).
  split; [lia|]. split; [apply Hin; lia|].
  exists (nth i c 0), (nth j c 0). repeat split; try done; try (apply Hin; lia).
  all: apply StronglySorted_nth_le; [done|lia].
Qed.

Lemma corroborated_round_between_honest_witness :
  exists lo hi, lo ∈ [1000; 1001; 1003; 50999; 51000] /\ hi ∈ [1000; 1001; 1003; 50999; 51000] /\
    lo < 2000 /\ hi < 2000 /\ lo <= 1003 <= hi.
Proof.
  apply (corroborated_round_between_honest (fun x => x < 2000)
    [51000; 1003; 1000; 50999; 1001] 2 50000 1003); vm_compute; [reflexivity|reflexivity|lia].
Defined.

(** ** Lemmas: headers *)

Definition header_ok (hdr : bytes) : Prop := length hdr = 5%nat /\ Forall is_byte hdr.

Lemma encode_frames_snoc fs f : encode_frames (fs ++ [f]) = encode_frames fs ++ encode_frame f.1 f.2.
Proof. unfold encode_frames. rewrite map_app, concat_app. cbn. by rewrite app_nil_r. Qed.

Lemma header_payload hdr payload :
  header_ok hdr -> Z.of_nat (length payload) = frame_len hdr ->
  hdr ++ payload = encode_frame (byte_at hdr 4) payload.
Proof.
  intros [Hl Hb] Hp. destruct hdr as [|a [|b [|c [|d [|t [|? ?]]]]]]; try done.
  unfold encode_frame. rewrite Hp. change (frame_len _) with (from_be [a; b; c; d]).
  change 4%nat with (length [a; b; c; d]) at 1. rewrite to_be_from_be; [done|].
  repeat (apply Forall_cons_1 in Hb as [? Hb]). by repeat apply Forall_cons_2.
Qed.

Lemma frame_len_nonneg hdr : header_ok hdr -> 0 <= frame_len hdr.
Proof. intros [_ Hb]. apply from_be_nonneg. by apply Forall_take. Qed.
