(* ===== verification/Sock.v ===== *)
(** Reads from a socket: the frame readers of [src/protocol.rs].

    A socket is the list of what its reads will meet: bytes that arrive together, the expiry of the
    timeout of the operation that waits, the end of the stream, an error. A read takes at most what
    its buffer holds and leaves the rest. *)

From S2P Require Import Prelude Wire.

Inductive Read :=
| RData (b : bytes)
| RTimeout
| REof
| RErr (e : string).

(** How a loop of reads into a buffer stops. [Pending]: it still waits. *)
Inductive Stop := Filled | Elapsed | AtEof | IoFailed (e : string) | Pending.

(** Reads until [n] more bytes have arrived. [timed]: the reads are under a timeout, so that a
    socket that stays silent makes it expire. *)
Fixpoint fill (timed : bool) (n : nat) (got : bytes) (s : list Read) {struct s} : Stop * bytes * list Read :=
  if (n =? 0)%nat then (Filled, got, s)
  else
    match s with
    | [] => (if timed then Elapsed else Pending, got, [])
    | RTimeout :: s => if timed then (Elapsed, got, s) else fill timed n got s
    | REof :: s => (AtEof, got, s)
    | RErr e :: s => (IoFailed e, got, s)
    | RData b :: s =>
        if bool_decide (b = []) then (AtEof, got, s)
        else if (length b <=? n)%nat then fill timed (n - length b) (got ++ b) s
        else (Filled, got ++ take n b, RData (drop n b) :: s)
    end.

(** [HeaderRead] with the bytes the buffer holds; [off] is their number. *)
Inductive HeaderRead := Complete (hdr : bytes) | TimedOut (partial : bytes).

Definition read_header_or_timeout (s : list Read) : (string + HeaderRead) * list Read :=
  match fill true 5 [] s with
  | (Filled, h, s) => (inr (Complete h), s)
  | (AtEof, _, s) => (inl "header eof"%string, s)
  | (IoFailed e, _, s) => (inl e, s)
  | (_, h, s) => (inr (TimedOut h), s)
  end.

(** [None] while it waits: the caller bounds it. *)
Definition finish_header_after_partial (partial : bytes) (s : list Read) : option (string + bytes) * list Read :=
  match fill false (5 - length partial) partial s with
  | (Filled, h, s) => (Some (inr h), s)
  | (AtEof, _, s) => (Some (inl "header eof"%string), s)
  | (IoFailed e, _, s) => (Some (inl e), s)
  | (_, _, s) => (None, s)
  end.

Inductive FrameError := FrameElapsed | FrameEof | FrameIo (e : string) | FrameTooLarge.

Definition stop_error (st : Stop) : FrameError :=
  match st with
  | AtEof => FrameEof
  | IoFailed e => FrameIo e
  | _ => FrameElapsed
  end.

(** The payload is read into a buffer of the header's length, which is not allocated beyond
    [max_len]. *)
Definition read_live_frame_with_timeout (max_len : Z) (s : list Read) : (FrameError + bytes) * list Read :=
  match fill true 5 [] s with
  | (Filled, hdr, s) =>
      let len := frame_len hdr in
      if max_len <? len then (inl FrameTooLarge, s)
      else
        match fill true (Z.to_nat len) [] s with
        | (Filled, payload, s) => (inr (hdr ++ payload), s)
        | (st, _, s) => (inl (stop_error st), s)
        end
  | (st, _, s) => (inl (stop_error st), s)
  end.

(** [n] frames in a row. *)
Fixpoint read_frames (n : nat) (max_len : Z) (s : list Read) : list bytes * list Read :=
  match n with
  | O => ([], s)
  | S n =>
      match read_live_frame_with_timeout max_len s with
      | (inr f, s) => let '(fs, s) := read_frames n max_len s in (f :: fs, s)
      | (inl _, s) => ([], s)
      end
  end.

(** ** The frames of a byte stream *)

(** The stream cut at its headers, up to the first frame that is too large or not there in full; each
    turn uses up at least the five bytes of a header. *)
Fixpoint cut_frames (max_len : Z) (fuel : nat) (b : bytes) : list bytes :=
  match fuel with
  | O => []
  | S fuel =>
      if (5 <=? length b)%nat && (0 <=? frame_len b) && (frame_len b <=? max_len) && (5 + frame_len b <=? Z.of_nat (length b))
      then take (5 + Z.to_nat (frame_len b)) b :: cut_frames max_len fuel (drop (5 + Z.to_nat (frame_len b)) b)
      else []
  end.

Definition frames_of (max_len : Z) (b : bytes) : list bytes := cut_frames max_len (length b) b.

(** A whole frame: its header says its length. *)
Definition framed (max_len : Z) (f : bytes) : Prop :=
  frame_len f = Z.of_nat (length f) - 5 /\ (5 <= length f)%nat /\ frame_len f <= max_len.

(** ** Lemmas *)

(** The bytes a socket will deliver. *)
Definition data (s : list Read) : bytes := s ≫= (fun r => match r with RData b => b | _ => [] end).

(** Only data arrives, at any pace and in any segments. *)
Definition flowing (s : list Read) : Prop := Forall (fun r => exists b, r = RData b /\ b <> []) s.

Lemma data_cons r s : data (r :: s) = (match r with RData b => b | _ => [] end) ++ data s.
Proof. reflexivity. Qed.

Lemma data_app s s' : data (s ++ s') = data s ++ data s'.
Proof. unfold data. apply bind_app. Qed.

Lemma fill_flowing timed n got s :
  flowing s ->
  match fill timed n got s with
  | (Filled, h, s') => h = got ++ take n (data s) /\ data s' = drop n (data s) /\ flowing s' /\ (n <= length (data s))%nat
  | (st, h, s') => st = (if timed then Elapsed else Pending) /\ h = got ++ data s /\ s' = [] /\ (length (data s) < n)%nat
  end.
Proof.
  intros Hs. revert n got. induction Hs as [|r s [b [-> Hb]] Hs IH]; intros n got; cbn [fill].
  - destruct (Nat.eqb_spec n 0) as [->|Hn]; cbn.
    + rewrite app_nil_r. split_and!; [done|done|by apply Forall_nil_2|lia].
    + destruct timed; cbn; rewrite app_nil_r; split_and!; try done; lia.
  - destruct (Nat.eqb_spec n 0) as [->|Hn].
    { rewrite take_0, app_nil_r, drop_0. split_and!; [done|done| |lia]. constructor; [by eexists|done]. }
    rewrite bool_decide_eq_false_2 by done. rewrite data_cons.
    destruct (Nat.leb_spec (length b) n).
    + specialize (IH (n - length b)%nat (got ++ b)).
      destruct (fill timed (n - length b) (got ++ b) s) as [[st h] s'].
      rewrite length_app, app_assoc. destruct st.
      1:{ destruct IH as (-> & -> & Hf & Hl). rewrite <- app_assoc. rewrite take_app_ge, drop_app_ge by lia. split_and!; [done|done|done|lia]. }
      all: destruct IH as (? & -> & ? & ?); split_and!; [done|done|done|lia].
    + rewrite take_app_le, drop_app_le, length_app by lia. rewrite data_cons. split_and!; [done|done| |lia].
      constructor; [|done]. eexists. split; [done|]. intros E%(f_equal length). rewrite length_drop in E. cbn in E. lia.
Qed.

(** A read stops at the timeout with what has arrived. *)
Lemma fill_pause n got s1 s2 :
  flowing s1 -> (length (data s1) < n)%nat ->
  fill true n got (s1 ++ RTimeout :: s2) = (Elapsed, got ++ data s1, s2).
Proof.
  intros Hs. revert n got. induction Hs as [|r s1 [b [-> Hb]] Hs IH]; intros n got Hl; cbn [fill app].
  - rewrite (proj2 (Nat.eqb_neq n 0)) by (cbn in Hl; lia). by rewrite app_nil_r.
  - rewrite data_cons, length_app in Hl. rewrite (proj2 (Nat.eqb_neq n 0)) by lia.
    rewrite bool_decide_eq_false_2 by done. rewrite (proj2 (Nat.leb_le _ _)) by lia.
    rewrite IH by lia. by rewrite <- app_assoc, data_cons.
Qed.

Lemma fill_0 timed got s : fill timed 0 got s = (Filled, got, s).
Proof. by destruct s. Qed.

Lemma fill_enough timed n got s1 s2 :
  flowing s1 -> (n <= length (data s1))%nat ->
  exists s', fill timed n got (s1 ++ s2) = (Filled, got ++ take n (data s1), s' ++ s2) /\
    data s' = drop n (data s1) /\ flowing s'.
Proof.
  intros Hs. revert n got. induction Hs as [|r s1 [b [-> Hb]] Hs IH]; intros n got Hl.
  - cbn in Hl. assert (n = 0)%nat as -> by lia. exists []. cbn [app]. rewrite fill_0, take_0, app_nil_r.
    split_and!; [done|done|by apply Forall_nil_2].
  - rewrite data_cons in *. rewrite length_app in Hl. cbn [fill app]. destruct (Nat.eqb_spec n 0) as [->|Hn].
    { exists (RData b :: s1). rewrite take_0, app_nil_r, drop_0. split_and!; [done|done|]. constructor; [by eexists|done]. }
    rewrite bool_decide_eq_false_2 by done. destruct (Nat.leb_spec (length b) n).
    + destruct (IH (n - length b)%nat (got ++ b) ltac:(lia)) as (s' & -> & Hd & Hf). exists s'.
      rewrite take_app_ge, drop_app_ge by lia. rewrite <- app_assoc. done.
    + exists (RData (drop n b) :: s1). rewrite take_app_le, drop_app_le by lia. split_and!; [done|done|].
      constructor; [|done]. eexists. split; [done|]. intros E%(f_equal length). rewrite length_drop in E. cbn in E. lia.
Qed.

Lemma take5_encode typ p rest : take 5 (encode_frame typ p ++ rest) = to_be 4 (Z.of_nat (length p)) ++ [typ].
Proof.
  unfold encode_frame. rewrite <- app_assoc. change (typ :: p) with ([typ] ++ p). rewrite <- !app_assoc, (app_assoc _ [typ]).
  rewrite take_app_le by (rewrite length_app, to_be_length; cbn; lia).
  rewrite take_ge; [done|]. rewrite length_app, to_be_length. cbn. lia.
Qed.

Lemma drop5_encode typ p rest : drop 5 (encode_frame typ p ++ rest) = p ++ rest.
Proof.
  unfold encode_frame. change (typ :: p) with ([typ] ++ p). rewrite <- !app_assoc, (app_assoc _ [typ]).
  rewrite drop_app_ge by (rewrite length_app, to_be_length; cbn; lia).
  by rewrite length_app, to_be_length, drop_0.
Qed.

Lemma header_len (p : bytes) (typ : Z) :
  Z.of_nat (length p) <= u32_max ->
  frame_len (to_be 4 (Z.of_nat (length p)) ++ [typ]) = Z.of_nat (length p).
Proof.
  intros Hp. unfold frame_len. rewrite take_app_le, take_ge by (rewrite to_be_length; lia).
  rewrite from_be_to_be, Z.mod_small; [done|]. unfold u32_max in Hp. change (256 ^ Z.of_nat 4) with 4294967296. lia.
Qed.

(** One frame, in whatever segments it arrives. *)
Lemma read_frame_flowing max_len s typ p rest :
  flowing s -> data s = encode_frame typ p ++ rest -> Z.of_nat (length p) <= u32_max -> Z.of_nat (length p) <= max_len ->
  exists s', read_live_frame_with_timeout max_len s = (inr (encode_frame typ p), s') /\ flowing s' /\ data s' = rest.
Proof.
  intros Hs Hd Hp Hm. unfold read_live_frame_with_timeout.
  pose proof (fill_flowing true 5 [] s Hs) as Hf. rewrite Hd in Hf.
  destruct (fill true 5 [] s) as [[st h] s1].
  destruct st; [|destruct Hf as (_ & _ & _ & Hf); rewrite length_app, encode_frame_length in Hf; lia..].
  destruct Hf as (-> & Hd1 & Hs1 & _). cbn [app]. rewrite take5_encode. rewrite drop5_encode in Hd1.
  rewrite header_len by done. rewrite (proj2 (Z.ltb_ge _ _)) by lia. rewrite Nat2Z.id.
  pose proof (fill_flowing true (length p) [] s1 Hs1) as Hf. rewrite Hd1 in Hf.
  destruct (fill true (length p) [] s1) as [[st h] s2].
  destruct st; [|destruct Hf as (_ & _ & _ & Hf); rewrite length_app in Hf; lia..].
  destruct Hf as (-> & Hd2 & Hs2 & _). exists s2. rewrite take_app_length, drop_app_length in *. cbn [app].
  split_and!; [|done|done]. unfold encode_frame. by rewrite <- app_assoc.
Qed.

(** ** Lemmas: the frames of a stream *)

Lemma cut_frames_fuel max_len n m b :
  (length b <= n)%nat -> (length b <= m)%nat -> cut_frames max_len n b = cut_frames max_len m b.
Proof.
  revert m b. induction n as [|n IH]; intros m b Hn Hm.
  { destruct b; [|cbn in Hn; lia]. by destruct m. }
  destruct m as [|m]; [destruct b; [done|cbn in Hm; lia]|]. cbn [cut_frames].
  destruct (_ && _) eqn:E; [|done]. zify_bool. f_equal. apply IH; rewrite length_drop; lia.
Qed.

Lemma frames_of_cons max_len f rest :
  framed max_len f -> frames_of max_len (f ++ rest) = f :: frames_of max_len rest.
Proof.
  intros (Hl & H5 & Hm). unfold frames_of. assert (E : frame_len (f ++ rest) = frame_len f).
  { unfold frame_len. by rewrite take_app_le by lia. }
  assert (En : (5 + Z.to_nat (frame_len f))%nat = length f) by lia.
  rewrite length_app. destruct (length f + length rest)%nat as [|n] eqn:Elen; [lia|]. cbn [cut_frames].
  rewrite E, En, take_app_length, drop_app_length, length_app.
  rewrite (proj2 (Nat.leb_le _ _)), !(proj2 (Z.leb_le _ _)) by lia. cbn [andb]. f_equal.
  apply cut_frames_fuel; lia.
Qed.

Lemma fill_data timed n got s h s' :
  fill timed n got s = (Filled, h, s') -> h ++ data s' = got ++ data s /\ length h = (length got + n)%nat.
Proof.
  revert n got. induction s as [|r s IH]; intros n got; cbn [fill]; (destruct (Nat.eqb_spec n 0) as [->|Hn];
    [intros [= <- <-]; split; [done|lia]|]); [by destruct timed|].
  destruct r as [b| | |e]; try done.
  - case_bool_decide; [done|]. rewrite data_cons. destruct (Nat.leb_spec (length b) n).
    + intros (E1 & E2)%IH. rewrite length_app in E2. rewrite E1, <- app_assoc. split; [done|lia].
    + intros [= <- <-]. rewrite data_cons, <- app_assoc, (app_assoc (take n b)), take_drop.
      split; [done|]. rewrite length_app, length_take. lia.
  - destruct timed; [done|]. intros E%IH. by rewrite data_cons.
Qed.

(** A header and its payload, as they are read, are the next frame of the stream. *)
Lemma filled_frame max_len s hdr s1 q s2 :
  Forall is_byte (data s) -> fill true 5 [] s = (Filled, hdr, s1) -> frame_len hdr <= max_len ->
  fill true (Z.to_nat (frame_len hdr)) [] s1 = (Filled, q, s2) ->
  (hdr ++ q) ++ data s2 = data s /\ Forall is_byte (data s2) /\ framed max_len (hdr ++ q) /\ header_ok hdr /\
  Z.of_nat (length q) = frame_len hdr.
Proof.
  intros Hb E1 Hm E2. apply fill_data in E1 as [E1 L1]. cbn in E1, L1. apply fill_data in E2 as [E2 L2]. cbn in E2, L2.
  rewrite <- E1, <- E2 in Hb. apply Forall_app in Hb as [Hb [_ Hb2]%Forall_app].
  pose proof (frame_len_nonneg hdr (conj L1 Hb)) as Hn.
  assert (El : frame_len (hdr ++ q) = frame_len hdr) by (unfold frame_len; by rewrite take_app_le by lia).
  unfold framed. rewrite El, length_app, <- app_assoc, E2, E1. split_and!; [done|done|lia|lia|done|done|lia].
Qed.

Lemma read_frame_data max_len s f s' :
  Forall is_byte (data s) -> read_live_frame_with_timeout max_len s = (inr f, s') ->
  f ++ data s' = data s /\ Forall is_byte (data s') /\ framed max_len f.
Proof.
  intros Hb. unfold read_live_frame_with_timeout. destruct (fill true 5 [] s) as [[[] hdr] s1] eqn:E1; try done.
  destruct (Z.ltb_spec max_len (frame_len hdr)) as [|Hm]; [done|].
  destruct (fill true _ [] s1) as [[[] q] s2] eqn:E2; try done. intros [= <- <-].
  destruct (filled_frame max_len s hdr s1 q s2 Hb E1 Hm E2) as (? & ? & ? & _). done.
Qed.

(** ** Properties *)

(** C36: Frames survive any segmentation. Whatever frames are written to a socket, and however the
    network cuts and joins their bytes, the reader returns exactly these frames, in order, and
    leaves exactly the bytes after them. *)
Theorem frames_survive_segmentation (max_len : Z) (fs : list (Z * bytes)) (rest : bytes) (s : list Read) :
  flowing s -> data s = encode_frames fs ++ rest ->
  Forall (fun f => Z.of_nat (length f.2) <= Z.min max_len u32_max) fs ->
  exists s', read_frames (length fs) max_len s = ((fun f => encode_frame f.1 f.2) <$> fs, s') /\ data s' = rest.
Proof.
  intros Hs Hd Hf. revert s Hs Hd. induction Hf as [|[typ p] fs Hp Hf IH]; intros s Hs Hd; cbn.
  { by exists s. }
  change (encode_frames ((typ, p) :: fs)) with (encode_frame typ p ++ encode_frames fs) in Hd.
  rewrite <- app_assoc in Hd. cbn in Hp.
  destruct (read_frame_flowing max_len s typ p _ Hs Hd ltac:(lia) ltac:(lia)) as (s1 & -> & Hs1 & Hd1).
  destruct (IH s1 Hs1 Hd1) as (s2 & -> & Hd2). by exists s2.
Qed.

Lemma frames_survive_segmentation_witness :
  let s := [RData [0; 0; 0; 2]; RData [1; 7; 8; 0; 0]; RData [0; 0; 0]] in
  exists s', read_frames 2 100 s = ([[0; 0; 0; 2; 1; 7; 8]; [0; 0; 0; 0; 0]], s') /\ data s' = [].
Proof.
  intros s. apply (frames_survive_segmentation 100 [(1, [7; 8]); (0, [])] [] s).
  - repeat (apply Forall_cons_2; [eexists; split; [reflexivity|done]|]). apply Forall_nil_2.
  - reflexivity.
  - repeat (apply Forall_cons_2; [vm_compute; discriminate|]). apply Forall_nil_2.
Defined.

(** A header whose bytes pause in the middle: [read_header_or_timeout] gives up the wait but keeps
    what it has, and [finish_header_after_partial] completes the same header; no byte is lost. *)
Theorem header_survives_a_pause (h rest : bytes) (s1 s2 : list Read) :
  flowing s1 -> flowing s2 -> data s1 ++ data s2 = h ++ rest -> length h = 5%nat ->
  match read_header_or_timeout (s1 ++ RTimeout :: s2) with
  | (inr (Complete h'), s') => h' = h /\ data s' = rest
  | (inr (TimedOut p), s') =>
      exists s'', finish_header_after_partial p s' = (Some (inr h), s'') /\ data s'' = rest
  | (inl _, _) => False
  end.
Proof.
  intros H1 H2 Hd Hl. unfold read_header_or_timeout.
  assert (Hh : h = take 5 (data s1 ++ data s2)) by (rewrite Hd, take_app_le, take_ge by lia; done).
  assert (Hr : rest = drop 5 (data s1 ++ data s2)) by (rewrite Hd, drop_app_ge by lia; by rewrite Hl).
  destruct (decide (length (data s1) < 5)%nat) as [Hlt|Hge].
  - rewrite fill_pause by done. cbn [app]. unfold finish_header_after_partial.
    pose proof (fill_flowing false (5 - length (data s1)) (data s1) s2 H2) as Hf.
    assert (Htot : (5 <= length (data s1) + length (data s2))%nat).
    { rewrite <- length_app, Hd, length_app. lia. }
    destruct (fill false _ _ s2) as [[st h'] s'].
    destruct st; [|destruct Hf as (_ & _ & _ & ?); lia..]. destruct Hf as (-> & Hd' & _ & _). exists s'.
    rewrite take_app_ge, drop_app_ge in * by lia. by rewrite Hh, Hr, Hd'.
  - destruct (fill_enough true 5 [] s1 (RTimeout :: s2) H1 ltac:(lia)) as (s' & -> & Hd' & _).
    cbn [app]. rewrite data_app, Hd'. cbn. rewrite take_app_le in Hh by lia. rewrite drop_app_le in Hr by lia.
    by rewrite Hh, Hr.
Qed.

Lemma header_survives_a_pause_witness :
  match read_header_or_timeout ([RData [0; 0]] ++ RTimeout :: [RData [0; 2; 1; 9]]) with
  | (inr (Complete h'), s') => h' = [0; 0; 0; 2; 1] /\ data s' = [9]
  | (inr (TimedOut p), s') =>
      exists s'', finish_header_after_partial p s' = (Some (inr [0; 0; 0; 2; 1]), s'') /\ data s'' = [9]
  | (inl _, _) => False
  end.
Proof.
  apply (header_survives_a_pause [0; 0; 0; 2; 1] [9] [RData [0; 0]] [RData [0; 2; 1; 9]]).
  1, 2: apply Forall_cons_2; [eexists; split; [reflexivity|done]|apply Forall_nil_2].
  all: reflexivity.
Defined.
