(* ===== verification/FailoverCore.v ===== *)
(** The decision core of hot-standby failover: [src/failover/core.rs].

    Each upstream of a session buffers the blocks it delivered that the node does not have yet
    ([ahead], keyed by round); the core compares them with the active's blocks, decides when to
    switch ([pick_switch]) and replays the standby's chain ([switch_to]). *)

From S2P Require Import Prelude BTree Wire.

(** ** Data *)

Definition MIN_VERIFIED : Z := 3.
Definition MAX_MISMATCHES : Z := 3.
Definition LEAD_WINDOW : nat := 40.
Definition LEAD_MIN_SAMPLES : nat := 20.
Definition FORWARDED_KEEP : nat := 1024.
Definition AHEAD_KEEP : nat := 512.
Definition AHEAD_BYTES : Z := Z.shiftl 32 20.
Definition i64_min : Z := - 9223372036854775808.

Inductive SwitchReason := Stall | Lag | ActiveDead | Preferred.

#[global] Instance SwitchReason_eq_dec : EqDecision SwitchReason.
Proof. solve_decision. Defined.

Definition as_str (r : SwitchReason) : string :=
  match r with
  | Stall => "stall"
  | Lag => "lag"
  | ActiveDead => "active-dead"
  | Preferred => "preferred"
  end.

Record Ahead := mkAhead { a_parent : Z; a_hash : Z; a_at : Z; a_frame : bytes }.

Record Upstream := mkUp {
  u_ip : string;
  verified : Z;
  mismatches : Z;
  ahead : list (Z * Ahead);
  ahead_bytes : Z;
  dropped_max : Z;
  leads : list Z;
  last_rx : option Z;
  preferred : bool
}.

Inductive StandbyVerdict := VOk | VMismatch (round : Z).

(** ** Operations of one upstream *)

Definition Upstream_new (ip : string) : Upstream := mkUp ip 0 0 [] 0 0 [] None false.

Definition frame_size (a : Ahead) : Z := Z.of_nat (length (a_frame a)).

Definition set_ahead (u : Upstream) (m : list (Z * Ahead)) (n : Z) : Upstream :=
  mkUp (u_ip u) (verified u) (mismatches u) m n (dropped_max u) (leads u) (last_rx u)
    (preferred u).

Definition push_lead (u : Upstream) (ms : Z) : Upstream :=
  let l := if (length (leads u) =? LEAD_WINDOW)%nat then drop 1 (leads u) else leads u in
  mkUp (u_ip u) (verified u) (mismatches u) (ahead u) (ahead_bytes u) (dropped_max u)
    (l ++ [ms]) (last_rx u) (preferred u).

(** Record one comparison; true once the standby disagreed [MAX_MISMATCHES] times in a row. *)
Definition compared (u : Upstream) (matched : bool) (lead_ms : Z) : bool * Upstream :=
  if matched then
    (false,
     push_lead (mkUp (u_ip u) (verified u + 1) 0 (ahead u) (ahead_bytes u) (dropped_max u)
                  (leads u) (last_rx u) (preferred u)) lead_ms)
  else
    let m := mismatches u + 1 in
    (MAX_MISMATCHES <=? m,
     mkUp (u_ip u) 0 m (ahead u) (ahead_bytes u) (dropped_max u) (leads u) (last_rx u)
       (preferred u)).

(** The trimming loop of [insert_ahead]: pop the highest rounds while over either bound. *)
Fixpoint trim_high (fuel : nat) (u : Upstream) : Upstream :=
  match fuel with
  | O => u
  | S fuel =>
      if (AHEAD_KEEP <? length (ahead u))%nat || (AHEAD_BYTES <? ahead_bytes u) then
        match bt_pop_last (ahead u) with
        | None => u
        | Some ((r, a), rest) =>
            trim_high fuel
              (mkUp (u_ip u) (verified u) (mismatches u) rest (ahead_bytes u - frame_size a)
                 (Z.max (dropped_max u) r) (leads u) (last_rx u) (preferred u))
        end
      else u
  end.

Definition insert_ahead (u : Upstream) (round : Z) (a : Ahead) : Upstream :=
  let n := ahead_bytes u + frame_size a in
  let n := match bt_get round (ahead u) with Some old => n - frame_size old | None => n end in
  let m := bt_insert round a (ahead u) in
  trim_high (length m) (set_ahead u m n).

Definition take_ahead (u : Upstream) (round : Z) : option (Ahead * Upstream) :=
  a ← bt_get round (ahead u);
  Some (a, set_ahead u (bt_remove round (ahead u)) (ahead_bytes u - frame_size a)).

(** Discard buffered blocks at or below [floor]. *)
Fixpoint trim_low (m : list (Z * Ahead)) (n floor : Z) : list (Z * Ahead) * Z :=
  match m with
  | (r, a) :: m' => if r <=? floor then trim_low m' (n - frame_size a) floor else (m, n)
  | [] => (m, n)
  end.

Definition trim_ahead (u : Upstream) (floor : Z) : Upstream :=
  let '(m, n) := trim_low (ahead u) (ahead_bytes u) floor in set_ahead u m n.

Definition median_lead (u : Upstream) : option Z :=
  if (length (leads u) <? LEAD_MIN_SAMPLES)%nat then None
  else Some (nth (length (leads u) / 2) (merge_sort Z.le (leads u)) 0).

Definition can_continue (u : Upstream) (from : Z) : bool := dropped_max u <=? from.

(** The loop of [chain_len] over the buffered range: how many blocks follow by parent links. *)
Fixpoint chain_count (cur : Z) (l : list (Z * Ahead)) : nat :=
  match l with
  | [] => 0
  | (r, a) :: l => if a_parent a =? cur then S (chain_count r l) else 0
  end.

Definition chain_len (u : Upstream) (from : Z) : nat * option Z :=
  if negb (can_continue u from) then (0%nat, None)
  else
    let l := bt_range (sat_add32 from 1) (ahead u) in
    (chain_count from l,
     match l with
     | (r, a) :: _ => if a_parent a =? from then Some (a_at a) else None
     | [] => None
     end).

(** ** The core *)

Record Core := mkCore {
  last_forwarded : Z;
  forwarded : list (Z * (Z * Z));
  active : Z;
  ups : gmap Z Upstream;
  last_switch : option Z;
  stall : Z;
  lag : Z;
  min_dwell : Z
}.

Definition set_ups (c : Core) (m : gmap Z Upstream) : Core :=
  mkCore (last_forwarded c) (forwarded c) (active c) m (last_switch c) (stall c) (lag c)
    (min_dwell c).

Definition Core_new (act : Z) (active_ip : string) (last st lg dwell : Z) : Core :=
  mkCore last [] act {[act := Upstream_new active_ip]} None st lg dwell.

Definition add_standby (c : Core) (id : Z) (ip : string) : Core :=
  set_ups c (<[id := Upstream_new ip]> (ups c)).

Definition set_preferred (u : Upstream) : Upstream :=
  mkUp (u_ip u) (verified u) (mismatches u) (ahead u) (ahead_bytes u) (dropped_max u) (leads u)
    (last_rx u) true.

Definition mark_preferred (c : Core) (id : Z) : Core :=
  match ups c !! id with
  | Some u => set_ups c (<[id := set_preferred u]> (ups c))
  | None => c
  end.

Definition remove (c : Core) (id : Z) : option string * Core :=
  (u_ip <$> ups c !! id, set_ups c (delete id (ups c))).

(** [record_forwarded], with its pruning of the oldest rounds. *)
Definition record_forwarded (c : Core) (round hash at_ : Z) : Core :=
  let f := bt_insert round (hash, at_) (forwarded c) in
  mkCore round (drop (length f - FORWARDED_KEEP) f) (active c) (ups c) (last_switch c) (stall c)
    (lag c) (min_dwell c).

Definition lead_ms (at_ block_at : Z) : Z := as_millis (since at_ block_at).

(** The body of [settle_standbys]' loop for one standby. *)
Definition settle_one (floor round hash at_ : Z) (u : Upstream) : bool * Upstream :=
  let '(bad, u) :=
    match take_ahead u round with
    | Some (a, u) => compared u (a_hash a =? hash) (lead_ms at_ (a_at a))
    | None => (false, u)
    end in
  (bad, trim_ahead u floor).

Section Ordered.
Context `{HashOrder}.

Definition settle_standbys (c : Core) (round hash at_ : Z) : list (Z * Z) * Core :=
  let floor := last_forwarded c in
  let bad :=
    omap (fun '(id, u) =>
      if id =? active c then None
      else if (settle_one floor round hash at_ u).1 then Some (id, round) else None)
    (iter_order (ups c)) in
  (bad, set_ups c (map_imap (fun id u =>
      Some (if id =? active c then u else (settle_one floor round hash at_ u).2)) (ups c))).

Definition set_last_rx (u : Upstream) (at_ : Z) : Upstream :=
  mkUp (u_ip u) (verified u) (mismatches u) (ahead u) (ahead_bytes u) (dropped_max u) (leads u)
    (Some at_) (preferred u).

Definition on_active_block (c : Core) (round hash at_ : Z) : bool * list (Z * Z) * Core :=
  let c :=
    match ups c !! active c with
    | Some u => set_ups c (<[active c := set_last_rx u at_]> (ups c))
    | None => c
    end in
  if negb (last_forwarded c =? 0) && (round <=? last_forwarded c) then (false, [], c)
  else
    let '(bad, c) := settle_standbys (record_forwarded c round hash at_) round hash at_ in
    (true, bad, c).

Definition on_standby_block (c : Core) (id round parent hash at_ : Z) (frame : bytes)
    : StandbyVerdict * Core :=
  match ups c !! id with
  | None => (VOk, c)
  | Some u =>
      let u := set_last_rx u at_ in
      if round <=? last_forwarded c then
        match bt_get round (forwarded c) with
        | Some (h, fat) =>
            let '(bad, u) := compared u (h =? hash) (- lead_ms at_ fat) in
            (if bad then VMismatch round else VOk, set_ups c (<[id := u]> (ups c)))
        | None => (VOk, set_ups c (<[id := u]> (ups c)))
        end
      else
        (VOk, set_ups c (<[id := insert_ahead u round (mkAhead parent hash at_ frame)]> (ups c)))
  end.

(** The accumulators of [pick_switch]: stall_best, lag_best, preferred_best. *)
Record Best := mkBest {
  stall_best : option (Z * Z * nat * Z);
  lag_best : option (Z * Z);
  preferred_best : option (Z * Z)
}.

Definition lead_or_min (u : Upstream) : Z := default i64_min (median_lead u).

(** [(lead, n, Reverse(first_at)) > (bl, bn, Reverse(bat))]. *)
Definition better_stall (lead : Z) (n : nat) (first_at bl : Z) (bn : nat) (bat : Z) : bool :=
  (bl <? lead) ||
  ((lead =? bl) && ((bn <? n)%nat || ((n =? bn)%nat && (first_at <? bat)))).

Definition dwell_ok (c : Core) (now : Z) : bool :=
  match last_switch c with
  | None => true
  | Some t => min_dwell c <=? since now t
  end.

Definition active_preferred (c : Core) : bool :=
  match ups c !! active c with Some u => preferred u | None => false end.

(** One iteration of [pick_switch]'s loop. *)
Definition pick_step (c : Core) (now : Z) (active_dead : bool) (b : Best) (e : Z * Upstream)
    : Best :=
  let '(id, u) := e in
  if (id =? active c) || (verified u <? MIN_VERIFIED) then b
  else
    let '(n, first_at) := chain_len u (last_forwarded c) in
    match first_at with
    | None => b
    | Some first_at =>
        let held := since now first_at in
        let lead := lead_or_min u in
        let sb :=
          if active_dead || (stall c <=? held) then
            if match stall_best b with
               | None => true
               | Some (_, bl, bn, bat) => better_stall lead n first_at bl bn bat
               end
            then Some (id, lead, n, first_at) else stall_best b
          else stall_best b in
        let pb :=
          if dwell_ok c now && preferred u && negb (active_preferred c) then
            if match preferred_best b with None => true | Some (_, bl) => bl <? lead end
            then Some (id, lead) else preferred_best b
          else preferred_best b in
        let lb :=
          if dwell_ok c now && (preferred u || negb (active_preferred c)) then
            match median_lead u with
            | Some m =>
                if (as_millis (lag c) <=? m) &&
                   match lag_best b with None => true | Some (_, bm) => bm <? m end
                then Some (id, m) else lag_best b
            | None => lag_best b
            end
          else lag_best b in
        mkBest sb lb pb
    end.

Definition pick_switch (c : Core) (now : Z) (active_dead : bool) : option (Z * SwitchReason) :=
  if last_forwarded c =? 0 then None
  else
    let b := foldl (pick_step c now active_dead) (mkBest None None None) (iter_order (ups c)) in
    match stall_best b with
    | Some (id, _, _, _) => Some (id, if active_dead then ActiveDead else Stall)
    | None =>
        match preferred_best b with
        | Some (id, _) => Some (id, Preferred)
        | None => (fun e => (e.1, Lag)) <$> lag_best b
        end
    end.

(** The chain-taking loop of [switch_to]. *)
Fixpoint take_chain (fuel : nat) (u : Upstream) (cur : Z) : list (Z * Ahead) * Upstream :=
  match fuel with
  | O => ([], u)
  | S fuel =>
      match bt_range (sat_add32 cur 1) (ahead u) with
      | (r, a) :: _ =>
          if a_parent a =? cur then
            match take_ahead u r with
            | Some (a, u) => let '(chain, u) := take_chain fuel u r in ((r, a) :: chain, u)
            | None => ([], u)
            end
          else ([], u)
      | [] => ([], u)
      end
  end.

(** Forwarding the replayed chain block by block. *)
Fixpoint forward_chain (c : Core) (chain : list (Z * Ahead)) : list (Z * Z) * Core :=
  match chain with
  | [] => ([], c)
  | (r, a) :: chain =>
      let '(bad, c) := settle_standbys (record_forwarded c r (a_hash a) (a_at a)) r (a_hash a)
                         (a_at a) in
      let '(bad', c) := forward_chain c chain in
      (bad ++ bad', c)
  end.

Definition clear_leads (u : Upstream) : Upstream :=
  mkUp (u_ip u) (verified u) (mismatches u) (ahead u) (ahead_bytes u) (dropped_max u) []
    (last_rx u) (preferred u).

Definition switch_to (c : Core) (id now : Z) : option (list bytes * list (Z * Z) * Core) :=
  match ups c !! id with
  | None => None
  | Some u =>
      if negb (can_continue u (last_forwarded c)) then None
      else
        let '(chain, u') := take_chain (length (ahead u)) u (last_forwarded c) in
        match chain with
        | [] => None
        | _ =>
            let c1 :=
              mkCore (last_forwarded c) (forwarded c) id (<[id := u']> (ups c)) (Some now)
                (stall c) (lag c) (min_dwell c) in
            let '(bad, c2) := forward_chain c1 chain in
            Some (map (fun e => a_frame e.2) chain, bad, set_ups c2 (clear_leads <$> ups c2))
        end
  end.

(** [min_by_key]: the first minimum in iteration order. *)
Fixpoint min_by_snd (l : list (Z * Z)) : option (Z * Z) :=
  match l with
  | [] => None
  | (id, m) :: l =>
      match min_by_snd l with
      | None => Some (id, m)
      | Some (id', m') => if m' <? m then Some (id', m') else Some (id, m)
      end
  end.

Definition slowest_standby (c : Core) (slower_ms : Z) (exempt : string -> bool) : option (Z * Z) :=
  min_by_snd
    (omap (fun '(id, u) =>
       if (id =? active c) || exempt (u_ip u) then None
       else match median_lead u with
            | Some m => if m <? - slower_ms then Some (id, m) else None
            | None => None
            end) (iter_order (ups c))).
End Ordered.

Definition ip_of (c : Core) (id : Z) : option string := u_ip <$> ups c !! id.

Definition standby_count (c : Core) : Z := sat_sub (Z.of_nat (size (ups c))) 1.

(** ** Classifying a frame; [hasher] is the keyed [RandomState] hash of a byte sequence *)

Section Classify.
Context (lz4_decompress : bytes -> option bytes) (hasher : bytes -> Z).

Definition block_hash (frame : bytes) : Z :=
  match decompress_block lz4_decompress (drop 5 frame) with
  | Some dec => hasher (1 :: dec)
  | None => hasher (0 :: frame)
  end.

Definition classify (frame : bytes) : option (Z * Z * Z) :=
  if (length frame <=? 5)%nat || negb (byte_at frame 4 =? 1) then None
  else
    match block_round_parent lz4_decompress (drop 5 frame) with
    | Some (r, p) => Some (r, p, block_hash frame)
    | None => None
    end.
End Classify.

(** ** Lemmas: the buffer of one upstream *)

Definition sum_frames (m : list (Z * Ahead)) : Z :=
  foldr (fun e acc => frame_size e.2 + acc) 0 m.

(** Structural part of an upstream's invariant (before trimming). *)
Definition buf_ok (u : Upstream) : Prop :=
  bt_ok (ahead u) /\ ahead_bytes u = sum_frames (ahead u).

Definition up_ok (u : Upstream) : Prop :=
  buf_ok u /\ (length (ahead u) <= AHEAD_KEEP)%nat /\ ahead_bytes u <= AHEAD_BYTES /\
  (length (leads u) <= LEAD_WINDOW)%nat.

Lemma frame_size_nonneg a : 0 <= frame_size a.
Proof. unfold frame_size. lia. Qed.

Lemma sum_frames_app m m' : sum_frames (m ++ m') = sum_frames m + sum_frames m'.
Proof. induction m as [|e m IH]; cbn [sum_frames foldr app]; [done|]. fold (sum_frames (m ++ m')). rewrite IH. cbn. fold (sum_frames m). lia. Qed.

Lemma sum_frames_cons e m : sum_frames (e :: m) = frame_size e.2 + sum_frames m.
Proof. done. Qed.

Lemma sum_frames_nonneg m : 0 <= sum_frames m.
Proof.
  induction m as [|e m IH]; [done|]. rewrite sum_frames_cons.
  pose proof (frame_size_nonneg e.2). lia.
Qed.

Lemma sum_frames_insert k a m :
  bt_ok m ->
  sum_frames (bt_insert k a m) =
  sum_frames m + frame_size a - match bt_get k m with Some o => frame_size o | None => 0 end.
Proof.
  induction m as [|[k' v'] m IH]; intros Hok; [cbn; lia|].
  apply bt_ok_cons in Hok as [Hok Hk]. cbn [bt_insert bt_get].
  destruct (Z.ltb_spec k k'), (Z.eqb_spec k k'); try lia; rewrite ?sum_frames_cons; cbn [snd].
  - replace (bt_get k m) with (@None Ahead); [lia|]. symmetry.
    destruct (bt_get k m) as [v|] eqn:E; [|done]. apply bt_get_elem in E; [|done].
    rewrite Forall_forall in Hk. apply Hk in E. cbn in E. lia.
  - lia.
  - rewrite IH by done. lia.
Qed.

Lemma sum_frames_remove k a m :
  bt_get k m = Some a -> sum_frames (bt_remove k m) = sum_frames m - frame_size a.
Proof.
  induction m as [|[k' v'] m IH]; cbn [bt_get bt_remove]; [done|].
  destruct (k =? k'); rewrite !sum_frames_cons; cbn [snd]; [intros [= ->]; lia|].
  intros H. rewrite IH by done. lia.
Qed.

Lemma bt_remove_length {V} k (m : list (Z * V)) : (length (bt_remove k m) <= length m)%nat.
Proof. induction m as [|[k' v'] m IH]; cbn; [done|]. destruct (k =? k'); cbn; lia. Qed.

Lemma empty_within_bounds u :
  buf_ok u -> ahead u = [] ->
  buf_ok u /\ (length (ahead u) <= AHEAD_KEEP)%nat /\ ahead_bytes u <= AHEAD_BYTES /\
  leads u = leads u /\ verified u = verified u /\ dropped_max u <= dropped_max u /\
  exists gone, ahead u = ahead u ++ gone /\ Forall (fun e => e.1 <= dropped_max u) gone.
Proof.
  intros [Hok Hb] E. split; [done|]. rewrite Hb, E. split; [cbn; lia|].
  split; [by vm_compute|]. split; [done|]. split; [done|]. split; [lia|]. by exists [].
Qed.

(** What the trimming loop of [insert_ahead] does: it keeps a prefix (the lowest rounds), restores
    both bounds, and records the highest round it threw away. *)
Lemma trim_high_spec fuel u :
  buf_ok u -> (length (ahead u) <= fuel)%nat ->
  let u' := trim_high fuel u in
  buf_ok u' /\ (length (ahead u') <= AHEAD_KEEP)%nat /\ ahead_bytes u' <= AHEAD_BYTES /\
  leads u' = leads u /\ verified u' = verified u /\ dropped_max u <= dropped_max u' /\
  exists gone, ahead u = ahead u' ++ gone /\ Forall (fun e => e.1 <= dropped_max u') gone.
Proof.
  revert u. induction fuel as [|fuel IH]; intros u [Hok Hb] Hf; cbn [trim_high].
  - assert (ahead u = []) as E by (destruct (ahead u); cbn in *; [done|lia]).
    by apply empty_within_bounds.
  - destruct (_ || _) eqn:E.
    + destruct (bt_pop_last (ahead u)) as [[[r a] rest]|] eqn:Ep.
      * apply bt_pop_last_spec in Ep.
        assert (Hrest : sum_frames (ahead u) = sum_frames rest + frame_size a)
          by (rewrite Ep, sum_frames_app; cbn; lia).
        edestruct (IH (mkUp (u_ip u) (verified u) (mismatches u) rest (ahead_bytes u - frame_size a)
          (Z.max (dropped_max u) r) (leads u) (last_rx u) (preferred u)))
          as (H1 & H2 & H3 & H4 & H5 & H6 & gone & H7 & H8).
        { split; cbn [ahead ahead_bytes]; [rewrite Ep in Hok; by apply bt_ok_app_l in Hok|lia]. }
        { cbn. rewrite Ep, length_app in Hf. cbn in Hf. lia. }
        cbn [ahead leads verified dropped_max] in *. repeat split; try apply H1; try done; [lia|].
        exists (gone ++ [(r, a)]). split; [rewrite Ep, H7 at 1; by rewrite <- app_assoc|].
        apply Forall_app. split; [done|]. repeat constructor. cbn. lia.
      * apply bt_pop_last_None in Ep. by apply empty_within_bounds.
    + apply orb_false_iff in E as [E1 E2]. apply Nat.ltb_ge in E1. zify_bool.
      repeat split; try done. exists []. by rewrite app_nil_r.
Qed.

Lemma insert_ahead_ok u round a : up_ok u -> up_ok (insert_ahead u round a).
Proof.
  intros ([Hok Hb] & Hk & Hbytes & Hl). unfold insert_ahead.
  set (u1 := set_ahead u _ _).
  destruct (trim_high_spec (length (bt_insert round a (ahead u))) u1) as (H1 & H2 & H3 & H4 & _).
  - split; cbn [u1 set_ahead ahead ahead_bytes]; [by apply bt_insert_ok|]. rewrite sum_frames_insert by done. case_match; lia.
  - done.
  - split; [done|]. split; [done|]. split; [done|]. by rewrite H4.
Qed.

Lemma take_ahead_ok u round a u' : up_ok u -> take_ahead u round = Some (a, u') -> up_ok u'.
Proof.
  intros ([Hok Hb] & Hk & Hbytes & Hl). unfold take_ahead.
  destruct (bt_get round (ahead u)) as [x|] eqn:E; [|done]. cbn. intros [= <- <-].
  unfold up_ok, buf_ok. cbn [set_ahead ahead ahead_bytes leads]. rewrite (sum_frames_remove _ _ _ E).
  pose proof (frame_size_nonneg x). pose proof (bt_remove_length round (ahead u)).
  repeat split; [by apply bt_remove_ok|lia..].
Qed.

Lemma trim_low_spec m n floor m' n' :
  trim_low m n floor = (m', n') ->
  exists gone, m = gone ++ m' /\ n' = n - sum_frames gone /\ Forall (fun e => e.1 <= floor) gone /\
    (bt_ok m -> Forall (fun e => floor < e.1) m').
Proof.
  revert n. induction m as [|[r a] m IH]; intros n; cbn.
  { intros [= <- <-]. exists []. repeat split; [cbn; lia|constructor|constructor]. }
  destruct (Z.leb_spec r floor).
  - intros (gone & -> & -> & Hg & Hm)%IH. exists ((r, a) :: gone).
    split; [done|]. split; [rewrite sum_frames_cons; cbn; lia|]. split; [by constructor|].
    intros [Hok _]%bt_ok_cons. auto.
  - intros [= <- <-]. exists []. split; [done|]. split; [cbn; lia|]. split; [constructor|].
    intros [_ Hk]%bt_ok_cons. constructor; [done|]. eapply Forall_impl; [done|]. cbn. lia.
Qed.

Lemma trim_ahead_ok u floor : up_ok u -> up_ok (trim_ahead u floor).
Proof.
  intros ([Hok Hb] & Hk & Hbytes & Hl). unfold trim_ahead.
  destruct (trim_low _ _ _) as [m n] eqn:E. apply trim_low_spec in E as (gone & Hm & -> & _).
  unfold up_ok, buf_ok. cbn [set_ahead ahead ahead_bytes leads]. rewrite Hm in *. rewrite sum_frames_app in Hb.
  rewrite length_app in Hk. pose proof (sum_frames_nonneg gone).
  repeat split; [by apply bt_ok_app_r in Hok|lia..].
Qed.

Lemma push_lead_length u ms :
  (length (leads u) <= LEAD_WINDOW)%nat -> (length (leads (push_lead u ms)) <= LEAD_WINDOW)%nat.
Proof.
  unfold push_lead, LEAD_WINDOW. intros H. cbn [leads]. rewrite length_app. cbn [length].
  destruct (Nat.eqb_spec (length (leads u)) 40); [rewrite length_drop|]; lia.
Qed.

Lemma compared_ok u matched lead : up_ok u -> up_ok (compared u matched lead).2.
Proof.
  intros (Hb & Hk & Hy & Hl). unfold compared. destruct matched; cbn.
  - repeat split; try apply Hb; try done. by apply push_lead_length.
  - repeat split; try apply Hb; try done.
Qed.

Lemma settle_one_ok floor round hash at_ u :
  up_ok u -> up_ok (settle_one floor round hash at_ u).2.
Proof.
  intros Hu. unfold settle_one. destruct (take_ahead u round) as [[a u1]|] eqn:E.
  - apply take_ahead_ok in E; [|done].
    pose proof (compared_ok u1 (a_hash a =? hash) (lead_ms at_ (a_at a)) E) as Hc.
    destruct (compared _ _ _) as [bad u2]. cbn in *. by apply trim_ahead_ok.
  - cbn. by apply trim_ahead_ok.
Qed.

#[export] Hint Resolve insert_ahead_ok trim_ahead_ok compared_ok settle_one_ok : hyper.
