(* ===== verification/FailoverChain.v ===== *)
(** Properties of the failover core: bounded buffers, gap-free switches, strictly increasing rounds
    at the node, no hole in what a standby delivered, and what each switch reason guarantees. *)

From S2P Require Import Prelude BTree Wire FailoverCore.

(** ** The replayed chain *)

(** [linked cur l]: each block's parent is the round before it, starting from [cur]. *)
Inductive linked : Z -> list (Z * Ahead) -> Prop :=
| linked_nil cur : linked cur []
| linked_cons cur r a l :
    a_parent a = cur -> cur < r -> linked r l -> linked cur ((r, a) :: l).

(** The longest linked prefix. *)
Fixpoint linked_prefix (cur : Z) (l : list (Z * Ahead)) : list (Z * Ahead) :=
  match l with
  | [] => []
  | (r, a) :: l => if a_parent a =? cur then (r, a) :: linked_prefix r l else []
  end.

(** The chain [switch_to] replays. *)
Definition replayed (c : Core) (id : Z) : list (Z * Ahead) :=
  match ups c !! id with
  | Some u =>
      if can_continue u (last_forwarded c)
      then (take_chain (length (ahead u)) u (last_forwarded c)).1 else []
  | None => []
  end.

(** The last round of a chain, [cur] if it is empty. *)
Fixpoint chain_end (cur : Z) (l : list (Z * Ahead)) : Z :=
  match l with
  | [] => cur
  | (r, _) :: l => chain_end r l
  end.

(** Rounds stay below [u32::MAX], so the saturating [cur + 1] of the code is exact. *)
Definition keys_ok (u : Upstream) : Prop := Forall (fun e => e.1 < u32_max) (ahead u).

Lemma linked_prefix_linked cur l :
  bt_ok l -> Forall (fun e => cur < e.1) l -> linked cur (linked_prefix cur l).
Proof.
  revert cur. induction l as [|[r a] l IH]; intros cur Hok Hl; cbn; [constructor|].
  apply bt_ok_cons in Hok as [Hok Hr]. apply Forall_cons_1 in Hl as [Hlt _].
  destruct (Z.eqb_spec (a_parent a) cur); constructor; auto.
Qed.

Lemma chain_count_prefix cur l : chain_count cur l = length (linked_prefix cur l).
Proof.
  revert cur. induction l as [|[r a] l IH]; intros cur; cbn; [done|].
  destruct (_ =? _); [|done]. cbn. by rewrite IH.
Qed.

Lemma linked_sorted cur l : linked cur l -> StronglySorted Z.lt (cur :: map fst l).
Proof.
  induction 1 as [|cur r a l _ Hlt _ IH]; [repeat constructor|]. cbn [map fst].
  constructor; [done|]. apply StronglySorted_inv in IH as [_ IH].
  constructor; [done|]. eapply Forall_impl; [done|]. cbn. lia.
Qed.

(** What follows the linked prefix does not continue it. *)
Lemma linked_prefix_rest cur l :
  exists rest, l = linked_prefix cur l ++ rest /\
    match rest with (_, a) :: _ => a_parent a <> chain_end cur (linked_prefix cur l) | [] => True end.
Proof.
  revert cur. induction l as [|[r a] l IH]; intros cur; [by exists []|]. cbn [linked_prefix].
  destruct (Z.eqb_spec (a_parent a) cur) as [Hp|Hne]; [|by exists ((r, a) :: l)].
  destruct (IH r) as (rest & E & Hr). exists rest. cbn [app chain_end]. by rewrite <- E.
Qed.

(** A list that is linked itself is its own linked prefix. *)
Lemma linked_prefix_all cur l : linked cur l -> linked_prefix cur l = l.
Proof. induction 1 as [|cur r a l Hp _ _ IH]; [done|]. cbn [linked_prefix]. by rewrite (proj2 (Z.eqb_eq _ _) Hp), IH. Qed.

Lemma linked_chain_end cur l r : linked cur l -> r ∈ l.*1 -> r <= chain_end cur l.
Proof.
  intros Hl. assert (Hge : forall cur l, linked cur l -> cur <= chain_end cur l).
  { clear. induction 1 as [|cur r a l _ Hlt _ IH]; cbn; lia. }
  induction Hl as [|cur x a l _ Hlt Hl IH]; cbn; [by intros ?%elem_of_nil|].
  intros [->|Hr]%elem_of_cons; [by apply Hge|by apply IH].
Qed.

Lemma linked_prefix_sub cur l e : e ∈ linked_prefix cur l -> e ∈ l.
Proof.
  revert cur. induction l as [|[r a] l IH]; intros cur; cbn; [done|].
  destruct (_ =? _); [|by intros ?%elem_of_nil].
  rewrite !elem_of_cons. intros [->|?]; [by left|right; eauto].
Qed.

(** The loop of [switch_to] takes exactly the linked prefix of what is buffered above the node's
    last block, and leaves the rest of the buffer in place. *)
Lemma take_chain_spec fuel u cur :
  up_ok u -> keys_ok u -> cur < u32_max -> (length (ahead u) <= fuel)%nat ->
  let '(chain, u') := take_chain fuel u cur in
  chain = linked_prefix cur (bt_range (cur + 1) (ahead u)) /\
  up_ok u' /\ keys_ok u' /\ dropped_max u' = dropped_max u /\ verified u' = verified u /\
  (forall e, e ∈ ahead u -> e ∈ ahead u' \/ e ∈ chain) /\
  (forall e, e ∈ ahead u' -> e ∈ ahead u).
Proof.
  revert u cur. induction fuel as [|fuel IH]; intros u cur Hu Hk Hc Hf; cbn [take_chain].
  { destruct (ahead u) eqn:E; [|cbn in Hf; lia]. split_and!; try done. intros e He. by left. }
  rewrite sat_add32_exact by lia.
  destruct (bt_range (cur + 1) (ahead u)) as [|[r a] rest] eqn:Er.
  { split_and!; try done. by left. }
  destruct (a_parent a =? cur) eqn:Ep.
  2:{ cbn. rewrite Ep. split_and!; try done. by left. }
  pose proof Hu as [[Hok Hb] _].
  assert (Hin : (r, a) ∈ ahead u).
  { assert (Hr : (r, a) ∈ bt_range (cur + 1) (ahead u)) by (rewrite Er; constructor).
    by apply elem_of_bt_range in Hr as [_ ?]. }
  destruct (take_ahead u r) as [[a' u1]|] eqn:Et.
  2:{ unfold take_ahead in Et. apply bt_get_elem in Hin; [|done]. by rewrite Hin in Et. }
  pose proof (take_ahead_ok _ _ _ _ Hu Et) as Hu1.
  unfold take_ahead in Et. apply bt_get_elem in Hin as Hg; [|done]. rewrite Hg in Et. cbn in Et.
  injection Et as <- <-. set (u1 := set_ahead u _ _) in *.
  assert (Hlen : (length (ahead u1) < length (ahead u))%nat).
  { cbn. clear -Hg. induction (ahead u) as [|[k v] m IHm]; cbn in *; [done|].
    destruct (r =? k); [lia|]. cbn. specialize (IHm Hg). lia. }
  specialize (IH u1 r Hu1). destruct (take_chain fuel u1 r) as [chain u2].
  destruct IH as (-> & H2 & H3 & H4 & H5 & H6 & H7).
  { unfold keys_ok. cbn. by apply bt_remove_Forall. }
  { unfold keys_ok in Hk. rewrite Forall_forall in Hk. apply (Hk (r, a) Hin). }
  { lia. }
  assert (Hrest : bt_range (r + 1) (ahead u1) = rest).
  { cbn [u1 set_ahead ahead].
    rewrite (bt_range_remove _ _ _ _ _ Hok Er) by lia. by eapply bt_range_tail. }
  rewrite Hrest in *. cbn [linked_prefix]. rewrite Ep. split_and!; try done.
  - intros e He. destruct (decide (e.1 = r)) as [Hr|Hr].
    + right. assert (e = (r, a)) as ->; [|constructor]. destruct e as [k v]. cbn in Hr. subst k.
      apply bt_get_elem in He; [|done]. rewrite Hg in He. by injection He as <-.
    + destruct (H6 e) as [?|?]; [|by left|right; by constructor].
      cbn. destruct e as [k v]. cbn in Hr. apply bt_get_elem in He; [|done].
      apply bt_get_elem; [by apply bt_remove_ok|]. by rewrite bt_get_remove_ne.
  - intros e He%H7. cbn in He. by apply bt_remove_sub in He.
Qed.

(** ** Traces of the core *)

(** What a session does to its core. *)
Inductive event :=
| EvActive (round hash at_ : Z)
| EvStandby (id round parent hash at_ : Z) (frame : bytes)
| EvAdd (id : Z) (ip : string)
| EvPrefer (id : Z)
| EvRemove (id : Z)
| EvSwitch (id now : Z).

Section Traces.
Context `{HashOrder}.

(** One event: the rounds sent to the node, and the next core. *)
Definition exec (c : Core) (e : event) : list Z * Core :=
  match e with
  | EvActive r h t =>
      let '(fwd, _, c') := on_active_block c r h t in (if fwd then [r] else [], c')
  | EvStandby id r p h t f => ([], (on_standby_block c id r p h t f).2)
  | EvAdd id ip => ([], add_standby c id ip)
  | EvPrefer id => ([], mark_preferred c id)
  | EvRemove id => ([], (remove c id).2)
  | EvSwitch id now =>
      match switch_to c id now with
      | Some (_, _, c') => (map fst (replayed c id), c')
      | None => ([], c)
      end
  end.

Fixpoint run_events (c : Core) (es : list event) : list Z * Core :=
  match es with
  | [] => ([], c)
  | e :: es =>
      let '(out, c) := exec c e in
      let '(out', c) := run_events c es in
      (out ++ out', c)
  end.

Definition event_ok (e : event) : Prop :=
  match e with
  | EvActive r _ _ => 0 < r < u32_max
  | EvStandby _ r _ _ _ _ => r < u32_max
  | _ => True
  end.

(** Everything the core keeps is bounded and consistent. *)
Definition core_ok (c : Core) : Prop :=
  map_Forall (fun _ u => up_ok u /\ keys_ok u) (ups c) /\
  bt_ok (forwarded c) /\ (length (forwarded c) <= FORWARDED_KEEP)%nat /\
  Forall (fun e => e.1 <= last_forwarded c) (forwarded c) /\
  0 <= last_forwarded c < u32_max.

Lemma up_new_ok ip : up_ok (Upstream_new ip) /\ keys_ok (Upstream_new ip).
Proof.
  unfold up_ok, buf_ok, keys_ok, AHEAD_KEEP, LEAD_WINDOW. cbn.
  split_and!; [constructor|done|lia|by vm_compute|lia|constructor].
Qed.

Lemma core_new_ok act ip last st lg dw :
  0 <= last < u32_max -> core_ok (Core_new act ip last st lg dw).
Proof.
  intros Hl. unfold core_ok, Core_new. cbn. 
  split_and!; [apply map_Forall_singleton, up_new_ok|constructor|unfold FORWARDED_KEEP; lia
              |constructor|lia..].
Qed.

Lemma set_ups_ok c m :
  core_ok c -> map_Forall (fun _ u => up_ok u /\ keys_ok u) m -> core_ok (set_ups c m).
Proof. intros (_ & Hc) Hm. split; [done|apply Hc]. Qed.

Lemma record_forwarded_ok c round hash at_ :
  core_ok c -> last_forwarded c <= round < u32_max -> core_ok (record_forwarded c round hash at_).
Proof.
  intros (Hu & Hf & Hl & Hk & Hb) Hr. unfold core_ok, record_forwarded. cbn.
  set (f := bt_insert round (hash, at_) (forwarded c)).
  assert (Hok : bt_ok f) by (by apply bt_insert_ok).
  split_and!; [done| | | |lia..].
  - rewrite <- (take_drop (length f - FORWARDED_KEEP) f) in Hok. by apply bt_ok_app_r in Hok.
  - rewrite length_drop. lia.
  - apply Forall_drop, bt_insert_Forall; [done|]. eapply Forall_impl; [done|]. cbn. lia.
Qed.

Lemma settle_lookup c round hash at_ id :
  ups (settle_standbys c round hash at_).2 !! id =
  (fun u => if id =? active c then u
            else (settle_one (last_forwarded c) round hash at_ u).2) <$> ups c !! id.
Proof. cbn. rewrite map_lookup_imap. by destruct (ups c !! id). Qed.

Lemma trim_low_keys m n floor (P : Z * Ahead -> Prop) :
  Forall P m -> Forall P (trim_low m n floor).1.
Proof.
  intros HP. destruct (trim_low m n floor) as [m' n'] eqn:E.
  apply trim_low_spec in E as (gone & -> & _). by apply Forall_app in HP as [_ ?].
Qed.

Lemma trim_ahead_eq u floor :
  ahead (trim_ahead u floor) = (trim_low (ahead u) (ahead_bytes u) floor).1 /\
  dropped_max (trim_ahead u floor) = dropped_max u.
Proof. unfold trim_ahead. by destruct (trim_low _ _ _). Qed.

Lemma compared_fields u b l :
  ahead (compared u b l).2 = ahead u /\ dropped_max (compared u b l).2 = dropped_max u /\
  ahead_bytes (compared u b l).2 = ahead_bytes u.
Proof. by destruct b. Qed.

(** What settling one standby leaves in its buffer. *)
Lemma settle_one_buffer floor round hash at_ u :
  let u' := (settle_one floor round hash at_ u).2 in
  dropped_max u' = dropped_max u /\
  exists n, ahead u' = (trim_low
    (match bt_get round (ahead u) with
     | Some _ => bt_remove round (ahead u) | None => ahead u end) n floor).1.
Proof.
  unfold settle_one, take_ahead. destruct (bt_get round (ahead u)) as [a|]; cbn [mbind option_bind].
  - pose proof (compared_fields (set_ahead u (bt_remove round (ahead u))
      (ahead_bytes u - frame_size a)) (a_hash a =? hash) (lead_ms at_ (a_at a))) as (H1 & H2 & _).
    destruct (compared _ _ _) as [bad u1]. cbn [snd] in *.
    destruct (trim_ahead_eq u1 floor) as [H3 H4]. rewrite H3, H4, H1, H2. split; [done|].
    eexists. reflexivity.
  - cbn [snd]. destruct (trim_ahead_eq u floor) as [H3 H4]. rewrite H3, H4. split; [done|].
    eexists. reflexivity.
Qed.

Lemma settle_one_keys floor round hash at_ u :
  keys_ok u -> keys_ok (settle_one floor round hash at_ u).2.
Proof.
  intros Hk. destruct (settle_one_buffer floor round hash at_ u) as (_ & n & Ha).
  unfold keys_ok. rewrite Ha. apply trim_low_keys. case_match; [by apply bt_remove_Forall|done].
Qed.

Lemma settle_standbys_ok c round hash at_ :
  core_ok c -> core_ok (settle_standbys c round hash at_).2.
Proof.
  intros Hc. pose proof Hc as (Hu & _). apply set_ups_ok; [done|].
  intros id u Hl. rewrite map_lookup_imap in Hl.
  destruct (ups c !! id) as [u0|] eqn:E; [|done]. cbn in Hl. injection Hl as <-.
  apply Hu in E as [H1 H2]. destruct (id =? active c); [done|].
  split; [by apply settle_one_ok|by apply settle_one_keys].
Qed.

(** ** Lemmas: coverage of what a standby delivered *)

(** Every round in [rs] is at the node, or was trimmed, or is buffered. *)
Definition covers (last : Z) (u : Upstream) (rs : list Z) : Prop :=
  forall r, r ∈ rs -> r <= last \/ r <= dropped_max u \/ is_Some (bt_get r (ahead u)).

Lemma covers_mono last last' u u' rs :
  last <= last' -> dropped_max u <= dropped_max u' ->
  (forall r, is_Some (bt_get r (ahead u)) ->
     r <= last' \/ r <= dropped_max u' \/ is_Some (bt_get r (ahead u'))) ->
  covers last u rs -> covers last' u' rs.
Proof. intros Hl Hd Ha Hc r Hr. destruct (Hc r Hr) as [?|[?|?]]; [lia|lia|auto]. Qed.

Lemma settle_one_covers floor hash at_ u rs last :
  up_ok u -> last <= floor -> covers last u rs ->
  covers floor (settle_one floor floor hash at_ u).2 rs.
Proof.
  intros ([Hok _] & _) Hl. destruct (settle_one_buffer floor floor hash at_ u) as (Hd & n & Ha).
  apply covers_mono; [done|lia|]. intros r [a Hr].
  destruct (decide (r <= floor)) as [?|Hgt]; [by left|]. right; right. rewrite Ha.
  set (m := match bt_get floor (ahead u) with Some _ => _ | None => _ end).
  assert (Hm : bt_ok m /\ bt_get r m = Some a).
  { unfold m. case_match; [|done]. split; [by apply bt_remove_ok|].
    rewrite bt_get_remove_ne by lia. done. }
  destruct Hm as [Hmok Hmr]. destruct (trim_low m n floor) as [m' n'] eqn:E.
  apply trim_low_spec in E as (gone & Hmg & _ & Hg & _). rewrite Hmg in *.
  exists a. apply bt_get_elem; [by apply bt_ok_app_r in Hmok|].
  apply bt_get_elem in Hmr; [|done]. apply elem_of_app in Hmr as [Hin|?]; [|done].
  rewrite Forall_forall in Hg. apply Hg in Hin. cbn in Hin. lia.
Qed.

Lemma bt_get_insert_Some k v (m : list (Z * Ahead)) r :
  is_Some (bt_get r m) \/ r = k -> is_Some (bt_get r (bt_insert k v m)).
Proof.
  rewrite !bt_get_gmap, bt_insert_gmap, lookup_insert. case_decide; [by eauto|]. intros [?|?]; [done|lia].
Qed.

Lemma insert_ahead_covers u round a rs last :
  up_ok u -> covers last u rs -> covers last (insert_ahead u round a) (round :: rs).
Proof.
  intros Hu Hc. pose proof (insert_ahead_ok u round a Hu) as [[Hok' _] _]. revert Hok'.
  destruct Hu as [[Hok Hb] _]. unfold insert_ahead.
  set (m := bt_insert round a (ahead u)). set (u1 := set_ahead u m _). intros Hok'.
  assert (Hm : bt_ok m) by (by apply bt_insert_ok).
  destruct (trim_high_spec (length m) u1) as (_ & _ & _ & _ & _ & Hd & gone & Hg & Hgd).
  { split; [done|]. cbn [u1 set_ahead ahead ahead_bytes]. unfold m.
    rewrite sum_frames_insert by done. case_match; lia. }
  { done. }
  set (u' := trim_high (length m) u1) in *. cbn [u1 set_ahead ahead dropped_max] in Hg, Hd.
  assert (Hall : forall r, is_Some (bt_get r m) ->
    r <= dropped_max u' \/ is_Some (bt_get r (ahead u'))).
  { intros r [x Hr]. apply bt_get_elem in Hr; [|done]. rewrite Hg in Hr.
    apply elem_of_app in Hr as [Hr|Hr].
    - right. exists x. by apply bt_get_elem.
    - left. rewrite Forall_forall in Hgd. apply (Hgd _ Hr). }
  intros r Hr. apply elem_of_cons in Hr as [->|Hr].
  - right. apply Hall, bt_get_insert_Some. by right.
  - destruct (Hc r Hr) as [?|[?|?]]; [by left|right; left; lia|].
    right. apply Hall, bt_get_insert_Some. by left.
Qed.

(** ** Lemmas: replaying a chain *)

Lemma record_forwarded_fields c r h t :
  ups (record_forwarded c r h t) = ups c /\ active (record_forwarded c r h t) = active c /\
  last_forwarded (record_forwarded c r h t) = r.
Proof. done. Qed.

(** Forwarding one block: the core stays consistent and every standby stays covered. *)
Lemma forward_one c r h t :
  core_ok c -> last_forwarded c <= r < u32_max ->
  let c' := (settle_standbys (record_forwarded c r h t) r h t).2 in
  core_ok c' /\ last_forwarded c' = r /\ active c' = active c /\
  (forall id u', ups c' !! id = Some u' -> exists u, ups c !! id = Some u /\
     (id = active c -> u' = u) /\
     forall rs last, last <= r -> covers last u rs -> covers r u' rs).
Proof.
  intros Hc Hr c'. split_and!; [apply settle_standbys_ok, record_forwarded_ok; done|done|done|].
  intros id u'. unfold c'. rewrite settle_lookup. cbn [ups record_forwarded active last_forwarded].
  destruct (ups c !! id) as [u|] eqn:E; [|done]. cbn. intros [= <-]. exists u. split; [done|].
  destruct (Z.eqb_spec id (active c)) as [->|Hne].
  - split; [done|]. intros rs last Hle. apply covers_mono; [done|done|]. auto.
  - split; [done|]. intros rs last Hle. apply settle_one_covers; [|done].
    destruct Hc as (Hu & _). by apply Hu in E as [? _].
Qed.

Lemma forward_chain_spec c chain :
  core_ok c -> linked (last_forwarded c) chain -> Forall (fun e => e.1 < u32_max) chain ->
  let c' := (forward_chain c chain).2 in
  core_ok c' /\ last_forwarded c' = chain_end (last_forwarded c) chain /\ active c' = active c /\
  last_forwarded c <= last_forwarded c' /\
  (forall id u', ups c' !! id = Some u' -> exists u, ups c !! id = Some u /\
     (id = active c -> u' = u) /\
     forall rs, covers (last_forwarded c) u rs -> covers (last_forwarded c') u' rs).
Proof.
  revert c. induction chain as [|[r a] chain IH]; intros c Hc Hl Hk; cbn [forward_chain chain_end].
  { cbn. split_and!; try done. intros id u' Hu. by exists u'. }
  inversion Hl as [|? ? ? ? Hp Hlt Hl']; subst. apply Forall_cons_1 in Hk as [Hr Hk]. cbn in Hr.
  destruct (forward_one c r (a_hash a) (a_at a) Hc ltac:(lia)) as (H1 & H2 & H3 & H4).
  destruct (settle_standbys _ r _ _) as [bad c1]. cbn [snd] in *.
  destruct (IH c1) as (I1 & I2 & I3 & I4 & I5); [done|by rewrite H2|done|].
  destruct (forward_chain c1 chain) as [bad' c2]. cbn [snd] in *.
  split_and!; [done|by rewrite I2, H2|congruence|lia|].
  intros id u' Hu. apply I5 in Hu as (u1 & Hu1 & Ha1 & Hc1).
  apply H4 in Hu1 as (u & Hu & Ha & Hc0). exists u. split; [done|]. split.
  - intros ->. rewrite Ha1 by congruence. by apply Ha.
  - intros rs Hrs. apply Hc1. rewrite H2. eapply Hc0; [|done]. lia.
Qed.

Lemma linked_end cur l : linked cur l -> cur <= chain_end cur l /\
  forall e, e ∈ l -> e.1 <= chain_end cur l.
Proof.
  induction 1 as [|cur r a l _ Hlt _ [IH1 IH2]]; cbn; [split; [lia|by intros ? ?%elem_of_nil]|].
  split; [lia|]. intros e [->|He]%elem_of_cons; [cbn; lia|auto].
Qed.

(** The chain a switch replays, and the core it leaves. *)
Lemma replayed_spec c id u :
  core_ok c -> ups c !! id = Some u -> can_continue u (last_forwarded c) = true ->
  replayed c id = linked_prefix (last_forwarded c) (bt_range (last_forwarded c + 1) (ahead u)) /\
  linked (last_forwarded c) (replayed c id) /\
  Forall (fun e => e ∈ ahead u /\ e.1 < u32_max) (replayed c id).
Proof.
  intros (Hu & _ & _ & _ & Hb) E Hcc. apply Hu in E as Huk. destruct Huk as [Hok Hk].
  pose proof (take_chain_spec (length (ahead u)) u (last_forwarded c) Hok Hk ltac:(lia) ltac:(lia)) as Ht.
  unfold replayed. rewrite E, Hcc.
  destruct (take_chain _ _ _) as [chain u']. destruct Ht as (-> & _). cbn [fst].
  split; [done|]. pose proof Hok as [[Hbt _] _]. split.
  - apply linked_prefix_linked; [by apply bt_range_ok|]. apply Forall_forall.
    intros e He%elem_of_bt_range. lia.
  - apply Forall_forall. intros e He%linked_prefix_sub%elem_of_bt_range. destruct He as [_ He].
    split; [done|]. unfold keys_ok in Hk. rewrite Forall_forall in Hk. auto.
Qed.

Lemma switch_to_spec c id now frames bad c' :
  core_ok c -> switch_to c id now = Some (frames, bad, c') ->
  exists u, ups c !! id = Some u /\ dropped_max u <= last_forwarded c /\
  frames = map (fun e => a_frame e.2) (replayed c id) /\ replayed c id <> [] /\
  core_ok c' /\ active c' = id /\ last_forwarded c' = chain_end (last_forwarded c) (replayed c id) /\
  (forall i u', ups c' !! i = Some u' -> exists u0, ups c !! i = Some u0 /\
     forall rs, covers (last_forwarded c) u0 rs -> covers (last_forwarded c') u' rs).
Proof.
  intros Hc. unfold switch_to. destruct (ups c !! id) as [u|] eqn:E; [|done].
  destruct (can_continue u (last_forwarded c)) eqn:Ecc; [|done]. cbn [negb].
  destruct (replayed_spec c id u Hc E Ecc) as (Hr1 & Hr2 & Hr3). revert Hr1 Hr2 Hr3.
  unfold replayed. rewrite E, Ecc.
  pose proof Hc as (Hu & Hrest). apply Hu in E as Huk. destruct Huk as [Hok Hk].
  pose proof (take_chain_spec (length (ahead u)) u (last_forwarded c) Hok Hk ltac:(lia) ltac:(lia)) as Ht.
  destruct (take_chain _ _ _) as [chain u1]. destruct Ht as (_ & T2 & T3 & T4 & T5 & T6 & T7).
  cbn [fst]. intros Hr1 Hr2 Hr3. destruct chain as [|e0 chain0] eqn:Ech; [done|]. rewrite <- Ech in *.
  set (c1 := mkCore _ _ _ _ _ _ _ _).
  assert (Hc1 : core_ok c1).
  { split; [|apply Hrest]. cbn. by apply map_Forall_insert_2. }
  destruct (forward_chain_spec c1 chain Hc1) as (F1 & F2 & F3 & F4 & F5); [done| |].
  { eapply Forall_impl; [done|]. cbn. naive_solver. }
  destruct (forward_chain c1 chain) as [bad' c2]. cbn [snd] in *.
  intros [= <- <- <-]. exists u. unfold can_continue in Ecc. zify_bool.
  split_and!; [done|done|done|by rewrite Ech| |done|done|].
  - apply set_ups_ok; [done|]. intros i v. rewrite lookup_fmap.
    destruct (ups c2 !! i) as [v0|] eqn:Ev; [|done]. cbn. intros [= <-].
    destruct F1 as (F1 & _). apply F1 in Ev as [(? & ? & ? & _) ?].
    split; [|done]. split_and!; try done. cbn. unfold LEAD_WINDOW. lia.
  - intros i v'. cbn [set_ups ups]. rewrite lookup_fmap.
    destruct (ups c2 !! i) as [v0|] eqn:Ev; [|done]. cbn. intros [= <-].
    apply F5 in Ev as (v1 & Hv1 & Hact & Hcov). cbn [c1 ups] in Hv1.
    apply lookup_insert_Some in Hv1 as [[<- <-]|[Hne Hv1]].
    + exists u. split; [done|]. intros rs Hrs. change (covers (last_forwarded c2) v0 rs).
      rewrite Hact by done. apply (covers_mono (last_forwarded c) _ u); [exact F4|lia| |exact Hrs].
      intros r [a Hr]. pose proof Hok as [[Hbt _] _]. apply bt_get_elem in Hr; [|done].
      destruct (T6 _ Hr) as [Hin|Hin].
      * right; right. exists a. apply bt_get_elem; [apply T2|done].
      * left. rewrite F2. apply linked_end in Hr2 as [_ Hr2]. apply (Hr2 _ Hin).
    + exists v1. split; [done|]. intros rs Hrs. change (covers (last_forwarded c2) v0 rs). by apply Hcov.
Qed.

(** ** Lemmas: events *)

(** The rounds standby [id] delivered since it was (last) added. *)
Definition deliver (id : Z) (e : event) (rs : list Z) : list Z :=
  match e with
  | EvAdd i _ => if i =? id then [] else rs
  | EvStandby i r _ _ _ _ => if i =? id then r :: rs else rs
  | _ => rs
  end.

Definition delivered (id : Z) (es : list event) : list Z :=
  foldl (fun rs e => deliver id e rs) [] es.

Definition all_cover (c : Core) (D : Z -> list Z) : Prop :=
  forall id u, ups c !! id = Some u -> covers (last_forwarded c) u (D id).

(** The last round of a list, [cur] if it is empty. *)
Definition end_of (cur : Z) (l : list Z) : Z := foldl (fun _ x => x) cur l.

(** The effect of one event on the core: consistency, the rounds sent, coverage. *)
Definition step_ok (c : Core) (e : event) (out : list Z) (c' : Core) : Prop :=
  core_ok c' /\ StronglySorted Z.lt (last_forwarded c :: out) /\
  last_forwarded c' = end_of (last_forwarded c) out /\
  forall D, all_cover c D -> all_cover c' (fun id => deliver id e (D id)).

Lemma covers_same_buffer last u u' rs :
  ahead u' = ahead u -> dropped_max u' = dropped_max u -> covers last u rs -> covers last u' rs.
Proof. intros Ha Hd. unfold covers. by rewrite Ha, Hd. Qed.

(** Replacing one upstream by one that covers what it delivered. *)
Lemma step_ok_insert c e id u u' :
  core_ok c -> ups c !! id = Some u -> up_ok u' -> keys_ok u' ->
  (forall i D, i <> id -> deliver i e D = D) ->
  (forall rs, covers (last_forwarded c) u rs -> covers (last_forwarded c) u' (deliver id e rs)) ->
  step_ok c e [] (set_ups c (<[id := u']> (ups c))).
Proof.
  intros Hc Hu H1 H2 Hd Hcov. split_and!; [|repeat constructor|done|].
  - apply set_ups_ok; [done|]. destruct Hc as (Hm & _). by apply map_Forall_insert_2.
  - intros D HD i v. cbn. intros [[<- <-]|[Hne Hv]]%lookup_insert_Some.
    + by apply Hcov, HD.
    + rewrite Hd by congruence. by apply HD.
Qed.

Lemma set_last_rx_ok u t : up_ok u -> up_ok (set_last_rx u t).
Proof. done. Qed.

Lemma insert_ahead_keys u round a :
  up_ok u -> keys_ok u -> round < u32_max -> keys_ok (insert_ahead u round a).
Proof.
  intros [[Hok Hb] _] Hk Hr. unfold keys_ok, insert_ahead.
  set (m := bt_insert round a (ahead u)).
  set (u1 := set_ahead u m _).
  destruct (trim_high_spec (length m) u1) as (_ & _ & _ & _ & _ & _ & gone & Hg & _).
  { split; [by apply bt_insert_ok|]. cbn [u1 set_ahead ahead ahead_bytes]. unfold m.
    rewrite sum_frames_insert by done. case_match; lia. }
  { done. }
  cbn [u1 set_ahead ahead] in Hg.
  assert (Hm : Forall (fun e => e.1 < u32_max) m) by (by apply bt_insert_Forall).
  rewrite Hg in Hm. by apply Forall_app in Hm as [? _].
Qed.

Lemma exec_standby_ok c id r p h t f :
  core_ok c -> r < u32_max ->
  step_ok c (EvStandby id r p h t f) [] (on_standby_block c id r p h t f).2.
Proof.
  intros Hc Hr. unfold on_standby_block. destruct (ups c !! id) as [u|] eqn:E.
  2:{ split_and!; [done|repeat constructor|done|]. intros D HD i v Hv. cbn in Hv |- *.
      destruct (Z.eqb_spec id i) as [->|]; [congruence|by apply HD]. }
  pose proof Hc as (Hm & _). apply Hm in E as Hu. destruct Hu as [Hu Hk].
  assert (Hother : forall i D, i <> id -> deliver i (EvStandby id r p h t f) D = D).
  { intros i D Hne. cbn. destruct (Z.eqb_spec id i); [lia|done]. }
  destruct (Z.leb_spec r (last_forwarded c)) as [Hle|Hgt].
  - assert (Hcov : forall u', ahead u' = ahead u -> dropped_max u' = dropped_max u ->
      forall rs, covers (last_forwarded c) u rs ->
      covers (last_forwarded c) u' (deliver id (EvStandby id r p h t f) rs)).
    { intros u' Ha Hd rs Hrs. cbn. rewrite Z.eqb_refl.
      intros x [->|Hx]%elem_of_cons; [by left|]. rewrite Ha, Hd. by apply Hrs. }
    destruct (bt_get r (forwarded c)) as [[h' fat]|].
    + pose proof (compared_ok (set_last_rx u t) (h' =? h) (- lead_ms t fat) Hu) as Hco.
      pose proof (compared_fields (set_last_rx u t) (h' =? h) (- lead_ms t fat)) as (C1 & C2 & _).
      destruct (compared _ _ _) as [bad u']. cbn in *.
      eapply step_ok_insert; try done; [unfold keys_ok; by rewrite C1|by apply Hcov].
    + cbn [snd]. eapply step_ok_insert; try done. by apply Hcov.
  - cbn [snd]. eapply step_ok_insert; try done.
    + by apply insert_ahead_ok.
    + by apply insert_ahead_keys.
    + intros rs Hrs. cbn [deliver]. rewrite Z.eqb_refl. by apply insert_ahead_covers.
Qed.

Lemma exec_active_ok c r h t :
  core_ok c -> 0 < r < u32_max ->
  let '(fwd, _, c') := on_active_block c r h t in
  step_ok c (EvActive r h t) (if fwd then [r] else []) c'.
Proof.
  intros Hc Hr. unfold on_active_block.
  set (c0 := match ups c !! active c with Some u => _ | None => c end).
  assert (H0 : core_ok c0 /\ last_forwarded c0 = last_forwarded c /\
    forall D, all_cover c D -> all_cover c0 D).
  { unfold c0. destruct (ups c !! active c) as [u|] eqn:E; [|done].
    pose proof Hc as (Hm & _). apply Hm in E as Hu. destruct Hu as [Hu Hk].
    destruct (step_ok_insert c (EvPrefer 0) (active c) u (set_last_rx u t)) as (S1 & _ & _ & S4);
      try done. }
  destruct H0 as (Hc0 & Hl0 & HD0). destruct (_ && _) eqn:E.
  - split_and!; [done|repeat constructor|done|]. intros D HD. by apply HD0.
  - assert (Hlt : last_forwarded c0 < r).
    { destruct Hc0 as (_ & _ & _ & _ & ?). apply andb_false_iff in E as [E|E]; zify_bool; lia. }
    destruct (forward_one c0 r h t Hc0 ltac:(lia)) as (H1 & H2 & H3 & H4).
    destruct (settle_standbys _ r h t) as [bad c']. cbn [snd] in *.
    split_and!; [done|repeat constructor; lia|done|].
    intros D HD id u' Hu'. cbn. rewrite H2. apply H4 in Hu' as (u & Hu & _ & Hcov).
    eapply Hcov; [|by apply HD0]. lia.
Qed.

Lemma chain_end_of cur l : chain_end cur l = end_of cur (map fst l).
Proof. revert cur. induction l as [|[r a] l IH]; intros cur; [done|]. apply IH. Qed.

Lemma exec_switch_ok c id now :
  core_ok c ->
  step_ok c (EvSwitch id now)
    (exec c (EvSwitch id now)).1 (exec c (EvSwitch id now)).2.
Proof.
  intros Hc. cbn [exec]. destruct (switch_to c id now) as [[[frames bad] c']|] eqn:E; cbn [fst snd].
  2:{ split_and!; [done|repeat constructor|done|]. by intros D HD. }
  destruct (switch_to_spec _ _ _ _ _ _ Hc E) as (u & Hu & Hd & _ & _ & H1 & H2 & H3 & H4).
  destruct (replayed_spec c id u Hc Hu) as (_ & Hl & _).
  { unfold can_continue. lia. }
  split_and!; [done|by apply linked_sorted|by rewrite H3, chain_end_of|].
  intros D HD i v (u0 & Hu0 & Hcov)%H4. by apply Hcov, HD.
Qed.

Lemma exec_ok c e :
  core_ok c -> event_ok e -> step_ok c e (exec c e).1 (exec c e).2.
Proof.
  intros Hc He. destruct e as [r h t|id r p h t f|id ip|id|id|id now]; cbn [exec fst snd].
  - pose proof (exec_active_ok c r h t Hc He) as Ha.
    destruct (on_active_block c r h t) as [[fwd bad] c']. done.
  - by apply exec_standby_ok.
  - split_and!; [|repeat constructor|done|].
    + apply set_ups_ok; [done|]. destruct Hc as (Hm & _).
      apply map_Forall_insert_2; [apply up_new_ok|done].
    + intros D HD i v. cbn. intros [[<- <-]|[Hne Hv]]%lookup_insert_Some.
      * rewrite Z.eqb_refl. by intros ? ?%elem_of_nil.
      * destruct (Z.eqb_spec id i); [done|]. by apply HD.
  - unfold mark_preferred. destruct (ups c !! id) as [u|] eqn:E.
    + pose proof Hc as (Hm & _). apply Hm in E as Hu. destruct Hu as [Hu Hk].
      by eapply step_ok_insert.
    + split_and!; [done|repeat constructor|done|]. by intros D HD.
  - split_and!; [|repeat constructor|done|].
    + apply set_ups_ok; [done|]. destruct Hc as (Hm & _). by apply map_Forall_delete.
    + intros D HD i v. cbn. intros [_ Hv]%lookup_delete_Some. by apply HD.
  - by apply exec_switch_ok.
Qed.

Lemma StronglySorted_join cur l k :
  StronglySorted Z.lt (cur :: l) -> StronglySorted Z.lt (end_of cur l :: k) ->
  StronglySorted Z.lt (cur :: l ++ k).
Proof.
  revert cur. induction l as [|x l IH]; intros cur; cbn; [done|].
  intros [Hl Hc]%StronglySorted_inv Hk. specialize (IH x Hl Hk).
  constructor; [done|]. apply Forall_cons_1 in Hc as [Hx Hc]. constructor; [done|].
  apply StronglySorted_inv in IH as [_ IH]. eapply Forall_impl; [done|]. cbn. lia.
Qed.

Lemma run_events_spec c es D :
  core_ok c -> Forall event_ok es -> all_cover c D ->
  let '(out, c') := run_events c es in
  core_ok c' /\ StronglySorted Z.lt (last_forwarded c :: out) /\
  last_forwarded c' = end_of (last_forwarded c) out /\
  all_cover c' (fun id => foldl (fun rs e => deliver id e rs) (D id) es).
Proof.
  revert c D. induction es as [|e es IH]; intros c D Hc He HD; cbn [run_events].
  { split_and!; [done|repeat constructor|done|done]. }
  apply Forall_cons_1 in He as [He Hes].
  destruct (exec_ok c e Hc He) as (H1 & H2 & H3 & H4).
  destruct (exec c e) as [out c1]. cbn [fst snd] in *.
  specialize (IH c1 _ H1 Hes (H4 D HD)). destruct (run_events c1 es) as [out' c2].
  destruct IH as (I1 & I2 & I3 & I4). split_and!; [done| | |done].
  - apply StronglySorted_join; [done|]. by rewrite <- H3.
  - rewrite I3, H3. unfold end_of. by rewrite foldl_app.
Qed.

(** ** Properties: what the node receives *)

(** Over any history of a session's core (active and standby blocks, standbys added, dropped
    and preferred, switches in any order) the rounds sent to the node are strictly increasing and
    above the round the session started from, [last_forwarded] is the last of them, and every
    buffer stays within its bounds: at most 512 blocks and 32 MB per upstream with an exact byte
    count, 40 lead samples, 1024 forwarded rounds. *)
Theorem node_rounds_increase (act : Z) (ip : string) (last st lg dw : Z) (es : list event) :
  0 <= last < u32_max -> Forall event_ok es ->
  let '(out, c) := run_events (Core_new act ip last st lg dw) es in
  StronglySorted Z.lt (last :: out) /\ last_forwarded c = end_of last out /\ core_ok c.
Proof.
  intros Hl He.
  pose proof (run_events_spec (Core_new act ip last st lg dw) es (fun _ => [])
    (core_new_ok _ _ _ _ _ _ Hl) He) as H0.
  destruct (run_events _ es) as [out c]. destruct H0 as (H1 & H2 & H3 & _); [|done].
  intros id u _ r Hr. by apply elem_of_nil in Hr.
Qed.

(** C1: a switch hands the node an unbroken continuation of its chain. The frames sent are the
    buffered blocks of the new active, starting at the block whose parent is the node's last block
    and following parent links with increasing rounds; at least one is sent; the new active becomes
    the given standby and the node's last round the last one replayed. *)
Theorem switch_is_gap_free (c : Core) (id now : Z) (frames : list bytes) (bad : list (Z * Z)) (c' : Core) :
  core_ok c -> switch_to c id now = Some (frames, bad, c') ->
  exists u chain, ups c !! id = Some u /\ chain <> [] /\
    frames = map (fun e => a_frame e.2) chain /\
    linked (last_forwarded c) chain /\ Forall (fun e => e ∈ ahead u) chain /\
    chain = linked_prefix (last_forwarded c) (bt_range (last_forwarded c + 1) (ahead u)) /\
    active c' = id /\ last_forwarded c' = chain_end (last_forwarded c) chain.
Proof.
  intros Hc H0.
  destruct (switch_to_spec _ _ _ _ _ _ Hc H0) as (u & Hu & Hd & Hf & Hn & _ & Ha & Hl & _).
  destruct (replayed_spec c id u Hc Hu) as (Hr & Hlk & Hin); [unfold can_continue; lia|].
  exists u, (replayed c id). split_and!; try done. eapply Forall_impl; [done|]. cbn. naive_solver.
Qed.

(** C3: no switch skips a block the new active delivered. After any history, when a switch to a
    standby succeeds: what the standby has buffered above the node's last round is the chain the
    switch sends, in full and from its first block on, and then a rest whose first block is not a
    child of the last block sent; every round the standby delivered since it was added is at the node
    already, among those sent, or in that rest. So when the buffered blocks form one chain, the node
    has every delivered round after the switch. *)
Theorem switch_never_skips_a_block (act : Z) (ip : string) (last st lg dw : Z) (es : list event)
    (id now : Z) (frames : list bytes) (bad : list (Z * Z)) (c' : Core) :
  0 <= last < u32_max -> Forall event_ok es ->
  let c := (run_events (Core_new act ip last st lg dw) es).2 in
  switch_to c id now = Some (frames, bad, c') ->
  exists u sent rest, ups c !! id = Some u /\
    bt_range (last_forwarded c + 1) (ahead u) = sent ++ rest /\
    frames = map (fun e => a_frame e.2) sent /\ last_forwarded c' = chain_end (last_forwarded c) sent /\
    match rest with (_, a) :: _ => a_parent a <> last_forwarded c' | [] => True end /\
    (forall r, r ∈ delivered id es -> r <= last_forwarded c \/ r ∈ sent.*1 \/ r ∈ rest.*1) /\
    (linked (last_forwarded c) (sent ++ rest) -> forall r, r ∈ delivered id es -> r <= last_forwarded c').
Proof.
  intros Hl He c Hs.
  pose proof (run_events_spec (Core_new act ip last st lg dw) es (fun _ => [])
    (core_new_ok _ _ _ _ _ _ Hl) He) as H0.
  unfold c in *. clear c. destruct (run_events _ es) as [out c]. cbn [snd] in *.
  destruct H0 as (H1 & _ & _ & H4); [intros i u _ r Hr; by apply elem_of_nil in Hr|].
  destruct (switch_to_spec _ _ _ _ _ _ H1 Hs) as (u & Hu & Hd & Hf & _ & _ & _ & Hlast & _).
  destruct (replayed_spec c id u H1 Hu) as (Hr & Hlk & _); [unfold can_continue; lia|].
  destruct (linked_prefix_rest (last_forwarded c) (bt_range (last_forwarded c + 1) (ahead u))) as (rest & Erest & Hrest).
  rewrite <- Hr in Erest, Hrest.
  assert (Hcov : forall r, r ∈ delivered id es -> r <= last_forwarded c \/ r ∈ (replayed c id).*1 \/ r ∈ rest.*1).
  { intros r Hin. destruct (H4 id u Hu r Hin) as [?|[?|[a Ha]]]; [by left|left; lia|].
    destruct (decide (r <= last_forwarded c)); [by left|right].
    pose proof H1 as (Hok & _). apply Hok in Hu as [[[Hbt _] _] _]. apply bt_get_elem in Ha; [|done].
    rewrite <- elem_of_app, <- fmap_app, <- Erest. apply list_elem_of_fmap. exists (r, a). split; [done|].
    apply elem_of_bt_range. cbn. split; [lia|done]. }
  exists u, (replayed c id), rest. rewrite Hlast. split_and!; [done..|].
  intros Hlin r Hin. rewrite Erest in Hr. rewrite (linked_prefix_all _ _ Hlin) in Hr.
  rewrite <- (app_nil_r (replayed c id)) in Hr at 1. apply app_inv_head in Hr. subst rest.
  destruct (Hcov r Hin) as [Hle|[Hr|Hr]]; [|by apply linked_chain_end|by apply elem_of_nil in Hr].
  etrans; [exact Hle|]. clear -Hlk. revert Hlk. generalize (replayed c id), (last_forwarded c). intros l cur.
  induction 1; cbn; lia.
Qed.
End Traces.

(** ** A concrete session *)

(** The active delivers rounds 101..103, a standby the same blocks, then rounds 104 and 105. *)
Definition example_events : list event :=
  [EvAdd 1 "b";
   EvActive 101 11 (millis 10); EvStandby 1 101 100 11 (millis 12) [1];
   EvActive 102 12 (millis 80); EvStandby 1 102 101 12 (millis 82) [2];
   EvActive 103 13 (millis 150); EvStandby 1 103 102 13 (millis 152) [3];
   EvStandby 1 104 103 14 (millis 222) [4]; EvStandby 1 105 104 15 (millis 292) [5]].

Definition example_start : Core :=
  Core_new 0 "a" 100 (millis 400) (millis 150) (millis 10000).

Definition example_core : Core := (run_events example_start example_events).2.

Lemma example_events_ok : Forall event_ok example_events.
Proof. repeat constructor; cbn; unfold u32_max; lia. Qed.

Lemma example_core_ok : core_ok example_core.
Proof.
  unfold example_core.
  pose proof (run_events_spec example_start example_events (fun _ => [])) as H.
  destruct (run_events example_start example_events) as [out c]. cbn. apply H.
  - apply core_new_ok. unfold u32_max. lia.
  - apply example_events_ok.
  - intros id u _ r Hr. by apply elem_of_nil in Hr.
Qed.

Lemma node_rounds_increase_witness :
  (run_events example_start (example_events ++ [EvSwitch 1 (millis 700)])).1
    = [101; 102; 103; 104; 105] /\
  StronglySorted Z.lt (100 :: [101; 102; 103; 104; 105]).
Proof.
  split; [vm_compute; reflexivity|].
  pose proof (node_rounds_increase 0 "a" 100 (millis 400) (millis 150) (millis 10000)
    (example_events ++ [EvSwitch 1 (millis 700)])) as H.
  destruct (run_events _ _) as [out c] eqn:E. destruct H as [H _].
  - unfold u32_max. lia.
  - apply Forall_app. split; [apply example_events_ok|by repeat constructor].
  - apply (f_equal fst) in E. vm_compute in E. cbn in E. by rewrite E.
Defined.

Lemma example_last : last_forwarded example_core = 103.
Proof. vm_compute. reflexivity. Qed.

Lemma example_delivered : delivered 1 example_events = [105; 104; 103; 102; 101].
Proof. vm_compute. reflexivity. Qed.

Lemma switch_is_gap_free_witness :
  exists chain frames, frames = [[4]; [5]] /\ chain <> [] /\
    frames = map (fun e => a_frame e.2) chain /\ linked 103 chain.
Proof.
  destruct (switch_to example_core 1 (millis 700)) as [[[frames bad] c']|] eqn:E;
    [|vm_compute in E; discriminate E].
  destruct (switch_is_gap_free example_core 1 (millis 700) frames bad c' example_core_ok E)
    as (u & chain & _ & Hn & Hf & Hl & _).
  rewrite example_last in Hl. exists chain, frames. split; [|by split_and!].
  apply (f_equal (fun o => fst <$> (fst <$> o))) in E. vm_compute in E. congruence.
Defined.

Lemma switch_never_skips_a_block_witness :
  exists u sent rest, ups example_core !! 1 = Some u /\
    bt_range 104 (ahead u) = sent ++ rest /\
    forall r, r ∈ [105; 104; 103; 102; 101] -> r <= 103 \/ r ∈ sent.*1 \/ r ∈ rest.*1.
Proof.
  destruct (switch_to example_core 1 (millis 700)) as [[[frames bad] c']|] eqn:E;
    [|vm_compute in E; discriminate E].
  destruct (switch_never_skips_a_block 0 "a" 100 (millis 400) (millis 150) (millis 10000)
    example_events 1 (millis 700) frames bad c') as (u & sent & rest & H1 & H2 & _ & _ & _ & H3 & _);
    [unfold u32_max; lia|apply example_events_ok|exact E|].
  exists u, sent, rest. fold example_start in H1, H2, H3. fold example_core in H1, H2, H3.
  rewrite example_last in H2, H3. rewrite example_delivered in H3. by split_and!.
Defined.

(** ** Lemmas: choosing a standby *)

Section Choice.
Context `{HashOrder}.

(** A loop invariant for [foldl], by the elements already visited. *)
Lemma foldl_visited {A B} (f : B -> A -> B) (b0 : B) (P : list A -> B -> Prop) (l : list A) :
  P [] b0 -> (forall seen b x, x ∈ l -> P seen b -> P (seen ++ [x]) (f b x)) ->
  P l (foldl f b0 l).
Proof.
  intros H0 Hs. induction l as [|x l IH] using rev_ind; [done|].
  rewrite foldl_app. cbn. apply Hs; [rewrite elem_of_app, list_elem_of_singleton; by right|].
  apply IH. intros seen b y Hy. apply Hs. rewrite elem_of_app. by left.
Qed.

(** A standby a switch may go to: verified, and holding the node's next block. *)
Definition eligible (c : Core) (e : Z * Upstream) (first_at : Z) : Prop :=
  e.1 <> active c /\ MIN_VERIFIED <= verified e.2 /\
  (chain_len e.2 (last_forwarded c)).2 = Some first_at.

Definition stall_due (c : Core) (now : Z) (active_dead : bool) (first_at : Z) : Prop :=
  active_dead = true \/ stall c <= since now first_at.

Definition pick_inv (c : Core) (now : Z) (dead : bool) (seen : list (Z * Upstream)) (b : Best)
    : Prop :=
  (forall id lead n fa, stall_best b = Some (id, lead, n, fa) ->
     exists u, (id, u) ∈ seen /\ eligible c (id, u) fa /\ stall_due c now dead fa) /\
  (forall id lead, preferred_best b = Some (id, lead) ->
     exists u fa, (id, u) ∈ seen /\ eligible c (id, u) fa /\ preferred u = true /\
       active_preferred c = false /\ dwell_ok c now = true) /\
  (forall id m, lag_best b = Some (id, m) ->
     exists u fa, (id, u) ∈ seen /\ eligible c (id, u) fa /\ median_lead u = Some m /\
       as_millis (lag c) <= m /\ dwell_ok c now = true /\
       (preferred u = true \/ active_preferred c = false)) /\
  (forall e fa, e ∈ seen -> eligible c e fa -> stall_due c now dead fa -> stall_best b <> None) /\
  (forall e fa, e ∈ seen -> eligible c e fa -> preferred e.2 = true ->
     active_preferred c = false -> dwell_ok c now = true -> preferred_best b <> None).

Lemma pick_inv_skip c now dead seen b e :
  pick_inv c now dead seen b -> (forall fa, ~ eligible c e fa) ->
  pick_inv c now dead (seen ++ [e]) b.
Proof.
  intros (H1 & H2 & H3 & H4 & H5) Hne. unfold pick_inv. setoid_rewrite elem_of_app.
  setoid_rewrite list_elem_of_singleton. split_and!.
  - intros id lead n fa Hb. destruct (H1 id lead n fa Hb) as (u & ? & ?). eauto.
  - intros id lead Hb. destruct (H2 id lead Hb) as (u & fa & ? & ?). eauto 6.
  - intros id m Hb. destruct (H3 id m Hb) as (u & fa & ? & ?). eauto 6.
  - intros x fa [Hx| ->] Hel; [eauto|]. by apply Hne in Hel.
  - intros x fa [Hx| ->] Hel; [eauto|]. by apply Hne in Hel.
Qed.

Lemma pick_step_inv c now dead seen b e :
  pick_inv c now dead seen b -> pick_inv c now dead (seen ++ [e]) (pick_step c now dead b e).
Proof.
  intros Hinv. destruct e as [id u]. unfold pick_step.
  destruct ((id =? active c) || (verified u <? MIN_VERIFIED)) eqn:Eskip.
  { apply pick_inv_skip; [done|]. intros fa (Hne & Hv & _). cbn in *.
    apply orb_true_iff in Eskip as [?|?]; lia. }
  destruct (chain_len u (last_forwarded c)) as [n [fa|]] eqn:Ech.
  2:{ apply pick_inv_skip; [done|]. intros fa (_ & _ & Hch). cbn in Hch. by rewrite Ech in Hch. }
  assert (Hel : eligible c (id, u) fa).
  { unfold eligible. cbn. rewrite Ech. zify_bool. split_and!; [lia|lia|done]. }
  assert (Huniq : forall fa', eligible c (id, u) fa' -> fa' = fa).
  { intros fa' (_ & _ & Hch). cbn in Hch. rewrite Ech in Hch. by injection Hch. }
  destruct Hinv as (H1 & H2 & H3 & H4 & H5). unfold pick_inv. setoid_rewrite elem_of_app.
  setoid_rewrite list_elem_of_singleton. cbn [stall_best lag_best preferred_best].
  split_and!.
  - intros id' lead n' fa' Hb.
    assert (Hold : stall_best b = Some (id', lead, n', fa') -> exists u0,
      ((id', u0) ∈ seen \/ (id', u0) = (id, u)) /\ eligible c (id', u0) fa' /\
      stall_due c now dead fa') by (intros (u0 & ? & ?)%H1; eauto).
    destruct (dead || _) eqn:Ed; [|auto].
    assert (Hdue : stall_due c now dead fa).
    { apply orb_true_iff in Ed as [?|?]; [by left|right; lia]. }
    destruct (match stall_best b with None => true | Some _ => _ end); [|auto].
    injection Hb as <- <- <- <-. eauto 6.
  - intros id' lead Hb.
    assert (Hold : preferred_best b = Some (id', lead) -> exists u0 fa0,
      ((id', u0) ∈ seen \/ (id', u0) = (id, u)) /\ eligible c (id', u0) fa0 /\
      preferred u0 = true /\ active_preferred c = false /\ dwell_ok c now = true)
      by (intros (u0 & fa0 & ? & ?)%H2; eauto 6).
    destruct (_ && _ && _) eqn:Ep; [|auto]. zify_bool.
    destruct (match preferred_best b with None => true | Some _ => _ end); [|auto].
    injection Hb as <- <-. eauto 10.
  - intros id' m Hb.
    assert (Hold : lag_best b = Some (id', m) -> exists u0 fa0,
      ((id', u0) ∈ seen \/ (id', u0) = (id, u)) /\ eligible c (id', u0) fa0 /\
      median_lead u0 = Some m /\ as_millis (lag c) <= m /\ dwell_ok c now = true /\
      (preferred u0 = true \/ active_preferred c = false))
      by (intros (u0 & fa0 & ? & ?)%H3; eauto 6).
    destruct (dwell_ok c now && _) eqn:Ep; [|auto].
    destruct (median_lead u) as [ml|] eqn:Em; [|auto].
    destruct (_ && _) eqn:El in Hb; [|auto]. injection Hb as <- <-. zify_bool.
    exists u, fa. split_and!; try done; [by right|].
    match goal with Hor : (_ || _)%bool = true |- _ => apply orb_true_iff in Hor as [?|?] end;
      zify_bool; auto.
  - intros x fa' [Hx| ->] Hx1 Hx2.
    + specialize (H4 x fa' Hx Hx1 Hx2). by repeat case_match.
    + rewrite (Huniq _ Hx1) in Hx2.
      destruct (dead || (stall c <=? since now fa)) eqn:Ed.
      * by repeat case_match.
      * apply orb_false_iff in Ed as [? ?]. destruct Hx2; [congruence|lia].
  - intros x fa' [Hx| ->] Hx1 Hx2 Hx3 Hx4.
    + specialize (H5 x fa' Hx Hx1 Hx2 Hx3 Hx4). by repeat case_match.
    + cbn in Hx2. rewrite Hx2, Hx3, Hx4. cbn. by repeat case_match.
Qed.

Lemma pick_fold_inv c now dead :
  pick_inv c now dead (iter_order (ups c))
    (foldl (pick_step c now dead) (mkBest None None None) (iter_order (ups c))).
Proof.
  apply foldl_visited.
  - unfold pick_inv. cbn. split_and!; try done; by intros ? ? ?%elem_of_nil.
  - intros seen b x _. apply pick_step_inv.
Qed.

Lemma chain_len_Some u from fa :
  (chain_len u from).2 = Some fa ->
  can_continue u from = true /\ exists r a rest,
    bt_range (sat_add32 from 1) (ahead u) = (r, a) :: rest /\ a_parent a = from /\ a_at a = fa.
Proof.
  unfold chain_len. destruct (can_continue u from); [|done]. cbn.
  destruct (bt_range _ _) as [|[r a] rest]; [done|].
  destruct (Z.eqb_spec (a_parent a) from); [|done]. intros [= <-]. split; [done|].
  exists r, a, rest. done.
Qed.

(** An eligible standby really can take over. *)
Lemma eligible_switches c id u fa now :
  core_ok c -> ups c !! id = Some u -> eligible c (id, u) fa ->
  is_Some (switch_to c id now).
Proof.
  intros Hc Hu (_ & _ & Hch). cbn in Hch.
  apply chain_len_Some in Hch as (Hcc & r & a & rest & Hr & Hp & _).
  destruct (replayed_spec c id u Hc Hu Hcc) as (Heq & _).
  unfold switch_to. rewrite Hu, Hcc. cbn [negb].
  unfold replayed in Heq. rewrite Hu, Hcc in Heq.
  destruct (take_chain _ _ _) as [chain u']. cbn in Heq. subst chain.
  destruct Hc as (_ & _ & _ & _ & Hlt). rewrite sat_add32_exact in Hr by lia. rewrite Hr.
  cbn [linked_prefix]. rewrite (proj2 (Z.eqb_eq _ _) Hp).
  destruct (forward_chain _ _) as [bad c2]. eauto.
Qed.

(** C4: a switch decision is always executable and justified. The chosen standby is not the active,
    has matched at least [MIN_VERIFIED] blocks, holds the node's next block, and [switch_to] for it
    succeeds; and per reason: active-dead only when the active is dead, stall only after the block
    was held for the stall time, preferred only from a non-priority active to a priority peer after
    the dwell time, lag only after the dwell time, at the lag threshold, and never from a priority
    active to a pool peer. *)
Theorem pick_switch_sound (c : Core) (now : Z) (dead : bool) (id : Z) (reason : SwitchReason) :
  core_ok c -> pick_switch c now dead = Some (id, reason) ->
  exists u fa, ups c !! id = Some u /\ id <> active c /\ MIN_VERIFIED <= verified u /\
    (chain_len u (last_forwarded c)).2 = Some fa /\ is_Some (switch_to c id now) /\
    match reason with
    | ActiveDead => dead = true
    | Stall => dead = false /\ stall c <= since now fa
    | Preferred => preferred u = true /\ active_preferred c = false /\ dwell_ok c now = true
    | Lag => dwell_ok c now = true /\ (preferred u = true \/ active_preferred c = false) /\
        exists m, median_lead u = Some m /\ as_millis (lag c) <= m
    end.
Proof.
  intros Hc. unfold pick_switch. destruct (last_forwarded c =? 0); [done|].
  pose proof (pick_fold_inv c now dead) as (H1 & H2 & H3 & _).
  set (b := foldl _ _ _) in *.
  assert (Hgo : forall u fa, (id, u) ∈ iter_order (ups c) -> eligible c (id, u) fa ->
    ups c !! id = Some u /\ id <> active c /\ MIN_VERIFIED <= verified u /\
    (chain_len u (last_forwarded c)).2 = Some fa /\ is_Some (switch_to c id now)).
  { intros u fa Hin Hel. apply elem_of_iter_order in Hin.
    split_and!; try done; try apply Hel. by eapply eligible_switches. }
  destruct (stall_best b) as [[[[id1 l1] n1] fa1]|] eqn:Es.
  - intros [= <- <-]. destruct (H1 _ _ _ _ eq_refl) as (u & Hin & Hel & Hdue).
    destruct (Hgo u fa1 Hin Hel) as (? & ? & ? & ? & ?). exists u, fa1. split_and!; try done.
    destruct dead; [done|]. by destruct Hdue as [?|?].
  - destruct (preferred_best b) as [[id1 l1]|] eqn:Ep.
    + intros [= <- <-]. destruct (H2 _ _ eq_refl) as (u & fa & Hin & Hel & Hr1 & Hr2 & Hr3).
      destruct (Hgo u fa Hin Hel) as (? & ? & ? & ? & ?). exists u, fa. by split_and!.
    + destruct (lag_best b) as [[id1 m1]|] eqn:El; [|done]. cbn. intros [= <- <-].
      destruct (H3 _ _ eq_refl) as (u & fa & Hin & Hel & Hm & Hlag & Hdw & Hpr).
      destruct (Hgo u fa Hin Hel) as (? & ? & ? & ? & ?). exists u, fa.
      split_and!; try done. by exists m1.
Qed.

(** A dead active is replaced as soon as possible: if the session has forwarded a block and some
    verified standby holds the node's next block, [pick_switch] on a dead active picks one (with
    reason active-dead), whatever the dwell time and the iteration order of the upstream map. *)
Theorem pick_switch_dead_complete (c : Core) (now id : Z) (u : Upstream) (fa : Z) :
  last_forwarded c <> 0 -> ups c !! id = Some u -> id <> active c ->
  MIN_VERIFIED <= verified u -> (chain_len u (last_forwarded c)).2 = Some fa ->
  exists id', pick_switch c now true = Some (id', ActiveDead).
Proof.
  intros Hl Hu Hid Hv Hch. unfold pick_switch. rewrite (proj2 (Z.eqb_neq _ _)) by done.
  pose proof (pick_fold_inv c now true) as (_ & _ & _ & H4 & _).
  specialize (H4 (id, u) fa). destruct (stall_best _) as [[[[i l] n] f]|]; [by eauto|].
  exfalso. apply H4; [by apply elem_of_iter_order|done|by left|done].
Qed.
End Choice.

Lemma pick_switch_sound_witness :
  pick_switch example_core (millis 700) false = Some (1, Stall) /\
  exists u fa, ups example_core !! 1 = Some u /\ (chain_len u 103).2 = Some fa /\
    millis 400 <= since (millis 700) fa.
Proof.
  assert (E : pick_switch example_core (millis 700) false = Some (1, Stall))
    by (vm_compute; reflexivity).
  split; [exact E|].
  destruct (pick_switch_sound example_core (millis 700) false 1 Stall example_core_ok E)
    as (u & fa & H1 & _ & _ & H4 & _ & _ & H7).
  rewrite example_last in H4. exists u, fa. split; [exact H1|]. split; [exact H4|].
  replace (millis 400) with (stall example_core); [exact H7|vm_compute; reflexivity].
Defined.

Lemma pick_switch_dead_complete_witness :
  exists id', pick_switch example_core (millis 300) true = Some (id', ActiveDead).
Proof.
  assert (Hv : verified <$> ups example_core !! 1 = Some 3) by (vm_compute; reflexivity).
  assert (Hl : (fun u => (chain_len u (last_forwarded example_core)).2) <$> ups example_core !! 1
    = Some (Some (millis 222))) by (vm_compute; reflexivity).
  destruct (ups example_core !! 1) as [u|] eqn:E; [|discriminate Hv].
  apply Some_inj in Hv. apply Some_inj in Hl.
  apply (pick_switch_dead_complete example_core (millis 300) 1 u (millis 222)).
  - rewrite example_last. lia.
  - exact E.
  - vm_compute. discriminate.
  - rewrite Hv. unfold MIN_VERIFIED. lia.
  - exact Hl.
Defined.

(** ** The comparison history of a standby *)

(** A standby's record after the comparisons [h], newest first: each is whether the standby's copy
    of the block matched the forwarded one, and the lead it had. *)
Fixpoint after (ip : string) (h : list (bool * Z)) : Upstream :=
  match h with
  | [] => Upstream_new ip
  | (m, l) :: h => (compared (after ip h) m l).2
  end.

(** Length of the initial run of comparisons with outcome [b]. *)
Fixpoint streak (b : bool) (h : list (bool * Z)) : nat :=
  match h with
  | (m, _) :: h => if Bool.eqb m b then S (streak b h) else 0
  | [] => 0
  end.

Lemma push_lead_rev u h ms :
  leads u = rev (take LEAD_WINDOW h) ->
  leads (push_lead u ms) = rev (take LEAD_WINDOW (ms :: h)).
Proof.
  unfold push_lead, LEAD_WINDOW. cbn [leads]. intros ->. rewrite List.length_rev, length_take.
  change (take 40 (ms :: h)) with (ms :: take 39 h). cbn [rev]. f_equal.
  destruct (Nat.eqb_spec (40 `min` length h) 40) as [E|E].
  - destruct (lookup_lt_is_Some_2 h 39) as [x Hx]; [lia|].
    rewrite (take_S_r h 39 x) by done. by rewrite List.rev_app_distr.
  - by rewrite !take_ge by lia.
Qed.

(** What a comparison history means. After any sequence of comparisons, the trust a standby has
    earned ([verified]) is the number of matches since its last mismatch, its strikes are the
    mismatches since its last match, the lead window holds exactly the leads of its newest
    [LEAD_WINDOW] matches, oldest first, and the next comparison condemns it exactly when that one
    and the two before it all disagree with the forwarded blocks. *)
Theorem compared_history (ip : string) (h : list (bool * Z)) (m : bool) (lead : Z) :
  verified (after ip h) = Z.of_nat (streak true h) /\
  mismatches (after ip h) = Z.of_nat (streak false h) /\
  leads (after ip h) = rev (take LEAD_WINDOW (snd <$> filter (fun e => e.1 = true) h)) /\
  ((compared (after ip h) m lead).1 = true <->
     m = false /\ exists l1 l2 h', h = (false, l1) :: (false, l2) :: h').
Proof.
  assert (H : verified (after ip h) = Z.of_nat (streak true h) /\
    mismatches (after ip h) = Z.of_nat (streak false h) /\
    leads (after ip h) = rev (take LEAD_WINDOW (snd <$> filter (fun e => e.1 = true) h))).
  { induction h as [|[[] l] h (IH1 & IH2 & IH3)]; [done|..];
      cbn [after compared streak Bool.eqb snd]; rewrite filter_cons; cbn [fst decide].
    - split_and!; [cbn; lia|done|]. by apply push_lead_rev.
    - split_and!; [done|cbn; lia|]. done. }
  destruct H as (H1 & H2 & H3). split_and!; try done.
  unfold compared, MAX_MISMATCHES. destruct m; cbn [fst].
  { split; [done|]. by intros [? _]. }
  rewrite Z.leb_le, H2. destruct h as [|[[] l1] [|[[] l2] h]]; cbn;
    (split; [intros ?; try lia; by eauto 8|intros (_ & ? & ? & ? & ?); simplify_eq; lia]).
Qed.
