(* ===== verification/Freshest.v ===== *)
(** Judging an upstream stream against the others: [FreshestRound], [FreshestFeed],
    [BlockProgress] and [StalledBehind] of [src/push/live.rs]. *)

From S2P Require Import Prelude Wire.

(** ** Constants *)

Definition MAX_ACTIVE_ROUND_JUMP : Z := 20000.
Definition ACTIVE_BLOCK_STALL : Z := seconds 30.
Definition PEER_LAG_ROUNDS : Z := 100.
Definition PEER_LAG_GRACE : Z := seconds 5.
Definition FRESHEST_STALE : Z := seconds 30.
Definition STALL_LAG_ROUNDS : Z := 45.
Definition STALL_LAG_GRACE : Z := seconds 3.
Definition STALL_LAG_WIDEN : Z := 30.
Definition FRESHEST_TIP_SLACK : Z := MAX_ACTIVE_ROUND_JUMP.

(** ** The freshest round *)

(** Per feeding stream: its upstream peer, its highest round and when that last rose. The network
    tip is a shared atomic, read at each operation. *)
Record FreshestRound := mkFresh {
  streams : gmap Z (string * Z * Z);
  next_id : Z;
  lag_rounds : Z;
  grace : Z;
  stale : Z
}.

Definition FreshestRound_new (lag gr st : Z) : FreshestRound := mkFresh ∅ 0 lag gr st.

Definition set_streams (f : FreshestRound) (m : gmap Z (string * Z * Z)) : FreshestRound :=
  mkFresh m (next_id f) (lag_rounds f) (grace f) (stale f).

(** A stream's handle: its id, its upstream and its own highest round offered. *)
Record FreshestFeed := mkFeed { f_id : Z; f_peer : string; f_own : Z }.

Definition feed (f : FreshestRound) (peer : string) : FreshestFeed * FreshestRound :=
  (mkFeed (next_id f) peer 0,
   mkFresh (streams f) ((next_id f + 1) mod 2 ^ 64) (lag_rounds f) (grace f) (stale f)).

Definition fresh_offer (f : FreshestRound) (tip id : Z) (peer : string) (round now : Z)
    : FreshestRound :=
  if (tip =? 0) || (sat_add32 tip FRESHEST_TIP_SLACK <? round) then f
  else
    let m := filter (fun e => since now e.2.2 <= stale f) (streams f) in
    let '(p, r, at_) := default (peer, round, now) (m !! id) in
    set_streams f (<[id := if r <? round then (p, round, now) else (p, r, at_)]> m).

Definition feed_offer (f : FreshestRound) (h : FreshestFeed) (tip round now : Z)
    : FreshestFeed * FreshestRound :=
  (mkFeed (f_id h) (f_peer h) (Z.max (f_own h) round),
   fresh_offer f tip (f_id h) (f_peer h) round now).

(** [Drop for FreshestFeed]. *)
Definition feed_drop (f : FreshestRound) (h : FreshestFeed) : FreshestRound :=
  set_streams f (delete (f_id h) (streams f)).

Section Ordered.
Context `{HashOrder}.

(** The loop of [get_within]: the best counted round per peer. *)
Definition count_entry (ceiling max_age now : Z) (e : Z * (string * Z * Z)) (per_peer : gmap string Z)
    : gmap string Z :=
  let '(_, (peer, round, at_)) := e in
  if (since now at_ <=? max_age) && (round <=? ceiling)
  then <[peer := Z.max (default 0 (per_peer !! peer)) round]> per_peer
  else per_peer.

Definition get_within (f : FreshestRound) (tip max_age now : Z) : option Z :=
  if tip =? 0 then None
  else
    let ceiling := sat_add32 tip FRESHEST_TIP_SLACK in
    let per_peer := foldr (count_entry ceiling max_age now) ∅ (iter_order (streams f)) in
    merge_sort Z.ge (map_to_list per_peer).*2 !! 1%nat.

Definition fresh_get (f : FreshestRound) (tip now : Z) : option Z := get_within f tip (stale f) now.

Definition select_floor (f : FreshestRound) (tip now : Z) : Z :=
  match get_within f tip (sat_sub (stale f) (grace f)) now with
  | Some r => sat_sub r (lag_rounds f)
  | None => 0
  end.
End Ordered.

(** ** Progress of the active stream *)

Record BlockProgress := mkProgress { last_round : Z; bp_at : Z; lag_since : option Z }.

Definition BlockProgress_new (last now : Z) : BlockProgress := mkProgress last now None.

(** [None] is the error: a jump of more than [MAX_ACTIVE_ROUND_JUMP]. *)
Definition on_round (p : BlockProgress) (rnd now : Z) : option BlockProgress :=
  if negb (last_round p =? 0) && (sat_add32 (last_round p) MAX_ACTIVE_ROUND_JUMP <? rnd)
  then None
  else if last_round p <? rnd then Some (mkProgress rnd now (lag_since p)) else Some p.

(** [lagging]; [freshest] is the reference's current value. *)
Definition lagging (p : BlockProgress) (freshest : option Z) (lag_rounds grace : Z)
    (node_backed_up : bool) (now : Z) : option Z * BlockProgress :=
  let behind := match freshest with Some f => sat_sub f (last_round p) | None => 0 end in
  if (last_round p =? 0) || node_backed_up || (behind <=? lag_rounds)
  then (None, mkProgress (last_round p) (bp_at p) None)
  else
    let t := default now (lag_since p) in
    (if grace <=? since now t then Some behind else None,
     mkProgress (last_round p) (bp_at p) (Some t)).

Definition hold (p : BlockProgress) (now : Z) : BlockProgress :=
  mkProgress (last_round p) now (lag_since p).

Definition stalled (p : BlockProgress) (now : Z) : bool :=
  negb (last_round p =? 0) && (ACTIVE_BLOCK_STALL <? since now (bp_at p)).

(** ** A stream that stops while the others advance *)

Record StalledBehind := mkStalled {
  sb_rounds : Z; sb_grace : Z; sb_widen : Z; sb_since : option (Z * Z)
}.

Definition StalledBehind_new (rounds gr widen : Z) : StalledBehind := mkStalled rounds gr widen None.

Definition check (s : StalledBehind) (own_round : Z) (freshest : option Z) (node_backed_up : bool)
    (now : Z) : option Z * StalledBehind :=
  let behind := match freshest with Some f => sat_sub f own_round | None => 0 end in
  if (own_round =? 0) || node_backed_up || (behind <? sb_rounds s)
  then (None, mkStalled (sb_rounds s) (sb_grace s) (sb_widen s) None)
  else
    let '(at_, start) := default (now, behind) (sb_since s) in
    (if (sb_grace s <=? since now at_) && (sat_add32 start (sb_widen s) <=? behind)
     then Some behind else None,
     mkStalled (sb_rounds s) (sb_grace s) (sb_widen s) (Some (at_, start))).

(** ** Lemmas: the second best of a map of values *)

#[global] Instance Zge_total : Total Z.ge.
Proof. intros x y. lia. Qed.
#[global] Instance Zge_trans : Transitive Z.ge.
Proof. intros x y z. lia. Qed.

(** [r] is reached by at least two keys. *)
Definition two_reach {K} `{Countable K} (m : gmap K Z) (r : Z) : Prop :=
  exists p q a b, p <> q /\ m !! p = Some a /\ m !! q = Some b /\ r <= a /\ r <= b.

Lemma second_value_spec {K} `{Countable K} (m : gmap K Z) (o : option Z) :
  merge_sort Z.ge (map_to_list m).*2 !! 1%nat = o ->
  match o with
  | Some r => two_reach m r /\ (forall r', two_reach m r' -> r' <= r)
  | None => forall r, ~ two_reach m r
  end.
Proof.
  pose proof (merge_sort_Permutation Z.ge (map_to_list m).*2) as Hp.
  pose proof (StronglySorted_merge_sort Z.ge (map_to_list m).*2) as Hs.
  destruct (Permutation_map_inv snd _ Hp) as (l & El & Hl).
  assert (Hin : forall p a, m !! p = Some a <-> (p, a) ∈ l)
    by (intros p a; rewrite <- Hl, elem_of_map_to_list; done).
  assert (Hnd : NoDup l.*1) by (rewrite <- Hl; apply NoDup_fst_map_to_list).
  rewrite El in Hs |- *. clear El Hp Hl. intros <-. unfold two_reach.
  destruct l as [|[p1 a1] [|[p2 a2] l]]; cbn in *; setoid_rewrite Hin.
  - intros r (p & q & a & b & _ & Hx & _). by apply elem_of_nil in Hx.
  - intros r (p & q & a & b & Hne & Hx%list_elem_of_singleton & Hy%list_elem_of_singleton & _).
    congruence.
  - inversion Hs as [|? ? Hs' Hall]; subst. inversion Hs' as [|? ? _ Hall']; subst.
    inversion Hnd as [|? ? Hn1 Hnd']; subst.
    rewrite List.Forall_forall in Hall, Hall'. split.
    + exists p1, p2, a1, a2. split_and!; [set_solver|set_solver|set_solver| |lia].
      specialize (Hall a2 ltac:(by left)). lia.
    + assert (Hle : forall p a, (p, a) ∈ (p1, a1) :: (p2, a2) :: l -> p <> p1 -> a <= a2).
      { intros p a Hx Hne. apply elem_of_cons in Hx as [?|Hx]; [congruence|].
        apply elem_of_cons in Hx as [?|Hx]; [simplify_eq; lia|].
        assert (a2 >= a); [|lia]. apply Hall', in_map_iff. exists (p, a).
        split; [done|by apply list_elem_of_In]. }
      intros r' (p & q & a & b & Hne & Hx & Hy & Hra & Hrb).
      destruct (decide (p = p1)) as [-> |Hp]; [|specialize (Hle p a Hx Hp); lia].
      specialize (Hle q b Hy ltac:(congruence)). lia.
Qed.

(** ** The freshest round is corroborated *)

Section Corroborated.
Context `{HashOrder}.

(** A stream of [peer] counted in [get_within] that has reached [r]. *)
Definition reached (f : FreshestRound) (tip max_age now : Z) (peer : string) (r : Z) : Prop :=
  exists id round at_, streams f !! id = Some (peer, round, at_) /\ since now at_ <= max_age /\
    round <= sat_add32 tip FRESHEST_TIP_SLACK /\ r <= round.

Lemma count_entries_spec ceiling max_age now l peer m :
  foldr (count_entry ceiling max_age now) ∅ l !! peer = Some m ->
  0 <= m /\ (m = 0 \/ exists id at_, (id, (peer, m, at_)) ∈ l /\ since now at_ <= max_age /\ m <= ceiling) /\
  exists id round at_, (id, (peer, round, at_)) ∈ l /\ since now at_ <= max_age /\ round <= ceiling.
Proof.
  revert m. induction l as [|[id [[p r] at_]] l IH]; intros m; cbn [foldr]; [done|].
  set (acc := foldr _ _ l) in *. unfold count_entry at 1.
  destruct ((since now at_ <=? max_age) && (r <=? ceiling)) eqn:E; zify_bool.
  - rewrite lookup_insert_Some. intros [[-> <-]|[Hne Hm]].
    + assert (0 <= default 0 (acc !! peer))
        by (destruct (acc !! peer) as [m0|]; cbn; [apply (IH m0 eq_refl)|lia]).
      setoid_rewrite elem_of_cons. split_and!; [lia| |eauto 8].
      destruct (acc !! peer) as [m0|]; cbn.
      * destruct (IH m0 eq_refl) as (_ & Hor & _). destruct (Z.max_spec m0 r) as [[? ->]|[? ->]]; [eauto 10|].
        destruct Hor as [?|(id' & at' & ? & ?)]; [by left|]. right. eauto 10.
      * destruct (Z.max_spec 0 r) as [[? ->]|[? ->]]; [eauto 10|by left].
    + apply IH in Hm as (Hm0 & Hor & (id' & r' & at' & Hx)). setoid_rewrite elem_of_cons.
      split_and!; [done| |exists id', r', at'; by destruct_and!; auto].
      destruct Hor as [?|(id2 & at2 & Hy)]; [by left|]. right. exists id2, at2. by destruct_and!; auto.
  - intros Hm. apply IH in Hm as (Hm0 & Hor & (id' & r' & at' & Hx)). setoid_rewrite elem_of_cons.
    split_and!; [done| |exists id', r', at'; by destruct_and!; auto].
      destruct Hor as [?|(id2 & at2 & Hy)]; [by left|]. right. exists id2, at2. by destruct_and!; auto.
Qed.

Lemma count_entries_ge ceiling max_age now l id peer r at_ :
  (id, (peer, r, at_)) ∈ l -> since now at_ <= max_age -> r <= ceiling ->
  exists m, foldr (count_entry ceiling max_age now) ∅ l !! peer = Some m /\ r <= m.
Proof.
  induction l as [|[id' [[p r'] at']] l IH]; intros Hin Ha Hr; [by apply elem_of_nil in Hin|].
  cbn [foldr]. set (acc := foldr _ _ l) in *. unfold count_entry at 1.
  apply elem_of_cons in Hin as [[= -> -> -> ->]|Hin].
  - rewrite (proj2 (Z.leb_le _ _)), (proj2 (Z.leb_le _ _)) by done. cbn.
    rewrite lookup_insert_eq. eexists. split; [done|]. lia.
  - destruct (IH Hin Ha Hr) as (m & Hm & Hle). destruct (_ && _); [|eauto].
    destruct (decide (p = peer)) as [-> |].
    + rewrite lookup_insert_eq. eexists. split; [done|]. rewrite Hm. cbn. lia.
    + rewrite lookup_insert_ne by done. eauto.
Qed.

Definition rounds_ok (f : FreshestRound) : Prop :=
  map_Forall (fun _ e => 0 <= e.1.2) (streams f).

Lemma two_reach_iff f tip max_age now r :
  rounds_ok f -> 0 <= r ->
  two_reach (foldr (count_entry (sat_add32 tip FRESHEST_TIP_SLACK) max_age now) ∅
    (iter_order (streams f))) r <->
  exists p q, p <> q /\ reached f tip max_age now p r /\ reached f tip max_age now q r.
Proof.
  intros Hok Hr. set (m := foldr _ _ _).
  assert (Hkey : forall p, (exists a, m !! p = Some a /\ r <= a) <-> reached f tip max_age now p r).
  { intros p. split.
    - intros (a & Ha & Hle). destruct (count_entries_spec _ _ _ _ _ _ Ha) as (_ & Hor & Hex).
      setoid_rewrite elem_of_iter_order in Hor. setoid_rewrite elem_of_iter_order in Hex.
      destruct Hor as [-> |(id & at_ & Hid & ? & ?)].
      + destruct Hex as (id & rd & at_ & Hid & ? & ?). exists id, rd, at_.
        pose proof (Hok _ _ Hid) as Hrd. cbn in Hrd. split_and!; try done. lia.
      + by exists id, a, at_.
    - intros (id & rd & at_ & Hid & Ha & Hc & Hle). apply elem_of_iter_order in Hid.
      destruct (count_entries_ge _ _ _ _ _ _ _ _ Hid Ha Hc) as (x & Hx & ?). exists x.
      split; [done|lia]. }
  unfold two_reach. setoid_rewrite <- Hkey. naive_solver.
Qed.

(** The freshest round needs two peers. [get_within] (hence [get] and [select_floor]) is the
    highest round that current streams of at least two different peers have reached, none beyond
    the slack above the network tip; it is unknown exactly when no two peers have a counted stream
    (or the tip is unknown). So for any one peer, however many streams it feeds and whatever rounds
    it sends, some other peer has reached the value: no single peer can raise it. *)
Theorem freshest_needs_two_peers (f : FreshestRound) (tip max_age now : Z) :
  rounds_ok f -> tip <> 0 ->
  match get_within f tip max_age now with
  | Some r =>
      (exists p q, p <> q /\ reached f tip max_age now p r /\ reached f tip max_age now q r) /\
      (forall r', 0 <= r' -> (exists p q, p <> q /\ reached f tip max_age now p r' /\
         reached f tip max_age now q r') -> r' <= r) /\
      (forall bad, exists honest, honest <> bad /\ reached f tip max_age now honest r)
  | None => ~ exists p q, p <> q /\ reached f tip max_age now p 0 /\ reached f tip max_age now q 0
  end.
Proof.
  intros Hok Ht. unfold get_within. rewrite (proj2 (Z.eqb_neq _ _) Ht).
  destruct (merge_sort _ _ !! 1%nat) as [r|] eqn:E; apply second_value_spec in E.
  - destruct E as [Htwo Hmax].
    assert (Hr : 0 <= r).
    { destruct Htwo as (p & q & a & b & Hne & Ha & Hb & _).
      apply (Hmax 0). exists p, q, a, b. split_and!; try done.
      + by apply count_entries_spec in Ha as [? _].
      + by apply count_entries_spec in Hb as [? _]. }
    pose proof Htwo as Htwo'. rewrite two_reach_iff in Htwo by done.
    split_and!; [done| |].
    + intros r' Hr' Hx. apply Hmax. by apply two_reach_iff.
    + intros bad. destruct Htwo as (p & q & Hne & Hp & Hq).
      destruct (decide (p = bad)) as [-> |]; [|by exists p]. exists q. split; [congruence|done].
  - rewrite <- two_reach_iff by done. apply E.
Qed.
End Corroborated.

Definition example_fresh : FreshestRound :=
  let f := FreshestRound_new PEER_LAG_ROUNDS PEER_LAG_GRACE FRESHEST_STALE in
  let f := fresh_offer f 2000000000 0 "a" 2000000100 0 in
  let f := fresh_offer f 2000000000 1 "b" 2000000050 0 in
  fresh_offer f 2000000000 2 "b" 2000009999 0.

Lemma freshest_needs_two_peers_witness :
  get_within example_fresh 2000000000 FRESHEST_STALE 0 = Some 2000000100 /\
  exists honest, honest <> "b"%string /\
    reached example_fresh 2000000000 FRESHEST_STALE 0 honest 2000000100.
Proof.
  assert (E : get_within example_fresh 2000000000 FRESHEST_STALE 0 = Some 2000000100)
    by (vm_compute; reflexivity).
  split; [exact E|].
  assert (Hok : rounds_ok example_fresh) by (apply (bool_decide_unpack _); vm_compute; exact I).
  pose proof (freshest_needs_two_peers example_fresh 2000000000 FRESHEST_STALE 0 Hok
    ltac:(lia)) as H.
  rewrite E in H. destruct H as (_ & _ & H). exact (H "b"%string).
Defined.

(** ** Lag timers measure a whole run *)

(** The [get_or_insert] timers of [lagging] and [check]: the mark is set by the first observation of
    a run of qualifying ones and cleared by any other. *)
Definition timer_step {X} (st : option X) (e : bool * X) : option X :=
  if e.1 then Some (default e.2 st) else None.

(** Reference: the oldest observation of the trailing run of qualifying ones. *)
Fixpoint run_start {X} (newest_first : list (bool * X)) : option X :=
  match newest_first with
  | (true, x) :: l => Some (default x (run_start l))
  | _ => None
  end.

Lemma timer_history {X} (h : list (bool * X)) : foldl timer_step None h = run_start (rev h).
Proof.
  induction h as [|[q x] h IH] using rev_ind; [done|].
  rewrite foldl_app, List.rev_app_distr. cbn. rewrite IH. unfold timer_step. cbn. by destruct q.
Qed.

(** One observation of a stream: its own round, the reference, whether the node is backed up. *)
Record obs := mkObs { o_own : Z; o_fresh : option Z; o_backed : bool; o_now : Z }.

Definition behind (o : obs) : Z :=
  match o_fresh o with Some f => sat_sub f (o_own o) | None => 0 end.

Definition is_behind (rounds : Z) (o : obs) : bool :=
  negb (o_own o =? 0) && negb (o_backed o) && (rounds <=? behind o).

Definition check_obs (s : StalledBehind) (o : obs) : option Z * StalledBehind :=
  check s (o_own o) (o_fresh o) (o_backed o) (o_now o).

Definition lagging_obs (lag gr : Z) (st : option Z) (o : obs) : option Z * option Z :=
  let '(r, p) := lagging (mkProgress (o_own o) 0 st) (o_fresh o) lag gr (o_backed o) (o_now o) in
  (r, lag_since p).

Lemma check_obs_timer s o :
  (check_obs s o).2 = mkStalled (sb_rounds s) (sb_grace s) (sb_widen s)
    (timer_step (sb_since s) (is_behind (sb_rounds s) o, (o_now o, behind o))).
Proof.
  unfold check_obs, check, timer_step, is_behind. fold (behind o).
  rewrite (Z.leb_antisym _ (sb_rounds s)).
  destruct (o_own o =? 0), (o_backed o), (behind o <? sb_rounds s); cbn; try done.
  by destruct (sb_since s) as [[a b]|].
Qed.

Lemma checks_timer s h :
  foldl (fun s o => (check_obs s o).2) s h =
  mkStalled (sb_rounds s) (sb_grace s) (sb_widen s)
    (foldl timer_step (sb_since s)
       ((fun o => (is_behind (sb_rounds s) o, (o_now o, behind o))) <$> h)).
Proof.
  revert s. induction h as [|o h IH]; intros s; cbn; [by destruct s|].
  by rewrite IH, check_obs_timer.
Qed.

Lemma lagging_obs_timer lag gr st o :
  (lagging_obs lag gr st o).2 = timer_step st (is_behind (lag + 1) o, o_now o).
Proof.
  unfold lagging_obs, lagging, timer_step, is_behind. cbn [last_round lag_since]. fold (behind o).
  replace (lag + 1 <=? behind o) with (negb (behind o <=? lag))
    by (destruct (Z.leb_spec (behind o) lag), (Z.leb_spec (lag + 1) (behind o)); cbn; lia).
  by destruct (o_own o =? 0), (o_backed o), (behind o <=? lag).
Qed.

Lemma laggings_timer lag gr st h :
  foldl (fun st o => (lagging_obs lag gr st o).2) st h =
  foldl timer_step st ((fun o => (is_behind (lag + 1) o, o_now o)) <$> h).
Proof.
  revert st. induction h as [|o h IH]; intros st; cbn; [done|]. by rewrite IH, lagging_obs_timer.
Qed.

(** A stream is cut only for a sustained lag, and as soon as one is. After any history of
    checks, [StalledBehind::check] fires exactly when the stream has been [rounds] behind at every
    check of a run that started at least [grace] ago and has fallen [widen] further behind since its
    start; [BlockProgress::lagging] fires exactly when it was more than [lag] behind at every check
    of such a run. One check in which it catches up, the reference is unknown, or the node is not
    draining its queue restarts the run. *)
Theorem lag_timers_measure_whole_run (rounds gr widen lag : Z) (h : list obs) (o : obs) :
  let hist := rev (h ++ [o]) in
  (check_obs (foldl (fun s o => (check_obs s o).2) (StalledBehind_new rounds gr widen) h) o).1 =
    match run_start ((fun o => (is_behind rounds o, (o_now o, behind o))) <$> hist) with
    | Some (t, start) =>
        if (gr <=? since (o_now o) t) && (sat_add32 start widen <=? behind o)
        then Some (behind o) else None
    | None => None
    end /\
  (lagging_obs lag gr (foldl (fun st o => (lagging_obs lag gr st o).2) None h) o).1 =
    match run_start ((fun o => (is_behind (lag + 1) o, o_now o)) <$> hist) with
    | Some t => if gr <=? since (o_now o) t then Some (behind o) else None
    | None => None
    end.
Proof.
  cbn zeta. rewrite List.rev_app_distr. cbn [rev app]. rewrite !fmap_cons. split.
  - rewrite checks_timer. cbn [sb_rounds sb_grace sb_widen sb_since StalledBehind_new].
    rewrite timer_history, <- List.map_rev. cbn [run_start].
    set (st := run_start _). unfold check_obs, check, is_behind. fold (behind o).
    cbn [sb_rounds sb_grace sb_widen sb_since]. rewrite (Z.leb_antisym _ rounds).
    destruct (o_own o =? 0), (o_backed o), (behind o <? rounds); cbn; try done.
    change (run_start _) with st. by destruct st as [[t0 b0]|].
  - rewrite laggings_timer, timer_history, <- List.map_rev. cbn [run_start].
    set (st := run_start _). unfold lagging_obs, lagging, is_behind.
    cbn [last_round lag_since]. fold (behind o).
    replace (lag + 1 <=? behind o) with (negb (behind o <=? lag))
      by (destruct (Z.leb_spec (behind o) lag), (Z.leb_spec (lag + 1) (behind o)); cbn; lia).
    by destruct (o_own o =? 0), (o_backed o), (behind o <=? lag).
Qed.
