(* ===== verification/PushSession.v ===== *)
(** A push session: one active upstream stream feeding one node, [src/push/live.rs].

    [pump_merge] and [process_live_frame] gate the stream; [NodeQueue] bounds what is queued for the
    node; [serve_push]'s select loop decides when the session ends, and the exit reason decides who
    is blamed. One frame is processed in one step: the shared atomics (network tip, floor, other
    streams' rounds) are inputs of each step, so they may change arbitrarily in between. *)

From S2P Require Import Prelude Text Blacklist Wire Freshest.

(** ** Data *)

Definition PUSH_MERGE_QUEUE_FRAMES : Z := 256.
Definition NODE_WRITE_TIMEOUT : Z := seconds 30.
Definition PUSH_GREETING_WAIT : Z := seconds 4.
Definition NODE_QUEUE_BYTES : Z := Z.shiftl 64 20.
Definition NODE_BACKLOG_EXEMPT_FRAMES : Z := 32.
Definition NODE_BACKLOG_EXEMPT_BYTES : Z := Z.shiftl 8 20.
Definition IDLE : Z := seconds 10.

Inductive FrameKindSeen := Control | Block | DataNoRound.

#[global] Instance FrameKindSeen_eq_dec : EqDecision FrameKindSeen.
Proof. solve_decision. Defined.

Record PushStats := mkStats {
  control_fwd : Z; blocks_fwd : Z; data_noround_fwd : Z; bytes_fwd : Z;
  drop_floor : Z; drop_gate : Z; drop_samples : Z
}.

Definition PushStats_default : PushStats := mkStats 0 0 0 0 0 0 0.

Definition stat_forwarded (s : PushStats) (frame : bytes) (kind : FrameKindSeen) : PushStats :=
  let n := Z.of_nat (length frame) in
  match kind with
  | Control => mkStats (control_fwd s + 1) (blocks_fwd s) (data_noround_fwd s) (bytes_fwd s + n)
                 (drop_floor s) (drop_gate s) (drop_samples s)
  | Block => mkStats (control_fwd s) (blocks_fwd s + 1) (data_noround_fwd s) (bytes_fwd s + n)
               (drop_floor s) (drop_gate s) (drop_samples s)
  | DataNoRound => mkStats (control_fwd s) (blocks_fwd s) (data_noround_fwd s + 1)
                     (bytes_fwd s + n) (drop_floor s) (drop_gate s) (drop_samples s)
  end.

Definition stat_dropped (s : PushStats) (floor : bool) : PushStats :=
  mkStats (control_fwd s) (blocks_fwd s) (data_noround_fwd s) (bytes_fwd s)
    (if floor then drop_floor s + 1 else drop_floor s)
    (if floor then drop_gate s else drop_gate s + 1) (drop_samples s + 1).

Definition no_block_rounds_alarm (blocks noround : Z) : string :=
  if (blocks =? 0) && (100 <=? noround)
  then " ALERT=no_block_rounds_decoded(wire format change?)" else "".

Definition summary (s : PushStats) : string :=
  "ctl=" +:+ show (control_fwd s) +:+ " blocks=" +:+ show (blocks_fwd s) +:+
  " data_noround=" +:+ show (data_noround_fwd s) +:+ " bytes=" +:+ show (bytes_fwd s) +:+
  " drop_floor=" +:+ show (drop_floor s) +:+ " drop_dup=" +:+ show (drop_gate s) +:+
  no_block_rounds_alarm (blocks_fwd s) (data_noround_fwd s).

(** ** The gates *)

(** Errors that end the active stream. *)
Inductive PumpError :=
| Implausible (rnd : Z)
| RoundJump (rnd prev : Z)
| LagsFreshest (behind : Z)
| LaggedTip (rnd net_tip lag : Z)
| NoBlockProgress (last : Z)
| IdleTimeout
| IdleTimeoutPayload
| OversizedFrame
| ReadError
| ShortPrefetched
| MisSizedPrefetched.

Inductive Verdict := Cut (e : PumpError) | Dropped | Forwarded (kind : FrameKindSeen).

Record PushState := mkPush {
  gate : RoundForwardGate;
  active_round : Z;
  progress : BlockProgress;
  stats : PushStats;
  own_feed : option FreshestFeed
}.

Definition PushState_new (initial_last now : Z) (h : option FreshestFeed) : PushState :=
  mkPush (with_last_forwarded 16384 initial_last) initial_last (BlockProgress_new initial_last now)
    PushStats_default h.

Section Gates.
Context `{HashOrder} (lz4_decompress : bytes -> option bytes).

(** The tail of both gates, from the node floor on: floor, then the forward gate. *)
Definition floor_and_gate (st : PushState) (frame : bytes) (rnd floor : Z) : Verdict * PushState :=
  if rnd <=? floor then
    (Dropped, mkPush (gate st) (active_round st) (progress st) (stat_dropped (stats st) true)
                (own_feed st))
  else
    let '(ok, g) := should_forward (gate st) rnd true in
    if ok then
      (Forwarded Block, mkPush g (active_round st) (progress st)
         (stat_forwarded (stats st) frame Block) (own_feed st))
    else
      (Dropped, mkPush g (active_round st) (progress st) (stat_dropped (stats st) false)
         (own_feed st)).

Definition pass (st : PushState) (frame : bytes) (kind : FrameKindSeen) : Verdict * PushState :=
  (Forwarded kind, mkPush (gate st) (active_round st) (progress st)
     (stat_forwarded (stats st) frame kind) (own_feed st)).

(** Offering a round to the shared reference, if the session has a feed. *)
Definition offer_round (st : PushState) (fr : FreshestRound) (tip rnd now : Z)
    : option FreshestFeed * FreshestRound :=
  match own_feed st with
  | Some h => let '(h, fr) := feed_offer fr h tip rnd now in (Some h, fr)
  | None => (None, fr)
  end.

(** One frame of the live stream ([pump_merge], after the frame was read). *)
Definition pump_frame (st : PushState) (fr : FreshestRound) (frame : bytes) (tip floor : Z)
    (backed_up : bool) (now : Z) : Verdict * PushState * FreshestRound :=
  if negb (byte_at frame 4 =? 1) then (pass st frame Control, fr)
  else
    match block_round lz4_decompress (drop 5 frame) with
    | None => (pass st frame DataNoRound, fr)
    | Some rnd =>
        if negb (is_plausible_mainnet_round rnd tip) then ((Cut (Implausible rnd), st), fr)
        else
          match on_round (progress st) rnd now with
          | None => ((Cut (RoundJump rnd (last_round (progress st))), st), fr)
          | Some p =>
              let '(h, fr) := offer_round st fr tip rnd now in
              let '(cut, p) :=
                match h with
                | Some _ => lagging p (fresh_get fr tip now) (lag_rounds fr) (grace fr) backed_up now
                | None => (None, p)
                end in
              let st := mkPush (gate st) (Z.max (active_round st) rnd) p (stats st) h in
              match cut with
              | Some behind => ((Cut (LagsFreshest behind), st), fr)
              | None =>
                  match round_lag_from_tip rnd tip ACTIVE_ROUND_MAX_LAG with
                  | Some lag => ((Cut (LaggedTip rnd tip lag), st), fr)
                  | None => (floor_and_gate st frame rnd floor, fr)
                  end
              end
          end
    end.

(** One frame the active peer sent during selection. *)
Definition process_live_frame (st : PushState) (fr : FreshestRound) (frame : bytes) (tip floor now : Z)
    : Verdict * PushState * FreshestRound :=
  if (length frame <? 5)%nat then ((Cut ShortPrefetched, st), fr)
  else if negb (frame_len frame =? sat_sub (Z.of_nat (length frame)) 5)
  then ((Cut MisSizedPrefetched, st), fr)
  else if negb (byte_at frame 4 =? 1) then (pass st frame Control, fr)
  else
    match block_round lz4_decompress (drop 5 frame) with
    | None => (pass st frame DataNoRound, fr)
    | Some rnd =>
        if negb (is_plausible_mainnet_round rnd tip) then ((Cut (Implausible rnd), st), fr)
        else
          let prev := active_round st in
          if negb (prev =? 0) && (sat_add32 prev MAX_ACTIVE_ROUND_JUMP <? rnd)
          then ((Cut (RoundJump rnd prev), st), fr)
          else
            let '(h, fr) := offer_round st fr tip rnd now in
            let st := mkPush (gate st) (Z.max prev rnd) (progress st) (stats st) h in
            match round_lag_from_tip rnd tip ACTIVE_ROUND_MAX_LAG with
            | Some lag => ((Cut (LaggedTip rnd tip lag), st), fr)
            | None => (floor_and_gate st frame rnd floor, fr)
            end
    end.

(** What the socket delivers in one iteration of [pump_merge]: a header and, if its length is
    acceptable, the payload. *)
Inductive payload_read := PayloadTimeout | PayloadError | Payload (b : bytes).
Inductive stream_read := HeaderTimeout | HeaderError | Header (len typ : Z) (p : payload_read).

(** The inputs of one iteration. *)
Record tick := mkTick {
  t_read : stream_read; t_tip : Z; t_floor : Z; t_backed : bool; t_now : Z; t_fresh : FreshestRound
}.

Definition make_frame (len typ : Z) (payload : bytes) : bytes := to_be 4 len ++ typ :: payload.

Definition pump_step (st : PushState) (t : tick) : Verdict * PushState * option bytes :=
  let p := if t_backed t then hold (progress st) (t_now t) else progress st in
  let st := mkPush (gate st) (active_round st) p (stats st) (own_feed st) in
  if stalled p (t_now t) then ((Cut (NoBlockProgress (last_round p)), st), None)
  else
    match t_read t with
    | HeaderTimeout => ((Cut IdleTimeout, st), None)
    | HeaderError => ((Cut ReadError, st), None)
    | Header len typ pr =>
        if MAX_LIVE_FRAME <? len then ((Cut OversizedFrame, st), None)
        else
          match pr with
          | PayloadTimeout => ((Cut IdleTimeoutPayload, st), None)
          | PayloadError => ((Cut ReadError, st), None)
          | Payload b =>
              let frame := make_frame len typ b in
              let '(v, st, _) :=
                pump_frame st (t_fresh t) frame (t_tip t) (t_floor t) (t_backed t) (t_now t) in
              ((v, st), Some frame)
          end
    end.

(** The loop: the frames queued for the node, each with its kind and its iteration, and the error
    that ended the stream ([None] while it runs). *)
Fixpoint pump_merge (st : PushState) (ts : list tick)
    : list (FrameKindSeen * bytes * tick) * option PumpError :=
  match ts with
  | [] => ([], None)
  | t :: ts =>
      let '(v, st, f) := pump_step st t in
      match v with
      | Cut e => ([], Some e)
      | Dropped => pump_merge st ts
      | Forwarded k =>
          let '(out, e) := pump_merge st ts in
          ((k, default [] f, t) :: out, e)
      end
  end.
End Gates.

(** ** The queue toward the node *)

(** A sender first takes the frame's permits from the byte budget, then waits for one of [q_cap]
    slots; the writer frees the slot when it takes a frame and the permits once it has written it. *)
Record NodeQueue := mkQueue {
  q_cap : Z;
  q_waiting : list (bytes * Z);
  q_frames : list (bytes * Z);
  q_writing : list (bytes * Z);
  q_avail : Z
}.

Definition NodeQueue_new (frames : Z) : NodeQueue := mkQueue frames [] [] [] NODE_QUEUE_BYTES.

Definition permits (frame : bytes) : Z :=
  Z.max 1 (Z.min NODE_QUEUE_BYTES (Z.of_nat (length frame))).

(** [queue_frame]'s two waits; [None] while it has to wait. *)
Definition q_acquire (q : NodeQueue) (frame : bytes) : option NodeQueue :=
  let n := permits frame in
  if n <=? q_avail q
  then Some (mkQueue (q_cap q) (q_waiting q ++ [(frame, n)]) (q_frames q) (q_writing q)
               (q_avail q - n))
  else None.

Definition q_push (q : NodeQueue) : option NodeQueue :=
  match q_waiting q with
  | x :: rest =>
      if Z.of_nat (length (q_frames q)) <? q_cap q
      then Some (mkQueue (q_cap q) rest (q_frames q ++ [x]) (q_writing q) (q_avail q))
      else None
  | [] => None
  end.

(** The writer's [rx.recv()], and the end of its [write_all]. *)
Definition q_recv (q : NodeQueue) : option NodeQueue :=
  match q_writing q, q_frames q with
  | [], x :: rest => Some (mkQueue (q_cap q) (q_waiting q) rest [x] (q_avail q))
  | _, _ => None
  end.

Definition q_written (q : NodeQueue) : option (bytes * NodeQueue) :=
  match q_writing q with
  | (frame, n) :: _ =>
      Some (frame, mkQueue (q_cap q) (q_waiting q) (q_frames q) [] (q_avail q + n))
  | [] => None
  end.

Definition backlog (q : NodeQueue) : Z := Z.of_nat (length (q_frames q)).

Definition backed_up (q : NodeQueue) : bool :=
  (NODE_BACKLOG_EXEMPT_FRAMES <? backlog q) ||
  (NODE_BACKLOG_EXEMPT_BYTES <? NODE_QUEUE_BYTES - q_avail q).

(** ** How a session ends *)

Definition starts_with (prefix s : string) : bool := String.prefix prefix s.

Definition RETURNING_TO_PRIORITY : string := "returning to a priority peer".
Definition NODE_CATCHUP_STUCK : string := "node catch-up not converging".

Definition push_exit_is_upstream_fault (reason : string) : bool :=
  negb (starts_with "node outbound ended" reason
    || starts_with "node outbound read failed" reason
    || starts_with "node outbound task join error" reason
    || starts_with "active task join error" reason
    || starts_with "active lag logger" reason
    || starts_with "event channel closed" reason
    || starts_with "node write" reason
    || starts_with "node greeting write" reason
    || starts_with "active superseded" reason
    || starts_with RETURNING_TO_PRIORITY reason
    || starts_with NODE_CATCHUP_STUCK reason).

Inductive write_result := WriteOk | WriteError (e : string) | WriteTimeout.
Inductive up_result := NodeLeft | UpWriteError (e : string) | UpWriteTimeout | UpJoinError (e : string).
Inductive active_result := StreamEnded | StreamError (e : string) | ActiveJoinError (e : string).
Inductive log_result := LoggerEnded | LoggerJoinError (e : string).

(** The branches of [serve_push]'s select loop. *)
Inductive push_event :=
| EvSuperseded
| EvBlacklisted
| EvEndWhen (reason : string)
| EvStallTick (o : obs)
| EvNodeWrite (r : write_result)
| EvUp (r : up_result)
| EvActive (r : active_result)
| EvLagLog (r : log_result).

Definition active_exit_reason (r : active_result) : string :=
  match r with
  | StreamEnded => "active stream ended"
  | StreamError e => "active stream error: " +:+ e
  | ActiveJoinError e => "active task join error: " +:+ e
  end.

(** [inl reason] breaks the loop. [has_feed]: the stall check runs only with a lag guard. *)
Definition select_step (has_feed : bool) (s : StalledBehind) (e : push_event)
    : string + StalledBehind :=
  match e with
  | EvSuperseded => inl "active superseded by failover"%string
  | EvBlacklisted => inl "active peer blacklisted"%string
  | EvEndWhen reason => inl reason
  | EvStallTick o =>
      if has_feed then
        match check_obs s o with
        | (Some behind, _) =>
            inl ("active peer stalled behind the freshest stream by " +:+ show behind +:+ " rounds")
        | (None, s) => inr s
        end
      else inr s
  | EvNodeWrite WriteOk => inr s
  | EvNodeWrite (WriteError e) => inl ("node write failed: " +:+ e)
  | EvNodeWrite WriteTimeout => inl "node write timeout"%string
  | EvUp NodeLeft => inl "node outbound ended"%string
  | EvUp (UpWriteError e) => inl ("node outbound write failed: " +:+ e)
  | EvUp UpWriteTimeout => inl "node outbound write timeout"%string
  | EvUp (UpJoinError e) => inl ("node outbound task join error: " +:+ e)
  | EvActive r => inl (active_exit_reason r)
  | EvLagLog LoggerEnded => inl "active lag logger ended"%string
  | EvLagLog (LoggerJoinError e) => inl ("active lag logger task join error: " +:+ e)
  end.

Fixpoint select_loop (has_feed : bool) (s : StalledBehind) (es : list push_event) : option string :=
  match es with
  | [] => None
  | e :: es =>
      match select_step has_feed s e with
      | inl reason => Some reason
      | inr s => select_loop has_feed s es
      end
  end.

(** The greeting phase: the prefetched greeting or one read from the active, written to the node. *)
Inductive greeting_read := GreetRead (g : bytes) | GreetReadError (e : string).

Definition write_greeting (w : write_result) : option string :=
  match w with
  | WriteOk => None
  | WriteError e => Some ("node greeting write failed: " +:+ e)
  | WriteTimeout => Some "node greeting write failed: timeout"%string
  end.

Definition greeting_phase (prefetched : option bytes) (read : greeting_read) (w : write_result)
    : option string :=
  match prefetched with
  | Some _ => write_greeting w
  | None =>
      match read with
      | GreetReadError e => Some ("active greeting read failed: " +:+ e)
      | GreetRead g =>
          if response_is_peer_full g then Some "active peer full"%string else write_greeting w
      end
  end.

(** The reason a session reports: the loop's reason with the statistics appended. *)
Definition session_reason (reason : string) (st : PushStats) : string :=
  reason +:+ " stats=[" +:+ summary st +:+ "]".

(** ** The stream is gated *)

Section GateProofs.
Context `{HashOrder} (lz4_decompress : bytes -> option bytes).

Definition push_inv (st : PushState) : Prop :=
  gate_inv (gate st) /\ last_round (progress st) = active_round st.

Lemma push_inv_new last now h : 0 <= last -> push_inv (PushState_new last now h).
Proof. intros Hl. split; [by apply gate_inv_init|done]. Qed.

Lemma lagging_last_round p fr lag gr b now : last_round (lagging p fr lag gr b now).2 = last_round p.
Proof. unfold lagging. by destruct (_ || _ || _). Qed.

Lemma on_round_last p rnd now p' :
  on_round p rnd now = Some p' -> last_round p' = Z.max (last_round p) rnd.
Proof.
  unfold on_round. destruct (_ && _); [done|].
  destruct (Z.ltb_spec (last_round p) rnd); intros [= <-]; cbn; lia.
Qed.

Lemma on_round_refuses p rnd now :
  match on_round p rnd now with None => true | Some _ => false end =
  negb (last_round p =? 0) && (sat_add32 (last_round p) MAX_ACTIVE_ROUND_JUMP <? rnd).
Proof. unfold on_round. destruct (_ && _); [done|]. by destruct (last_round p <? rnd). Qed.

Lemma is_plausible_nonneg rnd tip : is_plausible_mainnet_round rnd tip = true -> 0 <= rnd.
Proof.
  unfold is_plausible_mainnet_round, MIN_PLAUSIBLE_MAINNET_ROUND. intros Hp. zify_bool. lia.
Qed.

(** What a block frame must satisfy to be forwarded or dropped. *)
Definition block_of (t : tick) (frame : bytes) (rnd : Z) : Prop :=
  byte_at frame 4 = 1 /\ block_round lz4_decompress (drop 5 frame) = Some rnd /\
  is_plausible_mainnet_round rnd (t_tip t) = true /\
  round_lag_from_tip rnd (t_tip t) ACTIVE_ROUND_MAX_LAG = None.

Definition frame_spec (st : PushState) (t : tick) (frame : bytes) (v : Verdict) (st' : PushState)
    : Prop :=
  push_inv st' /\
  match v with
  | Cut _ => True
  | Forwarded Block => exists rnd, block_of t frame rnd /\ t_floor t < rnd /\
      gate_last (gate st) < rnd /\ gate_last (gate st') = rnd
  | Forwarded _ => gate st' = gate st /\
      (byte_at frame 4 = 1 -> block_round lz4_decompress (drop 5 frame) = None)
  | Dropped => exists rnd, block_of t frame rnd /\
      gate_last (gate st') = gate_last (gate st) /\
      (rnd <= t_floor t \/ rnd <= gate_last (gate st))
  end.

Lemma floor_and_gate_spec st st0 t frame rnd :
  push_inv st -> gate st = gate st0 -> block_of t frame rnd ->
  frame_spec st0 t frame (floor_and_gate st frame rnd (t_floor t)).1
    (floor_and_gate st frame rnd (t_floor t)).2.
Proof.
  intros [Hg Hp] E Hb. unfold floor_and_gate, frame_spec. rewrite <- E.
  destruct (Z.leb_spec rnd (t_floor t)); cbn.
  - split; [done|]. exists rnd. auto.
  - pose proof Hb as (_ & _ & Hpl & _). apply is_plausible_nonneg in Hpl.
    destruct (should_forward_active (gate st) rnd Hg Hpl) as (H1 & H2 & H3).
    destruct (should_forward (gate st) rnd true) as [ok g]. cbn in *. subst ok.
    destruct (Z.ltb_spec (gate_last (gate st)) rnd); cbn.
    + split; [done|]. exists rnd. split_and!; [done|lia|lia|lia].
    + split; [done|]. exists rnd. split_and!; [done|lia|lia].
Qed.

Lemma pump_frame_spec st t frame :
  push_inv st ->
  let '(v, st', _) := pump_frame lz4_decompress st (t_fresh t) frame (t_tip t) (t_floor t)
                        (t_backed t) (t_now t) in
  frame_spec st t frame v st'.
Proof.
  intros Hi. unfold pump_frame.
  destruct (Z.eqb_spec (byte_at frame 4) 1) as [Ht|Ht]; cbn [negb].
  2:{ cbn. split; [done|]. split; [done|]. congruence. }
  destruct (block_round lz4_decompress (drop 5 frame)) as [rnd|] eqn:Er.
  2:{ cbn. split; [done|]. done. }
  destruct (is_plausible_mainnet_round rnd (t_tip t)) eqn:Epl; cbn [negb]; [|done].
  destruct (on_round (progress st) rnd (t_now t)) as [p|] eqn:Eo; [|done].
  apply on_round_last in Eo.
  destruct (offer_round st (t_fresh t) (t_tip t) rnd (t_now t)) as [h fr].
  set (lg := match h with Some _ => _ | None => _ end).
  assert (Hlg : last_round lg.2 = last_round p).
  { unfold lg. destruct h; [|done]. apply lagging_last_round. }
  destruct lg as [cut p']. cbn in Hlg. destruct Hi as [Hg Hp].
  set (st1 := mkPush _ _ _ _ _).
  assert (H1 : push_inv st1) by (split; [done|]; cbn; lia).
  destruct cut as [b|]; [done|].
  destruct (round_lag_from_tip rnd (t_tip t) ACTIVE_ROUND_MAX_LAG) eqn:El; [done|].
  pose proof (floor_and_gate_spec st1 st t frame rnd H1 eq_refl) as Hf.
  destruct (floor_and_gate st1 frame rnd (t_floor t)) as [v st']. by apply Hf.
Qed.

(** The frame of an iteration. *)
Definition tick_frame (t : tick) : option bytes :=
  match t_read t with Header len typ (Payload b) => Some (make_frame len typ b) | _ => None end.

Lemma pump_step_spec st t :
  push_inv st ->
  let '(v, st', f) := pump_step lz4_decompress st t in
  match v with
  | Cut _ => True
  | _ => exists frame, f = Some frame /\ tick_frame t = Some frame /\ frame_spec st t frame v st'
  end.
Proof.
  intros [Hg Hp]. unfold pump_step.
  set (p := if t_backed t then _ else _). set (st0 := mkPush _ _ p _ _).
  assert (H0 : push_inv st0) by (split; [done|]; unfold st0, p; cbn; by destruct (t_backed t)).
  destruct (stalled p (t_now t)); [done|].
  destruct (t_read t) as [| |len typ pr] eqn:Er; [done|done|].
  destruct (MAX_LIVE_FRAME <? len); [done|]. destruct pr as [| |b]; [done|done|].
  pose proof (pump_frame_spec st0 t (make_frame len typ b) H0) as Hs.
  destruct (pump_frame _ _ _ _ _ _ _ _) as [[v st'] fr]. unfold tick_frame. rewrite Er.
  destruct v; [done|..]; eexists; (split; [done|]); (split; [done|]); exact Hs.
Qed.

(** The round an iteration brings to the forward gate: a block above the node's floor. *)
Definition admitted (t : tick) : option Z :=
  f ← tick_frame t;
  if byte_at f 4 =? 1
  then r ← block_round lz4_decompress (drop 5 f); if t_floor t <? r then Some r else None
  else None.

(** Frames without a block round pass untouched. *)
Definition transparent (f : bytes) : bool :=
  negb (byte_at f 4 =? 1) || bool_decide (block_round lz4_decompress (drop 5 f) = None).

Definition out_frames (out : list (FrameKindSeen * bytes * tick)) : list bytes := (fun e => e.1.2) <$> out.
Definition out_rounds (out : list (FrameKindSeen * bytes * tick)) : list Z :=
  omap (fun e => if decide (e.1.1 = Block) then block_round lz4_decompress (drop 5 e.1.2) else None) out.

Definition gated (t : tick) (f : bytes) : Prop := exists rnd, block_of t f rnd /\ t_floor t < rnd.

Lemma block_not_transparent t f rnd : block_of t f rnd -> transparent f = false.
Proof.
  intros (Ht & Hr & _). unfold transparent. rewrite (proj2 (Z.eqb_eq _ _) Ht). cbn.
  rewrite bool_decide_eq_false, Hr. done.
Qed.

Lemma admitted_block t f rnd :
  tick_frame t = Some f -> block_of t f rnd ->
  admitted t = if t_floor t <? rnd then Some rnd else None.
Proof.
  intros Ef (Ht & Hr & _). unfold admitted. rewrite Ef. cbn. rewrite (proj2 (Z.eqb_eq _ _) Ht), Hr.
  done.
Qed.

Definition merge_spec (last : Z) (used : list tick) (out : list (FrameKindSeen * bytes * tick)) : Prop :=
  sublist (out_frames out) (omap tick_frame used) /\
  out_rounds out = new_highs last (omap admitted used) /\
  filter (fun f => transparent f = true) (out_frames out) =
    filter (fun f => transparent f = true) (omap tick_frame used) /\
  Forall (fun e => e.1.1 = Block -> gated e.2 e.1.2) out.

Lemma merge_spec_dropped last t used out f rnd :
  tick_frame t = Some f -> block_of t f rnd -> rnd <= t_floor t \/ rnd <= last ->
  merge_spec last used out -> merge_spec last (t :: used) out.
Proof.
  intros Ef Hb Hle (H1 & H2 & H3 & H4). unfold merge_spec. cbn [omap list_omap].
  rewrite Ef, (admitted_block t f rnd Ef Hb). split_and!; [by apply sublist_cons| | |done].
  - destruct (Z.ltb_spec (t_floor t) rnd); [|done]. cbn [new_highs].
    by rewrite (proj2 (Z.ltb_ge _ _)) by lia.
  - rewrite filter_cons_False; [done|]. by rewrite (block_not_transparent t f rnd Hb).
Qed.

Lemma merge_spec_block last t used out f rnd :
  tick_frame t = Some f -> block_of t f rnd -> t_floor t < rnd -> last < rnd ->
  merge_spec rnd used out -> merge_spec last (t :: used) ((Block, f, t) :: out).
Proof.
  intros Ef Hb Hfl Hla (H1 & H2 & H3 & H4). unfold merge_spec. cbn [omap list_omap].
  rewrite Ef, (admitted_block t f rnd Ef Hb), (proj2 (Z.ltb_lt _ _) Hfl).
  unfold out_frames, out_rounds in *. rewrite fmap_cons. cbn [omap list_omap fst snd new_highs].
  split_and!.
  - by apply sublist_skip.
  - rewrite decide_True by done. destruct Hb as (_ & Hr & _). rewrite Hr, H2.
    by rewrite (proj2 (Z.ltb_lt _ _) Hla).
  - rewrite !filter_cons, H3. done.
  - constructor; [|done]. intros _. by exists rnd.
Qed.

Lemma merge_spec_other last t used out f k :
  tick_frame t = Some f -> k <> Block ->
  (byte_at f 4 = 1 -> block_round lz4_decompress (drop 5 f) = None) ->
  merge_spec last used out -> merge_spec last (t :: used) ((k, f, t) :: out).
Proof.
  intros Ef Hk Hn (H1 & H2 & H3 & H4). unfold merge_spec. cbn [omap list_omap].
  assert (Ha : admitted t = None).
  { unfold admitted. rewrite Ef. cbn. destruct (Z.eqb_spec (byte_at f 4) 1) as [E|E]; [|done].
    by rewrite (Hn E). }
  rewrite Ef, Ha. unfold out_frames, out_rounds in *. rewrite fmap_cons.
  cbn [omap list_omap fst snd]. split_and!.
  - by apply sublist_skip.
  - by rewrite decide_False.
  - rewrite !filter_cons, H3. done.
  - by constructor.
Qed.

Lemma pump_merge_spec st ts :
  push_inv st ->
  let '(out, e) := pump_merge lz4_decompress st ts in
  exists n, merge_spec (gate_last (gate st)) (take n ts) out /\ (e = None -> n = length ts).
Proof.
  revert st. induction ts as [|t ts IH]; intros st Hi; cbn [pump_merge].
  { exists 0%nat. by repeat split. }
  pose proof (pump_step_spec st t Hi) as Hs.
  destruct (pump_step lz4_decompress st t) as [[v st'] f].
  destruct v as [e| |k].
  - exists 0%nat. split; [by repeat split|done].
  - destruct Hs as (fr & -> & Ef & Hi' & rnd & Hb & Hg & Hle).
    specialize (IH st' Hi'). destruct (pump_merge lz4_decompress st' ts) as [out e].
    destruct IH as (n & Hm & Hn). exists (S n). rewrite Hg in Hm. cbn [take]. split; [|naive_solver].
    by eapply merge_spec_dropped.
  - destruct Hs as (fr & -> & Ef & Hi' & Hk).
    specialize (IH st' Hi'). destruct (pump_merge lz4_decompress st' ts) as [out e].
    destruct IH as (n & Hm & Hn). exists (S n). cbn [take default]. split; [|naive_solver].
    destruct k; [| |]; [destruct Hk as [Hg Hnb]; rewrite Hg in Hm; by apply merge_spec_other| |
      destruct Hk as [Hg Hnb]; rewrite Hg in Hm; by apply merge_spec_other].
    destruct Hk as (rnd & Hb & Hfl & Hla & Hg). rewrite Hg in Hm. by eapply merge_spec_block.
Qed.

(** The node receives a gated, ordered copy of the active stream. For any stream of frames and
    any changes of the network tip, the node floor and the other streams meanwhile, the frames
    queued for the node are a subsequence of the frames read (unchanged and in order); every frame
    that is not a decodable block passes; the block rounds forwarded are exactly the new highs,
    above the session's starting round, among the blocks above the node's floor (so they strictly
    increase); and each was plausible and within [ACTIVE_ROUND_MAX_LAG] of the tip when forwarded. *)
Theorem push_stream_is_gated (last now : Z) (h : option FreshestFeed) (ts : list tick) :
  0 <= last ->
  let '(out, e) := pump_merge lz4_decompress (PushState_new last now h) ts in
  exists n, (e = None -> n = length ts) /\
    sublist (out_frames out) (omap tick_frame (take n ts)) /\
    filter (fun f => transparent f = true) (out_frames out) =
      filter (fun f => transparent f = true) (omap tick_frame (take n ts)) /\
    out_rounds out = new_highs last (omap admitted (take n ts)) /\
    StronglySorted Z.lt (last :: out_rounds out) /\
    Forall (fun e => e.1.1 = Block -> gated e.2 e.1.2) out.
Proof.
  intros Hl. pose proof (pump_merge_spec _ ts (push_inv_new last now h Hl)) as Hs.
  destruct (pump_merge _ _ ts) as [out e]. destruct Hs as (n & (H1 & H2 & H3 & H4) & Hn).
  exists n. split_and!; try done. cbn in H2. rewrite H2. apply new_highs_sorted.
Qed.
End GateProofs.

(** A concrete stream: a block, the same block again, a control frame, the next block. *)
Definition block_payload (r : Z) : bytes :=
  to_le 4 15 ++ 240 :: 0 :: 252 :: to_le 4 r ++ 252 :: to_le 4 (r - 1) ++ 252 :: to_le 4 (r - 2).

Definition no_lz4 (_ : bytes) : option bytes := None.

Definition example_tick (typ : Z) (payload : bytes) : tick :=
  mkTick (Header (Z.of_nat (length payload)) typ (Payload payload)) 2000000000 0 false 0
    (FreshestRound_new PEER_LAG_ROUNDS PEER_LAG_GRACE FRESHEST_STALE).

Definition example_ticks : list tick :=
  [example_tick 1 (block_payload 2000000001); example_tick 1 (block_payload 2000000001);
   example_tick 0 [7]; example_tick 1 (block_payload 2000000002)].

Lemma push_stream_is_gated_witness :
  out_rounds no_lz4 (pump_merge no_lz4 (PushState_new 2000000000 0 None) example_ticks).1 =
    [2000000001; 2000000002] /\
  out_rounds no_lz4 (pump_merge no_lz4 (PushState_new 2000000000 0 None) example_ticks).1 =
    new_highs 2000000000 [2000000001; 2000000001; 2000000002].
Proof.
  split; [vm_compute; reflexivity|].
  pose proof (push_stream_is_gated no_lz4 2000000000 0 None example_ticks ltac:(lia)) as H.
  assert (En : (pump_merge no_lz4 (PushState_new 2000000000 0 None) example_ticks).2 = None)
    by (vm_compute; reflexivity).
  destruct (pump_merge _ _ _) as [out e]. cbn [fst snd] in *.
  destruct H as (n & Hn & _ & _ & Hr & _). rewrite Hr, (Hn En).
  reflexivity.
Defined.

(** ** Prefetched frames pass the same gates *)

Section SameGates.
Context `{HashOrder} (lz4_decompress : bytes -> option bytes).

Definition same_session (s1 s2 : PushState) : Prop :=
  gate s1 = gate s2 /\ active_round s1 = active_round s2 /\ stats s1 = stats s2 /\
  own_feed s1 = own_feed s2.

Lemma floor_and_gate_same s1 s2 frame rnd floor :
  same_session s1 s2 ->
  let '(v1, s1') := floor_and_gate s1 frame rnd floor in
  let '(v2, s2') := floor_and_gate s2 frame rnd floor in
  v1 = v2 /\ same_session s1' s2'.
Proof.
  intros (E1 & E2 & E3 & E4). unfold floor_and_gate. rewrite E1, E2, E3, E4.
  destruct (rnd <=? floor); [done|]. destruct (should_forward (gate s2) rnd true) as [[] g]; done.
Qed.

(** Prefetched frames pass the gates of the live stream. For a well-sized frame and a session
    whose progress record agrees with its round counter, [process_live_frame] and the loop body of
    [pump_merge] give the same verdict, the same forwarded round, counters and shared reference;
    they differ only when the live stream is cut for lagging the other streams, a check the
    prefetched frames do not get. *)
Theorem prefetched_frames_pass_the_live_gates (st : PushState) (fr : FreshestRound) (frame : bytes)
    (tip floor now : Z) (backed : bool) :
  last_round (progress st) = active_round st ->
  (5 <= length frame)%nat -> frame_len frame = Z.of_nat (length frame) - 5 ->
  let '(v1, s1, f1) := process_live_frame lz4_decompress st fr frame tip floor now in
  let '(v2, s2, f2) := pump_frame lz4_decompress st fr frame tip floor backed now in
  (v1 = v2 /\ same_session s1 s2 /\ f1 = f2) \/ (exists b, v2 = Cut (LagsFreshest b)).
Proof.
  intros Hp Hl Hf. unfold process_live_frame, pump_frame.
  rewrite (proj2 (Nat.ltb_ge _ _) Hl). unfold sat_sub. rewrite (proj2 (Z.eqb_eq _ _)) by lia.
  cbn [negb]. destruct (byte_at frame 4 =? 1); cbn [negb]; [|by left].
  destruct (block_round lz4_decompress (drop 5 frame)) as [rnd|]; [|by left].
  destruct (is_plausible_mainnet_round rnd tip); cbn [negb]; [|by left].
  rewrite <- Hp, <- (on_round_refuses _ _ now).
  destruct (on_round (progress st) rnd now) as [p'|]; [|by left].
  destruct (offer_round st fr tip rnd now) as [h fr'].
  set (lg := match h with Some _ => _ | None => _ end). destruct lg as [[b|] p2].
  - destruct (round_lag_from_tip rnd tip ACTIVE_ROUND_MAX_LAG); [right; by eauto|].
    destruct (floor_and_gate _ _ _ _). right. by eauto.
  - destruct (round_lag_from_tip rnd tip ACTIVE_ROUND_MAX_LAG); [by left|].
    set (s1 := mkPush _ _ _ _ h). set (s2 := mkPush _ _ _ _ h).
    pose proof (floor_and_gate_same s1 s2 frame rnd floor ltac:(done)) as Hsame.
    destruct (floor_and_gate s1 frame rnd floor) as [v1 s1'],
      (floor_and_gate s2 frame rnd floor) as [v2 s2']. destruct Hsame. by left.
Qed.
End SameGates.

Lemma prefetched_frames_pass_the_live_gates_witness :
  let st := PushState_new 2000000000 0 None in
  let frame := make_frame 21 1 (block_payload 2000000001) in
  let fr := FreshestRound_new 100 0 0 in
  (process_live_frame no_lz4 st fr frame 2000000000 0 0).1.1 = Forwarded Block /\
  ((process_live_frame no_lz4 st fr frame 2000000000 0 0).1.1 =
   (pump_frame no_lz4 st fr frame 2000000000 0 false 0).1.1 \/
   exists b, (pump_frame no_lz4 st fr frame 2000000000 0 false 0).1.1 = Cut (LagsFreshest b)).
Proof.
  cbv zeta. split; [vm_compute; reflexivity|].
  pose proof (prefetched_frames_pass_the_live_gates no_lz4 (PushState_new 2000000000 0 None)
    (FreshestRound_new 100 0 0) (make_frame 21 1 (block_payload 2000000001)) 2000000000 0 0 false
    eq_refl ltac:(vm_compute; lia) ltac:(vm_compute; reflexivity)) as H.
  destruct (process_live_frame _ _ _ _ _ _ _) as [[v1 s1] f1].
  destruct (pump_frame _ _ _ _ _ _ _ _) as [[v2 s2] f2].
  destruct H as [(E & _)|E]; [left; exact E|right; exact E].
Defined.

(** ** The queue is bounded and first-in first-out *)

Inductive queue_op := QAcquire (frame : bytes) | QPush | QRecv | QWritten.

(** State: the queue, the frames accepted so far and the frames written to the node so far. *)
Definition queue_step (s : NodeQueue * list bytes * list bytes) (o : queue_op)
    : NodeQueue * list bytes * list bytes :=
  let '(q, sent, written) := s in
  match o with
  | QAcquire f => match q_acquire q f with Some q => (q, sent ++ [f], written) | None => s end
  | QPush => match q_push q with Some q => (q, sent, written) | None => s end
  | QRecv => match q_recv q with Some q => (q, sent, written) | None => s end
  | QWritten => match q_written q with Some (f, q) => (q, sent, written ++ [f]) | None => s end
  end.

(** Everything that holds permits, oldest first. *)
Definition held (q : NodeQueue) : list (bytes * Z) := q_writing q ++ q_frames q ++ q_waiting q.

Definition sum_permits (l : list (bytes * Z)) : Z := foldr (fun e n => e.2 + n) 0 l.
Definition sum_bytes (l : list (bytes * Z)) : Z :=
  foldr (fun e n => Z.of_nat (length e.1) + n) 0 l.

Lemma sum_permits_app l l' : sum_permits (l ++ l') = sum_permits l + sum_permits l'.
Proof. unfold sum_permits. induction l as [|e l IH]; cbn; lia. Qed.

Lemma sum_permits_nonneg l : Forall (fun e => e.2 = permits e.1) l -> 0 <= sum_permits l.
Proof. induction 1 as [|e l E _ IH]; cbn; [lia|]. unfold permits in E. unfold sum_permits in IH. lia. Qed.

Definition queue_inv (cap : Z) (s : NodeQueue * list bytes * list bytes) : Prop :=
  let '(q, sent, written) := s in
  q_cap q = cap /\ Z.of_nat (length (q_frames q)) <= cap /\ 0 <= q_avail q /\
  q_avail q + sum_permits (held q) = NODE_QUEUE_BYTES /\
  (length (q_writing q) <= 1)%nat /\
  Forall (fun e => e.2 = permits e.1) (held q) /\
  sent = written ++ (held q).*1.

Lemma queue_step_inv cap s o : queue_inv cap s -> queue_inv cap (queue_step s o).
Proof.
  destruct s as [[q sent] written]. intros Hinv. pose proof Hinv as (H1 & H2 & H3 & H4 & H5 & H6 & H7).
  destruct q as [qc wait frs wr av]. unfold held in *.
  cbn [q_cap q_waiting q_frames q_writing q_avail] in H1, H2, H3, H4, H5, H6, H7.
  destruct o as [f| | |]; cbn [queue_step].
  - unfold q_acquire. cbn. destruct (Z.leb_spec (permits f) av); [|exact Hinv].
    unfold queue_inv, held. cbn. rewrite !app_assoc, sum_permits_app, fmap_app, app_assoc.
    rewrite !app_assoc in H4, H6, H7. cbn.
    split_and!; try lia; [apply Forall_app; split; [done|by repeat constructor]|].
    by rewrite H7, <- !app_assoc.
  - unfold q_push. cbn. destruct wait as [|x rest]; [exact Hinv|].
    destruct (Z.ltb_spec (Z.of_nat (length frs)) qc); [|exact Hinv].
    unfold queue_inv, held. cbn. rewrite <- !app_assoc. cbn.
    split_and!; try done. rewrite length_app. cbn. lia.
  - unfold q_recv. cbn. destruct wr as [|w wr]; [|exact Hinv].
    destruct frs as [|x rest]; [exact Hinv|]. unfold queue_inv, held. cbn in *.
    split_and!; try done; lia.
  - unfold q_written. cbn. destruct wr as [|[f n] wr]; [exact Hinv|]. destruct wr; cbn in H5; [|lia].
    cbn in *. inversion H6 as [|? ? E H6']; subst. cbn in E. subst n.
    assert (0 <= permits f) by (unfold permits; lia). unfold queue_inv, held. cbn.
    rewrite <- app_assoc. split_and!; try done; lia.
Qed.

(** What is queued for a node is bounded and ordered. After any interleaving of senders and the
    writer, at most [cap] frames wait in the queue, everything accepted and not yet written (waiting,
    queued or being written) stays within [NODE_QUEUE_BYTES] when no frame alone exceeds it, the
    budget is never overdrawn, and the frames written are a prefix, in order, of those accepted. *)
Theorem node_queue_bounded_fifo (cap : Z) (os : list queue_op) :
  0 <= cap ->
  let '(q, sent, written) := foldl queue_step (NodeQueue_new cap, [], []) os in
  backlog q <= cap /\ 0 <= q_avail q <= NODE_QUEUE_BYTES /\
  sent = written ++ (held q).*1 /\
  (Forall (fun f => Z.of_nat (length f) <= NODE_QUEUE_BYTES) sent ->
   sum_bytes (held q) <= NODE_QUEUE_BYTES).
Proof.
  intros Hc.
  assert (H : queue_inv cap (foldl queue_step (NodeQueue_new cap, [], []) os)).
  { apply (foldl_inv queue_step (queue_inv cap)); [|intros; by apply queue_step_inv].
    unfold queue_inv, held. cbn. split_and!; try done; lia. }
  destruct (foldl queue_step _ os) as [[q sent] written].
  destruct H as (H1 & H2 & H3 & H4 & H5 & H6 & H7).
  pose proof (sum_permits_nonneg _ H6) as Hle.
  split_and!; [unfold backlog; lia|lia|lia|done|].
  intros Hf. rewrite H7, Forall_app in Hf. destruct Hf as [_ Hf].
  enough (sum_bytes (held q) <= sum_permits (held q)) by lia. clear -H6 Hf.
  induction H6 as [|e l E _ IH]; cbn; [lia|]. cbn in Hf. inversion Hf as [|? ? Hx Hf']; subst.
  specialize (IH Hf'). unfold permits in E. unfold sum_bytes, sum_permits in *. lia.
Qed.

Lemma node_queue_bounded_fifo_witness :
  let '(q, sent, written) := foldl queue_step (NodeQueue_new 1, [], [])
    [QAcquire [1]; QPush; QAcquire [2]; QPush; QRecv; QPush; QWritten] in
  written = [[1]] /\ backlog q <= 1.
Proof.
  pose proof (node_queue_bounded_fifo 1
    [QAcquire [1]; QPush; QAcquire [2]; QPush; QRecv; QPush; QWritten] ltac:(lia)) as H.
  assert (E : (foldl queue_step (NodeQueue_new 1, [], [])
    [QAcquire [1]; QPush; QAcquire [2]; QPush; QRecv; QPush; QWritten]).2 = [[1]])
    by (vm_compute; reflexivity).
  destruct (foldl _ _ _) as [[q sent] written]. split; [exact E|apply H].
Defined.

(** ** Blame *)

(** The ends of a session that are the upstream's doing. *)
Definition upstream_event (e : push_event) : bool :=
  match e with
  | EvBlacklisted | EvStallTick _ => true
  | EvUp (UpWriteError _) | EvUp UpWriteTimeout => true
  | EvActive StreamEnded | EvActive (StreamError _) => true
  | _ => false
  end.

(** The reasons [end_when] is used with. *)
Definition known_end (e : push_event) : Prop :=
  match e with
  | EvEndWhen r => exists rest, r = RETURNING_TO_PRIORITY +:+ rest \/ r = NODE_CATCHUP_STUCK +:+ rest
  | _ => True
  end.

Lemma string_app_assoc (a b c : string) : (a +:+ b) +:+ c = a +:+ (b +:+ c).
Proof.
  induction a as [|x a IH]; [done|].
  change (String x ((a +:+ b) +:+ c) = String x (a +:+ (b +:+ c))). by rewrite IH.
Qed.

Lemma starts_with_app p s : starts_with p (p +:+ s) = true.
Proof.
  unfold starts_with. induction p as [|x p IH]; [by destruct s|].
  change (String x p +:+ s) with (String x (p +:+ s)). cbn. by destruct (ascii_dec x x).
Qed.

Lemma select_loop_last hf s es reason :
  select_loop hf s es = Some reason ->
  exists pre e post s', es = pre ++ e :: post /\ select_step hf s' e = inl reason.
Proof.
  revert s. induction es as [|e es IH]; intros s; cbn; [done|].
  destruct (select_step hf s e) as [r|s'] eqn:E.
  - intros [= ->]. exists [], e, es, s. done.
  - intros (pre & e' & post & s2 & -> & H2)%IH. exists (e :: pre), e', post, s2. done.
Qed.

(** The right side is blamed. Whenever the session's select loop ends, with any error texts and
    statistics, there is an event that ended it, and the reported reason rotates the upstream out
    exactly when that event is the upstream's doing (its stream ended, failed, lagged or stalled, it
    stopped taking the node's requests, or it was blacklisted), not when the node left or stopped
    reading, the proxy failed over, the session is moved back to a priority peer, or an internal
    task failed. In the greeting phase, the upstream is blamed exactly for a failed greeting read or
    a full peer. *)
Theorem exit_reason_blames_the_right_side (hf : bool) (s : StalledBehind) (es : list push_event)
    (reason : string) (stt : PushStats) :
  Forall known_end es -> select_loop hf s es = Some reason ->
  (exists e, e ∈ es /\ push_exit_is_upstream_fault (session_reason reason stt) = upstream_event e) /\
  (forall pre rd w r, greeting_phase pre rd w = Some r ->
     push_exit_is_upstream_fault r = true <-> pre = None /\
       match rd with GreetReadError _ => True | GreetRead g => response_is_peer_full g = true end).
Proof.
  intros Hk Hs. split.
  - destruct (select_loop_last _ _ _ _ Hs) as (l & e & l' & s' & -> & He). exists e.
    split; [apply elem_of_app; right; by left|].
    rewrite Forall_app, Forall_cons in Hk. destruct Hk as (_ & Hk & _).
    unfold session_reason. destruct e as [| |r|o|r|r|r|r]; cbn in He; cbn [known_end] in Hk.
    1, 2: injection He as <-; reflexivity.
    + injection He as <-. unfold push_exit_is_upstream_fault.
      destruct Hk as (rest & [-> | ->]); rewrite string_app_assoc, starts_with_app, ?orb_true_r; done.
    + destruct hf; [|done]. destruct (check_obs s' o) as [[b|] s2]; [|done].
      injection He as <-. reflexivity.
    + destruct r; try done; injection He as <-; reflexivity.
    + destruct r; try done; injection He as <-; reflexivity.
    + destruct r; try done; injection He as <-; reflexivity.
    + destruct r; try done; injection He as <-; reflexivity.
  - intros pre rd w r. unfold greeting_phase, write_greeting. destruct pre as [p|].
    + destruct w; intros [= <-]; (split; [discriminate|by intros [? _]]).
    + destruct rd as [g|e]; [destruct (response_is_peer_full g) eqn:Eg|].
      * intros [= <-]. by split.
      * destruct w; intros [= <-]; (split; [discriminate|by intros [_ ?]]).
      * intros [= <-]. by split.
Qed.

Lemma exit_reason_blames_the_right_side_witness :
  exists e, e ∈ [EvNodeWrite WriteOk; EvUp UpWriteTimeout] /\
    push_exit_is_upstream_fault
      (session_reason "node outbound write timeout" PushStats_default) = upstream_event e.
Proof.
  apply (exit_reason_blames_the_right_side true
    (StalledBehind_new STALL_LAG_ROUNDS STALL_LAG_GRACE STALL_LAG_WIDEN)
    [EvNodeWrite WriteOk; EvUp UpWriteTimeout]).
  - by repeat constructor.
  - reflexivity.
Defined.
