(* ===== verification/Relay.v ===== *)
(** Relays of bytes: [splice], [splice_with_idle] and [copy_node_to_upstream] of [src/push/live.rs].

    A copy loop reads a chunk and writes it out. A relay runs one loop in a task of its own and the
    other in the relay's future; the future ends with the first of the two, or when the upstream is
    blacklisted, or its caller drops it. Its end aborts the task, which may still finish the poll it
    is in. *)

From S2P Require Import Prelude PushSession.

Definition UPSTREAM_WRITE_TIMEOUT : Z := seconds 5.
Definition RELAY_UPSTREAM_WRITE_TIMEOUT : Z := seconds 30.

(** ** A copy loop *)

(** What a read meets: data, the expiry of an idle timeout, the end or an error. *)
Inductive copy_read := CData (b : bytes) | CIdle | CClosed.

(** A write that does not succeed may have passed on the first [part] bytes. *)
Inductive copy_event := CRead (r : copy_read) | CWrite (w : write_result) (part : nat).

(** The chunk in hand, what was passed on, the bytes counted, and the loop's result. *)
Record Copy {R : Type} := mkCopy { cp_hand : option bytes; cp_out : bytes; cp_count : Z; cp_end : option R }.
Arguments Copy : clear implicits.

Definition copy_start {R} : Copy R := mkCopy R None [] 0 None.

Section CopyLoop.
Context {R : Type} (read_end : R) (idle_end : option R) (write_end : write_result -> R).

Definition copy_step (c : Copy R) (e : copy_event) : Copy R :=
  match cp_end c, cp_hand c, e with
  | None, None, CRead (CData b) =>
      if bool_decide (b = []) then mkCopy R None (cp_out c) (cp_count c) (Some read_end)
      else mkCopy R (Some b) (cp_out c) (cp_count c) None
  | None, None, CRead CIdle => mkCopy R None (cp_out c) (cp_count c) idle_end
  | None, None, CRead CClosed => mkCopy R None (cp_out c) (cp_count c) (Some read_end)
  | None, Some b, CWrite WriteOk _ => mkCopy R None (cp_out c ++ b) (cp_count c + Z.of_nat (length b)) None
  | None, Some b, CWrite w part => mkCopy R None (cp_out c ++ take part b) (cp_count c) (Some (write_end w))
  | _, _, _ => c
  end.
End CopyLoop.

(** ** The relay *)

(** What a relay carried, and which side ended it. *)
Record Relayed := mkRelayed { to_node : Z; to_peer : Z; rel_upstream_ended : bool }.

(** The node -> upstream loop: the node's doing when its reads end, the upstream's when writes do. *)
Definition copy_node_to_upstream : Copy bool -> copy_event -> Copy bool :=
  copy_step false None (fun _ => true).

(** The upstream -> node loop. *)
Definition copy_upstream_to_node (upstream_idle : bool) : Copy bool -> copy_event -> Copy bool :=
  copy_step true (if upstream_idle then Some true else None) (fun _ => false).

(** [sp_result]: [Some None] when the caller dropped the relay. [sp_task]: the task still runs. *)
Record Splice := mkSplice {
  sp_down : Copy bool;
  sp_up : Copy bool;
  sp_result : option (option Relayed);
  sp_task : bool
}.

Definition splice_start : Splice := mkSplice copy_start copy_start None true.

Inductive splice_event :=
| XTask (e : copy_event)
| XNode (e : copy_event)
| XJoin (panicked : bool)
| XBlacklisted
| XCancelled
| XAborted.

(** The end of the relay: [AbortOnDrop], and the count so far. *)
Definition splice_end (s : Splice) (r : option (Z * bool)) : Splice :=
  mkSplice (sp_down s) (sp_up s)
    (Some match r with
          | Some (n, ended) => Some (mkRelayed (cp_count (sp_down s)) n ended)
          | None => None
          end) (sp_task s).

Definition splice_with_idle (upstream_idle : bool) (s : Splice) (e : splice_event) : Splice :=
  match e with
  | XTask e =>
      if sp_task s
      then mkSplice (copy_upstream_to_node upstream_idle (sp_down s) e) (sp_up s) (sp_result s) (sp_task s)
      else s
  | XAborted => if bool_decide (is_Some (sp_result s)) then mkSplice (sp_down s) (sp_up s) (sp_result s) false else s
  | _ =>
      match sp_result s with
      | Some _ => s
      | None =>
          match e with
          | XNode e =>
              let up := copy_node_to_upstream (sp_up s) e in
              let s := mkSplice (sp_down s) up None (sp_task s) in
              match cp_end up with Some ended => splice_end s (Some (cp_count up, ended)) | None => s end
          | XJoin panicked =>
              match cp_end (sp_down s) with
              | Some ended => splice_end s (Some (0, if panicked then false else ended))
              | None => if panicked then splice_end s (Some (0, false)) else s
              end
          | XBlacklisted => splice_end s (Some (0, true))
          | _ => splice_end s None
          end
      end
  end.

(** [splice]: without an idle limit; the two counts. *)
Definition splice (evs : list splice_event) : option (Z * Z) :=
  match sp_result (foldl (splice_with_idle false) splice_start evs) with
  | Some (Some r) => Some (to_node r, to_peer r)
  | _ => None
  end.

(** ** Lemmas: a copy loop *)

(** The data a loop was given, in order. *)
Definition copy_in (e : copy_event) : bytes := match e with CRead (CData b) => b | _ => [] end.

(** What the loop took in is what it passed on and what it holds; [cp_count] counts full chunks. *)
Definition copy_ok {R} (taken : bytes) (c : Copy R) : Prop :=
  0 <= cp_count c <= Z.of_nat (length (cp_out c)) /\
  (cp_end c = None -> taken = cp_out c ++ default [] (cp_hand c) /\ cp_count c = Z.of_nat (length (cp_out c))) /\
  cp_out c `prefix_of` taken /\ (cp_end c <> None -> cp_hand c = None).

(** The bytes the loop reads at a step. *)
Definition copy_takes {R} (c : Copy R) (e : copy_event) : bytes :=
  match cp_end c, cp_hand c with None, None => copy_in e | _, _ => [] end.

Lemma copy_ok_start {R} : copy_ok (R := R) [] copy_start.
Proof. split_and!; cbn; try lia; done. Qed.

Ltac copy_auto :=
  unfold copy_ok; cbn; rewrite ?length_app, ?app_nil_r; split_and!; try lia; try done; intros;
  repeat split; try done; try lia.

Lemma copy_step_ok {R} (re : R) ie we taken c e :
  copy_ok taken c -> copy_ok (taken ++ copy_takes c e) (copy_step re ie we c e).
Proof.
  intros (Hc & Hn & Hp & He). unfold copy_step, copy_takes.
  destruct (cp_end c) as [r|] eqn:Ee; [rewrite app_nil_r; split_and!; try lia; auto; intros; congruence|].
  destruct (Hn eq_refl) as [-> Hlen]. destruct (cp_hand c) as [b|] eqn:Eh; cbn [default].
  - rewrite app_nil_r. destruct e as [r|w part].
    { split_and!; rewrite ?Ee, ?Eh; try done; cbn; lia. }
    assert (Hpart : (length (take part b) <= length b)%nat) by (rewrite length_take; lia).
    assert (Hpre : cp_out c ++ take part b `prefix_of` cp_out c ++ b) by (apply prefix_app, prefix_take).
    destruct w; copy_auto.
  - destruct e as [[b| |]|w part]; cbn [copy_in]; rewrite ?app_nil_r in *; [case_bool_decide; subst|..]; copy_auto;
      [by apply prefix_app_r|by rewrite Eh, app_nil_r].
Qed.

(** ** Lemmas: the relay *)

(** What the relay reads at a step: from the upstream, from the node. *)
Definition splice_takes (s : Splice) (e : splice_event) : bytes * bytes :=
  match e with
  | XTask e => (if sp_task s then copy_takes (sp_down s) e else [], [])
  | XNode e => ([], match sp_result s with None => copy_takes (sp_up s) e | Some _ => [] end)
  | _ => ([], [])
  end.

(** The relay with what it has read so far. *)
Definition splice_trace (idle : bool) (st : Splice * bytes * bytes) (e : splice_event) : Splice * bytes * bytes :=
  let '(s, from_up, from_node) := st in
  let '(u, n) := splice_takes s e in
  (splice_with_idle idle s e, from_up ++ u, from_node ++ n).

Definition run_splice (idle : bool) (evs : list splice_event) : Splice * bytes * bytes :=
  foldl (splice_trace idle) (splice_start, [], []) evs.

(** An event that ends a copy loop, whatever the loop makes of it: the end of a read (silence beyond
    the limit only where there is one), or a write that does not succeed. *)
Definition ends_copy (idle : bool) (d : copy_event) : Prop :=
  match d with
  | CRead (CData b) => b = []
  | CRead CIdle => idle = true
  | CRead CClosed => True
  | CWrite w _ => w <> WriteOk
  end.

(** Whose doing the end of a relay by [e] is, from what happened before it ([pre]): the peer that was
    read from when a read ended, the one written to when a write failed. The task's loop copies from
    the upstream to the node, the relay's own from the node to the upstream. *)
Definition blames_upstream (idle : bool) (pre : list splice_event) (e : splice_event) (upstream : bool) : Prop :=
  let down evs := sp_down (run_splice idle evs).1.1 in
  match e with
  | XNode (CRead d) => ends_copy false (CRead d) /\ upstream = false
  | XNode (CWrite w n) => ends_copy false (CWrite w n) /\ upstream = true
  | XBlacklisted => upstream = true
  | XJoin true => upstream = false
  | XJoin false =>
      exists before d after, pre = before ++ XTask d :: after /\ ends_copy idle d /\
        cp_end (down before) = None /\ cp_end (down (before ++ [XTask d])) <> None /\
        upstream = match d with CRead _ => true | CWrite _ _ => false end
  | _ => False
  end.

Definition splice_inv (s : Splice) (from_up from_node : bytes) : Prop :=
  copy_ok from_up (sp_down s) /\ copy_ok from_node (sp_up s) /\
  (sp_result s = None -> cp_end (sp_up s) = None) /\
  match sp_result s with
  | Some (Some r) =>
      0 <= to_node r <= Z.of_nat (length (cp_out (sp_down s))) /\
      (to_peer r = 0 \/ to_peer r = cp_count (sp_up s))
  | _ => True
  end.

Lemma splice_end_inv s r from_up from_node :
  copy_ok from_up (sp_down s) -> copy_ok from_node (sp_up s) ->
  match r with Some (n, _) => n = 0 \/ n = cp_count (sp_up s) | None => True end ->
  splice_inv (splice_end s r) from_up from_node.
Proof.
  intros Hd Hu Hr. unfold splice_inv, splice_end. cbn. split_and!; [done|done|done|].
  destruct r as [[n ended]|]; [|done]. cbn. split; [apply Hd|done].
Qed.

Lemma copy_out_grows {R} (re : R) ie we c e : (length (cp_out c) <= length (cp_out (copy_step re ie we c e)))%nat.
Proof.
  unfold copy_step. destruct (cp_end c); [done|]. destruct (cp_hand c) as [b|].
  - destruct e as [|[] ?]; cbn; rewrite ?length_app; lia.
  - destruct e as [[b| |]|]; cbn; try done. by case_bool_decide.
Qed.

Lemma splice_step_inv idle s from_up from_node e :
  splice_inv s from_up from_node ->
  splice_inv (splice_with_idle idle s e) (from_up ++ (splice_takes s e).1) (from_node ++ (splice_takes s e).2).
Proof.
  intros (Hd & Hu & Hn & Hr). destruct e as [e|e|p| | |]; cbn [splice_with_idle splice_takes fst snd];
    rewrite ?app_nil_r.
  - destruct (sp_task s) eqn:Et; [|rewrite app_nil_r; by split_and!]. unfold splice_inv. cbn.
    split_and!; [by apply copy_step_ok|done|done|]. destruct (sp_result s) as [[r|]|]; try done.
    destruct Hr as [Hr1 Hr2]. split; [|done]. unfold copy_upstream_to_node.
    pose proof (copy_out_grows true (if idle then Some true else None) (fun _ => false) (sp_down s) e). lia.
  - destruct (sp_result s) as [r|] eqn:Er; [rewrite app_nil_r; unfold splice_inv; rewrite Er; by split_and!|].
    pose proof (copy_step_ok false None (fun _ => true) from_node (sp_up s) e Hu) as Hu'.
    fold copy_node_to_upstream in Hu'. destruct (cp_end (copy_node_to_upstream (sp_up s) e)) eqn:Ee.
    + apply splice_end_inv; [done|done|by right].
    + unfold splice_inv. cbn. by split_and!.
  - destruct (sp_result s) as [r|] eqn:Er; [unfold splice_inv; rewrite Er; by split_and!|].
    destruct (cp_end (sp_down s)); [apply splice_end_inv; auto|].
    destruct p; [apply splice_end_inv; auto|]. unfold splice_inv. rewrite Er. by split_and!.
  - destruct (sp_result s) as [r|] eqn:Er; [unfold splice_inv; rewrite Er; by split_and!|].
    apply splice_end_inv; auto.
  - destruct (sp_result s) as [r|] eqn:Er; [unfold splice_inv; rewrite Er; by split_and!|].
    apply splice_end_inv; auto.
  - case_bool_decide; [|by split_and!]. unfold splice_inv. cbn. by split_and!.
Qed.

Lemma run_splice_snoc idle evs e :
  run_splice idle (evs ++ [e]) = splice_trace idle (run_splice idle evs) e.
Proof. unfold run_splice. by rewrite foldl_app. Qed.

Lemma run_splice_inv idle evs : let '(s, fu, fn) := run_splice idle evs in splice_inv s fu fn.
Proof.
  unfold run_splice.
  assert (H : (fun st => splice_inv st.1.1 st.1.2 st.2) (foldl (splice_trace idle) (splice_start, [], []) evs)).
  { apply foldl_inv.
    - unfold splice_inv. cbn. split_and!; [apply copy_ok_start|apply copy_ok_start|done|done].
    - intros [[s fu] fn] e H. cbn in H. pose proof (splice_step_inv idle s fu fn e H) as H'. unfold splice_trace.
      by destruct (splice_takes s e). }
  by destruct (foldl _ _ _) as [[s fu] fn].
Qed.

(** The end of the task's loop, traced back to the event that made it. *)
Lemma down_end_cause idle evs ended :
  cp_end (sp_down (run_splice idle evs).1.1) = Some ended ->
  exists before d after, evs = before ++ XTask d :: after /\ ends_copy idle d /\
    cp_end (sp_down (run_splice idle before).1.1) = None /\
    cp_end (sp_down (run_splice idle (before ++ [XTask d])).1.1) <> None /\
    ended = match d with CRead _ => true | CWrite _ _ => false end.
Proof.
  induction evs as [|e evs IH] using rev_ind; [done|]. intros He.
  destruct (cp_end (sp_down (run_splice idle evs).1.1)) as [b|] eqn:E.
  - assert (b = ended) as ->.
    { revert He. rewrite run_splice_snoc. destruct (run_splice idle evs) as [[s fu] fn]. unfold splice_trace.
      destruct (splice_takes s e). cbn [fst] in *. intros He. apply (inj Some). rewrite <- E, <- He.
      destruct e as [e|e|p| | |]; cbn; [destruct (sp_task s); [|done]; cbn; unfold copy_upstream_to_node, copy_step; by rewrite E|..].
      all: destruct (sp_result s); try done; repeat (case_match; cbn; try done). }
    destruct (IH eq_refl) as (before & d & after & -> & H1). exists before, d, (after ++ [e]). by rewrite <- app_assoc.
  - pose proof He as He'. revert He. rewrite run_splice_snoc. destruct (run_splice idle evs) as [[s fu] fn] eqn:Er.
    unfold splice_trace. destruct (splice_takes s e). cbn [fst] in *.
    destruct e as [d|e|p| | |]; cbn.
    2-6: destruct (sp_result s); cbn; rewrite ?E; try done; repeat (case_match; cbn; rewrite ?E; try done).
    destruct (sp_task s); cbn; [|by rewrite E]. intros Hd. exists evs, d, []. rewrite Er. cbn [fst].
    assert (Hc : ends_copy idle d /\ ended = match d with CRead _ => true | CWrite _ _ => false end).
    { revert Hd. unfold copy_upstream_to_node, copy_step. rewrite E. destruct (cp_hand (sp_down s)), d as [[b0| |]|[] part]; cbn;
        rewrite ?E; try done; try case_bool_decide; cbn; try done; try (by intros [= <-]); by destruct idle; intros [= <-]. }
    destruct Hc as [H1 H2]. split_and!; [done|done|done|by rewrite He'|done].
Qed.

(** A relay ends once, with the blame of the event that ended it. *)
Lemma splice_result_blame idle evs r :
  sp_result (run_splice idle evs).1.1 = Some (Some r) ->
  exists pre e post, evs = pre ++ e :: post /\
    sp_result (run_splice idle pre).1.1 = None /\ blames_upstream idle pre e (rel_upstream_ended r).
Proof.
  revert r. induction evs as [|e evs IH] using rev_ind; intros r; [done|]. rewrite run_splice_snoc.
  destruct (run_splice idle evs) as [[s fu] fn] eqn:E. unfold splice_trace.
  assert (Hkeep : sp_result s = Some (Some r) -> exists pre e0 post, evs ++ [e] = pre ++ e0 :: post /\
    sp_result (run_splice idle pre).1.1 = None /\ blames_upstream idle pre e0 (rel_upstream_ended r)).
  { intros Hr. destruct (IH r Hr) as (pre & e0 & post & -> & H1 & H2). exists pre, e0, (post ++ [e]).
    rewrite <- app_assoc. by split_and!. }
  destruct (splice_takes s e) as [u n]. cbn [fst].
  destruct (sp_result s) as [r0|] eqn:Er.
  { intros Hr. apply Hkeep. rewrite <- Hr. destruct e; cbn; rewrite ?Er; try done.
    by destruct (sp_task s). }
  intros Hr. exists evs, e, []. rewrite E. cbn [fst]. split_and!; [done|done|]. revert Hr.
  destruct e as [e|e|p| | |]; cbn; try rewrite Er.
  - destruct (sp_task s); cbn; congruence.
  - unfold copy_node_to_upstream, copy_step.
    pose proof (run_splice_inv idle evs) as Hi. rewrite E in Hi. destruct Hi as (_ & _ & Eu & _).
    specialize (Eu Er). rewrite Eu. destruct (cp_hand (sp_up s)) as [b|], e as [[b'| |]|[] part]; cbn; rewrite ?Eu; try done;
      try (by intros [= <-]); case_bool_decide; cbn; try done; by intros [= <-].
  - destruct p; [destruct (cp_end (sp_down s)); by intros [= <-]|].
    destruct (cp_end (sp_down s)) as [ended|] eqn:Ee; [|by rewrite Er]. intros [= <-]. cbn.
    apply down_end_cause. by rewrite E.
  - by intros [= <-].
  - done.
  - case_bool_decide; cbn; congruence.
Qed.

(** ** Properties *)


(** What went to the upstream is reported only when the node's own copy ends the relay: here three
    bytes of the node reached an upstream that then closed, and none is reported. *)
Example upload_is_not_reported :
  let evs := [XNode (CRead (CData [1; 2; 3])); XNode (CWrite WriteOk 0); XTask (CRead CClosed); XJoin false] in
  cp_out (sp_up (run_splice false evs).1.1) = [1; 2; 3] /\ splice evs = Some (0, 0).
Proof. by vm_compute. Qed.
