(* ===== verification/PushServe.v ===== *)
(** A whole push session: [serve_push] of [src/push/live.rs] from the greeting to its exit reason.

    The session's tasks (the pump of the active stream, the copy of the node's bytes, the select loop
    that also writes to the node) and its queue as one machine, driven by any interleaving of their
    steps. The pump reads the socket of the active peer; the shared atomics and the clock are inputs.
    [sv_log], [sv_seen] and [sv_frames] record what happened and are read by no step. *)

From S2P Require Import Prelude Text Blacklist Wire Sock Freshest PushSession Relay.

(** ** Data *)

#[global] Instance active_result_eq_dec : EqDecision active_result.
Proof. solve_decision. Defined.
#[global] Instance up_result_eq_dec : EqDecision up_result.
Proof. solve_decision. Defined.

Record PushConfig := mkPushConfig {
  prefetched_greeting : option bytes;
  prefetched_frames : list bytes;
  initial_last_forwarded : Z;
  cfg_feed : option FreshestFeed      (* the session's entry of [freshest] *)
}.

Inductive ServePhase :=
| Greeting
| Prefetching (rest : list bytes)
| Running
| Ended (reason : string).

Record Serve := mkServe {
  sv_phase : ServePhase;
  sv_push : PushState;
  sv_hand : option bytes;              (* a frame whose send waits for the byte budget *)
  sv_queue : NodeQueue;
  sv_up : Copy up_result;
  sv_active : option active_result;    (* how the pump ended *)
  sv_stall : StalledBehind;
  sv_sock : list Read;                 (* what the active peer's socket still delivers *)
  sv_greeted : bytes;
  sv_node : list bytes;                (* frames written to the node *)
  sv_partial : bytes;                  (* the part of a frame whose write failed *)
  sv_log : list bytes;                 (* frames that passed the gates *)
  sv_seen : list (bytes * Z);          (* frames brought to the gates, with the floor read then *)
  sv_frames : list bytes               (* those of them read from the socket *)
}.

Definition serve_start (cfg : PushConfig) (sock : list Read) (now : Z) : Serve :=
  mkServe Greeting (PushState_new (initial_last_forwarded cfg) now (cfg_feed cfg)) None
    (NodeQueue_new PUSH_MERGE_QUEUE_FRAMES) copy_start None
    (StalledBehind_new STALL_LAG_ROUNDS STALL_LAG_GRACE STALL_LAG_WIDEN) sock [] [] [] [] [] [].

Definition sv_end (s : Serve) (reason : string) : Serve :=
  mkServe (Ended reason) (sv_push s) (sv_hand s) (sv_queue s) (sv_up s) (sv_active s) (sv_stall s) (sv_sock s)
    (sv_greeted s) (sv_node s) (sv_partial s) (sv_log s) (sv_seen s) (sv_frames s).

Definition sv_set_phase (s : Serve) (p : ServePhase) (st : PushState) (greeted : bytes) (sock : list Read) : Serve :=
  mkServe p st (sv_hand s) (sv_queue s) (sv_up s) (sv_active s) (sv_stall s) sock
    greeted (sv_node s) (sv_partial s) (sv_log s) (sv_seen s) (sv_frames s).

Definition sv_set_queue (s : Serve) (hand : option bytes) (q : NodeQueue) : Serve :=
  mkServe (sv_phase s) (sv_push s) hand q (sv_up s) (sv_active s) (sv_stall s) (sv_sock s)
    (sv_greeted s) (sv_node s) (sv_partial s) (sv_log s) (sv_seen s) (sv_frames s).

(** The verdict on a frame: a forwarded one is sent next. *)
Definition sv_judged (s : Serve) (p : ServePhase) (v : Verdict) (st : PushState) (f : bytes) (floor : Z) : Serve :=
  let fwd := match v with Forwarded _ => true | _ => false end in
  mkServe p st (if fwd then Some f else None) (sv_queue s) (sv_up s) (sv_active s) (sv_stall s) (sv_sock s)
    (sv_greeted s) (sv_node s) (sv_partial s) (if fwd then sv_log s ++ [f] else sv_log s) (sv_seen s ++ [(f, floor)])
    (sv_frames s).

(** No send waits. *)
Definition sv_idle (s : Serve) : bool := bool_decide (sv_hand s = None) && bool_decide (q_waiting (sv_queue s) = []).

(** ** Text of the pump's errors *)

(** [io] is the text of an I/O error. *)
Definition pump_error_text (io : string) (e : PumpError) : string :=
  match e with
  | Implausible rnd => "implausible active block round " +:+ show rnd
  | RoundJump rnd prev =>
      "active block round jump round=" +:+ show rnd +:+ " prev=" +:+ show prev +:+ " max_jump=" +:+ show MAX_ACTIVE_ROUND_JUMP
  | LagsFreshest b => "active peer lags the freshest stream by " +:+ show b +:+ " rounds"
  | LaggedTip rnd tip lag =>
      "active block round lagged round=" +:+ show rnd +:+ " net_tip=" +:+ show tip +:+ " lag=" +:+ show lag +:+
      " max_lag=" +:+ show ACTIVE_ROUND_MAX_LAG
  | NoBlockProgress last =>
      "no block progress for " +:+ show (as_secs ACTIVE_BLOCK_STALL) +:+ "s (last round " +:+ show last +:+ ")"
  | IdleTimeout => "idle timeout"
  | IdleTimeoutPayload => "idle timeout (payload)"
  | OversizedFrame => "oversized frame from active peer"
  | ReadError => io
  | ShortPrefetched => "short prefetched frame"
  | MisSizedPrefetched => "mis-sized prefetched frame"
  end.

(** ** Steps *)

Definition PUSH_GREETING_MAX : Z := 1000.

(** The text of a failed read. *)
Definition frame_error_text (e : FrameError) : string :=
  match e with
  | FrameElapsed => "deadline has elapsed"
  | FrameEof => "early eof"
  | FrameIo e => e
  | FrameTooLarge => "live frame too large"
  end.

(** The greeting to forward: the one selection read, or the first frame of the peer's socket. *)
Definition greeting_target (prefetched : option bytes) (sock : list Read) : string + (bytes * list Read) :=
  match prefetched with
  | Some g => inr (g, sock)
  | None =>
      match read_live_frame_with_timeout PUSH_GREETING_MAX sock with
      | (inl e, _) => inl ("active greeting read failed: " +:+ frame_error_text e)
      | (inr g, sock) => if response_is_peer_full g then inl "active peer full"%string else inr (g, sock)
      end
  end.

(** The node -> active copy of the session. *)
Definition up_write_end (w : write_result) : up_result :=
  match w with WriteError e => UpWriteError e | _ => UpWriteTimeout end.

Definition up_step : Copy up_result -> copy_event -> Copy up_result := copy_step NodeLeft None up_write_end.

(** What the pump reads: a header and, if the length is acceptable, the payload. *)
Definition pump_read (s : list Read) : stream_read * list Read :=
  match fill true 5 [] s with
  | (Filled, hdr, s) =>
      let len := frame_len hdr in
      if MAX_LIVE_FRAME <? len then (Header len (byte_at hdr 4) PayloadError, s)
      else
        match fill true (Z.to_nat len) [] s with
        | (Filled, p, s) => (Header len (byte_at hdr 4) (Payload p), s)
        | (Elapsed, _, s) => (Header len (byte_at hdr 4) PayloadTimeout, s)
        | (_, _, s) => (Header len (byte_at hdr 4) PayloadError, s)
        end
  | (Elapsed, _, s) => (HeaderTimeout, s)
  | (_, _, s) => (HeaderError, s)
  end.

Inductive serve_event :=
| VGreeting (w : write_result) (part : nat)
| VPrefetched (fr : FreshestRound) (tip floor now : Z)
| VStart (now : Z)
| VAcquire
| VPush
| VPump (fr : FreshestRound) (tip floor now : Z) (io : string)
| VPumpGone (join_error : string)
| VUp (e : copy_event)
| VRecv
| VWritten (w : write_result) (part : nat)
| VStallTick (fresh : option Z) (now : Z)
| VJoined (e : push_event).

Section Serve.
Context `{HashOrder} (lz4_decompress : bytes -> option bytes).

(** The next prefetched frame. *)
Definition serve_prefetched (s : Serve) (f : bytes) (rest : list bytes) (fr : FreshestRound) (tip floor now : Z) : Serve :=
  let '(v, st, _) := process_live_frame lz4_decompress (sv_push s) fr f tip floor now in
  match v with
  | Cut e => sv_end s ("prefetched frame processing failed: " +:+ pump_error_text "" e)
  | _ => sv_judged s (Prefetching rest) v st f floor
  end.

(** The pump's task has ended. *)
Definition sv_pump_over (s : Serve) (st : PushState) (sock : list Read) (r : active_result) : Serve :=
  mkServe (sv_phase s) st (sv_hand s) (sv_queue s) (sv_up s) (Some r) (sv_stall s) sock
    (sv_greeted s) (sv_node s) (sv_partial s) (sv_log s) (sv_seen s) (sv_frames s).

(** One iteration of the pump. *)
Definition serve_pump (s : Serve) (fr : FreshestRound) (tip floor now : Z) (io : string) : Serve :=
  let '(rd, sock) := pump_read (sv_sock s) in
  let '(v, st, f) := pump_step lz4_decompress (sv_push s) (mkTick rd tip floor (backed_up (sv_queue s)) now fr) in
  match v, f with
  | Cut e, _ => sv_pump_over s st sock (StreamError (pump_error_text io e))
  | _, Some f =>
      sv_judged (mkServe (sv_phase s) (sv_push s) (sv_hand s) (sv_queue s) (sv_up s) (sv_active s) (sv_stall s) sock
                   (sv_greeted s) (sv_node s) (sv_partial s) (sv_log s) (sv_seen s) (sv_frames s ++ [f]))
        Running v st f floor
  | _, None => s
  end.

(** A branch of the select loop other than the writes: it runs while no write is under way. *)
Definition serve_select (s : Serve) (e : push_event) : Serve :=
  if bool_decide (q_writing (sv_queue s) = []) then
    match select_step (bool_decide (is_Some (own_feed (sv_push s)))) (sv_stall s) e with
    | inl reason => sv_end s (session_reason reason (stats (sv_push s)))
    | inr st =>
        mkServe (sv_phase s) (sv_push s) (sv_hand s) (sv_queue s) (sv_up s) (sv_active s) st (sv_sock s)
          (sv_greeted s) (sv_node s) (sv_partial s) (sv_log s) (sv_seen s) (sv_frames s)
    end
  else s.

(** A branch of the select loop is ready only when its task has ended that way. *)
Definition joined_ready (s : Serve) (e : push_event) : bool :=
  match e with
  | EvSuperseded | EvBlacklisted | EvEndWhen _ | EvLagLog _ | EvUp (UpJoinError _) => true
  | EvUp r => bool_decide (cp_end (sv_up s) = Some r)
  | EvActive r => bool_decide (sv_active s = Some r)
  | EvNodeWrite _ | EvStallTick _ => false
  end.

(** The end of the write of the frame the loop took. *)
Definition serve_written (s : Serve) (w : write_result) (part : nat) : Serve :=
  match q_written (sv_queue s) with
  | None => s
  | Some (f, q) =>
      let s' := mkServe (sv_phase s) (sv_push s) (sv_hand s) (match w with WriteOk => q | _ => sv_queue s end) (sv_up s)
                  (sv_active s) (sv_stall s) (sv_sock s) (sv_greeted s)
                  (match w with WriteOk => sv_node s ++ [f] | _ => sv_node s end)
                  (match w with WriteOk => sv_partial s | _ => take part f end) (sv_log s) (sv_seen s) (sv_frames s) in
      match select_step (bool_decide (is_Some (own_feed (sv_push s)))) (sv_stall s) (EvNodeWrite w) with
      | inl reason => sv_end s' (session_reason reason (stats (sv_push s)))
      | inr _ => s'
      end
  end.

Definition serve_push (cfg : PushConfig) (s : Serve) (e : serve_event) : Serve :=
  match sv_phase s, e with
  | Greeting, VGreeting w part =>
      match greeting_target (prefetched_greeting cfg) (sv_sock s) with
      | inl reason => sv_end s reason
      | inr (g, sock) =>
          match write_greeting w with
          | Some reason => sv_end (sv_set_phase s Greeting (sv_push s) (take part g) sock) reason
          | None => sv_set_phase s (Prefetching (prefetched_frames cfg)) (sv_push s) g sock
          end
      end
  | Prefetching (f :: rest), VPrefetched fr tip floor now =>
      if sv_idle s then serve_prefetched s f rest fr tip floor now else s
  | Prefetching [], VStart now =>
      if sv_idle s then
        let st := sv_push s in
        sv_set_phase s Running
          (mkPush (gate st) (active_round st) (BlockProgress_new (active_round st) now) (stats st) (own_feed st))
          (sv_greeted s) (sv_sock s)
      else s
  | (Prefetching _ | Running), VAcquire =>
      match sv_hand s with
      | Some f => match q_acquire (sv_queue s) f with Some q => sv_set_queue s None q | None => s end
      | None => s
      end
  | (Prefetching _ | Running), VPush =>
      match q_push (sv_queue s) with Some q => sv_set_queue s (sv_hand s) q | None => s end
  | (Prefetching _ | Running), VUp e =>
      mkServe (sv_phase s) (sv_push s) (sv_hand s) (sv_queue s) (up_step (sv_up s) e) (sv_active s) (sv_stall s)
        (sv_sock s) (sv_greeted s) (sv_node s) (sv_partial s) (sv_log s) (sv_seen s) (sv_frames s)
  | Running, VPump fr tip floor now io =>
      if sv_idle s && bool_decide (sv_active s = None) then serve_pump s fr tip floor now io else s
  | Running, VPumpGone e =>
      match sv_active s with None => sv_pump_over s (sv_push s) (sv_sock s) (ActiveJoinError e) | Some _ => s end
  | Running, VRecv => match q_recv (sv_queue s) with Some q => sv_set_queue s (sv_hand s) q | None => s end
  | Running, VWritten w part => serve_written s w part
  | Running, VStallTick fresh now =>
      let own := match own_feed (sv_push s) with Some h => f_own h | None => 0 end in
      serve_select s (EvStallTick (mkObs own fresh (backed_up (sv_queue s)) now))
  | Running, VJoined e => if joined_ready s e then serve_select s e else s
  | _, _ => s
  end.

Definition run_serve (cfg : PushConfig) (sock : list Read) (now : Z) (evs : list serve_event) : Serve :=
  foldl (serve_push cfg) (serve_start cfg sock now) evs.
End Serve.

(** The node's floor, as a step reads it. *)
Definition event_floor (e : serve_event) : option Z :=
  match e with VPrefetched _ _ floor _ | VPump _ _ floor _ _ => Some floor | _ => None end.

(** Everything the node has received. *)
Definition node_bytes (s : Serve) : bytes := sv_greeted s ++ concat (sv_node s) ++ sv_partial s.

(** ** Lemmas: one frame at the gates *)

Section ServeLemmas.
Context `{HashOrder} (lz4_decompress : bytes -> option bytes).

(** The round of a block frame. *)
Definition frame_round (f : bytes) : option Z :=
  if byte_at f 4 =? 1 then block_round lz4_decompress (drop 5 f) else None.

(** The specification of the gates, on frames with the floors read for them: a frame without a round
    passes; a block passes if its round is above the floor and above every block that passed. *)
Fixpoint gated (last : Z) (l : list (bytes * Z)) : list bytes :=
  match l with
  | [] => []
  | (f, floor) :: l =>
      match frame_round f with
      | None => f :: gated last l
      | Some r => if (r <=? floor) || (r <=? last) then gated last l else f :: gated r l
      end
  end.

(** The last round that passed. *)
Fixpoint gated_last (last : Z) (l : list (bytes * Z)) : Z :=
  match l with
  | [] => last
  | (f, floor) :: l =>
      match frame_round f with
      | Some r => gated_last (if (r <=? floor) || (r <=? last) then last else r) l
      | None => gated_last last l
      end
  end.

Lemma gated_app last l l' : gated last (l ++ l') = gated last l ++ gated (gated_last last l) l'.
Proof.
  revert last. induction l as [|[f floor] l IH]; intros last; [done|]. cbn [app gated gated_last].
  destruct (frame_round f) as [r|]; [destruct (_ || _)|]; cbn [app]; by rewrite IH.
Qed.

Lemma gated_last_app last l l' : gated_last last (l ++ l') = gated_last (gated_last last l) l'.
Proof.
  revert last. induction l as [|[f floor] l IH]; intros last; [done|]. cbn [app gated_last].
  by destruct (frame_round f); rewrite IH.
Qed.

Lemma gated_sublist last l : gated last l `sublist_of` l.*1.
Proof.
  revert last. induction l as [|[f floor] l IH]; intros last; cbn; [done|].
  destruct (frame_round f) as [r|]; [destruct (_ || _)|]; [by apply sublist_cons|by apply sublist_skip..].
Qed.

Lemma gated_sorted last l : StronglySorted Z.lt (last :: omap frame_round (gated last l)).
Proof.
  revert last. induction l as [|[f floor] l IH]; intros last; cbn [gated]; [repeat constructor|].
  destruct (frame_round f) as [r|] eqn:E; [destruct (_ || _) eqn:Eg; [done|]|]; cbn [omap list_omap]; rewrite E; [|done].
  zify_bool. constructor; [done|]. constructor; [done|]. pose proof (IH r) as [_ Hr]%StronglySorted_inv.
  eapply Forall_impl; [exact Hr|]. cbn. lia.
Qed.

Definition judged (st : PushState) (floor : Z) (f : bytes) (v : Verdict) (st' : PushState) : Prop :=
  gate_inv (gate st') /\
  match v with
  | Cut _ => gate st' = gate st
  | _ =>
      gated (gate_last (gate st)) [(f, floor)] = match v with Forwarded _ => [f] | _ => [] end /\
      gate_last (gate st') = gated_last (gate_last (gate st)) [(f, floor)]
  end.

Lemma judged_plain st st' floor f k :
  gate_inv (gate st) -> gate st' = gate st -> frame_round f = None -> judged st floor f (Forwarded k) st'.
Proof. intros Hg E Hf. unfold judged. cbn. by rewrite Hf, E. Qed.

Lemma floor_and_gate_judged st st0 f rnd floor :
  gate_inv (gate st) -> gate st = gate st0 -> 0 <= rnd -> frame_round f = Some rnd ->
  judged st0 floor f (floor_and_gate st f rnd floor).1 (floor_and_gate st f rnd floor).2.
Proof.
  intros Hg E Hr Hf. unfold floor_and_gate, judged. cbn [gated gated_last]. rewrite Hf, <- E.
  destruct (Z.leb_spec rnd floor); cbn; [by eauto|].
  destruct (should_forward_active (gate st) rnd Hg Hr) as (H1 & H2 & H3).
  destruct (should_forward (gate st) rnd true) as [ok g]. cbn in *. subst ok.
  destruct (Z.ltb_spec (gate_last (gate st)) rnd), (Z.leb_spec rnd (gate_last (gate st))); try lia; cbn; by split_and!; try lia.
Qed.

Lemma frame_round_cases f :
  (byte_at f 4 =? 1) = false /\ frame_round f = None \/
  (byte_at f 4 =? 1) = true /\ frame_round f = block_round lz4_decompress (drop 5 f).
Proof. unfold frame_round. destruct (byte_at f 4 =? 1); auto. Qed.

Lemma process_judged st fr f tip floor now :
  gate_inv (gate st) ->
  let '(v, st', _) := process_live_frame lz4_decompress st fr f tip floor now in judged st floor f v st'.
Proof.
  intros Hg. unfold process_live_frame. destruct (_ <? 5)%nat; [done|]. destruct (negb (frame_len f =? _)); [done|].
  destruct (frame_round_cases f) as [[-> Hf]|[-> Hf]]; cbn [negb]; [by apply judged_plain|].
  destruct (block_round lz4_decompress (drop 5 f)) as [rnd|] eqn:Er; [|by eapply judged_plain].
  destruct (is_plausible_mainnet_round rnd tip) eqn:Ep; cbn [negb]; [|done].
  apply is_plausible_nonneg in Ep. destruct (_ && _); [done|].
  destruct (offer_round st fr tip rnd now) as [h fr']. destruct (round_lag_from_tip _ _ _); [done|].
  set (st1 := mkPush _ _ _ _ _). pose proof (floor_and_gate_judged st1 st f rnd floor Hg eq_refl Ep Hf) as Hj.
  by destruct (floor_and_gate st1 f rnd floor).
Qed.

Lemma pump_frame_judged st fr f tip floor backed now :
  gate_inv (gate st) ->
  let '(v, st', _) := pump_frame lz4_decompress st fr f tip floor backed now in judged st floor f v st'.
Proof.
  intros Hg. unfold pump_frame.
  destruct (frame_round_cases f) as [[-> Hf]|[-> Hf]]; cbn [negb]; [by apply judged_plain|].
  destruct (block_round lz4_decompress (drop 5 f)) as [rnd|] eqn:Er; [|by eapply judged_plain].
  destruct (is_plausible_mainnet_round rnd tip) eqn:Ep; cbn [negb]; [|done].
  apply is_plausible_nonneg in Ep. destruct (on_round _ _ _) as [p|]; [|done].
  destruct (offer_round st fr tip rnd now) as [h fr']. destruct (match h with Some _ => _ | None => _ end) as [[b|] p']; [done|].
  destruct (round_lag_from_tip _ _ _); [done|].
  set (st1 := mkPush _ _ _ _ _). pose proof (floor_and_gate_judged st1 st f rnd floor Hg eq_refl Ep Hf) as Hj.
  by destruct (floor_and_gate st1 f rnd floor).
Qed.

Lemma pump_step_judged st t :
  gate_inv (gate st) ->
  let '(v, st', f) := pump_step lz4_decompress st t in
  match v with
  | Cut _ => gate st' = gate st
  | _ => exists f', f = Some f' /\ tick_frame t = Some f' /\ judged st (t_floor t) f' v st'
  end.
Proof.
  intros Hg. unfold pump_step, tick_frame. set (p := if t_backed t then _ else _). set (st0 := mkPush _ _ p _ _).
  destruct (stalled p (t_now t)); [done|].
  destruct (t_read t) as [| |len typ [| |b]]; [done|done|by destruct (_ <? _)|by destruct (_ <? _)|].
  destruct (_ <? _); [done|].
  pose proof (pump_frame_judged st0 (t_fresh t) (make_frame len typ b) (t_tip t) (t_floor t) (t_backed t) (t_now t) Hg) as Hj.
  destruct (pump_frame _ _ _ _ _ _ _ _) as [[v st'] fr']. destruct v; [apply Hj|..]; eexists; by split_and!.
Qed.

(** ** Lemmas: the socket *)

Lemma pump_read_data s len typ p s' :
  Forall is_byte (data s) -> pump_read s = (Header len typ (Payload p), s') ->
  make_frame len typ p ++ data s' = data s /\ Forall is_byte (data s') /\ framed MAX_LIVE_FRAME (make_frame len typ p).
Proof.
  intros Hb. unfold pump_read. destruct (fill true 5 [] s) as [[[] hdr] s1] eqn:E1; try done.
  destruct (Z.ltb_spec MAX_LIVE_FRAME (frame_len hdr)) as [|Hm]; [done|].
  destruct (fill true _ [] s1) as [[[] q] s2] eqn:E2; try done. intros [= <- <- <- <-].
  destruct (filled_frame MAX_LIVE_FRAME s hdr s1 q s2 Hb E1 Hm E2) as (H1 & H2 & H3 & H4 & H5).
  assert (E : hdr ++ q = make_frame (frame_len hdr) (byte_at hdr 4) q); [|by rewrite <- E].
  rewrite (header_payload hdr q H4 H5). unfold make_frame, encode_frame. by rewrite H5.
Qed.

(** ** The session's invariant *)

(** What passed the gates is what the specification lets through. *)
Definition stream_ok (initial : Z) (s : Serve) : Prop :=
  gate_inv (gate (sv_push s)) /\ sv_log s = gated initial (sv_seen s) /\
  gate_last (gate (sv_push s)) = gated_last initial (sv_seen s).

(** Where it is: with the node, queued, or about to be sent. *)
Definition queued_ok (s : Serve) : Prop :=
  queue_inv PUSH_MERGE_QUEUE_FRAMES (sv_queue s, sv_node s ++ (held (sv_queue s)).*1, sv_node s) /\
  sv_log s = sv_node s ++ (held (sv_queue s)).*1 ++ option_list (sv_hand s) /\
  (sv_partial s = [] \/
   (exists reason, sv_phase s = Ended reason) /\
   exists f rest part, (held (sv_queue s)).*1 = f :: rest /\ sv_partial s = take part f).

(** The greeting of the session; [own] is the one read from the socket, if it is read there. *)
Definition greeting_of (cfg : PushConfig) (own : bytes) : bytes := default own (prefetched_greeting cfg).

(** What the node was greeted with: all of it before anything else is sent. *)
Definition greeted (g : bytes) (s : Serve) : Prop :=
  match sv_phase s with
  | Greeting => sv_greeted s = [] /\ sv_node s = [] /\ sv_partial s = []
  | Ended _ => sv_greeted s = g \/ sv_greeted s `prefix_of` g /\ sv_node s = [] /\ sv_partial s = []
  | _ => sv_greeted s = g
  end.

(** What of the socket is the greeting. *)
Definition own_ok (cfg : PushConfig) (sock0 : list Read) (own : bytes) : Prop :=
  match prefetched_greeting cfg with
  | Some _ => own = []
  | None => own = [] \/ exists rest, frames_of PUSH_GREETING_MAX (data sock0) = own :: rest
  end.

(** Where it comes from: the prefetched frames, then the frames of the socket. *)
Definition source_ok (cfg : PushConfig) (sock0 : list Read) (s : Serve) : Prop :=
  (exists pre rest, prefetched_frames cfg = pre ++ rest /\ (sv_seen s).*1 = pre ++ sv_frames s /\
     (rest = [] \/ sv_frames s = []) /\
     match sv_phase s with
     | Greeting => pre = [] /\ sv_frames s = []
     | Prefetching l => l = rest /\ sv_frames s = []
     | Running => rest = []
     | Ended _ => True
     end) /\
  (exists own stream later, own_ok cfg sock0 own /\ greeted (greeting_of cfg own) s /\ data sock0 = own ++ stream /\
     (sv_phase s = Greeting -> own = [] /\ sv_active s = None) /\
     stream = concat (sv_frames s) ++ later /\
     frames_of MAX_LIVE_FRAME stream = sv_frames s ++ frames_of MAX_LIVE_FRAME later /\ Forall is_byte later /\
     (sv_active s = None -> (forall r, sv_phase s <> Ended r) -> later = data (sv_sock s))).

Definition serve_inv (cfg : PushConfig) (sock0 : list Read) (s : Serve) : Prop :=
  stream_ok (initial_last_forwarded cfg) s /\ queued_ok s /\ source_ok cfg sock0 s.

(** A judged frame keeps the stream to the specification. *)
Lemma stream_judged initial s p v st f floor :
  (forall e, v <> Cut e) -> judged (sv_push s) floor f v st -> stream_ok initial s ->
  stream_ok initial (sv_judged s p v st f floor).
Proof.
  intros Hv [Hg Hj] (_ & Hs & Hm). unfold stream_ok, sv_judged. cbn [sv_push sv_log sv_seen].
  rewrite gated_app, gated_last_app, <- Hm, <- Hs.
  destruct v as [e| |k]; [by destruct (Hv e)|..]; destruct Hj as [-> ->]; by rewrite ?app_nil_r.
Qed.

Lemma sv_idle_true s : sv_idle s = true -> sv_hand s = None /\ q_waiting (sv_queue s) = [].
Proof. unfold sv_idle. intros H1. zify_bool. done. Qed.

Lemma queued_judged s p v st f floor :
  sv_partial s = [] -> sv_hand s = None -> queued_ok s -> queued_ok (sv_judged s p v st f floor).
Proof.
  intros Hp Hh (Hq & Hl & _). unfold queued_ok, sv_judged.
  cbn [sv_queue sv_node sv_log sv_hand sv_partial]. rewrite Hh in Hl. cbn in Hl. rewrite app_nil_r in Hl.
  split_and!; [done| |by left]. destruct v; cbn; rewrite ?app_nil_r, ?Hl; [done|done|]. by rewrite <- app_assoc.
Qed.

(** A step of the queue itself: nothing is lost or reordered. *)
Lemma queue_kept q q' node f hand :
  queue_inv PUSH_MERGE_QUEUE_FRAMES (q, node ++ (held q).*1, node) ->
  queue_step (q, node ++ (held q).*1, node) f = (q', hand, node) ->
  queue_inv PUSH_MERGE_QUEUE_FRAMES (q', hand, node) /\ hand = node ++ (held q').*1.
Proof.
  intros Hi E. apply (queue_step_inv _ _ f) in Hi. rewrite E in Hi. split; [done|]. by destruct Hi as (_ & _ & _ & _ & _ & _ & ?).
Qed.

Lemma concat_snoc {A} (l : list (list A)) x : concat (l ++ [x]) = concat l ++ x.
Proof. rewrite concat_app. cbn. by rewrite app_nil_r. Qed.

Lemma partial_running s : queued_ok s -> (forall r, sv_phase s <> Ended r) -> sv_partial s = [].
Proof. intros (_ & _ & [?|[[r ?] _]]) Hn; [done|]. by destruct (Hn r). Qed.

(** Before it ends, a session past its greeting has sent all of it. *)
Lemma greeted_full g s : greeted g s -> sv_phase s <> Greeting -> (forall r, sv_phase s <> Ended r) -> sv_greeted s = g.
Proof. unfold greeted. intros Hg Hp He. destruct (sv_phase s) as [| | |r]; [done|done|done|by destruct (He r)]. Qed.

Lemma greeted_keeps g s s' :
  greeted g s -> sv_phase s <> Greeting -> (forall r, sv_phase s <> Ended r) -> sv_phase s' <> Greeting ->
  sv_greeted s' = sv_greeted s -> greeted g s'.
Proof.
  intros Hg Hp He Hp' E. pose proof (greeted_full g s Hg Hp He) as Hf. unfold greeted. rewrite E.
  destruct (sv_phase s'); [done|done|done|by left].
Qed.

(** Steps that leave the stream, the queue and the source alone. *)
Lemma serve_inv_ended cfg sock0 s r : serve_inv cfg sock0 s -> serve_inv cfg sock0 (sv_end s r).
Proof.
  intros (Hs & (Hq & Hl & Hp) & (pre & rest & E1 & E2 & E3 & _) & (own & stream & later & K1 & K2 & K3 & K4 & K5 & K6 & K7 & K8)).
  split_and!; [exact Hs| |].
  - split_and!; [exact Hq|exact Hl|]. destruct Hp as [?|[_ ?]]; [by left|right]. split; [by eexists|done].
  - split; [by exists pre, rest|]. exists own, stream, later. split_and!; try done.
    + unfold greeted in *. cbn. destruct (sv_phase s); [|by left..|done]. destruct K2 as (-> & ? & ?). right.
      split_and!; [apply prefix_nil|done|done].
    + intros _ He. by destruct (He r).
Qed.

Lemma serve_inv_other cfg sock0 s up st :
  serve_inv cfg sock0 s ->
  serve_inv cfg sock0 (mkServe (sv_phase s) (sv_push s) (sv_hand s) (sv_queue s) up (sv_active s) st (sv_sock s)
    (sv_greeted s) (sv_node s) (sv_partial s) (sv_log s) (sv_seen s) (sv_frames s)).
Proof. done. Qed.

Lemma serve_inv_queue cfg sock0 s q hand f :
  sv_partial s = [] ->
  queue_step (sv_queue s, sv_node s ++ (held (sv_queue s)).*1, sv_node s) f =
    (q, sv_node s ++ (held (sv_queue s)).*1 ++ option_list (sv_hand s), sv_node s) /\ hand = None \/
  queue_step (sv_queue s, sv_node s ++ (held (sv_queue s)).*1, sv_node s) f =
    (q, sv_node s ++ (held (sv_queue s)).*1, sv_node s) /\ hand = sv_hand s ->
  serve_inv cfg sock0 s -> serve_inv cfg sock0 (sv_set_queue s hand q).
Proof.
  intros Hp Hf (Hs & (Hq & Hl & _) & Hsrc). split_and!; [exact Hs| |exact Hsrc].
  unfold queued_ok. cbn [sv_queue sv_node sv_log sv_hand sv_partial sv_set_queue].
  destruct Hf as [[E ->]|[E ->]].
  - destruct (queue_kept _ _ _ _ _ Hq E) as [Hq' E']. rewrite E' in Hq'. split_and!; [done| |by left].
    cbn. by rewrite app_nil_r, <- E'.
  - destruct (queue_kept _ _ _ _ _ Hq E) as [Hq' E']. rewrite E' in Hq'. split_and!; [done| |by left].
    rewrite Hl, app_assoc, E', <- app_assoc. done.
Qed.

Lemma serve_prefetched_inv cfg sock0 s f rest fr tip floor now :
  sv_phase s = Prefetching (f :: rest) -> sv_idle s = true -> serve_inv cfg sock0 s ->
  serve_inv cfg sock0 (serve_prefetched lz4_decompress s f rest fr tip floor now).
Proof.
  intros Hph [Hh _]%sv_idle_true Hi.
  pose proof Hi as (Hs & Hq & (pre & rest' & E1 & E2 & _ & E3) & (own & stream & later & K1 & K2 & K3 & K4 & K5 & K6 & K7 & K8)).
  unfold serve_prefetched. pose proof (process_judged (sv_push s) fr f tip floor now (proj1 Hs)) as Hj.
  destruct (process_live_frame _ _ _ _ _ _ _) as [[v st] fr']. rewrite Hph in E3. destruct E3 as [<- Ef].
  assert (Hp : sv_partial s = []) by (apply partial_running; [done|by rewrite Hph]).
  assert (Hsrc : source_ok cfg sock0 (sv_judged s (Prefetching rest) v st f floor)).
  { split.
    - exists (pre ++ [f]), rest. cbn. rewrite fmap_app, E1, E2, Ef, !app_nil_r, <- app_assoc. split_and!; auto.
    - exists own, stream, later. split_and!; try done; cbn [sv_judged sv_active sv_phase sv_sock].
      + by eapply greeted_keeps; [exact K2|rewrite Hph..| |].
      + intros Ha _. apply K8; [done|by rewrite Hph]. }
  destruct v as [e| |k]; [by apply serve_inv_ended|..];
    (split_and!; [by apply stream_judged|by apply queued_judged|done]).
Qed.

Lemma serve_pump_inv cfg sock0 s fr tip floor now io :
  sv_phase s = Running -> sv_idle s = true -> sv_active s = None -> serve_inv cfg sock0 s ->
  serve_inv cfg sock0 (serve_pump lz4_decompress s fr tip floor now io).
Proof.
  intros Hph [Hh _]%sv_idle_true Ha Hi.
  pose proof Hi as (Hs & Hq & (pre & rest & E1 & E2 & _ & E3) & (own & stream & later & K1 & K2 & K3 & K4 & K5 & K6 & K7 & K8)).
  rewrite Hph in E3. subst rest. rewrite (K8 Ha) in * by (by rewrite Hph). clear K8 later.
  unfold serve_pump. destruct (pump_read (sv_sock s)) as [rd sock] eqn:Er.
  set (t := mkTick _ _ _ _ _ _). pose proof (pump_step_judged (sv_push s) t (proj1 Hs)) as Hj.
  destruct (pump_step lz4_decompress (sv_push s) t) as [[v st] f].
  assert (Hp : sv_partial s = []) by (apply partial_running; [done|by rewrite Hph]).
  assert (Hkeep : forall s', sv_phase s' = Running -> sv_greeted s' = sv_greeted s -> greeted (greeting_of cfg own) s')
    by (intros s' Ep Eg; eapply greeted_keeps; [exact K2|by rewrite Hph|by rewrite Hph|by rewrite Ep|done]).
  destruct v as [e| |k].
  { unfold sv_pump_over. split_and!.
    - destruct Hs as (Hg & ? & ?). unfold stream_ok. cbn. rewrite Hj. by split_and!.
    - exact Hq.
    - split; [exists pre, []; cbn; rewrite Hph; split_and!; auto|]. exists own, stream, (data (sv_sock s)).
      split_and!; try done. cbn. by rewrite Hph. }
  all: destruct Hj as (f' & -> & Hf & Hj); unfold t, tick_frame in Hf; cbn [t_read] in Hf;
    destruct rd as [| |len typ [| |b]]; try done; injection Hf as <-;
    destruct (pump_read_data _ _ _ _ _ K7 Er) as (Hd & Hb' & Hfr);
    set (s1 := mkServe _ _ _ _ _ _ _ _ _ _ _ _ _ _).
  all: split_and!; [by apply stream_judged|by apply queued_judged|].
  all: split; [exists pre, []; unfold s1; cbn; rewrite fmap_app, E2, <- app_assoc; split_and!; auto|].
  all: exists own, stream, (data sock); split_and!; try done; [by apply Hkeep|..]; unfold s1; cbn [sv_frames sv_judged].
  all: try (by rewrite concat_snoc, <- app_assoc, Hd); rewrite K6, <- Hd, frames_of_cons by done; by rewrite <- app_assoc.
Qed.

Lemma serve_written_inv cfg sock0 s w part :
  sv_phase s = Running -> serve_inv cfg sock0 s -> serve_inv cfg sock0 (serve_written s w part).
Proof.
  intros Hph Hi. pose proof Hi as (Hs & (Hq & Hl & _) & Hsrc). unfold serve_written.
  assert (Hp : sv_partial s = []) by (apply partial_running; [apply Hi|by rewrite Hph]).
  destruct (q_written (sv_queue s)) as [[f q]|] eqn:Ew; [|done].
  pose proof (queue_step_inv _ _ QWritten Hq) as Hq'. cbn [queue_step] in Hq'. rewrite Ew in Hq'.
  assert (Hhd : exists rest, (held (sv_queue s)).*1 = f :: rest).
  { unfold q_written in Ew. unfold held. destruct (q_writing (sv_queue s)) as [|[f' n] l]; [done|].
    injection Ew as <- _. cbn. by eexists. }
  destruct Hhd as [rest Hhd].
  assert (Hsrc' : forall s', sv_phase s' = Running \/ (exists r, sv_phase s' = Ended r) -> sv_greeted s' = sv_greeted s ->
    sv_frames s' = sv_frames s -> sv_seen s' = sv_seen s -> sv_active s' = sv_active s -> sv_sock s' = sv_sock s ->
    source_ok cfg sock0 s').
  { destruct Hsrc as [(pre & rest' & E1 & E2 & E3 & E4) (own & stream & later & K1 & K2 & K3 & K4 & K5 & K6 & K7 & K8)].
    rewrite Hph in E4. intros s' Ep Eg F1 F2 F3 F4. split.
    - exists pre, rest'. rewrite F1, F2. split_and!; try done. by destruct Ep as [->|[r ->]].
    - exists own, stream, later. rewrite F1, F3, F4. split_and!; try done.
      + eapply greeted_keeps; [exact K2|by rewrite Hph|by rewrite Hph| |done]. by destruct Ep as [->|[r ->]].
      + intros E. by destruct Ep as [Ep|[r Ep]]; rewrite Ep in E.
      + intros Ha _. apply K8; [done|by rewrite Hph]. }
  destruct w as [|e|]; cbn [select_step].
  - split_and!; [exact Hs| |by apply Hsrc'; [left|..]]. unfold queued_ok. cbn [sv_queue sv_node sv_log sv_hand sv_partial].
    assert (E : sv_node s ++ (held (sv_queue s)).*1 = (sv_node s ++ [f]) ++ (held q).*1)
      by (by destruct Hq' as (_ & _ & _ & _ & _ & _ & ?)).
    rewrite <- E. split_and!; [done| |by left]. rewrite Hl, !app_assoc, E. done.
  - split_and!; [exact Hs| |apply Hsrc'; [right; by eexists|done..]].
    split_and!; [exact Hq|exact Hl|right; split; [by eexists|by exists f, rest, part]].
  - split_and!; [exact Hs| |apply Hsrc'; [right; by eexists|done..]].
    split_and!; [exact Hq|exact Hl|right; split; [by eexists|by exists f, rest, part]].
Qed.

Lemma serve_select_inv cfg sock0 s e : serve_inv cfg sock0 s -> serve_inv cfg sock0 (serve_select s e).
Proof.
  intros Hi. unfold serve_select. case_bool_decide; [|done].
  destruct (select_step _ _ _); [by apply serve_inv_ended|by apply serve_inv_other].
Qed.

(** The greeting that is forwarded, and what it leaves of the socket. *)
Lemma greeting_target_own cfg sock g sock' :
  Forall is_byte (data sock) -> greeting_target (prefetched_greeting cfg) sock = inr (g, sock') ->
  exists own, own_ok cfg sock own /\ greeting_of cfg own = g /\ data sock = own ++ data sock' /\ Forall is_byte (data sock').
Proof.
  intros Hb. unfold greeting_target, own_ok, greeting_of. destruct (prefetched_greeting cfg) as [g'|].
  - intros [= -> <-]. by exists [].
  - destruct (read_live_frame_with_timeout _ _) as [[e|f] s1] eqn:Er; [done|].
    destruct (response_is_peer_full f); [done|]. intros [= -> ->].
    destruct (read_frame_data _ _ _ _ Hb Er) as (E & Hb' & Hf). exists g. split_and!; [|done|done|done].
    right. rewrite <- E, frames_of_cons by done. by eexists.
Qed.

(** The greeting is taken: the session goes on to the prefetched frames, or ends. *)
Lemma serve_greeting_inv cfg sock0 s w part :
  sv_phase s = Greeting -> serve_inv cfg sock0 s -> serve_inv cfg sock0 (serve_push lz4_decompress cfg s (VGreeting w part)).
Proof.
  intros Hph Hi. unfold serve_push. rewrite Hph.
  pose proof Hi as (Hs & Hq & (pre & rest & E1 & E2 & E0 & E3) & (own & stream & later & K1 & K2 & K3 & K4 & K5 & K6 & K7 & K8)).
  rewrite Hph in E3. destruct E3 as [-> Ef]. destruct (K4 Hph) as [-> Ha]. rewrite Ef in *. cbn [concat app] in K3, K5.
  specialize (K8 Ha ltac:(by rewrite Hph)). rewrite K8 in K5, K6, K7. rewrite K5 in K3. clear K8 later.
  destruct (greeting_target _ _) as [reason|[g sock]] eqn:Eg; [by apply serve_inv_ended|].
  assert (Hp : sv_partial s = []) by (apply partial_running; [done|by rewrite Hph]).
  assert (Hn : sv_node s = []) by (unfold greeted in K2; rewrite Hph in K2; apply K2).
  destruct (greeting_target_own cfg (sv_sock s) g sock K7 Eg) as (own & O1 & O2 & O3 & O4).
  assert (Hown : own_ok cfg sock0 own) by (unfold own_ok in *; by rewrite K3).
  destruct Hq as (Q1 & Q2 & Q3).
  destruct (write_greeting w) as [reason|]; (split_and!; [exact Hs|split_and!; [exact Q1|exact Q2|by left]|split]).
  - exists [], rest. cbn. rewrite Ef. split_and!; auto.
  - exists own, (data sock), (data sock). cbn. rewrite Ef. split_and!; try done; [|by rewrite K3].
    right. rewrite O2. split_and!; [apply prefix_take|done|done].
  - exists [], rest. cbn. rewrite Ef. split_and!; auto.
  - exists own, (data sock), (data sock). cbn. rewrite Ef. by split_and!; try done; rewrite K3.
Qed.

Lemma serve_running_inv cfg sock0 s st :
  sv_phase s = Prefetching [] -> gate st = gate (sv_push s) -> serve_inv cfg sock0 s ->
  serve_inv cfg sock0 (sv_set_phase s Running st (sv_greeted s) (sv_sock s)).
Proof.
  intros Hph Hg Hi. pose proof Hi as (Hs & Hq & (pre & rest & E1 & E2 & E0 & E3) & (own & stream & later & K1 & K2 & K3 & K4 & K5 & K6 & K7 & K8)).
  rewrite Hph in E3. destruct E3 as [<- Ef]. split_and!.
  - unfold stream_ok. cbn. by rewrite Hg.
  - pose proof (partial_running s Hq ltac:(by rewrite Hph)). destruct Hq as (? & ? & _). split_and!; [done|done|by left].
  - split; [exists pre, []; cbn; by split_and!; [| |left|]|]. exists own, stream, later.
    split_and!; try done; [|by intros Ha _; apply K8; [|rewrite Hph]].
    eapply greeted_keeps; [exact K2|by rewrite Hph..| |]; done.
Qed.

Lemma serve_push_inv cfg sock0 s e : serve_inv cfg sock0 s -> serve_inv cfg sock0 (serve_push lz4_decompress cfg s e).
Proof.
  intros Hi. destruct (sv_phase s) as [|l| |r] eqn:Hph.
  { destruct e; try (by unfold serve_push; rewrite Hph). by apply serve_greeting_inv. }
  3:{ by unfold serve_push; rewrite Hph. }
  all: unfold serve_push; rewrite Hph.
  - assert (Hp : sv_partial s = []) by (apply partial_running; [apply Hi|by rewrite Hph]).
    destruct e; try (by destruct l).
    + destruct l as [|f rest]; [done|]. destruct (sv_idle s) eqn:Ei; [|done]. by apply serve_prefetched_inv.
    + destruct l; [|done]. destruct (sv_idle s); [|done]. by apply serve_running_inv.
    + destruct (sv_hand s) as [f|] eqn:Eh; [|by destruct l]. destruct (q_acquire _ _) as [q|] eqn:Eq; [|by destruct l].
      assert (serve_inv cfg sock0 (sv_set_queue s None q)); [|by destruct l].
      apply (serve_inv_queue _ _ _ _ _ (QAcquire f)); [done| |done]. left. split; [|done]. cbn.
      by rewrite Eq, Eh, <- app_assoc.
    + destruct (q_push _) as [q|] eqn:Eq; [|by destruct l].
      assert (serve_inv cfg sock0 (sv_set_queue s (sv_hand s) q)); [|by destruct l].
      apply (serve_inv_queue _ _ _ _ _ QPush); [done| |done]. right. split; [|done]. cbn. by rewrite Eq.
    + rewrite <- Hph. by destruct l; apply serve_inv_other.
  - assert (Hp : sv_partial s = []) by (apply partial_running; [apply Hi|by rewrite Hph]).
    destruct e; try done.
    + destruct (sv_hand s) as [f|] eqn:Eh; [|done]. destruct (q_acquire _ _) as [q|] eqn:Eq; [|done].
      apply (serve_inv_queue _ _ _ _ _ (QAcquire f)); [done| |done]. left. split; [|done]. cbn.
      by rewrite Eq, Eh, <- app_assoc.
    + destruct (q_push _) as [q|] eqn:Eq; [|done].
      apply (serve_inv_queue _ _ _ _ _ QPush); [done| |done]. right. split; [|done]. cbn. by rewrite Eq.
    + destruct (sv_idle s) eqn:Ei; [|done]. case_bool_decide; [|done]. by apply serve_pump_inv.
    + destruct (sv_active s) eqn:Ea; [done|]. destruct Hi as (Hs & Hq & Hsrc & (own & stream & later & K1 & K2 & K3 & K4 & K5 & K6 & K7 & _)).
      split_and!; [exact Hs|exact Hq|]. split; [exact Hsrc|]. exists own, stream, later. split_and!; try done.
      cbn. by rewrite Hph.
    + rewrite <- Hph. by apply serve_inv_other.
    + destruct (q_recv _) as [q|] eqn:Eq; [|done].
      apply (serve_inv_queue _ _ _ _ _ QRecv); [done| |done]. right. split; [|done]. cbn. by rewrite Eq.
    + by apply serve_written_inv.
    + by apply serve_select_inv.
    + destruct (joined_ready s e); [by apply serve_select_inv|done].
Qed.

Lemma serve_start_inv cfg sock0 now :
  0 <= initial_last_forwarded cfg -> Forall is_byte (data sock0) -> serve_inv cfg sock0 (serve_start cfg sock0 now).
Proof.
  intros Hn Hb. split_and!.
  - split_and!; cbn; [by apply gate_inv_init|done|done].
  - split_and!; cbn; try done; [|by left]. split_and!; try done; try lia; apply Forall_nil_2.
  - split; [exists [], (prefetched_frames cfg); split_and!; try done; by right|].
    exists [], (data sock0), (data sock0). split_and!; try done. unfold own_ok. by destruct (prefetched_greeting cfg); [|left].
Qed.

Lemma run_serve_inv cfg sock now evs :
  0 <= initial_last_forwarded cfg -> Forall is_byte (data sock) ->
  serve_inv cfg sock (run_serve lz4_decompress cfg sock now evs).
Proof.
  intros Hn Hb. unfold run_serve. apply foldl_inv; [by apply serve_start_inv|]. intros; by apply serve_push_inv.
Qed.

(** ** Prefetched frames that fit the queue *)

Definition bytes_of (l : list bytes) : Z := foldr (fun f n => Z.of_nat (length f) + n) 0 l.

Lemma bytes_of_app l l' : bytes_of (l ++ l') = bytes_of l + bytes_of l'.
Proof. unfold bytes_of. induction l as [|f l IH]; cbn in *; lia. Qed.

Lemma bytes_of_nonneg l : 0 <= bytes_of l.
Proof. unfold bytes_of. induction l as [|f l IH]; cbn in *; lia. Qed.

Lemma bytes_of_sublist l l' : l `sublist_of` l' -> bytes_of l <= bytes_of l'.
Proof. unfold bytes_of. induction 1; cbn in *; lia. Qed.

(** What waits in the queue costs at most its bytes and one permit each. *)
Lemma permits_bound l : Forall (fun e => e.2 = permits e.1) l -> sum_permits l <= bytes_of l.*1 + Z.of_nat (length l).
Proof.
  induction 1 as [|[f n] l E _ IH]; [done|]. cbn [fst snd] in E. unfold permits in E.
  change (sum_permits ((f, n) :: l)) with (n + sum_permits l).
  change (bytes_of ((f, n) :: l).*1) with (Z.of_nat (length f) + bytes_of l.*1). cbn [length]. lia.
Qed.

(** The prefetched frames fit the queue together. *)
Definition prefetch_fits (cfg : PushConfig) : Prop :=
  Z.of_nat (length (prefetched_frames cfg)) <= PUSH_MERGE_QUEUE_FRAMES /\
  bytes_of (prefetched_frames cfg) + Z.of_nat (length (prefetched_frames cfg)) <= NODE_QUEUE_BYTES.

Lemma prefetch_room cfg sock0 s l :
  prefetch_fits cfg -> serve_inv cfg sock0 s -> sv_phase s = Prefetching l ->
  (forall f, sv_hand s = Some f -> is_Some (q_acquire (sv_queue s) f)) /\
  (q_waiting (sv_queue s) <> [] -> is_Some (q_push (sv_queue s))).
Proof.
  intros [Hn Hb] ((_ & Hlog & _) & (Hq & Hl & _) & (pre & rest & E1 & E2 & _ & E3) & _) Hph.
  rewrite Hph in E3. destruct E3 as [-> Ef]. rewrite Ef, app_nil_r in E2.
  pose proof (gated_sublist (initial_last_forwarded cfg) (sv_seen s)) as Hsub. rewrite <- Hlog in Hsub.
  assert (Hin : (held (sv_queue s)).*1 ++ option_list (sv_hand s) `sublist_of` prefetched_frames cfg).
  { rewrite E1. apply sublist_inserts_r. rewrite <- E2. etrans; [|exact Hsub]. rewrite Hl. by apply sublist_inserts_l. }
  pose proof (sublist_length _ _ Hin) as Hlen. pose proof (bytes_of_sublist _ _ Hin) as Hby.
  rewrite length_app, length_fmap in Hlen. rewrite bytes_of_app in Hby.
  destruct Hq as (Hcap & _ & _ & Hsum & _ & Hp & _). pose proof (permits_bound _ Hp) as Hpb.
  split.
  - intros f Hf. rewrite Hf in Hlen, Hby. change (bytes_of (option_list (Some f))) with (Z.of_nat (length f) + 0) in Hby.
    change (length (option_list (Some f))) with 1%nat in Hlen.
    unfold q_acquire. rewrite (proj2 (Z.leb_le _ _)); [by eexists|]. unfold permits. lia.
  - unfold q_push. destruct (q_waiting (sv_queue s)) as [|x w] eqn:Ew; [done|]. intros _.
    assert (length (q_frames (sv_queue s)) < length (held (sv_queue s)))%nat.
    { unfold held. rewrite Ew, !length_app. cbn. lia. }
    rewrite (proj2 (Z.ltb_lt _ _)) by lia. by eexists.
Qed.

(** The session's own steps before its loop: send what waits, then take the next frame. *)
Definition prefetch_drive (ins : list (FreshestRound * Z * Z * Z)) (now : Z) : list serve_event :=
  (ins ≫= fun i => [VAcquire; VPush; VPrefetched i.1.1.1 i.1.1.2 i.1.2 i.2]) ++ [VAcquire; VPush; VStart now].

Lemma push_settles cfg sock0 s l :
  prefetch_fits cfg -> serve_inv cfg sock0 s -> sv_phase s = Prefetching l ->
  (length (q_waiting (sv_queue s)) <= match sv_hand s with Some _ => 0 | None => 1 end)%nat ->
  let s' := serve_push lz4_decompress cfg (serve_push lz4_decompress cfg s VAcquire) VPush in
  serve_inv cfg sock0 s' /\ sv_phase s' = Prefetching l /\ sv_idle s' = true.
Proof.
  intros Hfit Hi Hph Hw s'.
  assert (H1 : serve_inv cfg sock0 (serve_push lz4_decompress cfg s VAcquire)) by (by apply serve_push_inv).
  split; [by apply serve_push_inv|]. unfold s'. clear s'.
  assert (E1 : let s1 := serve_push lz4_decompress cfg s VAcquire in
    sv_phase s1 = Prefetching l /\ sv_hand s1 = None /\ (length (q_waiting (sv_queue s1)) <= 1)%nat).
  { unfold serve_push. rewrite Hph. destruct (sv_hand s) as [f|] eqn:Eh.
    - destruct (prefetch_room cfg sock0 s l Hfit Hi Hph) as [Ha _]. destruct (Ha f Eh) as [q Hq]. rewrite Hq.
      unfold q_acquire in Hq. destruct (permits f <=? _); [|done]. injection Hq as <-.
      destruct l; cbn; rewrite Hph, length_app; cbn; split_and!; try done; lia.
    - destruct l; by split_and!. }
  destruct E1 as (P1 & P2 & P3). set (s1 := serve_push lz4_decompress cfg s VAcquire) in *.
  unfold serve_push. rewrite P1. destruct (q_waiting (sv_queue s1)) as [|x [|]] eqn:Ew; [..|cbn in P3; lia].
  - unfold q_push. rewrite Ew. unfold sv_idle. destruct l; rewrite P1, P2, Ew; done.
  - destruct (prefetch_room cfg sock0 s1 l Hfit H1 P1) as [_ Hp]. destruct Hp as [q Hq]; [by rewrite Ew|]. rewrite Hq.
    unfold q_push in Hq. rewrite Ew in Hq. destruct (_ <? _); [|done]. injection Hq as <-. unfold sv_idle.
    destruct l; cbn; rewrite P1, P2; done.
Qed.
(** At most one frame is being sent. *)
Definition one_send (s : Serve) : Prop := (length (q_waiting (sv_queue s)) + length (option_list (sv_hand s)) <= 1)%nat.

Lemma judged_one_send s p v st f floor : sv_idle s = true -> one_send (sv_judged s p v st f floor).
Proof. intros [Hh Hw]%sv_idle_true. unfold one_send. cbn. rewrite Hw. by destruct v; cbn; lia. Qed.

Lemma one_send_step cfg s e : one_send s -> one_send (serve_push lz4_decompress cfg s e).
Proof.
  intros Hs.
  assert (Hacq : one_send match sv_hand s with
    | Some f => match q_acquire (sv_queue s) f with Some q => sv_set_queue s None q | None => s end
    | None => s end).
  { destruct (sv_hand s) as [f|] eqn:Eh; [|done]. unfold q_acquire. destruct (_ <=? _); [|done].
    unfold one_send in *. rewrite Eh in Hs. cbn in *. rewrite length_app. cbn. lia. }
  assert (Hpush : one_send match q_push (sv_queue s) with Some q => sv_set_queue s (sv_hand s) q | None => s end).
  { unfold q_push. destruct (q_waiting (sv_queue s)) as [|x w] eqn:Ew; [done|]. destruct (_ <? _); [|done].
    unfold one_send in *. rewrite Ew in Hs. cbn in *. lia. }
  assert (Hsel : forall e, one_send (serve_select s e)).
  { intros e'. unfold serve_select. case_bool_decide; [|done]. by destruct (select_step _ _ _). }
  unfold serve_push. destruct (sv_phase s) as [|l| |r]; [| | |done].
  - destruct e; try done. destruct (greeting_target _ _) as [|[g sock]]; [done|]. by destruct (write_greeting _).
  - destruct e; try (by destruct l).
    + destruct l as [|f rest]; [done|]. destruct (sv_idle s) eqn:Ei; [|done]. unfold serve_prefetched.
      destruct (process_live_frame _ _ _ _ _ _ _) as [[[e| |k] st] fr']; [done|by apply judged_one_send..].
    + destruct l; [|done]. by destruct (sv_idle s).
  - destruct e; try done.
    + destruct (sv_idle s) eqn:Ei; [|done]. case_bool_decide; [|done]. cbn [andb]. unfold serve_pump.
      destruct (pump_read _) as [rd sock]. destruct (pump_step _ _ _) as [[[e| |k] st] [f|]]; try done.
      all: apply judged_one_send; exact Ei.
    + by destruct (sv_active s).
    + unfold q_recv. destruct (q_writing _); [|done]. destruct (q_frames _); [done|]. exact Hs.
    + unfold serve_written, q_written. destruct (q_writing _) as [|[f n] w']; [done|].
      destruct w; cbn; exact Hs.
    + destruct (joined_ready s e); [apply Hsel|done].
Qed.

Lemma ended_stays cfg s r evs : sv_phase s = Ended r -> sv_phase (foldl (serve_push lz4_decompress cfg) s evs) = Ended r.
Proof.
  revert s. induction evs as [|e evs IH]; intros s Hs; [done|]. cbn. apply IH. unfold serve_push. by rewrite Hs.
Qed.

(** From any point of the phase the session's own steps lead to its loop or to its end. *)
Lemma prefetch_drive_runs cfg sock0 s l ins now :
  prefetch_fits cfg -> serve_inv cfg sock0 s -> one_send s -> sv_phase s = Prefetching l -> (length l <= length ins)%nat ->
  match sv_phase (foldl (serve_push lz4_decompress cfg) s (prefetch_drive ins now)) with
  | Running | Ended _ => True
  | _ => False
  end.
Proof.
  intros Hfit. revert s l. induction ins as [|[[[fr tip] floor] t] ins IH]; intros s l Hi Ho Hph Hl.
  all: destruct (push_settles cfg sock0 s l Hfit Hi Hph) as (Hi' & Hph' & Hid);
    [unfold one_send in Ho; destruct (sv_hand s); cbn in Ho; lia|].
  - destruct l; [|cbn in Hl; lia]. cbn [prefetch_drive mbind list_bind app foldl].
    set (s' := serve_push _ _ (serve_push _ _ s VAcquire) VPush) in *. unfold serve_push at 1. by rewrite Hph', Hid.
  - unfold prefetch_drive. cbn [mbind list_bind app foldl]. fold (prefetch_drive ins now).
    set (s' := serve_push _ _ (serve_push _ _ s VAcquire) VPush) in *.
    assert (Ho' : one_send s') by (by apply one_send_step, one_send_step).
    pose proof (serve_push_inv cfg sock0 s' (VPrefetched fr tip floor t) Hi') as Hi2.
    pose proof (one_send_step cfg s' (VPrefetched fr tip floor t) Ho') as Ho2.
    destruct (sv_phase (serve_push lz4_decompress cfg s' (VPrefetched fr tip floor t))) as [|l2| |r] eqn:E2.
    + exfalso. revert E2. unfold serve_push. rewrite Hph'. destruct l as [|f rest]; [by rewrite Hph'|]. rewrite Hid.
      unfold serve_prefetched. by destruct (process_live_frame _ _ _ _ _ _ _) as [[[e| |k] st] fr'].
    + apply (IH _ l2); [done|done|done|]. revert E2. unfold serve_push. rewrite Hph'.
      destruct l as [|f rest]; [rewrite Hph'; intros [= <-]; cbn; lia|]. rewrite Hid. unfold serve_prefetched.
      cbn in Hl. destruct (process_live_frame _ _ _ _ _ _ _) as [[[e| |k] st] fr']; cbn; [done|..]; intros [= <-]; lia.
    + exfalso. revert E2. unfold serve_push. rewrite Hph'. destruct l as [|f rest]; [by rewrite Hph'|]. rewrite Hid.
      unfold serve_prefetched. by destruct (process_live_frame _ _ _ _ _ _ _) as [[[e| |k] st] fr'].
    + by rewrite (ended_stays cfg _ r _ E2).
Qed.

(** The floors recorded are those the steps read. *)
Lemma serve_push_seen cfg s e :
  sv_seen (serve_push lz4_decompress cfg s e) = sv_seen s \/
  exists f floor, sv_seen (serve_push lz4_decompress cfg s e) = sv_seen s ++ [(f, floor)] /\ event_floor e = Some floor.
Proof.
  assert (Hsel : forall e, sv_seen (serve_select s e) = sv_seen s).
  { intros e'. unfold serve_select. case_bool_decide; [|done]. by destruct (select_step _ _ _). }
  unfold serve_push. destruct (sv_phase s) as [|l| |r]; [| | |by left].
  - left. destruct e; try done. destruct (greeting_target _ _) as [|[g sock]]; [done|]. by destruct (write_greeting _).
  - destruct e; try (by left; destruct l).
    + destruct l as [|f rest]; [by left|]. destruct (sv_idle s); [|by left]. unfold serve_prefetched.
      destruct (process_live_frame _ _ _ _ _ _ _) as [[[e| |k] st] fr']; [by left|right; by eexists _, _..].
    + left. destruct l; [|done]. by destruct (sv_idle s).
    + left. destruct (sv_hand s); [|by destruct l]. by destruct (q_acquire _ _), l.
    + left. by destruct (q_push _), l.
  - destruct e; try (by left).
    + left. destruct (sv_hand s); [|done]. by destruct (q_acquire _ _).
    + left. by destruct (q_push _).
    + destruct (_ && _); [|by left]. unfold serve_pump. destruct (pump_read _) as [rd sock].
      destruct (pump_step _ _ _) as [[[e| |k] st] [f|]]; try (by left); right; by eexists _, _.
    + left. by destruct (sv_active s).
    + left. by destruct (q_recv _).
    + left. unfold serve_written. destruct (q_written _) as [[f q]|]; [|done]. by destruct (select_step _ _ _).
    + left. destruct (joined_ready _ _); [apply Hsel|done].
Qed.

Lemma run_serve_floors cfg sock now evs :
  Forall (fun e => e.2 ∈ omap event_floor evs) (sv_seen (run_serve lz4_decompress cfg sock now evs)).
Proof.
  unfold run_serve. induction evs as [|e evs IH] using rev_ind; [by apply Forall_nil_2|].
  rewrite foldl_app, omap_app. cbn [foldl].
  assert (IH' : Forall (fun x => x.2 ∈ omap event_floor evs ++ omap event_floor [e])
    (sv_seen (foldl (serve_push lz4_decompress cfg) (serve_start cfg sock now) evs))).
  { eapply Forall_impl; [exact IH|]. intros x Hx. apply elem_of_app. by left. }
  destruct (serve_push_seen cfg (foldl (serve_push lz4_decompress cfg) (serve_start cfg sock now) evs) e)
    as [E|(f & floor & E & Ef)]; rewrite E; [done|].
  apply Forall_app. split; [done|]. apply Forall_singleton. apply elem_of_app. right. cbn. rewrite Ef. by left.
Qed.

(** Nothing is sent before a greeting. *)
Definition greeting_first (cfg : PushConfig) (s : Serve) : Prop :=
  prefetched_greeting cfg = None ->
  match sv_phase s with
  | Greeting => sv_node s = [] /\ sv_partial s = [] /\ sv_greeted s = []
  | Ended _ => sv_greeted s <> [] \/ sv_node s = [] /\ sv_partial s = []
  | _ => sv_greeted s <> []
  end.

Lemma serve_push_greeted cfg s e :
  sv_phase s <> Greeting ->
  sv_greeted (serve_push lz4_decompress cfg s e) = sv_greeted s /\ sv_phase (serve_push lz4_decompress cfg s e) <> Greeting.
Proof.
  intros Hp. unfold serve_push, serve_prefetched, serve_pump, serve_select, serve_written.
  destruct (sv_phase s) as [|l| |r] eqn:Hph; [done| | |by rewrite Hph].
  - destruct l as [|f l], e; repeat (case_match; rewrite ?Hph; try done); cbn; by rewrite ?Hph.
  - destruct e; repeat (case_match; rewrite ?Hph; try done); cbn; by rewrite ?Hph.
Qed.

Lemma serve_push_greeting_first cfg sock0 s e :
  serve_inv cfg sock0 s -> greeting_first cfg s -> greeting_first cfg (serve_push lz4_decompress cfg s e).
Proof.
  intros Hi Hg Hn. specialize (Hg Hn). destruct (sv_phase s) as [|l| |r] eqn:Hph.
  - destruct e; try (unfold serve_push; rewrite Hph; cbn; by rewrite Hph).
    pose proof Hi as (_ & _ & _ & (own & stream & later & K1 & K2 & K3 & K4 & K5 & K6 & K7 & K8)).
    destruct (K4 Hph) as [-> Ha]. rewrite (K8 Ha) in K7 by (by rewrite Hph).
    unfold serve_push. rewrite Hph. destruct (greeting_target _ _) as [reason|[g sock]] eqn:Eg.
    + cbn. right. split; apply Hg.
    + assert (Hne : g <> []).
      { unfold greeting_target in Eg. rewrite Hn in Eg. destruct (read_live_frame_with_timeout _ _) as [[er|f] s1] eqn:Er; [done|].
        destruct (response_is_peer_full f); [done|]. injection Eg as -> ->.
        destruct (read_frame_data _ _ _ _ K7 Er) as (_ & _ & Hf). intros ->. destruct Hf as (_ & Hf & _). cbn in Hf. lia. }
      destruct (write_greeting w); cbn; [right; split; apply Hg|done].
  - destruct (serve_push_greeted cfg s e) as [E Hp]; [by rewrite Hph|]. rewrite E. by case_match; [|..|left].
  - destruct (serve_push_greeted cfg s e) as [E Hp]; [by rewrite Hph|]. rewrite E. by case_match; [|..|left].
  - unfold serve_push. rewrite Hph. cbn. by rewrite Hph.
Qed.

Lemma run_serve_greeting_first cfg sock now evs :
  0 <= initial_last_forwarded cfg -> Forall is_byte (data sock) ->
  greeting_first cfg (run_serve lz4_decompress cfg sock now evs).
Proof.
  intros Hn Hb. unfold run_serve.
  apply (foldl_inv _ (fun s => serve_inv cfg sock s /\ greeting_first cfg s)); [split; [by apply serve_start_inv|done]|].
  intros s e [H1 H2]. split; [by apply serve_push_inv|by eapply serve_push_greeting_first].
Qed.

(** What reaches the node. *)
Lemma session_delivers_stream (cfg : PushConfig) (sock : list Read) (now : Z) (evs : list serve_event) :
  0 <= initial_last_forwarded cfg -> Forall is_byte (data sock) ->
  let s := run_serve lz4_decompress cfg sock now evs in
  exists own stream n floors,
    data sock = own ++ stream /\
    match prefetched_greeting cfg with
    | Some _ => own = []
    | None => (exists rest, frames_of PUSH_GREETING_MAX (data sock) = own :: rest) \/
        own = [] /\ node_bytes s = [] /\ (sv_phase s = Greeting \/ exists reason, sv_phase s = Ended reason)
    end /\
    let greeting := default own (prefetched_greeting cfg) in
    let seen := take n (prefetched_frames cfg ++ frames_of MAX_LIVE_FRAME stream) in
    length floors = length seen /\ Forall (fun fl => fl ∈ omap event_floor evs) floors /\
    let sent := gated (initial_last_forwarded cfg) (zip seen floors) in
    node_bytes s `prefix_of` greeting ++ concat sent /\
    (sv_phase s = Running -> held (sv_queue s) = [] -> sv_hand s = None -> node_bytes s = greeting ++ concat sent) /\
    (sv_phase s = Running -> sv_active s = None -> exists k, n = (length (prefetched_frames cfg) + k)%nat /\
       stream = concat (take k (frames_of MAX_LIVE_FRAME stream)) ++ data (sv_sock s)) /\
    StronglySorted Z.lt (initial_last_forwarded cfg :: omap frame_round sent) /\
    backlog (sv_queue s) <= PUSH_MERGE_QUEUE_FRAMES /\ 0 <= q_avail (sv_queue s) <= NODE_QUEUE_BYTES.
Proof.
  intros Hn Hb s. destruct (run_serve_inv cfg sock now evs Hn Hb) as ((_ & Hlog & _) & (Hq & Hl & Hp) &
    (pre & rest & E1 & E2 & E3 & E4) & (own & stream & later & K1 & K2 & K3 & _ & K5 & K6 & _ & K8)).
  fold s in Hlog, Hq, Hl, Hp, E2, E3, E4, K2, K5, K6, K8.
  exists own, stream, (length (sv_seen s)), (sv_seen s).*2. cbn zeta.
  assert (Eseen : take (length (sv_seen s)) (prefetched_frames cfg ++ frames_of MAX_LIVE_FRAME stream) = (sv_seen s).*1).
  { rewrite <- (length_fmap fst (sv_seen s)), E2, E1, K6, <- app_assoc.
    destruct E3 as [->|Ef]; [cbn [app]; by rewrite (app_assoc pre (sv_frames s)), take_app_length|]. rewrite Ef, app_nil_r, take_app_length. by rewrite ?app_nil_r. }
  rewrite Eseen, zip_fst_snd, <- Hlog.
  assert (Hav : 0 <= q_avail (sv_queue s) <= NODE_QUEUE_BYTES /\ backlog (sv_queue s) <= PUSH_MERGE_QUEUE_FRAMES).
  { destruct Hq as (_ & Hc & Ha & Hsum & _ & Hpm & _). pose proof (sum_permits_nonneg _ Hpm). unfold backlog. lia. }
  split_and!; [done| |by rewrite !length_fmap| | | | | |lia|lia|lia].
  - pose proof (run_serve_greeting_first cfg sock now evs Hn Hb) as Hg. fold s in Hg. unfold own_ok in K1.
    unfold greeting_first in Hg. unfold greeted, greeting_of in K2.
    destruct (prefetched_greeting cfg) as [g|]; [done|]. destruct K1 as [->|K1]; [right|by left].
    specialize (Hg eq_refl). cbn in K2. split; [done|]. unfold node_bytes.
    destruct (sv_phase s) as [|l| |r]; [|done|done|].
    + destruct Hg as (-> & -> & ->). split; [done|by left].
    + assert (Eg : sv_greeted s = []) by (destruct K2 as [?|[Hx _]]; [done|by apply prefix_nil_inv]).
      destruct Hg as [?|[-> ->]]; [done|]. rewrite Eg. split; [done|right; by eexists].
  - apply Forall_fmap, run_serve_floors.
  - unfold greeted in K2. fold (greeting_of cfg own).
    assert (Hg : sv_greeted s = greeting_of cfg own \/ sv_greeted s `prefix_of` greeting_of cfg own /\ sv_node s = [] /\ sv_partial s = []).
    { destruct (sv_phase s); [|by left..|done]. destruct K2 as (-> & ? & ?). right. split_and!; [apply prefix_nil|done|done]. }
    unfold node_bytes. destruct Hg as [->|(Hg & -> & ->)]; [|cbn; rewrite app_nil_r; by apply prefix_app_r].
    apply prefix_app. rewrite Hl, !concat_app. apply prefix_app.
    destruct Hp as [Hp|(_ & f & rest' & part & -> & Hp)]; rewrite Hp; [apply prefix_nil|]. cbn. rewrite <- app_assoc.
    apply prefix_app_r, prefix_take.
  - intros Hr Hh Hd. unfold greeted in K2. rewrite Hr in K2. unfold node_bytes. rewrite K2, Hl, Hh, Hd. cbn.
    destruct Hp as [->|[[r Hx] _]]; [|congruence]. by rewrite !app_nil_r.
  - intros Hr Ha. rewrite Hr in E4. subst rest. exists (length (sv_frames s)). split.
    + rewrite <- (length_fmap fst (sv_seen s)), E2, E1, app_nil_r, length_app. done.
    + rewrite <- (K8 Ha) by (by rewrite Hr). by rewrite K6, take_app_length.
  - rewrite Hlog. apply gated_sorted.
Qed.

(** ** Properties *)

(** C7: From the active peer's socket to the node. Whatever bytes the peer sends and in whatever
    segments, and however the session's tasks, its queue, the shared atomics and the node's socket
    interleave: the node receives the greeting (the prefetched one, or the first frame of the socket;
    without one, nothing) and then the gated stream. That is the first frames of the prefetched ones followed by the frames
    the peer's bytes are cut into by their headers, less the blocks whose round is not above the
    floor read for them or not above a block that already passed; every frame without a round is
    among them. What the node has is a prefix of these bytes, and all of them once nothing is queued;
    while the pump runs, exactly the frames it has read from the socket have come to the gates. What
    is queued for the node stays within its budget. *)
Theorem session_delivers_the_gated_stream (cfg : PushConfig) (sock : list Read) (now : Z) (evs : list serve_event) :
  0 <= initial_last_forwarded cfg -> Forall is_byte (data sock) ->
  let s := run_serve lz4_decompress cfg sock now evs in
  exists own stream n floors,
    data sock = own ++ stream /\
    match prefetched_greeting cfg with
    | Some _ => own = []
    | None => (exists rest, frames_of PUSH_GREETING_MAX (data sock) = own :: rest) \/
        own = [] /\ node_bytes s = [] /\ (sv_phase s = Greeting \/ exists reason, sv_phase s = Ended reason)
    end /\
    let greeting := default own (prefetched_greeting cfg) in
    let seen := take n (prefetched_frames cfg ++ frames_of MAX_LIVE_FRAME stream) in
    length floors = length seen /\ Forall (fun fl => fl ∈ omap event_floor evs) floors /\
    let sent := gated (initial_last_forwarded cfg) (zip seen floors) in
    node_bytes s `prefix_of` greeting ++ concat sent /\
    (sv_phase s = Running -> held (sv_queue s) = [] -> sv_hand s = None -> node_bytes s = greeting ++ concat sent) /\
    (sv_phase s = Running -> sv_active s = None -> exists k, n = (length (prefetched_frames cfg) + k)%nat /\
       stream = concat (take k (frames_of MAX_LIVE_FRAME stream)) ++ data (sv_sock s)) /\
    StronglySorted Z.lt (initial_last_forwarded cfg :: omap frame_round sent) /\
    backlog (sv_queue s) <= PUSH_MERGE_QUEUE_FRAMES /\ 0 <= q_avail (sv_queue s) <= NODE_QUEUE_BYTES.
Proof. apply session_delivers_stream. Qed.
End ServeLemmas.

(** A session with a prefetched control frame, whose peer then sends a block in two segments. *)
Definition example_config : PushConfig := mkPushConfig (Some [0; 0; 0; 1; 0; 3]) [make_frame 1 0 [7]] 2000000000 None.

Definition example_sock : list Read :=
  let f := make_frame 21 1 (block_payload 2000000001) in [RData (take 3 f); RData (drop 3 f)].

Definition example_session : list serve_event :=
  let fr := FreshestRound_new PEER_LAG_ROUNDS PEER_LAG_GRACE FRESHEST_STALE in
  [VGreeting WriteOk 0; VPrefetched fr 2000000000 0 0; VAcquire; VPush; VStart 0;
   VPump fr 2000000000 0 0 ""; VRecv; VAcquire; VWritten WriteOk 0; VPush; VRecv; VWritten (WriteError "reset") 4].

Lemma session_delivers_the_gated_stream_witness :
  let s := run_serve no_lz4 example_config example_sock 0 example_session in
  node_bytes s = [0; 0; 0; 1; 0; 3] ++ [0; 0; 0; 1; 0; 7] ++ [0; 0; 0; 21] /\
  frames_of MAX_LIVE_FRAME (data example_sock) = [make_frame 21 1 (block_payload 2000000001)] /\
  exists n floors, node_bytes s `prefix_of` [0; 0; 0; 1; 0; 3] ++
    concat (gated no_lz4 2000000000
      (zip (take n (prefetched_frames example_config ++ frames_of MAX_LIVE_FRAME (data example_sock))) floors)).
Proof.
  intros s. split; [vm_compute; reflexivity|]. split; [vm_compute; reflexivity|].
  destruct (session_delivers_the_gated_stream no_lz4 example_config example_sock 0 example_session)
    as (own & stream & n & floors & H1 & -> & _ & _ & H2 & _); [done| |].
  - apply (bool_decide_unpack _). vm_compute. exact I.
  - cbn [app] in H1. rewrite <- H1 in H2. by exists n, floors.
Defined.
