(* ===== verification/Node.v ===== *)
(** Per-node gateway state and its registry: [src/gateway/node.rs].

    An [IpAddr] is a [Z] (its position in the total order of addresses). A method that holds one
    lock is one step; [pin_active], which takes its epoch before the lock, is two ([take_epoch],
    [store_pin]), and so is the drop of a connection guard ([guard_stamp], [guard_release]). The
    prefetched client-block range is a type parameter here. *)

From S2P Require Import Prelude Blacklist.

(** ** Data *)

Definition CATCHUP_RUN_GAP : Z := seconds 60.
Definition CATCHUP_PROGRESS_ROUNDS : Z := 150.
Definition CATCHUP_CLOSING_ROUNDS : Z := 50.
Definition CATCHUP_LOOP_MAX_WIDTH : Z := 64.
Definition CATCHUP_SAMPLE_SPAN : Z := seconds (5 * 60).
Definition CATCHUP_MAX_SAMPLES : nat := 1024.
Definition NODE_STATE_CAP : Z := 256.
Definition NODE_STATE_TTL_SECS : Z := 60 * 60.

Record ActivePeer := mkPeer { ap_ip : string; ap_epoch : Z }.

#[global] Instance ActivePeer_eq_dec : EqDecision ActivePeer.
Proof. solve_decision. Defined.

(** One client-block batch: when, its distance behind (None: tip unknown), its width. *)
Record Sample := mkSample { s_at : Z; s_behind : option Z; s_width : Z }.

Record ClientBlockRun := mkRun { run_since : Z; run_last : Z; run_samples : list Sample }.

Record NodeState {P : Type} := mkNode {
  n_ip : Z;
  n_active : option ActivePeer;
  next_active_epoch : Z;
  last_cache_replay_secs : Z;
  live_floor : Z;
  last_seen_secs : Z;
  open_conns : Z;
  lazy_active : bool;
  rpc_peer : option string;
  replay_in_flight : bool;
  last_repin_attempt : option Z;
  last_catchup_cut : option Z;
  last_client_blocks : option ClientBlockRun;
  prefetch : option P
}.
Arguments NodeState : clear implicits.

Definition NodeState_new {P} (ip now : Z) : NodeState P :=
  mkNode P ip None 0 0 0 now 0 false None false None None None None.

(** ** Pins *)

Section Pins.
Context {P : Type} `{UpstreamFilter}.
Implicit Types n : NodeState P.

Definition set_active (n : NodeState P) (a : option ActivePeer) (lazy : bool) (rpc : option string)
    (pf : option P) : NodeState P :=
  mkNode P (n_ip n) a (next_active_epoch n) (last_cache_replay_secs n) (live_floor n)
    (last_seen_secs n) (open_conns n) lazy rpc (replay_in_flight n) (last_repin_attempt n)
    (last_catchup_cut n) (last_client_blocks n) pf.

(** [next_active_epoch.fetch_add(1) + 1]. *)
Definition take_epoch n (ip : string) : ActivePeer * NodeState P :=
  let e := (next_active_epoch n + 1) mod 2 ^ 64 in
  (mkPeer ip e,
   mkNode P (n_ip n) (n_active n) e (last_cache_replay_secs n) (live_floor n) (last_seen_secs n)
     (open_conns n) (lazy_active n) (rpc_peer n) (replay_in_flight n) (last_repin_attempt n)
     (last_catchup_cut n) (last_client_blocks n) (prefetch n)).

(** The rest of [pin_active]: drop the prefetch, store the pin, no longer lazy, no RPC peer. *)
Definition store_pin n (peer : ActivePeer) : NodeState P :=
  set_active n (Some peer) false None None.

Definition pin_active n (ip : string) : ActivePeer * NodeState P :=
  let '(peer, n) := take_epoch n ip in (peer, store_pin n peer).

Definition pin_generation n : Z := next_active_epoch n.

Definition unpin_blacklisted (a : option ActivePeer) : option ActivePeer :=
  match a with
  | Some p => if blocked (ap_ip p) then None else Some p
  | None => None
  end.

Definition unpin n : NodeState P :=
  set_active n (unpin_blacklisted (n_active n)) (lazy_active n) (rpc_peer n) (prefetch n).

Definition pin_lazy_active n (ip : string) : ActivePeer * NodeState P :=
  let n := unpin n in
  match n_active n with
  | Some peer => (peer, n)
  | None =>
      let '(peer, n) := take_epoch n ip in
      (peer, set_active n (Some peer) true (rpc_peer n) None)
  end.

Definition active_snapshot n : option ActivePeer * NodeState P :=
  let n := unpin n in (n_active n, n).

Definition active_session_snapshot n : option ActivePeer * NodeState P :=
  let n := unpin n in (if lazy_active n then None else n_active n, n).

Definition active_is_current n (peer : ActivePeer) : bool := bool_decide (n_active n = Some peer).

Definition clear_active_if_current n (peer : ActivePeer) : NodeState P :=
  if decide (n_active n = Some peer)
  then set_active n None (lazy_active n) (rpc_peer n) (prefetch n)
  else n.

Definition has_active_session n : bool * NodeState P :=
  let n := unpin n in (bool_decide (is_Some (n_active n)) && negb (lazy_active n), n).
End Pins.

(** ** Catch-up runs *)

Fixpoint drop_old (now : Z) (l : list Sample) : list Sample :=
  match l with
  | s :: l' => if CATCHUP_SAMPLE_SPAN <? since now (s_at s) then drop_old now l' else l
  | [] => []
  end.

(** Popping past the count cap moves the run's start after the dropped samples. *)
Fixpoint drop_excess (fuel : nat) (start : Z) (l : list Sample) : Z * list Sample :=
  match fuel with
  | O => (start, l)
  | S fuel =>
      if (CATCHUP_MAX_SAMPLES <? length l)%nat then
        match l with
        | s :: l' => drop_excess fuel (Z.max start (s_at s)) l'
        | [] => (start, l)
        end
      else (start, l)
  end.

Definition mark_client_blocks_response (run : option ClientBlockRun) (now : Z) (behind : option Z)
    (width : Z) : ClientBlockRun :=
  match run with
  | Some r =>
      if since now (run_last r) <? CATCHUP_RUN_GAP then
        let l := drop_old now (run_samples r ++ [mkSample now behind width]) in
        let '(start, l) := drop_excess (length l) (run_since r) l in
        mkRun start now l
      else mkRun now now [mkSample now behind width]
  | None => mkRun now now [mkSample now behind width]
  end.

Definition median (v : list Z) : Z := nth (length v / 2) (merge_sort Z.le v) 0.

(** [iter().map(..).collect::<Option<Vec<_>>>()]. *)
Definition collect (l : list (option Z)) : option (list Z) := mapM id l.

Definition list_min (l : list Z) : Z := match l with [] => 0 | x :: l => foldr Z.min x l end.
Definition list_max (l : list Z) : Z := match l with [] => 0 | x :: l => foldr Z.max x l end.

Definition client_blocks_stalled (run : option ClientBlockRun) (now quiet window : Z)
    : option (bool * option Z) :=
  match run with
  | None => None
  | Some r =>
      if negb (since now (run_last r) <? quiet) then None
      else
        let behind := s ← last (run_samples r); s_behind s in
        let from := now - window in
        if from <? 0 then Some (false, behind)
        else if from <? run_since r then Some (false, behind)
        else
          let in_w := filter (fun s => from < s_at s) (run_samples r) in
          match collect (s_behind <$> in_w) with
          | None | Some [] => Some (false, behind)
          | Some d =>
              let third := Nat.max (length d / 3) 1 in
              let closing := CATCHUP_CLOSING_ROUNDS <=?
                sat_sub (median (take third d)) (median (drop (length d - third) d)) in
              let small_ranges := median (s_width <$> in_w) <? CATCHUP_LOOP_MAX_WIDTH in
              Some ((list_max d - list_min d <? CATCHUP_PROGRESS_ROUNDS) && negb closing &&
                    small_ranges, behind)
          end
  end.

Definition client_blocks_run_since (run : option ClientBlockRun) (now quiet : Z) : option Z :=
  r ← run; if since now (run_last r) <? quiet then Some (run_since r) else None.

(** [claim_every]: one claim per [every]. *)
Definition claim_every (last : option Z) (now every : Z) : bool * option Z :=
  match last with
  | Some t => if since now t <? every then (false, last) else (true, Some now)
  | None => (true, Some now)
  end.

(** ** The registry *)

Definition entry : Type := Z * Z * bool.    (* address, last seen, held *)

Definition seen_le (a b : Z * Z) : Prop := a.2 < b.2 \/ (a.2 = b.2 /\ a.1 <= b.1).

#[global] Instance seen_le_dec : RelDecision seen_le.
Proof. intros a b. unfold seen_le. apply _. Defined.

(** Entries without open connections: past the idle TTL, and the others. *)
Definition expired_keys (entries : list entry) (now ttl : Z) : list Z :=
  omap (fun '(ip, seen, held) =>
    if negb held && (ttl <? sat_sub now seen) then Some ip else None) entries.

Definition idle_entries (entries : list entry) (now ttl : Z) : list (Z * Z) :=
  omap (fun '(ip, seen, held) =>
    if negb held && (sat_sub now seen <=? ttl) then Some (ip, seen) else None) entries.

Definition node_state_evict_keys (entries : list entry) (now : Z) (cap : nat) (ttl : Z) : list Z :=
  let evict := expired_keys entries now ttl in
  let evictable := idle_entries entries now ttl in
  let kept := (length entries - length evict)%nat in
  if (cap <? kept + 1)%nat then
    let excess := Nat.min (kept + 1 - cap) (length evictable) in
    evict ++ (take excess (merge_sort seen_le evictable)).*1
  else evict.

Section Registry.
Context {P : Type} `{HashOrder}.

Definition set_seen_conns (n : NodeState P) (seen conns : Z) : NodeState P :=
  mkNode P (n_ip n) (n_active n) (next_active_epoch n) (last_cache_replay_secs n) (live_floor n)
    seen conns (lazy_active n) (rpc_peer n) (replay_in_flight n) (last_repin_attempt n)
    (last_catchup_cut n) (last_client_blocks n) (prefetch n).

Definition remove_all (m : gmap Z (NodeState P)) (ips : list Z) : gmap Z (NodeState P) :=
  foldl (fun m ip => delete ip m) m ips.

Definition get_or_insert (nodes : gmap Z (NodeState P)) (ip now : Z) : gmap Z (NodeState P) :=
  match nodes !! ip with
  | Some n => <[ip := set_seen_conns n now (open_conns n + 1)]> nodes
  | None =>
      let entries := (fun '(ip, n) => (ip, last_seen_secs n, 0 <? open_conns n)) <$> iter_order nodes in
      let nodes := remove_all nodes
        (node_state_evict_keys entries now (Z.to_nat NODE_STATE_CAP) NODE_STATE_TTL_SECS) in
      let n := NodeState_new ip now in
      <[ip := set_seen_conns n (last_seen_secs n) (open_conns n + 1)]> nodes
  end.

(** [Drop for NodeConnGuard]: stamp, then decrement. *)
Definition guard_stamp (nodes : gmap Z (NodeState P)) (ip now : Z) : gmap Z (NodeState P) :=
  alter (fun n => set_seen_conns n now (open_conns n)) ip nodes.

Definition guard_release (nodes : gmap Z (NodeState P)) (ip : Z) : gmap Z (NodeState P) :=
  alter (fun n => set_seen_conns n (last_seen_secs n) (open_conns n - 1)) ip nodes.
End Registry.

(** ** Lemmas: eviction *)

Section EvictLemmas.
Context {P : Type} `{HashOrder}.
Implicit Types nodes : gmap Z (NodeState P).

(** The three classes of entries: expired, idle, held. *)
Lemma entries_split entries now ttl :
  expired_keys entries now ttl ++ (idle_entries entries now ttl).*1
  ++ ((fun e : entry => e.1.1) <$> filter (fun e => e.2 = true) entries)
  ≡ₚ (fun e : entry => e.1.1) <$> entries.
Proof.
  unfold expired_keys, idle_entries.
  induction entries as [|[[ip seen] held] entries IH]; [done|].
  cbn [omap list_omap]. rewrite filter_cons, fmap_cons. cbn [snd fst].
  destruct held; cbn [negb andb]; [rewrite decide_True by done|rewrite decide_False by done].
  - rewrite fmap_cons. cbn [fst]. rewrite <- IH. by rewrite <- !Permutation_middle.
  - destruct (Z.leb_spec (sat_sub now seen) ttl).
    + rewrite (proj2 (Z.ltb_ge _ _)) by done. rewrite fmap_cons. cbn [fst].
      rewrite <- IH. cbn [app]. by rewrite <- !Permutation_middle.
    + rewrite (proj2 (Z.ltb_lt _ _)) by done. cbn. by rewrite <- IH.
Qed.

Lemma evict_keys_spec entries now cap ttl :
  let E := node_state_evict_keys entries now cap ttl in
  let held := (fun e : entry => e.1.1) <$> filter (fun e => e.2 = true) entries in
  (exists rest, E ++ rest ++ held ≡ₚ (fun e : entry => e.1.1) <$> entries) /\
  (length entries - length E + 1 <= Nat.max cap (length held + 1))%nat.
Proof.
  cbn zeta. unfold node_state_evict_keys.
  pose proof (entries_split entries now ttl) as Hp.
  set (ev := expired_keys _ _ _) in *. set (ea := idle_entries _ _ _) in *.
  set (hd := _ <$> filter _ entries) in *.
  pose proof (Permutation_length Hp) as Hlen.
  rewrite !length_app, !length_fmap in Hlen.
  destruct (Nat.ltb_spec cap (length entries - length ev + 1)).
  - set (ex := Nat.min _ _).
    pose proof (merge_sort_Permutation seen_le ea) as Hs. split.
    + exists (drop ex (merge_sort seen_le ea)).*1. rewrite <- Hp, <- !app_assoc.
      f_equiv. rewrite app_assoc, <- fmap_app, take_drop. by rewrite Hs.
    + rewrite length_app, length_fmap, length_take, (Permutation_length Hs). lia.
  - split; [|lia]. exists ea.*1. by rewrite <- Hp.
Qed.

Lemma lookup_remove_all nodes ips ip :
  remove_all nodes ips !! ip = if decide (ip ∈ ips) then None else nodes !! ip.
Proof.
  unfold remove_all. revert nodes. induction ips as [|x ips IH]; intros nodes; [done|].
  cbn. rewrite IH. destruct (decide (x = ip)) as [-> |Hne].
  - rewrite (decide_True (P := ip ∈ ip :: ips)) by (by left). case_decide; [done|].
    by rewrite lookup_delete_eq.
  - rewrite lookup_delete_ne by done. repeat case_decide; set_solver.
Qed.

Lemma size_remove_all nodes ips :
  NoDup ips -> (forall ip, ip ∈ ips -> is_Some (nodes !! ip)) ->
  size (remove_all nodes ips) = (size nodes - length ips)%nat.
Proof.
  unfold remove_all. revert nodes. induction ips as [|x ips IH]; intros nodes Hnd Hin; cbn; [lia|].
  inversion Hnd as [|? ? Hx Hnd']; subst. rewrite IH; [|done|].
  - rewrite map_size_delete_Some by (apply Hin; by left). lia.
  - intros ip Hip. rewrite lookup_delete_ne by (intros ->; done). apply Hin. by right.
Qed.

(** Nodes with an open connection. *)
Definition held_count nodes : nat := length (filter (fun e => 0 < open_conns e.2) (map_to_list nodes)).

Definition entries_of nodes : list entry :=
  (fun '(ip, n) => (ip, last_seen_secs n, 0 <? open_conns n)) <$> iter_order nodes.

Lemma entries_keys nodes : (fun e : entry => e.1.1) <$> entries_of nodes ≡ₚ (map_to_list nodes).*1.
Proof.
  unfold entries_of. rewrite <- (iter_order_perm _ nodes), <- list_fmap_compose.
  apply Permutation_refl', list_fmap_ext. by intros i [ip n] _.
Qed.

Lemma entries_length nodes : length (entries_of nodes) = size nodes.
Proof. unfold entries_of. by rewrite length_fmap, (iter_order_perm _ nodes), length_map_to_list. Qed.

Lemma entries_held nodes :
  length (filter (fun e : entry => e.2 = true) (entries_of nodes)) = held_count nodes.
Proof.
  unfold entries_of, held_count. rewrite <- (iter_order_perm _ nodes).
  induction (iter_order nodes) as [|[ip n] l IH]; [done|].
  rewrite fmap_cons, !filter_cons. cbn [fst snd].
  repeat case_decide; cbn [length]; rewrite ?IH; try done; zify_bool; lia.
Qed.

(** Eviction never touches a node with open connections, and makes room for the new one. *)
Lemma evict_from_registry nodes now cap ttl :
  let E := node_state_evict_keys (entries_of nodes) now cap ttl in
  NoDup E /\ (forall ip, ip ∈ E -> exists n, nodes !! ip = Some n /\ open_conns n <= 0) /\
  (size nodes - length E + 1 <= Nat.max cap (held_count nodes + 1))%nat.
Proof.
  cbn zeta. pose proof (evict_keys_spec (entries_of nodes) now cap ttl) as [[rest Hp] Hlen].
  rewrite length_fmap, entries_held, entries_length in Hlen.
  set (E := node_state_evict_keys _ _ _ _) in *. set (hd := _ <$> filter _ _) in *.
  assert (Hnd : NoDup (E ++ rest ++ hd)) by (rewrite Hp, entries_keys; apply NoDup_fst_map_to_list).
  apply NoDup_app in Hnd as (HE & Hdisj & _). split_and!; [done| |done].
  intros ip Hip.
  assert (Hk : ip ∈ (map_to_list nodes).*1)
    by (rewrite <- entries_keys, <- Hp; apply elem_of_app; by left).
  apply list_elem_of_fmap in Hk as ([ip' n] & -> & Hin). apply elem_of_map_to_list in Hin. cbn in *.
  exists n. split; [done|]. destruct (Z.leb_spec (open_conns n) 0); [done|]. exfalso.
  apply (Hdisj ip' Hip), elem_of_app. right. apply list_elem_of_fmap.
  exists (ip', last_seen_secs n, true). split; [done|]. apply list_elem_of_filter. split; [done|].
  apply list_elem_of_fmap. exists (ip', n). split; [f_equal; lia|]. by apply elem_of_iter_order.
Qed.
End EvictLemmas.

(** ** The registry under concurrent connections *)

Section RegistryTraces.
Context {P : Type} `{HashOrder}.
Implicit Types nodes : gmap Z (NodeState P).

Inductive reg_op := RConnect (ip now : Z) | RStamp (k : nat) (now : Z) | RRelease (k : nat).

(** The registry and the addresses of the connection guards alive. *)
Definition reg_step (s : gmap Z (NodeState P) * list Z) (o : reg_op)
    : gmap Z (NodeState P) * list Z :=
  let '(nodes, gs) := s in
  match o with
  | RConnect ip now => (get_or_insert nodes ip now, ip :: gs)
  | RStamp k now => match gs !! k with Some ip => (guard_stamp nodes ip now, gs) | None => s end
  | RRelease k =>
      match gs !! k with Some ip => (guard_release nodes ip, delete k gs) | None => s end
  end.

Definition conns (gs : list Z) (ip : Z) : Z := Z.of_nat (length (filter (fun i => i = ip) gs)).

Definition reg_inv (s : gmap Z (NodeState P) * list Z) : Prop :=
  forall ip, match s.1 !! ip with
             | Some n => open_conns n = conns s.2 ip
             | None => conns s.2 ip = 0
             end.

Lemma conns_cons gs ip i : conns (i :: gs) ip = conns gs ip + if decide (i = ip) then 1 else 0.
Proof. unfold conns. rewrite filter_cons. case_decide; cbn; lia. Qed.

Lemma conns_delete gs k i ip :
  gs !! k = Some i -> conns (delete k gs) ip = conns gs ip - if decide (i = ip) then 1 else 0.
Proof.
  intros Hk. assert (Hp : gs ≡ₚ i :: delete k gs) by (by apply delete_Permutation).
  assert (conns gs ip = conns (i :: delete k gs) ip) as -> by (unfold conns; by rewrite <- Hp).
  rewrite conns_cons. lia.
Qed.

Lemma conns_pos gs ip : ip ∈ gs -> 0 < conns gs ip.
Proof.
  induction gs as [|i gs IH]; intros Hin; [by apply elem_of_nil in Hin|]. rewrite conns_cons.
  assert (0 <= conns gs ip) by (unfold conns; lia).
  apply elem_of_cons in Hin as [-> |Hin]; [rewrite decide_True by done; lia|].
  specialize (IH Hin). case_decide; lia.
Qed.

Lemma conns_nonneg gs ip : 0 <= conns gs ip.
Proof. unfold conns. lia. Qed.

(** What a connection does to the other entries. *)
Lemma get_or_insert_other nodes ip now ip' :
  ip' <> ip -> get_or_insert nodes ip now !! ip' =
    match nodes !! ip with
    | Some _ => nodes !! ip'
    | None => if decide (ip' ∈ node_state_evict_keys (entries_of nodes) now
                           (Z.to_nat NODE_STATE_CAP) NODE_STATE_TTL_SECS)
              then None else nodes !! ip'
    end.
Proof.
  intros Hne. unfold get_or_insert. destruct (nodes !! ip) as [n|].
  - by rewrite lookup_insert_ne.
  - rewrite lookup_insert_ne by done. by rewrite lookup_remove_all.
Qed.

Lemma get_or_insert_self nodes ip now :
  exists n, get_or_insert nodes ip now !! ip = Some n /\ last_seen_secs n = now /\
    open_conns n = match nodes !! ip with Some n0 => open_conns n0 + 1 | None => 1 end.
Proof.
  unfold get_or_insert. destruct (nodes !! ip) as [n|]; rewrite lookup_insert_eq; eauto.
Qed.

Lemma reg_step_inv s o : reg_inv s -> reg_inv (reg_step s o).
Proof.
  destruct s as [nodes gs]. intros Hi. destruct o as [ip now|k now|k]; cbn [reg_step].
  - intros ip'. cbn [fst snd]. rewrite conns_cons. destruct (decide (ip = ip')) as [<- |Hne].
    + destruct (get_or_insert_self nodes ip now) as (n & -> & _ & Ho). rewrite Ho.
      specialize (Hi ip). cbn in Hi. destruct (nodes !! ip); lia.
    + rewrite get_or_insert_other by done. pose proof (Hi ip') as Hi'. cbn in Hi'.
      destruct (nodes !! ip); [destruct (nodes !! ip'); lia|]. case_decide as Hev.
      * destruct (evict_from_registry nodes now (Z.to_nat NODE_STATE_CAP) NODE_STATE_TTL_SECS)
          as (_ & Hfree & _). destruct (Hfree ip' Hev) as (n & Hn & Hz). rewrite Hn in Hi'.
        pose proof (conns_nonneg gs ip'). lia.
      * destruct (nodes !! ip'); lia.
  - destruct (gs !! k) as [ip|] eqn:E; [|done]. intros ip'. specialize (Hi ip'). cbn in *.
    unfold guard_stamp. destruct (decide (ip = ip')) as [-> |].
    + rewrite lookup_alter_eq. by destruct (nodes !! ip').
    + by rewrite lookup_alter_ne.
  - destruct (gs !! k) as [ip|] eqn:E; [|done]. intros ip'. specialize (Hi ip'). cbn in *.
    rewrite (conns_delete gs k ip ip' E). unfold guard_release. destruct (decide (ip = ip')) as [-> |].
    + rewrite lookup_alter_eq. pose proof (conns_pos gs ip' ltac:(by eapply list_elem_of_lookup_2)).
      destruct (nodes !! ip'); cbn in *; lia.
    + rewrite lookup_alter_ne by done. destruct (nodes !! ip'); lia.
Qed.

(** The node registry is bounded and never drops a connected node. After any interleaving of
    connections and (two-step) guard drops, every node with a connection open is registered with
    exactly that many connections; a further connection from any address leaves the state of every
    other connected node untouched, registers its own node, and keeps the registry within
    [NODE_STATE_CAP] entries unless connected nodes alone exceed it. *)
Theorem connected_nodes_survive_eviction (os : list reg_op) (ip now : Z) :
  let s := foldl reg_step (∅, []) os in
  let nodes' := get_or_insert s.1 ip now in
  (forall i, i ∈ s.2 -> exists n, s.1 !! i = Some n /\ open_conns n = conns s.2 i) /\
  (forall i, i ∈ s.2 -> i <> ip -> nodes' !! i = s.1 !! i) /\
  is_Some (nodes' !! ip) /\
  (s.1 !! ip = None ->
   (size nodes' <= Nat.max (Z.to_nat NODE_STATE_CAP) (held_count s.1 + 1))%nat).
Proof.
  cbn zeta. assert (Hi : reg_inv (foldl reg_step (∅, []) os)).
  { apply (foldl_inv reg_step reg_inv); [|intros; by apply reg_step_inv]. intros i. done. }
  destruct (foldl reg_step _ os) as [nodes gs]. cbn [fst snd].
  assert (Hin : forall i, i ∈ gs -> exists n, nodes !! i = Some n /\ open_conns n = conns gs i).
  { intros i Hin. specialize (Hi i). cbn in Hi. pose proof (conns_pos gs i Hin).
    destruct (nodes !! i); [by eauto|lia]. }
  destruct (evict_from_registry nodes now (Z.to_nat NODE_STATE_CAP) NODE_STATE_TTL_SECS)
    as (Hnd & Hfree & Hsize).
  split_and!; [done| | |].
  - intros i Hgs Hne. rewrite get_or_insert_other by done.
    destruct (nodes !! ip); [done|]. case_decide as Hev; [|done].
    destruct (Hfree i Hev) as (n & Hn & Hz). destruct (Hin i Hgs) as (n' & Hn' & Ho).
    pose proof (conns_pos gs i Hgs). simplify_eq. lia.
  - destruct (get_or_insert_self nodes ip now) as (n & -> & _). done.
  - intros Hno. unfold get_or_insert. rewrite Hno. fold (entries_of nodes).
    rewrite map_size_insert_None, size_remove_all; [lia|done| |].
    + intros i Hi'. destruct (Hfree i Hi') as (n & -> & _). done.
    + rewrite lookup_remove_all. by case_decide.
Qed.
End RegistryTraces.

(** ** Pins under concurrent sessions *)

Section PinTraces.
Context {P : Type}.

(** The steps sessions interleave; the blacklist may change between any two of them. *)
Inductive pin_op :=
| PTake (ip : string)                         (* pin_active: take an epoch *)
| PStore (k : nat)                            (* pin_active: store the k-th pin issued *)
| PLazy (f : UpstreamFilter) (ip : string)    (* pin_lazy_active *)
| PDrop (k : nat)                             (* the guard of the k-th pin issued is dropped *)
| PLook (f : UpstreamFilter).                 (* a snapshot, unpinning a blacklisted peer *)

(** The node and every pin issued, oldest first. *)
Definition pin_step (s : NodeState P * list ActivePeer) (o : pin_op) : NodeState P * list ActivePeer :=
  let '(n, ps) := s in
  match o with
  | PTake ip => let '(p, n) := take_epoch n ip in (n, ps ++ [p])
  | PStore k => match ps !! k with Some p => (store_pin n p, ps) | None => s end
  | PLazy f ip =>
      let '(p, n') := pin_lazy_active n ip in
      (n', if decide (next_active_epoch n' = next_active_epoch n) then ps else ps ++ [p])
  | PDrop k => match ps !! k with Some p => (clear_active_if_current n p, ps) | None => s end
  | PLook f => ((active_snapshot n).2, ps)
  end.

Definition pin_inv (s : NodeState P * list ActivePeer) : Prop :=
  ap_epoch <$> s.2 = seqZ 1 (Z.of_nat (length s.2)) /\
  next_active_epoch s.1 = Z.of_nat (length s.2).

Lemma pin_inv_issue n ps ip :
  Z.of_nat (length ps) + 1 < 2 ^ 64 -> pin_inv (n, ps) ->
  next_active_epoch (take_epoch n ip).2 = Z.of_nat (length ps) + 1 /\
  pin_inv ((take_epoch n ip).2, ps ++ [(take_epoch n ip).1]).
Proof.
  intros Hlt [Hs Hn]. cbn in Hs, Hn. unfold pin_inv. cbn [fst snd take_epoch next_active_epoch].
  rewrite Hn, Z.mod_small by lia. rewrite length_app. cbn [length]. split; [done|].
  split; [|lia]. rewrite fmap_app, Hs. cbn [fmap list_fmap ap_epoch].
  rewrite Nat2Z.inj_add, seqZ_app by lia. change (Z.of_nat 1) with 1.
  rewrite (seqZ_cons _ 1), (Z.add_comm _ 1) by lia. done.
Qed.

Lemma pin_step_inv s o :
  Z.of_nat (length s.2) + 1 < 2 ^ 64 -> pin_inv s ->
  pin_inv (pin_step s o) /\ (length (pin_step s o).2 <= S (length s.2))%nat.
Proof.
  destruct s as [n ps]. intros Hlt Hi. cbn in Hlt. destruct o as [ip|k|f ip|k|f]; cbn [pin_step].
  - pose proof (pin_inv_issue n ps ip Hlt Hi) as [_ H]. destruct (take_epoch n ip) as [p n'].
    split; [exact H|]. cbn. rewrite length_app. cbn. lia.
  - destruct (ps !! k); (split; [exact Hi|cbn; lia]).
  - unfold pin_lazy_active. destruct (n_active (unpin n)) as [p|] eqn:Ea.
    + rewrite decide_True by done. split; [exact Hi|cbn; lia].
    + assert (Hi' : pin_inv (unpin n, ps)) by exact Hi.
      pose proof (pin_inv_issue (unpin n) ps ip Hlt Hi') as [Hn' H].
      destruct (take_epoch (unpin n) ip) as [p n']. cbn in Hn'.
      rewrite decide_False; [split; [exact H|cbn; rewrite length_app; cbn; lia]|].
      destruct Hi as [_ Hn]. cbn in Hn |- *. lia.
  - destruct (ps !! k) as [p|]; [|split; [exact Hi|cbn; lia]].
    unfold clear_active_if_current. case_decide; (split; [exact Hi|cbn; lia]).
  - split; [exact Hi|cbn; lia].
Qed.

Lemma pin_run_inv s os :
  Z.of_nat (length s.2) + Z.of_nat (length os) < 2 ^ 64 -> pin_inv s -> pin_inv (foldl pin_step s os).
Proof.
  revert s. induction os as [|o os IH]; intros s Hlt Hi; [done|]. cbn [length] in Hlt. cbn [foldl].
  destruct (pin_step_inv s o) as [Hi' Hl]; [lia|done|]. apply IH; [lia|done].
Qed.

(** A session's guard unpins only its own session. Over any interleaving of session pins (with
    their two steps), lazy pins, guard drops, snapshots and blacklist changes, no two pins ever
    issued are equal, even to the same peer; so dropping the guard of one session leaves the pin of
    any other in place, and clears its own. *)
Theorem guard_drop_unpins_only_its_own (ip now : Z) (os : list pin_op) (j k : nat)
    (pj pk : ActivePeer) :
  Z.of_nat (length os) < 2 ^ 64 ->
  let s := foldl pin_step (NodeState_new ip now, []) os in
  s.2 !! j = Some pj -> s.2 !! k = Some pk -> j <> k ->
  pj <> pk /\ n_active (clear_active_if_current s.1 pj) <> Some pj /\
  (n_active s.1 = Some pj -> n_active (clear_active_if_current s.1 pk) = Some pj).
Proof.
  intros Hlt s Hj Hk Hne.
  assert (Hi : pin_inv s) by (apply pin_run_inv; [cbn; lia|done]).
  assert (Hpk : pj <> pk).
  { intros ->. apply Hne. destruct Hi as [He _].
    eapply (NoDup_lookup (ap_epoch <$> s.2)); [rewrite He; apply NoDup_seqZ| |];
      rewrite list_lookup_fmap, ?Hj, ?Hk; done. }
  split_and!; [done| |].
  - unfold clear_active_if_current. by case_decide.
  - intros Ha. unfold clear_active_if_current. case_decide; congruence.
Qed.
End PinTraces.

Lemma guard_drop_unpins_only_its_own_witness :
  let s := foldl (pin_step (P := unit)) (NodeState_new 1 0, [])
    [PTake "a"; PStore 0; PTake "a"; PStore 1] in
  n_active s.1 = Some (mkPeer "a" 2) /\
  n_active (clear_active_if_current s.1 (mkPeer "a" 1)) = Some (mkPeer "a" 2).
Proof.
  cbv zeta. split; [vm_compute; reflexivity|].
  apply (guard_drop_unpins_only_its_own (P := unit) 1 0 [PTake "a"; PStore 0; PTake "a"; PStore 1]
    1 0 (mkPeer "a" 2) (mkPeer "a" 1)); [cbn; lia|vm_compute; reflexivity..|lia|vm_compute; reflexivity].
Defined.

(** ** The catch-up verdict sees every batch of its window *)

Lemma list_max_ge l x : x ∈ l -> x <= list_max l.
Proof.
  destruct l as [|y l]; [by intros ?%elem_of_nil|]. cbn. revert x. induction l as [|z l IH]; intros x Hx; cbn.
  - apply list_elem_of_singleton in Hx. lia.
  - apply elem_of_cons in Hx as [-> |Hx]; [specialize (IH y ltac:(by left)); lia|].
    apply elem_of_cons in Hx as [-> |Hx]; [lia|]. specialize (IH x ltac:(by right)). lia.
Qed.

Lemma list_min_le l x : x ∈ l -> list_min l <= x.
Proof.
  destruct l as [|y l]; [by intros ?%elem_of_nil|]. cbn. revert x. induction l as [|z l IH]; intros x Hx; cbn.
  - apply list_elem_of_singleton in Hx. lia.
  - apply elem_of_cons in Hx as [-> |Hx]; [specialize (IH y ltac:(by left)); lia|].
    apply elem_of_cons in Hx as [-> |Hx]; [lia|]. specialize (IH x ltac:(by right)). lia.
Qed.

Definition run_batches (hist : list Sample) : option ClientBlockRun :=
  foldl (fun run s => Some (mark_client_blocks_response run (s_at s) (s_behind s) (s_width s)))
    None hist.

(** Why a batch no longer in the samples cannot matter: it is not after the run's start, or it is
    older than the sample span. *)
Definition outdated (r : ClientBlockRun) (s : Sample) : Prop :=
  s_at s <= run_since r \/ CATCHUP_SAMPLE_SPAN < run_last r - s_at s.

Definition run_inv (hist : list Sample) (r : ClientBlockRun) : Prop :=
  (exists pre, hist = pre ++ run_samples r /\ Forall (outdated r) pre) /\
  Forall (fun s => s_at s <= run_last r) hist /\ run_since r <= run_last r /\
  (exists s, s ∈ hist /\ s_at s = run_last r) /\
  (length (run_samples r) <= CATCHUP_MAX_SAMPLES)%nat.

Lemma drop_old_spec now l :
  exists gone, l = gone ++ drop_old now l /\ Forall (fun s => CATCHUP_SAMPLE_SPAN < now - s_at s) gone.
Proof.
  induction l as [|s l (gone & Hl & Hg)]; cbn; [by exists []|].
  destruct (Z.ltb_spec CATCHUP_SAMPLE_SPAN (since now (s_at s))) as [Hs|]; [|by exists []].
  exists (s :: gone). split; [cbn; by f_equal|]. constructor; [|done].
  unfold since, CATCHUP_SAMPLE_SPAN, seconds in *. lia.
Qed.

Lemma drop_excess_spec fuel start l :
  (length l <= fuel)%nat ->
  let '(start', l') := drop_excess fuel start l in
  (exists gone, l = gone ++ l' /\ Forall (fun s => s_at s <= start') gone) /\ start <= start' /\
  (length l' <= CATCHUP_MAX_SAMPLES)%nat /\
  (forall hi, start <= hi -> Forall (fun s => s_at s <= hi) l -> start' <= hi).
Proof.
  revert start l. induction fuel as [|fuel IH]; intros start l Hf; cbn [drop_excess].
  - destruct l; [|cbn in Hf; lia]. split_and!; [by exists []|lia|apply Nat.le_0_l|done].
  - destruct (Nat.ltb_spec CATCHUP_MAX_SAMPLES (length l)) as [Hgt|Hle].
    + destruct l as [|s l]; [by apply Nat.nlt_0_r in Hgt|]. cbn [length] in Hf.
      specialize (IH (Z.max start (s_at s)) l ltac:(lia)).
      destruct (drop_excess fuel _ l) as [start' l']. destruct IH as ((gone & -> & Hg) & Hm & Hlen & Hb).
      split_and!; [|lia|done|].
      * exists (s :: gone). split; [done|]. constructor; [lia|done].
      * intros hi Hs Hall. inversion Hall; subst. apply Hb; [lia|done].
    + split_and!; [by exists []|lia|done|auto].
Qed.

Lemma mark_inv hist run s :
  match run with None => hist = [] | Some r => run_inv hist r end ->
  (forall s', s' ∈ hist -> s_at s' <= s_at s) ->
  run_inv (hist ++ [s]) (mark_client_blocks_response run (s_at s) (s_behind s) (s_width s)).
Proof.
  intros Hr Hs. assert (Es : mkSample (s_at s) (s_behind s) (s_width s) = s) by (by destruct s).
  assert (Hall : Forall (fun x => s_at x <= s_at s) (hist ++ [s])).
  { apply Forall_app. split; [|by repeat constructor]. by apply Forall_forall. }
  assert (Hnew : run_inv (hist ++ [s]) (mkRun (s_at s) (s_at s) [s])).
  { split_and!; [|done|cbn; lia| |by apply Nat.leb_le]; [|exists s; split; [set_solver|done]]. exists hist. split; [done|].
    apply Forall_forall. intros x Hx. left. cbn. auto. }
  unfold mark_client_blocks_response. rewrite Es. destruct run as [r|]; [|done].
  destruct (_ <? CATCHUP_RUN_GAP); [|done].
  destruct Hr as ((pre & Hh & Hp) & Hle & Hsl & (x0 & Hx0 & Hlast) & _).
  assert (Hrl : run_last r <= s_at s) by (rewrite <- Hlast; auto).
  destruct (drop_old_spec (s_at s) (run_samples r ++ [s])) as (g1 & E1 & H1).
  set (l1 := drop_old _ _) in *.
  pose proof (drop_excess_spec (length l1) (run_since r) l1 ltac:(done)) as Hd.
  destruct (drop_excess _ _ l1) as [start l2]. destruct Hd as ((g2 & E2 & H2) & Hm & Hlen & Hb).
  assert (El : hist ++ [s] = (pre ++ g1) ++ l1) by (rewrite Hh, <- !app_assoc, E1; done).
  split_and!; cbn [run_samples run_last run_since]; [|done| | |done].
  - exists ((pre ++ g1) ++ g2). split; [by rewrite El, E2, <- !app_assoc|].
    rewrite !Forall_app. split_and!.
    + apply Forall_forall. intros x Hx. rewrite Forall_forall in Hp.
      destruct (Hp x Hx) as [?|?]; [left|right]; cbn; lia.
    + eapply Forall_impl; [exact H1|]. intros x Hx. right. exact Hx.
    + eapply Forall_impl; [exact H2|]. intros x Hx. left. exact Hx.
  - apply Hb; [lia|]. rewrite El, Forall_app in Hall. apply Hall.
  - exists s. split; [set_solver|done].
Qed.

(** Batches arrive in time order. *)
Definition in_order (hist : list Sample) : Prop := StronglySorted (fun a b => s_at a <= s_at b) hist.

Lemma run_batches_inv hist :
  in_order hist -> match run_batches hist with None => hist = [] | Some r => run_inv hist r end.
Proof.
  unfold run_batches, in_order. induction hist as [|s hist IH] using rev_ind; [done|]. intros Ho.
  rewrite foldl_app. cbn [foldl]. apply StronglySorted_app in Ho as (H1 & H2 & _).
  apply mark_inv; [by apply IH|]. intros s' Hs'. apply H1; [done|]. by left.
Qed.

(** A stuck-catch-up verdict has seen every batch. For any history of client-block batches in
    time order, however long or irregular, a verdict "still" over a window no longer than the
    sample span is a statement about all the batches of that window: none was forgotten, all had a
    known distance, the distances stay within [CATCHUP_PROGRESS_ROUNDS], they are not closing in and
    the typical request is small; and at most [CATCHUP_MAX_SAMPLES] samples are kept. *)
Theorem stalled_verdict_sees_every_batch (hist : list Sample) (now quiet window : Z) (b : option Z) :
  in_order hist -> Forall (fun s => s_at s <= now) hist -> 0 <= window <= CATCHUP_SAMPLE_SPAN ->
  client_blocks_stalled (run_batches hist) now quiet window = Some (true, b) ->
  let w := filter (fun s => now - window < s_at s) hist in
  (exists d, s_behind <$> w = Some <$> d /\ d <> [] /\
     (forall x y, x ∈ d -> y ∈ d -> x - y < CATCHUP_PROGRESS_ROUNDS) /\
     let third := Nat.max (length d / 3) 1 in
     median (take third d) - median (drop (length d - third) d) < CATCHUP_CLOSING_ROUNDS) /\
  median (s_width <$> w) < CATCHUP_LOOP_MAX_WIDTH /\
  (forall r, run_batches hist = Some r -> (length (run_samples r) <= CATCHUP_MAX_SAMPLES)%nat).
Proof.
  intros Ho Hnow Hw Hst. cbn zeta. pose proof (run_batches_inv hist Ho) as Hi.
  destruct (run_batches hist) as [r|]; [|done]. unfold client_blocks_stalled in Hst.
  destruct (negb _); [done|]. destruct (Z.ltb_spec (now - window) 0); [done|].
  destruct (Z.ltb_spec (now - window) (run_since r)) as [|Hsince]; [done|].
  destruct Hi as ((pre & Hh & Hp) & _ & _ & (x0 & Hx0 & Hlast) & Hlen).
  assert (Hfl : filter (fun s => now - window < s_at s) hist =
    filter (fun s => now - window < s_at s) (run_samples r)).
  { rewrite Hh, filter_app, (filter_none _ pre); [done|].
    eapply Forall_impl; [exact Hp|]. intros x [Hx|Hx]; [lia|].
    rewrite Forall_forall in Hnow. specialize (Hnow x0 Hx0). lia. }
  rewrite Hfl. set (w := filter _ (run_samples r)) in *.
  destruct (collect (s_behind <$> w)) as [[|d0 d']|] eqn:Ec; [done| |done].
  set (d := d0 :: d') in *. apply Some_inj, (f_equal fst) in Hst. cbn [fst] in Hst. zify_bool.
  split_and!; [|done|by intros ? [= <-]]. exists d. split_and!.
  - unfold collect in Ec. apply mapM_Some_1 in Ec. clear -Ec.
    induction Ec as [|x y l l' Hx _ IH]; [done|]. cbn. rewrite IH. f_equal. exact Hx.
  - done.
  - intros x y Hx Hy. pose proof (list_max_ge d x Hx). pose proof (list_min_le d y Hy). lia.
  - unfold sat_sub in *. lia.
Qed.

Definition example_batches : list Sample :=
  (fun k => mkSample (seconds (30 * k)) (Some (1000 + k mod 2)) 27) <$> seqZ 0 9.

Lemma stalled_verdict_sees_every_batch_witness :
  client_blocks_stalled (run_batches example_batches) (seconds 240) (seconds 60) (seconds 180) =
    Some (true, Some 1000) /\
  median (s_width <$> filter (fun s => seconds 240 - seconds 180 < s_at s) example_batches)
    < CATCHUP_LOOP_MAX_WIDTH.
Proof.
  assert (E : client_blocks_stalled (run_batches example_batches) (seconds 240) (seconds 60)
    (seconds 180) = Some (true, Some 1000)) by (vm_compute; reflexivity).
  split; [exact E|].
  apply (stalled_verdict_sees_every_batch example_batches (seconds 240) (seconds 60) (seconds 180)
    (Some 1000)); [| | |exact E].
  - repeat constructor; vm_compute; discriminate.
  - repeat constructor; vm_compute; discriminate.
  - unfold CATCHUP_SAMPLE_SPAN, seconds. lia.
Defined.
