(* ===== verification/Peers.v ===== *)
(** Finding peers: the peer files ([src/peerd/peers_file.rs]), the gossip crawl
    ([src/peerd/crawl.rs]) and the live probe ([src/peerd/probe.rs]). *)

From S2P Require Import Prelude Text Blacklist Wire.

(** ** Addresses in text *)

Definition is_ipv4 (s : string) : bool :=
  let ps := split_list DOT (chars s) in
  forallb (fun p =>
    negb (bool_decide (p = [])) && negb (3 <? length p)%nat &&
    match parse_uint_list u32_max p with Some n => n <=? 255 | None => false end) ps &&
  (length ps =? 4)%nat.

Definition str_starts (p s : string) : bool := bool_decide (take (length (chars p)) (chars s) = chars p).

Definition in_172_private (s : string) : bool :=
  str_starts "172." s &&
  match split_list DOT (drop 4 (chars s)) with
  | o :: _ => match parse_uint_list 255 o with
              | Some n => (16 <=? n) && (n <=? 31)
              | None => false
              end
  | [] => false
  end.

Definition is_routable (s : string) : bool :=
  if str_starts "0." s || str_starts "127." s || str_starts "10." s || str_starts "192.168." s ||
     str_starts "169.254." s || str_starts "255." s
  then false
  else negb (in_172_private s).

Definition keep_token (tok : list ascii) : bool := is_ipv4 (text tok) && is_routable (text tok).

(** [extract_ipv4]: [tok] is the token being read, empty between tokens. *)
Fixpoint extract_scan (tok l : list ascii) : list string :=
  match l with
  | [] => match tok with
          | [] => []
          | _ => if keep_token tok then [text tok] else []
          end
  | c :: l =>
      match tok with
      | [] => if is_digit c then extract_scan [c] l else extract_scan [] l
      | _ =>
          if is_digit c || bool_decide (c = DOT) then extract_scan (tok ++ [c]) l
          else (if keep_token tok then [text tok] else []) ++ extract_scan [] l
      end
  end.

Definition extract_ipv4 (s : string) : list string := extract_scan [] (chars s).

(** [read_node_peers], on the contents of the files read: first occurrences, in order. *)
Definition dedup_first (l : list string) : list string :=
  foldl (fun out ip => if decide (ip ∈ out) then out else out ++ [ip]) [] l.

Definition read_node_peers (files : list string) : list string :=
  dedup_first (mjoin (extract_ipv4 <$> files)).

Fixpoint find_after (pat l : list ascii) : option (list ascii) :=
  if decide (take (length pat) l = pat) then Some (drop (length pat) l)
  else match l with [] => None | _ :: l => find_after pat l end.

Fixpoint take_digits (l : list ascii) : list ascii :=
  match l with
  | c :: l => if is_digit c then c :: take_digits l else []
  | [] => []
  end.

Definition QUOTE_CH : ascii := of_code 34.

(** The key ["round_tip":] with its quotes. *)
Definition round_tip_key : list ascii := QUOTE_CH :: chars "round_tip" ++ [QUOTE_CH; COLON].

Definition extract_round_tip (contents : string) : option Z :=
  rest ← find_after round_tip_key (chars contents);
  parse_uint_list u32_max (take_digits rest).

(** ** The query_peers response *)

Definition QUERY_PEERS_REQUEST : bytes := [0; 0; 0; 1; 0; 1].
Definition MAX_QUERY_PEERS_RESP : Z := 65536.
Definition MAX_PEERS_PER_QUERY_RESPONSE : nat := 512.
Definition MAX_CANDIDATES : Z := 20000.

Definition read_hl_varint (b : bytes) : option (Z * nat) :=
  match b with
  | [] => None
  | lead :: r =>
      if lead =? 251 then if (2 <=? length r)%nat then Some (from_le (take 2 r), 3%nat) else None
      else if lead =? 252 then
        if (4 <=? length r)%nat then Some (from_le (take 4 r), 5%nat) else None
      else if lead =? 253 then
        if (8 <=? length r)%nat then Some (from_le (take 8 r), 9%nat) else None
      else if lead =? 254 then None
      else Some (lead, 1%nat)
  end.

(** The entry loop; [l] is the payload from [off] on. *)
Fixpoint parse_entries (fuel : nat) (count : Z) (l : bytes) : list string :=
  match fuel with
  | O => []
  | S fuel =>
      if count <=? 0 then []
      else
        match l with
        | d :: a :: b :: c :: e :: _ :: _ :: rest =>
            if d =? 0 then
              let ip := show_ipv4 (mkIp a b c e) in
              (if is_routable ip then [ip] else []) ++ parse_entries fuel (count - 1) rest
            else []
        | _ => []
        end
  end.

Definition parse_query_peers_response (payload : bytes) : list string :=
  match payload with
  | v :: rest =>
      if v =? 1 then
        match read_hl_varint rest with
        | None => []
        | Some (count, adv) => parse_entries (length payload) count (drop adv rest)
        end
      else []
  | [] => []
  end.

(** ** The crawl *)

(** Which queries complete first is up to the scheduler: any order of the targets. [query] is the
    answer of a peer ([None] if its task failed). *)
Class JoinOrder := {
  join_order : list string -> list string;
  join_order_perm : forall l, join_order l ≡ₚ l
}.

#[export] Instance spawn_order : JoinOrder | 100 :=
  { join_order l := l; join_order_perm l := Permutation_refl l }.

Record Crawl := mkCrawl {
  discovered : gset string;
  visited : gset string;
  frontier : list string;
  queries : Z;
  asked : list string              (* every peer queried, in order *)
}.

(** This hop's targets: unvisited, within the remaining budget. *)
Fixpoint pick_targets (remaining : Z) (seen : gset string) (targets : list string)
    (l : list string) : gset string * list string :=
  match l with
  | [] => (seen, targets)
  | ip :: l =>
      if remaining <=? Z.of_nat (length targets) then (seen, targets)
      else if decide (ip ∈ seen) then pick_targets remaining seen targets l
      else pick_targets remaining ({[ip]} ∪ seen) (targets ++ [ip]) l
  end.

Definition note_peer (self_ips seen : gset string) (st : gset string * gset string * list string)
    (p : string) : gset string * gset string * list string :=
  let '(disc, queued, next) := st in
  if decide (p ∈ self_ips) then st
  else
    let disc := if Z.of_nat (size disc) <? MAX_CANDIDATES then {[p]} ∪ disc else disc in
    if decide ((p ∉ seen) /\ (p ∉ queued)) then (disc, {[p]} ∪ queued, next ++ [p])
    else (disc, queued, next).

Section Crawling.
Context `{JoinOrder} (self_ips : gset string) (max_queries : Z)
        (query : string -> option (list string)).

Definition take_answer (seen : gset string) (st : gset string * gset string * list string)
    (ip : string) : gset string * gset string * list string :=
  match query ip with
  | Some ps => foldl (note_peer self_ips seen) st (take MAX_PEERS_PER_QUERY_RESPONSE ps)
  | None => st
  end.

Fixpoint crawl_hops (depth : nat) (c : Crawl) : Crawl :=
  match depth with
  | O => c
  | S depth =>
      if bool_decide (frontier c = []) || (max_queries <=? queries c) then c
      else
        let '(seen, targets) :=
          pick_targets (max_queries - queries c) (visited c) [] (frontier c) in
        if bool_decide (targets = []) then
          mkCrawl (discovered c) seen [] (queries c) (asked c)
        else
          let '(disc, _, next) :=
            foldl (take_answer seen) (discovered c, ∅, []) (join_order targets) in
          crawl_hops depth
            (mkCrawl disc seen next (queries c + Z.of_nat (length targets)) (asked c ++ targets))
  end.

Definition crawl_start (seeds : list string) : Crawl :=
  mkCrawl ∅ ∅ (filter (fun ip => ip ∉ self_ips) seeds) 0 [].

Definition crawl_peers_with (seeds : list string) (depth : nat) : Crawl :=
  crawl_hops depth (crawl_start seeds).
End Crawling.

(** ** The live probe *)

Inductive ProbeStatus :=
| NoLiveFrame | Live | ConnectTimeout | ConnectError | GreetWriteError | HeaderTimeout | HeaderEof
| HeaderError | PayloadTimeout | PayloadEof | PayloadError | OversizedFrame | PeerFull | StatusFrame
| LowRound | UnparseableBlock.

#[global] Instance ProbeStatus_eq_dec : EqDecision ProbeStatus.
Proof. solve_decision. Defined.

Definition probe_status_str (s : ProbeStatus) : string :=
  match s with
  | NoLiveFrame => "no_live_frame" | Live => "live" | ConnectTimeout => "connect_timeout"
  | ConnectError => "connect_error" | GreetWriteError => "greet_write_error"
  | HeaderTimeout => "header_timeout" | HeaderEof => "header_eof" | HeaderError => "header_error"
  | PayloadTimeout => "payload_timeout" | PayloadEof => "payload_eof"
  | PayloadError => "payload_error" | OversizedFrame => "oversized_frame"
  | PeerFull => "peer_full" | StatusFrame => "status_frame" | LowRound => "low_round"
  | UnparseableBlock => "unparseable_block"
  end.

Record LiveProbe := mkProbe { p_blocks : Z; p_max_round : option Z; p_status : ProbeStatus }.

Definition MAX_PROBE_FRAME : Z := 2000000.
Definition MIN_LIVE_BLOCKS : Z := 2.

Definition final_probe_status (blocks : Z) (status : ProbeStatus) : ProbeStatus :=
  if (MIN_LIVE_BLOCKS <=? blocks) && negb (bool_decide (status = PeerFull)) then Live else status.

(** What one iteration of the probe loop sees. *)
Inductive probe_payload := PlOk (b : bytes) | PlEof | PlError | PlTimeout.
Inductive probe_read :=
| PrDeadline | PrEof | PrError | PrTimeout | PrHeader (len typ : Z) (p : probe_payload).

Section Probe.
Context (lz4_decompress : bytes -> option bytes).

(** One frame: the updated counters, and whether the loop ends. *)
Definition probe_frame (blocks : Z) (mx : option Z) (status : ProbeStatus) (typ len : Z)
    (payload : bytes) : Z * option Z * ProbeStatus * bool :=
  if (typ =? 0) && (len =? 1) && bool_decide (head payload = Some 4)
  then (blocks, mx, PeerFull, true)
  else
    let status := if typ =? 0 then StatusFrame else status in
    if (typ =? 1) && (1 <? len) then
      match block_round lz4_decompress payload with
      | Some r =>
          if is_plausible_mainnet_round r 0
          then (blocks + 1, Some (match mx with Some p => Z.max p r | None => r end), Live, false)
          else (blocks, mx, LowRound, false)
      | None => (blocks, mx, UnparseableBlock, false)
      end
    else (blocks, mx, status, false).

Fixpoint probe_loop (blocks : Z) (mx : option Z) (status : ProbeStatus) (rs : list probe_read)
    : Z * option Z * ProbeStatus :=
  match rs with
  | [] | PrDeadline :: _ => (blocks, mx, status)
  | PrEof :: _ => (blocks, mx, HeaderEof)
  | PrError :: _ => (blocks, mx, HeaderError)
  | PrTimeout :: _ => (blocks, mx, HeaderTimeout)
  | PrHeader len typ p :: rs =>
      if MAX_PROBE_FRAME <? len then (blocks, mx, OversizedFrame)
      else
        match p with
        | PlEof => (blocks, mx, PayloadEof)
        | PlError => (blocks, mx, PayloadError)
        | PlTimeout => (blocks, mx, PayloadTimeout)
        | PlOk b =>
            let '(blocks, mx, status, stop) := probe_frame blocks mx status typ len b in
            if stop then (blocks, mx, status) else probe_loop blocks mx status rs
        end
  end.

Inductive probe_connect := PcOk | PcError | PcTimeout.

Definition probe_live (c : probe_connect) (greet_ok : bool) (rs : list probe_read) : LiveProbe :=
  match c with
  | PcError => mkProbe 0 None ConnectError
  | PcTimeout => mkProbe 0 None ConnectTimeout
  | PcOk =>
      if negb greet_ok then mkProbe 0 None GreetWriteError
      else
        let '(blocks, mx, status) := probe_loop 0 None NoLiveFrame rs in
        mkProbe blocks mx (final_probe_status blocks status)
  end.
End Probe.

(** ** The query_peers response round trip *)

Definition encode_hl_varint (n : Z) : bytes :=
  if n <? 251 then [n]
  else if n <? 2 ^ 16 then 251 :: to_le 2 n
  else if n <? 2 ^ 32 then 252 :: to_le 4 n
  else 253 :: to_le 8 n.

Definition encode_entry (i : Ipv4) : bytes := [0; oct1 i; oct2 i; oct3 i; oct4 i; 1; 1].

Definition encode_peers (l : list Ipv4) : bytes :=
  1 :: encode_hl_varint (Z.of_nat (length l)) ++ mjoin (encode_entry <$> l).

Lemma read_encode_varint n rest :
  0 <= n < 2 ^ 64 ->
  exists adv, read_hl_varint (encode_hl_varint n ++ rest) = Some (n, adv) /\
    drop adv (encode_hl_varint n ++ rest) = rest.
Proof.
  intros Hn. unfold encode_hl_varint, read_hl_varint.
  assert (Hle : forall k r, (k <=? length (to_le k n ++ r))%nat = true /\
    take k (to_le k n ++ r) = to_le k n).
  { intros k r. rewrite length_app, to_le_length. split; [apply Nat.leb_le; lia|].
    apply take_app_length'. symmetry; apply to_le_length. }
  destruct (Z.ltb_spec n 251).
  { cbn [app]. rewrite !(proj2 (Z.eqb_neq _ _)) by lia. by exists 1%nat. }
  destruct (Z.ltb_spec n (2 ^ 16)); [|destruct (Z.ltb_spec n (2 ^ 32))]; cbn [app Z.eqb Pos.eqb].
  - destruct (Hle 2%nat rest) as [-> ->]. rewrite from_le_to_le, Z.mod_small by lia. by exists 3%nat.
  - destruct (Hle 4%nat rest) as [-> ->]. rewrite from_le_to_le, Z.mod_small by lia. by exists 5%nat.
  - destruct (Hle 8%nat rest) as [-> ->]. rewrite from_le_to_le, Z.mod_small by lia. by exists 9%nat.
Qed.

Lemma parse_encode_entries fuel l rest :
  (length l <= fuel)%nat ->
  parse_entries fuel (Z.of_nat (length l)) (mjoin (encode_entry <$> l) ++ rest) =
  filter (fun s => is_routable s = true) (show_ipv4 <$> l).
Proof.
  revert fuel. induction l as [|i l IH]; intros fuel Hf.
  - by destruct fuel.
  - destruct fuel as [|fuel]; [cbn in Hf; lia|]. cbn [length] in *.
    cbn [parse_entries fmap list_fmap mjoin list_join encode_entry app].
    rewrite (proj2 (Z.leb_gt _ _)) by lia. change (0 =? 0) with true. cbv iota.
    replace (Z.of_nat (S (length l)) - 1) with (Z.of_nat (length l)) by lia.
    rewrite IH by lia. replace (mkIp (oct1 i) (oct2 i) (oct3 i) (oct4 i)) with i by (by destruct i).
    rewrite filter_cons. case_decide as Hr; [by rewrite Hr|]. by destruct (is_routable _).
Qed.

Lemma parse_entries_sound fuel count l :
  Forall is_byte l ->
  Forall (fun s => is_routable s = true /\ exists i, valid_ip i /\ s = show_ipv4 i)
    (parse_entries fuel count l) /\
  (7 * length (parse_entries fuel count l) <= length l)%nat /\
  Z.of_nat (length (parse_entries fuel count l)) <= Z.max 0 count.
Proof.
  revert count l. induction fuel as [|fuel IH]; intros count l Hb; cbn [parse_entries].
  { split_and!; [constructor|cbn; lia|cbn; lia]. }
  destruct (Z.leb_spec count 0); [split_and!; [constructor|cbn; lia|cbn; lia]|].
  destruct l as [|d [|a [|b [|c [|e [|x [|y rest]]]]]]];
    try (split_and!; [constructor|cbn; lia|cbn; lia]).
  destruct (d =? 0); [|split_and!; [constructor|cbn; lia|cbn; lia]].
  assert (Hb' : Forall is_byte rest) by (by do 7 (apply Forall_cons_1 in Hb as [? Hb])).
  destruct (IH (count - 1) rest Hb') as (H1 & H2 & H3).
  assert (Hv : valid_ip (mkIp a b c e)).
  { repeat (apply Forall_cons_1 in Hb as [? Hb]). unfold valid_ip, octet, is_byte in *. cbn. lia. }
  destruct (is_routable (show_ipv4 (mkIp a b c e))) eqn:Er; cbn [app length].
  - split_and!; [constructor; eauto|lia|lia].
  - split_and!; [done|lia|lia].
Qed.

(** Peer tables are read back exactly, and no response can mislead. A well-formed response for
    any table of up to 2^64 - 1 addresses, whatever follows it, parses to exactly its routable
    addresses in order; and for arbitrary response bytes every address returned is a routable IPv4
    in its canonical spelling, at most one per seven bytes. *)
Theorem query_peers_roundtrip (l : list Ipv4) (rest payload : bytes) :
  Z.of_nat (length l) < 2 ^ 64 -> Forall is_byte payload ->
  parse_query_peers_response (encode_peers l ++ rest) =
    filter (fun s => is_routable s = true) (show_ipv4 <$> l) /\
  Forall (fun s => is_routable s = true /\ exists i, valid_ip i /\ s = show_ipv4 i)
    (parse_query_peers_response payload) /\
  (7 * length (parse_query_peers_response payload) <= length payload)%nat.
Proof.
  intros Hlen Hp. split.
  - unfold encode_peers, parse_query_peers_response. cbn [app]. change (1 =? 1) with true. cbv iota.
    rewrite <- app_assoc.
    destruct (read_encode_varint (Z.of_nat (length l)) (mjoin (encode_entry <$> l) ++ rest))
      as (adv & -> & ->); [lia|].
    apply parse_encode_entries. cbn [length]. rewrite !length_app.
    enough (length l <= length (mjoin (encode_entry <$> l)))%nat by lia.
    clear. induction l as [|i l IH]; [apply Nat.le_0_l|]. rewrite fmap_cons.
    cbn [mjoin list_join]. rewrite length_app. cbn [encode_entry length].
    etransitivity; [apply le_n_S; exact IH|]. apply (Nat.add_le_mono_r 1 7). lia.
  - unfold parse_query_peers_response. destruct payload as [|v r]; [by repeat constructor|].
    destruct (v =? 1); [|split; [constructor|cbn; lia]].
    destruct (read_hl_varint r) as [[count adv]|]; [|split; [constructor|cbn; lia]].
    apply Forall_cons_1 in Hp as [_ Hp].
    destruct (parse_entries_sound (length (v :: r)) count (drop adv r)) as (H1 & H2 & _).
    { by apply Forall_drop. }
    split; [done|]. rewrite length_drop in H2. cbn [length] in *. lia.
Qed.

Lemma query_peers_roundtrip_witness :
  parse_query_peers_response (encode_peers [mkIp 1 2 3 4; mkIp 10 0 0 1] ++ []) =
    ["1.2.3.4"]%string.
Proof.
  destruct (query_peers_roundtrip [mkIp 1 2 3 4; mkIp 10 0 0 1] [] []) as [H _].
  - cbn. lia.
  - constructor.
  - rewrite H. vm_compute. reflexivity.
Defined.

(** ** The crawl is bounded *)

Lemma pick_targets_spec remaining seen targets l seen' targets' :
  pick_targets remaining seen targets l = (seen', targets') ->
  exists new, targets' = targets ++ new /\ NoDup new /\ (forall x, x ∈ new -> (x ∉ seen) /\ x ∈ l) /\
    (forall x, x ∈ seen' <-> x ∈ seen \/ x ∈ new) /\
    Z.of_nat (length targets') <= Z.max (Z.of_nat (length targets)) remaining.
Proof.
  revert seen targets. induction l as [|ip l IH]; intros seen targets; cbn [pick_targets].
  - intros [= <- <-]. exists []. rewrite app_nil_r.
    split_and!; [done|constructor|set_solver|set_solver|lia].
  - destruct (Z.leb_spec remaining (Z.of_nat (length targets))).
    + intros [= <- <-]. exists []. rewrite app_nil_r.
      split_and!; [done|constructor|set_solver|set_solver|lia].
    + case_decide as Hin.
      * intros (new & H1 & H2 & H3 & H4 & H5)%IH. exists new. split_and!; [done|done|set_solver|done|done].
      * intros (new & -> & H2 & H3 & H4 & H5)%IH. exists (ip :: new). rewrite <- app_assoc.
        split_and!; [done| | | |].
        -- constructor; [set_solver|done].
        -- set_solver.
        -- intros x. rewrite H4. set_solver.
        -- rewrite <- app_assoc in H5. rewrite !length_app in *. cbn [length] in *. lia.
Qed.

Section CrawlProofs.
Context `{JoinOrder} (self_ips : gset string) (max_queries : Z)
        (query : string -> option (list string)).

(** [p] was advertised by one of [from], among its first answers. *)
Definition advertised (from : list string) (p : string) : Prop :=
  exists ip ps, ip ∈ from /\ query ip = Some ps /\ p ∈ take MAX_PEERS_PER_QUERY_RESPONSE ps.

Definition answers_ok (from : list string) (st : gset string * gset string * list string) : Prop :=
  let '(disc, _, next) := st in
  Z.of_nat (size disc) <= MAX_CANDIDATES /\
  (forall p, p ∈ disc -> (p ∉ self_ips) /\ advertised from p) /\
  (forall p, p ∈ next -> p ∉ self_ips).

Lemma note_peer_ok from seen st p :
  answers_ok from st -> advertised from p -> answers_ok from (note_peer self_ips seen st p).
Proof.
  destruct st as [[disc queued] next]. intros (H1 & H2 & H3) Hp. unfold note_peer.
  case_decide as Hs; [done|].
  assert (Hd : let d := if Z.of_nat (size disc) <? MAX_CANDIDATES then {[p]} ∪ disc else disc in
    Z.of_nat (size d) <= MAX_CANDIDATES /\ forall x, x ∈ d -> (x ∉ self_ips) /\ advertised from x).
  { cbn zeta. destruct (Z.ltb_spec (Z.of_nat (size disc)) MAX_CANDIDATES); [|done]. split.
    - pose proof (size_union_alt (C := gset string) {[p]} disc) as Hu.
      assert (size (disc ∖ {[p]}) <= size disc)%nat by (apply subseteq_size; set_solver).
      rewrite size_singleton in Hu. lia.
    - intros x [Hx|Hx]%elem_of_union; [|auto]. by apply elem_of_singleton in Hx as ->. }
  destruct Hd as [Hd1 Hd2]. case_decide; cbn; (split_and!; [done|done|]).
  - intros x [?|Hx]%elem_of_app; [by auto|]. by apply list_elem_of_singleton in Hx as ->.
  - done.
Qed.

Lemma take_answer_ok from seen st ip :
  ip ∈ from -> answers_ok from st -> answers_ok from (take_answer self_ips query seen st ip).
Proof.
  intros Hip Hst. unfold take_answer. destruct (query ip) as [ps|] eqn:E; [|done].
  assert (Hall : forall p, p ∈ take MAX_PEERS_PER_QUERY_RESPONSE ps -> advertised from p)
    by (intros p Hp; by exists ip, ps).
  revert st Hst Hall. induction (take MAX_PEERS_PER_QUERY_RESPONSE ps) as [|p l IH];
    intros st Hst Hall; [done|]. cbn [foldl]. apply IH; [|intros; apply Hall; by right].
  apply note_peer_ok; [done|]. apply Hall. by left.
Qed.

Lemma take_answers_ok from seen l st :
  (forall ip, ip ∈ l -> ip ∈ from) -> answers_ok from st ->
  answers_ok from (foldl (take_answer self_ips query seen) st l).
Proof.
  revert st. induction l as [|ip l IH]; intros st Hl Hst; [done|]. cbn [foldl].
  apply IH; [intros; apply Hl; by right|]. apply take_answer_ok; [apply Hl; by left|done].
Qed.

Definition crawl_inv (c : Crawl) : Prop :=
  queries c = Z.of_nat (length (asked c)) /\ queries c <= max_queries /\ NoDup (asked c) /\
  (forall ip, ip ∈ asked c -> ip ∈ visited c /\ ip ∉ self_ips) /\
  answers_ok (asked c) (discovered c, ∅, frontier c).

Lemma advertised_mono from from' p : advertised from p -> advertised (from ++ from') p.
Proof. intros (ip & ps & ? & ?). exists ip, ps. split; [apply elem_of_app; by left|done]. Qed.

Lemma crawl_hops_inv depth c :
  crawl_inv c -> crawl_inv (crawl_hops self_ips max_queries query depth c).
Proof.
  revert c. induction depth as [|depth IH]; intros c Hc; cbn [crawl_hops]; [done|].
  destruct (_ || _) eqn:Eb; [done|]. apply orb_false_iff in Eb as [_ Eb]. zify_bool.
  destruct (pick_targets _ (visited c) [] (frontier c)) as [seen targets] eqn:Et.
  apply pick_targets_spec in Et as (new & -> & Hnd & Hnew & Hseen & Hlen). cbn [app] in *.
  destruct Hc as (H1 & H2 & H3 & H4 & H5 & H6 & H7).
  case_bool_decide as Hne.
  { split_and!; try done; cbn; [|set_solver].
    intros ip Hip. split; [apply Hseen; left|]; by apply H4. }
  pose proof (take_answers_ok (asked c ++ new) seen (join_order new) (discovered c, ∅, [])) as Hans.
  destruct (foldl _ _ _) as [[disc queued] next]. apply IH.
  cbn [length] in Hlen. split_and!; cbn.
  - rewrite length_app. lia.
  - lia.
  - apply NoDup_app. split_and!; [done| |done]. intros ip Hip Hin. apply Hnew in Hin as [Hv _].
    apply Hv. by apply H4.
  - intros ip [Hip|Hip]%elem_of_app.
    + split; [apply Hseen; left|]; by apply H4.
    + split; [apply Hseen; by right|]. apply H7. by apply Hnew.
  - apply Hans; [intros ip Hip; rewrite join_order_perm in Hip; apply elem_of_app; by right|].
    split_and!; [done| |set_solver]. intros p Hp. destruct (H6 p Hp). split; [done|].
    by apply advertised_mono.
Qed.

(** The crawl stays within its bounds, whatever the peers answer and in whatever order. It asks
    each address at most once and at most [max_queries] in all, never one of our own, and ends
    (after at most [depth] hops); what it discovers is at most [MAX_CANDIDATES] addresses, none our
    own, each among the first [MAX_PEERS_PER_QUERY_RESPONSE] answers of a peer it asked. *)
Theorem crawl_is_bounded (seeds : list string) (depth : nat) :
  0 <= max_queries ->
  let c := crawl_peers_with self_ips max_queries query seeds depth in
  Z.of_nat (length (asked c)) <= max_queries /\ NoDup (asked c) /\
  (forall ip, ip ∈ asked c -> ip ∉ self_ips) /\
  Z.of_nat (size (discovered c)) <= MAX_CANDIDATES /\
  (forall p, p ∈ discovered c -> (p ∉ self_ips) /\ advertised (asked c) p).
Proof.
  intros Hm. cbn zeta. destruct (crawl_hops_inv depth (crawl_start self_ips seeds))
    as (H1 & H2 & H3 & H4 & H5 & H6 & _).
  - unfold crawl_inv, answers_ok. cbn. split_and!; try done; try by apply NoDup_nil.
    1: by intros ? ?%elem_of_nil.
    intros p Hp. by apply list_elem_of_filter in Hp as [? _].
  - unfold crawl_peers_with. split_and!; [lia|done| |done|done]. intros ip Hip. by apply H4.
Qed.
End CrawlProofs.

Lemma crawl_is_bounded_witness :
  let q ip := if decide (ip = "a"%string) then Some ["b"; "me"; "c"]%string else None in
  let c := crawl_peers_with {["me"%string]} 2 q ["a"]%string 3 in
  asked c = ["a"; "b"]%string /\ Z.of_nat (length (asked c)) <= 2.
Proof.
  cbv zeta. split; [vm_compute; reflexivity|].
  apply (crawl_is_bounded {["me"%string]} 2
    (fun ip => if decide (ip = "a"%string) then Some ["b"; "me"; "c"]%string else None)
    ["a"]%string 3). lia.
Defined.

(** ** Reading addresses back *)

(** A token the readers recognise: an address made of digits and dots that starts with a digit. *)
Definition addr_char' (c : ascii) : bool := is_digit c || bool_decide (c = DOT).

Definition addr_ok (s : string) : Prop :=
  is_ipv4 s = true /\ is_routable s = true /\ forallb addr_char' (chars s) = true /\
  exists c l, chars s = c :: l /\ is_digit c = true.

Lemma extract_scan_sep tok a c b :
  addr_char' c = false ->
  extract_scan tok (a ++ c :: b) = extract_scan tok a ++ extract_scan [] b.
Proof.
  intros Hc. assert (Hd : is_digit c = false) by (unfold addr_char' in Hc; zify_bool; done).
  revert tok. induction a as [|x a IH]; intros tok; cbn [app extract_scan].
  - destruct tok as [|t tok]; [by rewrite Hd|]. unfold addr_char' in Hc. rewrite Hc.
    destruct (keep_token _); done.
  - destruct tok as [|t tok].
    + destruct (is_digit x); by rewrite IH.
    + destruct (_ || _); [by rewrite IH|]. rewrite IH. by rewrite app_assoc.
Qed.

Lemma extract_scan_token tok l :
  tok <> [] -> forallb addr_char' l = true ->
  extract_scan tok l = if keep_token (tok ++ l) then [text (tok ++ l)] else [].
Proof.
  revert tok. induction l as [|x l IH]; intros tok Ht Hl; cbn [extract_scan].
  - rewrite app_nil_r. by destruct tok.
  - cbn [forallb] in Hl. apply andb_true_iff in Hl as [Hx Hl]. destruct tok as [|t tok]; [done|].
    unfold addr_char' in Hx. rewrite Hx, IH by (done || by destruct tok).
    by rewrite <- app_assoc.
Qed.

Lemma extract_addr s : addr_ok s -> extract_scan [] (chars s) = [s].
Proof.
  intros (Hi & Hr & Ha & c & l & E & Hc). rewrite E. cbn [extract_scan]. rewrite Hc.
  rewrite E in Ha. cbn [forallb] in Ha. apply andb_true_iff in Ha as [_ Ha].
  rewrite extract_scan_token by done. unfold keep_token. cbn [app].
  rewrite <- E, text_chars, Hi, Hr. done.
Qed.

Lemma extract_no_digits l : forallb (fun c => negb (is_digit c)) l = true -> extract_scan [] l = [].
Proof.
  induction l as [|c l IH]; [done|]. cbn [forallb extract_scan]. intros H.
  apply andb_true_iff in H as [Hc H]. apply negb_true_iff in Hc. rewrite Hc. auto.
Qed.

(** A number is not an address. *)
Lemma extract_number n : 0 <= n -> extract_scan [] (show_list n) = [].
Proof.
  intros Hn. pose proof (show_list_digits n Hn) as Hd. pose proof (show_list_nonempty n).
  destruct (show_list n) as [|c l] eqn:E; [done|]. cbn [forallb] in Hd.
  apply andb_true_iff in Hd as [Hc Hl]. cbn [extract_scan]. rewrite Hc, extract_scan_token.
  - unfold keep_token, is_ipv4. rewrite chars_text. cbn [app].
    assert (split_list DOT (c :: l) = [c :: l]) as ->.
    { apply split_list_free. rewrite <- E. by apply dot_free. }
    cbn [length Nat.eqb]. by rewrite andb_false_r.
  - done.
  - rewrite forallb_forall in Hl |- *. intros x Hx. unfold addr_char'. by rewrite Hl.
Qed.

(** Everything the reader extracts is a token it recognises. *)
Lemma extract_scan_ok tok l :
  (tok <> [] -> forallb addr_char' tok = true /\ exists c r, tok = c :: r /\ is_digit c = true) ->
  Forall addr_ok (extract_scan tok l).
Proof.
  assert (Hkeep : forall t, keep_token t = true -> forallb addr_char' t = true ->
    (exists c r, t = c :: r /\ is_digit c = true) -> addr_ok (text t)).
  { intros t Hk Ha (c & r & -> & Hc). unfold keep_token in Hk. apply andb_true_iff in Hk as [? ?].
    split_and!; [done|done|by rewrite chars_text|]. rewrite chars_text. eauto. }
  revert tok. induction l as [|x l IH]; intros tok Ht; cbn [extract_scan].
  - destruct tok as [|c tok]; [constructor|]. destruct (Ht ltac:(done)) as [Ha Hd].
    destruct (keep_token _) eqn:E; [|constructor]. repeat constructor; by apply Hkeep.
  - destruct tok as [|c tok].
    + destruct (is_digit x) eqn:Ex; apply IH; [|done]. intros _. cbn. unfold addr_char'. rewrite Ex.
      split; [done|]. by exists x, [].
    + destruct (Ht ltac:(done)) as [Ha (c' & r & E & Hd)].
      destruct (is_digit x || bool_decide (x = DOT)) eqn:Ex.
      * apply IH. intros _. rewrite forallb_app, Ha. cbn. unfold addr_char' at 1. rewrite Ex.
        split; [done|]. injection E as -> ->. by exists c', (r ++ [x]).
      * apply Forall_app. split; [|by apply IH]. destruct (keep_token _) eqn:Ek; [|constructor].
        repeat constructor; try (apply Hkeep; eauto).
Qed.

Lemma extract_ipv4_ok s : Forall addr_ok (extract_ipv4 s).
Proof. by apply extract_scan_ok. Qed.

(** Canonical routable addresses are such tokens. *)
Lemma show_octet_length n : octet n -> (length (show_list n) <= 3)%nat.
Proof.
  intros H. assert (Hall : forallb (fun k => (length (show_list (Z.of_nat k)) <=? 3)%nat) (seq 0 256) = true)
    by (vm_compute; reflexivity).
  rewrite forallb_forall in Hall. specialize (Hall (Z.to_nat n)). unfold octet in H.
  rewrite Z2Nat.id in Hall by lia. apply Nat.leb_le, Hall, in_seq. lia.
Qed.

Lemma is_ipv4_show i : valid_ip i -> is_ipv4 (show_ipv4 i) = true.
Proof.
  intros Hv. unfold is_ipv4, show_ipv4. rewrite chars_text, split_show_ipv4 by done.
  destruct Hv as (H1 & H2 & H3 & H4).
  assert (Hp : forall n, octet n -> negb (bool_decide (show_list n = [])) &&
    negb (3 <? length (show_list n))%nat &&
    match parse_uint_list u32_max (show_list n) with Some m => m <=? 255 | None => false end = true).
  { intros n Hn. rewrite bool_decide_eq_false_2 by apply show_list_nonempty.
    rewrite (proj2 (Nat.ltb_ge _ _)) by (by apply show_octet_length). cbn [negb andb].
    pose proof (parse_uint_show u32_max n) as Hs. unfold parse_uint, show in Hs. rewrite chars_text in Hs.
    unfold octet in Hn. rewrite Hs by (unfold u32_max; lia). lia. }
  cbn [forallb]. by rewrite !Hp by done.
Qed.

Lemma addr_ok_show i : valid_ip i -> is_routable (show_ipv4 i) = true -> addr_ok (show_ipv4 i).
Proof.
  intros Hv Hr. split_and!; [by apply is_ipv4_show|done| |].
  - unfold show_ipv4. rewrite chars_text. unfold show_ipv4_list. destruct Hv as (H1 & H2 & H3 & H4).
    assert (Hd : forall n, octet n -> forallb addr_char' (show_list n) = true).
    { intros n Hn. pose proof (show_list_digits n ltac:(unfold octet in Hn; lia)) as Hl.
      rewrite forallb_forall in Hl |- *. intros x Hx. unfold addr_char'. by rewrite Hl. }
    rewrite !forallb_app. cbn [forallb]. rewrite !forallb_app. cbn [forallb]. rewrite !forallb_app.
    cbn [forallb]. by rewrite !Hd.
  - unfold show_ipv4. rewrite chars_text. unfold show_ipv4_list.
    pose proof (show_list_digits (oct1 i)) as Hd. pose proof (show_list_nonempty (oct1 i)).
    destruct Hv as (H1 & _). unfold octet in H1. specialize (Hd ltac:(lia)).
    destruct (show_list (oct1 i)) as [|c l]; [done|]. cbn in *. apply andb_true_iff in Hd as [? _]. eauto.
Qed.
