(* ===== verification/Peerd.v ===== *)
(** The discovery daemon: [src/peerd/daemon.rs].

    [peerd_cycle] is one iteration of [run_peerd]: exclusions, discovery, probing, ranking, and the
    pool file it writes. The network answers and file contents it reads are its inputs. *)

From S2P Require Import Prelude Text Blacklist Wire Peers.

(** ** Data and helpers *)

Definition MIN_LIVE_SERVERS_TO_OVERWRITE : nat := 8.
Definition MAX_LIVE_ROUND_LAG : Z := 50000.
Definition MAX_GOSSIP_ROOTS_BYTES : Z := 64 * 1024.
Definition PRUNE_AFTER : Z := 50.

Definition should_keep_previous_peer_pool (current_live previous_live : nat) (trusted : bool) : bool :=
  trusted && (0 <? previous_live)%nat &&
  ((current_live =? 0)%nat ||
   ((current_live <? MIN_LIVE_SERVERS_TO_OVERWRITE)%nat &&
    (MIN_LIVE_SERVERS_TO_OVERWRITE <=? previous_live)%nat)).

Definition quoted (s : string) : list ascii := QUOTE_CH :: chars s ++ [QUOTE_CH].

Definition previous_peer_pool_is_trusted (contents : string) : bool :=
  negb (contains_seq (quoted "candidate_fallback" ++ chars ":true") (chars contents)) &&
  negb (bool_decide (extract_ipv4 contents = [])).

Definition clustered_probe_tip (probes : list (string * LiveProbe)) : option Z :=
  corroborated_clustered_round (omap (fun e => p_max_round e.2) probes) 2 MAX_LIVE_ROUND_LAG.

(** Within [MAX_LIVE_ROUND_LAG] of the tip, both ways. *)
Definition near_tip (tip : Z) (e : string * LiveProbe) : bool :=
  match p_max_round e.2 with
  | Some r => (tip <=? sat_add32 r MAX_LIVE_ROUND_LAG) && (r <=? sat_add32 tip MAX_LIVE_ROUND_LAG)
  | None => false
  end.

Definition split_live_by_tip (probed : list (string * LiveProbe)) (tip : option Z)
    : list (string * LiveProbe) * list string :=
  match tip with
  | None => (probed, [])
  | Some t => (filter (fun e => near_tip t e = true) probed,
               (filter (fun e => near_tip t e = false) probed).*1)
  end.

Definition clamp_z (lo hi x : Z) : Z := Z.max lo (Z.min hi x).

Definition env_usize (v : option string) (dflt lo hi : Z) : Z :=
  match (s ← v; parse_uint u64_max s) with Some n => clamp_z lo hi n | None => dflt end.

Definition env_u64 (v : option string) (dflt lo hi : Z) : Z :=
  let hi := Z.max hi lo in
  match (s ← v; parse_uint u64_max s) with
  | Some n => clamp_z lo hi n
  | None => clamp_z lo hi dflt
  end.

Definition empty_pool_sleep_secs (interval streak max_backoff : Z) : Z :=
  if streak =? 0 then interval
  else
    let m := Z.shiftl 1 (Z.min streak 3) in
    clamp_z interval (Z.max max_backoff interval) (Z.min (interval * m) u64_max).

Definition next_empty_live_streak (streak : Z) (ranked_empty kept_previous : bool) : Z :=
  if ranked_empty && negb kept_previous then sat_add32 streak 1 else 0.

(** ** Choosing what to probe *)

(** The previous live peers first, up to [limit]. *)
Fixpoint take_previous (limit : nat) (candidates seen selected : list string) (prev : list string)
    : list string * list string :=
  match prev with
  | [] => (seen, selected)
  | ip :: prev =>
      if (limit <=? length selected)%nat then (seen, selected)
      else if decide (ip ∈ candidates /\ ip ∉ seen)
           then take_previous limit candidates (ip :: seen) (selected ++ [ip]) prev
           else take_previous limit candidates seen selected prev
  end.

(** The rotation: from [start], wrapping; returns how many positions were scanned. *)
Fixpoint rotate (fuel : nat) (all : list string) (start off remaining added : nat)
    (seen selected : list string) : list string * nat :=
  match fuel with
  | O => (selected, off)
  | S fuel =>
      let ip := nth ((start + off) mod length all) all EmptyString in
      if decide (ip ∈ seen) then rotate fuel all start (S off) remaining added seen selected
      else if (remaining <=? S added)%nat then (selected ++ [ip], S off)
      else rotate fuel all start (S off) remaining (S added) (ip :: seen) (selected ++ [ip])
  end.

Definition select_probe_candidates (all previous : list string) (max_per_cycle cursor : nat)
    : list string * nat :=
  let max_per_cycle := Nat.max max_per_cycle 1 in
  let limit := Nat.max (max_per_cycle / 2) 1 in
  let '(seen, selected) := take_previous limit all [] [] previous in
  let remaining := (max_per_cycle - length selected)%nat in
  let n := length all in
  if (0 <? remaining)%nat && (0 <? n)%nat then
    let start := (cursor mod n)%nat in
    let '(selected, scanned) := rotate n all start 0 remaining 0 seen selected in
    (selected, ((start + scanned) mod n)%nat)
  else (selected, cursor).

(** ** Parsing *)

Definition strip_prefix_ch (c : ascii) (l : list ascii) : option (list ascii) :=
  match l with x :: l => if decide (x = c) then Some l else None | [] => None end.

Definition strip_suffix_ch (c : ascii) (l : list ascii) : option (list ascii) :=
  r ← strip_prefix_ch c (rev l); Some (rev r).

Definition LBRACK : ascii := of_code 91.
Definition RBRACK : ascii := of_code 93.

Definition parse_ip_item (item : list ascii) : option (list string) :=
  l ← strip_prefix_ch QUOTE_CH (trim_list item);
  ip ← strip_suffix_ch QUOTE_CH l;
  _ ← parse_ipv4 (text ip);
  Some (if is_routable (text ip) then [text ip] else []).

Definition parse_ip_string_array (body : string) : option (list string) :=
  l ← strip_prefix_ch LBRACK (trim_list (chars body));
  l ← strip_suffix_ch RBRACK l;
  let inner := trim_list l in
  if decide (inner = []) then Some []
  else parts ← mapM parse_ip_item (split_list COMMA inner); Some (mjoin parts).

(** [utf8] is the decoded standard output, if it decodes. *)
Definition gossip_root_ips (success : bool) (len : Z) (utf8 : option string) : list string :=
  if negb success || (MAX_GOSSIP_ROOTS_BYTES <? len) then []
  else default [] (s ← utf8; parse_ip_string_array s).

Definition parse_peer_candidates (contents : string) : gset string :=
  list_to_set (filter (fun l => is_ipv4 l = true /\ is_routable l = true) (trim <$> lines contents)).

(** [order] is the iteration order of the set. *)
Definition format_peer_candidates (order : list string) : string :=
  text (mjoin ((fun ip => chars ip ++ [LF]) <$> order)).

(** ** Pool files *)

Definition drop_excluded (cands : gset string) (fails : gmap string Z) (excluded : gset string)
    : gset string * gmap string Z :=
  (filter (fun ip => ip ∉ excluded) cands, filter (fun e => e.1 ∉ excluded) fails).

Definition previous_live_pool (contents : string) (excluded : gset string) : list string * bool :=
  let ips := extract_ipv4 contents in
  let kept := filter (fun ip => ip ∉ excluded) ips in
  (kept, (length kept <? length ips)%nat).

Definition peer_pool_to_write (ranked pruned : list string) (kept_previous tainted : bool)
    : option (list string) :=
  match kept_previous, tainted with
  | false, _ => Some ranked
  | true, true => Some pruned
  | true, false => None
  end.

Definition push_fresh (out : list string) (ip : string) : list string :=
  if decide (ip ∈ out) then out else out ++ [ip].

(** Refilling with failed peers stops once the pool is thick enough. *)
Fixpoint refill (out : list string) (l : list string) : list string :=
  match l with
  | [] => out
  | ip :: l =>
      if (MIN_LIVE_SERVERS_TO_OVERWRITE <=? length out)%nat then out else refill (push_fresh out ip) l
  end.

Definition merge_kept_pool (ranked previous : list string) (failed : gset string) : list string :=
  refill (foldl push_fresh ranked (filter (fun ip => ip ∉ failed) previous))
    (filter (fun ip => ip ∈ failed) previous).

Fixpoint join_comma (l : list (list ascii)) : list ascii :=
  match l with
  | [] => []
  | [x] => x
  | x :: l => x ++ COMMA :: join_comma l
  end.

Definition tip_json (tip : option Z) : list ascii :=
  match tip with Some t => show_list t | None => chars "null" end.

(** The text of peers.json. *)
Definition render_pool_list (ips : list string) (n_candidates : Z) (tip : option Z) : list ascii :=
  chars "{" ++ quoted "live_servers" ++ chars ":[" ++ join_comma (quoted <$> ips) ++
  chars "]," ++ quoted "n_candidates" ++ chars ":" ++ show_list n_candidates ++
  chars "," ++ quoted "round_tip" ++ chars ":" ++ tip_json tip ++
  chars "," ++ quoted "candidate_fallback" ++ chars ":false}".

Definition render_pool (ips : list string) (n : Z) (tip : option Z) : string :=
  text (render_pool_list ips n tip).

(** ** One cycle *)

Record Peerd := mkPeerd {
  candidates : gset string;
  fail_counts : gmap string Z;
  empty_live_streak : Z;
  probe_cursor : nat;
  out_file : string
}.

(** What a cycle reads: exclusions (own nodes, priority peers, blacklist), the API's root
    addresses, the crawl's discoveries in iteration order, the node statistics files, the probe
    results in completion order, and the sort of the candidates. *)
Record CycleInput := mkCycle {
  excluded : gset string;
  roots : list string;
  crawled : list string;
  stats_ips : list string;
  probe : string -> option LiveProbe;
  complete : list string -> list string;
  probe_max : nat
}.

Definition insert_roots (ex : gset string) (c : gset string) (ips : list string) : gset string :=
  foldl (fun c ip => if decide (ip ∈ ex) then c else {[ip]} ∪ c) c ips.

Definition insert_crawled (ex : gset string) (c : gset string) (ips : list string) : gset string :=
  foldl (fun c ip =>
    if decide (ip ∈ ex \/ ip ∈ c) then c
    else if MAX_CANDIDATES <=? Z.of_nat (size c) then c else {[ip]} ∪ c) c ips.

Definition string_le (a b : string) : Prop := String.leb a b = true.

#[global] Instance string_le_dec : RelDecision string_le.
Proof. intros a b. unfold string_le. apply _. Defined.

Definition probe_is_live (p : LiveProbe) : bool :=
  (MIN_LIVE_BLOCKS <=? p_blocks p) &&
  match p_max_round p with Some r => is_plausible_mainnet_round r 0 | None => false end.

(** Better first: higher round, then more blocks. *)
Definition rank_ge (a b : string * LiveProbe) : Prop :=
  let ra := default (-1) (p_max_round a.2) in
  let rb := default (-1) (p_max_round b.2) in
  rb < ra \/ (ra = rb /\ p_blocks b.2 <= p_blocks a.2).

#[global] Instance rank_ge_dec : RelDecision rank_ge.
Proof. intros a b. unfold rank_ge. apply _. Defined.

(** Count a failed probe; prune after [PRUNE_AFTER] in a row. *)
Definition count_failure (st : gset string * gmap string Z) (ip : string)
    : gset string * gmap string Z :=
  let '(c, fails) := st in
  let n := default 0 (fails !! ip) + 1 in
  if PRUNE_AFTER <=? n then (c ∖ {[ip]}, delete ip fails) else (c, <[ip := n]> fails).

Definition cycle_candidates (s : Peerd) (i : CycleInput) : gset string * gmap string Z :=
  let '(c, fails) := drop_excluded (candidates s) (fail_counts s) (excluded i) in
  let c := insert_roots (excluded i) c (roots i) in
  let c := insert_crawled (excluded i) c (crawled i) in
  (insert_roots (excluded i) c (stats_ips i), fails).

(** A cycle: the state after it, and the text of the pool file it writes, if any. *)
Definition cycle_outcome (s : Peerd) (i : CycleInput) : Peerd * option string :=
  let '(c, fails) := cycle_candidates s i in
  let '(prev, tainted) := previous_live_pool (out_file s) (excluded i) in
  let all := merge_sort string_le (elements c) in
  let '(chosen, cursor) := select_probe_candidates all prev (probe_max i) (probe_cursor s) in
  let results := omap (fun ip => p ← probe i ip; Some (ip, p)) (complete i chosen) in
  let probed_live := filter (fun e => probe_is_live e.2 = true) results in
  let failed := (filter (fun e => probe_is_live e.2 = false) results).*1 in
  let tip := clustered_probe_tip probed_live in
  let '(live, lagged) := split_live_by_tip probed_live tip in
  let failed := failed ++ lagged in
  let fails := foldr delete fails live.*1 in
  let '(c', fails) := foldl count_failure (c, fails) failed in
  let ranked := (merge_sort rank_ge live).*1 in
  let trusted := previous_peer_pool_is_trusted (out_file s) in
  let kept := should_keep_previous_peer_pool (length ranked) (length prev) trusted in
  let published :=
    if kept && negb (bool_decide (ranked = [])) then Some (merge_kept_pool ranked prev (list_to_set failed))
    else peer_pool_to_write ranked prev kept tainted in
  let json := (fun ips => render_pool ips (Z.of_nat (length all)) tip) <$> published in
  (mkPeerd c' fails (next_empty_live_streak (empty_live_streak s) (bool_decide (ranked = [])) kept) cursor
     (default (out_file s) json), json).

(** With the file written. *)
Definition peerd_cycle (s : Peerd) (i : CycleInput) : Peerd := (cycle_outcome s i).1.

(** ** The pool file round trip *)

Lemma extract_skip a b :
  forallb (fun c => negb (is_digit c)) a = true -> extract_scan [] (a ++ b) = extract_scan [] b.
Proof.
  induction a as [|c a IH]; [done|]. cbn [forallb app extract_scan]. intros H.
  apply andb_true_iff in H as [Hc H]. apply negb_true_iff in Hc. rewrite Hc. auto.
Qed.

Lemma extract_quoted ip rest : addr_ok ip -> extract_scan [] (quoted ip ++ rest) = ip :: extract_scan [] rest.
Proof.
  intros Hip. unfold quoted. rewrite <- app_comm_cons, <- app_assoc.
  change (QUOTE_CH :: chars ip ++ [QUOTE_CH] ++ rest)
    with ([QUOTE_CH] ++ (chars ip ++ QUOTE_CH :: rest)).
  rewrite extract_skip by done. rewrite extract_scan_sep by done. by rewrite extract_addr.
Qed.

Lemma extract_servers ips rest :
  Forall addr_ok ips ->
  extract_scan [] (join_comma (quoted <$> ips) ++ rest) = ips ++ extract_scan [] rest.
Proof.
  intros H. induction H as [|ip ips Hip _ IH]; [done|]. rewrite fmap_cons.
  destruct ips as [|ip2 ips]; cbn [fmap list_fmap join_comma] in *.
  - by apply extract_quoted.
  - rewrite <- app_assoc, extract_quoted by done. cbn [app]. f_equal.
    change (COMMA :: ?x) with ([COMMA] ++ x). rewrite extract_skip by done. exact IH.
Qed.

Lemma extract_show n rest c :
  0 <= n -> addr_char' c = false -> extract_scan [] (show_list n ++ c :: rest) = extract_scan [] rest.
Proof. intros Hn Hc. rewrite extract_scan_sep by done. by rewrite extract_number. Qed.

(** No occurrence of the key before its place: nothing before it has [x] followed by [y]. *)
Fixpoint has_pair (x y : ascii) (l : list ascii) : bool :=
  match l with
  | a :: l => (bool_decide (a = x) && bool_decide (head l = Some y)) || has_pair x y l
  | [] => false
  end.

Lemma find_after_pair x y pat a b :
  x <> y -> has_pair x y a = false ->
  find_after (x :: y :: pat) (a ++ (x :: y :: pat) ++ b) = Some b.
Proof.
  intros Hxy. induction a as [|c a IH]; intros Hp.
  - cbn [app find_after]. rewrite decide_True.
    + cbn. f_equal. by apply drop_app_length.
    + cbn. do 2 f_equal. by apply take_app_length.
  - cbn [has_pair] in Hp. apply orb_false_iff in Hp as [Hh Hp].
    change ((c :: a) ++ ?z) with (c :: (a ++ z)). cbn [find_after]. rewrite decide_False; [by apply IH|].
    cbn [length take]. intros E. injection E as -> E.
    rewrite bool_decide_eq_true_2 in Hh by done. cbn in Hh. zify_bool.
    destruct a as [|d a]; cbn in E, Hh; injection E as E _; congruence.
Qed.

Lemma has_pair_app x y a b :
  has_pair x y a = false -> y ∉ b -> has_pair x y (a ++ b) = false.
Proof.
  intros Ha Hb. induction a as [|c a IH]; cbn [app has_pair].
  - induction b as [|c b IHb]; [done|]. cbn [has_pair].
    apply not_elem_of_cons in Hb as [Hc Hb]. rewrite IHb by done. rewrite orb_false_r.
    apply andb_false_iff. right. rewrite bool_decide_eq_false. destruct b as [|d b]; [done|]. cbn.
    apply not_elem_of_cons in Hb as [Hd _]. congruence.
  - cbn [has_pair] in Ha. apply orb_false_iff in Ha as [Hh Ha]. rewrite IH by done. rewrite orb_false_r.
    apply andb_false_iff in Hh as [Hh|Hh]; [by rewrite Hh|]. apply andb_false_iff. right.
    rewrite bool_decide_eq_false in Hh |- *. destruct a as [|d a]; [|done].
    cbn. destruct b as [|d b]; [done|]. cbn. apply not_elem_of_cons in Hb as [Hd _]. congruence.
Qed.

(** The letter after the key's opening quote does not occur in addresses and numbers. *)
Definition R_CH : ascii := of_code 114.

Lemma forallb_notin (p : ascii -> bool) c l : forallb p l = true -> p c = false -> c ∉ l.
Proof. intros Hl Hc Hin. rewrite forallb_forall in Hl. rewrite Hl in Hc; [done|]. by apply list_elem_of_In. Qed.

Lemma servers_no_r ips : Forall addr_ok ips -> R_CH ∉ join_comma (quoted <$> ips).
Proof.
  assert (Hq : forall ip, addr_ok ip -> R_CH ∉ quoted ip).
  { intros ip (_ & _ & Ha & _). unfold quoted.
    rewrite not_elem_of_cons, not_elem_of_app, list_elem_of_singleton. split_and!; [done| |done].
    by eapply forallb_notin. }
  intros H. induction H as [|ip ips Hip _ IH]; [apply not_elem_of_nil|]. rewrite fmap_cons.
  destruct ips as [|ip2 ips]; cbn [fmap list_fmap join_comma] in *; [by apply Hq|].
  rewrite not_elem_of_app, not_elem_of_cons. split_and!; [by apply Hq|done|exact IH].
Qed.

Lemma take_digits_app l c rest :
  forallb is_digit l = true -> is_digit c = false -> take_digits (l ++ c :: rest) = l.
Proof.
  intros Hl Hc. induction l as [|x l IH]; cbn; [by rewrite Hc|]. cbn in Hl.
  apply andb_true_iff in Hl as [Hx Hl]. rewrite Hx. f_equal. auto.
Qed.

Lemma extract_render ips n tip :
  Forall addr_ok ips -> 0 <= n -> (forall t, tip = Some t -> 0 <= t) ->
  extract_ipv4 (render_pool ips n tip) = ips.
Proof.
  intros Hips Hn Ht. unfold extract_ipv4, render_pool. rewrite chars_text. unfold render_pool_list.
  rewrite (extract_skip (chars "{")) by done. rewrite (extract_skip (quoted "live_servers")) by done.
  rewrite (extract_skip (chars ":[")) by done. rewrite extract_servers by done.
  rewrite <- (app_nil_r ips) at 2. f_equal.
  rewrite (extract_skip (chars "],")) by done. rewrite (extract_skip (quoted "n_candidates")) by done.
  rewrite (extract_skip (chars ":")) by done. change (chars "," ++ ?x) with (COMMA :: x).
  rewrite (extract_show n) by done. rewrite (extract_skip (quoted "round_tip")) by done.
  rewrite (extract_skip (chars ":")) by done.
  destruct tip as [t|]; cbn [tip_json].
  - change (chars "," ++ ?x) with (COMMA :: x). rewrite (extract_show t) by auto. by apply extract_no_digits.
  - by apply extract_no_digits.
Qed.

(** The rendered text around the round-tip key. *)
Lemma render_shape (j n t : list ascii) :
  chars "{" ++ quoted "live_servers" ++ chars ":[" ++ j ++ chars "]," ++ quoted "n_candidates" ++
  chars ":" ++ n ++ chars "," ++ quoted "round_tip" ++ chars ":" ++ t ++ chars "," ++
  quoted "candidate_fallback" ++ chars ":false}" =
  ((chars "{" ++ quoted "live_servers" ++ chars ":[") ++
   (j ++ chars "]," ++ quoted "n_candidates" ++ chars ":" ++ n ++ chars ",")) ++
  round_tip_key ++ (t ++ chars "," ++ quoted "candidate_fallback" ++ chars ":false}").
Proof. rewrite <- !app_assoc. reflexivity. Qed.

(** What peerd publishes is what the gateway reads. For any list of addresses peerd can hold
    (digits-and-dots IPv4 tokens, routable), any candidate count and any tip, reading the rendered
    peers.json back gives exactly those addresses in order and exactly that round tip (none for
    [null]); numbers in the file are never mistaken for addresses. *)
Theorem peers_json_roundtrip (ips : list string) (n : Z) (tip : option Z) :
  Forall addr_ok ips -> 0 <= n -> (forall t, tip = Some t -> is_u32 t) ->
  extract_ipv4 (render_pool ips n tip) = ips /\ extract_round_tip (render_pool ips n tip) = tip.
Proof.
  intros Hips Hn Ht. split; [apply extract_render; [done|done|intros t E; by apply Ht in E as [? _]]|].
  unfold extract_round_tip, render_pool. rewrite chars_text. unfold render_pool_list.
  set (lit := chars "{" ++ quoted "live_servers" ++ chars ":[").
  set (mid := join_comma (quoted <$> ips) ++ chars "]," ++ quoted "n_candidates" ++ chars ":" ++
    show_list n ++ chars ",").
  set (tail := tip_json tip ++ chars "," ++ quoted "candidate_fallback" ++ chars ":false}").
  rewrite (render_shape (join_comma (quoted <$> ips)) (show_list n) (tip_json tip)).
  fold lit mid tail.
  assert (E : find_after round_tip_key ((lit ++ mid) ++ round_tip_key ++ tail) = Some tail).
  { apply (find_after_pair QUOTE_CH R_CH); [done|]. apply has_pair_app; [vm_compute; reflexivity|].
    unfold mid. rewrite !not_elem_of_app. split_and!.
    - by apply servers_no_r.
    - by apply (bool_decide_unpack _).
    - by apply (bool_decide_unpack _).
    - by apply (bool_decide_unpack _).
    - eapply digits_free; [by apply show_list_digits|done].
    - by apply (bool_decide_unpack _). }
  rewrite E. cbn [mbind option_bind]. unfold tail. destruct tip as [t|]; cbn [tip_json]; [|done].
  destruct (Ht t eq_refl) as [Ht0 Ht1]. change (chars "," ++ ?x) with (COMMA :: x).
  rewrite take_digits_app by (done || by apply show_list_digits).
  pose proof (parse_uint_show u32_max t) as Hs. unfold parse_uint, show in Hs. rewrite chars_text in Hs.
  by apply Hs.
Qed.

Lemma example_addr : addr_ok "1.2.3.4".
Proof. change "1.2.3.4"%string with (show_ipv4 (mkIp 1 2 3 4)). apply addr_ok_show; [|done]. unfold valid_ip, octet. cbn. lia. Qed.

Lemma peers_json_roundtrip_witness :
  extract_ipv4 (render_pool ["1.2.3.4"]%string 12 (Some 1483968338)) = ["1.2.3.4"]%string /\
  extract_round_tip (render_pool ["1.2.3.4"]%string 12 (Some 1483968338)) = Some 1483968338.
Proof.
  apply (peers_json_roundtrip ["1.2.3.4"]%string 12 (Some 1483968338)).
  - repeat constructor; apply example_addr.
  - lia.
  - intros t [= <-]. unfold is_u32, u32_max. lia.
Defined.

(** ** Lemmas: one cycle *)

Lemma corroborated_nonneg rounds k gap t :
  Forall (fun r => 0 <= r) rounds -> corroborated_clustered_round rounds k gap = Some t -> 0 <= t.
Proof.
  intros Hr. unfold corroborated_clustered_round, best_round_cluster.
  destruct (_ || _); [done|]. destruct (foldl _ _ _) as [[bs bl] cs]. destruct (_ <=? _)%nat; [|done].
  cbn [fmap option_fmap option_map]. intros E. apply Some_inj in E as <-. set (c := take _ _).
  set (i := ((length c - 1) / 2)%nat).
  destruct (nth_in_or_default i c 0) as [Hin| ->]; [|lia].
  assert (Hs : nth i c 0 ∈ merge_sort Z.le rounds).
  { apply list_elem_of_In in Hin. unfold c in Hin. set (v := nth i c 0) in *.
    apply elem_of_take in Hin as (j & Hj & _). rewrite lookup_drop in Hj.
    by eapply list_elem_of_lookup_2. }
  rewrite merge_sort_Permutation in Hs. rewrite Forall_forall in Hr. by apply Hr.
Qed.

Lemma insert_roots_spec ex c l x :
  x ∈ insert_roots ex c l <-> x ∈ c \/ (x ∈ l /\ x ∉ ex).
Proof.
  unfold insert_roots. revert c. induction l as [|y l IH]; intros c; cbn [foldl].
  - split; [by left|]. intros [?|[H _]]; [done|]. by apply elem_of_nil in H.
  - rewrite IH. case_decide; set_solver.
Qed.

Lemma insert_crawled_sub ex c l x :
  x ∈ insert_crawled ex c l -> x ∈ c \/ (x ∈ l /\ x ∉ ex).
Proof.
  unfold insert_crawled. revert c. induction l as [|y l IH]; intros c; cbn [foldl]; [by left|].
  intros H. apply IH in H. case_decide; [set_solver|].
  destruct (_ <=? _); set_solver.
Qed.

Lemma take_previous_sub limit cands seen sel prev seen' sel' :
  take_previous limit cands seen sel prev = (seen', sel') ->
  (forall x, x ∈ sel -> x ∈ cands) -> forall x, x ∈ sel' -> x ∈ cands.
Proof.
  revert seen sel. induction prev as [|ip prev IH]; intros seen sel; cbn [take_previous].
  - by intros [= <- <-].
  - destruct (_ <=? _)%nat; [by intros [= <- <-]|]. case_decide as Hd; intros E Hs.
    + apply (IH _ _ E). intros x [?|Hx]%elem_of_app; [by auto|].
      apply list_elem_of_singleton in Hx as ->. apply Hd.
    + by apply (IH _ _ E).
Qed.

Lemma rotate_sub fuel all start off remaining added seen sel sel' k :
  (0 < length all)%nat -> rotate fuel all start off remaining added seen sel = (sel', k) ->
  (forall x, x ∈ sel -> x ∈ all) -> forall x, x ∈ sel' -> x ∈ all.
Proof.
  intros Hn. revert off added seen sel. induction fuel as [|fuel IH]; intros off added seen sel; cbn [rotate].
  { by intros [= <- _]. }
  set (ip := nth _ all _).
  assert (Hip : ip ∈ all) by (apply list_elem_of_In, nth_In, Nat.mod_upper_bound; lia).
  assert (Hs : (forall x, x ∈ sel -> x ∈ all) -> forall x, x ∈ sel ++ [ip] -> x ∈ all).
  { intros Hsel x [?|Hx]%elem_of_app; [by auto|]. by apply list_elem_of_singleton in Hx as ->. }
  case_decide; [by apply IH|]. destruct (_ <=? _)%nat.
  - intros [= <- _]. auto.
  - intros E Hsel. apply (IH _ _ _ _ E). auto.
Qed.

Lemma select_sub all prev m cursor x :
  x ∈ (select_probe_candidates all prev m cursor).1 -> x ∈ all.
Proof.
  unfold select_probe_candidates. set (mx := Nat.max m 1).
  destruct (take_previous _ all [] [] prev) as [seen sel] eqn:E.
  assert (Hsel : forall x, x ∈ sel -> x ∈ all)
    by (eapply take_previous_sub; [exact E|]; by intros ? ?%elem_of_nil).
  destruct (_ && _) eqn:Eb; [|apply Hsel].
  destruct (rotate _ _ _ _ _ _ _ _) as [sel' k] eqn:Er. cbn [fst].
  eapply rotate_sub; [|exact Er|exact Hsel]. apply andb_true_iff in Eb as [_ Eb]. by apply Nat.ltb_lt.
Qed.

Lemma push_fresh_in out ip x : x ∈ push_fresh out ip <-> x ∈ out \/ x = ip.
Proof. unfold push_fresh. case_decide; set_solver. Qed.

Lemma foldl_push_fresh_in l out x : x ∈ foldl push_fresh out l <-> x ∈ out \/ x ∈ l.
Proof.
  revert out. induction l as [|y l IH]; intros out; cbn [foldl]; [set_solver|].
  rewrite IH, push_fresh_in. set_solver.
Qed.

Lemma refill_in l out x : x ∈ refill out l -> x ∈ out \/ x ∈ l.
Proof.
  revert out. induction l as [|y l IH]; intros out; cbn [refill]; [by left|].
  destruct (_ <=? _)%nat; [by left|]. intros [H|H]%IH; [|set_solver].
  apply push_fresh_in in H. set_solver.
Qed.

Lemma refill_keeps l out x : x ∈ out -> x ∈ refill out l.
Proof.
  revert out. induction l as [|y l IH]; intros out Hx; cbn [refill]; [done|].
  destruct (_ <=? _)%nat; [done|]. apply IH, push_fresh_in. by left.
Qed.

Lemma merge_kept_sub ranked prev failed x :
  x ∈ merge_kept_pool ranked prev failed -> x ∈ ranked \/ x ∈ prev.
Proof.
  unfold merge_kept_pool. intros [H|H]%refill_in.
  - apply foldl_push_fresh_in in H as [?|H]; [by left|]. apply list_elem_of_filter in H as [_ ?]. by right.
  - apply list_elem_of_filter in H as [_ ?]. by right.
Qed.

Lemma merge_kept_ranked ranked prev failed x :
  x ∈ ranked -> x ∈ merge_kept_pool ranked prev failed.
Proof. intros H. apply refill_keeps, foldl_push_fresh_in. by left. Qed.

Lemma count_failures_sub l st x : x ∈ (foldl count_failure st l).1 -> x ∈ st.1.
Proof.
  revert st. induction l as [|y l IH]; intros [c f]; cbn [foldl]; [done|].
  intros H%IH. unfold count_failure in H. destruct (_ <=? _); cbn in *; set_solver.
Qed.

(** ** The published pool *)

Definition clean (ex : gset string) (ip : string) : Prop := addr_ok ip /\ ip ∉ ex.

(** What discovery delivers: recognised addresses; probes complete in some order. *)
Definition input_ok (i : CycleInput) : Prop :=
  Forall addr_ok (roots i) /\ Forall addr_ok (crawled i) /\ Forall addr_ok (stats_ips i) /\
  (forall l, complete i l ≡ₚ l).

Lemma cycle_candidates_clean s i x :
  (forall ip, ip ∈ candidates s -> addr_ok ip) -> input_ok i ->
  x ∈ (cycle_candidates s i).1 -> clean (excluded i) x.
Proof.
  intros Hs (Hr & Hc & Ht & _). unfold cycle_candidates, drop_excluded. cbn [fst].
  rewrite Forall_forall in Hr, Hc, Ht. intros [H|[? ?]]%insert_roots_spec; [|split; auto].
  apply insert_crawled_sub in H as [H|[? ?]]; [|split; auto].
  apply insert_roots_spec in H as [H|[? ?]]; [|split; auto].
  apply elem_of_filter in H as [? ?]. split; auto.
Qed.

Lemma previous_pool_clean contents ex x : x ∈ (previous_live_pool contents ex).1 -> clean ex x.
Proof.
  cbn. intros [He Hx]%list_elem_of_filter. split; [|done].
  pose proof (extract_ipv4_ok contents) as H. rewrite Forall_forall in H. auto.
Qed.

Lemma not_tainted contents ex x :
  (previous_live_pool contents ex).2 = false -> x ∈ extract_ipv4 contents -> x ∉ ex.
Proof.
  cbn. intros H Hx. apply Nat.ltb_ge in H. intros Hex.
  assert (Hl : (length (filter (fun ip => ip ∉ ex) (extract_ipv4 contents)) < length (extract_ipv4 contents))%nat).
  { clear H. induction (extract_ipv4 contents) as [|y l IH]; [by apply elem_of_nil in Hx|].
    rewrite filter_cons. apply elem_of_cons in Hx as [-> |Hx].
    - rewrite decide_False by (intros Hn; done). pose proof (length_filter (fun ip => ip ∉ ex) l). cbn. lia.
    - specialize (IH Hx). case_decide; cbn; lia. }
  lia.
Qed.

Lemma results_chosen (i : CycleInput) chosen ip p :
  (forall l, complete i l ≡ₚ l) ->
  (ip, p) ∈ omap (fun ip => p ← probe i ip; Some (ip, p)) (complete i chosen) -> ip ∈ chosen.
Proof.
  intros Hc H. apply list_elem_of_omap in H as (x & Hx & E). rewrite Hc in Hx.
  destruct (probe i x); [|done]. cbn in E. by simplify_eq.
Qed.

Lemma split_live_sub probed tip e : e ∈ (split_live_by_tip probed tip).1 -> e ∈ probed.
Proof. destruct tip as [t|]; cbn; [|done]. by intros [_ ?]%list_elem_of_filter. Qed.

Lemma live_tip_nonneg results t :
  clustered_probe_tip (filter (fun e => probe_is_live e.2 = true) results) = Some t -> 0 <= t.
Proof.
  apply corroborated_nonneg. apply Forall_forall. intros r Hr.
  apply list_elem_of_omap in Hr as ([ip p] & Hin & Hp). apply list_elem_of_filter in Hin as [Hl _].
  cbn in *. unfold probe_is_live in Hl. rewrite Hp in Hl. apply andb_true_iff in Hl as [_ Hl].
  unfold is_plausible_mainnet_round, MIN_PLAUSIBLE_MAINNET_ROUND in Hl. zify_bool. lia.
Qed.

(** The pool peerd publishes is clean and never goes empty. From a state whose candidates are
    addresses, and for any answers of the API, the crawl, the statistics files and the probes, after
    a cycle the pool file read back by the gateway names no excluded address (our own nodes,
    priority peers, the blacklist), whatever the file said before; the candidates kept are addresses
    and not excluded; and if the previous pool was trusted and had a server that is not excluded,
    the new file still has one, however badly the probes went. *)
Theorem published_pool_is_clean (s : Peerd) (i : CycleInput) :
  (forall ip, ip ∈ candidates s -> addr_ok ip) -> input_ok i ->
  let s' := peerd_cycle s i in
  (forall ip, ip ∈ extract_ipv4 (out_file s') -> ip ∉ excluded i) /\
  (forall ip, ip ∈ candidates s' -> clean (excluded i) ip) /\
  (previous_peer_pool_is_trusted (out_file s) = true ->
   (exists ip, ip ∈ extract_ipv4 (out_file s) /\ ip ∉ excluded i) ->
   extract_ipv4 (out_file s') <> []).
Proof.
  intros Hs Hi. cbn zeta. unfold peerd_cycle, cycle_outcome.
  pose proof (fun x => cycle_candidates_clean s i x Hs Hi) as Hcand.
  destruct (cycle_candidates s i) as [c fails]. cbn [fst] in Hcand.
  pose proof (previous_pool_clean (out_file s) (excluded i)) as Hprev.
  pose proof (not_tainted (out_file s) (excluded i)) as Htaint.
  assert (Hne : (exists ip, ip ∈ extract_ipv4 (out_file s) /\ ip ∉ excluded i) ->
    (previous_live_pool (out_file s) (excluded i)).1 <> []).
  { intros (ip & Hip & Hex) E. cbn in E. assert (Hin : ip ∈ filter (fun ip => ip ∉ excluded i)
      (extract_ipv4 (out_file s))) by (by apply list_elem_of_filter). rewrite E in Hin.
    by apply elem_of_nil in Hin. }
  destruct (previous_live_pool (out_file s) (excluded i)) as [prev tainted]. cbn [fst snd] in *.
  set (all := merge_sort string_le (elements c)).
  pose proof (select_sub all prev (probe_max i) (probe_cursor s)) as Hsel.
  destruct (select_probe_candidates all prev (probe_max i) (probe_cursor s)) as [chosen cursor].
  cbn [fst] in Hsel.
  set (results := omap _ (complete i chosen)).
  set (pl := filter (fun e => probe_is_live e.2 = true) results).
  pose proof (live_tip_nonneg results) as Htip. fold pl in Htip.
  pose proof (split_live_sub pl (clustered_probe_tip pl)) as Hlive.
  destruct (split_live_by_tip pl (clustered_probe_tip pl)) as [live lagged]. cbn [fst] in Hlive.
  set (fl := _ ++ lagged). pose proof (count_failures_sub fl (c, foldr delete fails live.*1)) as Hfail.
  destruct (foldl count_failure _ fl) as [c' fails']. cbn [fst] in Hfail.
  set (ranked := (merge_sort rank_ge live).*1).
  assert (Hranked : forall x, x ∈ ranked -> clean (excluded i) x).
  { intros x Hx. unfold ranked in Hx. rewrite merge_sort_Permutation in Hx.
    apply list_elem_of_fmap in Hx as ([ip p] & -> & Hx). apply Hlive in Hx.
    apply list_elem_of_filter in Hx as [_ Hx]. apply results_chosen in Hx; [|apply Hi].
    apply Hsel in Hx. unfold all in Hx. rewrite merge_sort_Permutation in Hx.
    apply Hcand. by apply elem_of_elements. }
  set (kept := should_keep_previous_peer_pool _ _ _).
  set (pub := if kept && _ then _ else _). cbn [out_file candidates].
  assert (Hpub : forall ips, pub = Some ips -> forall x, x ∈ ips -> clean (excluded i) x).
  { intros ips. unfold pub. destruct (kept && _).
    - intros [= <-] x [?|?]%merge_kept_sub; auto.
    - unfold peer_pool_to_write. destruct kept, tainted; intros [= <-]; auto. }
  assert (Hread : forall ips, pub = Some ips ->
    extract_ipv4 (render_pool ips (Z.of_nat (length all)) (clustered_probe_tip pl)) = ips).
  { intros ips E. apply extract_render; [|lia|done]. apply Forall_forall. intros x Hx.
    by apply (Hpub ips E x Hx). }
  split_and!.
  - intros ip. destruct pub as [ips|] eqn:E; cbn [fst out_file fmap option_fmap option_map from_option id].
    + rewrite (Hread ips eq_refl). intros Hip. by apply (Hpub ips eq_refl).
    + apply Htaint. unfold pub in E. destruct (kept && _); [done|].
      unfold peer_pool_to_write in E. by destruct kept, tainted.
  - intros ip Hip. apply Hcand. by apply Hfail.
  - intros Htr Hex. specialize (Hne Hex). destruct pub as [ips|] eqn:E;
      cbn [fst out_file fmap option_fmap option_map from_option id].
    + rewrite (Hread ips eq_refl). unfold pub in E. intros ->.
      assert (Hk : ranked = [] -> kept = true).
      { intros Er. unfold kept, should_keep_previous_peer_pool. rewrite Er, Htr.
        destruct prev; [done|]. done. }
      destruct (kept && negb (bool_decide (ranked = []))) eqn:Ek.
      * apply andb_true_iff in Ek as [_ Ek]. zify_bool. destruct ranked as [|x r]; [done|].
        apply Some_inj in E. pose proof (merge_kept_ranked (x :: r) prev (list_to_set fl) x ltac:(by left)) as Hx.
        rewrite E in Hx. by apply elem_of_nil in Hx.
      * unfold peer_pool_to_write in E. destruct kept; [destruct tainted; by simplify_eq|].
        apply Some_inj in E. by apply Hk in E.
    + destruct Hex as (ip & Hip & _). intros Enil. rewrite Enil in Hip. by apply elem_of_nil in Hip.
Qed.

Definition example_peerd : Peerd :=
  mkPeerd {["1.2.3.4"%string]} ∅ 0 0 (render_pool ["5.6.7.8"]%string 1 None).

Definition example_cycle : CycleInput :=
  mkCycle {["1.2.3.4"%string]} [] [] [] (fun _ => None) id 32.

Lemma published_pool_is_clean_witness :
  extract_ipv4 (out_file (peerd_cycle example_peerd example_cycle)) = ["5.6.7.8"]%string /\
  extract_ipv4 (out_file (peerd_cycle example_peerd example_cycle)) <> [].
Proof.
  split; [vm_compute; reflexivity|].
  apply (published_pool_is_clean example_peerd example_cycle).
  - intros ip Hip. cbn in Hip. apply elem_of_singleton in Hip as ->. apply example_addr.
  - split_and!; [constructor|constructor|constructor|done].
  - vm_compute. reflexivity.
  - exists "5.6.7.8"%string. split; [by apply (bool_decide_unpack _)|by apply (bool_decide_unpack _)].
Defined.

(** ** Rotation reaches every candidate *)

(** [seen] holds exactly the selected addresses, each selected once. *)
Definition sel_inv (seen sel : list string) : Prop := NoDup sel /\ forall x, x ∈ seen <-> x ∈ sel.

Lemma sel_inv_push seen sel ip : sel_inv seen sel -> ip ∉ seen -> sel_inv (ip :: seen) (sel ++ [ip]).
Proof.
  intros [Hn Hs] Hip. split.
  - apply NoDup_app. split_and!; [done| |apply NoDup_singleton].
    intros x Hx Hx'%list_elem_of_singleton. subst. apply Hip. by apply Hs.
  - intros x. rewrite elem_of_cons, elem_of_app, list_elem_of_singleton, Hs. tauto.
Qed.

Lemma take_previous_inv limit cands seen sel prev seen' sel' :
  take_previous limit cands seen sel prev = (seen', sel') -> sel_inv seen sel ->
  sel_inv seen' sel' /\ (length sel' <= Nat.max (length sel) limit)%nat.
Proof.
  revert seen sel. induction prev as [|ip prev IH]; intros seen sel; cbn [take_previous].
  - intros [= <- <-]. split; [done|lia].
  - destruct (Nat.leb_spec limit (length sel)); [intros [= <- <-]; split; [done|lia]|].
    case_decide as Hd; intros E Hs; apply IH in E as [? Hl].
    + split; [done|]. rewrite length_app in Hl. cbn in Hl. lia.
    + apply sel_inv_push; [done|apply Hd].
    + done.
    + done.
Qed.

Lemma rotate_inv fuel all start off remaining added seen sel sel' k :
  rotate fuel all start off remaining added seen sel = (sel', k) -> sel_inv seen sel ->
  (added < remaining)%nat ->
  NoDup sel' /\ (length sel' <= length sel + (remaining - added))%nat /\
  (forall x, x ∈ sel -> x ∈ sel') /\ (off <= k <= off + fuel)%nat /\ ((0 < fuel)%nat -> (off < k)%nat) /\
  (forall j, (off <= j < k)%nat -> nth ((start + j) mod length all) all EmptyString ∈ sel').
Proof.
  revert off added seen sel. induction fuel as [|fuel IH]; intros off added seen sel; cbn [rotate].
  { intros [= <- <-] [Hn _] _. split_and!; [done|lia|done|lia|lia|lia|lia]. }
  set (ip := nth ((start + off) mod length all) all EmptyString). case_decide as Hin.
  - intros E Hs Ha. pose proof Hs as [_ Hsel].
    destruct (IH _ _ _ _ E Hs Ha) as (H1 & H2 & H3 & H4 & H5 & H6).
    split_and!; [done|done|done|lia|lia|lia|]. intros j Hj.
    destruct (decide (j = off)) as [-> |]; [apply H3; by apply Hsel|apply H6; lia].
  - destruct (Nat.leb_spec remaining (S added)).
    + intros [= <- <-] Hs Ha. destruct (sel_inv_push _ _ _ Hs Hin) as [Hn _].
      split_and!; [done|rewrite length_app; cbn; lia| |lia|lia|lia|].
      * intros x Hx. apply elem_of_app. by left.
      * intros j Hj. replace j with off by lia. apply elem_of_app. right. by apply list_elem_of_singleton.
    + intros E Hs Ha. pose proof (sel_inv_push _ _ _ Hs Hin) as Hs'.
      destruct (IH _ _ _ _ E Hs' ltac:(lia)) as (H1 & H2 & H3 & H4 & H5 & H6).
      rewrite length_app in H2. cbn in H2.
      split_and!; [done|lia| |lia|lia|lia|].
      * intros x Hx. apply H3, elem_of_app. by left.
      * intros j Hj. destruct (decide (j = off)) as [-> |]; [|apply H6; lia].
        apply H3, elem_of_app. right. by apply list_elem_of_singleton.
Qed.

(** One cycle scans a non-empty window of positions, all of them selected. *)
Lemma select_window all prev m cursor :
  (2 <= m)%nat -> all <> [] ->
  let '(sel, cursor') := select_probe_candidates all prev m cursor in
  NoDup sel /\ (length sel <= m)%nat /\
  exists k, (1 <= k)%nat /\ cursor' = ((cursor + k) mod length all)%nat /\
    forall j, (j < k)%nat -> nth ((cursor + j) mod length all) all EmptyString ∈ sel.
Proof.
  intros Hm Hne. unfold select_probe_candidates. rewrite (Nat.max_l m 1) by lia.
  destruct (take_previous _ all [] [] prev) as [seen sel] eqn:E.
  apply take_previous_inv in E as [Hs Hl]; [|split; [apply NoDup_nil_2|done]].
  assert (Hhalf : (Nat.max (m / 2) 1 < m)%nat).
  { pose proof (Nat.div_lt m 2 ltac:(lia) ltac:(lia)). lia. }
  cbn [length] in Hl. assert (Hn : (0 < length all)%nat) by (destruct all; [done|cbn; lia]).
  rewrite (proj2 (Nat.ltb_lt 0 _)), (proj2 (Nat.ltb_lt 0 (length all))) by lia. cbn [andb].
  destruct (rotate _ _ _ _ _ _ _ _) as [sel' k] eqn:Er.
  apply rotate_inv in Er as (H1 & H2 & _ & H4 & H5 & H6); [|done|lia].
  split_and!; [done|lia|]. exists k. split_and!; [lia| |].
  - by rewrite Nat.Div0.add_mod_idemp_l.
  - intros j Hj. specialize (H6 j ltac:(lia)). by rewrite Nat.Div0.add_mod_idemp_l in H6.
Qed.

(** The selections of successive cycles over the same candidates. *)
Fixpoint probe_cycles (all : list string) (m cursor : nat) (prevs : list (list string))
    : list (list string) :=
  match prevs with
  | [] => []
  | prev :: prevs =>
      let '(sel, cursor) := select_probe_candidates all prev m cursor in
      sel :: probe_cycles all m cursor prevs
  end.

Lemma cycles_cover all m cursor prevs j :
  (2 <= m)%nat -> all <> [] -> (j < length prevs)%nat ->
  exists sel, sel ∈ probe_cycles all m cursor prevs /\
    nth ((cursor + j) mod length all) all EmptyString ∈ sel.
Proof.
  intros Hm Hne. revert cursor j. induction prevs as [|prev prevs IH]; intros cursor j Hj; cbn in Hj; [lia|].
  cbn [probe_cycles]. pose proof (select_window all prev m cursor Hm Hne) as Hw.
  destruct (select_probe_candidates all prev m cursor) as [sel cursor'].
  destruct Hw as (_ & _ & k & Hk & -> & Hcov). destruct (decide (j < k)%nat) as [Hlt|Hge].
  - exists sel. split; [by left|]. by apply Hcov.
  - destruct (IH ((cursor + k) mod length all)%nat (j - k)%nat ltac:(lia)) as (s & Hs & Hin).
    exists s. split; [by right|]. rewrite Nat.Div0.add_mod_idemp_l in Hin.
    by replace (cursor + j)%nat with (cursor + k + (j - k))%nat by lia.
Qed.

(** Every candidate is probed. With at least two probes per cycle, over as many cycles as there
    are candidates, from any cursor and whatever previous live peers are kept hot in each cycle,
    every candidate is selected in some cycle; and no cycle selects more than its limit or any
    address twice. *)
Theorem every_candidate_is_probed (all : list string) (m cursor : nat) (prevs : list (list string))
    (ip : string) :
  (2 <= m)%nat -> ip ∈ all -> length prevs = length all ->
  (exists sel, sel ∈ probe_cycles all m cursor prevs /\ ip ∈ sel) /\
  Forall (fun sel => NoDup sel /\ (length sel <= m)%nat) (probe_cycles all m cursor prevs).
Proof.
  intros Hm Hip Hlen. assert (Hne : all <> []) by (intros ->; by apply elem_of_nil in Hip).
  split.
  - apply list_elem_of_lookup in Hip as [p Hp]. pose proof (lookup_lt_Some _ _ _ Hp) as Hlt.
    set (n := length all) in *.
    destruct (cycles_cover all m cursor prevs ((p + (n - cursor mod n)) mod n)%nat Hm Hne) as (sel & Hs & Hin).
    { rewrite Hlen. apply Nat.mod_upper_bound. lia. }
    exists sel. split; [done|]. fold n in Hin.
    rewrite Nat.Div0.add_mod_idemp_r in Hin.
    assert (Hmod : ((cursor + (p + (n - cursor mod n))) mod n)%nat = p).
    { pose proof (Nat.mod_upper_bound cursor n ltac:(lia)).
      pose proof (Nat.div_mod_eq cursor n) as Hdm.
      replace (cursor + (p + (n - cursor mod n)))%nat with (p + (cursor / n + 1) * n)%nat by nia.
      rewrite Nat.Div0.mod_add. by apply Nat.mod_small. }
    rewrite Hmod in Hin. by rewrite (nth_lookup_Some _ _ _ _ Hp) in Hin.
  - clear Hip Hlen. revert cursor. induction prevs as [|prev prevs IH]; intros cursor; [constructor|].
    cbn [probe_cycles]. pose proof (select_window all prev m cursor Hm Hne) as Hw.
    destruct (select_probe_candidates all prev m cursor) as [sel cursor'].
    destruct Hw as (? & ? & _). constructor; [done|apply IH].
Qed.

Lemma every_candidate_is_probed_witness :
  exists sel, sel ∈ probe_cycles ["a"; "b"; "c"]%string 2 0 [["a"]; ["a"]; ["a"]]%string /\
    "c"%string ∈ sel.
Proof.
  apply (every_candidate_is_probed ["a"; "b"; "c"]%string 2 0 [["a"]; ["a"]; ["a"]]%string "c").
  - lia.
  - by apply (bool_decide_unpack _).
  - reflexivity.
Defined.

(** ** A spelling the blacklist does not recognise *)

(** An address with a leading zero is a candidate the blacklist never matches. The peer readers
    accept such a spelling ([is_ipv4] parses components as numbers) while the blacklist test does not
    parse it, so no blacklist, not even one naming the address it denotes, refuses it. *)
Theorem leading_zero_escapes_the_blacklist (b : Blacklist) :
  extract_ipv4 "5.6.7.010" = ["5.6.7.010"]%string /\
  "5.6.7.010"%string ∈ parse_peer_candidates "5.6.7.010" /\
  Blacklist.contains b "5.6.7.010" = false /\ Blacklist.contains b "5.6.7.010:4001" = false /\
  Blacklist.filtered b ["5.6.7.010"]%string = ["5.6.7.010"]%string.
Proof.
  assert (Hc : forall a, parse_ipv4 (host_of a) = None -> Blacklist.contains b a = false).
  { intros a Ha. unfold Blacklist.contains. rewrite Ha. by destruct (_ =? 0)%nat. }
  split_and!; [vm_compute; reflexivity|by apply (bool_decide_unpack _)|by apply Hc|by apply Hc|].
  unfold filtered. destruct (_ =? 0)%nat; [done|]. rewrite filter_cons, decide_True; [done|]. by apply Hc.
Qed.
