(* ===== verification/PeerdLoop.v ===== *)
(** The discovery daemon as a running process: [run_peerd] and [write_atomic] of
    [src/peerd/daemon.rs], around the cycle of [Peerd].

    The daemon keeps two files, which it replaces by writing a temporary file and renaming it; each
    write can fail after part of its text, each rename can fail, and the process can die at any
    moment and be started again. The gateway reads the pool file at any moment. *)

From S2P Require Import Prelude Text Blacklist Wire Priority Sock Peers Peerd.

(** ** Settings *)

Record PeerdSettings := mkSettings {
  st_stats_dirs : list string;
  st_self_ips : gset string;
  st_probe_concurrency : Z;
  st_empty_backoff_max : Z;
  st_crawl_depth : Z;
  st_crawl_max_queries : Z;
  st_crawl_concurrency : Z;
  st_probe_max_per_cycle : Z
}.

Definition peerd_settings (env : string -> option string) (interval : Z) : PeerdSettings :=
  mkSettings (default [] (split_csv <$> env "HL_STATS_DIR"))
    (list_to_set (default [] (split_csv <$> env "HL_SELF_IP")) ∪
     list_to_set (priority_peers_from_raw (default EmptyString (env "HYPERSYNC_PRIORITY_PEERS"))))
    (env_usize (env "PEERD_PROBE_CONCURRENCY") 8 1 64)
    (env_u64 (env "PEERD_EMPTY_BACKOFF_MAX_SECS") 1800 interval 7200)
    (env_usize (env "PEERD_CRAWL_DEPTH") 3 1 6)
    (env_usize (env "PEERD_CRAWL_MAX_QUERIES") 200 10 2000)
    (env_usize (env "PEERD_CRAWL_CONCURRENCY") 8 1 64)
    (env_usize (env "PEERD_PROBE_MAX_PER_CYCLE") 256 32 5000).

(** ** Asking a peer *)

(** What a peer asked over port 4002 does: the connection, the write, the reads. *)
Record Answer := mkAnswer { an_connected : bool; an_written : bool; an_reads : list Read }.

(** [query_peers]: every failure gives no peers. *)
Definition query_peers (a : Answer) : list string :=
  if negb (an_connected a) || negb (an_written a) then []
  else
    match fill true 5 [] (an_reads a) with
    | (Filled, hdr, s) =>
        let len := frame_len hdr in
        if (len =? 0) || (MAX_QUERY_PEERS_RESP <? len) then []
        else
          match fill true (Z.to_nat len) [] s with
          | (Filled, payload, _) => parse_query_peers_response payload
          | _ => []
          end
    | _ => []
    end.

Definition crawl_peers `{JoinOrder} (self_ips : gset string) (max_queries : Z) (peers : string -> Answer)
    (seeds : list string) (depth : nat) : gset string :=
  discovered (crawl_peers_with self_ips max_queries (fun ip => Some (query_peers (peers ip))) seeds depth).

(** ** The process *)

Definition CAND_PATH : string := "peer_candidates.txt".
Definition OUT_PATH : string := "peers.json".
Definition tmp_of (path : string) : string := path +:+ ".tmp".

Definition contents (d : gmap string string) (path : string) : string := default EmptyString (d !! path).

(** Where [write_atomic] stands. *)
Inductive Writing := WTmp | WRename.

Inductive DaemonPhase :=
| DDown                                     (* not running *)
| DReady (m : Peerd)                        (* the top of the loop *)
| DCand (m : Peerd) (i : CycleInput) (text : string) (w : Writing)
| DProbe (m : Peerd) (i : CycleInput)
| DOut (m : Peerd) (text : string) (w : Writing)
| DDone (m : Peerd)
| DSleep (m : Peerd) (secs : Z).

Record Daemon := mkDaemon { dm_disk : gmap string string; dm_at : DaemonPhase }.

Inductive daemon_event :=
| LStart
| LDiscover (i : CycleInput) (order : list string)   (* the candidates in the set's iteration order *)
| LWrite (failed : option nat)                       (* all written, or an error after so many characters *)
| LRename (ok : bool)
| LProbe
| LEnd (cycle_secs : Z)
| LSlept
| LCrash.

(** The state [run_peerd] starts from. *)
Definition peerd_start (st : PeerdSettings) (d : gmap string string) : Peerd :=
  mkPeerd (filter (fun ip => ip ∉ st_self_ips st) (parse_peer_candidates (contents d CAND_PATH))) ∅ 0 0 EmptyString.

Definition with_out_file (m : Peerd) (s : string) : Peerd :=
  mkPeerd (candidates m) (fail_counts m) (empty_live_streak m) (probe_cursor m) s.

(** The two awaits of [write_atomic]: the file, and whether the rename is next. *)
Definition write_tmp (d : gmap string string) (path text : string) (failed : option nat) : gmap string string * bool :=
  match failed with
  | None => (<[tmp_of path := text]> d, true)
  | Some n => (<[tmp_of path := String.substring 0 n text]> d, false)
  end.

Definition rename_tmp (d : gmap string string) (path : string) (ok : bool) : gmap string string :=
  if ok then <[path := contents d (tmp_of path)]> (delete (tmp_of path) d) else d.

Definition run_peerd (st : PeerdSettings) (interval : Z) (s : Daemon) (e : daemon_event) : Daemon :=
  let d := dm_disk s in
  match dm_at s, e with
  | _, LCrash => mkDaemon d DDown
  | DDown, LStart => mkDaemon d (DReady (peerd_start st d))
  | DReady m, LDiscover i order =>
      if bool_decide (order ≡ₚ elements (cycle_candidates m i).1)
      then mkDaemon d (DCand m i (format_peer_candidates order) WTmp) else s
  | DCand m i text WTmp, LWrite failed =>
      let '(d, ok) := write_tmp d CAND_PATH text failed in
      mkDaemon d (if ok then DCand m i text WRename else DProbe m i)
  | DCand m i text WRename, LRename ok => mkDaemon (rename_tmp d CAND_PATH ok) (DProbe m i)
  | DProbe m i, LProbe =>
      let '(m, json) := cycle_outcome (with_out_file m (contents d OUT_PATH)) i in
      mkDaemon d (match json with Some text => DOut m text WTmp | None => DDone m end)
  | DOut m text WTmp, LWrite failed =>
      let '(d, ok) := write_tmp d OUT_PATH text failed in
      mkDaemon d (if ok then DOut m text WRename else DDone m)
  | DOut m text WRename, LRename ok => mkDaemon (rename_tmp d OUT_PATH ok) (DDone m)
  | DDone m, LEnd cycle_secs =>
      mkDaemon d (DSleep m (sat_sub (empty_pool_sleep_secs interval (empty_live_streak m) (st_empty_backoff_max st))
                              cycle_secs))
  | DSleep m _, LSlept => mkDaemon d (DReady m)
  | _, _ => s
  end.

Definition peerd_run (st : PeerdSettings) (interval : Z) (d : gmap string string) (evs : list daemon_event) : Daemon :=
  foldl (run_peerd st interval) (mkDaemon d DDown) evs.

(** ** Lemmas: the candidates file *)

Lemma addr_char_not c x : addr_char' c = true -> addr_char' x = false -> c <> x.
Proof. intros H1 H2 ->. congruence. Qed.

Lemma split_candidates l :
  Forall (fun p => LF ∉ p) l -> split_list LF (mjoin ((fun p => p ++ [LF]) <$> l)) = l ++ [[]].
Proof.
  induction 1 as [|p l Hp _ IH]; [done|].
  change (mjoin _) with ((p ++ [LF]) ++ mjoin ((fun p => p ++ [LF]) <$> l)). rewrite <- app_assoc. cbn [app].
  rewrite split_list_sep by done. by rewrite IH.
Qed.

Lemma strip_cr_addr p : forallb addr_char' p = true -> strip_cr p = p.
Proof.
  intros H. unfold strip_cr. destruct (rev p) as [|x r] eqn:E; [done|]. case_decide as Hx; [|done]. subst x.
  rewrite forallb_forall in H. specialize (H CR). rewrite in_rev, E in H. by specialize (H (or_introl eq_refl)).
Qed.

Lemma trim_start_addr p : forallb addr_char' p = true -> trim_start_list p = p.
Proof.
  destruct p as [|x p]; [done|]. cbn. intros [Hx _]%andb_true_iff.
  assert (is_space x = false) as ->; [|done]. unfold addr_char', is_digit, is_space in *.
  apply orb_true_iff in Hx as [Hx|Hx%bool_decide_eq_true]; [|subst x; vm_compute; reflexivity].
  zify_bool. apply orb_false_iff. split; [apply Z.eqb_neq; lia|]. apply andb_false_iff. right. apply Z.leb_gt. lia.
Qed.

Lemma forallb_rev {A} (f : A -> bool) l : forallb f (rev l) = forallb f l.
Proof.
  apply eq_true_iff_eq. rewrite !forallb_forall. split; intros H x Hx; apply H; [by apply in_rev in Hx|by apply in_rev].
Qed.

Lemma trim_addr ip : addr_ok ip -> trim ip = ip.
Proof.
  intros (_ & _ & Hc & _). unfold trim, trim_list. rewrite (trim_start_addr (chars ip)) by done.
  rewrite trim_start_addr by (by rewrite forallb_rev). by rewrite rev_involutive, text_chars.
Qed.

(** What is written is read back. *)
Lemma candidates_roundtrip l :
  Forall addr_ok l -> parse_peer_candidates (format_peer_candidates l) = list_to_set l.
Proof.
  intros Hl. unfold parse_peer_candidates, format_peer_candidates, lines. rewrite chars_text.
  assert (E : (fun ip => chars ip ++ [LF]) <$> l = (fun p => p ++ [LF]) <$> (chars <$> l)) by (by rewrite <- list_fmap_compose).
  rewrite E, split_candidates.
  2:{ apply Forall_fmap. eapply Forall_impl; [exact Hl|]. intros ip (_ & _ & Hc & _) Hin. rewrite forallb_forall in Hc.
      apply list_elem_of_In in Hin. by apply Hc in Hin. }
  rewrite rev_app_distr. cbn [rev app]. rewrite rev_involutive.
  assert (Et : trim <$> (text <$> (strip_cr <$> (chars <$> l))) = l).
  { rewrite <- !list_fmap_compose. clear E. induction Hl as [|ip l Hip _ IH]; [done|]. cbn [fmap list_fmap] in *. rewrite IH. f_equal.
    cbn. rewrite strip_cr_addr, text_chars by apply Hip. by apply trim_addr. }
  rewrite Et. f_equal. apply filter_all. eapply Forall_impl; [exact Hl|]. by intros ip (? & ? & _).
Qed.

(** ** Lemmas: the crawl *)

Lemma fill_bytes timed n got s st h s' :
  fill timed n got s = (st, h, s') -> Forall is_byte (got ++ data s) -> Forall is_byte h /\ Forall is_byte (data s').
Proof.
  revert n got. induction s as [|r s IH]; intros n got; cbn [fill]; destruct (n =? 0)%nat.
  - intros [= <- <- <-] H. by apply Forall_app in H.
  - intros [= <- <- <-] H. apply Forall_app in H as [H _]. split; [done|by apply Forall_nil].
  - intros [= <- <- <-] H. by apply Forall_app in H.
  - rewrite data_cons. destruct r as [b| | |e].
    + case_bool_decide; [intros [= <- <- <-] Hx; apply Forall_app in Hx as [Hx [_ ?]%Forall_app]; done|].
      destruct (Nat.leb_spec (length b) n); [intros E H1; apply (IH _ _ E); by rewrite <- app_assoc|].
      intros [= <- <- <-] H1. apply Forall_app in H1 as [H1 [H2 H3]%Forall_app]. rewrite data_cons.
      split; apply Forall_app; split; try done; [by apply Forall_take|by apply Forall_drop].
    + destruct timed; [intros [= <- <- <-] Hx; apply Forall_app in Hx as [? ?]; done|]. apply IH.
    + intros [= <- <- <-] H. by apply Forall_app in H.
    + intros [= <- <- <-] H. by apply Forall_app in H.
Qed.

(** Whatever a peer sends, the answer is addresses. *)
Lemma query_peers_addresses a : Forall is_byte (data (an_reads a)) -> Forall addr_ok (query_peers a).
Proof.
  intros Hb. unfold query_peers. destruct (_ || _); [by apply Forall_nil|].
  destruct (fill true 5 [] (an_reads a)) as [[[] hdr] s] eqn:E1; try by apply Forall_nil.
  destruct (_ || _); [by apply Forall_nil|].
  destruct (fill true _ [] s) as [[[] p] s2] eqn:E2; try by apply Forall_nil.
  destruct (fill_bytes _ _ _ _ _ _ _ E1 Hb) as [_ Hs]. destruct (fill_bytes _ _ _ _ _ _ _ E2 Hs) as [Hp _].
  destruct (query_peers_roundtrip [] [] p) as (_ & H & _); [cbn; lia|done|].
  eapply Forall_impl; [exact H|]. intros ip (Hr & i & Hi & ->). by apply addr_ok_show.
Qed.

(** So the crawl discovers only addresses, none of them excluded. *)
Lemma crawl_peers_addresses `{JoinOrder} self_ips max_queries peers seeds depth ip :
  0 <= max_queries -> (forall ip, Forall is_byte (data (an_reads (peers ip)))) ->
  ip ∈ crawl_peers self_ips max_queries peers seeds depth -> clean self_ips ip.
Proof.
  intros Hm Hb Hip. destruct (crawl_is_bounded self_ips max_queries (fun ip => Some (query_peers (peers ip))) seeds depth Hm)
    as (_ & _ & _ & _ & H5). destruct (H5 ip Hip) as [H6 H7]. split; [|done].
  destruct H7 as (q & l & _ & [= <-] & Hin). pose proof (query_peers_addresses (peers q) (Hb q)) as Hall.
  rewrite Forall_forall in Hall. apply Hall. by apply elem_of_take in Hin as (k & Hk%list_elem_of_lookup_2 & _).
Qed.

Lemma cycle_outcome_file s i : out_file (cycle_outcome s i).1 = default (out_file s) (cycle_outcome s i).2.
Proof.
  unfold cycle_outcome. destruct (cycle_candidates s i) as [c fails], (previous_live_pool _ _) as [prev tainted].
  destruct (select_probe_candidates _ _ _ _) as [chosen cursor], (split_live_by_tip _ _) as [live lagged].
  by destruct (foldl count_failure _ _) as [c' fails'].
Qed.

(** ** The invariant *)

(** Discovery delivers addresses, and the daemon always excludes its own nodes and priority peers. *)
Definition event_ok (st : PeerdSettings) (e : daemon_event) : Prop :=
  match e with
  | LDiscover i _ => input_ok i /\ st_self_ips st ⊆ excluded i
  | LEnd cycle_secs => 0 <= cycle_secs
  | _ => True
  end.

(** [text] is what a cycle published: it ran from the state in which a prefix [pre] of the history
    left the daemon, on the input it discovered and the pool file of that moment, and [text] is the
    whole of what it had to write. *)
Definition published (st : PeerdSettings) (interval : Z) (d0 : gmap string string) (evs : list daemon_event)
    (i : CycleInput) (text : string) : Prop :=
  exists pre post m order, evs = pre ++ LProbe :: post /\ LDiscover i order ∈ pre /\
    let s := peerd_run st interval d0 pre in
    dm_at s = DProbe m i /\ (cycle_outcome (with_out_file m (contents (dm_disk s) OUT_PATH)) i).2 = Some text.

Section daemon.
Context (st : PeerdSettings) (interval : Z) (d0 : gmap string string) (evs : list daemon_event).

Definition known (m : Peerd) : Prop := forall ip, ip ∈ candidates m -> addr_ok ip.

Definition cycle_input (i : CycleInput) : Prop :=
  (exists order, LDiscover i order ∈ evs) /\ input_ok i /\ st_self_ips st ⊆ excluded i.

(** A pool text is the one from before, or what a whole cycle published, clean by its input. *)
Definition pool_text (s : string) : Prop :=
  s = contents d0 OUT_PATH \/
  exists i, published st interval d0 evs i s /\
    forall ip, ip ∈ extract_ipv4 s -> addr_ok ip /\ (ip ∉ excluded i) /\ ip ∉ st_self_ips st.

Definition cand_text (s : string) : Prop := forall ip, ip ∈ parse_peer_candidates s -> addr_ok ip.

Definition phase_ok (d : gmap string string) (p : DaemonPhase) : Prop :=
  match p with
  | DDown => True
  | DReady m | DDone m => known m
  | DCand m i text w => known m /\ cycle_input i /\ cand_text text /\ (w = WRename -> contents d (tmp_of CAND_PATH) = text)
  | DProbe m i => known m /\ cycle_input i
  | DOut m text w => known m /\ pool_text text /\ (w = WRename -> contents d (tmp_of OUT_PATH) = text)
  | DSleep m secs =>
      known m /\ secs <= Z.max 0 (empty_pool_sleep_secs interval (empty_live_streak m) (st_empty_backoff_max st)) /\ 0 <= secs
  end.

Definition daemon_inv (s : Daemon) : Prop :=
  pool_text (contents (dm_disk s) OUT_PATH) /\ cand_text (contents (dm_disk s) CAND_PATH) /\
  phase_ok (dm_disk s) (dm_at s).

(** The four files are different. *)
Lemma contents_insert d p q text : contents (<[p := text]> d) q = if decide (p = q) then text else contents d q.
Proof. unfold contents. case_decide as H; [subst; by rewrite lookup_insert_eq|by rewrite lookup_insert_ne]. Qed.

Lemma contents_delete d p q : p <> q -> contents (delete p d) q = contents d q.
Proof. intros H. unfold contents. by rewrite lookup_delete_ne. Qed.

Lemma write_tmp_files d path text failed q :
  q <> tmp_of path -> contents (write_tmp d path text failed).1 q = contents d q.
Proof. intros H. unfold write_tmp. destruct failed; cbn; rewrite contents_insert, decide_False by done; done. Qed.

Lemma rename_tmp_files d path ok q :
  tmp_of path <> q ->
  contents (rename_tmp d path ok) q = if ok && bool_decide (path = q) then contents d (tmp_of path) else contents d q.
Proof.
  intros H. unfold rename_tmp. destruct ok; [|done]. cbn [andb]. rewrite contents_insert.
  case_bool_decide; case_decide; try done. by apply contents_delete.
Qed.

Lemma start_known d : cand_text (contents d CAND_PATH) -> known (peerd_start st d).
Proof. intros H ip. cbn. rewrite elem_of_filter. intros [_ Hip]. by apply H. Qed.

Lemma order_text m i order :
  known m -> cycle_input i -> order ≡ₚ elements (cycle_candidates m i).1 -> cand_text (format_peer_candidates order).
Proof.
  intros Hm (_ & Hi & _) Ho ip. rewrite candidates_roundtrip.
  - rewrite elem_of_list_to_set, Ho, elem_of_elements. intros Hip. by apply (cycle_candidates_clean m i ip Hm Hi).
  - apply Forall_forall. intros x. rewrite Ho, elem_of_elements. intros Hx. by apply (cycle_candidates_clean m i x Hm Hi).
Qed.

Lemma probe_outcome m i d m' json :
  known m -> cycle_input i -> cycle_outcome (with_out_file m (contents d OUT_PATH)) i = (m', json) ->
  known m' /\ forall text, json = Some text ->
    forall ip, ip ∈ extract_ipv4 text -> addr_ok ip /\ (ip ∉ excluded i) /\ ip ∉ st_self_ips st.
Proof.
  intros Hm (_ & Hi & Hself) E. set (m0 := with_out_file m (contents d OUT_PATH)) in *.
  assert (Hm0 : known m0) by exact Hm. assert (Ep : peerd_cycle m0 i = m') by (unfold peerd_cycle; by rewrite E).
  destruct (published_pool_is_clean m0 i Hm0 Hi) as (H1 & H2 & _). rewrite Ep in H1, H2.
  split; [intros ip Hip; by apply H2|]. intros text -> ip Hip.
  pose proof (cycle_outcome_file m0 i) as Hf. rewrite E in Hf. cbn in Hf. rewrite <- Hf in Hip.
  split_and!; [|by apply H1|specialize (H1 ip Hip); set_solver].
  pose proof (extract_ipv4_ok (out_file m')) as H. rewrite Forall_forall in H. by apply H.
Qed.

End daemon.

Lemma published_later st interval d0 evs e i text :
  published st interval d0 evs i text -> published st interval d0 (evs ++ [e]) i text.
Proof.
  intros (pre & post & m & order & -> & H1 & H2). exists pre, (post ++ [e]), m, order. by rewrite <- app_assoc.
Qed.

Lemma pool_text_later st interval d0 evs e s : pool_text st interval d0 evs s -> pool_text st interval d0 (evs ++ [e]) s.
Proof. intros [?|(i & H1 & H2)]; [by left|right]. exists i. split; [by apply published_later|done]. Qed.

Lemma cycle_input_later st evs e i : cycle_input st evs i -> cycle_input st (evs ++ [e]) i.
Proof. intros ((order & Hin) & H). split; [|done]. exists order. apply elem_of_app. by left. Qed.

Lemma phase_later st interval d0 evs e d p : phase_ok st interval d0 evs d p -> phase_ok st interval d0 (evs ++ [e]) d p.
Proof.
  destruct p; cbn; try done; intros H; decompose [and] H; split_and!; try done;
    by first [apply cycle_input_later|apply pool_text_later].
Qed.

Lemma run_peerd_inv st interval d0 evs e :
  let s := peerd_run st interval d0 evs in
  daemon_inv st interval d0 evs s -> event_ok st e -> daemon_inv st interval d0 (evs ++ [e]) (run_peerd st interval s e).
Proof.
  intros s Hinv He.
  assert (Hinv' : daemon_inv st interval d0 (evs ++ [e]) s).
  { destruct Hinv as (H1 & H2 & H3). split_and!; [by apply pool_text_later|done|by apply phase_later]. }
  clear Hinv. destruct Hinv' as (Ho & Hc & Hp). assert (Hrun : peerd_run st interval d0 evs = s) by done. clearbody s.
  destruct s as [d at_]. cbn [dm_disk dm_at] in *. unfold run_peerd. cbn [dm_disk dm_at].
  destruct at_ as [|m|m i text []|m i|m text []|m|m secs], e as [|i' order|failed|ok| |secs'| |]; try (by split_and!).
  - split_and!; [done|done|]. by apply start_known.
  - case_bool_decide as Hord; [|by split_and!]. cbn in Hp, He.
    assert (Hi : cycle_input st (evs ++ [LDiscover i' order]) i')
      by (split_and!; [exists order; apply elem_of_app; right; by left|apply He|apply He]).
    split_and!; [done|done|]. cbn. split_and!; [done|done|by eapply order_text|done].
  - pose proof (write_tmp_files d CAND_PATH text failed OUT_PATH ltac:(done)) as E1.
    pose proof (write_tmp_files d CAND_PATH text failed CAND_PATH ltac:(done)) as E2. destruct Hp as (P1 & P2 & P3 & _).
    destruct failed; cbn in *; (split_and!; cbn; [by rewrite E1|by rewrite E2|]); [done|].
    split_and!; [done|done|done|]. intros _. rewrite contents_insert. by rewrite decide_True.
  - pose proof (rename_tmp_files d CAND_PATH ok OUT_PATH ltac:(done)) as E1.
    pose proof (rename_tmp_files d CAND_PATH ok CAND_PATH ltac:(done)) as E2. destruct Hp as (P1 & P2 & P3 & P4).
    split_and!; cbn; [|rewrite E2|done].
    + rewrite E1, bool_decide_eq_false_2 by done. by rewrite andb_false_r.
    + rewrite P4 by done. by destruct ok, (bool_decide (CAND_PATH = CAND_PATH)).
  - destruct Hp as [P1 P2]. destruct (cycle_outcome _ i) as [m' json] eqn:E.
    destruct (probe_outcome st _ m i d m' json P1 P2 E) as [H1 H2]. split_and!; [done|done|].
    destruct json as [text|]; cbn; [|done]. split_and!; [done| |done]. right. exists i. split; [|by apply H2].
    destruct P2 as ((order & Hin) & _). exists evs, [], m, order. rewrite Hrun. cbv zeta. cbn [dm_disk dm_at]. rewrite E.
    split_and!; [done| |done|done]. by apply elem_of_app in Hin as [Hin|[[=]|[]%elem_of_nil]%elem_of_cons].
  - pose proof (write_tmp_files d OUT_PATH text failed OUT_PATH ltac:(done)) as E1.
    pose proof (write_tmp_files d OUT_PATH text failed CAND_PATH ltac:(done)) as E2. destruct Hp as (P1 & P2 & _).
    destruct failed; cbn in *; (split_and!; cbn; [by rewrite E1|by rewrite E2|]); [done|].
    split_and!; [done|done|]. intros _. rewrite contents_insert. by rewrite decide_True.
  - pose proof (rename_tmp_files d OUT_PATH ok OUT_PATH ltac:(done)) as E1.
    pose proof (rename_tmp_files d OUT_PATH ok CAND_PATH ltac:(done)) as E2. destruct Hp as (P1 & P2 & P3).
    split_and!; cbn; [rewrite E1|rewrite E2|done].
    + rewrite P3 by done. by destruct ok, (bool_decide (OUT_PATH = OUT_PATH)).
    + rewrite bool_decide_eq_false_2 by done. by rewrite andb_false_r.
  - split_and!; [done|done|]. cbn in *. split_and!; [done|unfold sat_sub; lia|unfold sat_sub; lia].
  - split_and!; [done|done|]. apply Hp.
Qed.


(** ** Theorems *)

(** C31: the gateway never reads a half-written pool. However the daemon's writes and renames fail, and
    whenever it dies and is started again: the pool file is at every moment the one from before or,
    in full, what a cycle of this very history published, that is, what the daemon's own state and
    input at one of its probes made it write; so every address the gateway reads from it is an
    address, and neither blacklisted nor our own nor a priority peer when that cycle ran. The daemon's
    sleeps are bounded by the interval and the back-off, which is at most two hours (or the interval,
    if that is longer). *)
Theorem gateway_reads_a_whole_pool (env : string -> option string) (interval : Z) (d : gmap string string)
    (evs : list daemon_event) :
  0 <= interval -> Forall (event_ok (peerd_settings env interval)) evs ->
  (forall ip, ip ∈ parse_peer_candidates (contents d CAND_PATH) -> addr_ok ip) ->
  let s := peerd_run (peerd_settings env interval) interval d evs in
  let out := contents (dm_disk s) OUT_PATH in
  (out = contents d OUT_PATH \/
   exists i, published (peerd_settings env interval) interval d evs i out /\
     forall ip, ip ∈ extract_ipv4 out ->
       addr_ok ip /\ (ip ∉ excluded i) /\ (ip ∉ st_self_ips (peerd_settings env interval))) /\
  (forall m secs, dm_at s = DSleep m secs -> 0 <= secs <= Z.max interval 7200).
Proof.
  intros Hint He Hc s out. set (st := peerd_settings env interval) in *.
  assert (Hs : daemon_inv st interval d evs s).
  { unfold s. clear s out. induction evs as [|e evs IH] using rev_ind; [split_and!; [by left|done|done]|].
    apply Forall_app in He as [He Hx]. apply Forall_cons in Hx as [Hx _]. unfold peerd_run. rewrite foldl_app.
    apply (run_peerd_inv st interval d evs e); [by apply IH|done]. }
  destruct Hs as (Ho & _ & Hp). split; [exact Ho|].
  intros m secs Es. rewrite Es in Hp. cbn in Hp. destruct Hp as (_ & Hle & H0). split; [done|].
  assert (Hb : env_u64 (env "PEERD_EMPTY_BACKOFF_MAX_SECS") 1800 interval 7200 <= Z.max interval 7200)
    by (unfold env_u64, clamp_z; case_match; lia).
  unfold empty_pool_sleep_secs, clamp_z in Hle. destruct (_ =? 0); lia.
Qed.

(** ** Witnesses *)

(** Nothing published yet; a cycle finds no live server and publishes an empty pool, then the daemon
    dies between the write and the rename of the next. *)
Definition example_daemon : list daemon_event :=
  [LStart; LDiscover example_cycle ["9.9.9.9"]%string; LWrite None; LRename true; LProbe; LWrite None; LRename true; LEnd 10;
   LSlept; LDiscover example_cycle ["9.9.9.9"]%string; LWrite (Some 3%nat); LProbe; LWrite None; LCrash; LStart].

Definition example_disk : gmap string string :=
  {[CAND_PATH := format_peer_candidates ["9.9.9.9"; "1.2.3.4"]%string]}.

Definition example_env (v : string) : option string :=
  if bool_decide (v = "HL_SELF_IP")%string then Some "1.2.3.4"%string else None.

Lemma example_addr9 : addr_ok "9.9.9.9".
Proof. split_and!; [vm_compute; reflexivity|vm_compute; reflexivity|vm_compute; reflexivity|]. by eexists _, _. Qed.

Lemma gateway_reads_a_whole_pool_witness :
  let s := peerd_run (peerd_settings example_env 300) 300 example_disk example_daemon in
  let out := contents (dm_disk s) OUT_PATH in
  out = render_pool [] 1 None /\ contents (dm_disk s) (tmp_of CAND_PATH) = "9.9"%string /\
  exists i, published (peerd_settings example_env 300) 300 example_disk example_daemon i out /\
    forall ip, ip ∈ extract_ipv4 out -> ip ∉ excluded i.
Proof.
  intros s out. split; [vm_compute; reflexivity|]. split; [vm_compute; reflexivity|].
  destruct (gateway_reads_a_whole_pool example_env 300 example_disk example_daemon) as [[Hout|(i & H1 & H2)] _].
  - lia.
  - repeat constructor; try (by apply Forall_nil); try done; cbn; try lia; by apply (bool_decide_unpack _); vm_compute.
  - unfold example_disk, contents. rewrite lookup_singleton_eq. cbn [default from_option id].
    intros ip. rewrite candidates_roundtrip.
    + rewrite elem_of_list_to_set. intros [->|[->|[]%elem_of_nil]%elem_of_cons]%elem_of_cons; [apply example_addr9|apply example_addr].
    + repeat constructor; [apply example_addr9|apply example_addr].
  - exfalso. vm_compute in Hout. discriminate Hout.
  - exists i. split; [exact H1|]. intros ip Hip. exact (proj1 (proj2 (H2 ip Hip))).
Defined.
