(* ===== verification/Sources.v ===== *)
(** Upstream candidates of a node connection: [src/gateway/select.rs].

    The ordered candidate lists of live and bootstrap selection, the memory of state servers, the
    vetting of one live peer (greeting, then frames up to the first acceptable block) and of one
    bootstrap peer (state header and prefetch), and the failure summary. *)

From S2P Require Import Prelude Text Wire Blacklist Priority Freshest PushSession.

(** ** Constants *)

Definition BOOTSTRAP_PREFETCH_BYTES : Z := 64000000.
Definition MAX_ABCI_STATE_FRAME : Z := 1500000000.
Definition BOOTSTRAP_SELECT_MAX_PEERS : nat := 32.
Definition STATE_SERVER_MEMORY : nat := 8.
Definition VET_KEEP_MAX_FRAMES : nat := 64.
Definition VET_KEEP_MAX_BYTES : Z := 8000000.
Definition VET_MAX_ROUNDS_ABOVE_TIP : Z := 2 * MAX_ACTIVE_ROUND_JUMP.

(** ** Remembered state servers *)

Definition forget_state_server (l : list string) (ip : string) : list string :=
  filter (fun x => x <> ip) l.

Definition remember_state_server (l : list string) (ip : string) : list string :=
  take STATE_SERVER_MEMORY (ip :: filter (fun x => x <> ip) l).

(** ** Candidate lists *)

Section Lists.
Context `{UpstreamFilter}.

(** The loop over [head]. *)
Definition push_head (out : list string) (ip : string) : list string :=
  if negb (bool_decide (ip ∈ out)) && negb (blocked ip) then out ++ [ip] else out.

(** The loop over the pool. *)
Definition push_pool (pool : list string) (start : nat) (out : list string) (k : nat) : list string :=
  let ip := nth ((start + k) mod length pool) pool EmptyString in
  if bool_decide (ip ∈ out) then out else out ++ [ip].

Definition ordered_candidates (hd pool : list string) (start : nat) : list string :=
  foldl (push_pool pool start) (foldl push_head [] hd) (seq 0 (length pool)).

Definition bootstrap_source_list (policy : BootstrapPolicy) (prio remembered pool : list string)
    (start : nat) : list string :=
  match policy with
  | Never => ordered_candidates remembered pool start
  | Prefer => ordered_candidates (prio ++ remembered) pool start
  | Fallback =>
      take (BOOTSTRAP_SELECT_MAX_PEERS - length prio)
        (filter (fun ip => ip ∉ prio) (ordered_candidates remembered pool start)) ++ prio
  end.

Definition tiered_peers (t : PriorityTier) (pool : list string) (start : nat) (now : Z)
    : list string :=
  let prio := candidates_at t now in
  if exclusive t && negb (bool_decide (prio = [])) then prio
  else ordered_candidates prio pool start.
End Lists.

(** ["ip"] gets the port; ["ip:port"] is used as given. *)
Definition addr_4001 (ip : string) : string :=
  if bool_decide (COLON ∈ chars ip) then ip else ip +:+ ":4001".

(** ** Failure summary *)

Definition str_contains (pat s : string) : bool := bool_decide (is_Some (find_sub (chars pat) (chars s))).

Definition peer_error_class (e : string) : string :=
  if str_contains "peer full" e then "peer_full"
  else if str_contains "lagged" e || str_contains "behind the freshest" e then "lagged"
  else if str_contains "not serving abci_state" e then "small_frame"
  else if str_contains "no live block" e then "no_block"
  else if str_contains "connect" e then "connect_fail"
  else if str_contains "state prefetch" e then "prefetch_fail"
  else if str_contains "failed to fill whole buffer" e || str_contains "early eof" e then "eof"
  else if str_contains "timeout" e || str_contains "deadline has elapsed" e then "timeout"
  else "other".

Fixpoint count_class (counts : list (string * Z)) (c : string) : list (string * Z) :=
  match counts with
  | [] => [(c, 1)]
  | (c', n) :: counts =>
      if decide (c' = c) then (c', n + 1) :: counts else (c', n) :: count_class counts c
  end.

(** [sort_by_key(Reverse)]: a stable sort by descending count. *)
Fixpoint insert_desc (x : string * Z) (l : list (string * Z)) : list (string * Z) :=
  match l with
  | [] => [x]
  | y :: l' => if y.2 <? x.2 then x :: l else y :: insert_desc x l'
  end.

Definition sort_desc (l : list (string * Z)) : list (string * Z) := foldl (fun s x => insert_desc x s) [] l.

Definition summarize_peer_errors (tried : Z) (errs : list string) : string :=
  let counts := foldl (fun cs e => count_class cs (peer_error_class e)) [] errs in
  foldl (fun out e => out +:+ " " +:+ e.1 +:+ "=" +:+ show e.2) ("tried=" +:+ show tried)
    (sort_desc counts).

(** ** I/O outcomes *)

(** The result of a [timeout] around an I/O operation. *)
Inductive timed (T : Type) := Elapsed | IoError (e : string) | IoOk (v : T).
Arguments Elapsed {T}.
Arguments IoError {T} e.
Arguments IoOk {T} v.

(** [stage]: labels the failure. *)
Definition stage_of {T} (r : timed T) (what : string) : string + T :=
  match r with
  | Elapsed => inl (what +:+ " timeout")%string
  | IoError e => inl (what +:+ ": " +:+ e)%string
  | IoOk v => inr v
  end.

(** ** One bootstrap peer *)

(** The peer's side of [try_fast_bootstrap_peer]: the outcome of each awaited operation.
    [bp_payload n] is the outcome of reading [n] bytes; [bp_detail] the text of [decline_detail]. *)
Record BootPeer := mkBootPeer {
  bp_connect : timed unit;
  bp_write : timed unit;
  bp_header : timed bytes;
  bp_detail : string;
  bp_payload : Z -> timed bytes
}.

Record BootstrapPeerSelection := mkBootSel {
  bs_ip : string;
  bs_hdr : bytes;
  bs_prefix : bytes;
  bs_abci_len : Z;
  bs_slot : option nat
}.

Definition sum_bind {E A B} (m : E + A) (f : A -> E + B) : E + B :=
  match m with inl e => inl e | inr a => f a end.
Notation "x ⇐ m ; k" := (sum_bind m (fun x => k)) (at level 20, m at level 100, k at level 200).

Definition try_fast_bootstrap_peer (ip : string) (p : BootPeer) : string + BootstrapPeerSelection :=
  _ ⇐ stage_of (bp_connect p) "connect";
  _ ⇐ stage_of (bp_write p) "greet write";
  hdr ⇐ stage_of (bp_header p) "greeting header";
  let len := frame_len hdr in
  if len <=? 4000000 then inl ("not serving abci_state (" +:+ bp_detail p +:+ ")")%string
  else if MAX_ABCI_STATE_FRAME <? len then inl ("implausible abci_state len=" +:+ show len)%string
  else
    prefix ⇐ stage_of (bp_payload p (Z.min len BOOTSTRAP_PREFETCH_BYTES)) "state prefetch";
    inr (mkBootSel ip hdr prefix len None).

(** ** Vetting one live peer *)

Definition first_round_far_above_tip (round net_tip : Z) : bool :=
  negb (net_tip =? 0) && (sat_add32 net_tip VET_MAX_ROUNDS_ABOVE_TIP <? round).

(** [std::io::Error]: its kind, as far as the callers look at it, and its text. *)
Inductive ErrorKind := TimedOut | OtherKind.
Record IoErr := mkErr { e_kind : ErrorKind; e_text : string }.

#[global] Instance ErrorKind_eq_dec : EqDecision ErrorKind.
Proof. solve_decision. Defined.

Definition other (s : string) : IoErr := mkErr OtherKind s.

Record LivePeerSession := mkLive {
  lp_ip : string;
  lp_greeting : bytes;
  lp_prefetched : list bytes;
  lp_first_round : Z;
  lp_slot : option nat
}.

(** [connect_and_greet_4001] after the connection and the read of the greeting. *)
Definition connect_and_greet_4001 (dial : IoErr + bytes) : IoErr + bytes :=
  greeting ⇐ dial;
  if response_is_peer_full greeting then inl (other "peer full") else inr greeting.

(** [open_peer_relationship]: the same exchange, of which only the open stream is kept. *)
Definition open_peer_relationship (dial : IoErr + bytes) : IoErr + unit :=
  _ ⇐ connect_and_greet_4001 dial; inr tt.

(** What one turn of the vetting loop sees: the time left, the outcome of the read, and the floor
    of the gateway's lag guard when the frame arrives (0 without one). *)
Record VetEvent := mkVet { v_remaining : Z; v_read : IoErr + bytes; v_floor : Z }.

Section Vetting.
Context (lz4_decompress : bytes -> option bytes).

Definition vet_round (frame : bytes) : option Z :=
  if (5 <=? length frame)%nat && (byte_at frame 4 =? 1)
  then block_round lz4_decompress (drop 5 frame) else None.

Definition keep_frame (kept : list bytes) (kept_bytes : Z) (frame : bytes) : list bytes * Z :=
  if (length kept <? VET_KEEP_MAX_FRAMES)%nat &&
     (kept_bytes + Z.of_nat (length frame) <=? VET_KEEP_MAX_BYTES)
  then (kept ++ [frame], kept_bytes + Z.of_nat (length frame))
  else (kept, kept_bytes).

(** The blocks the loop skips. *)
Definition vet_skips (round min_round_exclusive net_tip : Z) : bool :=
  negb (is_plausible_mainnet_round round net_tip) || (round <=? min_round_exclusive) ||
  first_round_far_above_tip round net_tip.

(** What the loop does with a frame: end with an error, go on, or accept it. *)
Inductive VetVerdict :=
| VetFails (e : IoErr)
| VetGoesOn (kept : list bytes) (kept_bytes : Z)
| VetAccepts (frames : list bytes) (round : Z).

Definition vet_turn (frame : bytes) (floor min_round_exclusive net_tip : Z) (kept : list bytes) (kept_bytes : Z)
    : VetVerdict :=
  match vet_round frame with
  | None => let '(kept, kept_bytes) := keep_frame kept kept_bytes frame in VetGoesOn kept kept_bytes
  | Some round =>
      if vet_skips round min_round_exclusive net_tip then VetGoesOn kept kept_bytes
      else
        match round_lag_from_tip round net_tip ACTIVE_ROUND_MAX_LAG with
        | Some lag =>
            VetFails (other ("live block lagged round=" +:+ show round +:+ " net_tip=" +:+
              show net_tip +:+ " lag=" +:+ show lag +:+ " max_lag=" +:+ show ACTIVE_ROUND_MAX_LAG)%string)
        | None =>
            if round <? floor
            then VetFails (other ("live block behind the freshest stream round=" +:+ show round +:+
              " floor=" +:+ show floor)%string)
            else VetAccepts (kept ++ [frame]) round
        end
  end.

(** The loop; the events run out when the surrounding [timeout] fires. *)
Fixpoint vet_loop (evs : list VetEvent) (min_round_exclusive net_tip : Z) (kept : list bytes)
    (kept_bytes : Z) : IoErr + (list bytes * Z) :=
  match evs with
  | [] => inl (mkErr TimedOut "deadline has elapsed")
  | e :: evs =>
      if v_remaining e =? 0 then inl (other "no live block before deadline")
      else
        frame ⇐ v_read e;
        match vet_turn frame (v_floor e) min_round_exclusive net_tip kept kept_bytes with
        | VetFails err => inl err
        | VetGoesOn kept kept_bytes => vet_loop evs min_round_exclusive net_tip kept kept_bytes
        | VetAccepts frames round => inr (frames, round)
        end
  end.

Definition open_live_peer_session_with_greet (ip : string) (dial : IoErr + bytes)
    (evs : list VetEvent) (min_round_exclusive net_tip : Z) : IoErr + LivePeerSession :=
  greeting ⇐ connect_and_greet_4001 dial;
  r ⇐ vet_loop evs min_round_exclusive net_tip [] 0;
  inr (mkLive ip greeting r.1 r.2 None).
End Vetting.

(** ** Candidate lists: lemmas *)

(** First occurrences, in order. *)
Definition firsts (l : list string) : list string := rev (remove_dups (rev l)).

Definition rotated (pool : list string) (start : nat) : list string :=
  drop (start mod length pool) pool ++ take (start mod length pool) pool.

Definition add_new (out : list string) (ip : string) : list string :=
  if bool_decide (ip ∈ out) then out else out ++ [ip].

Lemma elem_of_firsts l x : x ∈ firsts l <-> x ∈ l.
Proof. unfold firsts. by rewrite !list_elem_of_In, <- List.in_rev, <- !list_elem_of_In, elem_of_remove_dups,
  !list_elem_of_In, <- List.in_rev. Qed.

Lemma NoDup_firsts l : NoDup (firsts l).
Proof. unfold firsts. apply NoDup_ListNoDup, List.NoDup_rev, NoDup_ListNoDup, NoDup_remove_dups. Qed.

Lemma firsts_snoc l x : firsts (l ++ [x]) = add_new (firsts l) x.
Proof.
  unfold add_new. rewrite (bool_decide_ext _ _ (elem_of_firsts l x)). unfold firsts.
  rewrite List.rev_app_distr. cbn. case_decide as E; case_bool_decide as E'; try done;
    rewrite list_elem_of_In, <- List.in_rev, <- list_elem_of_In in E; done.
Qed.

Lemma foldl_add_new l l' : foldl add_new (firsts l) l' = firsts (l ++ l').
Proof.
  revert l. induction l' as [|x l' IH]; intros l; cbn; [by rewrite app_nil_r|].
  rewrite <- firsts_snoc, IH, <- app_assoc. done.
Qed.

Lemma firsts_NoDup l : NoDup l -> firsts l = l.
Proof.
  induction l as [|x l IH] using rev_ind; intros Hn; [done|].
  rewrite firsts_snoc. apply NoDup_app in Hn as (Hl & Hd & _). rewrite IH by done.
  unfold add_new. case_bool_decide as E; [|done]. exfalso. apply (Hd x E). by left.
Qed.

Lemma firsts_app l l' : NoDup l -> exists r, firsts (l ++ l') = l ++ r.
Proof.
  intros Hn. induction l' as [|x l' IH] using rev_ind.
  - exists []. rewrite !app_nil_r. by apply firsts_NoDup.
  - destruct IH as [r Hr]. rewrite app_assoc, firsts_snoc, Hr. unfold add_new.
    case_bool_decide; [by exists r|]. exists (r ++ [x]). by rewrite app_assoc.
Qed.

Lemma map_nth_seq (l : list string) a n :
  (a + n <= length l)%nat -> map (fun k => nth (a + k) l EmptyString) (seq 0 n) = take n (drop a l).
Proof.
  intros Hl. apply list_eq. intros i. destruct (decide (i < n)%nat) as [Hi|Hi].
  - rewrite list_lookup_fmap, lookup_seq_lt by done. cbn.
    rewrite lookup_take_lt, lookup_drop by done.
    destruct (lookup_lt_is_Some_2 l (a + i)) as [x Hx]; [lia|].
    by rewrite (nth_lookup_Some _ _ _ _ Hx).
  - rewrite list_lookup_fmap, lookup_seq_ge by lia. cbn. by rewrite lookup_take_ge by lia.
Qed.

Lemma rotated_map (pool : list string) (start : nat) :
  map (fun k => nth ((start + k) mod length pool) pool EmptyString) (seq 0 (length pool)) =
  rotated pool start.
Proof.
  destruct (decide (length pool = 0%nat)) as [E|E].
  { destruct pool; [|done]. unfold rotated. by rewrite drop_nil, take_nil. }
  unfold rotated. set (n := length pool) in *. set (s := (start mod n)%nat).
  assert (Hs : (s < n)%nat) by (by apply Nat.mod_upper_bound).
  replace (seq 0 n) with (seq 0 (n - s) ++ seq (n - s) s)
    by (rewrite <- seq_app; f_equal; lia).
  rewrite map_app.
  assert (Hmod : forall k, ((start + k) mod n = (s + k) mod n)%nat)
    by (intros k; unfold s; by rewrite Nat.Div0.add_mod_idemp_l).
  f_equal.
  - transitivity (map (fun k => nth (s + k) pool EmptyString) (seq 0 (n - s))).
    + apply List.map_ext_in. intros k Hk. apply List.in_seq in Hk. rewrite Hmod.
      rewrite Nat.mod_small by lia. done.
    + rewrite map_nth_seq by (fold n; lia). apply take_ge. rewrite length_drop. fold n. lia.
  - replace (seq (n - s) s) with (map (Nat.add (n - s)) (seq 0 s))
      by (etransitivity; [apply fmap_add_seq|by rewrite Nat.add_0_r]).
    transitivity (map (fun k => nth (0 + k) pool EmptyString) (seq 0 s));
      [|by rewrite map_nth_seq by (fold n; lia)].
    rewrite List.map_map. apply List.map_ext_in. intros k Hk. apply List.in_seq in Hk. rewrite Hmod.
    replace (s + (n - s + k))%nat with (k + 1 * n)%nat by lia.
    rewrite Nat.Div0.mod_add, Nat.mod_small by lia. done.
Qed.

Section ListSpecs.
Context `{UpstreamFilter}.

Definition unblocked (l : list string) : list string := filter (fun ip => blocked ip = false) l.

Lemma unblocked_cons x l :
  unblocked (x :: l) = if blocked x then unblocked l else x :: unblocked l.
Proof. unfold unblocked. rewrite filter_cons. by destruct (blocked x). Qed.

(** The candidate list is the first occurrences of the unblocked head, then the rotated pool. *)
Lemma ordered_candidates_eq hd pool start :
  ordered_candidates hd pool start = firsts (unblocked hd ++ rotated pool start).
Proof.
  assert (Hh : forall l l', foldl push_head (firsts l) l' = firsts (l ++ unblocked l')).
  { intros l l'. revert l. induction l' as [|x l' IH]; intros l; [cbn; by rewrite app_nil_r|].
    change (foldl push_head (push_head (firsts l) x) l' = firsts (l ++ unblocked (x :: l'))).
    rewrite unblocked_cons. unfold push_head at 2. destruct (blocked x); cbn.
    - rewrite andb_false_r. apply IH.
    - rewrite andb_true_r.
      replace (if negb (bool_decide (x ∈ firsts l)) then firsts l ++ [x] else firsts l)
        with (add_new (firsts l) x) by (unfold add_new; by case_bool_decide).
      rewrite <- firsts_snoc, IH, <- app_assoc. done. }
  unfold ordered_candidates. change (foldl push_head []) with (foldl push_head (firsts [])).
  rewrite Hh, <- rotated_map, <- (foldl_add_new (unblocked hd)). cbn [app].
  generalize (firsts (unblocked hd)) as out. generalize (seq 0 (length pool)) as l.
  induction l as [|k l IH]; intros out; [reflexivity|]. apply IH.
Qed.

Lemma elem_of_rotated pool start x : x ∈ rotated pool start <-> x ∈ pool.
Proof.
  unfold rotated. rewrite elem_of_app. set (s := (start mod length pool)%nat).
  rewrite <- (take_drop s pool) at 3. rewrite elem_of_app. tauto.
Qed.

Lemma elem_of_ordered hd pool start x :
  x ∈ ordered_candidates hd pool start <-> (x ∈ hd /\ blocked x = false) \/ x ∈ pool.
Proof.
  rewrite ordered_candidates_eq, elem_of_firsts, elem_of_app, elem_of_rotated. unfold unblocked.
  rewrite list_elem_of_filter. tauto.
Qed.

Lemma NoDup_ordered hd pool start : NoDup (ordered_candidates hd pool start).
Proof. rewrite ordered_candidates_eq. apply NoDup_firsts. Qed.

Lemma unblocked_all l : Forall (fun ip => blocked ip = false) l -> unblocked l = l.
Proof. apply filter_all. Qed.

Lemma not_in_filter_length l (prio : list string) k :
  (length (take k (filter (fun ip => ip ∉ prio) l)) < k)%nat ->
  take k (filter (fun ip => ip ∉ prio) l) = filter (fun ip => ip ∉ prio) l.
Proof. rewrite length_take. intros Hk. apply take_ge. lia. Qed.

(** Bootstrap sources respect the policy. From usable priority peers (distinct, unblocked) and
    a filtered pool, the list has no duplicates and no blocked peer; [Never] offers no peer beyond
    the remembered servers and the pool, [Prefer] starts with every priority peer in order, and
    [Fallback] ends with every priority peer, all of them inside the scan window of
    [BOOTSTRAP_SELECT_MAX_PEERS], after the other peers, none of which is left out unless the
    window is full. *)
Theorem bootstrap_sources_respect_policy (policy : BootstrapPolicy)
    (prio remembered pool : list string) (start : nat) :
  NoDup prio -> Forall (fun ip => blocked ip = false) prio ->
  Forall (fun ip => blocked ip = false) pool ->
  (length prio <= BOOTSTRAP_SELECT_MAX_PEERS)%nat ->
  let out := bootstrap_source_list policy prio remembered pool start in
  let others := fun ip => (ip ∈ remembered /\ blocked ip = false) \/ ip ∈ pool in
  NoDup out /\ Forall (fun ip => blocked ip = false) out /\
  match policy with
  | Never => forall ip, ip ∈ out <-> others ip
  | Prefer => (exists rest, out = prio ++ rest) /\ forall ip, ip ∈ out <-> ip ∈ prio \/ others ip
  | Fallback =>
      (length out <= BOOTSTRAP_SELECT_MAX_PEERS)%nat /\
      exists front, out = front ++ prio /\
        (forall ip, ip ∈ front -> (ip ∉ prio) /\ others ip) /\
        ((length out < BOOTSTRAP_SELECT_MAX_PEERS)%nat ->
         forall ip, ip ∉ prio -> others ip -> ip ∈ front)
  end.
Proof.
  intros Hn Hb Hp Hlen. cbn zeta.
  assert (Hun : forall hd ip, ip ∈ ordered_candidates hd pool start -> blocked ip = false).
  { intros hd ip [[_ ?]|Hin]%elem_of_ordered; [done|]. rewrite Forall_forall in Hp. by apply Hp. }
  destruct policy; cbn [bootstrap_source_list].
  - set (l := filter (fun ip => ip ∉ prio) (ordered_candidates remembered pool start)).
    set (k := (BOOTSTRAP_SELECT_MAX_PEERS - length prio)%nat).
    assert (Hl : forall ip, ip ∈ l <-> (ip ∉ prio) /\ ip ∈ ordered_candidates remembered pool start)
      by (intros ip; unfold l; by rewrite list_elem_of_filter).
    assert (Ht : forall ip, ip ∈ take k l -> ip ∈ l)
      by (intros ip Hip; rewrite <- (take_drop k l); apply elem_of_app; by left).
    split_and!.
    + apply NoDup_app. split_and!; [| |done].
      * assert (Hnl : NoDup l) by (by apply NoDup_filter, NoDup_ordered).
        rewrite <- (take_drop k l) in Hnl. by apply NoDup_app in Hnl as [? _].
      * intros x Hx. by apply Ht, Hl in Hx as [? _].
    + apply Forall_app. split; [|done]. apply Forall_forall. intros x Hx.
      apply Ht, Hl in Hx as [_ Hx]. by eapply Hun.
    + rewrite length_app, length_take. lia.
    + exists (take k l). split_and!; [done| |].
      * intros ip Hip. apply Ht, Hl in Hip as [? Hip]. split; [done|]. by apply elem_of_ordered in Hip.
      * rewrite length_app. intros Hlt ip Hnin Ho. unfold l.
        rewrite not_in_filter_length by (fold l; lia). apply Hl. split; [done|].
        by apply elem_of_ordered.
  - split_and!; [apply NoDup_ordered| |intros ip; apply elem_of_ordered].
    apply Forall_forall. intros x. apply Hun.
  - split_and!; [apply NoDup_ordered| | |].
    + apply Forall_forall. intros x. apply Hun.
    + rewrite ordered_candidates_eq. unfold unblocked. rewrite filter_app, (filter_all _ prio Hb).
      rewrite <- app_assoc. by apply firsts_app.
    + intros ip. rewrite elem_of_ordered, elem_of_app. rewrite Forall_forall in Hb.
      split; [tauto|]. intros [Hi|?]; [|tauto]. left. split; [by left|by apply Hb].
Qed.
End ListSpecs.

Lemma bootstrap_sources_respect_policy_witness :
  exists front, bootstrap_source_list Fallback ["10.0.0.1"] ["1.1.1.1"; "10.0.0.1"]
    ["2.2.2.2"; "3.3.3.3"; "1.1.1.1"] 4 = front ++ ["10.0.0.1"]%string /\
  front = ["1.1.1.1"; "3.3.3.3"; "2.2.2.2"]%string.
Proof.
  destruct (bootstrap_sources_respect_policy Fallback ["10.0.0.1"]%string
    ["1.1.1.1"; "10.0.0.1"]%string ["2.2.2.2"; "3.3.3.3"; "1.1.1.1"]%string 4)
    as (_ & _ & _ & front & E & _).
  - by apply (bool_decide_unpack _).
  - by repeat constructor.
  - by repeat constructor.
  - unfold BOOTSTRAP_SELECT_MAX_PEERS. cbn. lia.
  - exists front. split; [exact E|].
    assert (E1 : bootstrap_source_list Fallback ["10.0.0.1"] ["1.1.1.1"; "10.0.0.1"]
      ["2.2.2.2"; "3.3.3.3"; "1.1.1.1"] 4 = ["1.1.1.1"; "3.3.3.3"; "2.2.2.2"; "10.0.0.1"]%string)
      by (vm_compute; reflexivity).
    rewrite E1 in E. change ["1.1.1.1"; "3.3.3.3"; "2.2.2.2"; "10.0.0.1"]%string
      with (["1.1.1.1"; "3.3.3.3"; "2.2.2.2"]%string ++ ["10.0.0.1"%string]) in E.
    by apply app_inj_tail in E as [<- _].
Defined.

(** ** Vetting: lemmas *)

Section VetProofs.
Context (lz4_decompress : bytes -> option bytes).
Abbreviation vround := (vet_round lz4_decompress).

(** A turn that neither accepts nor fails: a frame with no round, or a block the loop skips. *)
Definition passed_over (min_round net_tip : Z) (e : VetEvent) (frame : bytes) : Prop :=
  v_remaining e <> 0 /\ v_read e = inr frame /\
  forall r, vround frame = Some r -> vet_skips r min_round net_tip = true.

(** An acceptable first block. *)
Definition acceptable (min_round net_tip : Z) (e : VetEvent) (frame : bytes) (round : Z) : Prop :=
  v_remaining e <> 0 /\ v_read e = inr frame /\ vround frame = Some round /\
  MIN_PLAUSIBLE_MAINNET_ROUND <= round /\ min_round < round /\ v_floor e <= round /\
  (net_tip <> 0 -> net_tip - ACTIVE_ROUND_MAX_LAG <= round <= sat_add32 net_tip VET_MAX_ROUNDS_ABOVE_TIP).

(** The frames kept out of those passed over. *)
Definition kept_of (st : list bytes * Z) (frames : list bytes) : list bytes * Z :=
  foldl (fun st f => match vround f with None => keep_frame st.1 st.2 f | Some _ => st end) st frames.

Lemma acceptable_iff min_round net_tip e frame round :
  acceptable min_round net_tip e frame round <->
  v_remaining e <> 0 /\ v_read e = inr frame /\ vround frame = Some round /\
  vet_skips round min_round net_tip = false /\
  round_lag_from_tip round net_tip ACTIVE_ROUND_MAX_LAG = None /\ (round <? v_floor e) = false.
Proof.
  unfold acceptable, vet_skips, first_round_far_above_tip, is_plausible_mainnet_round,
    round_lag_from_tip, sat_add32, NET_TIP_SLACK_ROUNDS, VET_MAX_ROUNDS_ABOVE_TIP,
    MAX_ACTIVE_ROUND_JUMP, ACTIVE_ROUND_MAX_LAG, u32_max.
  rewrite !orb_false_iff, negb_false_iff, andb_true_iff, orb_true_iff, andb_false_iff,
    negb_false_iff, !Z.leb_gt, !Z.ltb_ge, !Z.leb_le, !Z.eqb_eq.
  destruct (Z.eqb_spec net_tip 0), (Z.leb_spec net_tip round); cbn [orb];
    try (destruct (Z.ltb_spec 1500 (net_tip - round))); split; intros; destruct_and?;
    split_and?; try done; try lia; try (right; lia).
Qed.

Lemma vet_loop_pass min_round net_tip e evs frame kept n :
  passed_over min_round net_tip e frame ->
  vet_loop lz4_decompress (e :: evs) min_round net_tip kept n =
  vet_loop lz4_decompress evs min_round net_tip (kept_of (kept, n) [frame]).1
    (kept_of (kept, n) [frame]).2.
Proof.
  intros (Hr & Hf & Hs). cbn [vet_loop kept_of foldl]. rewrite (proj2 (Z.eqb_neq _ _) Hr), Hf. cbn.
  unfold vet_turn. destruct (vround frame) as [r|] eqn:E; [by rewrite (Hs r eq_refl)|].
  by destruct (keep_frame kept n frame).
Qed.

Lemma vet_loop_run min_round net_tip pre fs evs kept n :
  Forall2 (passed_over min_round net_tip) pre fs ->
  vet_loop lz4_decompress (pre ++ evs) min_round net_tip kept n =
  vet_loop lz4_decompress evs min_round net_tip (kept_of (kept, n) fs).1 (kept_of (kept, n) fs).2.
Proof.
  intros H. revert kept n. induction H as [|e f pre fs He _ IH]; intros kept n; [done|].
  cbn [app]. rewrite (vet_loop_pass _ _ _ _ f) by done. rewrite IH.
  unfold kept_of. cbn. by destruct (match vround f with None => _ | Some _ => _ end).
Qed.

Lemma vet_loop_accept min_round net_tip e evs frame round kept n :
  acceptable min_round net_tip e frame round ->
  vet_loop lz4_decompress (e :: evs) min_round net_tip kept n = inr (kept ++ [frame], round).
Proof.
  intros (Hr & Hf & Hv & Hs & Hl & Hfl)%acceptable_iff. cbn [vet_loop].
  by rewrite (proj2 (Z.eqb_neq _ _) Hr), Hf; cbn; unfold vet_turn; rewrite Hv, Hs, Hl, Hfl.
Qed.

(** The loop's successful runs, read backwards. *)
Lemma vet_loop_inv min_round net_tip evs kept n res :
  vet_loop lz4_decompress evs min_round net_tip kept n = inr res ->
  exists pre fs e post frame, evs = pre ++ e :: post /\
    Forall2 (passed_over min_round net_tip) pre fs /\
    acceptable min_round net_tip e frame res.2 /\ res.1 = (kept_of (kept, n) fs).1 ++ [frame].
Proof.
  revert kept n. induction evs as [|e evs IH]; intros kept n; [done|]. cbn [vet_loop].
  destruct (Z.eqb_spec (v_remaining e) 0) as [|Hr]; [done|].
  destruct (v_read e) as [err|frame] eqn:Ef; [done|]. cbn [sum_bind].
  assert (Hcons : forall kept' n', kept_of (kept, n) [frame] = (kept', n') ->
    passed_over min_round net_tip e frame ->
    vet_loop lz4_decompress evs min_round net_tip kept' n' = inr res ->
    exists pre fs e' post frame', e :: evs = pre ++ e' :: post /\
      Forall2 (passed_over min_round net_tip) pre fs /\
      acceptable min_round net_tip e' frame' res.2 /\ res.1 = (kept_of (kept, n) fs).1 ++ [frame']).
  { intros kept' n' Ek Hp Hv. apply IH in Hv as (pre & fs & e' & post & f' & -> & H2 & H3 & H4).
    exists (e :: pre), (frame :: fs), e', post, f'. split_and!; [done|by constructor|done|].
    rewrite H4, <- Ek. done. }
  unfold vet_turn. destruct (vround frame) as [round|] eqn:Ev.
  - destruct (vet_skips round min_round net_tip) eqn:Es.
    + apply Hcons; [unfold kept_of; cbn; by rewrite Ev|]. split_and!; [done|done|]. congruence.
    + destruct (round_lag_from_tip _ _ _) eqn:El; [done|].
      destruct (round <? v_floor e) eqn:Efl; [done|]. intros [= <-].
      exists [], [], e, evs, frame. split_and!; [done|constructor| |done].
      by apply acceptable_iff.
  - destruct (keep_frame kept n frame) as [k' n'] eqn:Ek. apply Hcons.
    + unfold kept_of. cbn. by rewrite Ev.
    + split_and!; [done|done|]. congruence.
Qed.

Definition total_len (l : list bytes) : Z := foldr (fun f n => Z.of_nat (length f) + n) 0 l.

Lemma total_len_snoc l f : total_len (l ++ [f]) = total_len l + Z.of_nat (length f).
Proof. unfold total_len. induction l as [|x l IH]; cbn in *; [lia|]. rewrite IH. lia. Qed.

Lemma kept_of_bound fs :
  let st := kept_of ([], 0) fs in
  (length st.1 <= VET_KEEP_MAX_FRAMES)%nat /\ total_len st.1 = st.2 /\ st.2 <= VET_KEEP_MAX_BYTES /\
  st.1 `sublist_of` filter (fun f => vround f = None) fs.
Proof.
  induction fs as [|f fs IH] using rev_ind; [cbn; split_and!; [lia|done|done|constructor]|].
  unfold kept_of. rewrite foldl_app, filter_app. fold (kept_of ([], 0) fs). cbn [foldl].
  destruct IH as (H1 & H2 & H3 & H4). destruct (vround f) eqn:E.
  - split_and!; [done..|]. by apply sublist_inserts_r.
  - rewrite filter_cons, decide_True by done. rewrite filter_nil.
    unfold keep_frame. destruct (_ && _) eqn:Ek; zify_bool; cbn [fst snd].
    + rewrite length_app, total_len_snoc. apply Nat.ltb_lt in H. cbn [length].
      split_and!; [lia|lia|lia|]. by apply sublist_app.
    + split_and!; [done..|]. by apply sublist_inserts_r.
Qed.

(** With room for all of them, every frame with no round is kept. *)
Lemma kept_of_all fs :
  (length (filter (fun f => vround f = None) fs) <= VET_KEEP_MAX_FRAMES)%nat ->
  total_len (filter (fun f => vround f = None) fs) <= VET_KEEP_MAX_BYTES ->
  (kept_of ([], 0) fs).1 = filter (fun f => vround f = None) fs.
Proof.
  induction fs as [|f fs IH] using rev_ind; [done|]. rewrite filter_app. intros Hl Ht.
  unfold kept_of. rewrite foldl_app. fold (kept_of ([], 0) fs). cbn [foldl].
  destruct (kept_of_bound fs) as (_ & Htl & _).
  rewrite filter_cons, filter_nil in *. destruct (vround f) eqn:E; case_decide; try done.
  - rewrite app_nil_r in *. by apply IH.
  - rewrite length_app, total_len_snoc in *. cbn [length] in *.
    rewrite <- Htl. rewrite IH by lia. unfold keep_frame.
    rewrite (proj2 (Nat.ltb_lt _ _)) by lia. rewrite (proj2 (Z.leb_le _ _)) by lia. done.
Qed.

(** Vetting accepts exactly a fresh, plausible first block. [open_live_peer_session_with_greet]
    succeeds exactly when the greeting is not a refusal and, after frames it passes over (no round,
    or a round that is implausible, not above [min_round_exclusive] or far above the tip), the first
    block it does not pass over is at most [ACTIVE_ROUND_MAX_LAG] behind the tip and not below the
    lag guard's floor. The session then carries the frames without a round, in stream order, and the
    accepted block last; at most [VET_KEEP_MAX_FRAMES] frames and [VET_KEEP_MAX_BYTES] bytes are
    kept, and none is lost while they fit. *)
Theorem live_vetting_exact (ip : string) (dial : IoErr + bytes) (evs : list VetEvent)
    (min_round net_tip : Z) (s : LivePeerSession) :
  (open_live_peer_session_with_greet lz4_decompress ip dial evs min_round net_tip = inr s <->
   dial = inr (lp_greeting s) /\ response_is_peer_full (lp_greeting s) = false /\
   lp_ip s = ip /\ lp_slot s = None /\
   exists pre fs e post frame, evs = pre ++ e :: post /\
     Forall2 (passed_over min_round net_tip) pre fs /\
     acceptable min_round net_tip e frame (lp_first_round s) /\
     lp_prefetched s = (kept_of ([], 0) fs).1 ++ [frame]) /\
  (forall fs, let kept := (kept_of ([], 0) fs).1 in
     let controls := filter (fun f => vround f = None) fs in
     (length kept <= VET_KEEP_MAX_FRAMES)%nat /\ total_len kept <= VET_KEEP_MAX_BYTES /\
     kept `sublist_of` controls /\
     ((length controls <= VET_KEEP_MAX_FRAMES)%nat -> total_len controls <= VET_KEEP_MAX_BYTES ->
      kept = controls)).
Proof.
  split.
  - unfold open_live_peer_session_with_greet, connect_and_greet_4001. split.
    + destruct dial as [err|greeting]; [done|]. cbn. destruct (response_is_peer_full _) eqn:Eg; [done|].
      cbn. destruct (vet_loop _ _ _ _ _ _) as [err|res] eqn:Ev; [done|]. cbn. intros [= <-]. cbn.
      apply vet_loop_inv in Ev. by split_and!.
    + destruct s as [sip g pf r sl]. cbn. intros (-> & Hg & -> & -> & pre & fs & e & post & f & -> & Hp & Ha & ->).
      cbn. rewrite Hg. cbn. rewrite (vet_loop_run _ _ _ fs) by done.
      by rewrite (vet_loop_accept _ _ _ _ f r) by done.
  - intros fs. cbn zeta. destruct (kept_of_bound fs) as (H1 & H2 & H3 & H4).
    split_and!; [done|lia|done|]. apply kept_of_all.
Qed.
End VetProofs.

(** A control frame, a block below the floor of the node, then a fresh block. *)
Definition example_vet : list VetEvent :=
  [mkVet 1 (inr (make_frame 1 0 [7])) 0;
   mkVet 1 (inr (make_frame 21 1 (block_payload 1999999999))) 0;
   mkVet 1 (inr (make_frame 21 1 (block_payload 2000000001))) 1999999000].

Lemma live_vetting_exact_witness :
  exists s, open_live_peer_session_with_greet no_lz4 "1.1.1.1" (inr [0; 0; 0; 0; 0]) example_vet
    2000000000 2000000100 = inr s /\ lp_first_round s = 2000000001 /\
  lp_greeting s = [0; 0; 0; 0; 0].
Proof.
  destruct (open_live_peer_session_with_greet no_lz4 "1.1.1.1" (inr [0; 0; 0; 0; 0]) example_vet
    2000000000 2000000100) as [e|s] eqn:E.
  - exfalso. vm_compute in E. discriminate E.
  - exists s. split; [done|]. split.
    + vm_compute in E. injection E as <-. reflexivity.
    + apply live_vetting_exact in E as (Ed & _). by injection Ed as <-.
Defined.
