(* ===== verification/Race.v ===== *)
(** Races over upstream candidates: the selection loops of [src/gateway/select.rs].

    Attempts run as tasks of a [JoinSet] next to the selecting loop, and other node sessions use
    the same priority tier meanwhile. A race is therefore a state machine over events: a step of
    another session on the tier, the first poll of a task (which takes its priority slot), the end
    of a task's dial, and the wake-ups of the loop (a joined task, a panicked task, a timeout). The
    loop's clock readings are part of its events. *)

From S2P Require Import Prelude Text Wire Blacklist Priority Freshest PushSession Node Sources.

(** ** Constants *)

Definition LIVE_SELECT_WAIT : Z := millis 3500.
Definition LIVE_SELECT_MAX_PARALLEL : nat := 4.
Definition PRIORITY_CAP_REACHED : string := "priority session cap reached".
Definition BOOTSTRAP_SELECT_DEADLINE_SECS : Z := 24.
Definition BOOTSTRAP_SELECT_MAX_INFLIGHT : nat := 4.
Definition BOOTSTRAP_PRIORITY_HEAD_START : Z := seconds 8.
Definition NODE_LIVE_CONNECT_DEADLINE : Z := seconds 5.
Definition FALLBACK_WAIT : Z :=
  sat_sub (sat_sub NODE_LIVE_CONNECT_DEADLINE LIVE_SELECT_WAIT) (millis 200).
Definition FALLBACK_MAX_PARALLEL : nat := 8.

(** ** Attempts *)

Section Attempts.
Context {E S : Type} (cap_error : E).

(** A priority attempt takes its slot when it is first polled and gives it back when it fails; a
    successful one keeps it with its session. *)
Inductive Progress :=
| Spawned
| Dialing (slot : option nat)
| Finished (r : E + S * option nat).

Record Task := mkTask { tk_ip : string; tk_prio : bool; tk_at : Progress }.

(** The tier, the guards of all other sessions, the tasks of this race. *)
Record World := mkWorld { w_tier : PriorityTier; w_others : list nat; w_set : list Task }.

Definition slot_of (t : Task) : option nat :=
  match tk_at t with Dialing s => s | Finished (inr (_, s)) => s | _ => None end.

Definition slots_of (set : list Task) : list nat := omap slot_of set.

Definition release (t : PriorityTier) (slot : option nat) : PriorityTier :=
  match slot with Some i => drop_session t i | None => t end.

(** [abort_all] and the drop of the [JoinSet]. *)
Definition abort_all (w : World) : World :=
  mkWorld (foldl drop_session (w_tier w) (slots_of (w_set w))) (w_others w) [].

Inductive task_event :=
| TOther (o : op)
| TPoll (k : nat)
| TEnd (k : nat) (r : E + S).

Definition set_task (w : World) (t : PriorityTier) (k : nat) (task : Task) (p : Progress) : World :=
  mkWorld t (w_others w) (<[k := mkTask (tk_ip task) (tk_prio task) p]> (w_set w)).

(** [live_attempt], split at its awaits. *)
Definition task_step (w : World) (e : task_event) : World :=
  match e with
  | TOther o => let '(t, gs) := op_step (w_tier w, w_others w) o in mkWorld t gs (w_set w)
  | TPoll k =>
      match w_set w !! k with
      | Some task =>
          match tk_at task with
          | Spawned =>
              if tk_prio task then
                match try_acquire (w_tier w) (tk_ip task) with
                | Some (i, t) => set_task w t k task (Dialing (Some i))
                | None => set_task w (w_tier w) k task (Finished (inl cap_error))
                end
              else set_task w (w_tier w) k task (Dialing None)
          | _ => w
          end
      | None => w
      end
  | TEnd k r =>
      match w_set w !! k with
      | Some task =>
          match tk_at task with
          | Dialing slot =>
              match r with
              | inl e => set_task w (release (w_tier w) slot) k task (Finished (inl e))
              | inr s => set_task w (w_tier w) k task (Finished (inr (s, slot)))
              end
          | _ => w
          end
      | None => w
      end
  end.

(** Removing a joined task. *)
Definition join (w : World) (k : nat) : World := mkWorld (w_tier w) (w_others w) (delete k (w_set w)).

Definition with_tier (w : World) (t : PriorityTier) : World := mkWorld t (w_others w) (w_set w).

Definition spawn (w : World) (task : Task) : World :=
  mkWorld (w_tier w) (w_others w) (w_set w ++ [task]).
End Attempts.
Arguments Progress : clear implicits.
Arguments Task : clear implicits.
Arguments World : clear implicits.
Arguments task_event : clear implicits.

(** The clock readings of one turn of a loop: at the top, before each launch, for the remaining
    time, and when the loop is left. *)
Record Clock := mkClock { ck_now : Z; ck_launch : nat -> Z; ck_rem : Z; ck_exit : Z }.

Definition clock_ok (c : Clock) : Prop :=
  (forall k, ck_now c <= ck_launch c k <= ck_rem c) /\ ck_rem c <= ck_exit c.

(** ** Live selection *)

Section Live.
Abbreviation LWorld := (World IoErr LivePeerSession).

Record LiveCfg := mkLiveCfg {
  lc_peers : list string;
  lc_start : nat;
  lc_prio : list string;
  lc_started : Z;
  lc_pool_opens : Z
}.

Definition lc_deadline (cfg : LiveCfg) : Z := lc_started cfg + LIVE_SELECT_WAIT.

Record LiveSel := mkLiveSel {
  ls_w : LWorld;
  ls_prio_in_flight : nat;
  ls_pool_in_flight : nat;
  ls_launched : nat;
  ls_pending : list string;
  ls_fails : list string;
  ls_pool_open : bool;
  ls_result : option (option LivePeerSession)    (* [None] while the loop runs *)
}.

Definition cap_err : IoErr := other PRIORITY_CAP_REACHED.

Definition pool_opens_at (t : PriorityTier) (prio : list string) (started : Z) : Z :=
  if bool_decide (prio = []) then started
  else if exclusive t then started + LIVE_SELECT_WAIT
  else started + stage t.

(** Leaving the loop: the hung priority peers are cooled down. *)
Definition live_exit (s : LiveSel) (now : Z) : LiveSel :=
  let w := abort_all (ls_w s) in
  mkLiveSel (with_tier w (foldl (fun t ip => mark_hung_at t ip now) (w_tier w) (ls_pending s)))
    (ls_prio_in_flight s) (ls_pool_in_flight s) (ls_launched s) (ls_pending s) (ls_fails s)
    (ls_pool_open s) (Some None).

Definition launch_one (cfg : LiveCfg) (s : LiveSel) : LiveSel :=
  let ip := nth ((lc_start cfg + ls_launched s) mod length (lc_peers cfg)) (lc_peers cfg) EmptyString in
  mkLiveSel (spawn (ls_w s) (mkTask ip false Spawned)) (ls_prio_in_flight s)
    (S (ls_pool_in_flight s)) (S (ls_launched s)) (ls_pending s) (ls_fails s) (ls_pool_open s)
    (ls_result s).

(** The [while] loop over the free pool slots; it runs at most [LIVE_SELECT_MAX_PARALLEL] times. *)
Fixpoint launch_pool (fuel : nat) (cfg : LiveCfg) (c : Clock) (s : LiveSel) : LiveSel :=
  match fuel with
  | O => s
  | S fuel =>
      if (ls_launched s <? length (lc_peers cfg))%nat &&
         (ls_pool_in_flight s <? LIVE_SELECT_MAX_PARALLEL)%nat
      then
        if since (lc_deadline cfg) (ck_launch c fuel) =? 0 then s
        else launch_pool fuel cfg c (launch_one cfg s)
      else s
  end.

Definition set_pool_open (s : LiveSel) (b : bool) : LiveSel :=
  mkLiveSel (ls_w s) (ls_prio_in_flight s) (ls_pool_in_flight s) (ls_launched s) (ls_pending s)
    (ls_fails s) b (ls_result s).

(** The loop body up to the await. *)
Definition live_top (cfg : LiveCfg) (c : Clock) (s : LiveSel) : LiveSel :=
  let pool_open := (lc_pool_opens cfg <=? ck_now c) || (ls_prio_in_flight s =? 0)%nat in
  let s := set_pool_open s pool_open in
  let s := if pool_open then launch_pool LIVE_SELECT_MAX_PARALLEL cfg c s else s in
  if bool_decide (w_set (ls_w s) = []) || (since (lc_deadline cfg) (ck_rem c) =? 0)
  then live_exit s (ck_exit c) else s.

(** The failure arm of the [match] on the joined task. *)
Definition live_failed (s : LiveSel) (task : Task IoErr LivePeerSession) (e : IoErr) (w : LWorld)
    (now : Z) : LiveSel :=
  let ip := tk_ip task in
  if tk_prio task then
    let t :=
      if bool_decide (e_kind e = TimedOut) then mark_hung_at (w_tier w) ip now
      else if negb (bool_decide (e_text e = PRIORITY_CAP_REACHED)) then mark_failed_at (w_tier w) ip now
      else w_tier w in
    mkLiveSel (with_tier w t) (ls_prio_in_flight s - 1) (ls_pool_in_flight s) (ls_launched s)
      (filter (fun p => p <> ip) (ls_pending s)) (ls_fails s ++ [e_text e]) (ls_pool_open s)
      (ls_result s)
  else
    mkLiveSel w (ls_prio_in_flight s) (ls_pool_in_flight s - 1) (ls_launched s) (ls_pending s)
      (ls_fails s ++ [e_text e]) (ls_pool_open s) (ls_result s).

Definition with_slot (s : LivePeerSession) (slot : option nat) : LivePeerSession :=
  mkLive (lp_ip s) (lp_greeting s) (lp_prefetched s) (lp_first_round s) slot.

Definition live_won (s : LiveSel) (w : LWorld) (winner : LivePeerSession) : LiveSel :=
  mkLiveSel (abort_all w) (ls_prio_in_flight s) (ls_pool_in_flight s) (ls_launched s)
    (ls_pending s) (ls_fails s) (ls_pool_open s) (Some (Some winner)).

Inductive live_event :=
| LTask (e : task_event IoErr LivePeerSession)
| LJoin (k : nat) (now : Z) (c : Clock)
| LPanic (k : nat) (text : string) (c : Clock)
| LTimeout (c : Clock).

Definition set_world (s : LiveSel) (w : LWorld) : LiveSel :=
  mkLiveSel w (ls_prio_in_flight s) (ls_pool_in_flight s) (ls_launched s) (ls_pending s)
    (ls_fails s) (ls_pool_open s) (ls_result s).

Definition live_panic (s : LiveSel) (task : Task IoErr LivePeerSession) (k : nat) (text : string)
    : LiveSel :=
  let w := join (ls_w s) k in
  mkLiveSel (with_tier w (release (w_tier w) (slot_of task))) (ls_prio_in_flight s)
    (ls_pool_in_flight s) (ls_launched s) (ls_pending s) (ls_fails s ++ [("join: " +:+ text)%string])
    (ls_pool_open s) (ls_result s).

(** One event while the loop awaits; the set is not empty then, so the [Ok(None)] arm never runs. *)
Definition live_step (cfg : LiveCfg) (s : LiveSel) (ev : live_event) : LiveSel :=
  match ls_result s with
  | Some _ =>
      match ev with
      | LTask (TOther o) => set_world s (task_step cap_err (ls_w s) (TOther o))
      | _ => s
      end
  | None =>
      match ev with
      | LTask e => set_world s (task_step cap_err (ls_w s) e)
      | LJoin k now c =>
          match w_set (ls_w s) !! k with
          | Some task =>
              match tk_at task with
              | Finished (inr (v, slot)) => live_won s (join (ls_w s) k) (with_slot v slot)
              | Finished (inl e) => live_top cfg c (live_failed s task e (join (ls_w s) k) now)
              | _ => s
              end
          | None => s
          end
      | LPanic k text c =>
          match w_set (ls_w s) !! k with
          | Some task => live_top cfg c (live_panic s task k text)
          | None => s
          end
      | LTimeout c => if ls_pool_open s then live_exit s (ck_exit c) else live_top cfg c s
      end
  end.

(** [select_live_peer] up to its first await. *)
Definition live_start (t : PriorityTier) (others : list nat) (cfg : LiveCfg) (c : Clock) : LiveSel :=
  let s := mkLiveSel (mkWorld t others (map (fun ip => mkTask ip true Spawned) (lc_prio cfg)))
    (length (lc_prio cfg)) 0 0 (lc_prio cfg) [] false None in
  if bool_decide (lc_peers cfg = []) && bool_decide (lc_prio cfg = [])
  then mkLiveSel (mkWorld t others []) 0 0 0 [] [] false (Some None)
  else live_top cfg c s.

Definition select_live_peer (t : PriorityTier) (others : list nat) (cfg : LiveCfg) (c : Clock)
    (evs : list live_event) : LiveSel :=
  foldl (live_step cfg) (live_start t others cfg c) evs.

Definition live_cfg `{UpstreamFilter} (t : PriorityTier) (peers : list string) (start : nat)
    (started : Z) : LiveCfg :=
  let prio := candidates_at t started in
  mkLiveCfg peers start prio started (pool_opens_at t prio started).
End Live.

(** ** Bootstrap selection *)

Section Boot.
Abbreviation BWorld := (World string BootstrapPeerSelection).

Record BootCfg := mkBootCfg { bc_peers : list string; bc_start : nat; bc_started : Z }.

Definition bc_limit (cfg : BootCfg) : nat := Nat.min (length (bc_peers cfg)) BOOTSTRAP_SELECT_MAX_PEERS.
Definition bc_deadline (cfg : BootCfg) : Z := bc_started cfg + seconds BOOTSTRAP_SELECT_DEADLINE_SECS.
Definition bc_pool_after (cfg : BootCfg) : Z := bc_started cfg + BOOTSTRAP_PRIORITY_HEAD_START.

(** The candidate at a scan position. *)
Definition bc_nth (cfg : BootCfg) (k : nat) : string :=
  nth ((bc_start cfg + k) mod length (bc_peers cfg)) (bc_peers cfg) EmptyString.

Record BootSel := mkBoot {
  bt_w : BWorld;
  bt_launched : nat;
  bt_in_flight : nat;
  bt_prio_in_flight : nat;
  bt_fails : list string;
  bt_pool_held : bool;
  bt_result : option (option BootstrapPeerSelection)
}.

Definition boot_set_held (s : BootSel) (b : bool) : BootSel :=
  mkBoot (bt_w s) (bt_launched s) (bt_in_flight s) (bt_prio_in_flight s) (bt_fails s) b (bt_result s).

Definition boot_skip (s : BootSel) : BootSel :=
  mkBoot (bt_w s) (S (bt_launched s)) (bt_in_flight s) (bt_prio_in_flight s)
    (bt_fails s ++ [PRIORITY_CAP_REACHED]) (bt_pool_held s) (bt_result s).

Definition boot_spawn (s : BootSel) (t : PriorityTier) (ip : string) (prio : bool)
    (slot : option nat) : BootSel :=
  mkBoot (spawn (with_tier (bt_w s) t) (mkTask ip prio (Dialing slot))) (S (bt_launched s))
    (S (bt_in_flight s)) (bt_prio_in_flight s + if prio then 1 else 0) (bt_fails s) (bt_pool_held s)
    (bt_result s).

(** The [while] loop over the free slots: it launches or skips one candidate per turn. *)
Fixpoint boot_launch (fuel : nat) (cfg : BootCfg) (c : Clock) (s : BootSel) : BootSel :=
  match fuel with
  | O => s
  | S fuel =>
      if (bt_launched s <? bc_limit cfg)%nat && (bt_in_flight s <? BOOTSTRAP_SELECT_MAX_INFLIGHT)%nat
      then
        let t := w_tier (bt_w s) in
        let ip := bc_nth cfg (bt_launched s) in
        let prio := contains t ip in
        if negb prio && (0 <? bt_prio_in_flight s)%nat && exclusive t &&
           (ck_launch c (bt_launched s) <? bc_pool_after cfg)
        then boot_set_held s true
        else if prio then
          match try_acquire t ip with
          | Some (i, t) => boot_launch fuel cfg c (boot_spawn s t ip true (Some i))
          | None => boot_launch fuel cfg c (boot_skip s)
          end
        else boot_launch fuel cfg c (boot_spawn s t ip false None)
      else s
  end.

Definition boot_exit (s : BootSel) (r : option BootstrapPeerSelection) : BootSel :=
  mkBoot (abort_all (bt_w s)) (bt_launched s) (bt_in_flight s) (bt_prio_in_flight s) (bt_fails s)
    (bt_pool_held s) (Some r).

(** The loop body up to the await. *)
Definition boot_top (cfg : BootCfg) (c : Clock) (s : BootSel) : BootSel :=
  let s := boot_launch BOOTSTRAP_SELECT_MAX_PEERS cfg c (boot_set_held s false) in
  if (bt_in_flight s =? 0)%nat || (since (bc_deadline cfg) (ck_rem c) =? 0)
  then boot_exit s None else s.

Definition boot_with_slot (s : BootstrapPeerSelection) (slot : option nat) : BootstrapPeerSelection :=
  mkBootSel (bs_ip s) (bs_hdr s) (bs_prefix s) (bs_abci_len s) slot.

(** A joined attempt that failed ([prio] as the task reported it), or that panicked. *)
Definition boot_failed (s : BootSel) (prio : bool) (e : string) (k : nat) : BootSel :=
  mkBoot (join (bt_w s) k) (bt_launched s) (bt_in_flight s - 1)
    (bt_prio_in_flight s - if prio then 1 else 0) (bt_fails s ++ [e]) (bt_pool_held s) (bt_result s).

Definition boot_panic (s : BootSel) (task : Task string BootstrapPeerSelection) (k : nat)
    (text : string) : BootSel :=
  let w := join (bt_w s) k in
  mkBoot (with_tier w (release (w_tier w) (slot_of task))) (bt_launched s) (bt_in_flight s - 1)
    (Nat.min (bt_prio_in_flight s) (bt_in_flight s - 1)) (bt_fails s ++ [("join: " +:+ text)%string])
    (bt_pool_held s) (bt_result s).

Inductive boot_event :=
| BTask (e : task_event string BootstrapPeerSelection)
| BJoin (k : nat) (c : Clock)
| BPanic (k : nat) (text : string) (c : Clock)
| BTimeout (now : Z) (c : Clock).

Definition boot_set_world (s : BootSel) (w : BWorld) : BootSel :=
  mkBoot w (bt_launched s) (bt_in_flight s) (bt_prio_in_flight s) (bt_fails s) (bt_pool_held s)
    (bt_result s).

Definition boot_step (cfg : BootCfg) (s : BootSel) (ev : boot_event) : BootSel :=
  match bt_result s with
  | Some _ =>
      match ev with
      | BTask (TOther o) => boot_set_world s (task_step PRIORITY_CAP_REACHED (bt_w s) (TOther o))
      | _ => s
      end
  | None =>
      match ev with
      | BTask e => boot_set_world s (task_step PRIORITY_CAP_REACHED (bt_w s) e)
      | BJoin k c =>
          match w_set (bt_w s) !! k with
          | Some task =>
              match tk_at task with
              | Finished (inr (v, slot)) =>
                  boot_exit (boot_set_world s (join (bt_w s) k)) (Some (boot_with_slot v slot))
              | Finished (inl e) => boot_top cfg c (boot_failed s (tk_prio task) e k)
              | _ => s
              end
          | None => s
          end
      | BPanic k text c =>
          match w_set (bt_w s) !! k with
          | Some task => boot_top cfg c (boot_panic s task k text)
          | None => s
          end
      | BTimeout now c =>
          if bt_pool_held s && (now <? bc_deadline cfg) then boot_top cfg c s else boot_exit s None
      end
  end.

Definition boot_start (t : PriorityTier) (others : list nat) (cfg : BootCfg) (c : Clock) : BootSel :=
  let s := mkBoot (mkWorld t others []) 0 0 0 [] false None in
  if bool_decide (bc_peers cfg = []) then boot_exit s None else boot_top cfg c s.

Definition select_fast_bootstrap_peer (t : PriorityTier) (others : list nat) (cfg : BootCfg)
    (c : Clock) (evs : list boot_event) : BootSel :=
  foldl (boot_step cfg) (boot_start t others cfg c) evs.
End Boot.

(** ** The unvetted fallback *)

Section FallbackRace.
(** The task returns its slot next to the dial's outcome, so a failed dial keeps it until joined:
    the outcome is the value of the task. *)
Abbreviation FWorld := (World IoErr (IoErr + bytes)).

(** Dial the first candidates; a priority peer only with a free slot. *)
Definition fallback_dial (w : FWorld) (ip : string) : FWorld :=
  if contains (w_tier w) ip then
    match try_acquire (w_tier w) ip with
    | Some (i, t) => spawn (with_tier w t) (mkTask ip true (Dialing (Some i)))
    | None => w
    end
  else spawn w (mkTask ip false (Dialing None)).

Definition fallback_start (t : PriorityTier) (others : list nat) (candidates : list string) : FWorld :=
  foldl fallback_dial (mkWorld t others []) (take FALLBACK_MAX_PARALLEL candidates).

Inductive fallback_event :=
| FTask (e : task_event IoErr (IoErr + bytes))
| FJoin (k : nat) (now : Z)
| FPanic (k : nat)
| FTimeout.

(** The winner: address, greeting and slot. *)
Definition FallbackUpstream : Type := string * bytes * option nat.

Definition fallback_step (s : FWorld * option (option FallbackUpstream)) (ev : fallback_event)
    : FWorld * option (option FallbackUpstream) :=
  let '(w, r) := s in
  match r with
  | Some _ => match ev with FTask (TOther o) => (task_step cap_err w (TOther o), r) | _ => s end
  | None =>
      match ev with
      | FTask e => (task_step cap_err w e, None)
      | FJoin k now =>
          match w_set w !! k with
          | Some task =>
              match tk_at task with
              | Finished (inr (inr g, slot)) => (abort_all (join w k), Some (Some (tk_ip task, g, slot)))
              | Finished (inr (inl e, slot)) =>
                  let w := join w k in
                  let t := w_tier w in
                  let t := if contains t (tk_ip task) then mark_failed_at t (tk_ip task) now else t in
                  (with_tier w (release t slot), None)
              | Finished (inl _) => (join w k, None)
              | _ => s
              end
          | None => match w_set w with [] => (w, Some None) | _ => s end
          end
      | FPanic k =>
          match w_set w !! k with
          | Some task =>
              let w := join w k in (with_tier w (release (w_tier w) (slot_of task)), None)
          | None => s
          end
      | FTimeout => (abort_all w, Some None)
      end
  end.

Definition race_fallback_upstream (t : PriorityTier) (others : list nat) (candidates : list string)
    (evs : list fallback_event) : FWorld * option (option FallbackUpstream) :=
  foldl fallback_step (fallback_start t others candidates, None) evs.
End FallbackRace.

(** ** Returning to the priority tier *)

Record RepinTiming := mkRepin {
  min_session : Z; catchup_quiet : Z; catchup_max : Z; check_every : Z; retry : Z
}.

Definition REPIN : RepinTiming :=
  mkRepin (seconds 60) CATCHUP_RUN_GAP (seconds (3 * 60)) (seconds 15) (seconds (5 * 60)).

(** The node is not catching up, or its catch-up has run too long. *)
Definition caught_up (run : option ClientBlockRun) (timing : RepinTiming) (watch_start now : Z) : bool :=
  match client_blocks_run_since run now (catchup_quiet timing) with
  | None => true
  | Some sn => catchup_max timing <=? since now (Z.max sn watch_start)
  end.

(** The outcome of one probe ([live_attempt]) and the time it ended. *)
Record Probe := mkProbe { pr_result : IoErr + LivePeerSession; pr_at : Z }.

(** The probes of one check, each available priority peer in turn; the slot a probe takes is given
    back before the next one starts. Result: the peer that serves, whether a probe ran, the tier. *)
Fixpoint probe_all (t : PriorityTier) (ips : list string) (probe : string -> Probe) (probed : bool)
    : option string * bool * PriorityTier :=
  match ips with
  | [] => (None, probed, t)
  | ip :: ips =>
      match pr_result (probe ip) with
      | inr _ => (Some ip, probed, t)
      | inl e =>
          if bool_decide (e_text e = PRIORITY_CAP_REACHED) then probe_all t ips probe probed
          else
            let now := pr_at (probe ip) in
            probe_all (if bool_decide (e_kind e = TimedOut) then mark_hung_at t ip now
                       else mark_failed_at t ip now) ips probe true
      end
  end.

(** One turn of [wait_priority_return]'s loop: the exit reason, the tier, the node's last attempt.
    [now] is the turn's clock reading. *)
Definition priority_return_check `{UpstreamFilter} (t : PriorityTier) (run : option ClientBlockRun)
    (last_repin : option Z) (timing : RepinTiming) (watch_start now : Z) (probe : string -> Probe)
    : option string * PriorityTier * option Z :=
  let candidates := if caught_up run timing watch_start now then candidates_at t now else [] in
  if bool_decide (candidates = []) then (None, t, last_repin)
  else
    let '(claimed, last_repin') := claim_every last_repin now (retry timing) in
    if negb claimed then (None, t, last_repin)
    else
      match probe_all t candidates probe false with
      | (Some ip, _, t) =>
          (Some (RETURNING_TO_PRIORITY +:+ " (" +:+ ip +:+ " is serving)")%string, t, last_repin')
      | (None, probed, t) => (None, t, if probed then last_repin' else None)
      end.

(** One turn of [wait_catchup_stuck]'s loop: the exit reason and the node's last cut. *)
Definition catchup_stuck_check (run : option ClientBlockRun) (last_cut : option Z)
    (timing : RepinTiming) (watch_start now : Z) : option string * option Z :=
  match client_blocks_stalled run now (catchup_quiet timing) (catchup_max timing) with
  | Some (true, behind) =>
      if catchup_max timing <=? since now watch_start then
        let '(claimed, last_cut) := claim_every last_cut now (retry timing) in
        if claimed then
          (Some (NODE_CATCHUP_STUCK +:+ " (no progress for " +:+ show (as_secs (catchup_max timing)) +:+
             "s, " +:+ match behind with Some b => show b | None => "?" end +:+ " rounds behind)")%string,
           last_cut)
        else (None, last_cut)
      else (None, last_cut)
  | _ => (None, last_cut)
  end.

(** ** Slots of a race *)

Lemma counted_perm t gs gs' : gs ≡ₚ gs' -> counted (t, gs) -> counted (t, gs').
Proof.
  intros Hp (H1 & H2 & H3). split_and!; [done|by rewrite <- Hp|].
  intros i Hi. rewrite H3 by done. unfold Priority.held. cbn. by rewrite Hp.
Qed.

Lemma counted_acquire t gs ip i t' :
  try_acquire t ip = Some (i, t') -> counted (t, gs) -> counted (t', i :: gs).
Proof. intros E H. pose proof (op_step_counted _ (OTryAcquire ip) H) as Hs. cbn in Hs. by rewrite E in Hs. Qed.

Lemma counted_drop t gs i : counted (t, i :: gs) -> counted (drop_session t i, gs).
Proof. intros H. exact (op_step_counted _ (ODrop 0) H). Qed.

Lemma counted_drops t gs l : counted (t, gs ++ l) -> counted (foldl drop_session t l, gs).
Proof.
  revert t. induction l as [|i l IH]; intros t Hc; cbn; [by rewrite app_nil_r in Hc|].
  apply IH, counted_drop. by eapply counted_perm; [symmetry; apply Permutation_middle|].
Qed.

Lemma counted_other t gs mine o t' gs' :
  op_step (t, gs) o = (t', gs') -> counted (t, gs ++ mine) -> counted (t', gs' ++ mine).
Proof.
  intros E Hc. pose proof (op_step_counted _ o Hc) as Hs. destruct o as [ip|ip|k|ip now|ip now]; cbn in *.
  - destruct (acquire t ip) as [[i t1]|]; simplify_eq; done.
  - destruct (try_acquire t ip) as [[i t1]|]; simplify_eq; done.
  - destruct (gs !! k) as [i|] eqn:Ek; simplify_eq; [|done].
    pose proof (lookup_app_l_Some _ mine _ _ Ek) as Ek'. rewrite Ek' in Hs.
    eapply counted_perm; [|exact Hs]. apply (Permutation_cons_inv (a := i)).
    rewrite <- (delete_Permutation _ _ _ Ek'). rewrite (delete_Permutation _ _ _ Ek) at 1. done.
  - by simplify_eq.
  - by simplify_eq.
Qed.

Section WorldSlots.
Context {E S : Type} (cap_error : E).
Abbreviation W := (World E S).

(** Every guard alive is another session's or one of the race's. *)
Definition balanced (w : W) : Prop := counted (w_tier w, w_others w ++ slots_of (w_set w)).

Lemma slots_delete (set : list (Task E S)) k task :
  set !! k = Some task -> slots_of set ≡ₚ option_list (slot_of task) ++ slots_of (delete k set).
Proof.
  intros Hk. unfold slots_of. rewrite (delete_Permutation _ _ _ Hk) at 1. cbn.
  by destruct (slot_of task).
Qed.

Lemma slots_insert (set : list (Task E S)) k task task' :
  set !! k = Some task ->
  slots_of (<[k := task']> set) ≡ₚ option_list (slot_of task') ++ slots_of (delete k set).
Proof.
  intros Hk. rewrite insert_take_drop, delete_take_drop by (by eapply lookup_lt_Some).
  unfold slots_of. rewrite !omap_app. cbn. destruct (slot_of task'); cbn; [|done].
  by rewrite <- Permutation_middle.
Qed.

(** Replacing a task: the guards it held are traded for those it holds now. *)
Lemma balanced_set (w : W) t k task p :
  w_set w !! k = Some task ->
  counted (t, w_others w ++ option_list (slot_of (mkTask (tk_ip task) (tk_prio task) p)) ++
    slots_of (delete k (w_set w))) ->
  balanced (set_task w t k task p).
Proof.
  intros Hk Hc. unfold balanced, set_task. cbn. eapply counted_perm; [|exact Hc].
  apply Permutation_app_head. symmetry. by eapply slots_insert.
Qed.

Lemma balanced_split (w : W) k task :
  w_set w !! k = Some task -> balanced w ->
  counted (w_tier w, option_list (slot_of task) ++ w_others w ++ slots_of (delete k (w_set w))).
Proof.
  intros Hk Hb. eapply counted_perm; [|exact Hb]. rewrite (slots_delete _ _ _ Hk).
  rewrite !app_assoc. apply Permutation_app_tail, Permutation_app_comm.
Qed.

Lemma counted_release t slot gs :
  counted (t, option_list slot ++ gs) -> counted (release t slot, gs).
Proof. destruct slot as [i|]; [apply counted_drop|done]. Qed.

Lemma task_step_balanced (w : W) e : balanced w -> balanced (task_step cap_error w e).
Proof.
  intros Hb. destruct e as [o|k|k r]; cbn [task_step].
  - destruct (op_step (w_tier w, w_others w) o) as [t gs] eqn:Eo. by eapply counted_other.
  - destruct (w_set w !! k) as [task|] eqn:Hk; [|done].
    pose proof (balanced_split _ _ _ Hk Hb) as Hs.
    destruct (tk_at task) eqn:Ep; try done. unfold slot_of in Hs. rewrite Ep in Hs. cbn in Hs.
    destruct (tk_prio task); [|by apply balanced_set].
    destruct (try_acquire _ _) as [[i t]|] eqn:Ea; (apply balanced_set; [done|]); [|done].
    eapply counted_perm; [|by eapply counted_acquire]. cbn. by rewrite <- Permutation_middle.
  - destruct (w_set w !! k) as [task|] eqn:Hk; [|done].
    pose proof (balanced_split _ _ _ Hk Hb) as Hs.
    destruct (tk_at task) as [|slot|] eqn:Ep; try done. unfold slot_of in Hs. rewrite Ep in Hs.
    destruct r as [e|v]; (apply balanced_set; [done|]); cbn.
    + by apply counted_release.
    + eapply counted_perm; [|exact Hs]. rewrite !app_assoc.
      apply Permutation_app_tail, Permutation_app_comm.
Qed.

(** Joining a task hands its slot over. *)
Lemma balanced_join (w : W) k task :
  w_set w !! k = Some task -> balanced w ->
  counted (w_tier w, option_list (slot_of task) ++ w_others w ++ slots_of (w_set (join w k))).
Proof. apply balanced_split. Qed.

Lemma balanced_join_release (w : W) k task :
  w_set w !! k = Some task -> balanced w ->
  balanced (with_tier (join w k) (release (w_tier w) (slot_of task))).
Proof. intros Hk Hb. apply counted_release. by apply (balanced_join w k task). Qed.

Lemma balanced_cool (w : W) ip u : balanced w -> balanced (with_tier w (cool_until (w_tier w) ip u)).
Proof. apply counted_cool. Qed.

Lemma balanced_hung (w : W) ip now : balanced w -> balanced (with_tier w (mark_hung_at (w_tier w) ip now)).
Proof. unfold mark_hung_at, mark_failed_at. by case_match; apply balanced_cool. Qed.

Lemma balanced_hungs (w : W) ips now :
  balanced w -> balanced (with_tier w (foldl (fun t ip => mark_hung_at t ip now) (w_tier w) ips)).
Proof.
  destruct w as [t others set]. unfold with_tier. cbn. revert t.
  induction ips as [|ip ips IH]; intros t Hb; [done|]. cbn. apply IH.
  exact (balanced_hung (mkWorld t others set) ip now Hb).
Qed.

Lemma balanced_abort (w : W) gs :
  counted (w_tier w, gs ++ w_others w ++ slots_of (w_set w)) ->
  counted (w_tier (abort_all w), gs ++ w_others w).
Proof. intros Hc. apply counted_drops. by rewrite <- app_assoc. Qed.

Lemma balanced_spawn (w : W) t task :
  counted (t, w_others w ++ option_list (slot_of task) ++ slots_of (w_set w)) ->
  balanced (spawn (with_tier w t) task).
Proof.
  intros Hc. unfold balanced, spawn, with_tier. cbn. eapply counted_perm; [|exact Hc].
  unfold slots_of. rewrite omap_app. cbn. apply Permutation_app_head.
  destruct (slot_of task); cbn; [|by rewrite app_nil_r]. apply Permutation_cons_append.
Qed.
End WorldSlots.

(** ** Live selection: shared lemmas *)

Definition event_clocks (ev : live_event) : list Clock :=
  match ev with LTask _ => [] | LJoin _ _ c | LPanic _ _ c | LTimeout c => [c] end.

Definition clocks (evs : list live_event) : list Clock := evs ≫= event_clocks.

(** Induction over a run: an invariant of the start and of every step whose clocks satisfy [Q]. *)
Lemma live_run_inv (P : LiveSel -> Prop) (Q : live_event -> Prop) cfg s evs :
  P s -> (forall s ev, P s -> Q ev -> P (live_step cfg s ev)) -> Forall Q evs ->
  P (foldl (live_step cfg) s evs).
Proof.
  intros Hs Hstep. revert s Hs. induction evs as [|ev evs IH]; intros s Hs Hq; [done|].
  inversion Hq; subst. cbn. apply IH; auto.
Qed.

Lemma clocks_forall (Q : Clock -> Prop) evs :
  Forall Q (clocks evs) -> Forall (fun ev => Forall Q (event_clocks ev)) evs.
Proof.
  induction evs as [|ev evs IH]; [by constructor|]. unfold clocks. cbn.
  intros [H1 H2]%Forall_app. constructor; [done|]. by apply IH.
Qed.

Lemma launch_pool_inv (P : LiveSel -> Prop) fuel cfg c s :
  P s ->
  (forall s k, P s -> (ls_launched s < length (lc_peers cfg))%nat ->
     (ls_pool_in_flight s < LIVE_SELECT_MAX_PARALLEL)%nat -> ck_launch c k < lc_deadline cfg ->
     P (launch_one cfg s)) ->
  P (launch_pool fuel cfg c s).
Proof.
  intros Hs Hone. revert s Hs. induction fuel as [|fuel IH]; intros s Hs; [done|]. cbn [launch_pool].
  destruct (_ && _) eqn:Eb; [|done]. apply andb_true_iff in Eb as [E1 E2].
  apply Nat.ltb_lt in E1, E2. destruct (Z.eqb_spec (since (lc_deadline cfg) (ck_launch c fuel)) 0); [done|].
  apply IH, (Hone s fuel); [done..|]. unfold since in *. lia.
Qed.

(** [R] holds of the running states inside the turn, [P] where the turn ends. *)
Lemma live_top_inv (R P : LiveSel -> Prop) cfg c s :
  (forall b, R (set_pool_open s b)) ->
  (forall s' k, R s' -> lc_pool_opens cfg <= ck_now c \/ ls_prio_in_flight s = 0%nat ->
     (ls_launched s' < length (lc_peers cfg))%nat ->
     (ls_pool_in_flight s' < LIVE_SELECT_MAX_PARALLEL)%nat -> ck_launch c k < lc_deadline cfg ->
     R (launch_one cfg s')) ->
  (forall s', R s' -> P s') -> (forall s', R s' -> P (live_exit s' (ck_exit c))) ->
  P (live_top cfg c s).
Proof.
  intros H0 H1 H2 H3. unfold live_top.
  destruct ((lc_pool_opens cfg <=? ck_now c) || (ls_prio_in_flight s =? 0)%nat) eqn:Eo.
  - assert (HR : R (launch_pool LIVE_SELECT_MAX_PARALLEL cfg c (set_pool_open s true))).
    { apply launch_pool_inv; [done|]. intros s' k Hs' ? ? ?. apply (H1 s' k); try done.
      apply orb_true_iff in Eo as [Eo|Eo]; [left; lia|right; by apply Nat.eqb_eq]. }
    case_match; auto.
  - case_match; auto.
Qed.

(** ** Slots of live selection *)

Definition live_slots (s : LiveSel) : Prop :=
  match ls_result s with
  | Some (Some v) => w_set (ls_w s) = [] /\
      counted (w_tier (ls_w s), w_others (ls_w s) ++ option_list (lp_slot v))
  | Some None => w_set (ls_w s) = [] /\ balanced (ls_w s)
  | None => balanced (ls_w s)
  end.

Lemma launch_one_balanced cfg s : balanced (ls_w s) -> balanced (ls_w (launch_one cfg s)).
Proof.
  intros Hb. unfold launch_one. cbn [ls_w].
  apply (balanced_spawn (ls_w s) (w_tier (ls_w s)) (mkTask _ false Spawned)). done.
Qed.

Lemma live_exit_slots s now : balanced (ls_w s) -> live_slots (live_exit s now).
Proof.
  intros Hb. split; [done|]. apply balanced_hungs.
  unfold balanced, slots_of. cbn. rewrite app_nil_r. exact (balanced_abort (ls_w s) [] Hb).
Qed.

Lemma live_top_slots cfg c s :
  ls_result s = None -> balanced (ls_w s) -> live_slots (live_top cfg c s).
Proof.
  intros Hr Hb.
  apply (live_top_inv (fun s => balanced (ls_w s) /\ ls_result s = None)); [done| | |].
  - intros s' k [? ?] _ _ _ _. split; [by apply launch_one_balanced|done].
  - intros s' [Hb' Hr']. unfold live_slots. by rewrite Hr'.
  - intros s' [Hb' _]. by apply live_exit_slots.
Qed.

Lemma live_failed_balanced s task e w now :
  balanced w -> balanced (ls_w (live_failed s task e w now)).
Proof.
  intros Hb. unfold live_failed. destruct (tk_prio task); [|done]. cbn [ls_w].
  destruct (bool_decide _); [by apply balanced_hung|].
  destruct (negb _); [by apply balanced_cool|]. by destruct w.
Qed.

Lemma live_step_slots cfg s ev : live_slots s -> live_slots (live_step cfg s ev).
Proof.
  unfold live_slots at 1, live_step. destruct (ls_result s) as [[v|]|] eqn:Hr; intros Hs.
  - destruct ev as [[o| |]| | |]; try (by unfold live_slots; rewrite Hr).
    unfold live_slots, set_world. cbn [ls_w ls_result task_step]. rewrite Hr.
    destruct (op_step (w_tier (ls_w s), w_others (ls_w s)) o) as [t gs] eqn:Eo. cbn.
    destruct Hs as [? Hs]. split; [done|]. by eapply counted_other.
  - destruct ev as [[o| |]| | |]; try (by unfold live_slots; rewrite Hr).
    unfold live_slots. change (ls_result (set_world s _)) with (ls_result s). rewrite Hr.
    destruct Hs as [Hset Hs]. split; [|by apply task_step_balanced].
    cbn [set_world ls_w task_step]. by destruct (op_step _ o).
  - destruct ev as [e|k now c|k text c|c].
    + unfold live_slots. change (ls_result (set_world s _)) with (ls_result s). rewrite Hr.
      by apply task_step_balanced.
    + destruct (w_set (ls_w s) !! k) as [task|] eqn:Hk; [|by unfold live_slots; rewrite Hr].
      pose proof (balanced_join _ _ _ Hk Hs) as Hj.
      destruct (tk_at task) as [| |[e|[v slot]]] eqn:Ep; try (by unfold live_slots; rewrite Hr).
      * apply live_top_slots; [unfold live_failed; by case_match|]. apply live_failed_balanced.
        unfold slot_of in Hj. by rewrite Ep in Hj.
      * split; [done|]. unfold slot_of in Hj. rewrite Ep in Hj. cbn [lp_slot with_slot live_won ls_w].
        eapply counted_perm; [apply Permutation_app_comm|]. by apply (balanced_abort (join (ls_w s) k)).
    + destruct (w_set (ls_w s) !! k) as [task|] eqn:Hk; [|by unfold live_slots; rewrite Hr].
      apply live_top_slots; [done|]. exact (balanced_join_release (ls_w s) k task Hk Hs).
    + destruct (ls_pool_open s); [by apply live_exit_slots|by apply live_top_slots].
Qed.

Lemma live_start_slots t others cfg c :
  counted (t, others) -> live_slots (live_start t others cfg c).
Proof.
  intros Hc. unfold live_start.
  assert (Hb : forall l, slots_of (map (fun ip => mkTask ip true Spawned) l : list (Task IoErr LivePeerSession)) = [])
    by (induction l; done).
  case_match; [split; [done|]; unfold balanced; cbn; by rewrite app_nil_r|].
  apply live_top_slots; [done|]. unfold balanced. cbn [ls_w w_tier w_others w_set].
  rewrite Hb. by rewrite app_nil_r.
Qed.

(** C27: live selection leaks no priority slot. Run next to any steps of other sessions on the same
    tier, with attempts that start, fail, panic or win in any order, live selection keeps every
    counter equal to the guards alive; when it returns, no attempt is left, a winner carries exactly
    its own slot, and every other slot it took has been given back. *)
Theorem live_selection_returns_every_slot (t : PriorityTier) (others : list nat) (cfg : LiveCfg)
    (c : Clock) (evs : list live_event) :
  counted (t, others) ->
  let s := select_live_peer t others cfg c evs in
  let w := ls_w s in
  counted (w_tier w, w_others w ++ slots_of (w_set w) ++
    match ls_result s with Some (Some v) => option_list (lp_slot v) | _ => [] end) /\
  (ls_result s <> None -> w_set w = []).
Proof.
  intros Hc. cbn zeta.
  assert (Hs : live_slots (select_live_peer t others cfg c evs)).
  { apply (live_run_inv live_slots (fun _ => True)); [by apply live_start_slots| |by apply Forall_true].
    intros s ev Hs _. by apply live_step_slots. }
  revert Hs. generalize (select_live_peer t others cfg c evs). intros s. unfold live_slots.
  destruct (ls_result s) as [[v|]|].
  - intros [-> ?]. done.
  - intros [E Hb]. rewrite app_nil_r. done.
  - intros Hb. rewrite app_nil_r. done.
Qed.

(** ** Order of the tiers in live selection *)

Section Labels.
Context {E S : Type}.

(** Address and tier of the tasks in the set. *)
Definition labels (set : list (Task E S)) : list (string * bool) :=
  (fun t => (tk_ip t, tk_prio t)) <$> set.

Definition prio_ips (l : list (string * bool)) : list string := fst <$> filter (fun p => p.2 = true) l.
Definition pool_ips (l : list (string * bool)) : list string := fst <$> filter (fun p => p.2 = false) l.

Lemma labels_task_step cap_error (w : World E S) e :
  labels (w_set (task_step cap_error w e)) = labels (w_set w).
Proof.
  assert (Hset : forall t k task p, w_set w !! k = Some task ->
    labels (w_set (set_task w t k task p)) = labels (w_set w)).
  { intros t k task p Hk. unfold labels, set_task. cbn. rewrite list_fmap_insert. cbn.
    apply list_insert_id. by rewrite list_lookup_fmap, Hk. }
  destruct e as [o|k|k r]; cbn [task_step].
  - by destruct (op_step _ o).
  - destruct (w_set w !! k) as [task|] eqn:Hk; [|done]. destruct (tk_at task); try done.
    destruct (tk_prio task); [|by apply Hset].
    destruct (try_acquire _ _) as [[i t]|]; by apply Hset.
  - destruct (w_set w !! k) as [task|] eqn:Hk; [|done]. destruct (tk_at task); try done.
    destruct r; by apply Hset.
Qed.

Lemma labels_join (w : World E S) k task :
  w_set w !! k = Some task ->
  labels (w_set w) ≡ₚ (tk_ip task, tk_prio task) :: labels (w_set (join w k)).
Proof. intros Hk. unfold labels, join. cbn. rewrite (delete_Permutation _ _ _ Hk) at 1. done. Qed.

Lemma prio_ips_cons ip b l : prio_ips ((ip, b) :: l) = (if b then [ip] else []) ++ prio_ips l.
Proof. unfold prio_ips. rewrite filter_cons. by destruct b. Qed.

Lemma pool_ips_cons ip b l : pool_ips ((ip, b) :: l) = (if b then [] else [ip]) ++ pool_ips l.
Proof. unfold pool_ips. rewrite filter_cons. by destruct b. Qed.

#[global] Instance prio_ips_perm : Proper ((≡ₚ) ==> (≡ₚ)) prio_ips.
Proof. intros l l' Hl. unfold prio_ips. by rewrite Hl. Qed.
#[global] Instance pool_ips_perm : Proper ((≡ₚ) ==> (≡ₚ)) pool_ips.
Proof. intros l l' Hl. unfold pool_ips. by rewrite Hl. Qed.
End Labels.

Lemma filter_ne_length (l : list string) x :
  NoDup l -> x ∈ l -> length (filter (fun p => p <> x) l) = (length l - 1)%nat.
Proof.
  intros Hn Hx. apply list_elem_of_split in Hx as (l1 & l2 & ->).
  apply NoDup_app in Hn as (_ & Hd & Hn2). apply NoDup_cons in Hn2 as [Hx2 _].
  rewrite filter_app, filter_cons, decide_False by (intros Hf; by apply Hf).
  rewrite !filter_all; [rewrite !length_app; cbn; lia|..]; apply Forall_forall; intros y Hy ->; [done|].
  apply (Hd _ Hy). by left.
Qed.

(** While the loop runs: the pending priority peers are those whose attempt has not failed. *)
Definition live_order (cfg : LiveCfg) (s : LiveSel) : Prop :=
  NoDup (ls_pending s) /\ length (ls_pending s) = ls_prio_in_flight s /\
  NoDup (prio_ips (labels (w_set (ls_w s)))) /\
  (forall ip, ip ∈ prio_ips (labels (w_set (ls_w s))) -> ip ∈ ls_pending s) /\
  ((0 < ls_launched s)%nat -> ls_pending s = []) /\
  (length (pool_ips (labels (w_set (ls_w s)))) <= ls_pool_in_flight s <= LIVE_SELECT_MAX_PARALLEL)%nat /\
  (ls_launched s <= length (lc_peers cfg))%nat.

(** The clock never lets the pool in while a priority attempt is pending. *)
Definition pool_shut (cfg : LiveCfg) (c : Clock) : Prop :=
  clock_ok c /\ (ck_now c < lc_pool_opens cfg \/ lc_pool_opens cfg = lc_deadline cfg).

Lemma launch_one_order cfg c s s' k :
  pool_shut cfg c -> live_order cfg s' -> ls_pending s' = ls_pending s ->
  length (ls_pending s) = ls_prio_in_flight s ->
  lc_pool_opens cfg <= ck_now c \/ ls_prio_in_flight s = 0%nat ->
  (ls_launched s' < length (lc_peers cfg))%nat ->
  (ls_pool_in_flight s' < LIVE_SELECT_MAX_PARALLEL)%nat -> ck_launch c k < lc_deadline cfg ->
  live_order cfg (launch_one cfg s').
Proof.
  intros [[Hclock _] Hshut] (H1 & H2 & H3 & H4 & H5 & H6 & H7) Ep Hlen Hopen Hl Hpf Hd.
  assert (Hnil : ls_pending s' = []).
  { rewrite Ep. destruct Hopen as [Ho|Ho]; [|rewrite Ho in Hlen; by apply nil_length_inv].
    pose proof (Hclock k). lia. }
  unfold live_order, launch_one. cbn [ls_w ls_pending ls_prio_in_flight ls_launched ls_pool_in_flight spawn w_set].
  unfold labels. rewrite fmap_app. cbn [fmap list_fmap tk_ip tk_prio]. fold (labels (w_set (ls_w s'))).
  set (lab := (_, false)). assert (Hp : prio_ips (labels (w_set (ls_w s')) ++ [lab]) ≡ₚ prio_ips (labels (w_set (ls_w s')))).
  { rewrite <- Permutation_cons_append. unfold lab. by rewrite prio_ips_cons. }
  assert (Hq : length (pool_ips (labels (w_set (ls_w s')) ++ [lab])) = S (length (pool_ips (labels (w_set (ls_w s')))))).
  { rewrite <- Permutation_cons_append. unfold lab. by rewrite pool_ips_cons. }
  rewrite Hq. split_and!; try done; try lia.
  - by rewrite Hp.
  - intros ip. rewrite Hp. apply H4.
Qed.

(** States a run can be in: running in order, or returned with the pool never let in early. *)
Definition live_ordered (cfg : LiveCfg) (s : LiveSel) : Prop :=
  (ls_result s = None -> live_order cfg s) /\
  ((0 < ls_launched s)%nat -> ls_pending s = []) /\
  (length (pool_ips (labels (w_set (ls_w s)))) <= LIVE_SELECT_MAX_PARALLEL)%nat /\
  (ls_launched s <= length (lc_peers cfg))%nat.

Lemma live_order_ordered cfg s : live_order cfg s -> live_ordered cfg s.
Proof. intros H. pose proof H as (_ & _ & _ & _ & H5 & H6 & H7). split_and!; [done|done|lia|done]. Qed.

Lemma live_exit_ordered cfg s now : live_order cfg s -> live_ordered cfg (live_exit s now).
Proof. intros (_ & _ & _ & _ & H5 & H6 & H7). split_and!; [done|done|cbn; lia|done]. Qed.

Lemma live_top_ordered cfg c s :
  pool_shut cfg c -> live_order cfg s -> live_ordered cfg (live_top cfg c s).
Proof.
  intros Hc Ho. apply (live_top_inv (fun s' => live_order cfg s' /\ ls_pending s' = ls_pending s)).
  - intros b. done.
  - intros s' k [Ho' Ep] ? ? ? ?. split; [|done].
    apply (launch_one_order cfg c s s' k); try done. by destruct Ho as (_ & ? & _).
  - intros s' [? _]. by apply live_order_ordered.
  - intros s' [? _]. by apply live_exit_ordered.
Qed.

Lemma live_failed_order cfg s k task e now :
  w_set (ls_w s) !! k = Some task -> live_order cfg s ->
  live_order cfg (live_failed s task e (join (ls_w s) k) now).
Proof.
  intros Hk (H1 & H2 & H3 & H4 & H5 & H6 & H7). pose proof (labels_join _ _ _ Hk) as Hj.
  assert (Hprio : prio_ips (labels (w_set (ls_w s))) ≡ₚ
    (if tk_prio task then [tk_ip task] else []) ++ prio_ips (labels (w_set (join (ls_w s) k))))
    by (rewrite Hj; by rewrite prio_ips_cons).
  assert (Hpool : length (pool_ips (labels (w_set (ls_w s)))) =
    length ((if tk_prio task then [] else [tk_ip task]) ++ pool_ips (labels (w_set (join (ls_w s) k)))))
    by (rewrite Hj; by rewrite pool_ips_cons).
  unfold live_failed, live_order. destruct (tk_prio task);
    cbn [ls_w ls_pending ls_prio_in_flight ls_launched ls_pool_in_flight with_tier w_set app length] in *.
  - rewrite Hprio in H3. apply NoDup_cons in H3 as [Hnin Hnd].
    assert (Hin : tk_ip task ∈ ls_pending s) by (apply H4; rewrite Hprio; by left).
    split_and!; try done; try lia.
    + by apply NoDup_filter.
    + rewrite filter_ne_length by done. lia.
    + intros ip Hip. apply list_elem_of_filter. split; [by intros ->|].
      apply H4. rewrite Hprio. by right.
    + intros Hl. apply H5 in Hl. rewrite Hl in Hin. by apply elem_of_nil in Hin.
  - split_and!; try done; try lia.
    + by rewrite Hprio in H3.
    + intros ip Hip. apply H4. by rewrite Hprio.
Qed.

Lemma live_panic_order cfg s k task text :
  w_set (ls_w s) !! k = Some task -> live_order cfg s -> live_order cfg (live_panic s task k text).
Proof.
  intros Hk (H1 & H2 & H3 & H4 & H5 & H6 & H7). pose proof (labels_join _ _ _ Hk) as Hj.
  unfold live_order, live_panic.
  cbn [ls_w ls_pending ls_prio_in_flight ls_launched ls_pool_in_flight with_tier w_set].
  rewrite Hj, prio_ips_cons in H3. apply NoDup_app in H3 as (_ & _ & H3).
  split_and!; try done; try lia.
  - intros ip Hip. apply H4. rewrite Hj, prio_ips_cons. apply elem_of_app. by right.
  - rewrite Hj, pool_ips_cons, length_app in H6. lia.
Qed.

Lemma live_step_ordered cfg s ev :
  live_ordered cfg s -> Forall (pool_shut cfg) (event_clocks ev) ->
  live_ordered cfg (live_step cfg s ev).
Proof.
  intros Hs Hc. unfold live_step. destruct (ls_result s) as [r|] eqn:Hr.
  - destruct ev as [[o| |]| | |]; try done. destruct Hs as (_ & H2 & H3 & H4).
    unfold live_ordered. cbn [set_world ls_result ls_w ls_launched ls_pending].
    rewrite Hr, labels_task_step. done.
  - destruct Hs as (Ho & _). specialize (Ho Hr). destruct ev as [e|k now c|k text c|c].
    + apply live_order_ordered. unfold live_order. cbn [set_world ls_w ls_launched ls_pending ls_prio_in_flight ls_pool_in_flight].
      by rewrite labels_task_step.
    + apply Forall_inv in Hc. destruct (w_set (ls_w s) !! k) as [task|] eqn:Hk; [|by apply live_order_ordered].
      destruct (tk_at task) as [| |[e|[v slot]]]; try (by apply live_order_ordered).
      * by apply live_top_ordered, live_failed_order.
      * destruct Ho as (_ & _ & _ & _ & H5 & H6 & H7). split_and!; [done|done|cbn; lia|done].
    + apply Forall_inv in Hc. destruct (w_set (ls_w s) !! k) as [task|] eqn:Hk; [|by apply live_order_ordered].
      by apply live_top_ordered, live_panic_order.
    + apply Forall_inv in Hc. destruct (ls_pool_open s); [by apply live_exit_ordered|by apply live_top_ordered].
Qed.

Lemma live_start_ordered t others cfg c :
  NoDup (lc_prio cfg) -> pool_shut cfg c -> live_ordered cfg (live_start t others cfg c).
Proof.
  intros Hn Hc. unfold live_start. case_match; [split_and!; cbn; try done; lia|].
  apply live_top_ordered; [done|].
  assert (Hl : forall l, prio_ips (labels (map (fun ip => mkTask ip true Spawned) l :
      list (Task IoErr LivePeerSession))) = l /\
    pool_ips (labels (map (fun ip => mkTask ip true Spawned) l : list (Task IoErr LivePeerSession))) = []).
  { induction l as [|x l [IH1 IH2]]; [done|]. cbn [map]. unfold labels. rewrite fmap_cons.
    cbn [tk_ip tk_prio]. rewrite prio_ips_cons, pool_ips_cons. fold (labels (E := IoErr) (S := LivePeerSession)).
    unfold labels in IH1, IH2. by rewrite IH1, IH2. }
  destruct (Hl (lc_prio cfg)) as [E1 E2]. unfold live_order.
  cbn [ls_w w_set ls_pending ls_prio_in_flight ls_launched ls_pool_in_flight].
  rewrite E1, E2. split_and!; try done; cbn; lia.
Qed.

Lemma candidates_at_NoDup `{UpstreamFilter} t now : tier_ok t -> NoDup (candidates_at t now).
Proof.
  intros (Hn & _ & Hlen). unfold candidates_at. rewrite candidate_indices_perm, List.map_map. cbn.
  apply NoDup_fmap_2_strong; [|by apply NoDup_filter, NoDup_seq].
  intros i j Hi Hj Heq. apply list_elem_of_filter in Hi as [_ Hi], Hj as [_ Hj].
  apply elem_of_seq in Hi, Hj.
  destruct (lookup_lt_is_Some_2 (peers t) i) as [x Hx]; [lia|].
  destruct (lookup_lt_is_Some_2 (peers t) j) as [y Hy]; [lia|].
  rewrite (nth_lookup_Some _ _ _ _ Hx), (nth_lookup_Some _ _ _ _ Hy) in Heq. subst.
  by eapply NoDup_lookup.
Qed.

(** C26: the pool never outraces pending priority peers. While live selection runs, and with any
    interleaving of attempts and of other sessions, a pool peer of an exclusive tier is dialed only
    after every priority candidate's attempt has failed; for a shared tier the same holds until the
    priority stage is over. At no time are more than [LIVE_SELECT_MAX_PARALLEL] pool attempts in
    flight, and no pool position is dialed twice. *)
Theorem pool_never_outraces_priority `{UpstreamFilter} (t : PriorityTier) (others : list nat)
    (peers : list string) (start : nat) (started : Z) (c : Clock) (evs : list live_event) :
  tier_ok t -> candidates_at t started <> [] ->
  Forall (fun c => clock_ok c /\ (exclusive t = true \/ ck_now c < started + stage t))
    (c :: clocks evs) ->
  let s := select_live_peer t others (live_cfg t peers start started) c evs in
  ((0 < ls_launched s)%nat -> ls_pending s = []) /\
  (length (pool_ips (labels (w_set (ls_w s)))) <= LIVE_SELECT_MAX_PARALLEL)%nat /\
  (ls_launched s <= length peers)%nat.
Proof.
  intros Hok Hne Hc. cbn zeta. set (cfg := live_cfg t peers start started).
  assert (Hshut : Forall (pool_shut cfg) (c :: clocks evs)).
  { eapply Forall_impl; [exact Hc|]. intros c' [Hclk Hx]. split; [done|].
    unfold cfg, live_cfg, lc_pool_opens, pool_opens_at. rewrite bool_decide_eq_false_2 by done.
    destruct (exclusive t); [by right|]. left. destruct Hx; [done|lia]. }
  apply Forall_cons in Hshut as [Hc0 Hcs].
  apply (live_run_inv (live_ordered cfg) (fun ev => Forall (pool_shut cfg) (event_clocks ev))).
  - apply live_start_ordered; [|done]. by apply candidates_at_NoDup.
  - intros s ev. apply live_step_ordered.
  - by apply clocks_forall.
Qed.

Lemma pool_never_outraces_priority_witness :
  let c := mkClock 0 (fun _ => 0) 0 0 in
  let s := select_live_peer example_tier [] (live_cfg example_tier ["9.9.9.9"%string] 0 0) c
    [LTask (TPoll 0); LTask (TEnd 0 (inl (other "peer full"))); LJoin 0 0 c] in
  ls_pending s = ["10.0.0.2"%string] /\ ls_launched s = 0%nat /\
  ((0 < ls_launched s)%nat -> ls_pending s = []).
Proof.
  cbv zeta. split; [vm_compute; reflexivity|]. split; [vm_compute; reflexivity|].
  apply (pool_never_outraces_priority example_tier [] ["9.9.9.9"%string] 0 0
    (mkClock 0 (fun _ => 0) 0 0)
    [LTask (TPoll 0); LTask (TEnd 0 (inl (other "peer full"))); LJoin 0 0 (mkClock 0 (fun _ => 0) 0 0)]
    example_tier_ok).
  - vm_compute. discriminate.
  - cbn. repeat constructor; cbn; lia.
Defined.

Lemma live_selection_returns_every_slot_witness :
  let c := mkClock 0 (fun _ => 0) 0 0 in
  let s := select_live_peer example_tier [] (live_cfg example_tier [] 0 0) c
    [LTask (TPoll 0); LTask (TPoll 1);
     LTask (TEnd 1 (inr (mkLive "10.0.0.2" [] [] 5 None))); LJoin 1 0 c] in
  ls_result s = Some (Some (mkLive "10.0.0.2" [] [] 5 (Some 1%nat))) /\
  counted (w_tier (ls_w s), w_others (ls_w s) ++ slots_of (w_set (ls_w s)) ++
    match ls_result s with Some (Some v) => option_list (lp_slot v) | _ => [] end).
Proof.
  cbv zeta. split; [vm_compute; reflexivity|].
  apply (live_selection_returns_every_slot example_tier []).
  split; [exact example_tier_ok|]. split; [constructor|].
  intros [|[|i]] Hi; [vm_compute; reflexivity|vm_compute; reflexivity|cbn in Hi; lia].
Defined.

(** ** A dry selection cools the priority peers down *)

(** What every tier operation keeps: the peers, and cooldowns that only grow. *)
Definition tier_evolves (t t' : PriorityTier) : Prop :=
  (tier_ok t -> tier_ok t') /\ Priority.peers t' = Priority.peers t /\
  (forall u i, cools u i t -> cools u i t') /\ exclusive_flag t' = exclusive_flag t.

#[global] Instance tier_evolves_preorder : PreOrder tier_evolves.
Proof.
  split; [done|]. intros t1 t2 t3 (A1 & A2 & A3 & A4) (B1 & B2 & B3 & B4).
  split_and!; [tauto|congruence|eauto|congruence].
Qed.

Lemma evolves_sessions t i n : tier_evolves t (set_sessions t (<[i := n]> (sessions t))).
Proof.
  split_and!; [auto with hyper|done| |done]. intros u j [Hok Hx]. split; [auto with hyper|done].
Qed.

Lemma evolves_cool t ip u : tier_evolves t (cool_until t ip u).
Proof.
  split_and!; [auto with hyper|apply cool_until_frame| |unfold cool_until; by case_match].
  intros v i. apply cools_cool_until.
Qed.

Lemma evolves_hung t ip now : tier_evolves t (mark_hung_at t ip now).
Proof. unfold mark_hung_at, mark_failed_at. case_match; apply evolves_cool. Qed.

Lemma evolves_try_acquire t ip i t' : try_acquire t ip = Some (i, t') -> tier_evolves t t'.
Proof.
  unfold try_acquire. destruct (index t ip); [|done]. cbn. case_match; [|done].
  intros [= _ <-]. apply evolves_sessions.
Qed.

#[local] Hint Resolve evolves_sessions evolves_cool evolves_hung evolves_try_acquire : hyper.

Lemma evolves_op t gs o : tier_evolves t (op_step (t, gs) o).1.
Proof.
  destruct o as [ip|ip|k|ip now|ip now]; cbn; [..|by apply evolves_cool|apply evolves_hung].
  - unfold acquire. destruct (index t ip); cbn; [apply evolves_sessions|done].
  - destruct (try_acquire t ip) as [[i t']|] eqn:E; cbn; [by eapply evolves_try_acquire|done].
  - destruct (gs !! k); cbn; [apply evolves_sessions|done].
Qed.

Lemma evolves_release t slot : tier_evolves t (release t slot).
Proof. destruct slot; [apply evolves_sessions|done]. Qed.

Lemma evolves_drops t l : tier_evolves t (foldl drop_session t l).
Proof.
  apply (foldl_inv drop_session (tier_evolves t)); [done|].
  intros t' i Ht. etransitivity; [exact Ht|apply evolves_sessions].
Qed.

Lemma evolves_task {E S} (cap_error : E) (w : World E S) e :
  tier_evolves (w_tier w) (w_tier (task_step cap_error w e)).
Proof.
  destruct e as [o|k|k r]; cbn [task_step].
  - pose proof (evolves_op (w_tier w) (w_others w) o). by destruct (op_step _ o).
  - destruct (w_set w !! k) as [task|]; [|done]. destruct (tk_at task); try done.
    destruct (tk_prio task); [|done].
    destruct (try_acquire _ _) as [[i t]|] eqn:E1; cbn; [by eapply evolves_try_acquire|done].
  - destruct (w_set w !! k) as [task|]; [|done]. destruct (tk_at task); try done.
    destruct r; cbn; [apply evolves_release|done].
Qed.

(** The peer is out at least until [u]. *)
Definition cooled (u : Z) (t : PriorityTier) (ip : string) : Prop :=
  exists i, Priority.peers t !! i = Some ip /\ cools u i t.

Lemma cooled_evolves u t t' ip : tier_evolves t t' -> cooled u t ip -> cooled u t' ip.
Proof. intros (_ & Hp & Hc & _) (i & Hi & Hx). exists i. rewrite Hp. auto. Qed.

Lemma cooled_mark u t ip v :
  tier_ok t -> ip ∈ Priority.peers t -> u <= v -> cooled u (cool_until t ip v) ip.
Proof.
  intros Hok Hin Hu. apply list_elem_of_lookup_1 in Hin as [i Hi]. exists i.
  destruct (cool_until_frame t ip v) as (-> & _). split; [done|]. split; [auto with hyper|].
  destruct (lookup_lt_is_Some_2 (cooldown_until t) i) as [c Hc].
  { destruct Hok as (_ & _ & ->). by eapply lookup_lt_Some. }
  destruct (cool_until_lookup t ip v i c Hok Hc) as (c' & H1 & _ & H3).
  destruct (H3 Hi) as (y & -> & ?). exists y. split; [done|lia].
Qed.

Lemma cooled_hung started t ip now :
  tier_ok t -> ip ∈ Priority.peers t -> started <= now ->
  cooled (started + PRIORITY_HUNG_COOLDOWN) (mark_hung_at t ip now) ip.
Proof.
  intros. unfold mark_hung_at, mark_failed_at, PRIORITY_HUNG_COOLDOWN, PRIORITY_COOLDOWN, seconds.
  case_match; apply cooled_mark; try done; lia.
Qed.

Lemma cooled_not_candidate `{UpstreamFilter} u t ip now :
  cooled u t ip -> now < u -> ip ∉ candidates_at t now.
Proof.
  intros (i & Hi & Hok & x & Hx & Hu) Hnow Hin. unfold candidates_at in Hin.
  apply list_elem_of_fmap in Hin as (e & -> & He).
  apply candidate_indices_load in He as (_ & Huse & Hlt).
  pose proof Hok as (Hn & _ & Hlen).
  apply usable_spec in Huse as (ip' & Hip & _ & Hcool & _); [|done|lia].
  rewrite (nth_lookup_Some _ _ _ _ Hip) in Hi.
  assert (i = e.2) as -> by (by eapply NoDup_lookup). specialize (Hcool x Hx). lia.
Qed.

(** [todo]: the peers not yet dealt with. *)
Definition dealt_with (cfg : LiveCfg) (t : PriorityTier) (todo fails : list string) : Prop :=
  tier_ok t /\ (forall ip, ip ∈ lc_prio cfg -> ip ∈ Priority.peers t) /\
  forall ip, ip ∈ lc_prio cfg ->
    ip ∈ todo \/ cooled (lc_started cfg + PRIORITY_HUNG_COOLDOWN) t ip \/ PRIORITY_CAP_REACHED ∈ fails.

Lemma dealt_evolves cfg t t' todo fails fails' :
  tier_evolves t t' -> (forall x, x ∈ fails -> x ∈ fails') ->
  dealt_with cfg t todo fails -> dealt_with cfg t' todo fails'.
Proof.
  intros Ht Hf (H1 & H2 & H3). pose proof Ht as (A1 & A2 & _ & _). split_and!; [auto|by rewrite A2|].
  intros ip Hip. destruct (H3 ip Hip) as [?|[?|?]]; [by left|right; left; by eapply cooled_evolves|right; right; auto].
Qed.

Lemma dealt_hungs cfg t todo fails now :
  lc_started cfg <= now -> dealt_with cfg t todo fails ->
  dealt_with cfg (foldl (fun t ip => mark_hung_at t ip now) t todo) [] fails.
Proof.
  intros Hnow. revert t. induction todo as [|x todo IH]; intros t Hd; [done|]. cbn. apply IH.
  pose proof (dealt_evolves cfg _ _ _ _ fails (evolves_hung t x now) (fun _ H => H) Hd) as (A1 & A2 & A3).
  split_and!; [done|done|]. intros ip Hip. destruct (A3 ip Hip) as [Hx|?]; [|by right].
  apply elem_of_cons in Hx as [->|?]; [|by left]. right. left. destruct Hd as (H1 & H2 & _).
  apply cooled_hung; auto.
Qed.

Definition live_dry (cfg : LiveCfg) (s : LiveSel) : Prop :=
  match ls_result s with
  | Some (Some _) => True
  | Some None => dealt_with cfg (w_tier (ls_w s)) [] (ls_fails s)
  | None => dealt_with cfg (w_tier (ls_w s)) (ls_pending s) (ls_fails s)
  end.

Lemma live_exit_dry cfg s now :
  lc_started cfg <= now -> dealt_with cfg (w_tier (ls_w s)) (ls_pending s) (ls_fails s) ->
  live_dry cfg (live_exit s now).
Proof.
  intros Hnow Hd. unfold live_dry. cbn. apply dealt_hungs; [done|].
  by eapply dealt_evolves; [apply evolves_drops| |exact Hd].
Qed.

Lemma live_top_dry cfg c s :
  ls_result s = None -> lc_started cfg <= ck_exit c ->
  dealt_with cfg (w_tier (ls_w s)) (ls_pending s) (ls_fails s) -> live_dry cfg (live_top cfg c s).
Proof.
  intros Hr Hc Hd. apply (live_top_inv (fun s => ls_result s = None /\
    dealt_with cfg (w_tier (ls_w s)) (ls_pending s) (ls_fails s))); [done|done| |].
  - intros s' [Hr' ?]. unfold live_dry. by rewrite Hr'.
  - intros s' [_ ?]. by apply live_exit_dry.
Qed.

Lemma live_failed_dry cfg s task e w now :
  lc_started cfg <= now -> w_tier w = w_tier (ls_w s) ->
  dealt_with cfg (w_tier (ls_w s)) (ls_pending s) (ls_fails s) ->
  let s' := live_failed s task e w now in
  dealt_with cfg (w_tier (ls_w s')) (ls_pending s') (ls_fails s').
Proof.
  intros Hnow Ew Hd. cbn zeta. unfold live_failed. destruct (tk_prio task); cbn.
  2: { rewrite Ew. eapply dealt_evolves; [done| |exact Hd]. set_solver. }
  rewrite Ew. set (t := w_tier (ls_w s)) in *. set (ip := tk_ip task).
  set (t' := if bool_decide (e_kind e = TimedOut) then _ else _).
  assert (Ht : tier_evolves t t').
  { unfold t', mark_failed_at. repeat case_match; try done; [apply evolves_hung|apply evolves_cool]. }
  assert (Hmark : ip ∈ lc_prio cfg ->
    cooled (lc_started cfg + PRIORITY_HUNG_COOLDOWN) t' ip \/ PRIORITY_CAP_REACHED ∈ ls_fails s ++ [e_text e]).
  { intros Hip. destruct Hd as (H1 & H2 & _). unfold t'. case_bool_decide; [left; apply cooled_hung; auto|].
    case_bool_decide as Ec; cbn.
    - right. apply elem_of_app. right. rewrite Ec. by left.
    - left. apply cooled_mark; auto. unfold PRIORITY_HUNG_COOLDOWN, PRIORITY_COOLDOWN, seconds. lia. }
  destruct (dealt_evolves cfg t t' _ _ (ls_fails s ++ [e_text e]) Ht ltac:(set_solver) Hd) as (A1 & A2 & A3).
  split_and!; [done|done|]. intros x Hx. destruct (decide (x = ip)) as [->|Hne]; [right; by apply Hmark|].
  destruct (A3 x Hx) as [?|?]; [|by right]. left. by apply list_elem_of_filter.
Qed.

Definition event_after (t0 : Z) (ev : live_event) : Prop :=
  match ev with LJoin _ now _ => t0 <= now | _ => True end /\
  Forall (fun c => t0 <= ck_exit c) (event_clocks ev).

Lemma live_step_dry cfg s ev :
  live_dry cfg s -> event_after (lc_started cfg) ev -> live_dry cfg (live_step cfg s ev).
Proof.
  intros Hs [Hnow Hc]. unfold live_step. destruct (ls_result s) as [[v|]|] eqn:Hr.
  - destruct ev as [[o| |]| | |]; unfold live_dry; cbn [set_world ls_result]; by rewrite Hr.
  - unfold live_dry in Hs. rewrite Hr in Hs.
    destruct ev as [[o| |]| | |]; unfold live_dry; cbn [set_world ls_result ls_w ls_fails]; rewrite Hr; try done.
    eapply dealt_evolves; [apply evolves_task| |exact Hs]. done.
  - unfold live_dry in Hs. rewrite Hr in Hs. assert (Hrun : live_dry cfg s) by (unfold live_dry; by rewrite Hr).
    destruct ev as [e|k now c|k text c|c].
    + unfold live_dry. cbn [set_world ls_result ls_w ls_fails ls_pending]. rewrite Hr.
      eapply dealt_evolves; [apply evolves_task| |exact Hs]. done.
    + destruct (w_set (ls_w s) !! k) as [task|] eqn:Hk; [|done].
      destruct (tk_at task) as [| |[e|[v slot]]]; try done.
      apply live_top_dry; [unfold live_failed; by case_match|by apply Forall_inv in Hc|].
      by apply live_failed_dry.
    + destruct (w_set (ls_w s) !! k) as [task|] eqn:Hk; [|done].
      apply live_top_dry; [done|by apply Forall_inv in Hc|]. cbn.
      eapply dealt_evolves; [apply evolves_release| |exact Hs]. set_solver.
    + apply Forall_inv in Hc. destruct (ls_pool_open s); [by apply live_exit_dry|by apply live_top_dry].
Qed.

Lemma elem_of_candidates `{UpstreamFilter} t now ip :
  tier_ok t -> ip ∈ candidates_at t now -> ip ∈ Priority.peers t.
Proof.
  intros (_ & _ & Hlen) Hin. apply list_elem_of_fmap in Hin as (e & -> & He).
  apply candidate_indices_load in He as (_ & _ & Hlt).
  destruct (lookup_lt_is_Some_2 (Priority.peers t) e.2) as [x Hx]; [lia|].
  rewrite (nth_lookup_Some _ _ _ _ Hx). by eapply list_elem_of_lookup_2.
Qed.

(** A dry live selection leaves no priority peer for the fallback to retry. When live selection
    returns no session, then unless an attempt was refused only for the session cap, none of the
    priority peers it raced, failed or hung, is offered again before [PRIORITY_HUNG_COOLDOWN] from
    the start of the selection, whatever the other sessions do meanwhile. *)
Theorem dry_selection_cools_priority `{UpstreamFilter} (t : PriorityTier) (others : list nat)
    (peers : list string) (start : nat) (started : Z) (c : Clock) (evs : list live_event)
    (now : Z) (ip : string) :
  tier_ok t -> started <= ck_exit c -> Forall (event_after started) evs ->
  let s := select_live_peer t others (live_cfg t peers start started) c evs in
  ls_result s = Some None -> (PRIORITY_CAP_REACHED ∉ ls_fails s) ->
  ip ∈ candidates_at t started -> now < started + PRIORITY_HUNG_COOLDOWN ->
  ip ∉ candidates_at (w_tier (ls_w s)) now.
Proof.
  intros Hok Hc Hevs. cbn zeta. set (cfg := live_cfg t peers start started).
  assert (Hd : live_dry cfg (select_live_peer t others cfg c evs)).
  { apply (live_run_inv (live_dry cfg) (event_after started)); [|intros s ev; apply live_step_dry|done].
    assert (H0 : dealt_with cfg t (lc_prio cfg) []).
    { split_and!; [done|intros x; by apply elem_of_candidates|intros x Hx; by left]. }
    unfold live_start. case_match eqn:Eb; [|by apply live_top_dry].
    apply andb_true_iff in Eb as [_ Eb]. apply bool_decide_eq_true in Eb. rewrite Eb in H0. done. }
  intros Hr Hcap Hin Hnow. unfold live_dry in Hd. rewrite Hr in Hd.
  destruct Hd as (_ & _ & Hd). destruct (Hd ip Hin) as [Hx|[Hx|?]]; [by apply elem_of_nil in Hx| |done].
  by eapply cooled_not_candidate.
Qed.

Lemma dry_selection_cools_priority_witness :
  let c := mkClock 0 (fun _ => 0) 0 0 in
  let late := mkClock (seconds 4) (fun _ => seconds 4) (seconds 4) (seconds 4) in
  let evs := [LTask (TPoll 0); LTask (TEnd 0 (inl (other "peer full"))); LJoin 0 1 c; LTimeout late] in
  let s := select_live_peer example_tier [] (live_cfg example_tier [] 0 0) c evs in
  ls_result s = Some None /\ "10.0.0.2"%string ∉ candidates_at (w_tier (ls_w s)) (seconds 3).
Proof.
  cbv zeta. split; [vm_compute; reflexivity|].
  apply (dry_selection_cools_priority example_tier [] [] 0 0).
  - exact example_tier_ok.
  - cbn. lia.
  - repeat constructor; cbn; unfold seconds; lia.
  - vm_compute. reflexivity.
  - by apply (bool_decide_unpack _).
  - by apply (bool_decide_unpack _).
  - unfold PRIORITY_HUNG_COOLDOWN, seconds. lia.
Defined.

(** ** Bootstrap selection *)

Lemma contains_evolves t t' ip : tier_evolves t t' -> contains t' ip = contains t ip.
Proof. intros (_ & Hp & _). unfold contains, index. by rewrite Hp. Qed.

Lemma exclusive_evolves t t' : tier_evolves t t' -> exclusive t' = exclusive t.
Proof. intros (_ & Hp & _ & He). unfold exclusive, is_empty. by rewrite Hp, He. Qed.

(** The launch loop: [P] holds after each skipped or spawned candidate. *)
Lemma boot_launch_inv (P : BootSel -> Prop) fuel cfg c s :
  P s ->
  (forall s, P s -> P (boot_set_held s true)) ->
  (forall s, P s -> (bt_launched s < bc_limit cfg)%nat ->
     contains (w_tier (bt_w s)) (bc_nth cfg (bt_launched s)) = true -> P (boot_skip s)) ->
  (forall s t i, P s -> (bt_launched s < bc_limit cfg)%nat ->
     (bt_in_flight s < BOOTSTRAP_SELECT_MAX_INFLIGHT)%nat ->
     contains (w_tier (bt_w s)) (bc_nth cfg (bt_launched s)) = true ->
     try_acquire (w_tier (bt_w s)) (bc_nth cfg (bt_launched s)) = Some (i, t) ->
     P (boot_spawn s t (bc_nth cfg (bt_launched s)) true (Some i))) ->
  (forall s, P s -> (bt_launched s < bc_limit cfg)%nat ->
     (bt_in_flight s < BOOTSTRAP_SELECT_MAX_INFLIGHT)%nat ->
     contains (w_tier (bt_w s)) (bc_nth cfg (bt_launched s)) = false ->
     (bt_prio_in_flight s = 0%nat \/ exclusive (w_tier (bt_w s)) = false \/
      exists k, bc_pool_after cfg <= ck_launch c k) ->
     P (boot_spawn s (w_tier (bt_w s)) (bc_nth cfg (bt_launched s)) false None)) ->
  P (boot_launch fuel cfg c s).
Proof.
  intros Hs Hheld Hskip Hprio Hpool. revert s Hs. induction fuel as [|fuel IH]; intros s Hs; [done|].
  cbn [boot_launch]. destruct (_ && _) eqn:Eb; [|done]. apply andb_true_iff in Eb as [E1 E2].
  apply Nat.ltb_lt in E1, E2.
  destruct (contains (w_tier (bt_w s)) (bc_nth cfg (bt_launched s))) eqn:Ec; cbn [negb andb].
  - destruct (try_acquire _ _) as [[i t]|] eqn:Ea; apply IH; auto.
  - destruct (_ && _) eqn:Eh; [by apply Hheld|]. apply IH, Hpool; try done.
    apply andb_false_iff in Eh as [Eh|Eh]; [apply andb_false_iff in Eh as [Eh|Eh]|].
    + left. apply Nat.ltb_ge in Eh. lia.
    + by right; left.
    + right; right. exists (bt_launched s). lia.
Qed.

(** *** Slots *)

Definition boot_slots (s : BootSel) : Prop :=
  match bt_result s with
  | Some r => w_set (bt_w s) = [] /\
      counted (w_tier (bt_w s), w_others (bt_w s) ++ match r with Some v => option_list (bs_slot v) | None => [] end)
  | None => balanced (bt_w s)
  end.

Lemma boot_exit_slots s : balanced (bt_w s) -> boot_slots (boot_exit s None).
Proof. intros Hb. split; [done|]. rewrite app_nil_r. exact (balanced_abort (bt_w s) [] Hb). Qed.

Lemma boot_top_slots cfg c s :
  bt_result s = None -> balanced (bt_w s) -> boot_slots (boot_top cfg c s).
Proof.
  intros Hr Hb. unfold boot_top. set (s1 := boot_launch _ _ _ _).
  assert (H1 : balanced (bt_w s1) /\ bt_result s1 = None).
  { apply (boot_launch_inv (fun s => balanced (bt_w s) /\ bt_result s = None)); try done.
    - intros s' t i [Hb' ?] _ _ _ Ea. split; [|done]. unfold boot_spawn. cbn [bt_w].
      apply balanced_spawn. cbn [slot_of tk_at option_list app].
      eapply counted_perm; [apply Permutation_middle|]. by eapply counted_acquire.
    - intros s' [Hb' ?] _ _ _ _. split; [|done]. apply balanced_spawn. done. }
  destruct H1 as [H1 H2]. case_match; [by apply boot_exit_slots|]. unfold boot_slots. by rewrite H2.
Qed.

Lemma boot_step_slots cfg s ev : boot_slots s -> boot_slots (boot_step cfg s ev).
Proof.
  unfold boot_step. destruct (bt_result s) as [r|] eqn:Hr; intros Hs.
  - destruct ev as [[o| |]| | |]; try done. unfold boot_slots in *. cbn [boot_set_world bt_result bt_w task_step].
    rewrite Hr in *. destruct Hs as [? Hs]. destruct (op_step (w_tier (bt_w s), w_others (bt_w s)) o) eqn:Eo.
    split; [done|]. by eapply counted_other.
  - assert (Hb : balanced (bt_w s)) by (unfold boot_slots in Hs; by rewrite Hr in Hs).
    destruct ev as [e|k c|k text c|now c].
    + unfold boot_slots. cbn [boot_set_world bt_result bt_w]. rewrite Hr. by apply task_step_balanced.
    + destruct (w_set (bt_w s) !! k) as [task|] eqn:Hk; [|done].
      pose proof (balanced_join _ _ _ Hk Hb) as Hj.
      destruct (tk_at task) as [| |[e|[v slot]]] eqn:Ep; try done.
      * apply boot_top_slots; [done|]. unfold slot_of in Hj. by rewrite Ep in Hj.
      * split; [done|]. unfold slot_of in Hj. rewrite Ep in Hj.
        eapply counted_perm; [apply Permutation_app_comm|]. by apply (balanced_abort (join (bt_w s) k)).
    + destruct (w_set (bt_w s) !! k) as [task|] eqn:Hk; [|done].
      apply boot_top_slots; [done|]. exact (balanced_join_release (bt_w s) k task Hk Hb).
    + case_match; [by apply boot_top_slots|by apply boot_exit_slots].
Qed.

(** *** Order and bounds *)

(** The scan visits [m] priority candidates, then pool candidates only. *)
Definition prio_first (cfg : BootCfg) (t : PriorityTier) (m : nat) : Prop :=
  forall k, (k < bc_limit cfg)%nat -> contains t (bc_nth cfg k) = bool_decide (k < m)%nat.

Definition head_start (cfg : BootCfg) (c : Clock) : Prop := forall k, ck_launch c k < bc_pool_after cfg.

Definition boot_bounds (cfg : BootCfg) (t0 : PriorityTier) (s : BootSel) : Prop :=
  tier_evolves t0 (w_tier (bt_w s)) /\
  length (w_set (bt_w s)) = bt_in_flight s /\ (bt_in_flight s <= BOOTSTRAP_SELECT_MAX_INFLIGHT)%nat /\
  (bt_launched s <= bc_limit cfg)%nat /\
  (length (prio_ips (labels (w_set (bt_w s)))) <= bt_prio_in_flight s)%nat.

(** No priority attempt is pending once a pool candidate has been launched. *)
Definition boot_early (m : nat) (s : BootSel) : Prop :=
  (m < bt_launched s)%nat -> prio_ips (labels (w_set (bt_w s))) = [].

Lemma labels_spawn {E S} (w : World E S) t task :
  labels (w_set (spawn (with_tier w t) task)) ≡ₚ (tk_ip task, tk_prio task) :: labels (w_set w).
Proof. unfold labels, spawn. cbn. rewrite fmap_app. cbn. by rewrite <- Permutation_cons_append. Qed.

Lemma boot_spawn_bounds cfg t0 s t ip prio slot :
  boot_bounds cfg t0 s -> tier_evolves t0 t -> (bt_launched s < bc_limit cfg)%nat ->
  (bt_in_flight s < BOOTSTRAP_SELECT_MAX_INFLIGHT)%nat ->
  boot_bounds cfg t0 (boot_spawn s t ip prio slot).
Proof.
  intros (_ & H2 & H3 & H4 & H5) Ht Hl Hf. unfold boot_bounds, boot_spawn.
  cbn [bt_w bt_in_flight bt_launched bt_prio_in_flight]. rewrite labels_spawn, prio_ips_cons, !length_app.
  cbn [spawn with_tier w_set w_tier tk_prio]. rewrite length_app. cbn [length].
  split_and!; [done|lia|lia|lia|]. destruct prio; cbn [length]; lia.
Qed.

(** The run invariant; [hs]: all clock readings are within the head start. *)
Definition boot_ordered (cfg : BootCfg) (t0 : PriorityTier) (m : nat) (hs : Prop) (s : BootSel) : Prop :=
  (bt_result s = None -> boot_bounds cfg t0 s) /\ (bt_launched s <= bc_limit cfg)%nat /\
  (length (w_set (bt_w s)) <= BOOTSTRAP_SELECT_MAX_INFLIGHT)%nat /\
  tier_evolves t0 (w_tier (bt_w s)) /\ (hs -> boot_early m s).

Lemma boot_top_ordered cfg c t0 m (hs : Prop) s :
  bt_result s = None -> exclusive t0 = true -> prio_first cfg t0 m -> boot_bounds cfg t0 s ->
  (hs -> head_start cfg c) -> (hs -> boot_early m s) ->
  boot_ordered cfg t0 m hs (boot_top cfg c s).
Proof.
  intros Hr Hx Hm Hb Hc He. unfold boot_top. set (s1 := boot_launch _ _ _ _).
  assert (H1 : boot_bounds cfg t0 s1 /\ (hs -> boot_early m s1)).
  { apply (boot_launch_inv (fun s => boot_bounds cfg t0 s /\ (hs -> boot_early m s)));
      try done; clear s1.
    - intros s1 [Hb1 _] Hl Hcon. pose proof Hb1 as (Ht & H2 & H3 & H4 & H5).
      rewrite (contains_evolves _ _ _ Ht), Hm in Hcon by done. apply bool_decide_eq_true in Hcon.
      split; [|intros _ ?; cbn in *; lia]. unfold boot_bounds, boot_skip. cbn. split_and!; try done; lia.
    - intros s1 t i [Hb1 _] Hl Hf Hcon Ha. pose proof Hb1 as (Ht & _).
      rewrite (contains_evolves _ _ _ Ht), Hm in Hcon by done. apply bool_decide_eq_true in Hcon.
      split; [|intros _ ?; cbn in *; lia]. apply boot_spawn_bounds; try done.
      etransitivity; [exact Ht|by eapply evolves_try_acquire].
    - intros s1 [Hb1 He1] Hl Hf Hcon Hor. pose proof Hb1 as (Ht & _ & _ & _ & H5).
      split; [by apply boot_spawn_bounds|]. intros Hh _. unfold boot_spawn. cbn [bt_w].
      destruct Hor as [Hz|[Hn|[k Hk]]].
      + apply Permutation_nil_r. rewrite labels_spawn, prio_ips_cons. cbn [tk_prio app].
        rewrite Hz in H5. assert (E : prio_ips (labels (w_set (bt_w s1))) = [])
          by (apply nil_length_inv; lia). by rewrite E.
      + by rewrite (exclusive_evolves _ _ Ht), Hx in Hn.
      + specialize (Hc Hh k). lia. }
  clearbody s1. destruct H1 as [Hb1 He1]. pose proof Hb1 as (Ht & H2 & H3 & H4 & H5). case_match.
  - unfold boot_ordered. cbn. split_and!; [done|done|lia| |done].
    etransitivity; [exact Ht|]. apply evolves_drops.
  - split_and!; [done|done|lia|done|done].
Qed.

Definition boot_event_clocks (ev : boot_event) : list Clock :=
  match ev with BTask _ => [] | BJoin _ c | BPanic _ _ c | BTimeout _ c => [c] end.

Lemma boot_join_bounds cfg t0 s k task :
  w_set (bt_w s) !! k = Some task -> boot_bounds cfg t0 s ->
  length (w_set (join (bt_w s) k)) = (bt_in_flight s - 1)%nat /\ (0 < bt_in_flight s)%nat /\
  length (prio_ips (labels (w_set (bt_w s)))) =
    (length (prio_ips (labels (w_set (join (bt_w s) k)))) + if tk_prio task then 1 else 0)%nat.
Proof.
  intros Hk (_ & H2 & _). pose proof (lookup_lt_Some _ _ _ Hk). split_and!.
  - cbn. rewrite length_delete; [lia|done].
  - lia.
  - rewrite (labels_join _ _ _ Hk), prio_ips_cons, length_app. destruct (tk_prio task); cbn; lia.
Qed.

Lemma boot_join_early (w : World string BootstrapPeerSelection) k task :
  w_set w !! k = Some task ->
  prio_ips (labels (w_set w)) = [] -> prio_ips (labels (w_set (join w k))) = [].
Proof.
  intros Hk Hn. apply nil_length_inv. pose proof (labels_join _ _ _ Hk) as Hj.
  assert (Hl : length (prio_ips (labels (w_set w))) = 0%nat) by (by rewrite Hn).
  rewrite Hj, prio_ips_cons, length_app in Hl. lia.
Qed.

Lemma boot_step_ordered cfg t0 m (hs : Prop) s ev :
  exclusive t0 = true -> prio_first cfg t0 m -> boot_ordered cfg t0 m hs s ->
  (hs -> Forall (head_start cfg) (boot_event_clocks ev)) ->
  boot_ordered cfg t0 m hs (boot_step cfg s ev).
Proof.
  intros Hx Hm Hs Hc. pose proof Hs as (Hb & Hl & Hset & Ht & He). unfold boot_step.
  assert (Htask : forall e, boot_ordered cfg t0 m hs
    (boot_set_world s (task_step PRIORITY_CAP_REACHED (bt_w s) e))).
  { intros e. assert (Ht' : tier_evolves t0 (w_tier (task_step PRIORITY_CAP_REACHED (bt_w s) e)))
      by (etransitivity; [exact Ht|apply evolves_task]).
    pose proof (labels_task_step PRIORITY_CAP_REACHED (bt_w s) e) as Hlab.
    assert (Hlen : length (w_set (task_step PRIORITY_CAP_REACHED (bt_w s) e)) = length (w_set (bt_w s)))
      by (apply (f_equal length) in Hlab; unfold labels in Hlab; by rewrite !length_fmap in Hlab).
    unfold boot_ordered, boot_bounds, boot_early, boot_set_world in *.
    cbn [bt_w bt_result bt_launched bt_in_flight bt_prio_in_flight] in *.
    rewrite Hlab, Hlen. split_and!; try done. intros Hr. destruct (Hb Hr) as (_ & ? & ? & ? & ?). done. }
  destruct (bt_result s) as [r|] eqn:Hr; [by destruct ev as [[o| |]| | |]|]. specialize (Hb eq_refl).
  destruct ev as [e|k c|k text c|now c]; [done|..];
    try (assert (Hc' : hs -> head_start cfg c) by (intros Hh; by apply Hc, Forall_inv in Hh)).
  - destruct (w_set (bt_w s) !! k) as [task|] eqn:Hk; [|done].
    destruct (boot_join_bounds _ _ _ _ _ Hk Hb) as (E1 & E2 & E3).
    pose proof Hb as (_ & H2 & H3 & H4 & H5).
    destruct (tk_at task) as [| |[e|[v slot]]]; try done.
    + apply boot_top_ordered; try done.
      * unfold boot_bounds, boot_failed. cbn [bt_w bt_in_flight bt_launched bt_prio_in_flight].
        split_and!; [done|done|lia|done|]. destruct (tk_prio task); lia.
      * intros Hh Hlt. by eapply boot_join_early, He.
    + unfold boot_ordered. cbn. split_and!; [done|done|lia| |done].
      etransitivity; [exact Ht|]. apply evolves_drops.
  - destruct (w_set (bt_w s) !! k) as [task|] eqn:Hk; [|done].
    destruct (boot_join_bounds _ _ _ _ _ Hk Hb) as (E1 & E2 & E3).
    pose proof Hb as (_ & H2 & H3 & H4 & H5).
    apply boot_top_ordered; try done.
    + unfold boot_bounds, boot_panic. cbn [bt_w bt_in_flight bt_launched bt_prio_in_flight with_tier w_set w_tier].
      split_and!; [|done|lia|done|].
      * etransitivity; [exact Ht|apply evolves_release].
      * assert (length (prio_ips (labels (w_set (join (bt_w s) k)))) <= length (w_set (join (bt_w s) k)))%nat.
        { unfold prio_ips, labels. rewrite length_fmap. etransitivity; [apply length_filter|]. by rewrite length_fmap. }
        destruct (tk_prio task); lia.
    + intros Hh Hlt. by eapply boot_join_early, He.
  - case_match; [by apply boot_top_ordered|]. unfold boot_ordered. cbn.
    split_and!; [done|done|lia| |done]. etransitivity; [exact Ht|]. apply evolves_drops.
Qed.

(** After the head start the launch loop stops only when every slot or candidate is used. *)
Lemma boot_launch_full fuel cfg c s :
  (bc_limit cfg <= fuel + bt_launched s)%nat -> (forall k, bc_pool_after cfg <= ck_launch c k) ->
  bt_pool_held s = false ->
  let s' := boot_launch fuel cfg c s in
  bt_pool_held s' = false /\
  (bc_limit cfg <= bt_launched s' \/ BOOTSTRAP_SELECT_MAX_INFLIGHT <= bt_in_flight s')%nat.
Proof.
  intros Hf Hc. cbn zeta. revert s Hf. induction fuel as [|fuel IH]; intros s Hf Hh.
  { split; [done|]. left. cbn in *. lia. }
  cbn [boot_launch]. destruct (_ && _) eqn:Eb.
  2: { split; [done|]. apply andb_false_iff in Eb as [Eb|Eb]; apply Nat.ltb_ge in Eb; auto. }
  rewrite (proj2 (Z.ltb_ge _ _)) by apply Hc. rewrite andb_false_r.
  destruct (contains _ _); [destruct (try_acquire _ _) as [[i t]|]|]; apply IH; try done; cbn; lia.
Qed.

(** The bootstrap race is bounded and gives an exclusive tier exactly its head start. At most
    [BOOTSTRAP_SELECT_MAX_INFLIGHT] attempts are in flight and at most [BOOTSTRAP_SELECT_MAX_PEERS]
    candidates are tried, whatever fails, panics or runs next to it. With the priority peers first,
    no pool peer is dialed next to a pending priority attempt while the clock is within the head
    start; from its end on, a turn of the loop leaves no slot free as long as candidates remain, so a
    hung priority peer cannot keep the pool out. When the race returns, only the winner's slot is
    held. *)
Theorem bootstrap_race_head_start (t : PriorityTier) (others : list nat) (cfg : BootCfg) (m : nat)
    (c : Clock) (evs : list boot_event) :
  counted (t, others) -> exclusive t = true -> prio_first cfg t m ->
  let s := select_fast_bootstrap_peer t others cfg c evs in
  let w := bt_w s in
  (length (w_set w) <= BOOTSTRAP_SELECT_MAX_INFLIGHT)%nat /\
  (bt_launched s <= BOOTSTRAP_SELECT_MAX_PEERS)%nat /\
  (Forall (head_start cfg) (c :: (evs ≫= boot_event_clocks)) -> (m < bt_launched s)%nat ->
   prio_ips (labels (w_set w)) = []) /\
  (forall c', (forall k, bc_pool_after cfg <= ck_launch c' k) ->
     let s' := boot_top cfg c' s in
     bt_pool_held s' = false /\
     (bc_limit cfg <= bt_launched s' \/ BOOTSTRAP_SELECT_MAX_INFLIGHT <= bt_in_flight s')%nat) /\
  (forall r, bt_result s = Some r -> w_set w = [] /\
     counted (w_tier w, w_others w ++ match r with Some v => option_list (bs_slot v) | None => [] end)).
Proof.
  intros Hcnt Hx Hm. cbn zeta. set (hs := Forall (head_start cfg) (c :: (evs ≫= boot_event_clocks))).
  assert (Hclk : hs -> head_start cfg c /\ Forall (fun ev => Forall (head_start cfg) (boot_event_clocks ev)) evs).
  { unfold hs. intros [H1 H2]%Forall_cons. split; [done|]. clear -H2.
    induction evs as [|ev evs IH]; [by constructor|]. cbn in H2. apply Forall_app in H2 as [? ?].
    constructor; auto. }
  assert (Hall : forall evs', (hs -> Forall (fun ev => Forall (head_start cfg) (boot_event_clocks ev)) evs') ->
    forall s, boot_ordered cfg t m hs s /\ boot_slots s ->
    boot_ordered cfg t m hs (foldl (boot_step cfg) s evs') /\ boot_slots (foldl (boot_step cfg) s evs')).
  { induction evs' as [|ev evs' IH]; intros Hq s [H1 H2]; [done|]. cbn. apply IH.
    - intros Hh. by apply Hq, Forall_inv_tail in Hh.
    - split; [|by apply boot_step_slots]. apply boot_step_ordered; try done.
      intros Hh. by apply Hq, Forall_inv in Hh. }
  destruct (Hall evs (fun H => proj2 (Hclk H)) (boot_start t others cfg c)) as [(H1 & H2 & H3 & H4 & H5) Hslots].
  { assert (Hb0 : balanced (mkWorld t others [] : World string BootstrapPeerSelection))
      by (unfold balanced; cbn; by rewrite app_nil_r).
    unfold boot_start. case_match; [split; [|by apply boot_exit_slots]|split; [|by apply boot_top_slots]].
    - unfold boot_ordered. cbn. split_and!; try done; lia.
    - apply boot_top_ordered; try done; [|by intros Hh; apply Hclk].
      unfold boot_bounds. cbn. split_and!; try done; lia. }
  unfold select_fast_bootstrap_peer. set (s := foldl _ _ _) in *. clearbody s. split_and!.
  - done.
  - unfold bc_limit in H2. lia.
  - done.
  - intros c' Hc'. unfold boot_top.
    pose proof (boot_launch_full BOOTSTRAP_SELECT_MAX_PEERS cfg c' (boot_set_held s false)
      ltac:(unfold bc_limit; lia) Hc' eq_refl) as Hfull.
    revert Hfull. generalize (boot_launch BOOTSTRAP_SELECT_MAX_PEERS cfg c' (boot_set_held s false)).
    intros s' Hfull. by case_match.
  - intros r Hr. unfold boot_slots in Hslots. by rewrite Hr in Hslots.
Qed.

Lemma bootstrap_race_head_start_witness :
  let cfg := mkBootCfg ["10.0.0.1"; "10.0.0.2"; "9.9.9.9"]%string 0 0 in
  let c := mkClock 0 (fun _ => 0) 0 0 in
  let s := select_fast_bootstrap_peer example_tier [] cfg c
    [BTask (TEnd 0 (inl "connect timeout"%string)); BJoin 0 c] in
  bt_launched s = 2%nat /\ bt_pool_held s = true /\ (bt_launched s <= BOOTSTRAP_SELECT_MAX_PEERS)%nat.
Proof.
  cbv zeta. split; [vm_compute; reflexivity|]. split; [vm_compute; reflexivity|].
  apply (bootstrap_race_head_start example_tier []
    (mkBootCfg ["10.0.0.1"; "10.0.0.2"; "9.9.9.9"]%string 0 0) 2).
  - split; [exact example_tier_ok|]. split; [constructor|].
    intros [|[|i]] Hi; [vm_compute; reflexivity|vm_compute; reflexivity|cbn in Hi; lia].
  - reflexivity.
  - intros [|[|[|k]]] Hk; [vm_compute; reflexivity..|]. cbn in Hk. lia.
Defined.
