(* ===== verification/FailoverSession.v ===== *)
(** A failover session: [serve_failover] of [src/failover/session.rs] and the configuration of
    [src/failover/mod.rs].

    The event loop is a step function over the session's state: each step is one turn of the
    [select!] (an event of the channel, the end of the node writer, a tick) or a step of something
    that runs next to the loop (the dial race for a standby, another session on the priority tier).
    What a turn reads from outside (clock, network tip, floor, blacklist, pool, how many frames the
    node queue still takes) is the [Turn] of the step. The clock is read once per turn. *)

From S2P Require Import Prelude Text Blacklist BTree Wire Priority Freshest PushSession FailoverCore FailoverChain Node Sources Race.

(** ** Constants *)

Definition EVENT_BYTES_PER_READER : Z := 2 * MAX_LIVE_FRAME.
Definition GREETING_WAIT : Z := seconds 4.
Definition ACTIVE_DEAD_GRACE : Z := seconds 3.
Definition BAD_PEER_COOLDOWN : Z := seconds 120.
Definition TICK : Z := millis 25.
Definition UPSTREAM_IDLE : Z := seconds 5.
Definition STANDBY_CONNECT_TIMEOUT : Z := millis 1500.
Definition STANDBY_RETRY : Z := seconds 2.
Definition STANDBY_RACE : nat := 4.
Definition SLOW_PEER_COOLDOWN : Z := seconds (30 * 60).
Definition ACCEPT_GREETING : bytes := [0; 0; 0; 1; 0; 3].

(** ** Configuration *)

Record FailoverConfig := mkFoCfg {
  standbys : Z;
  fo_stall : Z;
  fo_lag : Z;
  fo_min_dwell : Z;
  rotate_slower : Z;
  rotate_every : Z;
  status_dir : option string
}.

(** [FailoverConfig::from_env]; [env] is [std::env::var]. *)
Definition failover_from_env (env : string -> option string) : FailoverConfig :=
  let num k d := default d (v ← env k; parse_uint u64_max (trim v)) in
  mkFoCfg (Z.min 16 (num "HYPERSYNC_FAILOVER_STANDBYS" 0))
    (millis (Z.max 50 (num "HYPERSYNC_FAILOVER_STALL_MS" 400)))
    (millis (Z.max 20 (num "HYPERSYNC_FAILOVER_LAG_MS" 150)))
    (millis (num "HYPERSYNC_FAILOVER_DWELL_MS" 10000))
    (millis (num "HYPERSYNC_FAILOVER_ROTATE_MS" 100))
    (seconds (Z.max 10 (num "HYPERSYNC_FAILOVER_ROTATE_SECS" 60)))
    (v ← env "HYPERSYNC_FAILOVER_STATUS_DIR"; if decide (trim v = EmptyString) then None else Some v).

(** ** Events *)

(** A connected stream is known by the upstream's address; a priority slot by its index. *)
Inductive Event :=
| Frame (id : Z) (frame : bytes) (block : option (Z * Z * Z)) (at_ : Z)
| Closed (id : Z) (reason : string)
| Connected (ip : string) (prio : option nat)
| ConnectFailed
| NodeBytes (b : bytes)
| NodeClosed (reason : string).

(** ** The dial race for a standby *)

(** [connect_standby]: candidates not tried yet, the attempts in flight with their slots; then the
    event in the channel. *)
Inductive Dial :=
| Idle
| Racing (todo : list string) (inflight : list (string * option nat))
| Won (ip : string) (slot : option nat)
| Lost.

#[global] Instance Dial_eq_dec : EqDecision Dial.
Proof. solve_decision. Defined.

Definition standby_slot (t : PriorityTier) (ip : string) : option (option nat * PriorityTier) :=
  if Priority.contains t ip then
    match try_acquire t ip with Some (i, t) => Some (Some i, t) | None => None end
  else Some (None, t).

(** The [for ip in batch] loop. *)
Fixpoint spawn_batch (t : PriorityTier) (batch : list string)
    : list (string * option nat) * PriorityTier :=
  match batch with
  | [] => ([], t)
  | ip :: batch =>
      match standby_slot t ip with
      | None => spawn_batch t batch
      | Some (slot, t) => let '(set, t) := spawn_batch t batch in ((ip, slot) :: set, t)
      end
  end.

Definition release_all (t : PriorityTier) (l : list (string * option nat)) : PriorityTier :=
  foldl (fun t e => release t e.2) t l.

(** What happens to the race: the next batch, an attempt that fails (or is not accepted), one that
    is accepted first. *)
Inductive dial_event := DBatch | DFail (k : nat) | DAccept (k : nat).

(** [attempt]: the greeting a standby must answer with. *)
Definition accepted (greeting : bytes) : bool := bool_decide (greeting = ACCEPT_GREETING).

Definition dial_step (t : PriorityTier) (d : Dial) (e : dial_event) : PriorityTier * Dial :=
  match d, e with
  | Racing todo [], DBatch =>
      match todo with
      | [] => (t, Lost)
      | _ => let '(set, t) := spawn_batch t (take STANDBY_RACE todo) in
             (t, Racing (drop STANDBY_RACE todo) set)
      end
  | Racing todo set, DFail k =>
      match set !! k with
      | Some (ip, slot) => (release t slot, Racing todo (delete k set))
      | None => (t, d)
      end
  | Racing todo set, DAccept k =>
      match set !! k with
      | Some (ip, slot) => (release_all t (delete k set), Won ip slot)
      | None => (t, d)
      end
  | _, _ => (t, d)
  end.

(** ** The session *)

Record Session := mkSession {
  s_core : Core;
  lives : gmap Z (option nat);
  s_cooldown : gmap string Z;
  connecting : bool;
  next_connect : Z;
  active_dead : option (Z * string);
  switches : Z;
  s_progress : BlockProgress;
  next_id : Z;
  last_rotate : Z;
  rot : nat;
  blacklist_seen : Z;
  s_dial : Dial;
  s_tier : PriorityTier;
  s_others : list nat;
  pin : string * option nat
}.

Definition set_core (s : Session) (c : Core) : Session :=
  mkSession c (lives s) (s_cooldown s) (connecting s) (next_connect s) (active_dead s) (switches s)
    (s_progress s) (next_id s) (last_rotate s) (rot s) (blacklist_seen s) (s_dial s) (s_tier s)
    (s_others s) (pin s).

Definition set_dead (s : Session) (d : option (Z * string)) : Session :=
  mkSession (s_core s) (lives s) (s_cooldown s) (connecting s) (next_connect s) d (switches s)
    (s_progress s) (next_id s) (last_rotate s) (rot s) (blacklist_seen s) (s_dial s) (s_tier s)
    (s_others s) (pin s).

Definition set_progress (s : Session) (p : BlockProgress) : Session :=
  mkSession (s_core s) (lives s) (s_cooldown s) (connecting s) (next_connect s) (active_dead s)
    (switches s) p (next_id s) (last_rotate s) (rot s) (blacklist_seen s) (s_dial s) (s_tier s)
    (s_others s) (pin s).

Definition set_dial (s : Session) (d : Dial) (t : PriorityTier) : Session :=
  mkSession (s_core s) (lives s) (s_cooldown s) (connecting s) (next_connect s) (active_dead s)
    (switches s) (s_progress s) (next_id s) (last_rotate s) (rot s) (blacklist_seen s) d t
    (s_others s) (pin s).

Definition set_connect (s : Session) (b : bool) (next : Z) : Session :=
  mkSession (s_core s) (lives s) (s_cooldown s) b next (active_dead s) (switches s)
    (s_progress s) (next_id s) (last_rotate s) (rot s) (blacklist_seen s) (s_dial s) (s_tier s)
    (s_others s) (pin s).

(** What a turn reads from outside. *)
Record Turn := mkTurn {
  tn_now : Z;
  net_tip : Z;
  live_floor : Z;
  bl_now : Blacklist;
  pool_now : list string;
  node_takes : nat;
  active_writes : bool
}.

(** What a turn does outside the session. *)
Inductive Out :=
| ToNode (frame : bytes)
| ToPeer (id : Z) (b : bytes)
| Switched (old new : string) (reason : SwitchReason).

Inductive Flow := Running (s : Session) | Ended (reason : string) (s : Session).

Definition flow_state (f : Flow) : Session := match f with Running s | Ended _ s => s end.

(** [queue_frame] of each frame: those taken before the node's writer is gone. *)
Definition queue (tn : Turn) (frames : list bytes) : list Out * bool :=
  (ToNode <$> take (node_takes tn) frames, (length frames <=? node_takes tn)%nat).

Definition NODE_WRITER_CLOSED : string := "node writer closed".

(** [core.remove(id)], the cooldown of its address, [lives.remove(&id)] (which drops its slot). *)
Definition drop_up (s : Session) (id : Z) (until : option Z) : Session :=
  let '(ip, c) := remove (s_core s) id in
  mkSession c (delete id (lives s))
    (match ip, until with Some ip, Some u => <[ip := u]> (s_cooldown s) | _, _ => s_cooldown s end)
    (connecting s) (next_connect s) (active_dead s) (switches s) (s_progress s) (next_id s)
    (last_rotate s) (rot s) (blacklist_seen s) (s_dial s)
    (release (s_tier s) (lives s !! id ≫= (fun slot => slot)))
    (s_others s) (pin s).

Definition drop_all (s : Session) (ids : list Z) (until : option Z) : Session :=
  foldl (fun s id => drop_up s id until) s ids.

(** [active_dead.get_or_insert(..)] and the [if active_dead.is_none()] assignments. *)
Definition mark_dead (s : Session) (now : Z) (why : string) : Session :=
  match active_dead s with None => set_dead s (Some (now, why)) | Some _ => s end.

Definition jump_text (r prev : Z) : string :=
  "active block round jump round=" +:+ show r +:+ " prev=" +:+ show prev +:+ " max_jump=" +:+
  show MAX_ACTIVE_ROUND_JUMP.

Section Handlers.
Context `{HashOrder} (lz4_decompress : bytes -> option bytes) (hasher : bytes -> Z) (fo : FailoverConfig).

Definition forward_active_block (s : Session) (tn : Turn) (frame : bytes) (r h at_ : Z)
    : list Out * Flow :=
  if live_floor tn <? r then
    let '(fwd, bad, c) := on_active_block (s_core s) r h at_ in
    let s := drop_all (set_core s c) bad.*1 (Some (tn_now tn + BAD_PEER_COOLDOWN)) in
    if fwd then
      let '(out, ok) := queue tn [frame] in
      (out, if ok then Running s else Ended NODE_WRITER_CLOSED s)
    else ([], Running s)
  else ([], Running s).

Definition on_frame (s : Session) (tn : Turn) (id : Z) (frame : bytes) (block : option (Z * Z * Z))
    (at_ : Z) : list Out * Flow :=
  match lives s !! id with
  | None => ([], Running s)
  | Some _ =>
      let is_active := id =? active (s_core s) in
      match block with
      | Some (r, p, h) =>
          let lagged := round_lag_from_tip r (net_tip tn) ACTIVE_ROUND_MAX_LAG in
          if negb (is_plausible_mainnet_round r (net_tip tn)) || bool_decide (is_Some lagged) then
            let why :=
              match lagged with
              | Some l => "round " +:+ show r +:+ " lags tip " +:+ show (net_tip tn) +:+ " by " +:+ show l
              | None => "implausible round " +:+ show r
              end in
            ([], Running
              (if is_active then mark_dead s (tn_now tn) why
               else match ups (s_core s) !! id with
                    | Some _ => drop_up s id (Some (tn_now tn + BAD_PEER_COOLDOWN))
                    | None => s
                    end))
          else if is_active then
            match active_dead s with
            | Some _ => ([], Running s)
            | None =>
                match on_round (s_progress s) r at_ with
                | Some p => forward_active_block (set_progress s p) tn frame r h at_
                | None =>
                    ([], Running (set_dead s
                       (Some (tn_now tn, jump_text r (last_round (s_progress s))))))
                end
            end
          else
            let '(v, c) := on_standby_block (s_core s) id r p h at_ frame in
            ([], Running
              match v with
              | VMismatch _ => drop_up (set_core s c) id (Some (tn_now tn + BAD_PEER_COOLDOWN))
              | VOk => set_core s c
              end)
      | None =>
          if is_active && bool_decide (active_dead s = None) then
            let '(out, ok) := queue tn [frame] in
            (out, if ok then Running s else Ended NODE_WRITER_CLOSED s)
          else ([], Running s)
      end
  end.

Definition on_closed (s : Session) (tn : Turn) (id : Z) (reason : string) : Session :=
  if id =? active (s_core s) then mark_dead s (tn_now tn) reason
  else drop_up s id (Some (tn_now tn + STANDBY_RETRY * 5)).

Definition on_connected (s : Session) (ip : string) (prio : option nat) : Session :=
  let id := next_id s in
  let c := add_standby (s_core s) id ip in
  let c := if Priority.contains (s_tier s) ip then mark_preferred c id else c in
  mkSession c (<[id := prio]> (lives s)) (s_cooldown s) false (next_connect s) (active_dead s)
    (switches s) (s_progress s) (id + 1) (last_rotate s) (rot s) (blacklist_seen s) Idle (s_tier s)
    (s_others s) (pin s).

Definition on_connect_failed (s : Session) (tn : Turn) : Session :=
  set_dial (set_connect s false (tn_now tn + STANDBY_RETRY)) Idle (s_tier s).

Definition on_node_bytes (s : Session) (tn : Turn) (b : bytes) : list Out * Session :=
  match lives s !! active (s_core s) with
  | Some _ =>
      ([ToPeer (active (s_core s)) b],
       if active_writes tn then s else mark_dead s (tn_now tn) "active write failed")
  | None => ([], s)
  end.

(** An event of the channel. The result of the dial race is in the channel when the race is over. *)
Definition on_event (s : Session) (tn : Turn) (ev : Event) : list Out * Flow :=
  match ev with
  | Frame id frame block at_ => on_frame s tn id frame block at_
  | Closed id reason => ([], Running (on_closed s tn id reason))
  | Connected ip prio =>
      ([], Running (if decide (s_dial s = Won ip prio) then on_connected s ip prio else s))
  | ConnectFailed =>
      ([], Running (if decide (s_dial s = Lost) then on_connect_failed s tn else s))
  | NodeBytes b => let '(out, s) := on_node_bytes s tn b in (out, Running s)
  | NodeClosed reason => ([], Ended reason s)
  end.

(** *** The tick *)

Definition tick_stalled (s : Session) (tn : Turn) : Session :=
  if bool_decide (active_dead s = None) && stalled (s_progress s) (tn_now tn) then
    set_dead s (Some (tn_now tn,
      "no block above round " +:+ show (last_round (s_progress s)) +:+ " for " +:+
      show (ACTIVE_BLOCK_STALL / seconds 1) +:+ "s"))
  else s.

Definition banned (s : Session) (bl : Blacklist) : list Z :=
  filter (fun id => negb (id =? active (s_core s)) &&
            match ip_of (s_core s) id with Some ip => Blacklist.contains bl ip | None => false end = true)
    (iter_order (lives s)).*1.

Definition set_seen (s : Session) (v : Z) : Session :=
  mkSession (s_core s) (lives s) (s_cooldown s) (connecting s) (next_connect s) (active_dead s)
    (switches s) (s_progress s) (next_id s) (last_rotate s) (rot s) v (s_dial s) (s_tier s)
    (s_others s) (pin s).

Definition tick_blacklist (s : Session) (tn : Turn) : Session :=
  if Blacklist.version (bl_now tn) =? blacklist_seen s then s
  else
    let s := set_seen s (Blacklist.version (bl_now tn)) in
    let s :=
      match ip_of (s_core s) (active (s_core s)) with
      | Some ip =>
          if Blacklist.contains (bl_now tn) ip
          then mark_dead s (tn_now tn) "active peer blacklisted" else s
      | None => s
      end in
    drop_all s (banned s (bl_now tn)) None.

(** The gateway's callback: the standby's slot, or a fresh one if it had none, becomes the pin's;
    the pin it replaces is dropped. *)
Definition on_switch (s : Session) (ip : string) (slot : option nat) : Session :=
  let '(slot, t) :=
    match slot with
    | Some i => (Some i, s_tier s)
    | None => match try_acquire (s_tier s) ip with
              | Some (i, t) => (Some i, t)
              | None => (None, s_tier s)
              end
    end in
  mkSession (s_core s) (lives s) (s_cooldown s) (connecting s) (next_connect s) (active_dead s)
    (switches s) (s_progress s) (next_id s) (last_rotate s) (rot s) (blacklist_seen s) (s_dial s)
    (release t (pin s).2) (s_others s) (ip, slot).

(** [lives.get_mut(&id).and_then(|l| l.prio.take())]. *)
Definition take_slot (s : Session) (id : Z) : option nat * Session :=
  (lives s !! id ≫= (fun slot => slot),
   mkSession (s_core s) (alter (fun _ => None) id (lives s)) (s_cooldown s) (connecting s)
     (next_connect s) (active_dead s) (switches s) (s_progress s) (next_id s) (last_rotate s) (rot s)
     (blacklist_seen s) (s_dial s) (s_tier s) (s_others s) (pin s)).

Definition note_switch (s : Session) (now : Z) : Session :=
  mkSession (s_core s) (lives s) (s_cooldown s) (connecting s) (next_connect s) None
    (switches s + 1) (BlockProgress_new (last_forwarded (s_core s)) now) (next_id s) (last_rotate s)
    (rot s) (blacklist_seen s) (s_dial s) (s_tier s) (s_others s) (pin s).

Definition cool_ip (s : Session) (ip : string) (until : Z) : Session :=
  mkSession (s_core s) (lives s) (<[ip := until]> (s_cooldown s)) (connecting s) (next_connect s)
    (active_dead s) (switches s) (s_progress s) (next_id s) (last_rotate s) (rot s)
    (blacklist_seen s) (s_dial s) (s_tier s) (s_others s) (pin s).

Definition tick_switch (s : Session) (tn : Turn) : list Out * Flow :=
  let now := tn_now tn in
  match pick_switch (s_core s) now (bool_decide (is_Some (active_dead s))) with
  | None => ([], Running s)
  | Some (id, reason) =>
      let old := active (s_core s) in
      let old_ip := default "?" (ip_of (s_core s) old) in
      match switch_to (s_core s) id now with
      | None => ([], Running s)
      | Some (frames, bad, c) =>
          let s := set_core s c in
          let new_ip := default "?" (ip_of c id) in
          let '(out, ok) := queue tn frames in
          if negb ok then (out, Ended NODE_WRITER_CLOSED s)
          else
            let '(slot, s) := take_slot (note_switch s now) id in
            let s := on_switch s new_ip slot in
            let s := cool_ip (drop_up s old None) old_ip (now + BAD_PEER_COOLDOWN) in
            let s := drop_all s bad.*1 (Some (now + BAD_PEER_COOLDOWN)) in
            (out ++ [Switched old_ip new_ip reason], Running s)
      end
  end.

Definition DEAD_TEXT : string := "active failed and no standby could continue the chain: ".

Definition tick_dead (s : Session) (tn : Turn) : option string :=
  match active_dead s with
  | Some (t, reason) =>
      if ACTIVE_DEAD_GRACE <=? since (tn_now tn) t then Some (DEAD_TEXT +:+ reason) else None
  | None => None
  end.

Definition set_rotated (s : Session) (now : Z) : Session :=
  mkSession (s_core s) (lives s) (s_cooldown s) (connecting s) (next_connect s) (active_dead s)
    (switches s) (s_progress s) (next_id s) now (rot s) (blacklist_seen s) (s_dial s) (s_tier s)
    (s_others s) (pin s).

Definition tick_rotate (s : Session) (tn : Turn) : Session :=
  let now := tn_now tn in
  if (0 <? rotate_slower fo) && negb (connecting s) && bool_decide (active_dead s = None) &&
     (standbys fo <=? standby_count (s_core s)) && (rotate_every fo <=? since now (last_rotate s))
  then
    let s := set_rotated s now in
    match slowest_standby (s_core s) (as_millis (rotate_slower fo))
            (fun ip => bool_decide (tier_of (s_tier s) ip = "prio"%string)) with
    | Some (id, _) => drop_up s id (Some (now + SLOW_PEER_COOLDOWN))
    | None => s
    end
  else s.

(** [cands.retain(..)] with its [seen] set. *)
Fixpoint retain_new (ok : string -> bool) (seen : list string) (l : list string) : list string :=
  match l with
  | [] => []
  | ip :: l =>
      if ok ip && bool_decide (ip ∉ seen) then ip :: retain_new ok (ip :: seen) l
      else retain_new ok seen l
  end.

Definition in_use (s : Session) : list string :=
  omap (fun id => ip_of (s_core s) id) (iter_order (lives s)).*1.

(** The pool from position [start] on, once around. *)
Definition rotated_pool (start : nat) (pool : list string) : list string :=
  (fun i => nth ((start + i) mod length pool) pool EmptyString) <$> seq 0 (length pool).

Definition refill_candidates (s : Session) (tn : Turn) : list string :=
  let cool := filter (fun e => tn_now tn < e.2) (s_cooldown s) in
  let _ := filter_of (bl_now tn) in
  let cands := candidates_at (s_tier s) (tn_now tn) ++
    (if negb (bool_decide (pool_now tn = [])) && pool_allowed (s_tier s) (tn_now tn)
     then rotated_pool (rot s) (pool_now tn) else []) in
  take (STANDBY_RACE * 3)
    (retain_new (fun ip => bool_decide (ip ∉ in_use s) && bool_decide (cool !! ip = None)) [] cands).

Definition tick_refill (s : Session) (tn : Turn) : Session :=
  let now := tn_now tn in
  if negb (connecting s) && (standby_count (s_core s) <? standbys fo) && (next_connect s <=? now) then
    let cands := refill_candidates s tn in
    mkSession (s_core s) (lives s) (filter (fun e => now < e.2) (s_cooldown s))
      (negb (bool_decide (cands = [])))
      (if bool_decide (cands = []) then now + STANDBY_RETRY else next_connect s)
      (active_dead s) (switches s) (s_progress s) (next_id s) (last_rotate s) (S (rot s))
      (blacklist_seen s) (if bool_decide (cands = []) then s_dial s else Racing cands [])
      (s_tier s) (s_others s) (pin s)
  else s.

Definition on_tick (s : Session) (tn : Turn) : list Out * Flow :=
  let s := tick_blacklist (tick_stalled s tn) tn in
  match tick_switch s tn with
  | (out, Ended reason s) => (out, Ended reason s)
  | (out, Running s) =>
      (out, match tick_dead s tn with
            | Some reason => Ended reason s
            | None => Running (tick_refill (tick_rotate s tn) tn)
            end)
  end.

(** *** The prefetched frames *)

Fixpoint prefetched (s : Session) (tns : nat -> Turn) (k : nat) (frames : list bytes)
    : list Out * Flow :=
  match frames with
  | [] => ([], Running s)
  | frame :: frames =>
      let tn := tns k in
      let go '(out, ok) s :=
        if (ok : bool) then let '(out', f) := prefetched s tns (S k) frames in (out ++ out', f)
        else (out, Ended NODE_WRITER_CLOSED s) in
      match classify lz4_decompress hasher frame with
      | Some (r, _, h) =>
          if negb (is_plausible_mainnet_round r (net_tip tn))
          then ([], Ended ("implausible prefetched round " +:+ show r) s)
          else
            match on_round (s_progress s) r (tn_now tn) with
            | None => ([], Ended ("prefetched " +:+ jump_text r (last_round (s_progress s))) s)
            | Some p =>
                let s := set_progress s p in
                if live_floor tn <? r then
                  let '(fwd, _, c) := on_active_block (s_core s) r h (tn_now tn) in
                  if fwd then go (queue tn [frame]) (set_core s c) else go ([], true) (set_core s c)
                else go ([], true) s
            end
      | None => go (queue tn [frame]) s
      end
  end.

(** *** The loop *)

Inductive Input :=
| IEvent (tn : Turn) (ev : Event)
| IWriter (reason : string)
| ITick (tn : Turn)
| IDial (e : dial_event)
| IOther (o : op).

Definition step (s : Session) (i : Input) : list Out * Flow :=
  match i with
  | IEvent tn ev => on_event s tn ev
  | IWriter reason => ([], Ended reason s)
  | ITick tn => on_tick s tn
  | IDial e => let '(t, d) := dial_step (s_tier s) (s_dial s) e in ([], Running (set_dial s d t))
  | IOther o =>
      let '(t, gs) := op_step (s_tier s, s_others s) o in
      ([], Running (mkSession (s_core s) (lives s) (s_cooldown s) (connecting s) (next_connect s)
         (active_dead s) (switches s) (s_progress s) (next_id s) (last_rotate s) (rot s)
         (blacklist_seen s) (s_dial s) t gs (pin s)))
  end.

Fixpoint run (s : Session) (ins : list Input) : list Out * Flow :=
  match ins with
  | [] => ([], Running s)
  | i :: ins =>
      match step s i with
      | (out, Ended reason s) => (out, Ended reason s)
      | (out, Running s) => let '(out', f) := run s ins in (out ++ out', f)
      end
  end.

(** The state the loop starts from; [slot] is the one the gateway's pin holds for the active. *)
Definition session_start (t : PriorityTier) (others : list nat) (active_ip : string)
    (slot : option nat) (initial now : Z) : Session :=
  let c := Core_new 0 active_ip initial (fo_stall fo) (fo_lag fo) (fo_min_dwell fo) in
  mkSession (if Priority.contains t active_ip then mark_preferred c 0 else c) {[0 := None]} ∅ false
    now None 0 (BlockProgress_new initial now) 1 now 0 u64_max Idle t others (active_ip, slot).

(** After the loop: every [Live] is dropped, and the reason carries the number of switches. *)
Definition finish (reason : string) (s : Session) : string * Session :=
  (reason +:+ " switches=" +:+ show (switches s),
   mkSession (s_core s) ∅ (s_cooldown s) (connecting s) (next_connect s) (active_dead s) (switches s)
     (s_progress s) (next_id s) (last_rotate s) (rot s) (blacklist_seen s) (s_dial s)
     (release_all (s_tier s) ((fun e => (EmptyString, e.2)) <$> iter_order (lives s)))
     (s_others s) (pin s)).

(** The greeting phase: the frame sent to the node, or how the session ends. [read] is the read of
    the active's greeting, needed when the selection did not read it. *)
Definition failover_greeting (prefetched_greeting : option bytes) (read : greeting_read)
    (w : write_result) : string + bytes :=
  let send g := match write_greeting w with None => inr g | Some e => inl e end in
  match prefetched_greeting with
  | Some g => send g
  | None =>
      match read with
      | GreetReadError e => inl ("active greeting read failed: " +:+ e)
      | GreetRead g => if response_is_peer_full g then inl "active peer full"%string else send g
      end
  end.

Definition serve_failover (s : Session) (frames : list bytes) (tns : nat -> Turn) (ins : list Input)
    : list Out * Flow :=
  match prefetched s tns 0 frames with
  | (out, Ended reason s) => (out, Ended reason s)
  | (out, Running s) => let '(out', f) := run s ins in (out ++ out', f)
  end.
End Handlers.

(** ** What the core does to its upstreams *)

(** Same upstreams, same addresses, nothing new in any buffer. *)
Definition up_shrinks (u u' : Upstream) : Prop :=
  u_ip u' = u_ip u /\ forall e, e ∈ ahead u' -> e ∈ ahead u.

Definition shrinks (c c' : Core) : Prop :=
  forall id, option_Forall2 up_shrinks (ups c !! id) (ups c' !! id).

#[global] Instance up_shrinks_refl : Reflexive up_shrinks.
Proof. by intros u. Qed.

#[global] Instance up_shrinks_trans : Transitive up_shrinks.
Proof. intros u v w [H1 H2] [H3 H4]. split; [congruence|auto]. Qed.

#[global] Instance shrinks_refl : Reflexive shrinks.
Proof. intros c id. reflexivity. Qed.

#[global] Instance shrinks_trans : Transitive shrinks.
Proof. intros c d e H1 H2 id. exact (transitivity (H1 id) (H2 id)). Qed.

Lemma shrinks_Some c c' id : shrinks c c' -> is_Some (ups c' !! id) <-> is_Some (ups c !! id).
Proof. intros H. specialize (H id). destruct H; split; intros [? ?]; naive_solver. Qed.

Lemma shrinks_lookup c c' id u' :
  shrinks c c' -> ups c' !! id = Some u' -> exists u, ups c !! id = Some u /\ up_shrinks u u'.
Proof. intros H E. specialize (H id). rewrite E in H. inversion H; subst. eauto. Qed.

Lemma shrinks_insert c id u u' :
  ups c !! id = Some u -> up_shrinks u u' -> shrinks c (set_ups c (<[id := u']> (ups c))).
Proof.
  intros E Hu i. cbn. destruct (decide (id = i)) as [<-|Hne].
  - rewrite lookup_insert_eq, E. by constructor.
  - rewrite lookup_insert_ne by done. reflexivity.
Qed.

Lemma compared_shrinks u b l : up_shrinks u (compared u b l).2.
Proof. destruct b; done. Qed.

Lemma trim_shrinks u floor : up_shrinks u (trim_ahead u floor).
Proof.
  unfold trim_ahead. destruct (trim_low _ _ _) as [m n] eqn:E.
  apply trim_low_spec in E as (gone & Ha & _). split; [done|]. cbn. intros e He.
  rewrite Ha. apply elem_of_app. by right.
Qed.

Lemma take_shrinks u r a u' : take_ahead u r = Some (a, u') -> up_shrinks u u'.
Proof.
  unfold take_ahead. destruct (bt_get r (ahead u)) as [a0|]; [|done]. cbn. intros [= <- <-].
  split; [done|]. cbn. intros e He. by eapply bt_remove_sub.
Qed.

Lemma settle_one_shrinks floor round hash at_ u : up_shrinks u (settle_one floor round hash at_ u).2.
Proof.
  unfold settle_one. destruct (take_ahead u round) as [[a u1]|] eqn:E; cbn [snd].
  - pose proof (compared_shrinks u1 (a_hash a =? hash) (lead_ms at_ (a_at a))) as Hc.
    destruct (compared _ _ _) as [bad u2]. cbn in *.
    etrans; [by eapply take_shrinks|]. etrans; [exact Hc|apply trim_shrinks].
  - apply trim_shrinks.
Qed.

Lemma take_chain_shrinks fuel u cur : up_shrinks u (take_chain fuel u cur).2.
Proof.
  revert u cur. induction fuel as [|fuel IH]; intros u cur; cbn [take_chain]; [done|].
  destruct (bt_range _ _) as [|[r a] rest]; [done|]. destruct (_ =? _); [|done].
  destruct (take_ahead u r) as [[a' u1]|] eqn:Et; [|done].
  specialize (IH u1 r). destruct (take_chain fuel u1 r) as [ch u2]. cbn in *.
  etrans; [by eapply take_shrinks|done].
Qed.

Lemma trim_high_shrinks fuel u : up_shrinks u (trim_high fuel u).
Proof.
  revert u. induction fuel as [|fuel IH]; intros u; cbn [trim_high]; [done|].
  destruct (_ || _); [|done]. destruct (bt_pop_last (ahead u)) as [[[r a] rest]|] eqn:E; [|done].
  etrans; [|apply IH]. split; [done|]. cbn. intros e He.
  apply bt_pop_last_spec in E as ->. apply elem_of_app. by left.
Qed.

Section CoreFacts.
Context `{HashOrder}.

Lemma settle_shrinks c round hash at_ : shrinks c (settle_standbys c round hash at_).2.
Proof.
  intros id. rewrite settle_lookup. destruct (ups c !! id) as [u|]; cbn; constructor.
  destruct (id =? active c); [done|apply settle_one_shrinks].
Qed.

Lemma settle_bad c round hash at_ id :
  id ∈ (settle_standbys c round hash at_).1.*1 -> id <> active c.
Proof.
  intros (e & -> & He)%list_elem_of_fmap. cbn in He.
  apply list_elem_of_omap in He as ([i u] & _ & Hx).
  destruct (Z.eqb_spec i (active c)); [done|]. destruct (settle_one _ _ _ _ _).1; [|done].
  by injection Hx as <-.
Qed.

Lemma on_active_shrinks c r h t :
  let '(fwd, bad, c') := on_active_block c r h t in
  shrinks c c' /\ active c' = active c /\ (forall id, id ∈ bad.*1 -> id <> active c).
Proof.
  unfold on_active_block.
  set (c1 := match ups c !! active c with Some u => _ | None => c end).
  assert (H1 : shrinks c c1 /\ active c1 = active c).
  { unfold c1. destruct (ups c !! active c) as [u|] eqn:E; [|done]. split; [|done].
    by eapply shrinks_insert. }
  destruct H1 as [H1 H2]. destruct (negb _ && _).
  { split_and!; [done|done|]. by intros id ?%elem_of_nil. }
  pose proof (settle_shrinks (record_forwarded c1 r h t) r h t) as H3.
  pose proof (settle_bad (record_forwarded c1 r h t) r h t) as H4.
  change (active (record_forwarded c1 r h t)) with (active c1) in H4. rewrite H2 in H4.
  destruct (settle_standbys _ r h t) as [bad c2] eqn:E. cbn in H3, H4.
  split_and!; [| |done].
  - etrans; [exact H1|exact H3].
  - unfold settle_standbys in E. injection E as _ <-. exact H2.
Qed.

Lemma forward_chain_shrinks c chain :
  let '(bad, c') := forward_chain c chain in
  shrinks c c' /\ active c' = active c /\ (forall id, id ∈ bad.*1 -> id <> active c).
Proof.
  revert c. induction chain as [|[r a] chain IH]; intros c; cbn [forward_chain].
  { split_and!; [done|done|]. by intros id ?%elem_of_nil. }
  set (c0 := record_forwarded c r (a_hash a) (a_at a)).
  pose proof (settle_shrinks c0 r (a_hash a) (a_at a)) as H1.
  pose proof (settle_bad c0 r (a_hash a) (a_at a)) as H2.
  assert (H3 : active (settle_standbys c0 r (a_hash a) (a_at a)).2 = active c) by done.
  destruct (settle_standbys c0 _ _ _) as [bad c1]. cbn in H1, H2, H3. specialize (IH c1).
  destruct (forward_chain c1 chain) as [bad' c2]. destruct IH as (I1 & I2 & I3).
  split_and!; [|congruence|].
  - etrans; [exact H1|exact I1].
  - intros id. rewrite fmap_app, elem_of_app. intros [?|?]; [by apply H2|rewrite <- H3; by apply I3].
Qed.

Lemma switch_to_shrinks c id now frames bad c' :
  switch_to c id now = Some (frames, bad, c') ->
  shrinks c c' /\ active c' = id /\ is_Some (ups c !! id) /\ (forall i, i ∈ bad.*1 -> i <> id).
Proof.
  unfold switch_to. destruct (ups c !! id) as [u|] eqn:E; [|done]. case_if; [done|].
  pose proof (take_chain_shrinks (length (ahead u)) u (last_forwarded c)) as Ht.
  destruct (take_chain _ _ _) as [chain u']. destruct chain as [|e0 chain0]; [done|].
  set (chain := e0 :: chain0). set (c1 := mkCore _ _ id _ _ _ _ _).
  pose proof (forward_chain_shrinks c1 chain) as Hf.
  destruct (forward_chain c1 chain) as [b c2]. destruct Hf as (F1 & F2 & F3).
  intros [= <- <- <-]. split_and!; [|exact F2|eauto|exact F3].
  etrans; [exact (shrinks_insert c id u u' E Ht)|]. etrans; [exact F1|].
  intros i. cbn. rewrite lookup_fmap. destruct (ups c2 !! i); constructor. done.
Qed.

Lemma pick_switch_eligible c now dead id reason :
  pick_switch c now dead = Some (id, reason) ->
  exists u fa, ups c !! id = Some u /\ eligible c (id, u) fa.
Proof.
  unfold pick_switch. destruct (last_forwarded c =? 0); [done|].
  pose proof (pick_fold_inv c now dead) as (H1 & H2 & H3 & _). set (b := foldl _ _ _) in *.
  setoid_rewrite <- elem_of_iter_order.
  destruct (stall_best b) as [[[[i l] n] fa]|] eqn:Es.
  { intros [= <- _]. destruct (H1 _ _ _ _ eq_refl) as (u & ? & ? & _). eauto. }
  destruct (preferred_best b) as [[i l]|] eqn:Ep.
  { intros [= <- _]. destruct (H2 _ _ eq_refl) as (u & fa & ? & ? & _). eauto. }
  destruct (lag_best b) as [[i m]|] eqn:El; [|done]. cbn. intros [= <- _].
  destruct (H3 _ _ eq_refl) as (u & fa & ? & ? & _). eauto.
Qed.

Lemma pick_switch_other c now dead id reason : pick_switch c now dead = Some (id, reason) -> id <> active c.
Proof. intros (u & fa & _ & Hid & _)%pick_switch_eligible. exact Hid. Qed.

Lemma pick_switch_switches c now dead id reason :
  core_ok c -> pick_switch c now dead = Some (id, reason) -> is_Some (switch_to c id now).
Proof. intros Hc (u & fa & Hu & Hel)%pick_switch_eligible. by eapply eligible_switches. Qed.

Lemma min_by_snd_in l e : min_by_snd l = Some e -> e ∈ l.
Proof.
  revert e. induction l as [|[i m] l IH]; intros e; cbn; [done|].
  destruct (min_by_snd l) as [[i' m']|].
  - destruct (m' <? m); intros [= <-]; [right; by apply IH|by left].
  - intros [= <-]. by left.
Qed.

Lemma slowest_other c ms ex id m : slowest_standby c ms ex = Some (id, m) ->
  id <> active c /\ exists u, ups c !! id = Some u /\ ex (u_ip u) = false /\ median_lead u = Some m /\ m < - ms.
Proof.
  intros He%min_by_snd_in. apply list_elem_of_omap in He as ([i u] & Hin & Hx).
  apply elem_of_iter_order in Hin. destruct ((i =? active c) || ex (u_ip u)) eqn:Eo; [done|].
  destruct (median_lead u) as [m0|] eqn:Em; [|done]. destruct (m0 <? - ms) eqn:El; [|done].
  injection Hx as <- <-. zify_bool. split; [lia|]. exists u. split_and!; done.
Qed.
End CoreFacts.

(** ** Well-formed sessions *)

(** The slots held by connections and by the dial race. *)
Definition held_slots (m : gmap Z (option nat)) : list nat := omap snd (map_to_list m).

Definition dial_slots (d : Dial) : list nat :=
  match d with
  | Racing _ set => omap snd set
  | Won _ slot => option_list slot
  | _ => []
  end.

Definition dial_ips (d : Dial) : list string :=
  match d with
  | Racing todo set => set.*1 ++ todo
  | Won ip _ => [ip]
  | _ => []
  end.

Definition slots_ok (s : Session) : Prop :=
  counted (s_tier s, s_others s ++ option_list (pin s).2 ++ held_slots (lives s) ++
    dial_slots (s_dial s)).

(** No address is connected twice, nor dialed while connected. *)
Definition ips_ok (s : Session) : Prop :=
  (forall i j u v, ups (s_core s) !! i = Some u -> ups (s_core s) !! j = Some v ->
     u_ip u = u_ip v -> i = j) /\
  (forall i u, ups (s_core s) !! i = Some u -> u_ip u ∉ dial_ips (s_dial s)) /\
  NoDup (dial_ips (s_dial s)).

(** Connections and upstreams agree, the active is one of them, ids are never reused, at most one
    dial race runs, and its flag is exact. *)
Definition links_ok (s : Session) : Prop :=
  (forall id, is_Some (lives s !! id) <-> is_Some (ups (s_core s) !! id)) /\
  is_Some (ups (s_core s) !! active (s_core s)) /\
  (forall id, is_Some (ups (s_core s) !! id) -> 0 <= id < next_id s) /\ 0 <= next_id s /\
  (connecting s = true <-> s_dial s <> Idle).

Definition session_ok (s : Session) : Prop := links_ok s /\ ips_ok s /\ slots_ok s.

Lemma held_slots_delete m id slot :
  m !! id = Some slot -> held_slots m ≡ₚ option_list slot ++ held_slots (delete id m).
Proof.
  intros E. unfold held_slots. rewrite <- (map_to_list_delete m id slot E). cbn.
  by destruct slot.
Qed.

Lemma held_slots_insert m id slot :
  m !! id = None -> held_slots (<[id := slot]> m) ≡ₚ option_list slot ++ held_slots m.
Proof. intros E. unfold held_slots. rewrite map_to_list_insert by done. cbn. by destruct slot. Qed.

Lemma session_ok_core s c :
  session_ok s -> shrinks (s_core s) c -> is_Some (ups c !! active c) -> session_ok (set_core s c).
Proof.
  intros ((L1 & L2 & L3 & L4 & L5) & (I1 & I2 & I3) & Hs) Hc Ha. split_and!; [| |exact Hs].
  - split_and!; [|exact Ha| |exact L4|exact L5].
    + intros id. cbn. rewrite (shrinks_Some _ _ _ Hc). apply L1.
    + intros id. cbn. rewrite (shrinks_Some _ _ _ Hc). apply L3.
  - split_and!; [| |exact I3]; cbn.
    + intros i j u v Hu Hv Hip.
      apply (shrinks_lookup _ _ _ _ Hc) in Hu as (u0 & Hu0 & [E1 _]).
      apply (shrinks_lookup _ _ _ _ Hc) in Hv as (v0 & Hv0 & [E2 _]).
      apply (I1 i j u0 v0 Hu0 Hv0). congruence.
    + intros i u Hu. apply (shrinks_lookup _ _ _ _ Hc) in Hu as (u0 & Hu0 & [E1 _]).
      rewrite E1. by eapply I2.
Qed.

Lemma drop_up_core s id u : s_core (drop_up s id u) = set_ups (s_core s) (delete id (ups (s_core s))).
Proof. done. Qed.

Lemma drop_up_slots s id u : slots_ok s -> slots_ok (drop_up s id u).
Proof.
  intros Hs. unfold slots_ok in *. cbn. destruct (lives s !! id) as [slot|] eqn:E; cbn.
  - apply counted_release. eapply counted_perm; [|exact Hs].
    rewrite (held_slots_delete _ _ _ E). solve_Permutation.
  - by rewrite delete_id.
Qed.

Lemma drop_up_ok s id u : id <> active (s_core s) -> session_ok s -> session_ok (drop_up s id u).
Proof.
  intros Hid ((L1 & L2 & L3 & L4 & L5) & (I1 & I2 & I3) & Hs).
  split_and!; [| |by apply drop_up_slots].
  - split_and!; [| | |exact L4|exact L5]; cbn.
    + intros i. destruct (decide (id = i)) as [<-|Hne].
      * rewrite !lookup_delete_eq. done.
      * rewrite !lookup_delete_ne by done. apply L1.
    + by rewrite lookup_delete_ne.
    + intros i [v [_ Hv]%lookup_delete_Some]. apply L3. eauto.
  - split_and!; [| |exact I3]; cbn.
    + intros i j v w [_ Hv]%lookup_delete_Some [_ Hw]%lookup_delete_Some. by apply I1.
    + intros i v [_ Hv]%lookup_delete_Some. by eapply I2.
Qed.

Lemma drop_all_active s ids u : active (s_core (drop_all s ids u)) = active (s_core s).
Proof.
  unfold drop_all. revert s. induction ids as [|id ids IH]; intros s; cbn; [done|]. by rewrite IH.
Qed.

Lemma drop_all_ok s ids u :
  (forall id, id ∈ ids -> id <> active (s_core s)) -> session_ok s -> session_ok (drop_all s ids u).
Proof.
  unfold drop_all. revert s. induction ids as [|id ids IH]; intros s Hids Hs; cbn; [done|].
  apply IH.
  - intros i Hi. cbn. apply Hids. by right.
  - apply drop_up_ok; [|done]. apply Hids. by left.
Qed.

Lemma mark_dead_ok s now why : session_ok s -> session_ok (mark_dead s now why).
Proof. unfold mark_dead. by destruct (active_dead s). Qed.

(** *** The dial race *)

Lemma standby_slot_counted t gs ip slot t' :
  standby_slot t ip = Some (slot, t') -> counted (t, gs) -> counted (t', option_list slot ++ gs).
Proof.
  unfold standby_slot. destruct (Priority.contains t ip).
  - destruct (try_acquire t ip) as [[i t1]|] eqn:E; [|done]. intros [= <- <-]. by eapply counted_acquire.
  - by intros [= <- <-].
Qed.

Lemma spawn_batch_counted t gs batch :
  counted (t, gs) ->
  counted ((spawn_batch t batch).2, omap snd (spawn_batch t batch).1 ++ gs).
Proof.
  revert t gs. induction batch as [|ip batch IH]; intros t gs Hc; cbn [spawn_batch]; [done|].
  destruct (standby_slot t ip) as [[slot t1]|] eqn:E; [|by apply IH].
  pose proof (standby_slot_counted _ _ _ _ _ E Hc) as H1. specialize (IH _ _ H1).
  destruct (spawn_batch t1 batch) as [set t2]. cbn in *. eapply counted_perm; [|exact IH].
  destruct slot; cbn; [symmetry; apply Permutation_middle|done].
Qed.

Lemma spawn_batch_ips t batch : (spawn_batch t batch).1.*1 `sublist_of` batch.
Proof.
  revert t. induction batch as [|ip batch IH]; intros t; cbn [spawn_batch]; [done|].
  destruct (standby_slot t ip) as [[slot t1]|]; [|by apply sublist_cons].
  specialize (IH t1). destruct (spawn_batch t1 batch). cbn. by apply sublist_skip.
Qed.

(** Every attempt for a priority peer holds one of that peer's slots. *)
Lemma spawn_batch_slot t batch ip slot :
  (ip, slot) ∈ (spawn_batch t batch).1 ->
  slot = index t ip \/ (slot = None /\ Priority.contains t ip = false).
Proof.
  revert t. induction batch as [|x batch IH]; intros t; cbn [spawn_batch]; [by intros ?%elem_of_nil|].
  destruct (standby_slot t x) as [[sl t1]|] eqn:E; [|apply IH].
  assert (Ht : peers t1 = peers t /\ (sl = index t x \/ (sl = None /\ Priority.contains t x = false))).
  { unfold standby_slot in E. destruct (Priority.contains t x) eqn:Ec; [|by simplify_eq; auto].
    unfold try_acquire in E. destruct (index t x) as [i|]; [|done]. cbn in E.
    destruct (_ || _); [|done]. simplify_eq. auto. }
  destruct Ht as [Hp Hsl]. specialize (IH t1). destruct (spawn_batch t1 batch) as [set t2]. cbn.
  intros [[= -> ->]|Hin]%elem_of_cons; [done|]. specialize (IH Hin).
  unfold Priority.contains, index in *. by rewrite Hp in IH.
Qed.

Lemma counted_release_all t l gs : counted (t, omap snd l ++ gs) -> counted (release_all t l, gs).
Proof.
  unfold release_all. revert t. induction l as [|[ip slot] l IH]; intros t Hc; cbn; [done|].
  apply IH, counted_release. by destruct slot.
Qed.

Lemma dial_step_ok t d e gs :
  counted (t, gs ++ dial_slots d) ->
  let '(t', d') := dial_step t d e in
  counted (t', gs ++ dial_slots d') /\ dial_ips d' `sublist_of` dial_ips d /\
  (d' = Idle <-> d = Idle).
Proof.
  intros Hc. destruct d as [|todo set|ip slot|]; try by (destruct e).
  assert (Hdel : forall k x, set !! k = Some x -> omap snd set ≡ₚ option_list x.2 ++ omap snd (delete k set)).
  { intros k x Hk. rewrite (delete_Permutation _ _ _ Hk) at 1. cbn. by destruct x.2. }
  destruct e as [|k|k]; cbn [dial_step].
  - destruct set as [|x set]; [|done]. destruct todo as [|ip todo]; [done|].
    set (l := ip :: todo) in *. cbn in Hc. rewrite app_nil_r in Hc.
    pose proof (spawn_batch_counted t gs (take STANDBY_RACE l) Hc) as Hb.
    pose proof (spawn_batch_ips t (take STANDBY_RACE l)) as Hi.
    destruct (spawn_batch t _) as [set t1]. cbn in Hb, Hi. split_and!; [| |done].
    + eapply counted_perm; [|exact Hb]. cbn. apply Permutation_app_comm.
    + assert (Hx : set.*1 ++ drop STANDBY_RACE l `sublist_of`
        take STANDBY_RACE l ++ drop STANDBY_RACE l) by (by apply sublist_app).
      rewrite take_drop in Hx. exact Hx.
  - destruct set as [|x0 set0] eqn:Es; [done|]. rewrite <- Es in *. clear Es x0 set0.
    destruct (set !! k) as [[ip slot]|] eqn:Ek; [|done]. split_and!; [| |done].
    + apply counted_release. eapply counted_perm; [|exact Hc]. cbn. rewrite (Hdel _ _ Ek). cbn.
      solve_Permutation.
    + cbn. apply sublist_app; [|done]. apply fmap_sublist, sublist_delete.
  - destruct set as [|x0 set0] eqn:Es; [done|]. rewrite <- Es in *. clear Es x0 set0.
    destruct (set !! k) as [[ip slot]|] eqn:Ek; [|done]. split_and!; [| |done].
    + apply counted_release_all. eapply counted_perm; [|exact Hc]. cbn. rewrite (Hdel _ _ Ek). cbn.
      solve_Permutation.
    + cbn. apply sublist_inserts_r. apply singleton_sublist_l, list_elem_of_fmap.
      exists (ip, slot). split; [done|]. by eapply list_elem_of_lookup_2.
Qed.

(** *** Each handler *)

Section Preserved.
Context `{HashOrder} (lz4_decompress : bytes -> option bytes) (hasher : bytes -> Z) (fo : FailoverConfig).

Definition flow_ok (f : list Out * Flow) : Prop := session_ok (flow_state f.2).

Lemma queue_flow_ok tn frames s :
  session_ok s ->
  flow_ok (let '(out, ok) := queue tn frames in (out, if ok then Running s else Ended NODE_WRITER_CLOSED s)).
Proof. intros Hs. unfold queue, flow_ok. cbn. by destruct (_ <=? _)%nat. Qed.

Lemma forward_active_ok s tn frame r h at_ :
  session_ok s -> flow_ok (forward_active_block s tn frame r h at_).
Proof.
  intros Hs. unfold forward_active_block. destruct (_ <? _); [|done].
  pose proof (on_active_shrinks (s_core s) r h at_) as Ha.
  destruct (on_active_block _ _ _ _) as [[fwd bad] c]. destruct Ha as (A1 & A2 & A3).
  assert (Hc : session_ok (drop_all (set_core s c) bad.*1 (Some (tn_now tn + BAD_PEER_COOLDOWN)))).
  { apply drop_all_ok; [cbn; rewrite A2; exact A3|]. apply session_ok_core; [done|done|].
    rewrite A2, (shrinks_Some _ _ _ A1). apply Hs. }
  destruct fwd; [by apply queue_flow_ok|exact Hc].
Qed.

Lemma standby_block_ok s id r p h at_ frame :
  session_ok s -> session_ok (set_core s (on_standby_block (s_core s) id r p h at_ frame).2) /\
  active (on_standby_block (s_core s) id r p h at_ frame).2 = active (s_core s).
Proof.
  intros Hs. unfold on_standby_block. destruct (ups (s_core s) !! id) as [u|] eqn:E; [|done].
  assert (Hgo : forall u', u_ip u' = u_ip u ->
    session_ok (set_core s (set_ups (s_core s) (<[id := u']> (ups (s_core s)))))).
  { intros u' Hip. destruct Hs as ((L1 & L2 & L3 & L4 & L5) & (I1 & I2 & I3) & Hs).
    assert (Hl : forall i v, <[id := u']> (ups (s_core s)) !! i = Some v ->
      exists v0, ups (s_core s) !! i = Some v0 /\ u_ip v0 = u_ip v).
    { intros i v [[<- <-]|[_ Hv]]%lookup_insert_Some; eauto. }
    assert (Hd : forall i, is_Some (<[id := u']> (ups (s_core s)) !! i) <-> is_Some (ups (s_core s) !! i)).
    { intros i. rewrite lookup_insert_is_Some. split; [intros [<-|[_ ?]]; eauto|].
      destruct (decide (id = i)); auto. }
    split_and!; [|split_and!; cbn|exact Hs].
    - split_and!; cbn; [|by apply Hd| |done|done]; intros i; rewrite Hd; [apply L1|apply L3].
    - intros i j v w (v0 & Hv & E1)%Hl (w0 & Hw & E2)%Hl Heq. apply (I1 i j v0 w0 Hv Hw). congruence.
    - intros i v (v0 & Hv & <-)%Hl. by eapply I2.
    - exact I3. }
  destruct (r <=? _).
  - destruct (bt_get r _) as [[h' fat]|].
    + pose proof (compared_shrinks (set_last_rx u at_) (h' =? h) (- lead_ms at_ fat)) as [Hip _].
      destruct (compared _ _ _) as [bad u2]. split; [|done]. by apply Hgo.
    + split; [|done]. by apply Hgo.
  - split; [|done]. apply Hgo. unfold insert_ahead.
    by rewrite (proj1 (trim_high_shrinks _ _)).
Qed.

Lemma on_frame_ok s tn id frame block at_ : session_ok s -> flow_ok (on_frame s tn id frame block at_).
Proof.
  intros Hs. unfold on_frame. destruct (lives s !! id) as [slot|]; [|done].
  destruct block as [[[r p] h]|].
  2:{ destruct (_ && _); [by apply queue_flow_ok|done]. }
  destruct (negb _ || _).
  { unfold flow_ok. cbn [flow_state snd]. destruct (Z.eqb_spec id (active (s_core s))); [by apply mark_dead_ok|].
    destruct (ups (s_core s) !! id); [by apply drop_up_ok|done]. }
  destruct (Z.eqb_spec id (active (s_core s))) as [->|Hne].
  - destruct (active_dead s); [done|]. destruct (on_round _ _ _); [|done]. by apply forward_active_ok.
  - destruct (standby_block_ok s id r p h at_ frame Hs) as [Hok Ha].
    destruct (on_standby_block _ _ _ _ _ _ _) as [v c]. cbn in Hok, Ha. unfold flow_ok. cbn [flow_state snd].
    destruct v; [done|]. apply drop_up_ok; [cbn; congruence|done].
Qed.

Lemma on_closed_ok s tn id reason : session_ok s -> session_ok (on_closed s tn id reason).
Proof.
  intros Hs. unfold on_closed. destruct (Z.eqb_spec id (active (s_core s))); [by apply mark_dead_ok|].
  by apply drop_up_ok.
Qed.

Lemma mark_preferred_shrinks c id : shrinks c (mark_preferred c id) /\ active (mark_preferred c id) = active c.
Proof.
  unfold mark_preferred. destruct (ups c !! id) as [u|] eqn:E; [|done]. split; [|done].
  by eapply shrinks_insert.
Qed.

(** The standby the race won is added under a fresh id. *)
Lemma on_connected_ok s ip prio :
  s_dial s = Won ip prio -> session_ok s -> session_ok (on_connected s ip prio).
Proof.
  intros Hd ((L1 & L2 & L3 & L4 & L5) & (I1 & I2 & I3) & Hs).
  assert (Hfresh : ups (s_core s) !! next_id s = None).
  { apply eq_None_not_Some. intros Hx. apply L3 in Hx. lia. }
  assert (Hlf : lives s !! next_id s = None).
  { apply eq_None_not_Some. rewrite L1, Hfresh. by intros []. }
  set (c0 := add_standby (s_core s) (next_id s) ip).
  set (s0 := mkSession c0 (<[next_id s := prio]> (lives s)) (s_cooldown s) false (next_connect s)
    (active_dead s) (switches s) (s_progress s) (next_id s + 1) (last_rotate s) (rot s)
    (blacklist_seen s) Idle (s_tier s) (s_others s) (pin s)).
  assert (H0 : session_ok s0).
  { unfold session_ok, links_ok, ips_ok, slots_ok, s0, c0. cbn. split_and!.
    - intros id. rewrite !lookup_insert_is_Some. by rewrite L1.
    - apply lookup_insert_is_Some'. by right.
    - intros id [<-|[_ Hx%L3]]%lookup_insert_is_Some; lia.
    - lia.
    - done.
    - intros i j u v Hu Hv Heq. rewrite Hd in I2. cbn in I2. setoid_rewrite list_elem_of_singleton in I2.
      apply lookup_insert_Some in Hu as [[<- <-]|[_ Hu]], Hv as [[<- <-]|[_ Hv]]; cbn in *; [done| | |by eapply I1].
      + by destruct (I2 _ _ Hv).
      + by destruct (I2 _ _ Hu).
    - intros i u _. apply not_elem_of_nil.
    - constructor.
    - eapply counted_perm; [|exact Hs]. rewrite Hd, (held_slots_insert _ _ _ Hlf). cbn. solve_Permutation. }
  unfold on_connected. destruct (Priority.contains _ _); [|exact H0].
  destruct (mark_preferred_shrinks c0 (next_id s)) as [M1 M2].
  apply (session_ok_core s0 (mark_preferred c0 (next_id s)) H0 M1).
  rewrite M2, (shrinks_Some _ _ _ M1). apply H0.
Qed.

Lemma on_event_ok s tn ev : session_ok s -> flow_ok (on_event s tn ev).
Proof.
  intros Hs. destruct ev as [id frame block at_|id reason|ip prio| |b|reason]; cbn [on_event].
  - by apply on_frame_ok.
  - by apply on_closed_ok.
  - unfold flow_ok. cbn [flow_state snd]. case_decide; [by apply on_connected_ok|done].
  - unfold flow_ok. cbn [flow_state snd]. case_decide as Hd; [|done].
    destruct Hs as ((L1 & L2 & L3 & L4 & L5) & (I1 & I2 & I3) & Hs).
    rewrite Hd in I2, I3. unfold slots_ok in Hs. rewrite Hd in Hs. by split_and!.
  - unfold on_node_bytes. destruct (lives s !! _); [|done]. unfold flow_ok. cbn [flow_state snd].
    destruct (active_writes tn); [done|by apply mark_dead_ok].
  - done.
Qed.

Lemma tick_blacklist_ok s tn : session_ok s -> session_ok (tick_blacklist s tn).
Proof.
  intros Hs. unfold tick_blacklist. destruct (_ =? _); [done|]. set (s1 := set_seen s _).
  set (s2 := match ip_of _ _ with Some ip => _ | None => s1 end).
  assert (H2 : session_ok s2).
  { unfold s2. destruct (ip_of _ _); [|done]. destruct (Blacklist.contains _ _); [|done]. by apply mark_dead_ok. }
  apply drop_all_ok; [|done]. intros id Hid. unfold banned in Hid.
  apply list_elem_of_filter in Hid as [Hid _]. zify_bool. done.
Qed.

Lemma tick_stalled_ok s tn : session_ok s -> session_ok (tick_stalled s tn).
Proof. intros Hs. unfold tick_stalled. by destruct (_ && _). Qed.

(** The slot of the new active moves to the pin, and the pin's old slot is given back. *)
Lemma handover_ok s id ip :
  is_Some (lives s !! id) -> session_ok s ->
  session_ok (on_switch (take_slot s id).2 ip (take_slot s id).1).
Proof.
  intros [slot Hl] ((L1 & L2 & L3 & L4 & L5) & HI & Hs). unfold take_slot. rewrite Hl. cbn [fst snd mbind option_bind].
  set (s1 := mkSession _ _ _ _ _ _ _ _ _ _ _ _ _ _ _ _).
  assert (Hperm : held_slots (lives s) ≡ₚ option_list slot ++ held_slots (lives s1)).
  { cbn. rewrite (held_slots_delete _ _ _ Hl). f_equiv.
    rewrite (held_slots_delete (alter (fun _ => None) id (lives s)) id None).
    - by rewrite delete_alter_eq.
    - by rewrite lookup_alter_eq, Hl. }
  assert (H1 : counted (s_tier s, option_list (pin s).2 ++ s_others s ++ option_list slot ++
    held_slots (lives s1) ++ dial_slots (s_dial s))).
  { eapply counted_perm; [|exact Hs]. rewrite Hperm. solve_Permutation. }
  unfold on_switch.
  assert (Hgo : forall sl t, counted (t, option_list (pin s).2 ++ s_others s ++ option_list sl ++
      held_slots (lives s1) ++ dial_slots (s_dial s)) ->
    session_ok (mkSession (s_core s1) (lives s1) (s_cooldown s1) (connecting s1) (next_connect s1)
      (active_dead s1) (switches s1) (s_progress s1) (next_id s1) (last_rotate s1) (rot s1)
      (blacklist_seen s1) (s_dial s1) (release t (pin s1).2) (s_others s1) (ip, sl))).
  { intros sl t Hc. split_and!; [|exact HI|].
    - split_and!; [|exact L2|exact L3|exact L4|exact L5]. intros i. cbn.
      rewrite <- L1, lookup_alter_is_Some. done.
    - apply counted_release. exact Hc. }
  destruct slot as [i|]; [by apply Hgo|]. cbn [s1 s_tier].
  destruct (try_acquire (s_tier s) ip) as [[i t]|] eqn:Et; apply Hgo; [|done].
  eapply counted_perm; [|by eapply counted_acquire]. cbn. solve_Permutation.
Qed.

Lemma tick_switch_ok s tn : session_ok s -> flow_ok (tick_switch s tn).
Proof.
  intros Hs. unfold tick_switch. destruct (pick_switch _ _ _) as [[id reason]|] eqn:Ep; [|done].
  apply pick_switch_other in Ep. destruct (switch_to _ _ _) as [[[frames bad] c]|] eqn:Es; [|done].
  apply switch_to_shrinks in Es as (S1 & S2 & S3 & S4).
  assert (Hc : session_ok (set_core s c)).
  { apply session_ok_core; [done|done|]. rewrite S2. by rewrite (shrinks_Some _ _ _ S1). }
  unfold queue. destruct (_ <=? _)%nat; [|done]. cbn [negb].
  pose proof (handover_ok (note_switch (set_core s c) (tn_now tn)) id (default "?"%string (ip_of c id))) as Hh.
  destruct (take_slot _ _) as [slot s2] eqn:Et. cbn [fst snd] in Hh.
  specialize (Hh (proj2 (proj1 (proj1 Hs) id) S3) Hc).
  assert (Hact : active (s_core (on_switch s2 (default "?"%string (ip_of c id)) slot)) = id).
  { unfold take_slot in Et. injection Et as _ <-. unfold on_switch.
    destruct slot; [done|]. by destruct (try_acquire _ _) as [[? ?]|]. }
  unfold flow_ok. cbn [flow_state snd].
  apply drop_all_ok; [intros i Hi; cbn; rewrite Hact; by apply S4|].
  apply (drop_up_ok (on_switch s2 (default "?"%string (ip_of c id)) slot) (active (s_core s)) None); [|done].
  rewrite Hact. done.
Qed.

Lemma tick_rotate_ok s tn : session_ok s -> session_ok (tick_rotate fo s tn).
Proof.
  intros Hs. unfold tick_rotate. destruct (_ && _); [|done].
  destruct (slowest_standby _ _ _) as [[id m]|] eqn:E; [|done].
  apply slowest_other in E as [Hid _]. by apply drop_up_ok.
Qed.

(** *** Candidates for a standby *)

Lemma elem_of_retain_new ok seen l ip :
  ip ∈ retain_new ok seen l <-> ip ∈ l /\ ok ip = true /\ ip ∉ seen.
Proof.
  revert seen. induction l as [|x l IH]; intros seen; cbn.
  { split; [by intros ?%elem_of_nil|]. by intros [?%elem_of_nil _]. }
  destruct (ok x && bool_decide (x ∉ seen)) eqn:E.
  - zify_bool. rewrite !elem_of_cons, IH, not_elem_of_cons. split.
    + intros [->|(? & ? & ? & ?)]; auto.
    + intros ([->|?] & ? & ?); [by left|]. destruct (decide (ip = x)); auto.
  - rewrite elem_of_cons, IH. split; [intros (? & ? & ?); auto|].
    intros ([->|?] & Hok & Hs); [|auto]. rewrite Hok, bool_decide_eq_true_2 in E by done. done.
Qed.

Lemma retain_new_NoDup ok seen l : NoDup (retain_new ok seen l).
Proof.
  revert seen. induction l as [|x l IH]; intros seen; cbn; [constructor|].
  destruct (_ && _); [|done]. constructor; [|done]. rewrite elem_of_retain_new, not_elem_of_cons. naive_solver.
Qed.

Lemma elem_of_rotated_pool start pool ip :
  ip ∈ rotated_pool start pool <-> ip ∈ pool.
Proof.
  unfold rotated_pool. set (n := length pool). split.
  - intros (i & -> & Hi)%list_elem_of_fmap. apply elem_of_seq in Hi.
    assert (Hm : ((start + i) mod n < n)%nat) by (apply Nat.mod_upper_bound; lia).
    destruct (lookup_lt_is_Some_2 pool _ Hm) as [x Hx]. rewrite (nth_lookup_Some _ _ _ _ Hx).
    by eapply list_elem_of_lookup_2.
  - intros [k Hk]%list_elem_of_lookup. pose proof (lookup_lt_Some _ _ _ Hk) as Hlt. fold n in Hlt.
    apply list_elem_of_fmap. exists ((k + (n - start mod n)) mod n)%nat. split.
    + assert (Hr : (start mod n < n)%nat) by (apply Nat.mod_upper_bound; lia).
      assert (Hs : ((start + (k + (n - start mod n)) mod n) mod n = k)%nat).
      { rewrite Nat.Div0.add_mod_idemp_r, <- Nat.Div0.add_mod_idemp_l.
        replace (start mod n + (k + (n - start mod n)))%nat with (k + 1 * n)%nat by lia.
        rewrite Nat.Div0.mod_add. by apply Nat.mod_small. }
      rewrite Hs. by rewrite (nth_lookup_Some _ _ _ _ Hk).
    + apply elem_of_seq. split; [lia|]. cbn. apply Nat.mod_upper_bound. lia.
Qed.

Lemma elem_of_in_use s ip : links_ok s ->
  ip ∈ in_use s <-> exists id u, ups (s_core s) !! id = Some u /\ u_ip u = ip.
Proof.
  intros (L1 & _). unfold in_use, ip_of. rewrite list_elem_of_omap. split.
  - intros (id & _ & Hx). destruct (ups (s_core s) !! id) as [u|] eqn:E; [|done].
    injection Hx as <-. eauto.
  - intros (id & u & Hu & <-). exists id. rewrite Hu. split; [|done].
    assert (Hl : is_Some (lives s !! id)) by (apply L1; eauto). destruct Hl as [slot Hl].
    apply list_elem_of_fmap. exists (id, slot). split; [done|]. by apply elem_of_iter_order.
Qed.

Lemma refill_candidates_NoDup s tn : NoDup (refill_candidates s tn).
Proof. unfold refill_candidates. eapply sublist_NoDup; [apply retain_new_NoDup|apply sublist_take]. Qed.

Lemma refill_candidates_spec s tn ip :
  links_ok s -> ip ∈ refill_candidates s tn ->
  (ip ∉ in_use s) /\ (forall u, s_cooldown s !! ip = Some u -> u <= tn_now tn) /\
  let _ := filter_of (bl_now tn) in
  (ip ∈ candidates_at (s_tier s) (tn_now tn) \/
   ip ∈ pool_now tn /\ pool_allowed (s_tier s) (tn_now tn) = true).
Proof.
  intros Hl. unfold refill_candidates. intros (k & Hin%list_elem_of_lookup_2 & _)%elem_of_take.
  apply elem_of_retain_new in Hin as (Hin & Hok & _). apply andb_true_iff in Hok as [Hu Hc].
  apply bool_decide_eq_true in Hu, Hc. split_and!; [done| |].
  - intros u Hu'. destruct (decide (tn_now tn < u)) as [Hlt|]; [|lia].
    apply map_lookup_filter_None in Hc as [Hc|Hc]; [congruence|]. by destruct (Hc u Hu').
  - apply elem_of_app in Hin as [?|Hin]; [by left|right].
    destruct (negb _ && _) eqn:Eb; [|by apply elem_of_nil in Hin].
    apply andb_true_iff in Eb as [_ Ha]. by apply elem_of_rotated_pool in Hin.
Qed.

Lemma tick_refill_ok s tn : session_ok s -> session_ok (tick_refill fo s tn).
Proof.
  intros Hs. unfold tick_refill. destruct (_ && _) eqn:E; [|done].
  apply andb_true_iff in E as [E _]. apply andb_true_iff in E as [E _]. apply negb_true_iff in E.
  pose proof Hs as ((L1 & L2 & L3 & L4 & L5) & (I1 & I2 & I3) & Hsl).
  assert (Hd : s_dial s = Idle).
  { destruct (decide (s_dial s = Idle)) as [?|Hn]; [done|]. apply L5 in Hn. congruence. }
  pose proof (refill_candidates_NoDup s tn) as Hnd.
  pose proof (fun ip => refill_candidates_spec s tn ip (proj1 Hs)) as Hsp.
  destruct (decide (refill_candidates s tn = [])) as [Hnil|Hne].
  - rewrite !bool_decide_eq_true_2 by done. cbn.
    split_and!; [|done|done]. rewrite E in L5. by split_and!.
  - rewrite !bool_decide_eq_false_2 by done. cbn. split_and!.
    + by split_and!.
    + split_and!; [done| |exact Hnd]. cbn. intros i u Hu Hin. apply Hsp in Hin as [Hin _].
      apply Hin, elem_of_in_use; [apply Hs|]. eauto.
    + unfold slots_ok in *. cbn. by rewrite Hd in Hsl.
Qed.

Lemma on_tick_ok s tn : session_ok s -> flow_ok (on_tick fo s tn).
Proof.
  intros Hs. unfold on_tick.
  pose proof (tick_switch_ok (tick_blacklist (tick_stalled s tn) tn) tn) as Hsw.
  destruct (tick_switch _ tn) as [out [s1|reason s1]]; unfold flow_ok in *; cbn [flow_state snd] in *;
    specialize (Hsw (tick_blacklist_ok _ _ (tick_stalled_ok _ _ Hs))); [|done].
  destruct (tick_dead s1 tn); cbn [flow_state]; [done|]. by apply tick_refill_ok, tick_rotate_ok.
Qed.

Lemma step_session_ok s i : session_ok s -> flow_ok (step fo s i).
Proof.
  intros Hs. destruct i as [tn ev|reason|tn|e|o]; cbn [step].
  - by apply on_event_ok.
  - done.
  - by apply on_tick_ok.
  - destruct Hs as ((L1 & L2 & L3 & L4 & L5) & (I1 & I2 & I3) & Hs).
    pose proof (dial_step_ok (s_tier s) (s_dial s) e (s_others s ++ option_list (pin s).2 ++ held_slots (lives s))) as Hd.
    destruct (dial_step _ _ _) as [t d]. destruct Hd as (D1 & D2 & D3).
    { unfold slots_ok in Hs. by rewrite <- !app_assoc. }
    unfold flow_ok. cbn [flow_state snd]. split_and!.
    + split_and!; try done. cbn. by rewrite D3.
    + split_and!; [done| |by eapply sublist_NoDup]. cbn. intros i u Hu Hin. eapply I2; [done|].
      by eapply elem_of_sublist.
    + unfold slots_ok. cbn. by rewrite <- !app_assoc in D1.
  - destruct (op_step _ o) as [t gs] eqn:Eo. unfold flow_ok. cbn [flow_state snd].
    split_and!; [apply Hs|apply Hs|]. eapply counted_other; [exact Eo|apply Hs].
Qed.

Lemma run_session_ok s ins : session_ok s -> flow_ok (run fo s ins).
Proof.
  revert s. induction ins as [|i ins IH]; intros s Hs; cbn [run]; [done|].
  pose proof (step_session_ok s i Hs) as H1. destruct (step fo s i) as [out [s1|reason s1]]; [|done].
  specialize (IH s1 H1). by destruct (run fo s1 ins) as [out' f].
Qed.

Lemma prefetched_ok s tns k frames :
  session_ok s -> flow_ok (prefetched lz4_decompress hasher s tns k frames).
Proof.
  revert s k. induction frames as [|frame frames IH]; intros s k Hs; cbn [prefetched]; [done|].
  assert (Hgo : forall (q : list Out * bool) s1, session_ok s1 -> flow_ok
    (let '(out, ok) := q in if ok then
       let '(out', f) := prefetched lz4_decompress hasher s1 tns (S k) frames in (out ++ out', f)
     else (out, Ended NODE_WRITER_CLOSED s1))).
  { intros [out ok] s1 H1. destruct ok; [|done]. specialize (IH s1 (S k) H1).
    by destruct (prefetched _ _ _ _ _ _) as [out' f]. }
  destruct (classify _ _ frame) as [[[r p] h]|]; [|by apply (Hgo (queue (tns k) [frame]))].
  destruct (negb _); [done|]. destruct (on_round _ _ _) as [p'|]; [|done].
  destruct (_ <? _); [|by apply (Hgo ([], true))].
  pose proof (on_active_shrinks (s_core (set_progress s p')) r h (tn_now (tns k))) as Ha.
  destruct (on_active_block _ _ _ _) as [[fwd bad] c]. destruct Ha as (A1 & A2 & _).
  assert (Hc : session_ok (set_core (set_progress s p') c)).
  { apply session_ok_core; [done|done|]. rewrite A2, (shrinks_Some _ _ _ A1). apply Hs. }
  destruct fwd; [by apply (Hgo (queue (tns k) [frame]))|by apply (Hgo ([], true))].
Qed.

Lemma session_start_ok t others ip slot initial now :
  counted (t, others ++ option_list slot) -> session_ok (session_start fo t others ip slot initial now).
Proof.
  intros Hc. unfold session_start.
  set (c0 := Core_new 0 ip initial _ _ _).
  set (s0 := mkSession c0 {[0 := None]} ∅ false now None 0 (BlockProgress_new initial now) 1 now 0
    u64_max Idle t others (ip, slot)).
  assert (H0 : session_ok s0).
  { unfold session_ok, links_ok, ips_ok, slots_ok. cbn. split_and!; try done.
    - intros id. destruct (decide (id = 0)) as [->|]; [by rewrite !lookup_singleton_eq|].
      by rewrite !lookup_singleton_ne.
    - intros id [u [<- _]%lookup_singleton_Some]. lia.
    - intros i j u v [<- _]%lookup_singleton_Some [<- _]%lookup_singleton_Some. done.
    - intros i u _. apply not_elem_of_nil.
    - constructor.
    - by rewrite app_nil_r. }
  destruct (Priority.contains t ip); [|exact H0].
  destruct (mark_preferred_shrinks c0 0) as [M1 M2].
  apply (session_ok_core s0 (mark_preferred c0 0) H0 M1).
  rewrite M2, (shrinks_Some _ _ _ M1). apply H0.
Qed.
End Preserved.

(** ** What the buffers hold *)

Section Filed.
Context `{HashOrder} (P : Z -> Ahead -> Prop).

(** Every buffered entry satisfies [P]. *)
Definition filed (c : Core) : Prop :=
  forall id u r a, ups c !! id = Some u -> (r, a) ∈ ahead u -> P r a.

Lemma filed_shrinks c c' : shrinks c c' -> filed c -> filed c'.
Proof.
  intros Hs Hf id u r a Hu Ha. apply (shrinks_lookup _ _ _ _ Hs) in Hu as (u0 & Hu0 & _ & Hsub).
  exact (Hf id u0 r a Hu0 (Hsub _ Ha)).
Qed.

Lemma filed_drop_all s ids u : filed (s_core s) -> filed (s_core (drop_all s ids u)).
Proof.
  unfold drop_all. revert s. induction ids as [|id ids IH]; intros s Hf; cbn; [done|].
  apply IH. intros i v r a. cbn. intros [_ Hv]%lookup_delete_Some. exact (Hf i v r a Hv).
Qed.

Lemma insert_ahead_sub u r a e : e ∈ ahead (insert_ahead u r a) -> e = (r, a) \/ e ∈ ahead u.
Proof.
  intros He. unfold insert_ahead in He.
  apply (proj2 (trim_high_shrinks _ _)) in He. cbn in He.
  pose proof (bt_insert_Forall (fun e => e = (r, a) \/ e ∈ ahead u) r a (ahead u)) as Hx.
  rewrite !Forall_forall in Hx. apply Hx; auto.
Qed.

Lemma filed_standby c id r p h at_ frame :
  filed c -> P r (mkAhead p h at_ frame) -> filed (on_standby_block c id r p h at_ frame).2.
Proof.
  intros Hf Hp. unfold on_standby_block. destruct (ups c !! id) as [u|] eqn:E; [|done].
  assert (Hgo : forall u', (forall e, e ∈ ahead u' -> e = (r, mkAhead p h at_ frame) \/ e ∈ ahead u) ->
    filed (set_ups c (<[id := u']> (ups c)))).
  { intros u' Hu' i v k a. cbn. intros [[<- <-]|[_ Hv]]%lookup_insert_Some Ha; [|by eapply Hf].
    apply Hu' in Ha as [[= -> ->]|Ha]; [done|by eapply Hf]. }
  destruct (r <=? _).
  - destruct (bt_get r _) as [[h' fat]|].
    + pose proof (compared_shrinks (set_last_rx u at_) (h' =? h) (- lead_ms at_ fat)) as [_ Hsub].
      destruct (compared _ _ _) as [bad u2]. apply Hgo. auto.
    + apply Hgo. auto.
  - apply Hgo. intros e He. by apply insert_ahead_sub in He.
Qed.

Lemma filed_connected s ip prio : filed (s_core s) -> filed (s_core (on_connected s ip prio)).
Proof.
  intros Hf. assert (H2 : filed (add_standby (s_core s) (next_id s) ip)).
  { intros i u r a. cbn. intros [[<- <-]|[_ Hu]]%lookup_insert_Some; [by intros ?%elem_of_nil|].
    exact (Hf i u r a Hu). }
  cbn [on_connected s_core]. destruct (Priority.contains _ _); [|done].
  eapply filed_shrinks; [apply mark_preferred_shrinks|done].
Qed.

Lemma filed_start fo t others ip slot initial now : filed (s_core (session_start fo t others ip slot initial now)).
Proof.
  set (c0 := Core_new 0 ip initial (fo_stall fo) (fo_lag fo) (fo_min_dwell fo)).
  assert (Hf0 : filed c0).
  { intros id u r a. cbn. intros [<- <-]%lookup_singleton_Some Ha. by apply elem_of_nil in Ha. }
  unfold session_start. cbn [s_core]. fold c0. destruct (Priority.contains t ip); [|done].
  eapply filed_shrinks; [apply mark_preferred_shrinks|done].
Qed.
End Filed.

(** ** What reaches the node *)

Section Feed.
Context `{HashOrder} (lz4_decompress : bytes -> option bytes) (hasher : bytes -> Z) (fo : FailoverConfig).
Abbreviation classify := (classify lz4_decompress hasher).

(** The rounds of the block frames sent to the node, in order. *)
Definition out_round (o : Out) : option Z :=
  match o with
  | ToNode f => (fun b => b.1.1) <$> classify f
  | _ => None
  end.

Definition block_rounds (outs : list Out) : list Z := omap out_round outs.

(** A buffered frame is the block it is filed under. *)
Definition frames_ok : Core -> Prop :=
  filed (fun r a => classify (a_frame a) = Some (r, a_parent a, a_hash a)).

(** Readers classify the frames they send, and block rounds stay below [u32::MAX]. *)
Definition input_ok (i : Input) : Prop :=
  match i with
  | IEvent _ (Frame _ f b _) => b = classify f /\ forall r p h, b = Some (r, p, h) -> r < u32_max
  | _ => True
  end.

Definition prefetch_ok (f : bytes) : Prop := forall r p h, classify f = Some (r, p, h) -> r < u32_max.

(** The core moved by a history of its operations that sent [rounds]. *)
Definition moves (c : Core) (rounds : list Z) (c' : Core) : Prop :=
  exists es, Forall event_ok es /\ run_events c es = (rounds, c').

Lemma run_events_app c es es' :
  run_events c (es ++ es') =
  let '(out, c1) := run_events c es in let '(out', c2) := run_events c1 es' in (out ++ out', c2).
Proof.
  revert c. induction es as [|e es IH]; intros c; cbn [run_events app].
  { by destruct (run_events c es'). }
  destruct (exec c e) as [o c1]. rewrite IH. destruct (run_events c1 es) as [o1 c2].
  destruct (run_events c2 es') as [o2 c3]. by rewrite app_assoc.
Qed.

Lemma moves_refl c : moves c [] c.
Proof. exists []. by split. Qed.

Lemma moves_trans c1 l1 c2 l2 c3 : moves c1 l1 c2 -> moves c2 l2 c3 -> moves c1 (l1 ++ l2) c3.
Proof.
  intros (es & H1 & E1) (es' & H2 & E2). exists (es ++ es'). split; [by apply Forall_app|].
  by rewrite run_events_app, E1, E2.
Qed.

Lemma moves_one c e : event_ok e -> moves c (exec c e).1 (exec c e).2.
Proof.
  intros He. exists [e]. split; [by constructor|]. cbn. destruct (exec c e). by rewrite app_nil_r.
Qed.

Lemma moves_ok c l c' : moves c l c' -> core_ok c -> core_ok c'.
Proof.
  intros (es & H1 & E1) Hc. pose proof (run_events_spec c es (fun _ => []) Hc H1) as Hr.
  rewrite E1 in Hr. apply Hr. intros id u _ r Hr0. by apply elem_of_nil in Hr0.
Qed.

Lemma moves_drop_all s ids u : moves (s_core s) [] (s_core (drop_all s ids u)).
Proof.
  unfold drop_all. revert s. induction ids as [|id ids IH]; intros s; cbn; [apply moves_refl|].
  apply (moves_trans _ [] (s_core (drop_up s id u)) []); [|apply IH].
  exact (moves_one (s_core s) (EvRemove id) I).
Qed.

(** A turn's outputs follow the core: all rounds it sent while the session runs, a prefix of them
    if the node's writer ended meanwhile. *)
Definition fed (s : Session) (res : list Out * Flow) : Prop :=
  exists rounds, moves (s_core s) rounds (s_core (flow_state res.2)) /\
    frames_ok (s_core (flow_state res.2)) /\
    block_rounds res.1 `prefix_of` rounds /\
    match res.2 with Running _ => block_rounds res.1 = rounds | Ended _ _ => True end.

Lemma fed_silent s f : frames_ok (s_core s) -> s_core (flow_state f) = s_core s -> fed s ([], f).
Proof.
  intros Hf E. exists []. cbn. rewrite E. split_and!; [apply moves_refl|done|done|by destruct f].
Qed.

Lemma block_rounds_app l l' : block_rounds (l ++ l') = block_rounds l ++ block_rounds l'.
Proof. apply omap_app. Qed.

Lemma fed_queue s s' tn frames rounds :
  moves (s_core s) rounds (s_core s') -> frames_ok (s_core s') ->
  block_rounds (ToNode <$> frames) = rounds ->
  fed s (let '(out, ok) := queue tn frames in
         (out, if ok then Running s' else Ended NODE_WRITER_CLOSED s')).
Proof.
  intros Hm Hf Hr. exists rounds. unfold queue. cbn [fst snd].
  assert (E : flow_state (if (length frames <=? node_takes tn)%nat then Running s'
    else Ended NODE_WRITER_CLOSED s') = s') by (by destruct (_ <=? _)%nat).
  rewrite E. split_and!; [done|done| |].
  - rewrite <- Hr. exists (block_rounds (ToNode <$> drop (node_takes tn) frames)).
    by rewrite <- block_rounds_app, <- fmap_app, take_drop.
  - destruct (length frames <=? node_takes tn)%nat eqn:El; [|done].
    apply Nat.leb_le in El. by rewrite take_ge by lia.
Qed.

Lemma plausible_pos r tip : is_plausible_mainnet_round r tip = true -> 0 < r.
Proof. unfold is_plausible_mainnet_round, MIN_PLAUSIBLE_MAINNET_ROUND. intros Hp. zify_bool. lia. Qed.

Lemma active_moves c r h t :
  0 < r < u32_max ->
  let '(fwd, _, c') := on_active_block c r h t in
  moves c (if fwd then [r] else []) c' /\ shrinks c c'.
Proof.
  intros Hr. pose proof (moves_one c (EvActive r h t) Hr) as Hm. cbn [exec] in Hm.
  pose proof (on_active_shrinks c r h t) as Hs.
  destruct (on_active_block c r h t) as [[fwd bad] c']. split; [exact Hm|apply Hs].
Qed.

Lemma block_rounds_one f r p h : classify f = Some (r, p, h) -> block_rounds [ToNode f] = [r].
Proof. intros E. unfold block_rounds. cbn. by rewrite E. Qed.

Lemma block_rounds_control f : classify f = None -> block_rounds [ToNode f] = [].
Proof. intros E. unfold block_rounds. cbn. by rewrite E. Qed.

Lemma forward_active_fed s tn frame r p h at_ :
  frames_ok (s_core s) -> classify frame = Some (r, p, h) -> 0 < r < u32_max ->
  fed s (forward_active_block s tn frame r h at_).
Proof.
  intros Hf Hcl Hr. unfold forward_active_block. destruct (_ <? _); [|by apply fed_silent].
  pose proof (active_moves (s_core s) r h at_ Hr) as Ha.
  destruct (on_active_block _ _ _ _) as [[fwd bad] c]. destruct Ha as (A1 & A2).
  set (s1 := drop_all _ _ _).
  assert (Hm : moves (s_core s) (if fwd then [r] else []) (s_core s1)).
  { rewrite <- (app_nil_r (if fwd then _ else _)). eapply moves_trans; [exact A1|].
    apply (moves_drop_all (set_core s c)). }
  assert (Hf1 : frames_ok (s_core s1)) by (apply filed_drop_all; by eapply filed_shrinks).
  destruct fwd.
  - apply (fed_queue s s1 tn [frame] [r]); [done|done|]. by eapply block_rounds_one.
  - exists []. by split_and!.
Qed.

Lemma standby_fed s id r p h at_ frame :
  frames_ok (s_core s) -> classify frame = Some (r, p, h) -> r < u32_max ->
  let c := (on_standby_block (s_core s) id r p h at_ frame).2 in
  moves (s_core s) [] c /\ frames_ok c.
Proof.
  intros Hf Hcl Hr c. split; [exact (moves_one (s_core s) (EvStandby id r p h at_ frame) Hr)|].
  by apply filed_standby.
Qed.

Lemma moves_fed s s' : moves (s_core s) [] (s_core s') -> frames_ok (s_core s') -> fed s ([], Running s').
Proof. intros Hm Hf. exists []. by split_and!. Qed.

Lemma drop_up_fed s id u : frames_ok (s_core s) -> fed s ([], Running (drop_up s id u)).
Proof.
  intros Hf. apply moves_fed; [exact (moves_drop_all s [id] u)|exact (filed_drop_all _ s [id] u Hf)].
Qed.

Lemma mark_dead_core s now why : s_core (mark_dead s now why) = s_core s.
Proof. unfold mark_dead. by destruct (active_dead s). Qed.

Lemma on_frame_fed s tn id frame block at_ :
  frames_ok (s_core s) -> block = classify frame -> prefetch_ok frame ->
  fed s (on_frame s tn id frame block at_).
Proof.
  intros Hf -> Hr. unfold on_frame, prefetch_ok in *. destruct (lives s !! id) as [slot|]; [|by apply fed_silent].
  destruct (classify frame) as [[[r p] h]|] eqn:Hcl.
  2:{ destruct (_ && _); [|by apply fed_silent].
      apply (fed_queue s s tn [frame] []); [apply moves_refl|done|by apply block_rounds_control]. }
  specialize (Hr r p h eq_refl).
  destruct (negb (is_plausible_mainnet_round r _) || _) eqn:Ep.
  { destruct (id =? _); [apply fed_silent; [done|apply mark_dead_core]|].
    destruct (ups (s_core s) !! id); [by apply drop_up_fed|by apply fed_silent]. }
  apply orb_false_iff in Ep as [Ep _]. apply negb_false_iff, plausible_pos in Ep.
  destruct (id =? _).
  - destruct (active_dead s); [by apply fed_silent|]. destruct (on_round _ _ _) as [p'|]; [|by apply fed_silent].
    apply (forward_active_fed (set_progress s p') tn frame r p h at_ Hf Hcl). lia.
  - destruct (standby_fed s id r p h at_ frame Hf Hcl Hr) as [Hm Hc].
    destruct (on_standby_block _ _ _ _ _ _ _) as [v c]. cbn [snd] in *. destruct v; [by apply moves_fed|].
    apply moves_fed.
    + apply (moves_trans _ [] c []); [exact Hm|]. exact (moves_drop_all (set_core s c) [id] (Some 0)).
    + exact (filed_drop_all _ (set_core s c) [id] (Some 0) Hc).
Qed.

Lemma on_connected_fed s ip prio :
  frames_ok (s_core s) -> fed s ([], Running (on_connected s ip prio)).
Proof.
  intros Hf.
  assert (H1 : moves (s_core s) [] (add_standby (s_core s) (next_id s) ip))
    by exact (moves_one (s_core s) (EvAdd (next_id s) ip) I).
  apply moves_fed; [|by apply filed_connected]. cbn [on_connected s_core].
  destruct (Priority.contains _ _); [|done]. eapply (moves_trans _ []); [exact H1|].
    exact (moves_one _ (EvPrefer (next_id s)) I).
Qed.

Lemma on_event_fed s tn ev :
  frames_ok (s_core s) -> input_ok (IEvent tn ev) -> fed s (on_event s tn ev).
Proof.
  intros Hf Hi. destruct ev as [id frame block at_|id reason|ip prio| |b|reason]; cbn [on_event].
  - destruct Hi as [-> Hr]. by apply on_frame_fed.
  - unfold on_closed. destruct (id =? _); [apply fed_silent; [done|apply mark_dead_core]|by apply drop_up_fed].
  - case_decide; [by apply on_connected_fed|by apply fed_silent].
  - case_decide; by apply fed_silent.
  - unfold on_node_bytes. destruct (lives s !! _); [|by apply fed_silent].
    exists []. cbn. assert (E : s_core (if active_writes tn then s
      else mark_dead s (tn_now tn) "active write failed") = s_core s)
      by (destruct (active_writes tn); [done|apply mark_dead_core]).
    rewrite E. split_and!; [apply moves_refl|done|done|done].
  - by apply fed_silent.
Qed.

(** The frames a switch replays are blocks, in the order of their rounds. *)
Lemma replayed_rounds c id u :
  core_ok c -> frames_ok c -> ups c !! id = Some u -> can_continue u (last_forwarded c) = true ->
  block_rounds (ToNode <$> map (fun e => a_frame e.2) (replayed c id)) = map fst (replayed c id).
Proof.
  intros Hc Hf Hu Hcc. destruct (replayed_spec c id u Hc Hu Hcc) as (_ & _ & Hin).
  induction Hin as [|[r a] l [Ha _] _ IH]; [done|]. cbn [map fmap list_fmap fst snd].
  unfold block_rounds. cbn [omap list_omap out_round].
  rewrite (Hf id u r a Hu Ha). cbn. f_equal. exact IH.
Qed.

Lemma switch_moves c id now frames bad c' :
  core_ok c -> frames_ok c -> switch_to c id now = Some (frames, bad, c') ->
  moves c (block_rounds (ToNode <$> frames)) c' /\ frames_ok c'.
Proof.
  intros Hc Hf Hs. pose proof (moves_one c (EvSwitch id now) I) as Hm. cbn [exec] in Hm. rewrite Hs in Hm.
  destruct (switch_to_spec _ _ _ _ _ _ Hc Hs) as (u & Hu & Hd & -> & _).
  rewrite (replayed_rounds c id u Hc Hf Hu) by (unfold can_continue; lia).
  split; [exact Hm|]. eapply filed_shrinks; [|done]. by eapply switch_to_shrinks.
Qed.

Lemma on_switch_core s ip slot : s_core (on_switch s ip slot) = s_core s.
Proof. unfold on_switch. destruct slot; [done|]. by destruct (try_acquire _ _) as [[? ?]|]. Qed.

Lemma tick_switch_fed s tn : core_ok (s_core s) -> frames_ok (s_core s) -> fed s (tick_switch s tn).
Proof.
  intros Hc Hf. unfold tick_switch. destruct (pick_switch _ _ _) as [[id reason]|]; [|by apply fed_silent].
  destruct (switch_to _ _ _) as [[[frames bad] c]|] eqn:Es; [|by apply fed_silent].
  destruct (switch_moves _ _ _ _ _ _ Hc Hf Es) as [Hm Hfc].
  pose proof (fed_queue s (set_core s c) tn frames _ Hm Hfc eq_refl) as (rounds & F1 & F2 & F3 & F4).
  revert F1 F2 F3 F4. unfold queue. destruct (length frames <=? node_takes tn)%nat; cbn [negb].
  2:{ intros. by exists rounds. }
  cbn [fst snd flow_state]. intros F1 F2 F3 F4.
  destruct (take_slot _ _) as [slot s2] eqn:Et.
  assert (E2 : s_core s2 = c) by (unfold take_slot in Et; by injection Et as _ <-).
  set (s3 := on_switch s2 _ slot). assert (E3 : s_core s3 = c) by (unfold s3; by rewrite on_switch_core).
  set (s4 := cool_ip _ _ _).
  assert (M4 : moves (s_core s3) [] (s_core s4) /\ frames_ok (s_core s4)).
  { split; [exact (moves_drop_all s3 [_] None)|]. apply (filed_drop_all _ s3 [_] None). by rewrite E3. }
  exists rounds. cbn [fst snd flow_state].
  assert (Eb : block_rounds ((ToNode <$> take (node_takes tn) frames) ++
    [Switched (default "?"%string (ip_of (s_core s) (active (s_core s)))) (default "?"%string (ip_of c id)) reason]) =
    block_rounds (ToNode <$> take (node_takes tn) frames)) by (by rewrite block_rounds_app, app_nil_r).
  rewrite Eb. split_and!; [|apply filed_drop_all, M4|done|done].
  rewrite <- (app_nil_r rounds). apply (moves_trans _ _ c); [exact F1|].
  apply (moves_trans _ [] (s_core s4) []); [rewrite <- E3; apply M4|apply moves_drop_all].
Qed.

Lemma fed_app s s1 out1 out2 f :
  fed s (out1, Running s1) -> fed s1 (out2, f) -> fed s (out1 ++ out2, f).
Proof.
  intros (r1 & M1 & _ & _ & E1) (r2 & M2 & F2 & P2 & E2). cbn [fst snd flow_state] in *.
  exists (r1 ++ r2). cbn [fst snd]. rewrite block_rounds_app, E1.
  split_and!; [by eapply moves_trans|done|by apply prefix_app|]. destruct f; [by rewrite E2|done].
Qed.

Lemma fed_ok s out s1 :
  fed s (out, Running s1) -> core_ok (s_core s) -> core_ok (s_core s1) /\ frames_ok (s_core s1).
Proof. intros (r & M & F & _) Hc. split; [by eapply moves_ok|done]. Qed.

Lemma tick_start_fed s tn :
  frames_ok (s_core s) -> fed s ([], Running (tick_blacklist (tick_stalled s tn) tn)).
Proof.
  intros Hf. assert (Es : s_core (tick_stalled s tn) = s_core s) by (unfold tick_stalled; by destruct (_ && _)).
  unfold tick_blacklist. destruct (_ =? _); [by apply fed_silent|].
  set (s1 := set_seen _ _). set (s2 := match ip_of _ _ with Some ip => _ | None => s1 end).
  assert (E2 : s_core s2 = s_core s).
  { unfold s2. destruct (ip_of _ _); [|done]. destruct (Blacklist.contains _ _); [|done].
    by rewrite mark_dead_core. }
  apply moves_fed; [rewrite <- E2; apply moves_drop_all|apply filed_drop_all; by rewrite E2].
Qed.

Lemma tick_rotate_fed s tn : frames_ok (s_core s) -> fed s ([], Running (tick_refill fo (tick_rotate fo s tn) tn)).
Proof.
  intros Hf. assert (E : s_core (tick_refill fo (tick_rotate fo s tn) tn) = s_core (tick_rotate fo s tn))
    by (unfold tick_refill; by destruct (_ && _)).
  assert (Hr : fed s ([], Running (tick_rotate fo s tn))).
  { unfold tick_rotate. destruct (_ && _); [|by apply fed_silent].
    destruct (slowest_standby _ _ _) as [[id m]|]; [|by apply fed_silent].
    exact (drop_up_fed (set_rotated s (tn_now tn)) id _ Hf). }
  destruct Hr as (r & Hr). exists r. cbn [snd flow_state] in *. by rewrite E.
Qed.

Lemma on_tick_fed s tn : core_ok (s_core s) -> frames_ok (s_core s) -> fed s (on_tick fo s tn).
Proof.
  intros Hc Hf. pose proof (tick_start_fed s tn Hf) as H1. unfold on_tick.
  set (s1 := tick_blacklist _ _) in *. destruct (fed_ok _ _ _ H1 Hc) as [Hc1 Hf1].
  pose proof (tick_switch_fed s1 tn Hc1 Hf1) as H2.
  destruct (tick_switch s1 tn) as [out [s2|reason s2]].
  2:{ exact (fed_app _ _ [] _ _ H1 H2). }
  destruct (fed_ok _ _ _ H2 Hc1) as [Hc2 Hf2]. rewrite <- (app_nil_l out).
  destruct (tick_dead s2 tn) as [reason|].
  - rewrite <- (app_nil_r out). eapply fed_app; [exact H1|]. eapply fed_app; [exact H2|].
    by apply fed_silent.
  - rewrite <- (app_nil_r out). eapply fed_app; [exact H1|]. eapply fed_app; [exact H2|].
    by apply tick_rotate_fed.
Qed.

Lemma step_fed s i :
  core_ok (s_core s) -> frames_ok (s_core s) -> input_ok i -> fed s (step fo s i).
Proof.
  intros Hc Hf Hi. destruct i as [tn ev|reason|tn|e|o]; cbn [step].
  - by apply on_event_fed.
  - by apply fed_silent.
  - by apply on_tick_fed.
  - destruct (dial_step _ _ _) as [t d]. by apply fed_silent.
  - destruct (op_step _ _) as [t gs]. by apply fed_silent.
Qed.

Lemma run_fed s ins :
  core_ok (s_core s) -> frames_ok (s_core s) -> Forall input_ok ins -> fed s (run fo s ins).
Proof.
  revert s. induction ins as [|i ins IH]; intros s Hc Hf Hi; cbn [run]; [by apply fed_silent|].
  apply Forall_cons_1 in Hi as [Hi Hins]. pose proof (step_fed s i Hc Hf Hi) as H1.
  destruct (step fo s i) as [out [s1|reason s1]]; [|done].
  destruct (fed_ok _ _ _ H1 Hc) as [Hc1 Hf1]. specialize (IH s1 Hc1 Hf1 Hins).
  destruct (run fo s1 ins) as [out' f]. by eapply fed_app.
Qed.

Lemma prefetched_fed s tns k frames :
  core_ok (s_core s) -> frames_ok (s_core s) -> Forall prefetch_ok frames ->
  fed s (prefetched lz4_decompress hasher s tns k frames).
Proof.
  revert s k. induction frames as [|frame frames IH]; intros s k Hc Hf Hi; cbn [prefetched];
    [by apply fed_silent|].
  apply Forall_cons_1 in Hi as [Hi Hfr].
  assert (Hgo : forall (q : list Out * bool) s1,
    fed s (let '(out, ok) := q in (out, if ok then Running s1 else Ended NODE_WRITER_CLOSED s1)) ->
    fed s (let '(out, ok) := q in if ok then
       let '(out', f) := prefetched lz4_decompress hasher s1 tns (S k) frames in (out ++ out', f)
     else (out, Ended NODE_WRITER_CLOSED s1))).
  { intros [out ok] s1 H1. destruct ok; [|done]. destruct (fed_ok _ _ _ H1 Hc) as [Hc1 Hf1].
    specialize (IH s1 (S k) Hc1 Hf1 Hfr). destruct (prefetched _ _ _ _ _ _) as [out' f].
    by eapply fed_app. }
  unfold prefetch_ok in Hi. destruct (classify frame) as [[[r p] h]|] eqn:Hcl.
  2:{ apply (Hgo (queue (tns k) [frame])), (fed_queue s s (tns k) [frame] []);
        [apply moves_refl|done|by apply block_rounds_control]. }
  specialize (Hi r p h eq_refl). destruct (negb _) eqn:Ep; [by apply fed_silent|].
  apply negb_false_iff, plausible_pos in Ep.
  destruct (on_round _ _ _) as [p'|]; [|by apply fed_silent].
  destruct (_ <? _); [|by apply (Hgo ([], true)), fed_silent].
  pose proof (active_moves (s_core (set_progress s p')) r h (tn_now (tns k)) ltac:(lia)) as Ha.
  destruct (on_active_block _ _ _ _) as [[fwd bad] c]. destruct Ha as [A1 A2].
  assert (Hfc : frames_ok c) by (by eapply filed_shrinks). destruct fwd.
  - apply (Hgo (queue (tns k) [frame])), (fed_queue s _ (tns k) [frame] [r]); [done|done|].
    by eapply block_rounds_one.
  - by apply (Hgo ([], true)), moves_fed.
Qed.

Lemma session_start_core t others ip slot initial now :
  0 <= initial < u32_max ->
  let c := s_core (session_start fo t others ip slot initial now) in
  core_ok c /\ frames_ok c /\ last_forwarded c = initial.
Proof.
  intros Hi c. set (c0 := Core_new 0 ip initial (fo_stall fo) (fo_lag fo) (fo_min_dwell fo)).
  pose proof (core_new_ok 0 ip initial (fo_stall fo) (fo_lag fo) (fo_min_dwell fo) Hi) as H0.
  split; [|split; [apply filed_start|]]; unfold c, session_start; cbn [s_core]; fold c0;
    (destruct (Priority.contains t ip); [|done]).
  2:{ unfold mark_preferred. by destruct (ups c0 !! 0). }
  pose proof (moves_one c0 (EvPrefer 0) I) as Hm. cbn [exec fst snd] in Hm.
  by eapply moves_ok.
Qed.

Lemma serve_fed s frames tns ins :
  core_ok (s_core s) -> frames_ok (s_core s) -> Forall prefetch_ok frames -> Forall input_ok ins ->
  fed s (serve_failover lz4_decompress hasher fo s frames tns ins).
Proof.
  intros Hc Hf Hp Hi. unfold serve_failover. pose proof (prefetched_fed s tns 0 frames Hc Hf Hp) as H1.
  destruct (prefetched _ _ _ _ _ _) as [out [s1|reason s1]]; [|done].
  destruct (fed_ok _ _ _ H1 Hc) as [Hc1 Hf1]. pose proof (run_fed s1 ins Hc1 Hf1 Hi) as H2.
  destruct (run fo s1 ins) as [out' f]. by eapply fed_app.
Qed.

Lemma StronglySorted_prefix (l l' : list Z) :
  l `prefix_of` l' -> StronglySorted Z.lt l' -> StronglySorted Z.lt l.
Proof. intros [k ->] Hs. by apply StronglySorted_app in Hs as (_ & ? & _). Qed.
End Feed.

(** ** A dead active *)

Section DeadActive.
Context `{HashOrder} (fo : FailoverConfig).

(** The session still has the same active, dead since the same time. *)
Definition still_dead (s s' : Session) : Prop :=
  active_dead s' = active_dead s /\ active (s_core s') = active (s_core s).

Lemma drop_all_dead s ids u : still_dead s (drop_all s ids u).
Proof.
  unfold drop_all. revert s. induction ids as [|id ids IH]; intros s; cbn; [done|].
  exact (IH (drop_up s id u)).
Qed.

Lemma drop_all_switches s ids u : switches (drop_all s ids u) = switches s.
Proof. unfold drop_all. revert s. induction ids as [|id ids IH]; intros s; cbn; [done|]. by rewrite IH. Qed.

Lemma mark_dead_dead s now why d : active_dead s = Some d -> mark_dead s now why = s.
Proof. unfold mark_dead. by intros ->. Qed.

Lemma on_event_dead s tn ev d :
  active_dead s = Some d ->
  match on_event s tn ev with
  | (outs, Running s') => still_dead s s' /\ Forall (fun o => forall f, o <> ToNode f) outs
  | (outs, Ended _ _) => outs = []
  end.
Proof.
  intros Hd. destruct ev as [id frame block at_|id reason|ip prio| |b|reason]; cbn [on_event].
  - unfold on_frame. destruct (lives s !! id); [|done]. rewrite Hd.
    destruct block as [[[r p] h]|]; [|by rewrite andb_false_r].
    destruct (negb _ || _).
    { destruct (id =? _); [by rewrite (mark_dead_dead _ _ _ _ Hd)|]. by destruct (ups (s_core s) !! id). }
    destruct (id =? _); [done|].
    assert (Ha : active (on_standby_block (s_core s) id r p h at_ frame).2 = active (s_core s)).
    { unfold on_standby_block. repeat case_match; done. }
    destruct (on_standby_block _ _ _ _ _ _ _) as [v c]. cbn in Ha. by destruct v.
  - unfold on_closed. destruct (id =? _); [|done]. by rewrite (mark_dead_dead _ _ _ _ Hd).
  - case_decide; [|done]. split; [|done]. split; [done|]. cbn.
    destruct (Priority.contains _ _); [|done]. by destruct (mark_preferred_shrinks (add_standby (s_core s) (next_id s) ip) (next_id s)) as [_ ->].
  - by case_decide.
  - unfold on_node_bytes. destruct (lives s !! _); [|done].
    rewrite (mark_dead_dead _ _ _ _ Hd). destruct (active_writes tn); (split; [done|]); by repeat constructor.
  - done.
Qed.

Lemma tick_start_dead s tn d :
  active_dead s = Some d -> still_dead s (tick_blacklist (tick_stalled s tn) tn).
Proof.
  intros Hd. unfold tick_stalled. rewrite Hd. cbn [bool_decide option_eq_None_dec andb].
  unfold tick_blacklist. destruct (_ =? _); [done|].
  set (s2 := match ip_of _ _ with Some ip => _ | None => _ end).
  assert (E2 : s2 = set_seen s (Blacklist.version (bl_now tn))).
  { unfold s2. destruct (ip_of _ _); [|done]. destruct (Blacklist.contains _ _); [|done].
    by apply (mark_dead_dead _ _ _ d). }
  rewrite E2. apply (drop_all_dead (set_seen s _)).
Qed.

(** The session got a new active: another upstream, whose replayed blocks come first. *)
Definition handed_over (s s' : Session) (outs : list Out) : Prop :=
  active_dead s' = None /\ active (s_core s') <> active (s_core s) /\
  switches s' = switches s + 1 /\ exists f outs', outs = ToNode f :: outs'.

Lemma tick_start_core s tn :
  core_ok (s_core s) -> core_ok (s_core (tick_blacklist (tick_stalled s tn) tn)).
Proof.
  intros Hc. assert (Es : s_core (tick_stalled s tn) = s_core s) by (unfold tick_stalled; by destruct (_ && _)).
  unfold tick_blacklist. destruct (_ =? _); [by rewrite Es|].
  set (s2 := match ip_of _ _ with Some ip => _ | None => _ end).
  assert (E2 : s_core s2 = s_core s).
  { unfold s2. destruct (ip_of _ _); [|done]. destruct (Blacklist.contains _ _); [|done].
    by rewrite mark_dead_core. }
  eapply moves_ok; [apply moves_drop_all|by rewrite E2].
Qed.

Lemma tick_start_switches s tn : switches (tick_blacklist (tick_stalled s tn) tn) = switches s.
Proof.
  assert (Es : switches (tick_stalled s tn) = switches s) by (unfold tick_stalled; by destruct (_ && _)).
  unfold tick_blacklist. destruct (_ =? _); [done|]. rewrite drop_all_switches.
  destruct (ip_of _ _); [|done]. destruct (Blacklist.contains _ _); [|done].
  unfold mark_dead. by destruct (active_dead _).
Qed.

(** What a switch does, once one is picked. *)
Lemma tick_switch_dead s tn :
  core_ok (s_core s) ->
  match tick_switch s tn with
  | (outs, Running s') =>
      (s' = s /\ outs = [] /\
       pick_switch (s_core s) (tn_now tn) (bool_decide (is_Some (active_dead s))) = None) \/
      handed_over s s' outs
  | (_, Ended reason _) => reason = NODE_WRITER_CLOSED
  end.
Proof.
  intros Hc. unfold tick_switch. destruct (pick_switch _ _ _) as [[id reason]|] eqn:Ep; [|by left].
  pose proof (pick_switch_other _ _ _ _ _ Ep) as Hne.
  assert (Hsome : is_Some (switch_to (s_core s) id (tn_now tn))) by (by eapply pick_switch_switches).
  destruct (switch_to _ _ _) as [[[frames bad] c]|] eqn:Es; [|by destruct Hsome].
  destruct (switch_to_spec _ _ _ _ _ _ Hc Es) as (u & _ & _ & Hfr & Hrep & _ & Hact & _).
  unfold queue. destruct (length frames <=? node_takes tn)%nat eqn:El; [|done]. cbn [negb].
  destruct (take_slot _ _) as [slot s2] eqn:Et. right.
  match goal with |- context [drop_all ?x ?y ?z] => destruct (drop_all_dead x y z) as [D1 D2] end.
  unfold handed_over. rewrite D1, D2, drop_all_switches. unfold take_slot in Et. injection Et as _ <-.
  split_and!.
  - unfold on_switch. destruct slot; [done|]. by destruct (try_acquire _ _) as [[? ?]|].
  - cbn. rewrite on_switch_core. cbn. congruence.
  - unfold on_switch. destruct slot; [done|]. by destruct (try_acquire _ _) as [[? ?]|].
  - apply Nat.leb_le in El. rewrite take_ge by lia. rewrite Hfr. destruct (replayed _ _); [done|]. cbn. eauto.
Qed.

Lemma tick_end_dead s tn :
  still_dead s (tick_refill fo (tick_rotate fo s tn) tn) /\
  switches (tick_refill fo (tick_rotate fo s tn) tn) = switches s.
Proof.
  assert (Hr : still_dead s (tick_rotate fo s tn) /\ switches (tick_rotate fo s tn) = switches s).
  { unfold tick_rotate. destruct (_ && _); [|done]. by destruct (slowest_standby _ _ _) as [[id m]|]. }
  unfold tick_refill. destruct (_ && _); exact Hr.
Qed.

(** No standby can take over: none is verified and holds the node's next block. *)
Definition no_successor (c : Core) : Prop :=
  last_forwarded c = 0 \/ forall id u fa, ups c !! id = Some u -> ~ eligible c (id, u) fa.

Lemma pick_switch_none c now : pick_switch c now true = None -> no_successor c.
Proof.
  unfold pick_switch. destruct (Z.eqb_spec (last_forwarded c) 0); [by left|]. intros Hn. right.
  intros id u fa Hu Hel. pose proof (pick_fold_inv c now true) as (_ & _ & _ & H4 & _).
  apply (H4 (id, u) fa); [by apply elem_of_iter_order|done|by left|].
  by destruct (stall_best _) as [[[[? ?] ?] ?]|].
Qed.

End DeadActive.

(** ** Properties *)

Section Properties.
Context `{HashOrder} (lz4_decompress : bytes -> option bytes) (hasher : bytes -> Z) (fo : FailoverConfig).

(** C5: the session refines the failover core, and the node sees one increasing chain. Whatever the
    peers, the node, the dial race and the other sessions do, the block rounds the node is sent over
    a whole failover session (prefetched frames, the active's blocks, replays of every switch) are
    the rounds some history of core operations sends, in order (a prefix if the node's writer went
    away during a turn); so they are strictly increasing and above the round the session started
    from. *)
Theorem failover_session_refines_core (t : PriorityTier) (others : list nat) (ip : string)
    (slot : option nat) (initial now : Z) (frames : list bytes) (tns : nat -> Turn) (ins : list Input) :
  0 <= initial < u32_max ->
  Forall (prefetch_ok lz4_decompress hasher) frames -> Forall (input_ok lz4_decompress hasher) ins ->
  let s0 := session_start fo t others ip slot initial now in
  let '(outs, f) := serve_failover lz4_decompress hasher fo s0 frames tns ins in
  let sent := block_rounds lz4_decompress hasher outs in
  (exists es rounds, Forall event_ok es /\
     run_events (s_core s0) es = (rounds, s_core (flow_state f)) /\ sent `prefix_of` rounds /\
     match f with Running _ => sent = rounds | Ended _ _ => True end) /\
  StronglySorted Z.lt (initial :: sent).
Proof.
  intros Hl Hp Hi s0. destruct (session_start_core lz4_decompress hasher fo t others ip slot initial now Hl)
    as (Hc & Hf & Hlast).
  pose proof (serve_fed lz4_decompress hasher fo s0 frames tns ins Hc Hf Hp Hi) as Hfed.
  destruct (serve_failover _ _ _ _ _ _ _) as [outs f].
  destruct Hfed as (rounds & (es & He & Er) & _ & Hpre & Heq). cbn [fst snd] in *.
  split; [by exists es, rounds|].
  pose proof (run_events_spec (s_core s0) es (fun _ => []) Hc He) as Hr. rewrite Er in Hr.
  destruct Hr as (_ & Hs & _); [intros id u _ r Hr; by apply elem_of_nil in Hr|].
  fold s0 in Hlast. rewrite Hlast in Hs. eapply StronglySorted_prefix; [|exact Hs].
  by apply prefix_cons.
Qed.

(** C14: the session's bookkeeping stays consistent, through every event, switch, drop and exit:
    exactly the upstreams of the core have a connection, the active is one of them, ids are never
    reused, at most one dial race runs and [connecting] says whether it does, no address is
    connected twice or dialed while connected, and the priority tier counts exactly the slots held
    by other sessions, the gateway's pin, the standbys and the dial race. When the session is over
    only the pin's and a race's slots are left. *)
Theorem failover_session_well_formed (t : PriorityTier) (others : list nat) (ip : string)
    (slot : option nat) (initial now : Z) (frames : list bytes) (tns : nat -> Turn) (ins : list Input) :
  counted (t, others ++ option_list slot) ->
  let s0 := session_start fo t others ip slot initial now in
  let s := flow_state (serve_failover lz4_decompress hasher fo s0 frames tns ins).2 in
  session_ok s /\
  let s' := (finish "" s).2 in
  counted (s_tier s', s_others s' ++ option_list (pin s').2 ++ dial_slots (s_dial s')).
Proof.
  intros Hc s0 s. assert (Hs : session_ok s).
  { pose proof (session_start_ok fo t others ip slot initial now Hc) as H0. fold s0 in H0.
    pose proof (prefetched_ok lz4_decompress hasher s0 tns 0 frames H0) as H1.
    unfold s, serve_failover. destruct (prefetched _ _ _ _ _ _) as [out [s1|reason s1]]; [|exact H1].
    pose proof (run_session_ok fo s1 ins H1) as H2. by destruct (run fo s1 ins) as [out' f]. }
  split; [exact Hs|]. destruct Hs as (_ & _ & Hs). cbn. apply counted_release_all.
  eapply counted_perm; [|exact Hs].
  assert (Hp : omap snd ((fun e : Z * option nat => (EmptyString, e.2)) <$> iter_order (lives s)) ≡ₚ held_slots (lives s)).
  { unfold held_slots. rewrite <- (iter_order_perm _ (lives s)).
    induction (iter_order (lives s)) as [|[i sl] l IH]; cbn; [done|]. by destruct sl; rewrite IH. }
  rewrite Hp. solve_Permutation.
Qed.

(** C11: a dead active is replaced or the session ends. Once the active is marked dead (closed,
    silent, stalled, jumped, lagging, blacklisted) no frame of it reaches the node any more and only
    a tick can change that: a tick hands the node over to another upstream, whose buffered blocks it
    replays; or the node's writer is gone; or no standby is verified and holds the node's next block,
    and then the session goes on waiting if less than [ACTIVE_DEAD_GRACE] has passed since the death
    and ends with the recorded reason otherwise. *)
Theorem dead_active_handed_over_or_ends (s : Session) (t : Z) (why : string) :
  core_ok (s_core s) -> active_dead s = Some (t, why) ->
  (forall tn ev, match on_event s tn ev with
     | (outs, Running s') => still_dead s s' /\ Forall (fun o => forall f, o <> ToNode f) outs
     | (outs, Ended _ _) => outs = []
     end) /\
  (forall tn, let c := s_core (tick_blacklist (tick_stalled s tn) tn) in
     match on_tick fo s tn with
     | (outs, Running s') =>
         handed_over s s' outs \/
         (still_dead s s' /\ outs = [] /\ no_successor c /\ since (tn_now tn) t < ACTIVE_DEAD_GRACE)
     | (_, Ended reason _) =>
         reason = NODE_WRITER_CLOSED \/
         (reason = DEAD_TEXT +:+ why /\ no_successor c /\ ACTIVE_DEAD_GRACE <= since (tn_now tn) t)
     end).
Proof.
  intros Hc Hd. split; [intros tn ev; by eapply on_event_dead|]. intros tn. cbn zeta. unfold on_tick.
  destruct (tick_start_dead s tn _ Hd) as [D1 D2].
  assert (Hc1 : core_ok (s_core (tick_blacklist (tick_stalled s tn) tn))) by (by apply tick_start_core).
  assert (Sw : switches (tick_blacklist (tick_stalled s tn) tn) = switches s) by (by apply tick_start_switches).
  set (s1 := tick_blacklist _ _) in *. rewrite Hd in D1.
  pose proof (tick_switch_dead s1 tn Hc1) as Hs. rewrite D1 in Hs.
  destruct (tick_switch s1 tn) as [outs [s2|reason s2]]; [|by left].
  destruct (tick_end_dead fo s2 tn) as [[E1 E2] E3].
  destruct Hs as [(-> & -> & Hp)|(H1 & H2 & H3 & H4)].
  - apply pick_switch_none in Hp. unfold tick_dead. rewrite D1.
    destruct (ACTIVE_DEAD_GRACE <=? since (tn_now tn) t) eqn:Eg; zify_bool; right; [done|].
    split_and!; [|done|done|lia]. split; congruence.
  - unfold tick_dead. rewrite H1. left. split_and!; [congruence|congruence|lia|done].
Qed.

(** Standbys are dialed only where the session may. When the set is refilled the candidates are
    distinct, at most three batches, none of them connected in this session or cooling down from it;
    each is a usable priority peer or a pool peer at a time the tier allows the pool; no batch is
    launched while another race runs or before the retry time; and a priority peer is dialed only
    with one of its slots. *)
Theorem standby_dials_are_allowed (s : Session) (tn : Turn) (todo : list string)
    (set : list (string * option nat)) :
  session_ok s -> s_dial s = Idle -> s_dial (tick_refill fo s tn) = Racing todo set ->
  NoDup todo /\ (length todo <= 12)%nat /\ set = [] /\ todo <> [] /\
  connecting s = false /\ next_connect s <= tn_now tn /\ standby_count (s_core s) < standbys fo /\
  (forall ip, ip ∈ todo ->
     (forall id, ip_of (s_core s) id <> Some ip) /\
     (forall u, s_cooldown s !! ip = Some u -> u <= tn_now tn) /\
     let _ := filter_of (bl_now tn) in
     (ip ∈ candidates_at (s_tier s) (tn_now tn) \/
      ip ∈ pool_now tn /\ pool_allowed (s_tier s) (tn_now tn) = true)) /\
  (forall t ip slot, (ip, slot) ∈ (spawn_batch t (take STANDBY_RACE todo)).1 ->
     slot = index t ip \/ (slot = None /\ Priority.contains t ip = false)).
Proof.
  intros Hs Hd. unfold tick_refill. destruct (_ && _) eqn:E; [|congruence].
  apply andb_true_iff in E as [E E3]. apply andb_true_iff in E as [E1 E2]. zify_bool. cbn [s_dial].
  destruct (decide (refill_candidates s tn = [])) as [Hn|Hn];
    [rewrite bool_decide_eq_true_2 by done; congruence|].
  rewrite bool_decide_eq_false_2 by done. intros [= <- <-].
  split_and!; try done; try lia.
  - apply refill_candidates_NoDup.
  - unfold refill_candidates. rewrite length_take. apply Nat.le_min_l.
  - intros ip Hin. destruct (refill_candidates_spec s tn ip (proj1 Hs) Hin) as (R1 & R2 & R3).
    split_and!; [|done|done]. intros id Hid. apply R1, elem_of_in_use; [apply Hs|].
    unfold ip_of in Hid. destruct (ups (s_core s) !! id) as [u|] eqn:Eu; [|done]. injection Hid as <-. eauto.
  - intros t ip slot. apply spawn_batch_slot.
Qed.
End Properties.

(** A session with one standby: both peers deliver rounds 2000000001 to 2000000003, the standby goes
    on with the next two, the active's stream ends, and the next tick switches. *)
Definition example_hasher (b : bytes) : Z := foldl Z.add 0 b.
Definition example_fo : FailoverConfig :=
  failover_from_env (fun k => if decide (k = "HYPERSYNC_FAILOVER_STANDBYS"%string) then Some " 1"%string else None).
Definition example_block (r : Z) : bytes :=
  make_frame (Z.of_nat (length (block_payload r))) 1 (block_payload r).
Definition example_turn (now : Z) : Turn := mkTurn now 0 0 bl_initial ["2.2.2.2"]%string 1024 true.
Definition example_frame (id r now : Z) : Input :=
  IEvent (example_turn now) (Frame id (example_block r)
    (classify no_lz4 example_hasher (example_block r)) now).
Definition example_tier0 : PriorityTier := tier_new [] 0 (millis 1500) Fallback.
Definition example_s0 : Session := session_start example_fo example_tier0 [] "1.1.1.1" None 2000000000 0.

Definition example_ins : list Input :=
  [ITick (example_turn 0); IDial DBatch; IDial (DAccept 0);
   IEvent (example_turn 1) (Connected "2.2.2.2" None);
   example_frame 0 2000000001 10; example_frame 1 2000000001 11;
   example_frame 0 2000000002 20; example_frame 1 2000000002 21;
   example_frame 0 2000000003 30; example_frame 1 2000000003 31;
   example_frame 1 2000000004 40; example_frame 1 2000000005 50;
   IEvent (example_turn 60) (Closed 0 "read error: eof")].

Definition example_run : list Out * Flow :=
  serve_failover no_lz4 example_hasher example_fo example_s0 [] (fun _ => example_turn 0)
    (example_ins ++ [ITick (example_turn 70)]).

Definition example_dead : Session :=
  flow_state (serve_failover no_lz4 example_hasher example_fo example_s0 []
    (fun _ => example_turn 0) example_ins).2.

Lemma example_frame_ok id r now b :
  classify no_lz4 example_hasher (example_block r) = Some b -> b.1.1 < u32_max ->
  input_ok no_lz4 example_hasher (example_frame id r now).
Proof. intros E Hb. split; [done|]. intros r' p h Hx. rewrite E in Hx. by injection Hx as ->. Qed.

Lemma example_ins_ok : Forall (input_ok no_lz4 example_hasher) (example_ins ++ [ITick (example_turn 70)]).
Proof.
  repeat (apply Forall_cons_2; [first [exact I
    |eapply example_frame_ok; [vm_compute; reflexivity|vm_compute; reflexivity]]|]).
  apply Forall_nil_2.
Qed.

Lemma failover_session_refines_core_witness :
  block_rounds no_lz4 example_hasher example_run.1 =
    [2000000001; 2000000002; 2000000003; 2000000004; 2000000005] /\
  StronglySorted Z.lt (2000000000 :: block_rounds no_lz4 example_hasher example_run.1).
Proof.
  split; [vm_compute; reflexivity|].
  pose proof (failover_session_refines_core no_lz4 example_hasher example_fo example_tier0 [] "1.1.1.1"
    None 2000000000 0 [] (fun _ => example_turn 0) (example_ins ++ [ITick (example_turn 70)])
    ltac:(unfold u32_max; lia) (Forall_nil_2 _) example_ins_ok) as Hw.
  cbn zeta in Hw. revert Hw. unfold example_run, example_s0.
  destruct (serve_failover _ _ _ _ _ _ _) as [outs f]. intros Hw. exact (proj2 Hw).
Defined.

Lemma example_counted : counted (example_tier0, [] ++ option_list None).
Proof. split_and!; [apply tier_new_ok; constructor|constructor|]. cbn. intros i Hi. lia. Qed.

Lemma failover_session_well_formed_witness :
  session_ok example_dead /\ active_dead example_dead = Some (60, "read error: eof"%string) /\
  map fst (map_to_list (lives example_dead)) = [1; 0].
Proof.
  split; [|split; vm_compute; reflexivity].
  exact (proj1 (failover_session_well_formed no_lz4 example_hasher example_fo example_tier0 [] "1.1.1.1"
    None 2000000000 0 [] (fun _ => example_turn 0) example_ins example_counted)).
Defined.

Lemma example_dead_core : core_ok (s_core example_dead).
Proof.
  destruct (session_start_core no_lz4 example_hasher example_fo example_tier0 [] "1.1.1.1" None 2000000000 0)
    as (Hc & Hf & _); [unfold u32_max; lia|].
  pose proof (serve_fed no_lz4 example_hasher example_fo example_s0 [] (fun _ => example_turn 0) example_ins
    Hc Hf ltac:(constructor)) as (rounds & Hm & _).
  { exact (proj1 (proj1 (Forall_app _ _ _) example_ins_ok)). }
  by eapply moves_ok.
Qed.

Lemma dead_active_handed_over_or_ends_witness :
  match on_tick example_fo example_dead (example_turn 70) with
  | (outs, Running s') => handed_over example_dead s' outs
  | _ => False
  end.
Proof.
  pose proof (proj2 (dead_active_handed_over_or_ends example_fo example_dead 60 "read error: eof"
    example_dead_core ltac:(vm_compute; reflexivity)) (example_turn 70)) as Hw. cbn zeta in Hw.
  assert (E : exists outs s', on_tick example_fo example_dead (example_turn 70) = (outs, Running s') /\
    active_dead s' = None).
  { eexists _, _. split; [vm_compute; reflexivity|vm_compute; reflexivity]. }
  destruct E as (outs & s' & E & Hn). rewrite E in Hw |- *. destruct Hw as [Hw|(Hw & _)]; [exact Hw|].
  destruct Hw as [Hw _]. rewrite Hn in Hw. vm_compute in Hw. discriminate Hw.
Defined.

Lemma standby_dials_are_allowed_witness :
  s_dial (tick_refill example_fo example_s0 (example_turn 0)) = Racing ["2.2.2.2"]%string [] /\
  NoDup ["2.2.2.2"]%string.
Proof.
  assert (E : s_dial (tick_refill example_fo example_s0 (example_turn 0)) = Racing ["2.2.2.2"]%string [])
    by (vm_compute; reflexivity).
  split; [exact E|].
  refine (proj1 (standby_dials_are_allowed example_fo example_s0 (example_turn 0) _ _ _ _ E)).
  - apply session_start_ok, example_counted.
  - reflexivity.
Defined.
