(* ===== verification/FailoverIO.v ===== *)
(** The tasks around a failover session: the upstream readers with their byte budget, the dial of a
    standby, the node's reader and writer of [src/failover/session.rs], each over a socket of [Sock];
    and what the node finds on its wire when they run with the session. *)

From S2P Require Import Prelude Text Blacklist BTree Wire Sock Priority Freshest PushSession PushServe FailoverCore FailoverChain FailoverSession.

(** ** An upstream reader *)

(** Where [spawn_reader] is: before a header, waiting for the permits of a frame, reading its
    payload, sending an event (with the permits it holds), sending its last one, over. *)
Inductive RdPhase :=
| RdHeader
| RdBudget (hdr : bytes)
| RdPayload (hdr : bytes)
| RdSend (ev : Event) (n : Z)
| RdLast (ev : Event)
| RdDone.

(** [rd_channel]: its events in the channel, with their permits; [rd_handled]: those the session has
    handled. *)
Record Reader := mkReader {
  rd_phase : RdPhase;
  rd_sock : list Read;
  rd_avail : Z;
  rd_channel : list (Event * Z);
  rd_handled : list Event
}.

Definition reader_new (sock : list Read) : Reader := mkReader RdHeader sock EVENT_BYTES_PER_READER [] [].

(** The reader goes on (its clock shows [now]); the session is done with its oldest event, which
    returns the permits; the session dropped the channel or aborted the reader. *)
Inductive reader_event := RGo (now : Z) | RHandled | RGone.

Definition rd_move (r : Reader) (p : RdPhase) (sock : list Read) (avail : Z) : Reader :=
  mkReader p sock avail (rd_channel r) (rd_handled r).

(** The permits a frame takes from its reader's semaphore. *)
Definition reader_permits (len : Z) : Z := 5 + len.

Section ReaderTask.
Context (lz4_decompress : bytes -> option bytes) (hasher : bytes -> Z) (eof_text : string).

(** Text of a read that did not fill its buffer; [idle] is that of the timeout. *)
Definition read_failed (idle : string) (st : Stop) : string :=
  match st with
  | IoFailed e => "read error: " +:+ e
  | AtEof => "read error: " +:+ eof_text
  | _ => idle
  end.

Definition reader_go (id : Z) (r : Reader) (now : Z) : Reader :=
  match rd_phase r with
  | RdHeader =>
      match fill true 5 [] (rd_sock r) with
      | (Filled, hdr, sock) =>
          if MAX_LIVE_FRAME <? frame_len hdr
          then rd_move r (RdLast (Closed id ("oversized frame len=" +:+ show (frame_len hdr)))) sock (rd_avail r)
          else rd_move r (RdBudget hdr) sock (rd_avail r)
      | (st, _, sock) =>
          rd_move r (RdLast (Closed id (read_failed ("idle " +:+ show (as_secs UPSTREAM_IDLE) +:+ "s") st)))
            sock (rd_avail r)
      end
  | RdBudget hdr =>
      let n := reader_permits (frame_len hdr) in
      if n <=? rd_avail r then rd_move r (RdPayload hdr) (rd_sock r) (rd_avail r - n) else r
  | RdPayload hdr =>
      let n := reader_permits (frame_len hdr) in
      match fill true (Z.to_nat (frame_len hdr)) [] (rd_sock r) with
      | (Filled, payload, sock) =>
          let frame := hdr ++ payload in
          rd_move r (RdSend (Frame id frame (classify lz4_decompress hasher frame) now) n) sock (rd_avail r)
      | (st, _, sock) =>
          rd_move r (RdLast (Closed id (read_failed "idle (payload)" st))) sock (rd_avail r + n)
      end
  | RdSend ev n => mkReader RdHeader (rd_sock r) (rd_avail r) (rd_channel r ++ [(ev, n)]) (rd_handled r)
  | RdLast ev => mkReader RdDone (rd_sock r) (rd_avail r) (rd_channel r ++ [(ev, 0)]) (rd_handled r)
  | RdDone => r
  end.

(** The permits the reader itself holds. *)
Definition phase_permits (p : RdPhase) : Z :=
  match p with
  | RdPayload hdr => reader_permits (frame_len hdr)
  | RdSend _ n => n
  | _ => 0
  end.

Definition reader_step (id : Z) (r : Reader) (e : reader_event) : Reader :=
  match e with
  | RGo now => reader_go id r now
  | RHandled =>
      match rd_channel r with
      | (ev, n) :: rest => mkReader (rd_phase r) (rd_sock r) (rd_avail r + n) rest (rd_handled r ++ [ev])
      | [] => r
      end
  | RGone => rd_move r RdDone (rd_sock r) (rd_avail r + phase_permits (rd_phase r))
  end.

Definition run_reader (id : Z) (sock : list Read) (evs : list reader_event) : Reader :=
  foldl (reader_step id) (reader_new sock) evs.
End ReaderTask.

(** The events of a reader, in the order it made them. *)
Definition phase_event (p : RdPhase) : list Event :=
  match p with RdSend ev _ | RdLast ev => [ev] | _ => [] end.

Definition rd_events (r : Reader) : list Event :=
  rd_handled r ++ (rd_channel r).*1 ++ phase_event (rd_phase r).

Definition event_bytes (ev : Event) : bytes := match ev with Frame _ f _ _ => f | _ => [] end.

(** ** The dial of a standby *)

(** [attempt] under [STANDBY_CONNECT_TIMEOUT]: [dial] stands for [TcpStream::connect] ([None] when it
    fails or takes too long), [sent] for the write of the greeting; the stream after the peer's
    answer. *)
Definition attempt (dial : string -> option (list Read)) (bl : Blacklist) (ip : string) (sent : bool)
    : option (list Read) :=
  match Blacklist.connect dial bl (ip +:+ ":4001") with
  | Dialed (Some sock) =>
      if sent then
        match fill true 6 [] sock with
        | (Filled, g, sock) => if accepted g then Some sock else None
        | _ => None
        end
      else None
  | _ => None
  end.

(** What the attempt number [k] of a race does to it. *)
Definition attempt_event (k : nat) (o : option (list Read)) : dial_event :=
  match o with Some _ => DAccept k | None => DFail k end.

(** ** The node's reader and writer *)

(** Reads of at most 65536 bytes. *)
Definition NODE_READ : nat := Z.to_nat 65536.

Fixpoint chunks_of (fuel : nat) (b : bytes) : list bytes :=
  match fuel with
  | O => []
  | S fuel => match b with [] => [] | _ => take NODE_READ b :: chunks_of fuel (drop NODE_READ b) end
  end.

(** What arrives at once is read in one or several reads. An empty read is the end of the stream. *)
Fixpoint node_reader (sock : list Read) : list Event :=
  match sock with
  | [] => []
  | RData b :: sock =>
      if bool_decide (b = []) then [NodeClosed "node outbound ended"]
      else (NodeBytes <$> chunks_of (length b) b) ++ node_reader sock
  | RTimeout :: sock => node_reader sock
  | REof :: _ => [NodeClosed "node outbound ended"]
  | RErr e :: _ => [NodeClosed ("node outbound read failed: " +:+ e)]
  end.

(** The writer task over the frames of its queue and the ends of its writes (with how much of the
    frame a failed write sent): the frames written, what a failed write sent of the next one, and
    how the task ended ([None] while a write or the queue is open). [closed]: the session dropped
    the queue. *)
Fixpoint node_writer (closed : bool) (queue : list bytes) (ws : list (write_result * nat))
    : list bytes * bytes * option string :=
  match queue, ws with
  | [], _ => ([], [], if closed then Some NODE_WRITER_CLOSED else None)
  | _, [] => ([], [], None)
  | f :: queue, (WriteOk, _) :: ws =>
      let '(done, part, r) := node_writer closed queue ws in (f :: done, part, r)
  | f :: _, (WriteError e, n) :: _ => ([], take n f, Some ("node write failed: " +:+ e))
  | f :: _, (WriteTimeout, n) :: _ => ([], take n f, Some "node write timeout")
  end%string.

(** The frames a session queued for the node. *)
Definition queued (outs : list Out) : list bytes :=
  omap (fun o => match o with ToNode f => Some f | _ => None end) outs.

(** What the node receives: the greeting, the frames written, the rest of a cut one. *)
Definition node_wire (greeting : bytes) (done : list bytes) (part : bytes) : bytes :=
  greeting ++ concat done ++ part.

(** ** Lemmas: a reader *)

(** A whole frame, as it is written on the wire. *)
Definition shaped (f : bytes) : Prop :=
  exists typ p, f = encode_frame typ p /\ Z.of_nat (length p) <= MAX_LIVE_FRAME.

Lemma fill_shaped hdr sock payload sock' :
  header_ok hdr -> frame_len hdr <= MAX_LIVE_FRAME ->
  fill true (Z.to_nat (frame_len hdr)) [] sock = (Filled, payload, sock') ->
  shaped (hdr ++ payload) /\ Z.of_nat (length (hdr ++ payload)) = reader_permits (frame_len hdr) /\
  payload ++ data sock' = data sock.
Proof.
  intros Hh Hm [E L]%fill_data. cbn in E, L. pose proof (frame_len_nonneg hdr Hh) as Hn.
  assert (Hl : Z.of_nat (length payload) = frame_len hdr) by lia.
  split_and!; [|rewrite length_app, (proj1 Hh); unfold reader_permits; lia|done].
  exists (byte_at hdr 4), payload. split; [by apply header_payload|lia].
Qed.

Section ReaderLemmas.
Context (lz4_decompress : bytes -> option bytes) (hasher : bytes -> Z) (eof_text : string).
Abbreviation classify := (classify lz4_decompress hasher).

Definition reader_made (id : Z) (ev : Event) : Prop :=
  match ev with
  | Frame i f b _ => i = id /\ shaped f /\ b = classify f
  | Closed i _ => i = id
  | _ => False
  end.

(** The permits of an event are its bytes. *)
Definition charged (e : Event * Z) : Prop := e.2 = Z.of_nat (length (event_bytes e.1)).

Definition phase_ok (id : Z) (p : RdPhase) : Prop :=
  match p with
  | RdBudget hdr | RdPayload hdr => header_ok hdr /\ frame_len hdr <= MAX_LIVE_FRAME
  | RdSend ev n => reader_made id ev /\ charged (ev, n)
  | RdLast ev => reader_made id ev /\ event_bytes ev = []
  | _ => True
  end.

Definition phase_header (p : RdPhase) : bytes := match p with RdBudget hdr | RdPayload hdr => hdr | _ => [] end.

Definition rd_bytes (r : Reader) : bytes := concat (event_bytes <$> rd_events r).

(** Every byte read is in an event or in the header at hand, until the reader gives up. *)
Definition accounted (sock0 : list Read) (r : Reader) : Prop :=
  match rd_phase r with
  | RdLast _ | RdDone => rd_bytes r `prefix_of` data sock0
  | p => rd_bytes r ++ phase_header p ++ data (rd_sock r) = data sock0
  end.

Record reader_inv (id : Z) (sock0 : list Read) (r : Reader) : Prop := {
  ri_permits : rd_avail r + foldr Z.add 0 (rd_channel r).*2 + phase_permits (rd_phase r) = EVENT_BYTES_PER_READER;
  ri_avail : 0 <= rd_avail r;
  ri_made : Forall (reader_made id) (rd_handled r ++ (rd_channel r).*1);
  ri_charged : Forall charged (rd_channel r);
  ri_phase : phase_ok id (rd_phase r);
  ri_bytes : accounted sock0 r
}.

Lemma rd_bytes_cut r :
  rd_bytes r = concat (event_bytes <$> rd_handled r ++ (rd_channel r).*1) ++ concat (event_bytes <$> phase_event (rd_phase r)).
Proof. unfold rd_bytes, rd_events. by rewrite app_assoc, fmap_app, concat_app. Qed.

Lemma accounted_prefix sock0 r : accounted sock0 r -> rd_bytes r `prefix_of` data sock0.
Proof. unfold accounted. destruct (rd_phase r); [intros <-; by eexists..| |]; done. Qed.

(** A step that only moves the reader, with its permits and bytes. *)
Lemma reader_inv_move id sock0 r p sock avail :
  reader_inv id sock0 r -> rd_avail r + phase_permits (rd_phase r) = avail + phase_permits p ->
  0 <= avail -> phase_ok id p -> accounted sock0 (rd_move r p sock avail) -> reader_inv id sock0 (rd_move r p sock avail).
Proof. intros [H1 _ H2 H3 _ _] Hp Hn Ho Ha. split; [cbn in *; lia|done..]. Qed.

(** The reader gives up: nothing of what it had is lost but the frame at hand. *)
Lemma accounted_last sock0 r ev sock avail :
  accounted sock0 r -> event_bytes ev = [] -> accounted sock0 (rd_move r (RdLast ev) sock avail).
Proof.
  intros Ha%accounted_prefix He. rewrite rd_bytes_cut in Ha. unfold accounted. cbn [rd_move rd_phase].
  rewrite rd_bytes_cut. cbn. rewrite He, app_nil_r. etrans; [|exact Ha]. by apply prefix_app_r.
Qed.

Lemma sum_snoc (l : list Z) x : foldr Z.add 0 (l ++ [x]) = foldr Z.add 0 l + x.
Proof. induction l; cbn; lia. Qed.

Lemma reader_header_inv id sock0 r :
  Forall is_byte (data sock0) -> reader_inv id sock0 r -> rd_phase r = RdHeader ->
  forall now, reader_inv id sock0 (reader_go lz4_decompress hasher eof_text id r now).
Proof.
  intros Hb Hi Ep now. pose proof (ri_bytes _ _ _ Hi) as Ha0. pose proof Ha0 as Ha. pose proof (ri_avail _ _ _ Hi) as Hv.
  unfold accounted in Ha. unfold reader_go. rewrite Ep in *. cbn [phase_header app] in Ha.
  destruct (fill true 5 [] (rd_sock r)) as [[st hdr] sock] eqn:Ef.
  assert (Hlast : forall ev sock, reader_made id ev -> event_bytes ev = [] ->
    reader_inv id sock0 (rd_move r (RdLast ev) sock (rd_avail r))).
  { intros. apply reader_inv_move; [done|by rewrite Ep|done|done|by apply accounted_last]. }
  destruct st; try by apply Hlast. apply fill_data in Ef as [Ef L]. cbn in Ef, L.
  destruct (Z.ltb_spec MAX_LIVE_FRAME (frame_len hdr)); [by apply Hlast|].
  apply reader_inv_move; [done|by rewrite Ep|done| |].
  - split; [|done]. split; [done|]. rewrite <- Ha, <- Ef in Hb. by apply Forall_app in Hb as [_ [? _]%Forall_app].
  - unfold accounted. cbn [rd_move rd_phase rd_sock phase_header]. rewrite Ef, <- Ha, !rd_bytes_cut.
    cbn [rd_move rd_phase]. by rewrite Ep.
Qed.

Lemma reader_payload_inv id sock0 r hdr :
  reader_inv id sock0 r -> rd_phase r = RdPayload hdr ->
  forall now, reader_inv id sock0 (reader_go lz4_decompress hasher eof_text id r now).
Proof.
  intros Hi Ep now. pose proof (ri_bytes _ _ _ Hi) as Ha0. pose proof Ha0 as Ha. pose proof (ri_phase _ _ _ Hi) as Ho.
  pose proof (ri_avail _ _ _ Hi) as Hv.
  unfold accounted in Ha. unfold reader_go. rewrite Ep in *. cbn [phase_header app] in Ha.
  pose proof (frame_len_nonneg hdr (proj1 Ho)) as Hn. destruct (fill true _ [] (rd_sock r)) as [[st p] sock] eqn:Ef.
  assert (Hlast : forall ev sock, reader_made id ev -> event_bytes ev = [] ->
    reader_inv id sock0 (rd_move r (RdLast ev) sock (rd_avail r + reader_permits (frame_len hdr)))).
  { intros. apply reader_inv_move; [done|rewrite Ep; cbn; lia|unfold reader_permits; lia|done|by apply accounted_last]. }
  destruct st; try by apply Hlast. destruct Ho as [Hh Hl]. destruct (fill_shaped _ _ _ _ Hh Hl Ef) as (F1 & F2 & F3).
  apply reader_inv_move; [done|by rewrite Ep|done|by split|].
  unfold accounted. cbn [rd_move rd_phase rd_sock phase_header app]. rewrite <- Ha, !rd_bytes_cut.
  cbn [rd_move rd_phase]. rewrite Ep. cbn. rewrite <- F3, !app_nil_r. by rewrite !app_assoc.
Qed.

(** An event goes to the channel with its permits. *)
Lemma reader_sent_inv id sock0 r ev n p :
  reader_inv id sock0 r -> phase_event (rd_phase r) = [ev] -> phase_permits (rd_phase r) = n ->
  reader_made id ev -> charged (ev, n) -> phase_event p = [] -> phase_permits p = 0 -> phase_ok id p ->
  (p = RdHeader /\ rd_phase r = RdSend ev n \/ p = RdDone) ->
  reader_inv id sock0 (mkReader p (rd_sock r) (rd_avail r) (rd_channel r ++ [(ev, n)]) (rd_handled r)).
Proof.
  intros [Hp Hv Hm Hc _ Ha] He En H1 H2 E0 P0 Hok Hd.
  assert (Eb : rd_bytes (mkReader p (rd_sock r) (rd_avail r) (rd_channel r ++ [(ev, n)]) (rd_handled r)) = rd_bytes r).
  { rewrite !rd_bytes_cut. cbn [rd_phase rd_handled rd_channel]. rewrite E0, He, fmap_app, !fmap_app, !concat_app.
    cbn. by rewrite !app_nil_r, <- !app_assoc. }
  split; cbn [rd_phase rd_handled rd_channel rd_avail]; [|done| | |done|].
  - rewrite fmap_app. cbn. rewrite sum_snoc. lia.
  - rewrite fmap_app, app_assoc. apply Forall_app. split; [done|by apply Forall_singleton].
  - apply Forall_app. split; [done|by apply Forall_singleton].
  - unfold accounted. rewrite Eb. cbn [rd_phase rd_sock]. destruct Hd as [[-> Er]| ->]; [|by apply accounted_prefix].
    unfold accounted in Ha. by rewrite Er in Ha.
Qed.

Lemma phase_bytes id p : phase_ok id p -> bytes_of (event_bytes <$> phase_event p) <= phase_permits p /\ 0 <= phase_permits p.
Proof.
  destruct p as [|hdr|hdr|ev n|ev|]; cbn; try (intros; lia).
  - intros [Hh _]. pose proof (frame_len_nonneg hdr Hh). unfold reader_permits. lia.
  - unfold charged. cbn. intros [_ ->]. lia.
  - intros [_ ->]. cbn. lia.
Qed.
Lemma reader_step_inv id sock0 r e :
  Forall is_byte (data sock0) -> reader_inv id sock0 r ->
  reader_inv id sock0 (reader_step lz4_decompress hasher eof_text id r e).
Proof.
  intros Hb Hi. destruct e as [now| |]; cbn [reader_step].
  - pose proof Hi as [Hp Hv Hm Hc Ho Ha]. destruct (rd_phase r) as [|hdr|hdr|ev n|ev|] eqn:Ep.
    + by apply reader_header_inv.
    + unfold reader_go. rewrite Ep. destruct (Z.leb_spec (reader_permits (frame_len hdr)) (rd_avail r)); [|done].
      apply reader_inv_move; [done|rewrite Ep; cbn; lia|lia|done|]. unfold accounted in *. rewrite Ep in Ha.
      cbn [rd_move rd_phase rd_sock phase_header]. rewrite <- Ha, !rd_bytes_cut. cbn [rd_move rd_phase]. by rewrite Ep.
    + by eapply reader_payload_inv.
    + unfold reader_go. rewrite Ep. destruct Ho as [H1 H2]. apply reader_sent_inv; rewrite ?Ep; try done; auto.
    + unfold reader_go. rewrite Ep. destruct Ho as [H1 H2]. apply reader_sent_inv; rewrite ?Ep; try done; auto.
      unfold charged. cbn. by rewrite H2.
    + unfold reader_go. by rewrite Ep.
  - destruct (rd_channel r) as [|[ev n] rest] eqn:Ec; [done|]. destruct Hi as [Hp Hv Hm Hc Ho Ha]. rewrite Ec in *.
    cbn in Hp. apply Forall_cons_1 in Hc as [Hn Hc]. unfold charged in Hn. cbn in Hn. split; cbn; [lia|lia| |done|done|].
    + by rewrite <- app_assoc.
    + unfold accounted, rd_bytes, rd_events in *. cbn in *. rewrite Ec in Ha. by rewrite <- !app_assoc.
  - pose proof (phase_bytes id _ (ri_phase _ _ _ Hi)) as [_ Hn]. pose proof (ri_avail _ _ _ Hi).
    apply reader_inv_move; [done|cbn; lia|lia|done|]. pose proof (accounted_prefix _ _ (ri_bytes _ _ _ Hi)) as Ha.
    unfold accounted. cbn. rewrite rd_bytes_cut in *. cbn. rewrite app_nil_r. etrans; [|exact Ha]. by apply prefix_app_r.
Qed.

Lemma run_reader_inv id sock evs :
  Forall is_byte (data sock) -> reader_inv id sock (run_reader lz4_decompress hasher eof_text id sock evs).
Proof.
  intros Hb. unfold run_reader. apply foldl_inv; [|intros r e; by apply reader_step_inv].
  split; cbn; [done|done|by apply Forall_nil_2|by apply Forall_nil_2|done|done].
Qed.

Lemma channel_bytes l : Forall charged l -> bytes_of (event_bytes <$> l.*1) = foldr Z.add 0 l.*2.
Proof. induction 1 as [|[ev n] l Hc _ IH]; cbn; [done|]. unfold charged in Hc. cbn in Hc. rewrite Hc. unfold bytes_of in IH. lia. Qed.
End ReaderLemmas.

(** ** Lemmas: the frames of a session *)

(** A predicate of the frames that come in holds of those that go out. *)
Section Origin.
Context `{HashOrder} (lz4_decompress : bytes -> option bytes) (hasher : bytes -> Z) (fo : FailoverConfig).
Context (Q : bytes -> Prop).

Definition brings (i : Input) : Prop := match i with IEvent _ (Frame _ f _ _) => Q f | _ => True end.

Definition held : Core -> Prop := filed (fun _ a => Q (a_frame a)).

Definition sends (res : list Out * Flow) : Prop := Forall Q (queued res.1) /\ held (s_core (flow_state res.2)).

Lemma queued_app l l' : queued (l ++ l') = queued l ++ queued l'.
Proof. apply omap_app. Qed.

Lemma queued_frames fs : queued (ToNode <$> fs) = fs.
Proof. induction fs as [|f fs IH]; [done|]. unfold queued in *. cbn. by rewrite IH. Qed.

Lemma sends_silent f : held (s_core (flow_state f)) -> sends ([], f).
Proof. intros Hh. split; [by apply Forall_nil_2|done]. Qed.

Lemma sends_queue s tn frames :
  Forall Q frames -> held (s_core s) ->
  sends (let '(out, ok) := queue tn frames in (out, if ok then Running s else Ended NODE_WRITER_CLOSED s)).
Proof.
  intros Hq Hh. unfold queue, sends. cbn [fst snd]. rewrite queued_frames.
  split; [by apply Forall_take|]. by destruct (_ <=? _)%nat.
Qed.

Lemma held_drop s id u : held (s_core s) -> held (s_core (drop_up s id u)).
Proof. exact (filed_drop_all _ s [id] u). Qed.

Lemma on_frame_sends s tn id frame block at_ :
  held (s_core s) -> Q frame -> sends (on_frame s tn id frame block at_).
Proof.
  intros Hh Hq. unfold on_frame. destruct (lives s !! id); [|by apply sends_silent].
  destruct block as [[[r p] h]|].
  2:{ destruct (_ && _); [|by apply sends_silent]. apply (sends_queue s tn [frame]); [by apply Forall_singleton|done]. }
  destruct (_ || _).
  { apply sends_silent. cbn [flow_state]. destruct (id =? _); [by rewrite mark_dead_core|].
    destruct (ups (s_core s) !! id); [by apply held_drop|done]. }
  destruct (id =? _).
  - destruct (active_dead s); [by apply sends_silent|]. destruct (on_round _ _ _) as [p'|]; [|by apply sends_silent].
    unfold forward_active_block. destruct (_ <? _); [|by apply sends_silent].
    pose proof (on_active_shrinks (s_core (set_progress s p')) r h at_) as Hs.
    destruct (on_active_block _ _ _ _) as [[fwd bad] c].
    set (s1 := drop_all _ _ _). assert (H1 : held (s_core s1)) by (apply filed_drop_all; eapply filed_shrinks; [apply Hs|done]).
    destruct fwd; [|by apply sends_silent]. apply (sends_queue s1 tn [frame]); [by apply Forall_singleton|done].
  - pose proof (filed_standby (fun _ a => Q (a_frame a)) (s_core s) id r p h at_ frame Hh Hq) as Hs.
    destruct (on_standby_block _ _ _ _ _ _ _) as [v c]. apply sends_silent. cbn [flow_state].
    destruct v; [done|]. by apply (held_drop (set_core s c)).
Qed.

Lemma on_event_sends s tn ev : held (s_core s) -> brings (IEvent tn ev) -> sends (on_event s tn ev).
Proof.
  intros Hh Hq. destruct ev as [id frame block at_|id reason|ip prio| |b|reason]; cbn [on_event].
  - by apply on_frame_sends.
  - apply sends_silent. unfold on_closed. cbn [flow_state]. destruct (id =? _); [by rewrite mark_dead_core|by apply held_drop].
  - apply sends_silent. cbn [flow_state]. case_decide; [by apply filed_connected|done].
  - apply sends_silent. cbn [flow_state]. by case_decide.
  - unfold on_node_bytes. destruct (lives s !! _); [|by apply sends_silent]. split; [by apply Forall_nil_2|].
    cbn. destruct (active_writes tn); [done|by rewrite mark_dead_core].
  - by apply sends_silent.
Qed.

Lemma tick_switch_sends s tn : core_ok (s_core s) -> held (s_core s) -> sends (tick_switch s tn).
Proof.
  intros Hc Hh. unfold tick_switch. destruct (pick_switch _ _ _) as [[id reason]|]; [|by apply sends_silent].
  destruct (switch_to _ _ _) as [[[frames bad] c]|] eqn:Es; [|by apply sends_silent].
  assert (Hc' : held c) by (eapply filed_shrinks; [by eapply switch_to_shrinks|done]).
  destruct (switch_to_spec _ _ _ _ _ _ Hc Es) as (u & Hu & Hd & -> & _).
  destruct (replayed_spec (s_core s) id u Hc Hu ltac:(unfold can_continue; lia)) as (_ & _ & Hin).
  assert (Hq : Forall Q (map (fun e => a_frame e.2) (replayed (s_core s) id))).
  { apply Forall_map. eapply Forall_impl; [exact Hin|]. intros [r a] [Ha _]. exact (Hh id u r a Hu Ha). }
  pose proof (sends_queue (set_core s c) tn _ Hq Hc') as Hs. revert Hs. unfold queue.
  destruct (_ <=? _)%nat; [|done]. cbn [negb]. intros [Hs _].
  destruct (take_slot _ _) as [slot s2] eqn:Et. split; cbn [fst snd flow_state].
  - rewrite queued_app. by apply Forall_app.
  - apply filed_drop_all. apply held_drop. rewrite on_switch_core. unfold take_slot in Et. by injection Et as _ <-.
Qed.

Lemma on_tick_sends s tn : core_ok (s_core s) -> held (s_core s) -> sends (on_tick fo s tn).
Proof.
  intros Hc Hh. unfold on_tick.
  assert (Hc1 : core_ok (s_core (tick_blacklist (tick_stalled s tn) tn))) by (by apply tick_start_core).
  assert (Hh1 : held (s_core (tick_blacklist (tick_stalled s tn) tn))).
  { assert (Es : s_core (tick_stalled s tn) = s_core s) by (unfold tick_stalled; by destruct (_ && _)).
    unfold tick_blacklist. destruct (_ =? _); [by rewrite Es|]. apply filed_drop_all.
    destruct (ip_of _ _); [|by rewrite <- Es in Hh]. destruct (Blacklist.contains _ _); [rewrite mark_dead_core|];
      by rewrite <- Es in Hh. }
  pose proof (tick_switch_sends _ tn Hc1 Hh1) as [Hs Hh2].
  destruct (tick_switch _ tn) as [out [s2|reason s2]]; cbn [fst snd flow_state] in *; [|by split].
  split; [done|]. destruct (tick_dead s2 tn); [done|]. cbn [snd flow_state].
  assert (E : s_core (tick_refill fo (tick_rotate fo s2 tn) tn) = s_core (tick_rotate fo s2 tn))
    by (unfold tick_refill; by destruct (_ && _)).
  rewrite E. unfold tick_rotate. destruct (_ && _); [|done].
  destruct (slowest_standby _ _ _) as [[id m]|]; [by apply (held_drop (set_rotated s2 (tn_now tn)))|done].
Qed.

Lemma step_sends s i : core_ok (s_core s) -> held (s_core s) -> brings i -> sends (step fo s i).
Proof.
  intros Hc Hh Hb. destruct i as [tn ev|reason|tn|e|o]; cbn [step].
  - by apply on_event_sends.
  - by apply sends_silent.
  - by apply on_tick_sends.
  - destruct (dial_step _ _ _) as [t d]. by apply sends_silent.
  - destruct (op_step _ _) as [t gs]. by apply sends_silent.
Qed.

Lemma sends_app out1 s1 out2 f : sends (out1, Running s1) -> sends (out2, f) -> sends (out1 ++ out2, f).
Proof. intros [H1 _] [H2 H3]. split; [|done]. cbn [fst] in *. rewrite queued_app. by apply Forall_app. Qed.

Lemma run_sends s ins :
  core_ok (s_core s) -> frames_ok lz4_decompress hasher (s_core s) -> held (s_core s) ->
  Forall (fun i => input_ok lz4_decompress hasher i /\ brings i) ins -> sends (run fo s ins).
Proof.
  revert s. induction ins as [|i ins IH]; intros s Hc Hf Hh Hi; cbn [run]; [by apply sends_silent|].
  apply Forall_cons_1 in Hi as [[Hi Hb] Hins]. pose proof (step_sends s i Hc Hh Hb) as H1.
  pose proof (step_fed lz4_decompress hasher fo s i Hc Hf Hi) as H2.
  destruct (step fo s i) as [out [s1|reason s1]]; [|done].
  destruct (fed_ok lz4_decompress hasher _ _ _ H2 Hc) as [Hc1 Hf1]. specialize (IH s1 Hc1 Hf1 (proj2 H1) Hins).
  destruct (run fo s1 ins) as [out' f]. by eapply sends_app.
Qed.

Lemma prefetched_sends s tns k frames :
  held (s_core s) -> Forall Q frames -> sends (prefetched lz4_decompress hasher s tns k frames).
Proof.
  revert s k. induction frames as [|frame frames IH]; intros s k Hh Hi; cbn [prefetched]; [by apply sends_silent|].
  apply Forall_cons_1 in Hi as [Hi Hfr].
  assert (Hgo : forall (q : list Out * bool) s1,
    sends (let '(out, ok) := q in (out, if ok then Running s1 else Ended NODE_WRITER_CLOSED s1)) ->
    sends (let '(out, ok) := q in if ok then
       let '(out', f) := prefetched lz4_decompress hasher s1 tns (S k) frames in (out ++ out', f)
     else (out, Ended NODE_WRITER_CLOSED s1))).
  { intros [out ok] s1 H1. destruct ok; [|done]. specialize (IH s1 (S k) (proj2 H1) Hfr).
    destruct (prefetched _ _ _ _ _ _) as [out' f]. by eapply sends_app. }
  assert (Hq : forall s1, held (s_core s1) -> sends (let '(out, ok) := queue (tns k) [frame] in
    (out, if ok then Running s1 else Ended NODE_WRITER_CLOSED s1))).
  { intros s1 H1. apply sends_queue; [by apply Forall_singleton|done]. }
  destruct (classify _ _ frame) as [[[r p] h]|]; [|by apply (Hgo (queue (tns k) [frame])), Hq].
  destruct (negb _); [by apply sends_silent|]. destruct (on_round _ _ _) as [p'|]; [|by apply sends_silent].
  destruct (_ <? _); [|by apply (Hgo ([], true)), sends_silent].
  pose proof (on_active_shrinks (s_core (set_progress s p')) r h (tn_now (tns k))) as Ha.
  destruct (on_active_block _ _ _ _) as [[fwd bad] c].
  assert (Hc : held c) by (eapply filed_shrinks; [apply Ha|done]).
  destruct fwd; [by apply (Hgo (queue (tns k) [frame])), Hq|by apply (Hgo ([], true)), sends_silent].
Qed.

Lemma serve_sends s frames tns ins :
  core_ok (s_core s) -> frames_ok lz4_decompress hasher (s_core s) -> held (s_core s) ->
  Forall (fun f => prefetch_ok lz4_decompress hasher f /\ Q f) frames ->
  Forall (fun i => input_ok lz4_decompress hasher i /\ brings i) ins ->
  sends (serve_failover lz4_decompress hasher fo s frames tns ins).
Proof.
  intros Hc Hf Hh [Hp Hq]%Forall_and Hi. unfold serve_failover.
  pose proof (prefetched_fed lz4_decompress hasher s tns 0 frames Hc Hf Hp) as H1.
  pose proof (prefetched_sends s tns 0 frames Hh Hq) as H2.
  destruct (prefetched _ _ _ _ _ _) as [out [s1|reason s1]]; [|done].
  destruct (fed_ok lz4_decompress hasher _ _ _ H1 Hc) as [Hc1 Hf1].
  pose proof (run_sends s1 ins Hc1 Hf1 (proj2 H2) Hi) as H3.
  destruct (run fo s1 ins) as [out' f]. by eapply sends_app.
Qed.
End Origin.

(** ** Lemmas: the node's reader and writer *)

Lemma chunks_of_concat fuel b : (length b <= fuel)%nat -> concat (chunks_of fuel b) = b.
Proof.
  revert b. induction fuel as [|fuel IH]; intros [|x b] Hl; try done; [cbn in Hl; lia|].
  cbn [chunks_of concat]. rewrite IH; [apply take_drop|]. rewrite length_drop. cbn [length] in *. unfold NODE_READ. lia.
Qed.

Definition node_chunks (evs : list Event) : list bytes :=
  omap (fun ev => match ev with NodeBytes b => Some b | _ => None end) evs.

Lemma node_chunks_of l : node_chunks (NodeBytes <$> l) = l.
Proof. induction l as [|x l IH]; [done|]. unfold node_chunks in *. cbn. by rewrite IH. Qed.

(** Until the end of the stream, the node's reader sends exactly its bytes, in order. *)
Lemma node_reader_data sock : flowing sock -> concat (node_chunks (node_reader sock)) = data sock.
Proof.
  induction 1 as [|r sock (b & -> & Hb) _ IH]; [done|]. cbn [node_reader]. rewrite bool_decide_eq_false_2 by done.
  unfold node_chunks in *. rewrite omap_app, concat_app, IH, data_cons. f_equal.
  change (concat (node_chunks (NodeBytes <$> chunks_of (length b) b)) = b).
  rewrite node_chunks_of. by apply chunks_of_concat.
Qed.

Lemma node_writer_spec closed q ws :
  let '(done, part, r) := node_writer closed q ws in
  exists rest, q = done ++ rest /\
    (part = [] \/ exists f rest', rest = f :: rest' /\ part `prefix_of` f) /\ (r = Some NODE_WRITER_CLOSED -> rest = []).
Proof.
  revert ws. induction q as [|f q IH]; intros ws; cbn [node_writer].
  { exists []. by split_and!; [|left|]. }
  destruct ws as [|[[|e|] n] ws].
  - exists (f :: q). by split_and!; [|left|].
  - specialize (IH ws). destruct (node_writer closed q ws) as [[done part] r]. destruct IH as (rest & -> & H2 & H3).
    by exists rest.
  - exists (f :: q). split_and!; [done|right; exists f, q; split; [done|apply prefix_take]|by intros [=]].
  - exists (f :: q). split_and!; [done|right; exists f, q; split; [done|apply prefix_take]|by intros [=]].
Qed.

(** A reader gets back the frames written, whatever the segments. *)
Lemma read_shaped fs rest s :
  Forall shaped fs -> flowing s -> data s = concat fs ++ rest ->
  exists s', read_frames (length fs) MAX_LIVE_FRAME s = (fs, s') /\ data s' = rest.
Proof.
  intros Hf. revert s. induction Hf as [|f fs (typ & p & -> & Hp) _ IH]; intros s Hs Hd; cbn [read_frames length]; [by exists s|].
  cbn [concat] in Hd. rewrite <- app_assoc in Hd.
  destruct (read_frame_flowing MAX_LIVE_FRAME s typ p _ Hs Hd) as (s1 & -> & Hs1 & Hd1);
    [unfold u32_max, MAX_LIVE_FRAME in *; lia|done|].
  destruct (IH s1 Hs1 Hd1) as (s2 & -> & Hd2). by exists s2.
Qed.

(** A standby is taken only if its address may be dialed and its answer is the accepting greeting;
    its reader starts right after it. *)
Lemma attempt_spec dial bl ip sent sock' :
  attempt dial bl ip sent = Some sock' ->
  Blacklist.contains bl (ip +:+ ":4001") = false /\ sent = true /\
  exists sock, dial (ip +:+ ":4001") = Some sock /\ data sock = ACCEPT_GREETING ++ data sock'.
Proof.
  unfold attempt, connect. destruct (Blacklist.contains bl _); [done|]. destruct (dial _) as [sock|]; [|done].
  destruct sent; [|done]. destruct (fill true 6 [] sock) as [[[] g] s1] eqn:Ef; try done.
  unfold accepted. case_bool_decide as Hg; [|done]. intros [= <-]. split_and!; [done|done|]. exists sock. split; [done|].
  apply fill_data in Ef as [Ef _]. cbn [app] in Ef. by rewrite <- Ef, Hg.
Qed.

(** ** Properties *)

Section Properties.
Context `{HashOrder} (lz4_decompress : bytes -> option bytes) (hasher : bytes -> Z) (eof_text : string).
Context (fo : FailoverConfig).
Abbreviation reader := (run_reader lz4_decompress hasher eof_text).

(** The session's frames are those its readers sent it, and block rounds stay below [u32::MAX]. *)
Definition from_reader (i : Input) : Prop :=
  match i with
  | IEvent _ (Frame id f b at_) =>
      prefetch_ok lz4_decompress hasher f /\
      exists sock evs, Forall is_byte (data sock) /\ Frame id f b at_ ∈ rd_handled (reader id sock evs)
  | _ => True
  end.

(** The rounds of the blocks among some frames. *)
Definition frame_rounds (fs : list bytes) : list Z :=
  omap (fun f => (fun b => b.1.1) <$> classify lz4_decompress hasher f) fs.

Lemma from_reader_ok i : from_reader i -> input_ok lz4_decompress hasher i /\ brings shaped i.
Proof.
  destruct i as [tn [id f b at_| | | | |]| | | |]; try done. intros (Hp & sock & evs & Hb & Hin).
  pose proof (ri_made _ _ _ _ _ (run_reader_inv lz4_decompress hasher eof_text id sock evs Hb)) as Hm.
  apply Forall_app in Hm as [Hm _]. rewrite Forall_forall in Hm. destruct (Hm _ Hin) as (_ & Hs & ->). split; [|done].
  split; [done|exact Hp].
Qed.

Lemma frame_rounds_queued outs : frame_rounds (queued outs) = block_rounds lz4_decompress hasher outs.
Proof.
  induction outs as [|[f|id b|o n r] outs IH]; [done| |done|done]. unfold frame_rounds, block_rounds, queued in *. cbn.
  by destruct (classify lz4_decompress hasher f) as [[[r p] h]|]; cbn; rewrite IH.
Qed.

(** C2: what the node reads from its socket during a failover session is one chain. Whatever the
    peers send, however the network cuts it, whatever the session switches and replays and wherever
    the node's writer fails: the node's stream is the greeting and then whole frames, a prefix of
    those the session queued, with at most the beginning of the next one after them; a reader of the
    stream gets back exactly these frames; and the rounds of the blocks among them are strictly
    increasing from the round the session started at. *)
Theorem failover_wire_is_one_chain (t : PriorityTier) (others : list nat) (ip : string) (slot : option nat)
    (initial now : Z) (g : bytes) (frames : list bytes) (tns : nat -> Turn) (ins : list Input) (closed : bool)
    (ws : list (write_result * nat)) :
  0 <= initial < u32_max -> shaped g ->
  Forall (fun f => prefetch_ok lz4_decompress hasher f /\ shaped f) frames -> Forall from_reader ins ->
  let outs := (serve_failover lz4_decompress hasher fo (session_start fo t others ip slot initial now) frames tns ins).1 in
  let '(done, part, _) := node_writer closed (queued outs) ws in
  (exists rest, queued outs = done ++ rest /\
     (part = [] \/ exists f rest', rest = f :: rest' /\ part `prefix_of` f)) /\
  (forall s, flowing s -> data s = node_wire g done part ->
     exists s', read_frames (S (length done)) MAX_LIVE_FRAME s = (g :: done, s') /\ data s' = part) /\
  StronglySorted Z.lt (initial :: frame_rounds done).
Proof.
  intros Hi Hg Hp Hf. set (s0 := session_start _ _ _ _ _ _ _). intros outs.
  destruct (session_start_core lz4_decompress hasher fo t others ip slot initial now Hi) as (Hc & Hfo & Hlast).
  assert (Hin : Forall (fun i => input_ok lz4_decompress hasher i /\ brings shaped i) ins)
    by (eapply Forall_impl; [exact Hf|apply from_reader_ok]).
  pose proof (serve_sends lz4_decompress hasher fo shaped s0 frames tns ins Hc Hfo (filed_start _ fo t others ip slot initial now) Hp Hin)
    as [Hs _].
  pose proof (serve_fed lz4_decompress hasher fo s0 frames tns ins Hc Hfo (proj1 (proj1 (Forall_and _ _) Hp))
    (proj1 (proj1 (Forall_and _ _) Hin))) as (rounds & (es & He & Er) & _ & Hpre & _).
  fold outs in Hs, Hpre.
  pose proof (node_writer_spec closed (queued outs) ws) as Hw. destruct (node_writer _ _ _) as [[done part] r].
  destruct Hw as (rest & Eq & Hpart & _). split; [by exists rest|]. rewrite Eq in Hs. apply Forall_app in Hs as [Hs _]. split.
  - intros s Hfl Hd. apply (read_shaped (g :: done) part s); [by constructor|done|]. rewrite Hd. unfold node_wire.
    cbn. by rewrite app_assoc.
  - pose proof (run_events_spec (s_core s0) es (fun _ => []) Hc He) as Hr. rewrite Er in Hr.
    destruct Hr as (_ & Hso & _); [intros id u _ q Hq; by apply elem_of_nil in Hq|].
    unfold s0 in Hso. rewrite Hlast in Hso. eapply StronglySorted_prefix; [|exact Hso]. apply prefix_cons.
    etrans; [|exact Hpre]. rewrite <- frame_rounds_queued, Eq. unfold frame_rounds. rewrite omap_app. by apply prefix_app_r.
Qed.

(** C19: an upstream reader is faithful, bounded and never stuck. However the socket delivers, and
    however the reader and the session interleave: the frames it has sent to the session, handled or
    not, are the beginning of the peer's stream, whole, in order and nothing skipped; each is filed
    under its reader and classified; all that it has read and the session has not yet handled stays
    within [EVENT_BYTES_PER_READER]; and once the session has handled what it was sent, a reader that
    waits for the permits of a frame gets them. *)
Theorem reader_is_faithful_and_bounded (id : Z) (sock : list Read) (evs : list reader_event) :
  Forall is_byte (data sock) ->
  let r := reader id sock evs in
  concat (event_bytes <$> rd_events r) `prefix_of` data sock /\
  Forall (reader_made lz4_decompress hasher id) (rd_events r) /\
  bytes_of (event_bytes <$> (rd_channel r).*1 ++ phase_event (rd_phase r)) <= EVENT_BYTES_PER_READER /\
  (forall hdr now, rd_phase r = RdBudget hdr -> rd_channel r = [] ->
     rd_phase (reader_step lz4_decompress hasher eof_text id r (RGo now)) = RdPayload hdr).
Proof.
  intros Hb r. pose proof (run_reader_inv lz4_decompress hasher eof_text id sock evs Hb) as [Hp Hv Hm Hc Ho Ha].
  fold r in Hp, Hv, Hm, Hc, Ho, Ha. pose proof (phase_bytes lz4_decompress hasher id _ Ho) as [Hph Hpos].
  split_and!.
  - exact (accounted_prefix _ _ Ha).
  - unfold rd_events. rewrite app_assoc. apply Forall_app. split; [done|].
    destruct (rd_phase r); cbn in *; try (by apply Forall_nil_2); apply Forall_singleton; apply Ho.
  - rewrite fmap_app, bytes_of_app, channel_bytes by done. lia.
  - intros hdr now Eph Ech. rewrite Eph, Ech in *. cbn in Hp, Ho. unfold reader_step, reader_go. rewrite Eph.
    pose proof (frame_len_nonneg hdr (proj1 Ho)).
    rewrite (proj2 (Z.leb_le _ _)); [done|]. destruct Ho as [_ Ho]. unfold reader_permits, EVENT_BYTES_PER_READER, MAX_LIVE_FRAME in *. lia.
Qed.
End Properties.

(** The session of [example_run], each frame read by a reader of its own; the writer's fourth write
    times out after four bytes. *)
Definition example_reads (id r now : Z) : Reader :=
  run_reader no_lz4 example_hasher "early eof" id
    [RData (take 3 (example_block r)); RData (drop 3 (example_block r))] [RGo now; RGo now; RGo now; RGo now; RHandled].

Lemma example_from_reader id r now :
  rd_handled (example_reads id r now) =
    [Frame id (example_block r) (classify no_lz4 example_hasher (example_block r)) now] ->
  forallb (fun b => bool_decide (is_byte b)) (example_block r) = true ->
  match classify no_lz4 example_hasher (example_block r) with Some b => b.1.1 <? u32_max | None => true end = true ->
  from_reader no_lz4 example_hasher "early eof" (example_frame id r now).
Proof.
  intros E Hb Hr. split.
  - intros r' p h Hc. rewrite Hc in Hr. cbn in Hr. lia.
  - exists [RData (take 3 (example_block r)); RData (drop 3 (example_block r))], [RGo now; RGo now; RGo now; RGo now; RHandled].
    split; [|fold (example_reads id r now); rewrite E; by left].
    rewrite !data_cons, app_nil_r, take_drop. apply Forall_forall.
    intros x Hx. apply forallb_forall with (x := x) in Hb; [|by apply list_elem_of_In]. by apply bool_decide_eq_true in Hb.
Qed.

Lemma failover_wire_is_one_chain_witness :
  let '(done, part, r) := node_writer false (queued example_run.1) [(WriteOk, 0%nat); (WriteOk, 0%nat); (WriteOk, 0%nat); (WriteTimeout, 4%nat)] in
  done = [example_block 2000000001; example_block 2000000002; example_block 2000000003] /\
  part = take 4 (example_block 2000000004) /\ r = Some "node write timeout"%string /\
  StronglySorted Z.lt (2000000000 :: frame_rounds no_lz4 example_hasher done).
Proof.
  assert (Hin : Forall (from_reader no_lz4 example_hasher "early eof") (example_ins ++ [ITick (example_turn 70)])).
  { repeat (apply Forall_cons_2; [first [exact I|apply example_from_reader; vm_compute; reflexivity]|]). apply Forall_nil_2. }
  pose proof (failover_wire_is_one_chain no_lz4 example_hasher "early eof" example_fo example_tier0 [] "1.1.1.1"
    None 2000000000 0 ACCEPT_GREETING [] (fun _ => example_turn 0) (example_ins ++ [ITick (example_turn 70)]) false
    [(WriteOk, 0%nat); (WriteOk, 0%nat); (WriteOk, 0%nat); (WriteTimeout, 4%nat)]
    ltac:(unfold u32_max; lia) ltac:(exists 0, [3]; split; [reflexivity|vm_compute; discriminate]) (Forall_nil_2 _) Hin) as Hw.
  cbn zeta in Hw. change (serve_failover no_lz4 example_hasher example_fo
    (session_start example_fo example_tier0 [] "1.1.1.1" None 2000000000 0) [] (fun _ => example_turn 0)
    (example_ins ++ [ITick (example_turn 70)])) with example_run in Hw.
  assert (E : node_writer false (queued example_run.1) [(WriteOk, 0%nat); (WriteOk, 0%nat); (WriteOk, 0%nat); (WriteTimeout, 4%nat)] =
    ([example_block 2000000001; example_block 2000000002; example_block 2000000003],
     take 4 (example_block 2000000004), Some "node write timeout"%string)) by (vm_compute; reflexivity).
  rewrite E in *. split_and!; [reflexivity..|]. apply Hw.
Defined.

Lemma reader_is_faithful_and_bounded_witness :
  let sock := [RData [0; 0; 0; 1; 0; 7; 0; 0]; RData [0; 2; 0; 8]; REof] in
  rd_events (run_reader no_lz4 example_hasher "early eof" 5 sock [RGo 1; RGo 1; RGo 1; RGo 1; RGo 2; RGo 2; RGo 2; RGo 2]) =
    [Frame 5 [0; 0; 0; 1; 0; 7] None 1; Closed 5 "read error: early eof"] /\
  [0; 0; 0; 1; 0; 7] `prefix_of` data sock.
Proof.
  intros sock. pose proof (reader_is_faithful_and_bounded no_lz4 example_hasher "early eof" 5 sock
    [RGo 1; RGo 1; RGo 1; RGo 1; RGo 2; RGo 2; RGo 2; RGo 2]) as Hw. cbn zeta in Hw.
  assert (E : rd_events (run_reader no_lz4 example_hasher "early eof" 5 sock
    [RGo 1; RGo 1; RGo 1; RGo 1; RGo 2; RGo 2; RGo 2; RGo 2]) =
    [Frame 5 [0; 0; 0; 1; 0; 7] None 1; Closed 5 "read error: early eof"]) by (vm_compute; reflexivity).
  rewrite E in Hw. split; [exact E|]. destruct Hw as [Hw _]; [|exact Hw].
  repeat (apply Forall_cons_2; [split; vm_compute; [discriminate|reflexivity]|]). apply Forall_nil_2.
Defined.
