(* ===== verification/Status.v ===== *)
(** The status of a failover session: [status_json] of [src/failover/core.rs], the snapshots a session
    publishes, the line it logs every minute, and the task that writes the status file
    ([src/failover/session.rs]).

    A file system is a map from names in the status directory to contents. *)

From S2P Require Import Prelude Text Blacklist BTree Wire Priority Redact Freshest PushSession FailoverCore FailoverChain FailoverSession.

(** ** The text *)

Definition show_int (n : Z) : string := if n <? 0 then "-" +:+ show (- n) else show n.
Definition show_bool (b : bool) : string := if b then "true" else "false".
Definition quote : string := text [QUOTE].

Fixpoint join_with (sep : string) (l : list string) : string :=
  match l with
  | [] => ""
  | [x] => x
  | x :: l => x +:+ sep +:+ join_with sep l
  end.

Definition json_str (s : string) : string := quote +:+ s +:+ quote.
Definition json_field (name v : string) : string := quote +:+ name +:+ quote +:+ ":" +:+ v.
Definition json_obj (fields : list string) : string := "{" +:+ join_with "," fields +:+ "}".

(** [last.replace(..)]: double quotes become single ones. *)
Definition replace_quotes (s : string) : string :=
  text ((fun c => if decide (c = QUOTE) then APOS else c) <$> chars s).

Definition ms_ago (now : Z) (t : option Z) : string :=
  match t with Some t => show (as_millis (since now t)) | None => "null" end.

(** Order of strings by their bytes. *)
Fixpoint chars_le (a b : list ascii) : bool :=
  match a, b with
  | [], _ => true
  | _, [] => false
  | x :: a, y :: b => if code x <? code y then true else if code x =? code y then chars_le a b else false
  end.

Definition ip_le (a b : Z * Upstream) : Prop := chars_le (chars (u_ip a.2)) (chars (u_ip b.2)) = true.

#[global] Instance ip_le_dec : RelDecision ip_le.
Proof. intros a b. unfold ip_le. apply _. Defined.

Section Text.
Context `{HashOrder} (hide : string -> string).

Definition standby_json (now : Z) (u : Upstream) : string :=
  json_obj [json_field "ip" (json_str (hide (u_ip u)));
    json_field "preferred" (show_bool (preferred u));
    json_field "verified" (show (verified u));
    json_field "lead_ms_p50" (match median_lead u with Some m => show_int m | None => "null" end);
    json_field "lead_samples" (show (Z.of_nat (length (leads u))));
    json_field "ahead" (show (Z.of_nat (length (ahead u))));
    json_field "last_rx_ms" (ms_ago now (last_rx u))].

Definition standby_list (c : Core) : list (Z * Upstream) :=
  filter (fun e => negb (e.1 =? active c) = true) (iter_order (ups c)).

(** [unix] is [unix_secs()]. *)
Definition status_json (c : Core) (node : string) (switches : Z) (last : string) (now unix : Z) : string :=
  let act := ups c !! active c in
  json_obj [json_field "node" (json_str node);
    json_field "updated" (show unix);
    json_field "active" (json_str (match act with Some u => hide (u_ip u) | None => "" end));
    json_field "active_last_rx_ms" (ms_ago now (act ≫= last_rx));
    json_field "last_forwarded" (show (last_forwarded c));
    json_field "switches" (show switches);
    json_field "last_switch" (json_str (replace_quotes last));
    json_field "standbys"
      ("[" +:+ join_with "," (standby_json now ∘ snd <$> merge_sort ip_le (standby_list c)) +:+ "]")].

Definition switch_desc (unix : Z) (old new : string) (reason : SwitchReason) : string :=
  show unix +:+ " " +:+ hide old +:+ " -> " +:+ hide new +:+ " " +:+ as_str reason.

(** The summary [gwlog!] prints, before its redaction. *)
Definition summary_line (c : Core) (node : string) (switches : Z) : string :=
  "[gw] [" +:+ node +:+ "] failover status active=" +:+ default "?" (ip_of c (active c)) +:+
  " last_forwarded=" +:+ show (last_forwarded c) +:+ " switches=" +:+ show switches +:+ " standbys=[" +:+
  join_with " " ((fun e : Z * Upstream => u_ip e.2 +:+ "(v=" +:+ show (verified e.2) +:+ " lead=" +:+
    match median_lead e.2 with Some m => show_int m +:+ "ms" | None => "-" end +:+ ")") <$> standby_list c) +:+ "]".
End Text.

(** ** What a session publishes *)

(** [sc_desc]: [last_switch_desc]; [sc_published]: the snapshots sent to the status writer;
    [sc_logged]: the lines logged. *)
Record StatusClock := mkClock {
  sc_last : Z;
  sc_summary : Z;
  sc_desc : string;
  sc_published : list string;
  sc_logged : list string
}.

Definition clock_start (now : Z) : StatusClock := mkClock (now - seconds 10) now "" [] [].

Section Publish.
Context `{HashOrder} (hide : string -> string) (fo : FailoverConfig) (node : string).

Definition note_out (unix : Z) (sc : StatusClock) (o : Out) : StatusClock :=
  match o with
  | Switched old new reason =>
      mkClock (sc_last sc) (sc_summary sc) (switch_desc hide unix old new reason) (sc_published sc) (sc_logged sc)
  | _ => sc
  end.

Definition publish_status (s : Session) (now unix : Z) (sc : StatusClock) : StatusClock :=
  match status_dir fo with
  | Some _ =>
      if seconds 1 <=? since now (sc_last sc)
      then mkClock now (sc_summary sc) (sc_desc sc)
             (sc_published sc ++ [status_json hide (s_core s) node (switches s) (sc_desc sc) now unix]) (sc_logged sc)
      else sc
  | None => sc
  end.

Definition log_summary (s : Session) (now : Z) (sc : StatusClock) : StatusClock :=
  if seconds 60 <=? since now (sc_summary sc)
  then mkClock (sc_last sc) now (sc_desc sc) (sc_published sc)
         (sc_logged sc ++ [hide (summary_line (s_core s) node (switches s))])
  else sc.

(** The end of a turn: only a tick that goes on publishes and logs. *)
Definition status_turn (i : Input) (unix : Z) (res : list Out * Flow) (sc : StatusClock) : StatusClock :=
  let sc := foldl (note_out unix) sc res.1 in
  match i, res.2 with
  | ITick tn, Running s => log_summary s (tn_now tn) (publish_status s (tn_now tn) unix sc)
  | _, _ => sc
  end.

(** The loop with its status; each input comes with the time of day. *)
Fixpoint run_status (s : Session) (ins : list (Input * Z)) (sc : StatusClock) : StatusClock :=
  match ins with
  | [] => sc
  | (i, unix) :: ins =>
      let res := step fo s i in
      let sc := status_turn i unix res sc in
      match res.2 with Running s => run_status s ins sc | Ended _ _ => sc end
  end.
End Publish.

(** ** The status file *)

Definition sanitize (node : string) : string :=
  text ((fun c => if decide (c = COLON \/ c = "/"%char) then "_"%char else c) <$> chars node).

Definition status_name (node : string) : string := "failover-" +:+ sanitize node +:+ ".json".
Definition status_tmp (node : string) : string := "." +:+ status_name node +:+ ".tmp".

(** The writer task: waiting for a change, in [tokio::fs::write] of the temporary file, in the
    rename, over. *)
Inductive SwPhase := SwWait | SwWrite (body : string) | SwRename | SwOver.

(** The [watch] channel's value, whether the receiver has yet to see it, and whether the session
    still holds the sender; [sw_sent] is everything the session sent. *)
Record StatusWriter := mkSw {
  sw_node : string;
  sw_value : string;
  sw_unseen : bool;
  sw_open : bool;
  sw_phase : SwPhase;
  sw_sent : list string
}.

Definition spawn_status_writer (node : string) : StatusWriter := mkSw node "" false true SwWait [].

(** [send_replace]; the session ends; [changed()] resolves; part of the body is in the file; the
    write ends (a failed one, after what is there); the rename ends. *)
Inductive sw_event := SSend (body : string) | SDrop | SChanged | SPart (n : nat) | SWritten (ok : bool) | SRenamed (ok : bool).

Definition sw_move (w : StatusWriter) (p : SwPhase) : StatusWriter :=
  mkSw (sw_node w) (sw_value w) (sw_unseen w) (sw_open w) p (sw_sent w).

(** [rename]: the old contents of the target are gone. *)
Definition rename (old new : string) (files : gmap string string) : gmap string string :=
  match files !! old with Some b => <[new := b]> (delete old files) | None => files end.

Definition sw_step (w : StatusWriter) (files : gmap string string) (e : sw_event) : StatusWriter * gmap string string :=
  match sw_phase w, e with
  | p, SSend body =>
      if sw_open w then (mkSw (sw_node w) body true true p (sw_sent w ++ [body]), files) else (w, files)
  | p, SDrop => (mkSw (sw_node w) (sw_value w) (sw_unseen w) false p (sw_sent w), files)
  | SwWait, SChanged =>
      if sw_unseen w
      then (mkSw (sw_node w) (sw_value w) false (sw_open w) (SwWrite (sw_value w)) (sw_sent w), files)
      else if sw_open w then (w, files) else (sw_move w SwOver, files)
  | SwWrite body, SPart n =>
      (w, <[status_tmp (sw_node w) := text (take n (chars body))]> files)
  | SwWrite body, SWritten true => (sw_move w SwRename, <[status_tmp (sw_node w) := body]> files)
  | SwWrite body, SWritten false => (sw_move w SwWait, files)
  | SwRename, SRenamed ok =>
      (sw_move w SwWait, if ok then rename (status_tmp (sw_node w)) (status_name (sw_node w)) files else files)
  | _, _ => (w, files)
  end.

(** The writers of several sessions over one directory. *)
Definition writers_step (st : list StatusWriter * gmap string string) (e : nat * sw_event)
    : list StatusWriter * gmap string string :=
  match st.1 !! e.1 with
  | Some w => let '(w, files) := sw_step w st.2 e.2 in (<[e.1 := w]> st.1, files)
  | None => st
  end.

Definition run_writers (nodes : list string) (files : gmap string string) (evs : list (nat * sw_event))
    : list StatusWriter * gmap string string :=
  foldl writers_step (spawn_status_writer <$> nodes, files) evs.

(** ** Lemmas: texts that leak nothing *)

Section Hidden.
Context (t : list ascii) (Ht : address t).

Definition hidden (s : string) : Prop := ~ occurs t (chars s).

Lemma no_dot_no_leak l : DOT ∉ l -> ~ occurs t l.
Proof. intros Hd (a & b & -> & _). destruct Ht as (_ & Hin & _). set_solver. Qed.

Lemma leak_cut a c b : addr_char c = false -> occurs t (a ++ c :: b) -> occurs t a \/ occurs t b.
Proof.
  intros Hc (x & y & E & Hx & Hy). pose proof (dotted_chars t (proj1 Ht)) as Hch.
  destruct (app_split _ _ _ _ E) as [(z & -> & E2)|(z & Hz & -> & E2)].
  - right. destruct z as [|c' z].
    + exfalso. destruct Ht as (_ & _ & Hh). destruct t as [|t0 t']; [done|]. cbn in E2. injection E2 as <- _.
      apply Forall_cons_1 in Hch as [Hch _]. congruence.
    + cbn in E2. injection E2 as <- ->. exists z, y. split_and!; [done| |done].
      destruct (decide (z = [])) as [->|Hn]; [done|]. change (c :: z) with ([c] ++ z) in Hx.
      by rewrite app_assoc, before_ok_app in Hx.
  - left. destruct (app_split _ _ _ _ E2) as [(u & -> & E3)|(u & Hu & -> & E3)].
    + exists x, u. split_and!; [done|done|]. subst y. destruct u as [|u0 [|u1 u]]; cbn in *; [done| |done].
      destruct (is_digit u0); [done|]. by case_decide.
    + exfalso. destruct u as [|u0 u]; [done|]. cbn in E3. injection E3 as <- _.
      apply Forall_app in Hch as [_ Hch]. apply Forall_cons_1 in Hch as [Hch _]. congruence.
Qed.

Lemma hidden_sep a c b : addr_char c = false -> hidden a -> hidden b -> hidden (a +:+ String c b).
Proof. intros Hc Ha Hb Hl. unfold hidden in *. rewrite chars_app in Hl. by destruct (leak_cut _ _ _ Hc Hl). Qed.

Lemma hidden_no_dot s : DOT ∉ chars s -> hidden s.
Proof. apply no_dot_no_leak. Qed.

Lemma app_assoc_str (a b c : string) : (a +:+ b) +:+ c = a +:+ (b +:+ c).
Proof. rewrite <- (text_chars ((a +:+ b) +:+ c)), <- (text_chars (a +:+ (b +:+ c))). f_equal. rewrite !chars_app. by rewrite app_assoc. Qed.

Lemma app_nil_str (a : string) : a +:+ "" = a.
Proof. rewrite <- (text_chars (a +:+ "")), chars_app. cbn. by rewrite app_nil_r, text_chars. Qed.

(** Text between two characters that no address has. *)
Lemma hidden_between a c m c' b :
  addr_char c = false -> addr_char c' = false -> hidden a -> hidden m -> hidden b ->
  hidden (a +:+ (String c m) +:+ (String c' b)).
Proof.
  intros Hc Hc' Ha Hm Hb. change (String c m +:+ String c' b) with (String c (m +:+ String c' b)).
  apply hidden_sep; [done|done|]. by apply hidden_sep.
Qed.

Lemma hidden_nil : hidden "".
Proof. apply hidden_no_dot. cbn. set_solver. Qed.

Lemma hidden_show n : hidden (show n).
Proof.
  apply hidden_no_dot. unfold show. rewrite chars_text. destruct (Z.le_gt_cases 0 n) as [Hn|Hn]; [by apply dot_free|].
  unfold show_list. replace (Z.to_nat (Z.log2 n)) with 0%nat by (rewrite Z.log2_nonpos by lia; done). cbn.
  assert (E : (n <? 10) = true) by lia. rewrite E.
  intros Hin%list_elem_of_singleton. pose proof (digit_char_digit (n mod 10) ltac:(pose proof (Z.mod_pos_bound n 10); lia)) as Hd.
  by rewrite <- Hin in Hd.
Qed.

Lemma hidden_show_int n : hidden (show_int n).
Proof.
  unfold show_int. destruct (Z.ltb_spec n 0); [|apply hidden_show].
  apply (hidden_sep "" "-"%char); [reflexivity|apply hidden_nil|apply hidden_show].
Qed.

Lemma hidden_json_str s : hidden s -> hidden (json_str s).
Proof.
  intros Hs. unfold json_str. apply (hidden_sep "" QUOTE); [reflexivity|apply hidden_nil|].
  apply (hidden_sep s QUOTE ""); [reflexivity|done|apply hidden_nil].
Qed.

Lemma hidden_field name v : DOT ∉ chars name -> hidden v -> hidden (json_field name v).
Proof.
  intros Hn Hv. unfold json_field. apply (hidden_sep "" QUOTE); [reflexivity|apply hidden_nil|].
  apply (hidden_sep name QUOTE (":" +:+ v)); [reflexivity|by apply hidden_no_dot|].
  apply (hidden_sep "" COLON v); [reflexivity|apply hidden_nil|done].
Qed.

Lemma hidden_join c l : addr_char c = false -> Forall hidden l -> hidden (join_with (String c "") l).
Proof.
  intros Hc Hl. induction Hl as [|x l Hx Hl IH]; [apply hidden_nil|]. cbn [join_with]. destruct l as [|y l]; [done|].
  by apply (hidden_sep x c).
Qed.

Lemma hidden_brackets c s c' :
  addr_char c = false -> addr_char c' = false -> hidden s -> hidden (String c "" +:+ s +:+ String c' "").
Proof.
  intros Hc Hc' Hs. apply (hidden_sep "" c); [done|apply hidden_nil|]. apply (hidden_sep s c' ""); [done|done|apply hidden_nil].
Qed.

Lemma hidden_obj l : Forall hidden l -> hidden (json_obj l).
Proof. intros Hl. apply hidden_brackets; [reflexivity|reflexivity|]. by apply hidden_join. Qed.

Lemma leaks_map f l :
  (forall c, f c = c \/ addr_char (f c) = false) -> (forall c, addr_char c = addr_char (f c)) -> occurs t (f <$> l) -> occurs t l.
Proof.
  intros Hf Haddr (a & b & E & Ha & Hb). apply fmap_app_inv in E as (a' & r & -> & Er & ->).
  symmetry in Er. apply fmap_app_inv in Er as (t' & b' & Et & -> & ->).
  assert (Heq : t' = t).
  { pose proof (dotted_chars t (proj1 Ht)) as Hch. clear -Hf Hch Et. revert t' Et.
    induction Hch as [|c t Hc _ IH]; intros [|x t'] Et; cbn in Et; try done. injection Et as -> Et. f_equal; [|auto].
    destruct (Hf x) as [->|Hx]; [done|congruence]. }
  subst t'. exists a', b'. split_and!; [done| |].
  - unfold before_ok in *. rewrite fmap_last in Ha. destruct (last a'); [|done]. cbn in Ha. by rewrite Haddr.
  - assert (Hd : forall c, is_digit c = is_digit (f c) /\ (c = DOT <-> f c = DOT)).
    { intros c. destruct (Hf c) as [->|Hx]; [done|]. pose proof (Haddr c) as Hy. rewrite Hx in Hy. unfold addr_char in *.
      apply orb_false_iff in Hx as [H1 H2], Hy as [H3 H4]. apply bool_decide_eq_false in H2, H4. split; [congruence|by split]. }
    destruct b' as [|x [|y b']]; cbn in *; [done| |]; rewrite (proj1 (Hd x)); (destruct (is_digit (f x)); [done|]).
    + by repeat case_decide.
    + rewrite (proj1 (Hd y)). pose proof (proj2 (Hd x)). repeat case_decide; tauto.
Qed.

Lemma hidden_replace_quotes s : hidden s -> hidden (replace_quotes s).
Proof.
  intros Hs Hl. apply Hs. unfold replace_quotes in Hl. rewrite chars_text in Hl.
  eapply leaks_map; [| |exact Hl]; intros c; cbn; case_decide; subst; auto.
Qed.
End Hidden.

(** ** Lemmas: what a session publishes *)

Section PublishLemmas.
Context `{HashOrder} (t : list ascii) (Ht : address t) (hide : string -> string) (Hhide : forall s, hidden t (hide s)).

Lemma hidden_ms_ago now o : hidden t (ms_ago now o).
Proof. destruct o; [by apply hidden_show|]. apply hidden_no_dot; [done|]. vm_compute. set_solver. Qed.

Lemma hidden_literal s : existsb (fun c => bool_decide (c = DOT)) (chars s) = false -> hidden t s.
Proof.
  intros Hs. apply hidden_no_dot; [done|]. intros Hin. apply list_elem_of_In in Hin.
  rewrite <- not_true_iff_false, existsb_exists in Hs. apply Hs. exists DOT. split; [done|by apply bool_decide_eq_true].
Qed.

Lemma hidden_standby now u : hidden t (standby_json hide now u).
Proof.
  apply hidden_obj; [done|].
  repeat (apply Forall_cons_2; [apply hidden_field; [done|vm_compute; set_solver|]|]); [..|apply Forall_nil_2].
  - by apply hidden_json_str.
  - destruct (preferred u); by apply hidden_literal.
  - by apply hidden_show.
  - destruct (median_lead u); [by apply hidden_show_int|by apply hidden_literal].
  - by apply hidden_show.
  - by apply hidden_show.
  - apply hidden_ms_ago.
Qed.

Lemma hidden_status c node n last now unix :
  hidden t node -> hidden t last -> hidden t (status_json hide c node n last now unix).
Proof.
  intros Hn Hl. apply hidden_obj; [done|].
  repeat (apply Forall_cons_2; [apply hidden_field; [done|vm_compute; set_solver|]|]); [..|apply Forall_nil_2].
  - by apply hidden_json_str.
  - by apply hidden_show.
  - apply hidden_json_str; [done|]. destruct (ups c !! active c); [done|by apply hidden_nil].
  - apply hidden_ms_ago.
  - by apply hidden_show.
  - by apply hidden_show.
  - by apply hidden_json_str, hidden_replace_quotes.
  - apply hidden_brackets; [done|reflexivity|reflexivity|]. apply hidden_join; [done|reflexivity|].
    apply Forall_fmap, Forall_true. intros e. apply hidden_standby.
Qed.

Lemma hidden_desc unix old new reason : hidden t (switch_desc hide unix old new reason).
Proof.
  unfold switch_desc. apply (hidden_sep t Ht _ " "%char); [reflexivity|by apply hidden_show|].
  apply (hidden_sep t Ht _ " "%char); [reflexivity|done|].
  apply (hidden_sep t Ht "->" " "%char); [reflexivity|by apply hidden_literal|].
  apply (hidden_sep t Ht _ " "%char); [reflexivity|done|]. destruct reason; by apply hidden_literal.
Qed.

Definition clock_hidden (sc : StatusClock) : Prop :=
  hidden t (sc_desc sc) /\ Forall (hidden t) (sc_published sc ++ sc_logged sc).

Lemma status_turn_hidden fo node i unix res sc :
  hidden t node -> clock_hidden sc -> clock_hidden (status_turn hide fo node i unix res sc).
Proof.
  intros Hn Hc. unfold status_turn. set (sc1 := foldl _ _ _).
  assert (H1 : clock_hidden sc1).
  { apply foldl_inv; [done|]. intros sc0 [f|id b|old new reason] H0; [done|done|]. split; [apply hidden_desc|apply H0]. }
  destruct i as [| |tn| |]; try done. destruct res.2 as [s|]; [|done].
  assert (H2 : clock_hidden (publish_status hide fo node s (tn_now tn) unix sc1)).
  { unfold publish_status. destruct (status_dir fo); [|done]. destruct (_ <=? _); [|done]. destruct H1 as [Hd Hp].
    split; [done|]. cbn. rewrite !Forall_app in *. destruct Hp as [Hp Hg]. split_and!; [done| |done].
    apply Forall_singleton. by apply hidden_status. }
  unfold log_summary. destruct (_ <=? _); [|done]. destruct H2 as [Hd Hp]. split; [done|]. cbn.
  rewrite app_assoc. apply Forall_app. split; [done|]. apply Forall_singleton, Hhide.
Qed.

Lemma run_status_hidden fo node s ins sc :
  hidden t node -> clock_hidden sc -> clock_hidden (run_status hide fo node s ins sc).
Proof.
  intros Hn. revert s sc. induction ins as [|[i unix] ins IH]; intros s sc Hc; cbn [run_status]; [done|].
  pose proof (status_turn_hidden fo node i unix (step fo s i) sc Hn Hc) as H1.
  destruct (step fo s i).2; [by apply IH|done].
Qed.
End PublishLemmas.

(** ** Lemmas: the status file *)

Lemma status_name_tmp a b : status_name a <> status_tmp b.
Proof. unfold status_tmp. unfold status_name at 1. discriminate. Qed.

Lemma status_tmp_inj a b : status_tmp a = status_tmp b -> status_name a = status_name b.
Proof.
  unfold status_tmp. intros [= E]. apply (f_equal chars) in E. rewrite !chars_app in E.
  apply app_inv_tail in E. change (chars "") with (@nil ascii) in E. rewrite !app_nil_l, <- !chars_app in E.
  unfold status_name. f_equal. by rewrite <- (text_chars (sanitize a +:+ _)), E, text_chars.
Qed.

(** [w] has its own two files; [old] is what the status file held at the start. *)
Record writer_inv (old : option string) (w : StatusWriter) (files : gmap string string) : Prop := {
  wi_unseen : sw_unseen w = true -> last (sw_sent w) = Some (sw_value w);
  wi_phase : match sw_phase w with
    | SwWrite body => body ∈ sw_sent w
    | SwRename => exists b, files !! status_tmp (sw_node w) = Some b /\ b ∈ sw_sent w
    | SwWait => True
    | SwOver => sw_unseen w = false /\ sw_open w = false
    end;
  wi_file : files !! status_name (sw_node w) = old \/
    exists b, files !! status_name (sw_node w) = Some b /\ b ∈ sw_sent w
}.

Lemma last_elem {A} (l : list A) x : last l = Some x -> x ∈ l.
Proof. intros (l' & ->)%last_Some. set_solver. Qed.

Lemma sw_step_inv old w files e :
  writer_inv old w files -> let '(w', files') := sw_step w files e in writer_inv old w' files'.
Proof.
  intros [H1 H2 H3]. unfold sw_step.
  destruct e as [body| | |n|ok|ok].
  - assert (Hs : sw_open w = true -> writer_inv old (mkSw (sw_node w) body true true (sw_phase w) (sw_sent w ++ [body])) files).
    { intros Ho. split; cbn.
      - by rewrite last_snoc.
      - destruct (sw_phase w); [done|set_solver| |]; [|destruct H2; congruence]. destruct H2 as (b & Hb & Hin). exists b. set_solver.
      - destruct H3 as [H3|(b & Hb & Hin)]; [by left|]. right. exists b. set_solver. }
    destruct (sw_phase w) eqn:Ep, (sw_open w) eqn:Eo; try (by apply Hs); split; rewrite ?Ep, ?Eo; done.
  - destruct (sw_phase w) eqn:Ep; split; cbn; rewrite ?Ep; try done. by destruct H2.
  - destruct (sw_phase w) eqn:Ep; try (split; cbn; rewrite ?Ep; done). destruct (sw_unseen w) eqn:Eu.
    + split; cbn; [done|by apply last_elem, H1|done].
    + destruct (sw_open w) eqn:Eo; split; cbn; rewrite ?Ep, ?Eu; done.
  - destruct (sw_phase w) eqn:Ep; try (split; cbn; rewrite ?Ep; done). split; [done|by rewrite Ep|].
    by rewrite lookup_insert_ne by (intros E; by apply (eq_sym) in E; apply status_name_tmp in E).
  - destruct (sw_phase w) eqn:Ep; try (split; cbn; rewrite ?Ep; done). destruct ok; split; cbn; try done.
    + exists body. by rewrite lookup_insert_eq.
    + by rewrite lookup_insert_ne by (intros E; by apply (eq_sym) in E; apply status_name_tmp in E).
  - destruct (sw_phase w) eqn:Ep; try (split; cbn; rewrite ?Ep; done). split; cbn; [done|done|].
    destruct ok; [|done]. destruct H2 as (b & Hb & Hin). unfold rename. rewrite Hb. right. exists b.
    by rewrite lookup_insert_eq.
Qed.

Lemma sw_step_node w files e : sw_node (sw_step w files e).1 = sw_node w.
Proof. unfold sw_step. destruct (sw_phase w), e as [| | | |[]|]; try done; repeat case_match; done. Qed.

(** A writer touches its own two files. *)
Lemma sw_step_frame w files e n :
  n <> status_name (sw_node w) -> n <> status_tmp (sw_node w) -> (sw_step w files e).2 !! n = files !! n.
Proof.
  intros H1 H2. unfold sw_step. destruct (sw_phase w), e as [| | |k|[]|[]]; cbn; try done;
    try (repeat case_match; done); try by rewrite lookup_insert_ne.
  unfold rename. destruct (files !! status_tmp _); [|done]. by rewrite lookup_insert_ne, lookup_delete_ne.
Qed.

Definition all_writers (nodes : list string) (files0 : gmap string string) (st : list StatusWriter * gmap string string) : Prop :=
  sw_node <$> st.1 = nodes /\ forall k w, st.1 !! k = Some w -> writer_inv (files0 !! status_name (sw_node w)) w st.2.

Lemma writers_step_inv nodes files0 st e :
  NoDup (status_name <$> nodes) -> all_writers nodes files0 st -> all_writers nodes files0 (writers_step st e).
Proof.
  intros Hn [Hd Hw]. unfold writers_step. destruct e as [k e], st as [ws files]. cbn [fst snd] in *.
  destruct (ws !! k) as [w|] eqn:Ek; [|done]. pose proof (sw_step_inv _ w files e (Hw k w Ek)) as Hi.
  pose proof (sw_step_node w files e) as Hnode. pose proof (fun n => sw_step_frame w files e n) as Hf.
  destruct (sw_step w files e) as [w' files']. cbn [fst snd] in *. split; cbn [fst snd].
  - rewrite list_fmap_insert, Hnode, <- Hd. apply list_insert_id. by rewrite list_lookup_fmap, Ek.
  - intros j v Hj. apply list_lookup_insert_Some in Hj as [(-> & <- & _)|[Hne Hj]]; [by rewrite Hnode|].
    assert (Hname : status_name (sw_node v) <> status_name (sw_node w)).
    { intros E. apply Hne. rewrite <- Hd, <- list_fmap_compose in Hn. eapply (NoDup_lookup _ _ _ (status_name (sw_node v)) Hn);
        rewrite list_lookup_fmap; [rewrite Ek; cbn; by rewrite E|by rewrite Hj]. }
    assert (Htmp : status_tmp (sw_node v) <> status_tmp (sw_node w)) by (intros E; by apply Hname, status_tmp_inj).
    destruct (Hw j v Hj) as [I1 I2 I3]. split; [done| |].
    + destruct (sw_phase v); try done. destruct I2 as (b & Hb & Hin). exists b. split; [|done].
      rewrite Hf; [done| |done]. intros E. symmetry in E. by apply status_name_tmp in E.
    + rewrite Hf; [done|done|]. apply status_name_tmp.
Qed.

Lemma run_writers_inv nodes files evs :
  NoDup (status_name <$> nodes) -> all_writers nodes files (run_writers nodes files evs).
Proof.
  intros Hn. unfold run_writers. apply foldl_inv; [|intros st e; by apply writers_step_inv]. split; cbn.
  - rewrite <- list_fmap_compose. apply list_fmap_id.
  - intros k w Hk. apply list_lookup_fmap_Some in Hk as (node & -> & _). split; cbn; [done|done|by left].
Qed.

(** The calls of the writer succeed: what it is at, then the next snapshot. *)
Definition status_settle : list sw_event := [SWritten true; SRenamed true; SChanged; SWritten true; SRenamed true].

Lemma writers_one k es st w :
  st.1 !! k = Some w ->
  foldl writers_step st ((fun e => (k, e)) <$> es) =
    let '(w', files') := foldl (fun wf e => sw_step wf.1 wf.2 e) (w, st.2) es in (<[k := w']> st.1, files').
Proof.
  revert st w. induction es as [|e es IH]; intros [ws files] w Hk; cbn [foldl fmap list_fmap fst snd] in *.
  { by rewrite list_insert_id. }
  unfold writers_step at 2. cbn [fst snd]. rewrite Hk. destruct (sw_step w files e) as [w1 files1].
  rewrite (IH _ w1) by (cbn; apply list_lookup_insert_eq; by eapply lookup_lt_Some). cbn [fst snd].
  destruct (foldl _ _ es) as [w2 files2]. by rewrite list_insert_insert_eq.
Qed.

(** A new snapshot gets to the file when the calls succeed. *)
Lemma status_settle_fresh old w files :
  writer_inv old w files -> sw_unseen w = true ->
  (foldl (fun wf e => sw_step wf.1 wf.2 e) (w, files) status_settle).2 !! status_name (sw_node w) = last (sw_sent w).
Proof.
  intros [H1 H2 _] Hu. specialize (H1 Hu). rewrite H1.
  assert (Hlast : forall w1 files1, sw_phase w1 = SwWait -> sw_unseen w1 = true -> sw_value w1 = sw_value w -> sw_node w1 = sw_node w ->
    (foldl (fun wf e => sw_step wf.1 wf.2 e) (w1, files1) [SChanged; SWritten true; SRenamed true]).2
      !! status_name (sw_node w) = Some (sw_value w)).
  { intros w1 files1 Ep Eu Ev En. cbn [foldl fst snd].
    assert (E1 : sw_step w1 files1 SChanged =
      (mkSw (sw_node w1) (sw_value w1) false (sw_open w1) (SwWrite (sw_value w1)) (sw_sent w1), files1))
      by (unfold sw_step; by rewrite Ep, Eu).
    rewrite E1. cbn. unfold rename. rewrite lookup_insert_eq, En, Ev. by rewrite lookup_insert_eq. }
  change status_settle with ([SWritten true; SRenamed true] ++ [SChanged; SWritten true; SRenamed true]). rewrite foldl_app.
  assert (E : exists w1 files1, foldl (fun wf e => sw_step wf.1 wf.2 e) (w, files) [SWritten true; SRenamed true] = (w1, files1) /\
    sw_phase w1 = SwWait /\ sw_unseen w1 = true /\ sw_value w1 = sw_value w /\ sw_node w1 = sw_node w).
  { cbn [foldl fst snd]. destruct (sw_phase w) eqn:Ep; [..|destruct H2; congruence];
      unfold sw_step; rewrite ?Ep; cbn; rewrite ?Ep; by eexists _, _. }
  destruct E as (w1 & files1 & -> & E1 & E2 & E3 & E4). by apply Hlast.
Qed.

(** ** Properties *)

(** C18: the status of a failover session never names a priority peer. Whatever the session goes
    through, no snapshot it publishes (active, standbys, last switch) and no summary line it logs
    holds a listed address as a whole address, as long as the node's own label is none. *)
Theorem status_never_names_a_priority_peer `{HashOrder} (env : string -> option string) (fo : FailoverConfig) (node : string)
    (s : Session) (ins : list (Input * Z)) (now : Z) (ip : string) :
  ip ∈ priority_peers_from_env env -> ~ leaks (chars ip) (chars node) ->
  let hide := redact (init_redaction None (priority_peers_from_env env)) in
  let sc := run_status hide fo node s ins (clock_start now) in
  Forall (fun line => ~ leaks (chars ip) (chars line)) (sc_published sc ++ sc_logged sc).
Proof.
  intros Hin Hn hide sc. pose proof (priority_peers_addresses (default EmptyString (env "HYPERSYNC_PRIORITY_PEERS"))) as Ha.
  fold (priority_peers_from_env env) in Ha.
  assert (Ht : address (chars ip)) by (rewrite Forall_forall in Ha; by apply Ha).
  rewrite leaks_occurs in Hn.
  refine (Forall_impl _ _ _ (proj2 (run_status_hidden (chars ip) Ht hide _ fo node s ins (clock_start now) Hn _)) _).
  3:{ intros line Hl. by rewrite leaks_occurs. }
  - intros line. unfold hide, redact. by apply redact_with_hidden.
  - split; [by apply hidden_nil|apply Forall_nil_2].
Qed.

(** C20: readers of the status file see whole snapshots. However the writer tasks of the sessions
    interleave, fail in the middle of a write or of a rename, or outlive their sessions: the status
    file of a node is what it was at the start or in full one of the snapshots its session published,
    as long as the sessions write to different files; and a snapshot the writer has yet to take, also
    one sent just before the session ended, is the file's contents once its calls succeed. *)
Theorem status_file_is_whole (nodes : list string) (files : gmap string string) (evs : list (nat * sw_event))
    (k : nat) (node : string) :
  NoDup (status_name <$> nodes) -> nodes !! k = Some node ->
  let st := run_writers nodes files evs in
  exists w, st.1 !! k = Some w /\
    (st.2 !! status_name node = files !! status_name node \/
     exists b, st.2 !! status_name node = Some b /\ b ∈ sw_sent w) /\
    (sw_unseen w = true ->
     (foldl writers_step st ((fun e => (k, e)) <$> status_settle)).2 !! status_name node = last (sw_sent w)).
Proof.
  intros Hn Hk st. destruct (run_writers_inv nodes files evs Hn) as [Hd Hw]. fold st in Hd, Hw.
  assert (Hex : exists w, st.1 !! k = Some w /\ sw_node w = node).
  { rewrite <- Hd, list_lookup_fmap in Hk. destruct (st.1 !! k) as [w|]; [|done]. exists w. by injection Hk. }
  destruct Hex as (w & Hl & <-). exists w. pose proof (Hw k w Hl) as Hi. split_and!; [done|apply Hi|].
  intros Hu. rewrite (writers_one k status_settle st w Hl). pose proof (status_settle_fresh _ w st.2 Hi Hu) as Hs.
  by destruct (foldl _ (w, st.2) status_settle) as [w' files'].
Qed.

(** Two sessions of one node share the temporary file: while the second writes its first snapshot
    the rename of the first publishes half of it. *)
Lemma status_writers_of_one_node_tear :
  let st := run_writers ["10.0.0.1"; "10.0.0.1"]%string ∅
    [(0%nat, SSend "{aaaa}"); (0%nat, SChanged); (0%nat, SWritten true);
     (1%nat, SSend "{bbbb}"); (1%nat, SChanged); (1%nat, SPart 3); (0%nat, SRenamed true)] in
  st.2 !! status_name "10.0.0.1" = Some "{bb"%string.
Proof. vm_compute. reflexivity. Qed.

Lemma status_never_names_a_priority_peer_witness :
  let env := fun k => if decide (k = "HYPERSYNC_PRIORITY_PEERS"%string) then Some "1.1.1.1"%string else None in
  let hide := redact (init_redaction None (priority_peers_from_env env)) in
  let fo := failover_from_env (fun k => if decide (k = "HYPERSYNC_FAILOVER_STATUS_DIR"%string) then Some "/run/x"%string else None) in
  let sc := run_status hide fo "10.0.0.1" example_s0 [(ITick (example_turn (seconds 61)), 1700000000)] (clock_start 0) in
  length (sc_published sc) = 1%nat /\ length (sc_logged sc) = 1%nat /\
  Forall (fun line => ~ leaks (chars "1.1.1.1") (chars line)) (sc_published sc ++ sc_logged sc).
Proof.
  cbn zeta. split_and!; [vm_compute; reflexivity|vm_compute; reflexivity|].
  apply (status_never_names_a_priority_peer (fun k => if decide (k = "HYPERSYNC_PRIORITY_PEERS"%string) then Some "1.1.1.1"%string else None) _ "10.0.0.1" example_s0 _ 0 "1.1.1.1").
  - change ("1.1.1.1"%string ∈ ["1.1.1.1"%string]). set_solver.
  - intros (a & b & E & _). destruct (find_sub (chars "1.1.1.1") (chars "10.0.0.1")) eqn:Ef; [vm_compute in Ef; discriminate Ef|].
    exact (find_sub_None _ _ Ef a b E).
Defined.

Lemma status_file_is_whole_witness :
  let st := run_writers ["10.0.0.1"; "10.0.0.2"]%string ∅
    [(0%nat, SSend "{a}"); (0%nat, SChanged); (0%nat, SWritten true); (1%nat, SSend "{c}"); (1%nat, SChanged);
     (1%nat, SPart 1); (0%nat, SRenamed true); (0%nat, SSend "{b}"); (0%nat, SDrop)] in
  st.2 !! status_name "10.0.0.1" = Some "{a}"%string /\
  exists w, st.1 !! 0%nat = Some w /\
    (foldl writers_step st ((fun e => (0%nat, e)) <$> status_settle)).2 !! status_name "10.0.0.1" = last (sw_sent w).
Proof.
  cbn zeta. split; [vm_compute; reflexivity|].
  destruct (status_file_is_whole ["10.0.0.1"; "10.0.0.2"]%string ∅
    [(0%nat, SSend "{a}"); (0%nat, SChanged); (0%nat, SWritten true); (1%nat, SSend "{c}"); (1%nat, SChanged);
     (1%nat, SPart 1); (0%nat, SRenamed true); (0%nat, SSend "{b}"); (0%nat, SDrop)] 0 "10.0.0.1") as (w & Hw & _ & Hs).
  - apply NoDup_cons_2; [vm_compute; set_solver|apply NoDup_singleton].
  - reflexivity.
  - exists w. split; [exact Hw|]. apply Hs. vm_compute in Hw. injection Hw as <-. reflexivity.
Defined.
