(* ===== verification/ClientBlocks.v ===== *)
(** Client-block requests (port 4002): [src/gateway/client_blocks.rs].

    This file holds the request and response formats, the choice of hedge candidates and the
    prefetch of the next range. The prefetch slot of a node is shared between the node's requests,
    the fetch in the background, its expiry and every pin of the node; their interleavings are the
    sequences of [pf_event]s. The race that answers a request is in [ClientFetch]. *)

From S2P Require Import Prelude Text Blacklist Wire Node.

(** ** Responses *)

Definition STRUCTURED_PEER_ONLY : bytes := [0; 1; 0].

Definition response_is_peer_only (payload : bytes) : bool :=
  bool_decide (payload = STRUCTURED_PEER_ONLY) || contains_seq (ascii_bytes "Peer-only request") payload.

Definition response_has_no_client_blocks (payload : bytes) : bool :=
  contains_seq (ascii_bytes "no client blocks to serve") payload.

Definition response_has_client_block_round_too_large (payload : bytes) : bool :=
  contains_seq (ascii_bytes "client block round too large") payload.

Definition response_is_structured_round_too_large (payload : bytes) : bool :=
  (length payload =? 13)%nat && bool_decide (take 4 payload = [0; 1; 6; 252]) && (byte_at payload 8 =? 252).

Definition response_has_client_block_round_too_small (payload : bytes) : bool :=
  contains_seq (ascii_bytes "client block round too small") payload.

(** ** Candidates *)

(** One turn of the loop over the pool. *)
Definition add_candidate (limit : nat) (acc : list string * list string) (ip : string)
    : list string * list string :=
  let '(out, seen) := acc in
  if (limit <=? length out)%nat then acc
  else if bool_decide (ip ∉ out) && bool_decide (ip ∉ seen) then (out ++ [ip], ip :: seen)
  else acc.

(** The candidates and the next value of the round-robin counter. *)
Definition client_block_peer_candidates (head peers : list string) (rr limit : nat)
    : list string * nat :=
  if (limit =? 0)%nat then ([], rr)
  else
    let out := take limit head in
    match peers with
    | [] => (out, rr)
    | _ =>
        let n := length peers in
        ((foldl (add_candidate limit) (out, [])
           ((fun k => nth ((rr + k) mod n) peers EmptyString) <$> seq 0 n)).1, rr + Nat.max limit 1)%nat
    end.

(** ** Range requests *)

Definition client_block_range (req : bytes) : option (Z * Z) :=
  if (length req =? 16)%nat && bool_decide (take 5 req = [0; 0; 0; 11; 0]) && (byte_at req 5 =? 0) &&
     (byte_at req 6 =? 252) && (byte_at req 11 =? 252)
  then Some (from_le [byte_at req 7; byte_at req 8; byte_at req 9; byte_at req 10],
             from_le [byte_at req 12; byte_at req 13; byte_at req 14; byte_at req 15])
  else None.

Definition client_block_range_request (start end_ : Z) : bytes :=
  [0; 0; 0; 11; 0; 0; 252] ++ to_le 4 start ++ [252] ++ to_le 4 end_.

(** ** The prefetched next range *)

Definition PREFETCH_MAX_AGE : Z := seconds 20.
Definition PREFETCH_SLOTS : nat := 4.
Definition PREFETCH_TIP_MARGIN : Z := 300.
Definition PREFETCH_MAX_WIDTH : Z := 1000.
Definition PREFETCH_PIN_CHECK : Z := millis 100.
Definition CLIENT_BLOCK_FETCH_DEADLINE : Z := seconds 15.

(** [u32] arithmetic that may fail. *)
Definition checked_sub32 (a b : Z) : option Z := if b <=? a then Some (a - b) else None.
Definition checked_add32 (a b : Z) : option Z := if a + b <=? u32_max then Some (a + b) else None.

Definition next_prefetch_range (start end_ freshest : Z) : option (Z * Z) :=
  d ← checked_sub32 end_ start;
  width ← checked_add32 d 1;
  if PREFETCH_MAX_WIDTH <? width then None
  else
    next_start ← checked_add32 end_ 1;
    next_end ← checked_add32 end_ width;
    margin ← checked_sub32 freshest next_end;
    if PREFETCH_TIP_MARGIN <=? margin then Some (next_start, next_end) else None.

(** [pf_task] is the handle of the background fetch. *)
Record Prefetch := mkPf { pf_id : Z; pf_start : Z; pf_end : Z; pf_generation : Z; pf_at : Z; pf_task : nat }.

Definition serves (p : Prefetch) (start end_ generation now : Z) : bool :=
  (pf_start p =? start) && (pf_end p =? end_) && (pf_generation p =? generation) &&
  (since now (pf_at p) <=? PREFETCH_MAX_AGE).

Definition PNode : Type := NodeState Prefetch.

Definition set_prefetch (n : PNode) (p : option Prefetch) : PNode :=
  set_active n (n_active n) (lazy_active n) (rpc_peer n) p.

Definition take_prefetch (n : PNode) (start end_ now : Z) : option Prefetch * PNode :=
  match prefetch n with
  | None => (None, n)
  | Some p =>
      (if serves p start end_ (pin_generation n) now then Some p else None, set_prefetch n None)
  end.

Definition expire_prefetch (n : PNode) (id : Z) : PNode :=
  match prefetch n with
  | Some p => if pf_id p =? id then set_prefetch n None else n
  | None => n
  end.

(** [start_prefetch] up to its lock: the prefetch it will install. [id] is drawn from
    [PREFETCH_IDS], [task] is the handle of the fetch spawned for it. *)
Definition begin_prefetch (n : PNode) (id : Z) (range : Z * Z) (now : Z) (task : nat) : Prefetch :=
  mkPf id range.1 range.2 (pin_generation n) now task.

(** The part under the lock: installed unless the node was re-pinned meanwhile. *)
Definition install_prefetch (n : PNode) (p : Prefetch) : PNode :=
  if pin_generation n =? pf_generation p then set_prefetch n (Some p) else n.

(** The end of [await_prefetch]: the joined task's frame, if it is a batch and the pin is unchanged. *)
Definition await_prefetch (n : PNode) (p : Prefetch) (joined : option (string + bytes)) : option bytes :=
  match joined with
  | Some (inr frame) =>
      if bool_decide (frame !! 4%nat = Some 1) && (pin_generation n =? pf_generation p)
      then Some frame else None
  | _ => None
  end.

(** One turn of its wait: [true] when the wait is given up. *)
Definition await_gives_up (n : PNode) (p : Prefetch) (started now : Z) : bool :=
  negb (pin_generation n =? pf_generation p) || (started + CLIENT_BLOCK_FETCH_DEADLINE <=? now).

(** *** Interleavings *)

(** A node with the pins in progress (epoch taken, prefetch not yet dropped), the prefetches about
    to be installed, those taken by a request (with the range it asked for and when), and what was
    served: the prefetch, the request, the pin generation and the frame. *)
Record PfState := mkPfs {
  ps_node : PNode;
  ps_pins : list (ActivePeer * bool);
  ps_starting : list Prefetch;
  ps_waiting : list (Prefetch * (Z * Z * Z));
  ps_ids : Z;
  ps_running : nat;
  ps_served : list (Prefetch * (Z * Z * Z) * Z * bytes)
}.

Inductive pf_event :=
| PBump (ip : string) (lazy : bool)     (* a pin takes its epoch *)
| PPinned (k : nat)                     (* it drops the prefetch and stores the pin *)
| PStart (range : Z * Z) (now : Z) (task : nat)   (* a prefetch begins, if a slot is free *)
| PInstall (k : nat)
| PTaskDone                             (* a background fetch ends and frees its slot *)
| PTake (start end_ now : Z)            (* a request takes the prefetch *)
| PServe (k : nat) (joined : option (string + bytes))
| PGiveUp (k : nat)
| PExpire (id : Z).

Definition pf_step (s : PfState) (e : pf_event) : PfState :=
  let '(mkPfs n pins starting waiting ids running served) := s in
  match e with
  | PBump ip lazy =>
      let '(peer, n) := take_epoch n ip in
      mkPfs n (pins ++ [(peer, lazy)]) starting waiting ids running served
  | PPinned k =>
      match pins !! k with
      | Some (peer, lazy) =>
          let n := if (lazy : bool) then set_active n (Some peer) true (rpc_peer n) None else store_pin n peer in
          mkPfs n (delete k pins) starting waiting ids running served
      | None => s
      end
  | PStart range now task =>
      if (running <? PREFETCH_SLOTS)%nat then
        mkPfs n pins (starting ++ [begin_prefetch n ids range now task]) waiting ((ids + 1) mod 2 ^ 64)
          (S running) served
      else s
  | PInstall k =>
      match starting !! k with
      | Some p => mkPfs (install_prefetch n p) pins (delete k starting) waiting ids running served
      | None => s
      end
  | PTaskDone => mkPfs n pins starting waiting ids (running - 1) served
  | PTake start end_ now =>
      let '(p, n) := take_prefetch n start end_ now in
      mkPfs n pins starting
        (match p with Some p => waiting ++ [(p, (start, end_, now))] | None => waiting end) ids running served
  | PServe k joined =>
      match waiting !! k with
      | Some (p, r) =>
          mkPfs n pins starting (delete k waiting) ids running
            (match await_prefetch n p joined with
             | Some f => served ++ [(p, r, pin_generation n, f)]
             | None => served
             end)
      | None => s
      end
  | PGiveUp k => mkPfs n pins starting (delete k waiting) ids running served
  | PExpire id => mkPfs (expire_prefetch n id) pins starting waiting ids running served
  end.

Definition pf_start_state (ip now : Z) : PfState := mkPfs (NodeState_new ip now) [] [] [] 0 0 [].

Definition pf_run (s : PfState) (es : list pf_event) : PfState := foldl pf_step s es.

(** ** Lemmas: formats *)

Lemma range_request_length s e : length (client_block_range_request s e) = 16%nat.
Proof. unfold client_block_range_request. rewrite !length_app, !to_le_length. done. Qed.

Lemma to_le_4 z : to_le 4 z = [z mod 256; z / 256 mod 256; z / 256 / 256 mod 256; z / 256 / 256 / 256 mod 256].
Proof. done. Qed.

Lemma from_le_to_le_4 z : 0 <= z <= u32_max -> from_le (to_le 4 z) = z.
Proof. intros Hz. rewrite from_le_to_le. apply Z.mod_small. unfold u32_max in Hz. cbn. lia. Qed.

(** Range queries round-trip. The request built for a range is read back as exactly that
    range, and every request the gateway reads as a range query is the request for that range, byte
    for byte, with both rounds in [u32]; so a prefetched batch is the answer to the very bytes the
    node would send. *)
Theorem range_request_roundtrip (req : bytes) (s e : Z) :
  Forall is_byte req ->
  client_block_range req = Some (s, e) <->
  (req = client_block_range_request s e /\ 0 <= s <= u32_max /\ 0 <= e <= u32_max).
Proof.
  intros Hb. split.
  - unfold client_block_range. destruct (_ && _) eqn:E; [|done]. intros [= <- <-]. zify_bool.
    repeat match goal with H : bool_decide _ = true |- _ => apply bool_decide_eq_true in H end.
    destruct req as [|b0 [|b1 [|b2 [|b3 [|b4 [|b5 [|b6 [|b7 [|b8 [|b9 [|b10 [|b11 [|b12 [|b13 [|b14 [|b15 [|]
      ]]]]]]]]]]]]]]]]; try done.
    repeat match goal with H : byte_at _ _ = _ |- _ => cbn in H end. cbn [take] in *. simplify_eq.
    repeat (apply Forall_cons_1 in Hb as [? Hb]). change (byte_at ?l ?i) with (nth i l 0). cbn [nth].
    assert (Hr : forall a b c d, is_byte a -> is_byte b -> is_byte c -> is_byte d ->
      to_le 4 (from_le [a; b; c; d]) = [a; b; c; d] /\ 0 <= from_le [a; b; c; d] <= u32_max).
    { intros a b c d ? ? ? ?. assert (Hf : Forall is_byte [a; b; c; d])
        by (repeat (apply Forall_cons_2; [done|]); apply Forall_nil_2).
      split; [exact (to_le_from_le _ Hf)|]. pose proof (from_le_range _ Hf) as Hx. cbn in Hx |- *.
      unfold u32_max. lia. }
    destruct (Hr b7 b8 b9 b10) as [E1 ?]; [done..|]. destruct (Hr b12 b13 b14 b15) as [E2 ?]; [done..|].
    change (b7 + _) with (from_le [b7; b8; b9; b10]). change (b12 + _) with (from_le [b12; b13; b14; b15]).
    unfold client_block_range_request. rewrite E1, E2. done.
  - intros (-> & Hs & He). unfold client_block_range. rewrite range_request_length.
    unfold client_block_range_request. rewrite !to_le_4.
    change (byte_at ?l ?i) with (nth i l 0). cbn [app take nth Nat.eqb andb Z.eqb].
    rewrite bool_decide_eq_true_2 by done. cbn [Z.eqb Pos.eqb andb].
    pose proof (from_le_to_le_4 s Hs) as E1. pose proof (from_le_to_le_4 e He) as E2.
    rewrite to_le_4 in E1, E2. by rewrite E1, E2.
Qed.

(** The range fetched ahead is the node's next request and is safe to ask for. It starts right
    after the answered range, has the same width (at most [PREFETCH_MAX_WIDTH]), lies in [u32] and
    ends at least [PREFETCH_TIP_MARGIN] rounds below the freshest live round; and nothing is fetched
    ahead only if the answered range is empty, too wide, at the end of the round space or too close
    to the tip. *)
Theorem next_prefetch_range_exact (start end_ freshest a b : Z) :
  is_u32 start -> is_u32 end_ -> is_u32 freshest ->
  next_prefetch_range start end_ freshest = Some (a, b) <->
  (a = end_ + 1 /\ b = end_ + (end_ - start + 1) /\ start <= end_ /\
   end_ - start + 1 <= PREFETCH_MAX_WIDTH /\ b + PREFETCH_TIP_MARGIN <= freshest).
Proof.
  unfold is_u32. intros Hs He Hf.
  unfold next_prefetch_range, checked_sub32, checked_add32, PREFETCH_TIP_MARGIN, PREFETCH_MAX_WIDTH.
  destruct (start <=? end_) eqn:E1; cbn [mbind option_bind]; zify_bool; [|naive_solver lia].
  destruct (end_ - start + 1 <=? u32_max) eqn:E2; cbn [mbind option_bind]; zify_bool;
    [|unfold u32_max in *; naive_solver lia].
  destruct (1000 <? end_ - start + 1) eqn:E3; zify_bool; [naive_solver lia|].
  destruct (end_ + 1 <=? u32_max) eqn:E4; cbn [mbind option_bind]; zify_bool; [|naive_solver lia].
  destruct (end_ + (end_ - start + 1) <=? u32_max) eqn:E5; cbn [mbind option_bind]; zify_bool; [|naive_solver lia].
  destruct (end_ + (end_ - start + 1) <=? freshest) eqn:E6; cbn [mbind option_bind]; zify_bool; [|naive_solver lia].
  destruct (300 <=? freshest - (end_ + (end_ - start + 1))) eqn:E7; zify_bool.
  - split; [intros [= <- <-]; lia|]. intros (-> & -> & _). done.
  - naive_solver lia.
Qed.

(** A structured error is never a batch: its first four bytes would declare more than 4 GB. *)
Lemma structured_error_size p :
  response_is_structured_round_too_large p = true ->
  from_le (take 4 p) = 4228251904 /\ length p = 13%nat.
Proof.
  unfold response_is_structured_round_too_large. intros E. zify_bool.
  apply Nat.eqb_eq in H. split; [|done]. by rewrite H1.
Qed.

(** ** Lemmas: candidates *)

Lemma add_candidates_spec limit l out seen :
  NoDup out -> (length out <= limit)%nat -> (forall x, x ∈ seen -> x ∈ out) ->
  let r := (foldl (add_candidate limit) (out, seen) l).1 in
  NoDup r /\ (length r <= limit)%nat /\ out `prefix_of` r /\ (forall x, x ∈ r -> x ∈ out \/ x ∈ l) /\
  ((length r < limit)%nat -> forall x, x ∈ l -> x ∈ r).
Proof.
  revert out seen. induction l as [|ip l IH]; intros out seen Hn Hl Hs; cbn.
  { split_and!; auto. by intros _ x ?%elem_of_nil. }
  destruct (limit <=? length out)%nat eqn:El; [apply Nat.leb_le in El|apply Nat.leb_gt in El].
  - assert (Hstop : foldl (add_candidate limit) (out, seen) l = (out, seen)).
    { clear IH. induction l as [|y l IHl]; cbn; [done|].
      rewrite (proj2 (Nat.leb_le _ _) El). exact IHl. }
    rewrite Hstop. cbn. split_and!; auto. lia.
  - destruct (bool_decide (ip ∉ out) && bool_decide (ip ∉ seen)) eqn:Eb.
    + zify_bool. destruct (IH (out ++ [ip]) (ip :: seen)) as (I1 & I2 & I3 & I4 & I5).
      * apply NoDup_app. split_and!; [done| |apply NoDup_singleton].
        intros x Hx ->%list_elem_of_singleton. done.
      * rewrite length_app. cbn. lia.
      * intros x. rewrite elem_of_cons, elem_of_app, list_elem_of_singleton. intros [->|Hx]; auto.
      * split_and!; [done|done| | |].
        -- etrans; [|exact I3]. by apply prefix_app_r.
        -- intros x Hx%I4. rewrite elem_of_app, list_elem_of_singleton in Hx. rewrite elem_of_cons. naive_solver.
        -- intros Hlt x [->|Hx]%elem_of_cons; [|by apply I5].
           destruct I3 as [k ->]. rewrite !elem_of_app, list_elem_of_singleton. auto.
    + destruct (IH out seen Hn Hl Hs) as (I1 & I2 & I3 & I4 & I5). split_and!; try done.
      * intros x Hx%I4. rewrite elem_of_cons. naive_solver.
      * intros Hlt x [->|Hx]%elem_of_cons; [|by apply I5].
        destruct (decide (ip ∈ out)) as [Hin|Hin].
        -- destruct I3 as [k ->]. apply elem_of_app. by left.
        -- rewrite bool_decide_eq_true_2 in Eb by done. cbn in Eb. apply bool_decide_eq_false in Eb.
           destruct (decide (ip ∈ seen)) as [Hse|]; [by apply Hs in Hse|done].
Qed.

(** The hedge candidates: the priority head first, then pool peers, each once, at most [limit]. *)
Lemma client_block_peer_candidates_spec head peers rr limit :
  NoDup head ->
  let '(out, rr') := client_block_peer_candidates head peers rr limit in
  NoDup out /\ (length out <= limit)%nat /\ take limit head `prefix_of` out /\
  (forall x, x ∈ out -> x ∈ head \/ x ∈ peers).
Proof.
  intros Hn. unfold client_block_peer_candidates. destruct (limit =? 0)%nat eqn:El.
  { apply Nat.eqb_eq in El as ->. split_and!; [constructor|done|done|]. by intros x ?%elem_of_nil. }
  assert (Hh : NoDup (take limit head)) by (eapply sublist_NoDup; [done|apply sublist_take]).
  assert (Hl : (length (take limit head) <= limit)%nat) by (rewrite length_take; lia).
  assert (Hin : forall x, x ∈ take limit head -> x ∈ head).
  { intros x (i & Hi & _)%elem_of_take. by eapply list_elem_of_lookup_2. }
  destruct peers as [|p0 ps] eqn:Ep; [split_and!; auto|]. rewrite <- Ep.
  set (l := (fun k => nth ((rr + k) mod length peers) peers EmptyString) <$> seq 0 (length peers)).
  destruct (add_candidates_spec limit l (take limit head) [] Hh Hl) as (H1 & H2 & H3 & H4 & _).
  { by intros x ?%elem_of_nil. }
  split_and!; try done. intros x Hx%H4. destruct Hx as [Hx|Hx]; [by left; apply Hin|right].
  apply list_elem_of_fmap in Hx as (k & -> & Hk). apply elem_of_seq in Hk.
  assert (Hm : ((rr + k) mod length peers < length peers)%nat) by (apply Nat.mod_upper_bound; lia).
  destruct (lookup_lt_is_Some_2 peers _ Hm) as [x Hx]. rewrite (nth_lookup_Some _ _ _ _ Hx).
  by eapply list_elem_of_lookup_2.
Qed.

(** ** Lemmas: the prefetch slot *)

Definition is_bump (e : pf_event) : bool := match e with PBump _ _ => true | _ => false end.

Definition bumps (es : list pf_event) : Z := Z.of_nat (length (filter (fun e => is_bump e = true) es)).

(** A stale prefetch in the slot is about to be dropped by the pin that made it stale. *)
Definition slot_ok (s : PfState) : Prop :=
  forall p, prefetch (ps_node s) = Some p ->
    pf_generation p = pin_generation (ps_node s) \/
    exists pin, pin ∈ ps_pins s /\ pf_generation p < ap_epoch pin.1.

Definition served_ok (e : Prefetch * (Z * Z * Z) * Z * bytes) : Prop :=
  let '(p, (s, f, now), g, frame) := e in
  pf_start p = s /\ pf_end p = f /\ pf_generation p = g /\ since now (pf_at p) <= PREFETCH_MAX_AGE /\
  frame !! 4%nat = Some 1.

Definition waiting_ok (e : Prefetch * (Z * Z * Z)) : Prop :=
  let '(p, (s, f, now)) := e in
  pf_start p = s /\ pf_end p = f /\ since now (pf_at p) <= PREFETCH_MAX_AGE.

Definition pf_inv (b : Z) (s : PfState) : Prop :=
  pin_generation (ps_node s) = b /\ slot_ok s /\
  (forall p, prefetch (ps_node s) = Some p -> pf_generation p <= b) /\
  Forall (fun p => pf_generation p <= b) (ps_starting s) /\
  Forall waiting_ok (ps_waiting s) /\ Forall served_ok (ps_served s) /\
  (ps_running s <= PREFETCH_SLOTS)%nat.

Lemma Forall_snoc {A} (P : A -> Prop) l x : Forall P l -> P x -> Forall P (l ++ [x]).
Proof. intros. apply Forall_app. by split; [|constructor]. Qed.

Lemma pf_step_inv b s e :
  0 <= b -> (is_bump e = true -> b + 1 < 2 ^ 64) -> pf_inv b s -> pf_inv (if is_bump e then b + 1 else b) (pf_step s e).
Proof.
  intros Hb Hw (I1 & I2 & I3 & I4 & I5 & I6 & I7).
  destruct s as [n pins starting waiting ids running served]. cbn [ps_node ps_pins ps_starting ps_waiting ps_served ps_running] in *.
  unfold pin_generation in *. unfold slot_ok in I2. cbn [ps_node ps_pins] in I2. unfold pin_generation in I2.
  destruct e as [ip lz|k|range now|k| |st en now|k joined|k|id]; cbn [pf_step is_bump].
  - specialize (Hw eq_refl). cbn [take_epoch]. rewrite I1, Z.mod_small by lia.
    unfold pf_inv, slot_ok, pin_generation. cbn. split_and!; try done.
    + intros p Hp. right. exists (mkPeer ip (b + 1), lz). split; [apply elem_of_app; right; by left|].
      cbn. specialize (I3 p Hp). lia.
    + intros p Hp. specialize (I3 p Hp). lia.
    + eapply Forall_impl; [done|]. cbn. lia.
  - destruct (pins !! k) as [[peer lz]|] eqn:Ek; [|by unfold pf_inv, slot_ok, pin_generation].
    unfold pf_inv, slot_ok, pin_generation. destruct lz; cbn; by split_and!.
  - destruct (running <? PREFETCH_SLOTS)%nat eqn:Er; [|by unfold pf_inv, slot_ok, pin_generation].
    apply Nat.ltb_lt in Er. unfold pf_inv, slot_ok, pin_generation. cbn. split_and!; try done.
    apply Forall_snoc; [done|]. cbn. unfold pin_generation. lia.
  - destruct (starting !! k) as [p|] eqn:Ek; [|by unfold pf_inv, slot_ok, pin_generation].
    unfold pf_inv, slot_ok, install_prefetch, pin_generation. cbn [ps_node ps_starting ps_waiting ps_served ps_running ps_pins].
    assert (Hd : Forall (fun p => pf_generation p <= b) (delete k starting)).
    { by apply Forall_delete. }
    destruct (Z.eqb_spec (next_active_epoch n) (pf_generation p)) as [Eg|]; [|by split_and!].
    cbn. split_and!; try done.
    + intros p' [= <-]. by left.
    + intros p' [= <-]. lia.
  - unfold pf_inv, slot_ok, pin_generation. cbn. split_and!; try done. lia.
  - unfold take_prefetch. destruct (prefetch n) as [p|] eqn:Ep.
    + unfold pf_inv, slot_ok, pin_generation. cbn. split_and!; try done.
      destruct (serves _ _ _ _ _) eqn:Es; [|done]. apply Forall_snoc; [done|].
      unfold serves in Es. zify_bool. done.
    + unfold pf_inv, slot_ok, pin_generation. cbn. rewrite Ep. by split_and!.
  - destruct (waiting !! k) as [[p [[st en] now]]|] eqn:Ek; [|by unfold pf_inv, slot_ok, pin_generation].
    unfold pf_inv, slot_ok, pin_generation. cbn. split_and!; try done.
    + by apply Forall_delete.
    + unfold await_prefetch, pin_generation. destruct joined as [[err|f]|]; [done| |done].
      destruct (_ && _) eqn:Ea; [|done]. apply Forall_snoc; [done|]. zify_bool.
      rewrite Forall_forall in I5. apply list_elem_of_lookup_2, I5 in Ek as (? & ? & ?). by split_and!.
  - unfold pf_inv, slot_ok, pin_generation. cbn. split_and!; try done.
    by apply Forall_delete.
  - unfold expire_prefetch. destruct (prefetch n) as [p|] eqn:Ep.
    + destruct (pf_id p =? id); unfold pf_inv, slot_ok, pin_generation; cbn; [by split_and!|].
      rewrite Ep. by split_and!.
    + unfold pf_inv, slot_ok, pin_generation. cbn. rewrite Ep. by split_and!.
Qed.

Lemma pf_run_inv b s es :
  0 <= b -> b + bumps es < 2 ^ 64 -> pf_inv b s -> pf_inv (b + bumps es) (pf_run s es).
Proof.
  revert b s. induction es as [|e es IH]; intros b s Hb Hw Hi; [by rewrite Z.add_0_r|].
  unfold bumps in *. rewrite filter_cons in *. unfold pf_run in *. cbn [foldl].
  pose proof (pf_step_inv b s e Hb) as Hs.
  destruct (is_bump e) eqn:Ee; cbn [decide length] in *.
  - rewrite (decide_True (P := true = true)) in * by done. cbn [length] in *.
    replace (b + Z.of_nat (S _)) with (b + 1 + Z.of_nat (length (filter (fun e => is_bump e = true) es))) by lia.
    apply IH; [lia|lia|]. apply Hs; [intros _; lia|done].
  - rewrite (decide_False (P := false = true)) in * by done. apply IH; [done|done|].
    by apply Hs.
Qed.

(** C22: a batch prefetched under one pin of the node is never served under another. Whatever way
    pins, prefetches, requests and expiries interleave (each pin taking its epoch before it touches
    the slot, each prefetch reading the generation before it takes the lock), every prefetched frame
    served is a batch, was fetched for exactly the range the node then asked for, at most
    [PREFETCH_MAX_AGE] before, under the pin generation at the time it was served; the generation
    counts the pins begun, so no pin came between. A prefetch of an older generation can sit in the
    slot only while the pin that outdated it is about to drop it, and at most [PREFETCH_SLOTS]
    background fetches run. *)
Theorem prefetch_never_crosses_pins (ip now : Z) (es : list pf_event) :
  bumps es < 2 ^ 64 ->
  let s := pf_run (pf_start_state ip now) es in
  Forall served_ok (ps_served s) /\ pin_generation (ps_node s) = bumps es /\
  (forall p, prefetch (ps_node s) = Some p ->
     pf_generation p = pin_generation (ps_node s) \/
     exists pin, pin ∈ ps_pins s /\ pf_generation p < ap_epoch pin.1) /\
  (ps_pins s = [] -> forall p, prefetch (ps_node s) = Some p ->
     pf_generation p = pin_generation (ps_node s)) /\
  (ps_running s <= PREFETCH_SLOTS)%nat.
Proof.
  intros Hw s. assert (Hi : pf_inv (0 + bumps es) s).
  { apply pf_run_inv; [lia|done|]. unfold pf_inv, slot_ok, pf_start_state, PREFETCH_SLOTS. cbn.
    split_and!; try done; try constructor. lia. }
  destruct Hi as (I1 & I2 & _ & _ & _ & I6 & I7). split_and!; try done.
  intros Hn p Hp. destruct (I2 p Hp) as [?|(pin & Hin & _)]; [done|].
  rewrite Hn in Hin. by apply elem_of_nil in Hin.
Qed.

(** ** Witnesses *)

Lemma range_request_roundtrip_witness :
  client_block_range (client_block_range_request 1000 1099) = Some (1000, 1099).
Proof.
  apply (range_request_roundtrip (client_block_range_request 1000 1099) 1000 1099).
  - vm_compute. repeat (apply Forall_cons_2; [unfold is_byte; split; [discriminate|reflexivity]|]).
    apply Forall_nil_2.
  - split; [reflexivity|]. unfold u32_max. lia.
Defined.

Lemma next_prefetch_range_exact_witness : next_prefetch_range 1000 1099 2000 = Some (1100, 1199).
Proof.
  apply (next_prefetch_range_exact 1000 1099 2000 1100 1199); unfold is_u32, u32_max;
    [lia|lia|lia|]. unfold PREFETCH_MAX_WIDTH, PREFETCH_TIP_MARGIN. lia.
Defined.

(** One batch prefetched and served, then one whose node is re-pinned before it is installed. *)
Definition example_pf : list pf_event :=
  [PBump "1.1.1.1" false; PPinned 0; PStart (1100, 1199) 0 0; PInstall 0; PTake 1100 1199 (seconds 3);
   PServe 0 (Some (inr [0; 0; 0; 1; 1; 7])); PStart (1200, 1299) (seconds 4) 1; PBump "2.2.2.2" false;
   PInstall 0; PPinned 0].

Lemma prefetch_never_crosses_pins_witness :
  let s := pf_run (pf_start_state 7 0) example_pf in
  prefetch (ps_node s) = None /\ length (ps_served s) = 1%nat /\ Forall served_ok (ps_served s).
Proof.
  split; [vm_compute; reflexivity|]. split; [vm_compute; reflexivity|].
  apply (prefetch_never_crosses_pins 7 0 example_pf). vm_compute. reflexivity.
Defined.
