(* ===== verification/ClientFetch.v ===== *)
(** Answering one client-block request: the race of [fetch_client_blocks_raced] and its caller
    [serve_client_blocks] in [src/gateway/client_blocks.rs].

    The race is a state machine over the wake-ups of the request's task: an attempt that ends, the
    two timeouts, the caller's deadline; other sessions use the node and the priority tier in
    between. What a wake-up reads from outside (clock, blacklist) is its [Moment]. *)

From S2P Require Import Prelude Text Blacklist Wire Priority Freshest PushSession Node Sources Race ClientBlocks.

Definition ACTIVE_4002_PIN_WAIT : Z := millis 1500.
Definition ACTIVE_4002_GRACE : Z := millis 2000.
Definition PRIORITY_4002_ROUND : Z := seconds 6.
Definition MAX_CLIENT_BLOCK_RESPONSE : Z := 64000000.
Definition CLIENT_BLOCK_RESPONSE_BYTES : Z := 512000000.
Definition CLIENT_BLOCK_FETCH_SLOTS : nat := 8.

(** ** One attempt *)

Inductive Response :=
| Frames (frame : bytes)
| PeerOnly
| RangeTooSmall (frame : bytes)
| TerminalError (frame : bytes).

Definition response_of (frame : bytes) : Response :=
  let rp := drop 5 frame in
  if response_is_peer_only rp then PeerOnly
  else if response_has_no_client_blocks rp || response_has_client_block_round_too_large rp ||
          response_is_structured_round_too_large rp then TerminalError frame
  else if response_has_client_block_round_too_small rp then RangeTooSmall frame
  else Frames frame.

(** What the peer and the network do during an attempt: an error of each await, or its result; for
    [pt_prewarm], the greeting the peer answers on 4001. *)
Record PeerTalk := mkTalk {
  pt_prewarm : IoErr + bytes;
  pt_connect : option string;
  pt_write : option string;
  pt_header : string + bytes;
  pt_budget : option string;
  pt_payload : string + bytes
}.

(** The error of the relationship opened first, when one is. *)
Definition prewarm_error (t : PeerTalk) (prewarm_live : bool) : option string :=
  if prewarm_live
  then match open_peer_relationship (pt_prewarm t) with inl e => Some (e_text e) | inr _ => None end
  else None.

Definition fetch_client_blocks_from_peer (t : PeerTalk) (prewarm_live : bool) : string + Response :=
  match prewarm_error t prewarm_live, pt_connect t, pt_write t with
  | Some e, _, _ | None, Some e, _ | None, None, Some e => inl e
  | None, None, None =>
      match pt_header t with
      | inl e => inl e
      | inr rh =>
          if MAX_CLIENT_BLOCK_RESPONSE <? frame_len rh then inl "oversized client-block response"%string
          else
            match pt_budget t, pt_payload t with
            | Some e, _ | None, inl e => inl e
            | None, inr payload => inr (response_of (rh ++ payload))
            end
      end
  end.

(** ** The race *)

Record Moment := mkAt { m_now : Z; m_bl : Blacklist }.

Definition pool_ok (t : PriorityTier) (m : Moment) : bool :=
  @pool_allowed (filter_of (m_bl m)) t (m_now m).
Definition usable_prio (t : PriorityTier) (m : Moment) : list string :=
  @candidates_at (filter_of (m_bl m)) t (m_now m).
Definition session_snapshot (n : PNode) (m : Moment) : option ActivePeer * PNode :=
  @active_session_snapshot _ (filter_of (m_bl m)) n.

Definition active_answers_first (t : PriorityTier) (ip : string) (m : Moment) : bool :=
  Priority.contains t ip || pool_ok t m.

(** The polls of [wait_active_session]: the node at each, until one has a session or the time is
    up. *)
Fixpoint wait_active_session (deadline : Z) (polls : list (Moment * PNode)) : option ActivePeer :=
  match polls with
  | [] => None
  | (m, n) :: polls =>
      match (session_snapshot n m).1 with
      | Some p => Some p
      | None => if deadline <=? m_now m then None else wait_active_session deadline polls
      end
  end.

(** An attempt of the set: the pin it answers for, its address, the slot it holds while it runs;
    once it has ended, its result ([Some None] for a panic). *)
Record Attempt := mkAtt {
  at_tag : option ActivePeer; at_ip : string; at_slot : option nat;
  at_done : option (option (string + Response))
}.

Record Fetch := mkFetch {
  f_tier : PriorityTier;
  f_others : list nat;
  f_node : PNode;
  f_rr : nat;
  f_set : list Attempt;
  f_failures : list string;
  f_terminal : option bytes;
  f_small : option bytes;
  f_deferred : option ActivePeer;
  f_first : bool;                    (* the first attempt has its grace *)
  f_hedged : bool;                   (* [pool_hedged] *)
  f_pending : list string;
  f_result : option (string + bytes)
}.

(** What does not change during a request. *)
Record FetchCfg := mkFCfg {
  fc_peers : list string;
  fc_started : Z;
  fc_first_ip : option string;
  fc_deferred_pin : option ActivePeer
}.

Definition prewarm_slot (t : PriorityTier) (ip : string) : option (option nat * PriorityTier) :=
  if Priority.contains t ip then
    match try_acquire t ip with Some (i, t) => Some (Some i, t) | None => None end
  else Some (None, t).

Definition set_race (s : Fetch) (t : PriorityTier) (set : list Attempt) (pending : list string) : Fetch :=
  mkFetch t (f_others s) (f_node s) (f_rr s) set (f_failures s) (f_terminal s) (f_small s)
    (f_deferred s) (f_first s) (f_hedged s) pending (f_result s).

(** The [for ip in round] loop. *)
Definition launch_one (cfg : FetchCfg) (s : Fetch) (ip : string) : Fetch :=
  if bool_decide (fc_first_ip cfg = Some ip) ||
     bool_decide (ap_ip <$> fc_deferred_pin cfg = Some ip) then s
  else
    match prewarm_slot (f_tier s) ip with
    | None => s
    | Some (slot, t) =>
        set_race s t (f_set s ++ [mkAtt None ip slot None])
          (if f_hedged s then f_pending s else f_pending s ++ [ip])
    end.

(** The top of the outer loop: the deferred pool active once the pool may serve, then the round. *)
Definition launch_deferred (s : Fetch) : Fetch :=
  if f_hedged s then
    match f_deferred s with
    | Some peer =>
        mkFetch (f_tier s) (f_others s) (f_node s) (f_rr s)
          (f_set s ++ [mkAtt (Some peer) (ap_ip peer) None None]) (f_failures s) (f_terminal s) (f_small s)
          None (f_first s) (f_hedged s) (f_pending s) (f_result s)
    | None => s
    end
  else s.

Definition launch_round (cfg : FetchCfg) (s : Fetch) (round : list string) : Fetch :=
  foldl (launch_one cfg) (set_race (launch_deferred s) (f_tier s) (f_set (launch_deferred s)) []) round.

Definition slots_in (set : list Attempt) : list nat := omap at_slot set.

(** The request is answered: the race's attempts are dropped with their slots. *)
Definition answer (s : Fetch) (r : string + bytes) : Fetch :=
  mkFetch (foldl drop_session (f_tier s) (slots_in (f_set s))) (f_others s) (f_node s) (f_rr s) []
    (f_failures s) (f_terminal s) (f_small s) (f_deferred s) false (f_hedged s) (f_pending s) (Some r).

Definition last_resort (s : Fetch) : string + bytes :=
  match f_terminal s, f_small s with
  | Some frame, _ | None, Some frame => inr frame
  | None, None => inl (String.concat "; " (f_failures s))
  end.

Definition set_hedge (s : Fetch) (rr : nat) (hedged : bool) : Fetch :=
  mkFetch (f_tier s) (f_others s) (f_node s) rr (f_set s) (f_failures s) (f_terminal s) (f_small s)
    (f_deferred s) false hedged (f_pending s) (f_result s).

(** The end of a round: the request ends, or the pool is hedged. *)
Definition end_round (cfg : FetchCfg) (s : Fetch) : Fetch :=
  if f_hedged s || bool_decide (is_Some (f_terminal s)) || bool_decide (is_Some (f_small s)) ||
     (bool_decide (fc_peers cfg = []) && bool_decide (f_deferred s = None))
  then answer s (last_resort s)
  else
    let '(round, rr) := client_block_peer_candidates [] (fc_peers cfg) (f_rr s) 8 in
    let s := launch_round cfg (set_hedge s rr true) round in
    if bool_decide (f_set s = []) then answer s (last_resort s) else s.

(** [join_next] on an empty set ends the round. *)
Definition settle (cfg : FetchCfg) (s : Fetch) : Fetch :=
  if bool_decide (f_set s = []) then end_round cfg s else s.

(** Stage 2. *)
Definition hedge (cfg : FetchCfg) (s : Fetch) (m : Moment) : Fetch :=
  let prio := usable_prio (f_tier s) m in
  let pool_waits := exclusive (f_tier s) && negb (bool_decide (prio = [])) in
  let '(round, rr) :=
    if pool_waits then client_block_peer_candidates prio [] (f_rr s) (length prio)
    else client_block_peer_candidates prio (fc_peers cfg) (f_rr s) 8 in
  settle cfg (launch_round cfg (set_hedge s rr (negb pool_waits)) round).

Definition set_note (s : Fetch) (n : PNode) (failures : list string) (terminal small : option bytes) : Fetch :=
  mkFetch (f_tier s) (f_others s) n (f_rr s) (f_set s) failures terminal small (f_deferred s)
    (f_first s) (f_hedged s) (f_pending s) (f_result s).

Definition note_client_block_result (s : Fetch) (tag : option ActivePeer) (ip : string)
    (r : string + Response) : option bytes * Fetch :=
  let fail text := f_failures s ++ [text] in
  let keep n text := set_note s n (fail text) (f_terminal s) (f_small s) in
  if match tag with Some p => negb (active_is_current (f_node s) p) | None => false end then
    (None, keep (f_node s)
       match tag with
       | Some p => ap_ip p +:+ ": stale active epoch " +:+ show (ap_epoch p)
       | None => EmptyString
       end)
  else
    match r with
    | inr (Frames frame) => (Some frame, s)
    | inr (TerminalError frame) =>
        (None, set_note s (f_node s) (fail (ip +:+ ": terminal"))
           (match f_terminal s with None => Some frame | t => t end) (f_small s))
    | inr PeerOnly =>
        (None, match tag with
               | Some p => keep (clear_active_if_current (f_node s) p)
                             (ap_ip p +:+ ": peer-only (active unpinned)")
               | None => keep (f_node s) (ip +:+ ": peer-only")
               end)
    | inr (RangeTooSmall frame) =>
        (None, set_note s (f_node s) (fail (ip +:+ ": range-too-small")) (f_terminal s)
           (match f_small s with None => Some frame | t => t end))
    | inl e => (None, keep (f_node s) (ip +:+ ": " +:+ e))
    end.

Definition set_rpc_peer (n : PNode) (ip : string) : PNode :=
  set_active n (n_active n) (lazy_active n) (Some ip) (prefetch n).

(** A hedge winner is remembered for the node's next requests. *)
Definition remember (cfg : FetchCfg) (s : Fetch) (tag : option ActivePeer) (ip : string) (m : Moment) : Fetch :=
  match tag with
  | Some _ => s
  | None =>
      let '(yes, n) :=
        match fc_deferred_pin cfg with
        | Some p => (Priority.contains (f_tier s) ip && active_is_current (f_node s) p, f_node s)
        | None => let '(a, n) := session_snapshot (f_node s) m in (bool_decide (a = None), n)
        end in
      set_note s (if yes then set_rpc_peer n ip else n) (f_failures s) (f_terminal s) (f_small s)
  end.

(** An attempt ends and gives its slot back; later it is joined. *)
Definition ended (s : Fetch) (k : nat) (a : Attempt) (r : option (string + Response)) : Fetch :=
  set_race s (release (f_tier s) (at_slot a))
    (<[k := mkAtt (at_tag a) (at_ip a) None (Some r)]> (f_set s)) (f_pending s).

Definition joined (s : Fetch) (k : nat) : Fetch :=
  set_race s (f_tier s) (delete k (f_set s)) (f_pending s).

Definition not_pending (s : Fetch) (ip : string) : Fetch :=
  set_race s (f_tier s) (f_set s) (filter (fun p => p <> ip) (f_pending s)).

Inductive fetch_event :=
| FEnd (k : nat) (r : option (string + Response))
| FJoin (k : nat) (m : Moment)
| FGrace (m : Moment)
| FRound (m : Moment)
| FDeadline (text : string)
| FOther (o : op)
| FNode (n : PNode).

(** A joined attempt with its result. *)
Definition on_join (cfg : FetchCfg) (s : Fetch) (a : Attempt) (r : option (string + Response)) (m : Moment)
    : Fetch :=
  match r with
  | None => if f_first s then hedge cfg s m else settle cfg s
  | Some r =>
      let s := if f_first s then s else not_pending s (at_ip a) in
      match note_client_block_result s (at_tag a) (at_ip a) r with
      | (Some frame, s) =>
          answer (if f_first s then s else remember cfg s (at_tag a) (at_ip a) m) (inr frame)
      | (None, s) => if f_first s then hedge cfg s m else settle cfg s
      end
  end.

Definition fetch_step (cfg : FetchCfg) (s : Fetch) (e : fetch_event) : Fetch :=
  match f_result s with
  | Some _ => s
  | None =>
      match e with
      | FEnd k r =>
          match f_set s !! k with
          | Some a => match at_done a with None => ended s k a r | Some _ => s end
          | None => s
          end
      | FJoin k m =>
          match f_set s !! k with
          | Some a => match at_done a with Some r => on_join cfg (joined s k) a r m | None => s end
          | None => s
          end
      | FGrace m => if f_first s then hedge cfg s m else s
      | FRound m =>
          if negb (f_first s) && negb (f_hedged s) && (fc_started cfg + PRIORITY_4002_ROUND <=? m_now m)
          then end_round cfg (set_race s
                 (foldl (fun t ip => mark_failed_at t ip (m_now m)) (f_tier s) (f_pending s))
                 (f_set s) (f_pending s))
          else s
      | FDeadline text => answer s (inl text)
      | FOther o =>
          let '(t, gs) := op_step (f_tier s, f_others s) o in
          mkFetch t gs (f_node s) (f_rr s) (f_set s) (f_failures s) (f_terminal s) (f_small s)
            (f_deferred s) (f_first s) (f_hedged s) (f_pending s) (f_result s)
      | FNode n => set_note s n (f_failures s) (f_terminal s) (f_small s)
      end
  end.

(** The remembered hedge winner, if it may still serve this node. *)
Definition remembered_peer (t : PriorityTier) (n : PNode) (m : Moment) : option string :=
  match rpc_peer n with
  | Some ip => if negb (Blacklist.contains (m_bl m) ip) && (Priority.contains t ip || pool_ok t m)
               then Some ip else None
  | None => None
  end.

(** The beginning of a request, up to the first wait. [n] is the node when the request begins,
    [polls] what [wait_active_session] sees, [m] the time after it. *)
Definition fetch_start (t : PriorityTier) (others : list nat) (n : PNode) (rr : nat)
    (peers : list string) (m0 : Moment) (polls : list (Moment * PNode)) (m : Moment)
    : FetchCfg * Fetch :=
  let remembered := remembered_peer t n m0 in
  let '(pinned, n) :=
    match remembered with
    | Some _ => session_snapshot n m0
    | None => (wait_active_session (m_now m0 + ACTIVE_4002_PIN_WAIT) polls,
               default n (snd <$> last polls))
    end in
  let '(active, deferred) :=
    match pinned with
    | Some p => if active_answers_first t (ap_ip p) m then (Some p, None) else (None, Some p)
    | None => (None, None)
    end in
  let '(first, t) :=
    match active, remembered with
    | Some p, _ => (Some (mkAtt (Some p) (ap_ip p) None None), t)
    | None, Some ip =>
        match prewarm_slot t ip with
        | Some (slot, t) => (Some (mkAtt None ip slot None), t)
        | None => (None, t)
        end
    | None, None => (None, t)
    end in
  let cfg := mkFCfg peers (m_now m0) (at_ip <$> first) deferred in
  let s := mkFetch t others n rr (option_list first) [] None None deferred
             (bool_decide (is_Some first)) false [] None in
  (cfg, if bool_decide (is_Some first) then s else hedge cfg s m).

Definition fetch_client_blocks_raced (cfg : FetchCfg) (s : Fetch) (evs : list fetch_event) : Fetch :=
  foldl (fetch_step cfg) s evs.

(** ** The request *)

(** [serve_client_blocks] after the answer: a batch that answers a range query is recorded, and the
    range to fetch ahead is chosen. [freshest] is [FreshestRound::get]. *)
Definition note_batch (n : PNode) (range : option (Z * Z)) (frame : bytes) (freshest : option Z) (now : Z)
    : PNode * option (Z * Z) :=
  match range with
  | Some (start, end_) =>
      if bool_decide (frame !! 4%nat = Some 1) then
        (mkNode _ (n_ip n) (n_active n) (next_active_epoch n) (last_cache_replay_secs n) (live_floor n)
           (last_seen_secs n) (open_conns n) (lazy_active n) (rpc_peer n) (replay_in_flight n)
           (last_repin_attempt n) (last_catchup_cut n)
           (Some (mark_client_blocks_response (last_client_blocks n) now
              ((fun t => sat_sub t start) <$> freshest) (sat_add32 (sat_sub end_ start) 1)))
           (prefetch n),
         t ← freshest; next_prefetch_range start end_ t)
      else (n, None)
  | None => (n, None)
  end.

(** The request read from the node: [None] closes the connection. *)
Definition read_request (hdr payload : option bytes) : option bytes :=
  match hdr with
  | None => None
  | Some hdr =>
      if 65536 <? frame_len hdr then None
      else match payload with Some p => Some (hdr ++ p) | None => None end
  end.

Definition should_fetch_forward_client_blocks (port : Z) : bool := port =? 4002.

(** ** Lemmas: launching *)

Definition balanced_fetch (s : Fetch) : Prop := counted (f_tier s, f_others s ++ slots_in (f_set s)).

(** The fields launching leaves alone. *)
Definition same_request (s s' : Fetch) : Prop :=
  f_others s' = f_others s /\ f_node s' = f_node s /\ f_failures s' = f_failures s /\
  f_terminal s' = f_terminal s /\ f_small s' = f_small s /\ f_first s' = f_first s /\
  f_hedged s' = f_hedged s /\ f_result s' = f_result s.

Lemma same_request_trans s1 s2 s3 : same_request s1 s2 -> same_request s2 s3 -> same_request s1 s3.
Proof. unfold same_request. intros. intuition congruence. Qed.

(** [s'] is [s] with the new attempts [new], all still running. *)
Definition launched (round : list string) (s s' : Fetch) (new : list Attempt) : Prop :=
  f_set s' = f_set s ++ new /\ (length new <= length round)%nat /\
  Forall (fun a => at_done a = None /\ at_tag a = None /\ at_ip a ∈ round) new /\
  tier_evolves (f_tier s) (f_tier s') /\ (balanced_fetch s -> balanced_fetch s') /\ same_request s s'.

Lemma slots_in_app l l' : slots_in (l ++ l') = slots_in l ++ slots_in l'.
Proof. apply omap_app. Qed.

Lemma prewarm_slot_counted t gs ip slot t' :
  prewarm_slot t ip = Some (slot, t') ->
  tier_evolves t t' /\ (counted (t, gs) -> counted (t', option_list slot ++ gs)).
Proof.
  unfold prewarm_slot. destruct (Priority.contains t ip).
  - destruct (try_acquire t ip) as [[i t1]|] eqn:E; [|done]. intros [= <- <-].
    split; [by eapply evolves_try_acquire|by eapply counted_acquire].
  - by intros [= <- <-].
Qed.

Lemma launch_one_spec cfg s ip : exists new, launched [ip] s (launch_one cfg s ip) new.
Proof.
  unfold launch_one.
  assert (Hnone : launched [ip] s s []).
  { split_and!; [by rewrite app_nil_r|cbn; lia|constructor|done|done|by unfold same_request]. }
  destruct (_ || _); [eauto|]. destruct (prewarm_slot _ _) as [[slot t]|] eqn:E; [|eauto].
  exists [mkAtt None ip slot None].
  destruct (prewarm_slot_counted _ (f_others s ++ slots_in (f_set s)) _ _ _ E) as [He Hc].
  split_and!; [done|done| |done| |by unfold same_request].
  - constructor; [|constructor]. split_and!; [done|done|by left].
  - intros Hb. unfold balanced_fetch. cbn. eapply counted_perm; [|exact (Hc Hb)].
    rewrite slots_in_app. cbn. destruct slot; cbn; solve_Permutation.
Qed.

Lemma launched_trans r1 r2 s1 s2 s3 n1 n2 :
  launched r1 s1 s2 n1 -> launched r2 s2 s3 n2 -> launched (r1 ++ r2) s1 s3 (n1 ++ n2).
Proof.
  intros (A1 & A2 & A3 & A4 & A5 & A6) (B1 & B2 & B3 & B4 & B5 & B6). split_and!.
  - by rewrite B1, A1, app_assoc.
  - rewrite !length_app. lia.
  - apply Forall_app. split; (eapply Forall_impl; [done|]); cbn; intros a (? & ? & ?);
      (split_and!; [done|done|apply elem_of_app; auto]).
  - by etransitivity.
  - auto.
  - by eapply same_request_trans.
Qed.

Lemma launch_list_spec cfg s round : exists new, launched round s (foldl (launch_one cfg) s round) new.
Proof.
  revert s. induction round as [|ip round IH]; intros s; cbn.
  { exists []. split_and!; [by rewrite app_nil_r|done|constructor|done|done|by unfold same_request]. }
  destruct (launch_one_spec cfg s ip) as [n1 H1]. destruct (IH (launch_one cfg s ip)) as [n2 H2].
  exists (n1 ++ n2). exact (launched_trans [ip] round _ _ _ _ _ H1 H2).
Qed.

(** A whole round, with the deferred pool active once the pool may serve. *)
Lemma launch_round_spec cfg s round :
  exists d new, let s' := launch_round cfg s round in
  f_set s' = f_set s ++ d ++ new /\ (length new <= length round)%nat /\ (length d <= 1)%nat /\
  Forall (fun a => at_done a = None /\ at_tag a = None /\ at_ip a ∈ round) new /\
  Forall (fun a => at_done a = None) d /\ (f_hedged s = false -> d = []) /\
  tier_evolves (f_tier s) (f_tier s') /\ (balanced_fetch s -> balanced_fetch s') /\ same_request s s'.
Proof.
  unfold launch_round. set (s1 := set_race _ _ _ _).
  destruct (launch_list_spec cfg s1 round) as [new (A1 & A2 & A3 & A4 & A5 & A6)].
  assert (Hd : exists d, f_set s1 = f_set s ++ d /\ (length d <= 1)%nat /\
    Forall (fun a => at_done a = None) d /\ (f_hedged s = false -> d = []) /\ slots_in d = [] /\
    same_request s s1).
  { unfold s1, launch_deferred. destruct (f_hedged s) eqn:Eh; [destruct (f_deferred s) as [peer|] eqn:Ed|].
    - exists [mkAtt (Some peer) (ap_ip peer) None None]. split_and!; [done|done|by repeat constructor|done|done|].
      unfold same_request. cbn. by rewrite Eh.
    - exists []. split_and!; [by rewrite app_nil_r|cbn; lia|constructor|done|done|done].
    - exists []. split_and!; [by rewrite app_nil_r|cbn; lia|constructor|done|done|done]. }
  destruct Hd as (d & D1 & D2 & D3 & D4 & D5 & D6). exists d, new. cbn zeta.
  split_and!; [by rewrite A1, D1, app_assoc|done|done|done|done|done|exact A4| |by eapply same_request_trans].
  intros Hb. apply A5. unfold balanced_fetch. rewrite D1, slots_in_app, D5, app_nil_r.
  destruct D6 as (-> & _). exact Hb.
Qed.

Lemma candidates_length head peers rr limit :
  (length (client_block_peer_candidates head peers rr limit).1 <= limit)%nat.
Proof.
  unfold client_block_peer_candidates. destruct (limit =? 0)%nat; [cbn; lia|].
  assert (Hl : (length (take limit head) <= limit)%nat) by (rewrite length_take; lia).
  destruct peers as [|p0 ps]; [done|]. cbn [fst]. set (n := length (p0 :: ps)).
  generalize ((fun k => nth ((rr + k) mod n) (p0 :: ps) EmptyString) <$> seq 0 n). intros l.
  apply (foldl_inv (add_candidate limit) (fun acc => (length acc.1 <= limit)%nat)); [done|].
  intros [out seen] ip Ho. unfold add_candidate. destruct (limit <=? length out)%nat eqn:El; [done|].
  apply Nat.leb_gt in El. destruct (_ && _); [|done]. cbn. rewrite length_app. cbn. lia.
Qed.

Lemma candidates_only_head head rr n ip :
  ip ∈ (client_block_peer_candidates head [] rr n).1 -> ip ∈ head.
Proof.
  unfold client_block_peer_candidates. destruct (n =? 0)%nat; cbn; [by intros ?%elem_of_nil|].
  intros (i & Hi & _)%elem_of_take. by eapply list_elem_of_lookup_2.
Qed.

Lemma usable_prio_length t m : tier_ok t -> (length (usable_prio t m) <= length (Priority.peers t))%nat.
Proof.
  intros (_ & _ & Hl). unfold usable_prio, candidates_at. rewrite length_map.
  rewrite candidate_indices_perm, length_map. etransitivity; [apply length_filter|]. by rewrite length_seq, Hl.
Qed.

(** ** Lemmas: the state of a request *)

Section Request.
Context (cfg : FetchCfg) (ps : list string).

Definition prio_or_first (a : Attempt) : Prop := at_ip a ∈ ps \/ fc_first_ip cfg = Some (at_ip a).

Definition fetch_ok (s : Fetch) : Prop :=
  balanced_fetch s /\ Priority.peers (f_tier s) = ps /\
  Forall (fun a => at_done a <> None -> at_slot a = None) (f_set s) /\
  (f_hedged s = false -> Forall prio_or_first (f_set s)) /\
  (f_first s = true -> f_hedged s = false /\ (length (f_set s) <= 1)%nat).

(** An unanswered request waits for an attempt; an answered one has none left. *)
Definition waits (s : Fetch) : Prop :=
  match f_result s with Some _ => f_set s = [] | None => f_set s <> [] end.

Lemma answer_ok s r : fetch_ok s -> fetch_ok (answer s r) /\ waits (answer s r).
Proof.
  intros (H1 & H2 & H3 & H4 & H5). split; [|done]. split_and!; cbn.
  - unfold balanced_fetch. cbn. rewrite app_nil_r. by apply counted_drops.
  - by rewrite (proj1 (proj2 (evolves_drops _ _))).
  - constructor.
  - constructor.
  - done.
Qed.

Lemma launch_round_ok s round :
  (f_hedged s = false -> forall ip, ip ∈ round -> ip ∈ ps) -> f_first s = false ->
  fetch_ok s -> fetch_ok (launch_round cfg s round).
Proof.
  intros Hr Hf (H1 & H2 & H3 & H4 & H5).
  destruct (launch_round_spec cfg s round) as (d & new & L). cbn zeta in L.
  set (s' := launch_round cfg s round) in *. destruct L as (L1 & _ & _ & L4 & L5 & L6 & L7 & L8 & L9).
  destruct L9 as (_ & _ & _ & _ & _ & E1 & E2 & _). split_and!.
  - auto.
  - by rewrite (proj1 (proj2 L7)).
  - rewrite L1, !Forall_app. split_and!; [done| |]; (eapply Forall_impl; [done|]); cbn; naive_solver.
  - rewrite E2, L1. intros Hh. rewrite (L6 Hh), app_nil_l, Forall_app. split; [auto|].
    eapply Forall_impl; [done|]. cbn. intros a (_ & _ & Hin). left. by apply Hr.
  - rewrite E1, Hf. done.
Qed.

Lemma set_hedge_ok s rr h : (h = false -> f_hedged s = false) -> fetch_ok s -> fetch_ok (set_hedge s rr h).
Proof.
  intros Hh (H1 & H2 & H3 & H4 & H5). split_and!; try done. cbn. intros ->. auto.
Qed.

Lemma end_round_ok s : fetch_ok s -> f_result s = None -> fetch_ok (end_round cfg s) /\ waits (end_round cfg s).
Proof.
  intros Hs Hn. unfold end_round. destruct (_ || _); [by apply answer_ok|].
  destruct (client_block_peer_candidates _ _ _ _) as [round rr].
  set (s1 := launch_round _ _ _).
  assert (H1 : fetch_ok s1).
  { apply launch_round_ok; [done|done|]. by apply set_hedge_ok. }
  case_bool_decide; [by apply answer_ok|]. split; [done|]. unfold waits.
  destruct (launch_round_spec cfg (set_hedge s rr true) round) as (d & new & _ & _ & _ & _ & _ & _ & _ & _ & E).
  fold s1 in E. destruct E as (_ & _ & _ & _ & _ & _ & _ & ->). cbn. by rewrite Hn.
Qed.

Lemma settle_ok s : fetch_ok s -> f_result s = None -> fetch_ok (settle cfg s) /\ waits (settle cfg s).
Proof.
  intros Hs Hn. unfold settle. case_bool_decide; [by apply end_round_ok|]. split; [done|].
  unfold waits. by rewrite Hn.
Qed.

Lemma hedge_ok s m :
  fetch_ok s -> f_result s = None -> f_hedged s = false ->
  fetch_ok (hedge cfg s m) /\ waits (hedge cfg s m).
Proof.
  intros Hs Hn Hh. unfold hedge.
  set (pw := exclusive _ && _). destruct (if pw then _ else _) as [round rr] eqn:Er.
  assert (Hok : fetch_ok (launch_round cfg (set_hedge s rr (negb pw)) round)).
  { apply launch_round_ok; [|done|by apply set_hedge_ok]. cbn. intros Epw%negb_false_iff ip Hip.
    rewrite Epw in Er. destruct Hs as ((Hok & _) & H2 & _). rewrite <- H2.
    assert (Hin : ip ∈ usable_prio (f_tier s) m).
    { apply (candidates_only_head _ (f_rr s) (length (usable_prio (f_tier s) m))). by rewrite Er. }
    by apply (@elem_of_candidates (filter_of (m_bl m)) _ (m_now m)). }
  apply settle_ok; [done|].
  destruct (launch_round_spec cfg (set_hedge s rr (negb pw)) round) as (d & new & _ & _ & _ & _ & _ & _ & _ & _ & E).
  destruct E as (_ & _ & _ & _ & _ & _ & _ & ->). exact Hn.
Qed.

Lemma set_note_ok s n fl t sm : fetch_ok s -> fetch_ok (set_note s n fl t sm).
Proof. done. Qed.

Lemma note_ok s tag ip r :
  fetch_ok s -> let '(w, s') := note_client_block_result s tag ip r in
  fetch_ok s' /\ f_result s' = f_result s /\ f_first s' = f_first s /\ f_hedged s' = f_hedged s /\
  f_set s' = f_set s /\ f_tier s' = f_tier s.
Proof.
  intros Hs. unfold note_client_block_result.
  destruct (match tag with Some p => _ | None => false end); [done|].
  destruct r as [e|[f| |f|f]]; try done. by destruct tag.
Qed.

Lemma joined_ok s k a :
  f_set s !! k = Some a -> at_done a <> None -> fetch_ok s -> fetch_ok (joined s k).
Proof.
  intros Hk Hd (H1 & H2 & H3 & H4 & H5). split_and!; cbn.
  - assert (Hs : at_slot a = None) by (rewrite Forall_forall in H3; apply H3; [by eapply list_elem_of_lookup_2|done]).
    unfold balanced_fetch in *. cbn. eapply counted_perm; [|exact H1].
    apply Permutation_app_head. unfold slots_in. rewrite (delete_Permutation _ _ _ Hk) at 1. cbn. by rewrite Hs.
  - done.
  - by apply Forall_delete.
  - intros Hh. by apply Forall_delete; auto.
  - intros Hf. destruct (H5 Hf) as [? ?]. split; [done|]. rewrite length_delete by eauto. lia.
Qed.

Lemma ended_ok s k a r :
  f_set s !! k = Some a -> at_done a = None -> fetch_ok s -> fetch_ok (ended s k a r).
Proof.
  intros Hk Hd (H1 & H2 & H3 & H4 & H5). split_and!; cbn.
  - unfold balanced_fetch in *. cbn. apply counted_release. eapply counted_perm; [|exact H1].
    unfold slots_in. rewrite (delete_Permutation _ _ _ Hk) at 1.
    rewrite insert_take_drop, delete_take_drop by (by eapply lookup_lt_Some).
    rewrite !omap_app. cbn. rewrite omap_app. destruct (at_slot a); cbn; solve_Permutation.
  - by rewrite (proj1 (proj2 (evolves_release _ _))).
  - by apply Forall_insert.
  - intros Hh. apply Forall_insert; [auto|]. specialize (H4 Hh). rewrite Forall_forall in H4.
    exact (H4 a (list_elem_of_lookup_2 _ _ _ Hk)).
  - rewrite length_insert. done.
Qed.

Lemma set_race_pending s l : fetch_ok s -> fetch_ok (set_race s (f_tier s) (f_set s) l).
Proof. done. Qed.

Lemma remember_ok s tag ip m :
  fetch_ok s -> fetch_ok (remember cfg s tag ip m) /\ f_set (remember cfg s tag ip m) = f_set s.
Proof.
  intros Hs. unfold remember. destruct tag; [done|].
  destruct (match fc_deferred_pin cfg with Some p => _ | None => _ end) as [yes n]. done.
Qed.

Lemma on_join_ok s a r m :
  fetch_ok s -> f_result s = None ->
  fetch_ok (on_join cfg s a r m) /\ waits (on_join cfg s a r m).
Proof.
  intros Hs Hn. unfold on_join. destruct r as [r|].
  2:{ destruct (f_first s) eqn:Ef; [|by apply settle_ok]. apply hedge_ok; [done|done|]. by apply Hs. }
  set (s1 := if f_first s then s else _).
  assert (H1 : fetch_ok s1 /\ f_result s1 = None /\ f_first s1 = f_first s).
  { unfold s1. by destruct (f_first s) eqn:Ef. }
  destruct H1 as (H1 & R1 & F1). pose proof (note_ok s1 (at_tag a) (at_ip a) r H1) as Hnote.
  destruct (note_client_block_result _ _ _ _) as [[frame|] s2]; destruct Hnote as (H2 & R2 & F2 & G2 & _).
  - apply answer_ok. destruct (f_first s2); [done|by apply remember_ok].
  - rewrite R1 in R2. destruct (f_first s2) eqn:Ef; [|by apply settle_ok].
    apply hedge_ok; [done|done|]. by apply H2.
Qed.

Lemma cools_ok s l now :
  fetch_ok s -> fetch_ok (set_race s (foldl (fun t ip => mark_failed_at t ip now) (f_tier s) l)
    (f_set s) (f_pending s)).
Proof.
  intros (H1 & H2 & H3 & H4 & H5). split_and!; try done; cbn.
  - unfold balanced_fetch in *. cbn.
    apply (foldl_inv (fun t ip => mark_failed_at t ip now) (fun t => counted (t, f_others s ++ slots_in (f_set s))));
      [done|]. intros t ip. apply counted_cool.
  - apply (foldl_inv (fun t ip => mark_failed_at t ip now) (fun t => Priority.peers t = ps)); [done|].
    intros t ip <-. apply cool_until_frame.
Qed.

Lemma fetch_step_ok s e :
  fetch_ok s -> waits s -> fetch_ok (fetch_step cfg s e) /\ waits (fetch_step cfg s e).
Proof.
  intros Hs Hw. unfold fetch_step. destruct (f_result s) as [r|] eqn:Hn; [done|].
  destruct e as [k r|k m|m|m|text|o|n].
  - destruct (f_set s !! k) as [a|] eqn:Ek; [|done]. destruct (at_done a) eqn:Ed; [done|].
    split; [by apply ended_ok|]. unfold waits in *. cbn. rewrite Hn in *.
    intros Hx. apply (f_equal length) in Hx. rewrite length_insert in Hx.
    apply lookup_lt_Some in Ek. cbn in Hx. lia.
  - destruct (f_set s !! k) as [a|] eqn:Ek; [|done]. destruct (at_done a) as [r|] eqn:Ed; [|done].
    apply on_join_ok; [|done]. eapply joined_ok; [done|by rewrite Ed|done].
  - destruct (f_first s) eqn:Ef; [|done]. apply hedge_ok; [done|done|]. by apply Hs.
  - destruct (_ && _); [|done]. apply end_round_ok; [|done]. by apply cools_ok.
  - by apply answer_ok.
  - destruct (op_step _ o) as [t gs] eqn:Eo. split; [|unfold waits in *; cbn; by rewrite Hn in *].
    destruct Hs as (H1 & H2 & H3 & H4 & H5). split_and!; try done.
    + by eapply counted_other.
    + cbn. pose proof (evolves_op (f_tier s) (f_others s) o) as (_ & He & _). rewrite Eo in He. cbn in He. congruence.
  - split; [done|]. unfold waits in *. cbn. by rewrite Hn in *.
Qed.

(** ** Lemmas: how long a request takes *)

Definition weight (a : Attempt) : nat := match at_done a with Some _ => 1 | None => 2 end.
Definition weights (l : list Attempt) : nat := sum_list_with weight l.

(** The wake-ups still possible: two per running attempt, one per ended one, those of the rounds to
    come. *)
Definition remaining (s : Fetch) : nat :=
  match f_result s with
  | Some _ => 0
  | None => weights (f_set s) +
      (if f_first s then 2 * (length ps + 9) + 22 else if f_hedged s then 1 else 20)
  end.

Lemma weights_app l l' : weights (l ++ l') = (weights l + weights l')%nat.
Proof. unfold weights. apply sum_list_with_app. Qed.

Lemma weights_le l : (weights l <= 2 * length l)%nat.
Proof. induction l as [|a l IH]; cbn; [done|]. unfold weights in IH. unfold weight at 1. case_match; lia. Qed.

Lemma weights_delete l k a : l !! k = Some a -> weights l = (weight a + weights (delete k l))%nat.
Proof.
  intros Hk. rewrite delete_take_drop, <- (take_drop_middle _ _ _ Hk) at 1.
  rewrite !weights_app. cbn. unfold weights. lia.
Qed.

Lemma answer_remaining s r : remaining (answer s r) = 0%nat.
Proof. done. Qed.

Lemma launch_round_remaining s round :
  f_first s = false ->
  (remaining (launch_round cfg s round) <= remaining s + 2 * (length round + 1))%nat /\
  (f_hedged s = false -> remaining (launch_round cfg s round) <= remaining s + 2 * length round)%nat.
Proof.
  intros Hf. destruct (launch_round_spec cfg s round) as (d & new & L). cbn zeta in L.
  set (s' := launch_round cfg s round) in *. destruct L as (L1 & L2 & L3 & _ & _ & L6 & _ & _ & L9).
  destruct L9 as (_ & _ & _ & _ & _ & E1 & E2 & E3). unfold remaining. rewrite E1, E2, E3, L1, Hf, !weights_app.
  destruct (f_result s); [lia|]. pose proof (weights_le d). pose proof (weights_le new).
  split; [lia|]. intros Hh. rewrite (L6 Hh). cbn. lia.
Qed.

Lemma end_round_remaining s :
  f_result s = None -> f_first s = false ->
  (remaining (end_round cfg s) < remaining s)%nat.
Proof.
  intros Hn Hf. unfold end_round.
  assert (Hpos : (0 < remaining s)%nat) by (unfold remaining; rewrite Hn, Hf; destruct (f_hedged s); lia).
  destruct (f_hedged s || _ || _ || _) eqn:Eb; [by rewrite answer_remaining|].
  assert (Hh : f_hedged s = false) by (by destruct (f_hedged s)).
  pose proof (candidates_length [] (fc_peers cfg) (f_rr s) 8) as Hc.
  destruct (client_block_peer_candidates _ _ _ _) as [round rr]. cbn in Hc.
  clear Eb. case_bool_decide; [by rewrite answer_remaining|].
  destruct (launch_round_remaining (set_hedge s rr true) round eq_refl) as [Hl _].
  unfold remaining in Hl at 2. unfold remaining at 2. cbn in Hl. rewrite Hn, Hf, Hh in *. unfold weights. lia.
Qed.

Lemma settle_remaining s :
  f_result s = None -> f_first s = false -> (remaining (settle cfg s) <= remaining s)%nat.
Proof.
  intros Hn Hf. unfold settle. case_bool_decide; [|done].
  pose proof (end_round_remaining s Hn Hf). lia.
Qed.

Lemma hedge_bound s m :
  fetch_ok s -> f_result s = None ->
  (remaining (hedge cfg s m) < weights (f_set s) + 2 * (length ps + 9) + 22)%nat.
Proof.
  intros Hs Hn. unfold hedge. set (pw := exclusive _ && _).
  assert (Hlen : forall round rr, (if pw then client_block_peer_candidates (usable_prio (f_tier s) m) []
      (f_rr s) (length (usable_prio (f_tier s) m))
    else client_block_peer_candidates (usable_prio (f_tier s) m) (fc_peers cfg) (f_rr s) 8) = (round, rr) ->
    (length round <= length ps + 8)%nat).
  { intros round rr Er. destruct Hs as ((Hok & _) & H2 & _).
    cbn in Hok. pose proof (usable_prio_length _ m Hok) as Hu. rewrite H2 in Hu. destruct pw.
    - pose proof (candidates_length (usable_prio (f_tier s) m) [] (f_rr s) (length (usable_prio (f_tier s) m))) as Hc.
      rewrite Er in Hc. cbn in Hc. lia.
    - pose proof (candidates_length (usable_prio (f_tier s) m) (fc_peers cfg) (f_rr s) 8) as Hc.
      rewrite Er in Hc. cbn in Hc. lia. }
  destruct (if pw then _ else _) as [round rr]. specialize (Hlen round rr eq_refl).
  set (s1 := launch_round cfg (set_hedge s rr (negb pw)) round).
  destruct (launch_round_remaining (set_hedge s rr (negb pw)) round eq_refl) as [Hl _]. fold s1 in Hl.
  destruct (launch_round_spec cfg (set_hedge s rr (negb pw)) round) as (d & new & _ & _ & _ & _ & _ & _ & _ & _ & E).
  fold s1 in E. destruct E as (_ & _ & _ & _ & _ & E1 & E2 & E3).
  pose proof (settle_remaining s1 ltac:(by rewrite E3) ltac:(by rewrite E1)) as Hse.
  unfold remaining in Hl at 2. cbn in Hl. rewrite Hn in Hl. unfold weights.
  destruct (negb pw); lia.
Qed.

Lemma hedge_remaining s m :
  fetch_ok s -> f_result s = None -> f_first s = true ->
  (remaining (hedge cfg s m) < remaining s)%nat.
Proof.
  intros Hs Hn Hf. pose proof (hedge_bound s m Hs Hn). unfold remaining at 2. rewrite Hn, Hf. lia.
Qed.

(** The wake-ups of the request itself. *)
Definition wakes (s : Fetch) (e : fetch_event) : bool :=
  match f_result s with
  | Some _ => false
  | None =>
      match e with
      | FEnd k _ => match f_set s !! k with Some a => negb (bool_decide (is_Some (at_done a))) | None => false end
      | FJoin k _ => match f_set s !! k with Some a => bool_decide (is_Some (at_done a)) | None => false end
      | FGrace _ => f_first s
      | FRound m => negb (f_first s) && negb (f_hedged s) && (fc_started cfg + PRIORITY_4002_ROUND <=? m_now m)
      | FDeadline _ => true
      | _ => false
      end
  end.

Lemma on_join_remaining s a r m :
  fetch_ok s -> f_result s = None -> (remaining (on_join cfg s a r m) <= remaining s)%nat.
Proof.
  intros Hs Hn. unfold on_join. destruct r as [r|].
  2:{ destruct (f_first s) eqn:Ef; [|by apply settle_remaining]. pose proof (hedge_remaining s m Hs Hn Ef). lia. }
  set (s1 := if f_first s then s else _).
  assert (H1 : fetch_ok s1 /\ f_result s1 = None /\ remaining s1 = remaining s).
  { unfold s1. destruct (f_first s) eqn:Ef; [done|]. split_and!; [done|done|].
    unfold remaining. cbn. by rewrite Hn, Ef. }
  destruct H1 as (H1 & R1 & M1). pose proof (note_ok s1 (at_tag a) (at_ip a) r H1) as Hnote.
  destruct (note_client_block_result _ _ _ _) as [[frame|] s2]; destruct Hnote as (H2 & R2 & F2 & G2 & S2 & _).
  - rewrite answer_remaining. lia.
  - rewrite R1 in R2. assert (M2 : remaining s2 = remaining s1).
    { unfold remaining. by rewrite R1, R2, F2, G2, S2. }
    destruct (f_first s2) eqn:Ef.
    + pose proof (hedge_remaining s2 m H2 R2 Ef). lia.
    + pose proof (settle_remaining s2 R2 Ef). lia.
Qed.

Lemma fetch_step_remaining s e :
  fetch_ok s -> (remaining (fetch_step cfg s e) + (if wakes s e then 1 else 0) <= remaining s)%nat.
Proof.
  intros Hs. unfold fetch_step, wakes. destruct (f_result s) as [r|] eqn:Hn; [lia|].
  assert (Hpos : (0 < remaining s)%nat)
    by (unfold remaining; rewrite Hn; destruct (f_first s), (f_hedged s); lia).
  destruct e as [k r|k m|m|m|text|o|n].
  - destruct (f_set s !! k) as [a|] eqn:Ek; [|lia]. destruct (at_done a) eqn:Ed; cbn [negb bool_decide is_Some_dec]; [lia|].
    unfold remaining. cbn [ended set_race f_result f_set f_first f_hedged]. rewrite Hn, (weights_delete _ _ _ Ek).
    pose proof (weights_delete (<[k := mkAtt (at_tag a) (at_ip a) None (Some r)]> (f_set s)) k _
      (list_lookup_insert_eq _ _ _ (lookup_lt_Some _ _ _ Ek))) as Hi.
    rewrite Hi. unfold weight. cbn. rewrite Ed.
    assert (Hd : delete k (<[k := mkAtt (at_tag a) (at_ip a) None (Some r)]> (f_set s)) = delete k (f_set s)).
    { rewrite !delete_take_drop, take_insert_ge, drop_insert_lt by lia. done. }
    rewrite Hd. lia.
  - destruct (f_set s !! k) as [a|] eqn:Ek; [|lia]. destruct (at_done a) as [r|] eqn:Ed; cbn [negb bool_decide is_Some_dec]; [|lia].
    assert (Hj : fetch_ok (joined s k)) by (eapply joined_ok; [done|by rewrite Ed|done]).
    pose proof (on_join_remaining (joined s k) a r m Hj Hn) as Hle.
    assert (Hw : (remaining (joined s k) + 1 <= remaining s)%nat).
    { unfold remaining. cbn [joined set_race f_result f_set f_first f_hedged].
      rewrite Hn, (weights_delete _ _ _ Ek). unfold weight. rewrite Ed. lia. }
    lia.
  - destruct (f_first s) eqn:Ef; [|lia]. pose proof (hedge_remaining s m Hs Hn Ef). lia.
  - destruct (_ && _) eqn:Eb; [|lia].
    pose proof (end_round_remaining (set_race s
      (foldl (fun t ip => mark_failed_at t ip (m_now m)) (f_tier s) (f_pending s)) (f_set s) (f_pending s)) Hn) as Hr.
    apply andb_true_iff in Eb as [Eb _]. apply andb_true_iff in Eb as [Eb _]. apply negb_true_iff in Eb.
    specialize (Hr Eb). set (x := end_round cfg _) in *.
    assert (E : remaining (set_race s (foldl (fun t ip => mark_failed_at t ip (m_now m)) (f_tier s) (f_pending s))
      (f_set s) (f_pending s)) = remaining s) by done. rewrite E in Hr. lia.
  - rewrite answer_remaining. lia.
  - destruct (op_step _ o) as [t gs]. unfold remaining.
    cbn [f_result f_set f_first f_hedged]. rewrite Hn. lia.
  - unfold remaining. cbn [f_result f_set f_first f_hedged set_note]. rewrite Hn. lia.
Qed.

(** ** Lemmas: when the pool is hedged *)

Lemma end_round_hedged s :
  f_hedged s = false -> f_result s = None -> f_result (end_round cfg s) = None ->
  f_terminal (end_round cfg s) = None /\ f_small (end_round cfg s) = None.
Proof.
  intros Hh Hn. unfold end_round. destruct (f_hedged s || _ || _ || _) eqn:Eb; [done|].
  apply orb_false_iff in Eb as [Eb _]. apply orb_false_iff in Eb as [Eb E2]. apply orb_false_iff in Eb as [_ E1].
  apply bool_decide_eq_false, eq_None_not_Some in E1, E2.
  destruct (client_block_peer_candidates _ _ _ _) as [round rr].
  destruct (launch_round_spec cfg (set_hedge s rr true) round) as (d & new & _ & _ & _ & _ & _ & _ & _ & _ & E).
  set (s1 := launch_round _ _ _) in *. destruct E as (_ & _ & _ & T & S & _).
  destruct (bool_decide (f_set s1 = [])); [done|]. intros _. by rewrite T, S.
Qed.

Lemma end_round_open s :
  f_result (end_round cfg s) = None -> f_hedged (end_round cfg s) = true /\ f_first (end_round cfg s) = false.
Proof.
  unfold end_round. destruct (f_hedged s || _ || _ || _); [done|].
  destruct (client_block_peer_candidates _ _ _ _) as [round rr].
  destruct (launch_round_spec cfg (set_hedge s rr true) round) as (d & new & _ & _ & _ & _ & _ & _ & _ & _ & E).
  destruct E as (_ & _ & _ & _ & _ & F & H & _). set (s1 := launch_round _ _ _) in *. case_bool_decide; done.
Qed.

Lemma settle_hedged s :
  f_hedged s = false -> f_result s = None -> f_result (settle cfg s) = None ->
  f_hedged (settle cfg s) = true ->
  f_set s = [] /\ f_terminal (settle cfg s) = None /\ f_small (settle cfg s) = None.
Proof.
  intros Hh Hn. unfold settle. case_bool_decide as Eset; [|congruence]. intros Hr _.
  split; [done|]. by apply end_round_hedged.
Qed.

(** A round over peers with a free slot starts an attempt for each it does not skip. *)
Definition skipped (ip : string) : Prop := fc_first_ip cfg = Some ip \/ ap_ip <$> fc_deferred_pin cfg = Some ip.

Lemma candidate_free `{UpstreamFilter} t now ip :
  tier_ok t -> ip ∈ candidates_at t now -> is_Some (try_acquire t ip).
Proof.
  intros Hok Hin. apply list_elem_of_fmap in Hin as (e & -> & He). apply candidate_indices_load in He as (_ & Hu & Hlt).
  pose proof Hok as (Hn & Hs & Hc). rewrite Hc in Hlt. apply usable_spec in Hu as (ip & Hip & _ & _ & Hm); [|done..].
  rewrite (nth_lookup_Some _ _ _ _ Hip). unfold try_acquire. rewrite (index_of_lookup _ _ _ Hn Hip). cbn.
  unfold load in Hm. replace (_ || _) with true; [done|]. symmetry. apply orb_true_iff. lia.
Qed.

Lemma try_acquire_other t ip0 i t' ip :
  try_acquire t ip0 = Some (i, t') -> ip <> ip0 -> is_Some (try_acquire t ip) -> is_Some (try_acquire t' ip).
Proof.
  unfold try_acquire. intros E Hne. destruct (index t ip0) as [i0|] eqn:E0; [|done]. cbn in E.
  destruct (_ || _) in E; [|done]. injection E as <- <-. change (index (set_sessions t _) ip) with (index t ip).
  destruct (index t ip) as [k|] eqn:Ek; [|done]. cbn. replace (nth k (<[i0:=_]> _) 0) with (nth k (sessions t) 0); [by destruct (_ || _)|].
  rewrite !nth_lookup, list_lookup_insert_ne; [done|]. intros ->.
  apply index_lt in Ek as [_ Ek], E0 as [_ E0]. congruence.
Qed.

Lemma launch_covers s round ip :
  NoDup round -> Forall (fun ip => ip ∈ Priority.peers (f_tier s) /\ is_Some (try_acquire (f_tier s) ip)) round ->
  ip ∈ round -> skipped ip \/ ip ∈ at_ip <$> f_set (foldl (launch_one cfg) s round).
Proof.
  revert s. induction round as [|ip0 round IH]; intros s Hn Hf Hin; [by apply not_elem_of_nil in Hin|].
  apply NoDup_cons in Hn as [Hnot Hn]. apply Forall_cons in Hf as [[Hp0 H0] Hf]. cbn [foldl].
  assert (Hl : launch_one cfg s ip0 = s /\ skipped ip0 \/
    exists i t pend, try_acquire (f_tier s) ip0 = Some (i, t) /\
      launch_one cfg s ip0 = set_race s t (f_set s ++ [mkAtt None ip0 (Some i) None]) pend).
  { unfold launch_one, skipped. destruct (_ || _) eqn:Eb.
    - left. split; [done|]. apply orb_true_iff in Eb as [Eb|Eb]; apply bool_decide_eq_true in Eb; auto.
    - right. unfold prewarm_slot, Priority.contains. apply index_is_Some in Hp0. rewrite bool_decide_eq_true_2 by done.
      destruct H0 as [[i t] H0]. rewrite H0. by eexists _, _, _. }
  destruct Hl as [[-> Hsk]|(i & t & pend & Ea & El)].
  - apply elem_of_cons in Hin as [->|Hin]; [by left|by apply IH].
  - destruct (launch_list_spec cfg (launch_one cfg s ip0) round) as [new (Es & _)].
    apply elem_of_cons in Hin as [->|Hin].
    + right. rewrite Es, El, fmap_app. cbn. rewrite fmap_app, !elem_of_app. left. right. by apply list_elem_of_singleton.
    + apply IH; [done| |done]. rewrite El. cbn. apply Forall_forall. intros ip' Hip'.
      rewrite Forall_forall in Hf. destruct (Hf ip' Hip') as [Hp Hfree]. split.
      * by rewrite (proj1 (proj2 (evolves_try_acquire _ _ _ _ Ea))).
      * eapply try_acquire_other; [exact Ea| |done]. by intros ->.
Qed.

(** What stage 2 decides: the pool is hedged because the tier allows it, or because no usable priority
    peer is left to try; otherwise every usable one is being tried. *)
Definition staged (s s' : Fetch) (m : Moment) : Prop :=
  if f_hedged s' then
    pool_ok (f_tier s) m = true \/
    (f_set s = [] /\ f_terminal s' = None /\ f_small s' = None /\ Forall skipped (usable_prio (f_tier s) m))
  else Forall (fun ip => skipped ip \/ ip ∈ at_ip <$> f_set s') (usable_prio (f_tier s) m).

Lemma hedge_staged s m :
  tier_ok (f_tier s) -> f_hedged s = false -> f_result s = None -> f_result (hedge cfg s m) = None ->
  staged s (hedge cfg s m) m /\ f_first (hedge cfg s m) = false.
Proof.
  intros Hok Hh Hn. unfold hedge. set (pw := exclusive _ && _). set (prio := usable_prio (f_tier s) m).
  assert (Hround : (client_block_peer_candidates prio [] (f_rr s) (length prio)).1 = prio).
  { unfold client_block_peer_candidates. destruct (length prio =? 0)%nat eqn:E; cbn; [|by rewrite firstn_all].
    apply Nat.eqb_eq, nil_length_inv in E. done. }
  destruct (if pw then _ else _) as [round rr] eqn:Er. set (s1 := launch_round cfg _ round).
  destruct (launch_round_spec cfg (set_hedge s rr (negb pw)) round) as (d & new & L). fold s1 in L. cbn zeta in L.
  destruct L as (L1 & _ & _ & _ & _ & L6 & _ & _ & (_ & _ & _ & E4 & E5 & E6 & E7 & E8)). cbn in L1, L6, E4, E5, E6, E7, E8.
  assert (Hfirst : f_result (settle cfg s1) = None -> f_first (settle cfg s1) = false).
  { unfold settle. case_bool_decide; [apply end_round_open|done]. }
  intros Hr. split; [|by apply Hfirst]. unfold staged. fold prio. destruct pw eqn:Epw; unfold pw in Epw.
  - rewrite Er in Hround. cbn in Hround. subst round.
    assert (Hcov : Forall (fun ip => skipped ip \/ ip ∈ at_ip <$> f_set s1) prio).
    { apply Forall_forall. intros ip Hip. apply (launch_covers (set_race _ _ _ _) prio ip); [by apply candidates_at_NoDup| |done].
      apply Forall_forall. intros ip' Hip'. cbn.
      split; [exact (@elem_of_candidates _ _ _ ip' Hok Hip')|exact (@candidate_free _ _ _ ip' Hok Hip')]. }
    destruct (f_hedged (settle cfg s1)) eqn:Eg.
    + right. destruct (settle_hedged s1) as (S1 & S2 & S3); [done|congruence|done|done|].
      split_and!; try done; [rewrite L1 in S1; by apply app_eq_nil in S1 as [? _]|].
      eapply Forall_impl; [exact Hcov|]. intros ip [?|Hin]; [done|]. rewrite S1 in Hin. by apply not_elem_of_nil in Hin.
    + unfold settle in *. case_bool_decide as Es; [|done]. exfalso.
      apply end_round_open in Hr as [Hr _]. congruence.
  - assert (Hp : pool_ok (f_tier s) m = true).
    { unfold pool_ok, pool_allowed. unfold prio, usable_prio in Epw. apply andb_false_iff in Epw as [-> |Epw]; [done|].
      apply negb_false_iff in Epw. rewrite Epw. by rewrite orb_true_r. }
    destruct (f_hedged (settle cfg s1)) eqn:Eg; [by left|]. exfalso. revert Hr Eg. unfold settle.
    destruct (bool_decide (f_set s1 = [])); [|intros _; by rewrite E7]. unfold end_round. by rewrite E7.
Qed.

(** A joined attempt starts stage 2 if it was the first, or ends a round. *)
Lemma on_join_staged s a r m :
  f_hedged s = false -> f_result s = None -> fetch_ok s -> f_result (on_join cfg s a r m) = None ->
  if f_first s then staged s (on_join cfg s a r m) m /\ f_first (on_join cfg s a r m) = false
  else f_hedged (on_join cfg s a r m) = true ->
    f_set s = [] /\ f_terminal (on_join cfg s a r m) = None /\ f_small (on_join cfg s a r m) = None.
Proof.
  intros Hh Hn Hs. pose proof Hs as ((Hok & _) & _). cbn in Hok. unfold on_join. destruct r as [r|].
  2:{ destruct (f_first s) eqn:Ef; intros Hr; [by apply hedge_staged|intros Hg; by apply settle_hedged]. }
  set (s1 := if f_first s then s else _).
  assert (H1 : fetch_ok s1 /\ f_result s1 = None /\ f_hedged s1 = false /\ f_first s1 = f_first s /\
    f_set s1 = f_set s /\ f_tier s1 = f_tier s) by (unfold s1; by destruct (f_first s) eqn:Ef0).
  destruct H1 as (H1 & R1 & G1 & F1 & S1 & T1). pose proof (note_ok s1 (at_tag a) (at_ip a) r H1) as Hnote.
  destruct (note_client_block_result _ _ _ _) as [[frame|] s2]; [done|].
  destruct Hnote as (H2 & R2 & F2 & G2 & S2 & T2). unfold staged. rewrite <- F1, <- F2, <- S1, <- S2, <- T1, <- T2.
  destruct (f_first s2) eqn:Ef; intros Hr.
  - apply hedge_staged; congruence.
  - intros Hg. apply settle_hedged; congruence.
Qed.
End Request.

(** ** The start of a request *)

Lemma fetch_start_ok t others n rr peers m0 polls m :
  counted (t, others) ->
  let '(cfg, s) := fetch_start t others n rr peers m0 polls m in
  fetch_ok cfg (Priority.peers t) s /\ waits s /\
  (remaining (Priority.peers t) s <= 2 * length (Priority.peers t) + 42)%nat /\
  fc_peers cfg = peers /\ fc_started cfg = m_now m0 /\
  (forall ip, fc_first_ip cfg = Some ip ->
     Priority.contains t ip = true \/ pool_ok t m0 = true \/ pool_ok t m = true) /\
  (forall p, fc_deferred_pin cfg = Some p -> ap_ip p ∉ Priority.peers t) /\
  (is_Some (fc_first_ip cfg) -> f_hedged s = false) /\
  (fc_first_ip cfg = None -> f_result s = None ->
     if f_hedged s then pool_ok t m = true
     else Forall (fun ip => ip ∈ at_ip <$> f_set s) (usable_prio t m)).
Proof.
  intros Hc. unfold fetch_start.
  destruct (match remembered_peer t n m0 with Some _ => _ | None => _ end) as [pinned n1].
  destruct (match pinned with Some p => _ | None => _ end) as [active deferred] eqn:Ea.
  assert (Hact : forall p, active = Some p -> active_answers_first t (ap_ip p) m = true).
  { intros p ->. destruct pinned as [p'|]; [|done]. destruct (active_answers_first t (ap_ip p') m) eqn:E; [|done].
    by injection Ea as <- _. }
  assert (Hrem : forall ip, remembered_peer t n m0 = Some ip ->
    Priority.contains t ip = true \/ pool_ok t m0 = true).
  { intros ip. unfold remembered_peer. destruct (rpc_peer n); [|done]. destruct (_ && _) eqn:E; [|done].
    intros [= <-]. apply andb_true_iff in E as [_ E]. by apply orb_true_iff in E. }
  assert (Hdef : forall p, deferred = Some p -> ap_ip p ∉ Priority.peers t).
  { intros p ->. destruct pinned as [p'|]; [|done]. destruct (active_answers_first t (ap_ip p') m) eqn:E; [done|].
    injection Ea as _ ->. apply orb_false_iff in E as [E _]. apply bool_decide_eq_false in E. by rewrite index_is_Some in E. }
  destruct (match active with Some p => _ | None => _ end) as [first t1] eqn:Ef.
  assert (Hfirst : counted (t1, others ++ slots_in (option_list first)) /\ Priority.peers t1 = Priority.peers t /\
    (first = None -> t1 = t) /\
    forall a, first = Some a -> at_done a = None /\
      (Priority.contains t (at_ip a) = true \/ pool_ok t m0 = true \/ pool_ok t m = true)).
  { destruct active as [p|].
    - injection Ef as <- <-. split_and!; [by rewrite app_nil_r|done|done|]. intros a [= <-]. split; [done|].
      specialize (Hact p eq_refl). apply orb_true_iff in Hact as [?|?]; auto.
    - destruct (remembered_peer t n m0) as [ip|] eqn:Er.
      + destruct (prewarm_slot t ip) as [[slot t2]|] eqn:Ep; injection Ef as <- <-.
        * destruct (prewarm_slot_counted t others ip slot t2 Ep) as [He Hco]. split_and!.
          -- eapply counted_perm; [|exact (Hco Hc)]. cbn. destruct slot; cbn; solve_Permutation.
          -- apply He.
          -- done.
          -- intros a [= <-]. split; [done|]. destruct (Hrem ip eq_refl); auto.
        * split_and!; [by rewrite app_nil_r|done|done|done].
      + injection Ef as <- <-. split_and!; [by rewrite app_nil_r|done|done|done]. }
  destruct Hfirst as (F1 & F2 & Ft & F3). set (cfg := mkFCfg _ _ _ _). set (s := mkFetch _ _ _ _ _ _ _ _ _ _ _ _ _).
  assert (Hs : fetch_ok cfg (Priority.peers t) s).
  { split_and!; [exact F1|done| | |].
    - cbn. destruct first as [a|]; [|constructor]. constructor; [|constructor].
      destruct (F3 a eq_refl) as [-> _]. done.
    - intros _. cbn. destruct first as [a|]; [|constructor]. constructor; [|constructor]. by right.
    - intros _. split; [done|]. cbn. destruct first; cbn; lia. }
  assert (Hip : forall ip, fc_first_ip cfg = Some ip ->
     Priority.contains t ip = true \/ pool_ok t m0 = true \/ pool_ok t m = true).
  { intros ip. cbn. destruct first as [a|]; [|done]. cbn. intros [= <-]. by apply F3. }
  destruct first as [a|].
  - cbn [bool_decide is_Some_dec]. split_and!; try done.
    unfold remaining. cbn. unfold weights, weight. cbn. destruct (F3 a eq_refl) as [-> _]. lia.
  - cbn [bool_decide is_Some_dec]. destruct (hedge_ok cfg (Priority.peers t) s m Hs eq_refl eq_refl) as [H1 H2].
    assert (Hst : f_result (hedge cfg s m) = None -> staged cfg s (hedge cfg s m) m /\ f_first (hedge cfg s m) = false)
      by (apply hedge_staged; [apply F1|done|done]).
    assert (Hskip : forall ip, ip ∈ usable_prio t m -> ~ skipped cfg ip).
    { intros ip Hu [E|E]; [done|]. cbn in E. destruct deferred as [p|]; [|done]. injection E as E.
      apply (Hdef p eq_refl). rewrite E. exact (@elem_of_candidates _ _ _ ip (proj1 Hc) Hu). }
    split_and!; try done.
    + pose proof (hedge_bound cfg (Priority.peers t) s m Hs eq_refl) as Hb. cbn in Hb. lia.
    + by intros [? ?].
    + intros _ Hr. destruct (Hst Hr) as [Hs' _]. unfold staged in Hs'. cbn [f_tier s] in Hs'. rewrite (Ft eq_refl) in Hs'.
      destruct (f_hedged (hedge cfg s m)).
      * destruct Hs' as [?|(_ & _ & _ & Hall)]; [done|]. unfold pool_ok, pool_allowed. apply orb_true_iff. right.
        apply bool_decide_eq_true. apply elem_of_nil_inv. intros ip Hu. rewrite Forall_forall in Hall.
        by apply (Hskip ip Hu), Hall.
      * apply Forall_forall. intros ip Hu. rewrite Forall_forall in Hs'. destruct (Hs' ip Hu); [|done]. by destruct (Hskip ip Hu).
Qed.

Lemma fetch_run_ok cfg ps s evs :
  fetch_ok cfg ps s -> waits s ->
  fetch_ok cfg ps (fetch_client_blocks_raced cfg s evs) /\ waits (fetch_client_blocks_raced cfg s evs).
Proof.
  unfold fetch_client_blocks_raced. revert s. induction evs as [|e evs IH]; intros s Hs Hw; [done|].
  cbn. destruct (fetch_step_ok cfg ps s e Hs Hw). by apply IH.
Qed.

(** The end of the first attempt's grace. *)
Lemma first_wait_ends cfg (t : PriorityTier) s e :
  fetch_ok cfg (Priority.peers t) s -> waits s -> (forall p, fc_deferred_pin cfg = Some p -> ap_ip p ∉ Priority.peers t) ->
  let s' := fetch_step cfg s e in
  f_first s = true -> f_first s' = false \/ f_hedged s' = true -> f_result s' = None ->
  exists k mm, (e = FJoin k mm \/ e = FGrace mm) /\
    if f_hedged s' then
      pool_ok (f_tier s) mm = true \/
      (e = FJoin k mm /\ f_terminal s' = None /\ f_small s' = None /\
       Forall (fun ip => fc_first_ip cfg = Some ip) (usable_prio (f_tier s) mm))
    else Forall (fun ip => fc_first_ip cfg = Some ip \/ ip ∈ at_ip <$> f_set s') (usable_prio (f_tier s) mm).
Proof.
  intros Hs Hw Hdef s' Hf. pose proof Hs as ((Hok & _) & Hps & _ & _ & Hh). destruct (Hh Hf) as [Hg Hlen]. cbn in Hok.
  assert (Hskip : forall mm ip, ip ∈ usable_prio (f_tier s) mm -> skipped cfg ip -> fc_first_ip cfg = Some ip).
  { intros mm ip Hu [E|E]; [done|]. destruct (fc_deferred_pin cfg) as [p|]; [|done]. injection E as E. exfalso.
    apply (Hdef p eq_refl). rewrite E, <- Hps. exact (@elem_of_candidates _ _ _ ip Hok Hu). }
  assert (Hst : forall s1 mm k, f_tier s1 = f_tier s -> (f_set s1 = [] -> e = FJoin k mm) -> staged cfg s1 s' mm ->
    if f_hedged s' then pool_ok (f_tier s) mm = true \/
      (e = FJoin k mm /\ f_terminal s' = None /\ f_small s' = None /\
       Forall (fun ip => fc_first_ip cfg = Some ip) (usable_prio (f_tier s) mm))
    else Forall (fun ip => fc_first_ip cfg = Some ip \/ ip ∈ at_ip <$> f_set s') (usable_prio (f_tier s) mm)).
  { intros s1 mm k Et Ek. unfold staged. rewrite Et. destruct (f_hedged s').
    - intros [?|(E & ? & ? & Hall)]; [by left|right]. split_and!; [by apply Ek|done..|].
      apply Forall_forall. intros ip Hu. rewrite Forall_forall in Hall. eauto.
    - intros Hall. apply Forall_forall. intros ip Hu. rewrite Forall_forall in Hall. destruct (Hall ip Hu); eauto. }
  unfold waits in Hw. unfold s', fetch_step in *. destruct (f_result s) as [r|] eqn:Hn; [congruence|].
  destruct e as [k r|k mm|mm|mm|text|o|nn].
  - destruct (f_set s !! k) as [a|]; [|naive_solver congruence]. destruct (at_done a); cbn; intuition congruence.
  - destruct (f_set s !! k) as [a|] eqn:Ek; [|intuition congruence]. destruct (at_done a) as [r|] eqn:Ed; [|intuition congruence].
    intros _ Hr. exists k, mm. split; [by left|]. apply (Hst (joined s k)); [done|done|].
    assert (Hj : fetch_ok cfg (Priority.peers t) (joined s k)) by (eapply joined_ok; [done|by rewrite Ed|done]).
    pose proof (on_join_staged cfg _ (joined s k) a r mm Hg Hn Hj Hr) as Ho. cbn [f_first joined set_race] in Ho.
    rewrite Hf in Ho. apply Ho.
  - rewrite Hf in Hst |- *. intros _ Hr. exists 0%nat, mm. split; [by right|]. apply (Hst s); [done|done|].
    by apply hedge_staged.
  - rewrite Hf. cbn. intuition congruence.
  - done.
  - destruct (op_step _ o). cbn. intuition congruence.
  - cbn. intuition congruence.
Qed.

(** The end of the priority round. *)
Lemma round_ends cfg (t : PriorityTier) s e :
  fetch_ok cfg (Priority.peers t) s -> waits s ->
  let s' := fetch_step cfg s e in
  f_first s = false -> f_hedged s = false -> f_hedged s' = true -> f_result s' = None ->
  f_terminal s' = None /\ f_small s' = None /\
  ((exists k mm, e = FJoin k mm /\ length (f_set s) = 1%nat) \/
   (exists mm, e = FRound mm /\ fc_started cfg + PRIORITY_4002_ROUND <= m_now mm)).
Proof.
  intros Hs Hw s' Hf Hh. unfold s', fetch_step. unfold waits in Hw. destruct (f_result s) as [r|] eqn:Hn; [congruence|].
  destruct e as [k r|k mm|mm|mm|text|o|nn].
  - destruct (f_set s !! k) as [a|]; [|congruence]. destruct (at_done a); cbn; congruence.
  - destruct (f_set s !! k) as [a|] eqn:Ek; [|congruence]. destruct (at_done a) as [r|] eqn:Ed; [|congruence].
    assert (Hj : fetch_ok cfg (Priority.peers t) (joined s k)) by (eapply joined_ok; [done|by rewrite Ed|done]).
    intros Hg Hr. pose proof (on_join_staged cfg _ (joined s k) a r mm Hh Hn Hj Hr) as Ho.
    cbn [f_first joined set_race] in Ho. rewrite Hf in Ho. destruct (Ho Hg) as (Hd & ? & ?).
    split_and!; [done|done|]. left. exists k, mm. split; [done|]. cbn in Hd.
    apply (f_equal length) in Hd. rewrite length_delete in Hd by eauto. cbn in Hd. apply lookup_lt_Some in Ek. lia.
  - rewrite Hf. congruence.
  - destruct (_ && _) eqn:Eb; [|congruence]. intros Hg Hr. apply andb_true_iff in Eb as [_ Eb]. apply Z.leb_le in Eb.
    match goal with |- context [end_round cfg ?x] => pose proof (end_round_hedged cfg x Hh Hn Hr) as [? ?] end.
    split_and!; [done|done|]. right. eauto.
  - done.
  - destruct (op_step _ o). cbn. congruence.
  - cbn. congruence.
Qed.

(** ** Properties *)

(** How many of the events wake the request. *)
Fixpoint wake_count (cfg : FetchCfg) (s : Fetch) (evs : list fetch_event) : nat :=
  match evs with
  | [] => 0
  | e :: evs => (if wakes cfg s e then 1 else 0) + wake_count cfg (fetch_step cfg s e) evs
  end.

Lemma wake_count_bound cfg ps s evs :
  fetch_ok cfg ps s -> waits s -> (wake_count cfg s evs <= remaining ps s)%nat.
Proof.
  revert s. induction evs as [|e evs IH]; intros s Hs Hw; cbn; [lia|].
  destruct (fetch_step_ok cfg ps s e Hs Hw) as [H1 H2]. specialize (IH _ H1 H2).
  pose proof (fetch_step_remaining cfg ps s e Hs). lia.
Qed.

(** C25: every client-block request comes to an end. The race of a request wakes up at most
    [2 * peers + 42] times (attempts ending and being joined, its two timeouts, the deadline),
    whatever the peers answer, whatever other sessions do to the node and the tier meanwhile; while
    it is unanswered some attempt is in flight to wait for; and once it is answered no attempt and
    no priority slot of it is left, the tier counting exactly the slots held at all times. *)
Theorem client_block_race_ends (t : PriorityTier) (others : list nat) (n : PNode) (rr : nat)
    (peers : list string) (m0 : Moment) (polls : list (Moment * PNode)) (m : Moment)
    (evs : list fetch_event) :
  counted (t, others) ->
  let '(cfg, s0) := fetch_start t others n rr peers m0 polls m in
  let s := fetch_client_blocks_raced cfg s0 evs in
  (wake_count cfg s0 evs <= 2 * length (Priority.peers t) + 42)%nat /\
  (f_result s = None <-> f_set s <> []) /\
  counted (f_tier s, f_others s ++ slots_in (f_set s)).
Proof.
  intros Hc. pose proof (fetch_start_ok t others n rr peers m0 polls m Hc) as Hst.
  destruct (fetch_start t others n rr peers m0 polls m) as [cfg s0].
  destruct Hst as (H1 & H2 & H3 & _). cbn zeta. split_and!.
  - pose proof (wake_count_bound cfg _ s0 evs H1 H2). lia.
  - destruct (fetch_run_ok cfg _ s0 evs H1 H2) as [_ Hw]. unfold waits in Hw. case_match; naive_solver.
  - apply (fetch_run_ok cfg _ s0 evs H1 H2).
Qed.

(** C21: the pool never answers a client-block request ahead of a usable exclusive priority tier. The
    first attempt is for a peer the tier lets answer (a priority peer, or any while the pool is
    allowed); as long as the pool is not hedged every attempt in flight is the first one or for a
    priority peer. A request without a first attempt begins with the pool only if the tier allows it
    then, and otherwise with an attempt for every usable priority peer. When the first attempt's
    grace ends or the attempt is joined without an answer, the pool is hedged only if the tier allows
    it or the first attempt's peer, joined, was the only usable priority peer; otherwise every usable
    priority peer but the first is being tried. From then on the pool is hedged only when no
    definitive (range) answer came and the last attempt of the priority round was joined or the
    round lasted [PRIORITY_4002_ROUND]. *)
Theorem pool_waits_for_the_priority_round (t : PriorityTier) (others : list nat) (n : PNode) (rr : nat)
    (peers : list string) (m0 : Moment) (polls : list (Moment * PNode)) (m : Moment)
    (evs : list fetch_event) (e : fetch_event) :
  counted (t, others) ->
  let '(cfg, s0) := fetch_start t others n rr peers m0 polls m in
  let s := fetch_client_blocks_raced cfg s0 evs in
  let s' := fetch_step cfg s e in
  let is_first ip := fc_first_ip cfg = Some ip in
  let tried s ip := ip ∈ at_ip <$> f_set s in
  (forall ip, is_first ip ->
     Priority.contains t ip = true \/ pool_ok t m0 = true \/ pool_ok t m = true) /\
  (f_hedged s = false -> Forall (fun a => at_ip a ∈ Priority.peers t \/ is_first (at_ip a)) (f_set s)) /\
  (is_Some (fc_first_ip cfg) -> f_hedged s0 = false) /\
  (fc_first_ip cfg = None -> f_result s0 = None ->
     if f_hedged s0 then pool_ok t m = true else Forall (tried s0) (usable_prio t m)) /\
  (f_first s = true -> f_first s' = false \/ f_hedged s' = true -> f_result s' = None ->
     exists k mm, (e = FJoin k mm \/ e = FGrace mm) /\
       if f_hedged s' then
         pool_ok (f_tier s) mm = true \/
         (e = FJoin k mm /\ f_terminal s' = None /\ f_small s' = None /\ Forall is_first (usable_prio (f_tier s) mm))
       else Forall (fun ip => is_first ip \/ tried s' ip) (usable_prio (f_tier s) mm)) /\
  (f_first s = false -> f_hedged s = false -> f_hedged s' = true -> f_result s' = None ->
     f_terminal s' = None /\ f_small s' = None /\
     ((exists k mm, e = FJoin k mm /\ length (f_set s) = 1%nat) \/
      (exists mm, e = FRound mm /\ m_now m0 + PRIORITY_4002_ROUND <= m_now mm))).
Proof.
  intros Hc. pose proof (fetch_start_ok t others n rr peers m0 polls m Hc) as Hst.
  destruct (fetch_start t others n rr peers m0 polls m) as [cfg s0].
  destruct Hst as (H1 & H2 & _ & _ & Hst & H6 & Hdef & H7 & H8). cbn zeta.
  destruct (fetch_run_ok cfg _ s0 evs H1 H2) as [Hs Hw].
  set (s := fetch_client_blocks_raced cfg s0 evs) in *. split_and!; [done|apply Hs|done|done| |].
  - by apply (first_wait_ends cfg t).
  - rewrite <- Hst. by apply (round_ends cfg t).
Qed.

(** ** Witnesses *)

(** No session is pinned: both priority peers are hedged, both fail, then the pool is. *)
Definition example_at (now : Z) : Moment := mkAt now bl_initial.
Definition example_node : PNode := NodeState_new 7 0.
Definition example_fetch : FetchCfg * Fetch :=
  fetch_start example_tier [] example_node 0 ["9.9.9.9"]%string (example_at 0)
    [(example_at 0, example_node); (example_at (seconds 2), example_node)] (example_at (seconds 2)).
Definition example_fails : list fetch_event :=
  [FEnd 0 (Some (inl "timed out"%string)); FJoin 0 (example_at (seconds 3)); FEnd 0 (Some (inr PeerOnly))].

Lemma example_tier_counted : counted (example_tier, []).
Proof.
  split_and!; [apply example_tier_ok|constructor|]. cbn. intros i Hi.
  destruct i as [|[|i]]; [reflexivity|reflexivity|lia].
Qed.

Lemma pool_waits_for_the_priority_round_witness :
  let cfg := example_fetch.1 in
  let s := fetch_client_blocks_raced cfg example_fetch.2 example_fails in
  let s' := fetch_step cfg s (FJoin 0 (example_at (seconds 4))) in
  at_ip <$> f_set example_fetch.2 = ["10.0.0.1"; "10.0.0.2"]%string /\
  at_ip <$> f_set s' = ["9.9.9.9"]%string /\ f_terminal s' = None /\ f_small s' = None.
Proof.
  split; [vm_compute; reflexivity|]. split; [vm_compute; reflexivity|].
  pose proof (pool_waits_for_the_priority_round example_tier [] example_node 0 ["9.9.9.9"]%string (example_at 0)
    [(example_at 0, example_node); (example_at (seconds 2), example_node)] (example_at (seconds 2))
    example_fails (FJoin 0 (example_at (seconds 4))) example_tier_counted) as Hw.
  change (fetch_start _ _ _ _ _ _ _ _) with example_fetch in Hw. cbn beta iota in Hw. destruct example_fetch as [cfg s0] eqn:E.
  cbn zeta in Hw. destruct Hw as (_ & _ & _ & _ & _ & Hw). cbn [fst snd].
  destruct Hw as (H1 & H2 & _); [vm_compute in E; injection E as <- <-; vm_compute; reflexivity..|].
  split; [exact H1|exact H2].
Defined.

Lemma client_block_race_ends_witness :
  let cfg := example_fetch.1 in
  let s := fetch_client_blocks_raced cfg example_fetch.2
    (example_fails ++ [FJoin 0 (example_at (seconds 4)); FEnd 0 (Some (inr (Frames [0; 0; 0; 1; 1; 7])));
                       FJoin 0 (example_at (seconds 5))]) in
  f_result s = Some (inr [0; 0; 0; 1; 1; 7]) /\ counted (f_tier s, f_others s ++ slots_in (f_set s)).
Proof.
  split; [vm_compute; reflexivity|].
  pose proof (client_block_race_ends example_tier [] example_node 0 ["9.9.9.9"]%string (example_at 0)
    [(example_at 0, example_node); (example_at (seconds 2), example_node)] (example_at (seconds 2))
    (example_fails ++ [FJoin 0 (example_at (seconds 4)); FEnd 0 (Some (inr (Frames [0; 0; 0; 1; 1; 7])));
                       FJoin 0 (example_at (seconds 5))]) example_tier_counted) as Hw.
  change (fetch_start _ _ _ _ _ _ _ _) with example_fetch in Hw.
  destruct example_fetch as [cfg s0]. exact (proj2 (proj2 Hw)).
Defined.
