(* ===== verification/ClientServe.v ===== *)
(** The client-block service as a whole: [serve_client_blocks] in [src/gateway/client_blocks.rs], with
    the fetches it starts in the background and what all requests share.

    [ClientFetch] has the race that answers one request, [ClientBlocks] the prefetch slot of a node.
    Here many requests of many nodes run side by side: they share the nodes, the priority tier, the
    round-robin counter, the fetch and prefetch slots and the byte budget of the responses. A permit
    goes back to its semaphore when the value that holds it is dropped, so what is left of a
    semaphore is what no live value holds ([budget_left], [fetching], [prefetching]). *)

From S2P Require Import Prelude Text Blacklist Wire Priority Freshest PushSession Node Sources Race ClientBlocks ClientFetch.

(** ** One fetch *)

(** What a fetch shares with the others. *)
Record FetchEnv := mkFetchEnv { sh_tier : PriorityTier; sh_rr : nat; sh_node : PNode }.

(** A fetch waits for the node's pin, or races; [reading] has for each attempt of the race the budget
    it holds for the response it reads. *)
Inductive Job :=
| JPin (peers : list string) (m0 : Moment) (polls : list (Moment * PNode))
| JRace (cfg : FetchCfg) (f : Fetch) (reading : list (option Z)).

(** [gs] are the slots held outside this fetch. *)
Definition in_env (gs : list nat) (sh : FetchEnv) (f : Fetch) : Fetch :=
  mkFetch (sh_tier sh) gs (sh_node sh) (sh_rr sh) (f_set f) (f_failures f) (f_terminal f)
    (f_small f) (f_deferred f) (f_first f) (f_hedged f) (f_pending f) (f_result f).

Definition env_of (f : Fetch) : FetchEnv := mkFetchEnv (f_tier f) (f_rr f) (f_node f).

Definition job_of (r : FetchCfg * Fetch) (reading : list (option Z)) : FetchEnv * Job :=
  (env_of r.2, JRace r.1 r.2 (resize (length (f_set r.2)) None reading)).

(** [fetch_client_blocks_raced] up to its first wait: a remembered peer stands in for the pin. *)
Definition job_begin (gs : list nat) (sh : FetchEnv) (peers : list string) (m0 : Moment) : FetchEnv * Job :=
  match remembered_peer (sh_tier sh) (sh_node sh) m0 with
  | Some _ => job_of (fetch_start (sh_tier sh) gs (sh_node sh) (sh_rr sh) peers m0 [] m0) []
  | None => (sh, JPin peers m0 [])
  end.

(** The remembered peer was read when the fetch began. *)
Definition no_rpc_peer (n : PNode) : PNode :=
  set_active n (n_active n) (lazy_active n) None (prefetch n).

(** A poll of [wait_active_session]; the race starts once there is a session or the time is up. *)
Definition job_poll (gs : list nat) (sh : FetchEnv) (peers : list string) (m0 : Moment) (polls : list (Moment * PNode)) (m : Moment)
    : FetchEnv * Job :=
  let '(pin, n) := session_snapshot (sh_node sh) m in
  let polls := polls ++ [(m, n)] in
  if bool_decide (is_Some pin) || (m_now m0 + ACTIVE_4002_PIN_WAIT <=? m_now m) then
    job_of (fetch_start (sh_tier sh) gs (no_rpc_peer n) (sh_rr sh) peers m0 polls m) []
  else (mkFetchEnv (sh_tier sh) (sh_rr sh) n, JPin peers m0 polls).

Inductive job_event :=
| JPoll (m : Moment)
| JHeader (k : nat) (hdr : bytes)          (* attempt [k] read a header and acquires its budget *)
| JTalk (k : nat) (t : option PeerTalk)    (* attempt [k] ends; [None]: it panicked *)
| JWake (e : fetch_event).                 (* the fetch's own task wakes *)

(** The events of the fetch's own task. *)
Definition own_wake (e : fetch_event) : bool :=
  match e with FJoin _ _ | FGrace _ | FRound _ | FDeadline _ => true | _ => false end.

Definition reading_after (f : Fetch) (e : fetch_event) (reading : list (option Z)) : list (option Z) :=
  match e with
  | FJoin k _ =>
      match f_set f !! k with
      | Some a => if bool_decide (is_Some (at_done a)) then delete k reading else reading
      | None => reading
      end
  | _ => reading
  end.

(** A talk whose response was read in full has the budget of its frame. *)
Definition talk_ok (budget : option Z) (t : PeerTalk) : bool :=
  match pt_header t, pt_budget t, pt_payload t with
  | inr rh, None, inr p =>
      bool_decide (length rh = 5%nat) && bool_decide (Z.of_nat (length p) = frame_len rh) &&
      bool_decide (budget = Some (5 + frame_len rh))
  | _, _, _ => true
  end.

(** The frame a response comes with; [PeerOnly] drops it. *)
Definition frame_of (r : Response) : option bytes :=
  match r with Frames f | RangeTooSmall f | TerminalError f => Some f | PeerOnly => None end.

(** A step of a fetch for the request [req]: [left] is what the byte budget has left. The last
    component is what an upstream answered: its address, the request, the frame. *)
Definition job_step (gs : list nat) (left : Z) (sh : FetchEnv) (req : bytes) (j : Job) (e : job_event)
    : FetchEnv * Job * list (string * bytes * bytes) :=
  match j, e with
  | JPin peers m0 polls, JPoll m => (job_poll gs sh peers m0 polls m, [])
  | JPin peers m0 polls, JWake (FDeadline text) =>
      (sh, JRace (mkFCfg peers (m_now m0) None None)
             (answer (mkFetch (sh_tier sh) gs (sh_node sh) (sh_rr sh) [] [] None None None false
                        false [] None) (inl text)) [], [])
  | JRace cfg f reading, JHeader k hdr =>
      match f_set f !! k, reading !! k with
      | Some (mkAtt _ _ _ None), Some None =>
          if (0 <=? frame_len hdr) && (frame_len hdr <=? MAX_CLIENT_BLOCK_RESPONSE) &&
             (5 + frame_len hdr <=? left)
          then (sh, JRace cfg f (<[k := Some (5 + frame_len hdr)]> reading), [])
          else (sh, j, [])
      | _, _ => (sh, j, [])
      end
  | JRace cfg f reading, JTalk k t =>
      match f_set f !! k, reading !! k, f_result f with
      | Some (mkAtt tag ip slot None), Some budget, None =>
          if default true (talk_ok budget <$> t) then
            let r := (fun t => fetch_client_blocks_from_peer t (bool_decide (tag = None))) <$> t in
            let f := fetch_step cfg (in_env gs sh f) (FEnd k r) in
            (env_of f, JRace cfg f (<[k := None]> reading),
             match r with
             | Some (inr resp) => (fun fr => (ip, req, fr)) <$> option_list (frame_of resp)
             | _ => []
             end)
          else (sh, j, [])
      | _, _, _ => (sh, j, [])
      end
  | JRace cfg f reading, JWake e =>
      if own_wake e then
        let f' := fetch_step cfg (in_env gs sh f) e in
        (env_of f', JRace cfg f' (resize (length (f_set f')) None
           (match f_result f with None => reading_after f e reading | Some _ => reading end)), [])
      else (sh, j, [])
  | _, _ => (sh, j, [])
  end.

Definition job_result (j : Job) : option (string + bytes) :=
  match j with JPin _ _ _ => None | JRace _ f _ => f_result f end.

(** ** The service *)

Inductive ReqPhase :=
| QRead                                            (* the request is read *)
| QAwait (req : bytes) (p : Prefetch) (started : Z)
| QSlot (req : bytes)                              (* waits for a fetch slot *)
| QFetch (req : bytes) (j : Job)                   (* has one *)
| QGot (req : bytes) (r : string + bytes)          (* [fetched] *)
| QAhead (req : bytes) (frame : bytes) (p : Prefetch)   (* the next range's fetch is spawned *)
| QWrite (req : bytes) (frame : bytes)
| QDone.

Record Request := mkReq { rq_node : Z; rq_peers : list string; rq_at : ReqPhase }.

(** A background fetch: spawned, running, over (its output waits in the handle; [None]: it panicked),
    or gone with its output. *)
Inductive BgPhase := BgNew | BgJob (j : Job) | BgDone (r : option (string + bytes)) | BgGone.

Record Background := mkBg { bg_node : Z; bg_peers : list string; bg_req : bytes; bg_at : BgPhase }.

(** [sv_asked] logs what upstreams answered, [sv_written] what was written: connection, request,
    bytes. *)
Record Service := mkService {
  sv_tier : PriorityTier;
  sv_guards : list nat;
  sv_rr : nat;
  sv_nodes : gmap Z PNode;
  sv_ids : Z;
  sv_requests : list Request;
  sv_tasks : list Background;
  sv_asked : list (string * bytes * bytes);
  sv_written : list (nat * bytes * bytes)
}.

Definition service_start (t : PriorityTier) (guards : list nat) : Service := mkService t guards 0 ∅ 0 [] [] [] [].

(** *** What is held *)

Definition att_frames (a : Attempt) : list bytes :=
  match at_done a with Some (Some (inr r)) => option_list (frame_of r) | _ => [] end.

Definition result_frames (r : option (string + bytes)) : list bytes :=
  match r with Some (inr f) => [f] | _ => [] end.

(** A fetch that returned holds only what it returns. *)
Definition fetch_frames (f : Fetch) : list bytes :=
  match f_result f with
  | Some r => result_frames (Some r)
  | None => (f_set f ≫= att_frames) ++ option_list (f_terminal f) ++ option_list (f_small f)
  end.

Definition job_frames (j : Job) : list bytes :=
  match j with JPin _ _ _ => [] | JRace _ f _ => fetch_frames f end.

Definition job_reading (j : Job) : list (option Z) := match j with JPin _ _ _ => [] | JRace _ _ l => l end.

Definition sum_by {A} (g : A -> Z) (l : list A) : Z := foldr (fun x n => g x + n) 0 l.

Definition frame_weight (f : bytes) : Z := Z.of_nat (length f).

Definition job_held (j : Job) : Z := sum_by frame_weight (job_frames j) + sum_by (default 0) (job_reading j).

Definition phase_frames (p : ReqPhase) : list bytes :=
  match p with
  | QGot _ r => result_frames (Some r)
  | QAhead _ f _ | QWrite _ f => [f]
  | _ => []
  end.

Definition request_held (r : Request) : Z :=
  match rq_at r with QFetch _ j => job_held j | p => sum_by frame_weight (phase_frames p) end.

Definition task_held (b : Background) : Z :=
  match bg_at b with
  | BgJob j => job_held j
  | BgDone r => sum_by frame_weight (result_frames r)
  | BgNew | BgGone => 0
  end.

Definition bytes_held (s : Service) : Z := sum_by request_held (sv_requests s) + sum_by task_held (sv_tasks s).

Definition budget_left (s : Service) : Z := CLIENT_BLOCK_RESPONSE_BYTES - bytes_held s.

Definition in_fetch (r : Request) : bool := match rq_at r with QFetch _ _ => true | _ => false end.
Definition running (b : Background) : bool := match bg_at b with BgNew | BgJob _ => true | _ => false end.

Definition fetching (s : Service) : nat := length (filter (fun r => in_fetch r = true) (sv_requests s)).
Definition prefetching (s : Service) : nat := length (filter (fun b => running b = true) (sv_tasks s)).

(** The background fetches whose [Prefetch] is alive: in a node's slot, about to be put there, or
    awaited by a request. *)
Definition phase_prefetch (p : ReqPhase) : option Prefetch :=
  match p with QAwait _ p _ | QAhead _ _ p => Some p | _ => None end.

Definition owners (s : Service) : list nat :=
  (pf_task <$> omap (fun r => phase_prefetch (rq_at r)) (sv_requests s)) ++
  (pf_task <$> omap (fun n => prefetch n.2) (map_to_list (sv_nodes s))).

(** The priority slots the fetches hold, and those held outside one of them. *)
Definition job_slots (j : Job) : list nat := match j with JPin _ _ _ => [] | JRace _ f _ => slots_in (f_set f) end.

Definition request_slots (r : Request) : list nat := match rq_at r with QFetch _ j => job_slots j | _ => [] end.
Definition task_slots (b : Background) : list nat := match bg_at b with BgJob j => job_slots j | _ => [] end.

Definition outside_request (s : Service) (i : nat) : list nat :=
  sv_guards s ++ (delete i (sv_requests s) ≫= request_slots) ++ (sv_tasks s ≫= task_slots).
Definition outside_task (s : Service) (b : nat) : list nat :=
  sv_guards s ++ (sv_requests s ≫= request_slots) ++ (delete b (sv_tasks s) ≫= task_slots).

(** *** Steps *)

Definition node_at (s : Service) (n : Z) : PNode := default (NodeState_new n 0) (sv_nodes s !! n).

Definition put_node (s : Service) (n : Z) (nd : PNode) : Service :=
  mkService (sv_tier s) (sv_guards s) (sv_rr s) (<[n := nd]> (sv_nodes s)) (sv_ids s) (sv_requests s)
    (sv_tasks s) (sv_asked s) (sv_written s).

Definition set_request (s : Service) (i : nat) (r : Request) (p : ReqPhase) : Service :=
  mkService (sv_tier s) (sv_guards s) (sv_rr s) (sv_nodes s) (sv_ids s)
    (<[i := mkReq (rq_node r) (rq_peers r) p]> (sv_requests s)) (sv_tasks s) (sv_asked s) (sv_written s).

Definition set_task (s : Service) (b : nat) (t : Background) (p : BgPhase) : Service :=
  mkService (sv_tier s) (sv_guards s) (sv_rr s) (sv_nodes s) (sv_ids s) (sv_requests s)
    (<[b := mkBg (bg_node t) (bg_peers t) (bg_req t) p]> (sv_tasks s)) (sv_asked s) (sv_written s).

Definition env_for (s : Service) (n : Z) : FetchEnv := mkFetchEnv (sv_tier s) (sv_rr s) (node_at s n).

Definition put_env (s : Service) (n : Z) (sh : FetchEnv) (log : list (string * bytes * bytes)) : Service :=
  mkService (sh_tier sh) (sv_guards s) (sh_rr sh) (<[n := sh_node sh]> (sv_nodes s)) (sv_ids s) (sv_requests s)
    (sv_tasks s) (sv_asked s ++ log) (sv_written s).

(** The request is read, and the prefetch for its range taken. *)
Definition request_read (s : Service) (i : nat) (r : Request) (hdr payload : option bytes) (now : Z) : Service :=
  match read_request hdr payload with
  | None => set_request s i r QDone
  | Some req =>
      match client_block_range req with
      | None => set_request s i r (QSlot req)
      | Some (start, end_) =>
          let '(p, nd) := take_prefetch (node_at s (rq_node r)) start end_ now in
          set_request (put_node s (rq_node r) nd) i r
            (match p with Some p => QAwait req p now | None => QSlot req end)
      end
  end.

(** The prefetched batch is there. *)
Definition prefetch_joined (s : Service) (i : nat) (r : Request) (req : bytes) (p : Prefetch) : Service :=
  match sv_tasks s !! pf_task p with
  | Some (mkBg n peers q (BgDone out)) =>
      set_request (set_task s (pf_task p) (mkBg n peers q (BgDone out)) BgGone) i r
        (match await_prefetch (node_at s (rq_node r)) p out with
         | Some frame => QGot req (inr frame)
         | None => QSlot req
         end)
  | _ => s
  end.

(** The answer is there: a batch is recorded and the next range's fetch spawned, if a prefetch slot
    is free. *)
Definition answered (s : Service) (i : nat) (r : Request) (req frame : bytes) (freshest : option Z) (now : Z)
    : Service :=
  let '(nd, next) := note_batch (node_at s (rq_node r)) (client_block_range req) frame freshest now in
  let s := put_node s (rq_node r) nd in
  match next with
  | Some range =>
      if (prefetching s <? PREFETCH_SLOTS)%nat then
        let p := begin_prefetch nd (sv_ids s) range now (length (sv_tasks s)) in
        let task := mkBg (rq_node r) (rq_peers r) (client_block_range_request range.1 range.2) BgNew in
        set_request
          (mkService (sv_tier s) (sv_guards s) (sv_rr s) (sv_nodes s) ((sv_ids s + 1) mod 2 ^ 64) (sv_requests s)
             (sv_tasks s ++ [task]) (sv_asked s) (sv_written s)) i r (QAhead req frame p)
      else set_request s i r (QWrite req frame)
  | None => set_request s i r (QWrite req frame)
  end.

(** The one write to the node, in full or as far as it came. *)
Definition write_answer (s : Service) (i : nat) (r : Request) (req frame : bytes) (part : option nat) : Service :=
  let s := set_request s i r QDone in
  mkService (sv_tier s) (sv_guards s) (sv_rr s) (sv_nodes s) (sv_ids s) (sv_requests s) (sv_tasks s) (sv_asked s)
    (sv_written s ++ [(i, req, match part with None => frame | Some n => take n frame end)]).

(** The request's own task. *)
Inductive request_event :=
| SRequest (hdr payload : option bytes) (now : Z)
| STurn (now : Z)                              (* a turn of [await_prefetch]'s loop *)
| SJoined
| SSlot (m : Moment)                           (* a fetch slot is acquired *)
| SBusy                                        (* none within five seconds *)
| SFetch (e : job_event)
| SFetched                                     (* the fetch returns and its slot is free *)
| SAnswered (freshest : option Z) (now : Z)
| SInstall
| SWritten (part : option nat).

Definition serve_client_blocks (s : Service) (i : nat) (r : Request) (e : request_event) : Service :=
  let nd := node_at s (rq_node r) in
  match rq_at r, e with
  | QRead, SRequest hdr payload now => request_read s i r hdr payload now
  | QAwait req p started, STurn now =>
      if await_gives_up nd p started now then set_request s i r (QSlot req) else s
  | QAwait req p _, SJoined => prefetch_joined s i r req p
  | QSlot req, SSlot m =>
      if (fetching s <? CLIENT_BLOCK_FETCH_SLOTS)%nat then
        let '(sh, j) := job_begin (outside_request s i) (env_for s (rq_node r)) (rq_peers r) m in
        set_request (put_env s (rq_node r) sh []) i r (QFetch req j)
      else s
  | QSlot _, SBusy => set_request s i r QDone
  | QFetch req j, SFetch e =>
      let '(sh, j, log) := job_step (outside_request s i) (budget_left s) (env_for s (rq_node r)) req j e in
      set_request (put_env s (rq_node r) sh log) i r (QFetch req j)
  | QFetch req j, SFetched =>
      match job_result j with Some res => set_request s i r (QGot req res) | None => s end
  | QGot req (inl _), SAnswered _ _ => set_request s i r QDone
  | QGot req (inr frame), SAnswered freshest now => answered s i r req frame freshest now
  | QAhead req frame p, SInstall =>
      set_request (put_node s (rq_node r) (install_prefetch nd p)) i r (QWrite req frame)
  | QWrite req frame, SWritten part => write_answer s i r req frame part
  | _, _ => s
  end.

(** A task dropped in the middle of its fetch: the attempts go with it, and their slots. *)
Definition drop_task (s : Service) (b : nat) (t : Background) (p : BgPhase) : Service :=
  let s' := set_task s b t p in
  mkService (foldl drop_session (sv_tier s) (task_slots t)) (sv_guards s') (sv_rr s') (sv_nodes s') (sv_ids s')
    (sv_requests s') (sv_tasks s') (sv_asked s') (sv_written s').

(** The task [start_prefetch] spawns. *)
Inductive bg_event :=
| TBegin (m : Moment)
| TFetch (e : job_event)
| TOver
| TPanic
| TAbort.                                      (* takes effect once its [Prefetch] is dropped *)

Definition start_prefetch (s : Service) (b : nat) (t : Background) (e : bg_event) : Service :=
  match bg_at t, e with
  | BgNew, TBegin m =>
      let '(sh, j) := job_begin (outside_task s b) (env_for s (bg_node t)) (bg_peers t) m in
      set_task (put_env s (bg_node t) sh []) b t (BgJob j)
  | BgJob j, TFetch e =>
      let '(sh, j, log) := job_step (outside_task s b) (budget_left s) (env_for s (bg_node t)) (bg_req t) j e in
      set_task (put_env s (bg_node t) sh log) b t (BgJob j)
  | BgJob j, TOver => match job_result j with Some r => set_task s b t (BgDone (Some r)) | None => s end
  | BgNew, TPanic | BgJob _, TPanic => drop_task s b t (BgDone None)
  | _, TAbort => if bool_decide (b ∈ owners s) then s else drop_task s b t BgGone
  | _, _ => s
  end.

(** The service next to the node's sessions (which pin it), the expiry of prefetches and the other
    users of the tier. *)
Inductive service_event :=
| SAccept (node : Z) (peers : list string)
| SReq (i : nat) (e : request_event)
| STask (b : nat) (e : bg_event)
| SExpire (node id : Z)
| SBump (node : Z) (ip : string)
| SPin (node : Z) (peer : ActivePeer)
| STier (o : op).

Definition service_step (s : Service) (e : service_event) : Service :=
  match e with
  | SAccept node peers =>
      mkService (sv_tier s) (sv_guards s) (sv_rr s) (sv_nodes s) (sv_ids s)
        (sv_requests s ++ [mkReq node peers QRead]) (sv_tasks s) (sv_asked s) (sv_written s)
  | SReq i e => match sv_requests s !! i with Some r => serve_client_blocks s i r e | None => s end
  | STask b e => match sv_tasks s !! b with Some t => start_prefetch s b t e | None => s end
  | SExpire node id => put_node s node (expire_prefetch (node_at s node) id)
  | SBump node ip => put_node s node (take_epoch (node_at s node) ip).2
  | SPin node peer => put_node s node (store_pin (node_at s node) peer)
  | STier o =>
      let '(t, gs) := op_step (sv_tier s, sv_guards s) o in
      mkService t gs (sv_rr s) (sv_nodes s) (sv_ids s) (sv_requests s) (sv_tasks s) (sv_asked s) (sv_written s)
  end.

Definition run_service (s : Service) (evs : list service_event) : Service := foldl service_step s evs.

(** ** Lemmas: sums *)

Section sums.
Context {A : Type} (g : A -> Z).

Lemma sum_by_app l l' : sum_by g (l ++ l') = sum_by g l + sum_by g l'.
Proof. unfold sum_by. induction l as [|x l IH]; cbn in *; lia. Qed.

#[global] Instance sum_by_perm : Proper ((≡ₚ) ==> eq) (sum_by g).
Proof. unfold sum_by. intros l l' H. induction H; cbn in *; lia. Qed.

Lemma sum_by_lookup l i x : l !! i = Some x -> sum_by g l = g x + sum_by g (delete i l).
Proof. intros Hi. by rewrite (delete_Permutation _ _ _ Hi) at 1. Qed.

Lemma sum_by_insert l i x y : l !! i = Some x -> sum_by g (<[i := y]> l) = sum_by g l - g x + g y.
Proof.
  intros Hi. pose proof (lookup_lt_Some _ _ _ Hi). rewrite insert_take_drop by done.
  rewrite <- (take_drop_middle _ _ _ Hi) at 3. rewrite !sum_by_app. cbn. fold (sum_by g (drop (S i) l)). lia.
Qed.

Hypothesis g_nonneg : forall x, 0 <= g x.

Lemma sum_by_nonneg l : 0 <= sum_by g l.
Proof. induction l as [|x l IH]; cbn; [lia|]. pose proof (g_nonneg x). unfold sum_by in IH. lia. Qed.

Lemma sum_by_submseteq l l' : l ⊆+ l' -> sum_by g l <= sum_by g l'.
Proof. intros [k ->]%submseteq_Permutation. rewrite sum_by_app. pose proof (sum_by_nonneg k). lia. Qed.

End sums.

Lemma frame_weight_nonneg f : 0 <= frame_weight f.
Proof. unfold frame_weight. lia. Qed.

#[global] Hint Resolve frame_weight_nonneg : hyper.

(** ** Lemmas: the frames of a fetch *)

(** What the fetch leaves alone: the prefetch slot of the node, the slots of others. *)
Definition untouched (s s' : Fetch) : Prop :=
  prefetch (f_node s') = prefetch (f_node s) /\ f_others s' = f_others s.

(** [s'] holds no more than the frames [fs]. *)
Definition holds_of (fs : list bytes) (s s' : Fetch) : Prop := fetch_frames s' ⊆+ fs /\ untouched s s'.

Lemma holds_trans fs s1 s2 s3 : holds_of fs s1 s2 -> holds_of (fetch_frames s2) s2 s3 -> holds_of fs s1 s3.
Proof. unfold holds_of, untouched. intros (A1 & A2 & A3) (B1 & B2 & B3). split; [by etrans|split; congruence]. Qed.

Lemma running_no_frames l : Forall (fun a => at_done a = None) l -> l ≫= att_frames = [].
Proof.
  induction 1 as [|a l Ha _ IH]; [done|]. rewrite bind_cons, IH. unfold att_frames. by rewrite Ha.
Qed.

Lemma launch_round_holds cfg s round : holds_of (fetch_frames s) s (launch_round cfg s round).
Proof.
  destruct (launch_round_spec cfg s round) as (d & new & L). cbn zeta in L.
  set (s' := launch_round cfg s round) in *. destruct L as (L1 & _ & _ & L4 & L5 & _ & _ & _ & L9).
  destruct L9 as (Eo & En & _ & Et & Es & _ & _ & Er). split; [|split; [by rewrite En|done]].
  unfold fetch_frames. rewrite Er, Et, Es, L1, !bind_app. rewrite (running_no_frames d), (running_no_frames new), !app_nil_r;
    [done| |done]. eapply Forall_impl; [exact L4|]. by intros a [? _].
Qed.

Lemma launch_round_result cfg s round : f_result (launch_round cfg s round) = f_result s.
Proof.
  destruct (launch_round_spec cfg s round) as (d & new & L). cbn zeta in L.
  destruct L as (_ & _ & _ & _ & _ & _ & _ & _ & L9). apply L9.
Qed.

Lemma last_resort_holds s : f_result s = None -> holds_of (fetch_frames s) s (answer s (last_resort s)).
Proof.
  intros Hn. split; [|done]. unfold fetch_frames. cbn [f_result answer]. rewrite Hn. apply submseteq_inserts_l.
  unfold last_resort. destruct (f_terminal s) as [t|]; cbn; [|destruct (f_small s); done].
  apply submseteq_skip, submseteq_nil_l.
Qed.

Lemma end_round_holds cfg s : f_result s = None -> holds_of (fetch_frames s) s (end_round cfg s).
Proof.
  intros Hn. unfold end_round. destruct (_ || _); [by apply last_resort_holds|].
  destruct (client_block_peer_candidates _ _ _ _) as [round rr].
  pose proof (launch_round_holds cfg (set_hedge s rr true) round) as H.
  case_bool_decide; [|exact H]. eapply holds_trans; [exact H|]. apply last_resort_holds.
  by rewrite launch_round_result.
Qed.

Lemma settle_holds cfg s : f_result s = None -> holds_of (fetch_frames s) s (settle cfg s).
Proof. intros Hn. unfold settle. case_bool_decide; [by apply end_round_holds|done]. Qed.

Lemma hedge_holds cfg s m : f_result s = None -> holds_of (fetch_frames s) s (hedge cfg s m).
Proof.
  intros Hn. unfold hedge. set (pw := exclusive _ && _). destruct (if pw then _ else _) as [round rr].
  eapply holds_trans; [exact (launch_round_holds cfg (set_hedge s rr (negb pw)) round)|].
  apply settle_holds. by rewrite launch_round_result.
Qed.

Definition outcome_frames (r : option (string + Response)) : list bytes :=
  match r with Some (inr resp) => option_list (frame_of resp) | _ => [] end.

Lemma note_holds s tag ip r :
  f_result s = None ->
  let '(w, s') := note_client_block_result s tag ip r in
  f_result s' = None /\
  match w with
  | Some f => outcome_frames (Some r) = [f] /\ untouched s s'
  | None => holds_of (outcome_frames (Some r) ++ fetch_frames s) s s'
  end.
Proof.
  intros Hn. unfold note_client_block_result.
  destruct (match tag with Some p => _ | None => false end).
  { split; [done|]. split; [|done]. by apply submseteq_inserts_l. }
  destruct r as [e|[f| |f|f]]; cbn; try done.
  - destruct tag as [p|]; cbn; (split; [done|]); (split; [done|]); [|done].
    split; [|done]. cbn. unfold clear_active_if_current. by destruct (decide _).
  - split; [done|]. split; [|done]. unfold fetch_frames. cbn. rewrite Hn. destruct (f_small s).
    + by apply submseteq_cons.
    + apply Permutation_submseteq. cbn. rewrite app_nil_r. solve_Permutation.
  - split; [done|]. split; [|done]. unfold fetch_frames. cbn. rewrite Hn. destruct (f_terminal s).
    + by apply submseteq_cons.
    + apply Permutation_submseteq. cbn. solve_Permutation.
Qed.

Lemma snapshot_prefetch n m : prefetch (session_snapshot n m).2 = prefetch n.
Proof. done. Qed.

Lemma remember_untouched cfg s tag ip m : untouched s (remember cfg s tag ip m).
Proof.
  unfold remember. destruct tag; [done|]. destruct (fc_deferred_pin cfg); cbn; (split; [|done]); cbn; by case_match.
Qed.

Lemma on_join_holds cfg s a r m :
  f_result s = None -> holds_of (outcome_frames r ++ fetch_frames s) s (on_join cfg s a r m).
Proof.
  intros Hn. unfold on_join.
  assert (Hgo : forall s0, f_result s0 = None ->
    holds_of (fetch_frames s0) s0 (if f_first s0 then hedge cfg s0 m else settle cfg s0)).
  { intros s0 H0. destruct (f_first s0); [by apply hedge_holds|by apply settle_holds]. }
  destruct r as [r|]; [|by apply Hgo].
  set (s1 := if f_first s then s else _).
  assert (H1 : f_result s1 = None /\ fetch_frames s1 = fetch_frames s /\ f_node s1 = f_node s /\ f_others s1 = f_others s)
    by (unfold s1; by destruct (f_first s)).
  destruct H1 as (R1 & F1 & N1 & O1). pose proof (note_holds s1 (at_tag a) (at_ip a) r R1) as H.
  destruct (note_client_block_result _ _ _ _) as [[f|] s2]; destruct H as [R2 H].
  - destruct H as (Ef & Hp & Ho). rewrite Ef. split; [by apply submseteq_inserts_r|].
    destruct (f_first s2); cbn.
    + split; cbn; congruence.
    + destruct (remember_untouched cfg s2 (at_tag a) (at_ip a) m). split; cbn; congruence.
  - rewrite <- F1. eapply holds_trans; [|by apply Hgo]. destruct H as (H1 & H2 & H3). split; [done|]. split; congruence.
Qed.

Lemma joined_frames s k a r :
  f_result s = None -> f_set s !! k = Some a -> at_done a = Some r ->
  outcome_frames r ++ fetch_frames (joined s k) ≡ₚ fetch_frames s.
Proof.
  intros Hn Hk Hd. unfold fetch_frames. cbn. rewrite Hn. rewrite (delete_Permutation _ _ _ Hk) at 2.
  rewrite bind_cons, app_assoc. unfold att_frames at 2. rewrite Hd. by destruct r as [[|]|].
Qed.

(** A wake-up of the fetch's own task keeps at most the frames it had. *)
Lemma wake_holds cfg s e : own_wake e = true -> holds_of (fetch_frames s) s (fetch_step cfg s e).
Proof.
  intros He. unfold fetch_step. destruct (f_result s) eqn:Hn; [done|]. destruct e as [| k m|m|m|text| |]; try done.
  - destruct (f_set s !! k) as [a|] eqn:Hk; [|done]. destruct (at_done a) as [r|] eqn:Hd; [|done].
    destruct (on_join_holds cfg (joined s k) a r m Hn) as [H1 H2]. split; [|done].
    by rewrite <- (joined_frames s k a r Hn Hk Hd).
  - destruct (f_first s); [by apply hedge_holds|done].
  - destruct (_ && _); [|done]. set (s1 := set_race _ _ _ _).
    destruct (end_round_holds cfg s1 Hn) as [H1 H2]. done.
  - split; [|done]. unfold fetch_frames at 1. cbn. apply submseteq_nil_l.
Qed.

(** An attempt that ends adds the frame of its response. *)
Lemma end_holds cfg s k a r :
  f_result s = None -> f_set s !! k = Some a -> at_done a = None ->
  let s' := fetch_step cfg s (FEnd k r) in
  fetch_frames s' ≡ₚ outcome_frames r ++ fetch_frames s /\ untouched s s'.
Proof.
  intros Hn Hk Hd s'. unfold s', fetch_step. rewrite Hn, Hk, Hd. split; [|done]. unfold fetch_frames. cbn. rewrite ?Hn.
  rewrite (app_assoc (outcome_frames r)). apply Permutation_app_tail.
  destruct (bind_insert att_frames _ _ _ Hk) as (rest & E1 & E2). rewrite E1, E2.
  unfold att_frames. cbn. rewrite Hd. by destruct r as [[|]|].
Qed.

(** ** Lemmas: one fetch *)

(** What a fetch needs of its own state; with the count of all slots it is [fetch_ok]. *)
Definition job_local (ps : list string) (j : Job) : Prop :=
  match j with
  | JPin _ _ _ => True
  | JRace cfg f reading =>
      Forall (fun o => 0 <= default 0 o) reading /\ waits f /\
      Forall (fun a => at_done a <> None -> at_slot a = None) (f_set f) /\
      (f_hedged f = false -> Forall (prio_or_first cfg ps) (f_set f)) /\
      (f_first f = true -> f_hedged f = false /\ (length (f_set f) <= 1)%nat)
  end.

(** The tier counts exactly the slots [gs] held outside the fetch and the fetch's own. *)
Definition job_counted (ps : list string) (gs : list nat) (t : PriorityTier) (j : Job) : Prop :=
  counted (t, gs ++ job_slots j) /\ Priority.peers t = ps /\ job_local ps j.

Lemma job_counted_fetch ps gs sh cfg f reading :
  job_counted ps gs (sh_tier sh) (JRace cfg f reading) -> fetch_ok cfg ps (in_env gs sh f) /\ waits f.
Proof. intros (H1 & H2 & _ & H3 & H4 & H5 & H6). by split_and!. Qed.

Lemma fetch_job_counted ps cfg f reading :
  fetch_ok cfg ps f -> waits f -> Forall (fun o => 0 <= default 0 o) reading ->
  job_counted ps (f_others f) (f_tier f) (JRace cfg f reading).
Proof. intros (H1 & H2 & H3 & H4 & H5) Hw Hr. by split_and!. Qed.

Lemma resize_nonneg n (l : list (option Z)) :
  Forall (fun o => 0 <= default 0 o) l -> Forall (fun o => 0 <= default 0 o) (resize n None l).
Proof. intros H. rewrite resize_spec. apply Forall_app. split; [by apply Forall_take|]. by apply Forall_replicate. Qed.

Lemma fetch_start_holds t others n rr peers m0 polls m :
  let s := (fetch_start t others n rr peers m0 polls m).2 in
  fetch_frames s = [] /\ f_others s = others /\
  (remembered_peer t n m0 = None -> prefetch (f_node s) = prefetch (default n (snd <$> last polls))) /\
  (polls = [] -> prefetch (f_node s) = prefetch n).
Proof.
  unfold fetch_start. set (rem := remembered_peer t n m0).
  destruct (match rem with Some _ => _ | None => _ end) as [pinned n'] eqn:En.
  destruct (match pinned with Some _ => _ | None => _ end) as [active deferred].
  destruct (match active with Some _ => _ | None => _ end) as [first t'] eqn:Ef.
  set (cfg := mkFCfg _ _ _ _). set (s0 := mkFetch _ _ _ _ _ _ _ _ _ _ _ _ _).
  assert (H0 : fetch_frames s0 = []).
  { unfold fetch_frames. cbn. rewrite app_nil_r. apply running_no_frames.
    destruct first as [a|]; constructor; [|constructor]. destruct active as [p|]; [by injection Ef as <- _|].
    destruct rem; [|done]. destruct (prewarm_slot _ _) as [[]|]; [by injection Ef as <- _|done]. }
  assert (Hn : (rem = None -> prefetch n' = prefetch (default n (snd <$> last polls))) /\
               (polls = [] -> prefetch n' = prefetch n)).
  { destruct rem; split; try done; [|injection En as _ <-; done|injection En as _ <-; by intros ->].
    intros _. apply (f_equal snd) in En. cbn in En. by rewrite <- En. }
  assert (Hs : forall s', holds_of (fetch_frames s0) s0 s' -> fetch_frames s' = [] /\ f_others s' = others /\
    prefetch (f_node s') = prefetch n').
  { rewrite H0. intros s' (H1 & H2 & H3). split_and!; [by apply submseteq_nil_r|done|done]. }
  cbn [snd]. destruct (bool_decide (is_Some first)); [|destruct (Hs _ (hedge_holds cfg s0 m eq_refl)) as (-> & -> & ->)];
    naive_solver.
Qed.

(** A step of a fetch for [req] next to the slots [gs], from [j] to [j']: the slots stay counted, the
    frames are old or answers to [req], and the bytes grow by at most what the budget has left. *)
Record job_effect (ps : list string) (gs : list nat) (left : Z) (req : bytes) (sh : FetchEnv) (j : Job)
    (sh' : FetchEnv) (j' : Job) (log : list (string * bytes * bytes)) : Prop := {
  je_counted : job_counted ps gs (sh_tier sh') j';
  je_prefetch : prefetch (sh_node sh') = prefetch (sh_node sh);
  je_frames : forall f, f ∈ job_frames j' -> f ∈ job_frames j \/ exists ip, (ip, req, f) ∈ log;
  je_log : Forall (fun x => x.1.2 = req /\ frame_weight x.2 <= 5 + MAX_CLIENT_BLOCK_RESPONSE) log;
  je_held : job_held j' <= Z.max (job_held j) (job_held j + left)
}.

Lemma sum_none n : sum_by (default 0) (replicate n None) = 0.
Proof. induction n as [|n IH]; [done|]. cbn. exact IH. Qed.

Lemma sum_resize n (l : list (option Z)) :
  Forall (fun o => 0 <= default 0 o) l -> sum_by (default 0) (resize n None l) <= sum_by (default 0) l.
Proof.
  intros H. rewrite resize_spec, sum_by_app, sum_none. rewrite <- (take_drop n l) at 2. rewrite sum_by_app.
  apply (Forall_drop _ n) in H. enough (0 <= sum_by (default 0) (drop n l)) by lia.
  induction H as [|o l' Ho _ IH]; [done|]. unfold sum_by in *. cbn. lia.
Qed.

Lemma sum_delete k (l : list (option Z)) :
  Forall (fun o => 0 <= default 0 o) l ->
  sum_by (default 0) (delete k l) <= sum_by (default 0) l /\ Forall (fun o => 0 <= default 0 o) (delete k l).
Proof.
  intros H. split; [|by apply Forall_delete]. destruct (l !! k) as [o|] eqn:Hk.
  - rewrite (sum_by_lookup _ l k o Hk). pose proof (Forall_lookup_1 _ _ _ _ H Hk). cbn in *. lia.
  - apply lookup_ge_None in Hk. by rewrite delete_take_drop, take_ge, drop_ge, app_nil_r by lia.
Qed.

Lemma job_of_start ps gs sh n peers m0 polls m :
  counted (sh_tier sh, gs) -> Priority.peers (sh_tier sh) = ps ->
  let '(sh', j) := job_of (fetch_start (sh_tier sh) gs n (sh_rr sh) peers m0 polls m) [] in
  job_counted ps gs (sh_tier sh') j /\ job_frames j = [] /\ job_held j = 0.
Proof.
  intros Hc <-. pose proof (fetch_start_ok (sh_tier sh) gs n (sh_rr sh) peers m0 polls m Hc) as H.
  pose proof (fetch_start_holds (sh_tier sh) gs n (sh_rr sh) peers m0 polls m) as (Hf & Ho & _).
  destruct (fetch_start _ _ _ _ _ _ _ _) as [cfg s]. cbn in *. destruct H as (H1 & H2 & _).
  split_and!; [|done|].
  - rewrite <- Ho. apply fetch_job_counted; [done|done|]. by apply resize_nonneg.
  - unfold job_held. cbn. rewrite Hf. rewrite resize_spec. cbn. rewrite take_nil. apply sum_none.
Qed.

Lemma job_begin_ok ps gs left req sh peers m0 :
  counted (sh_tier sh, gs) -> Priority.peers (sh_tier sh) = ps ->
  let '(sh', j) := job_begin gs sh peers m0 in
  job_effect ps gs left req sh (JPin peers m0 []) sh' j [] /\ job_frames j = [] /\ job_held j = 0.
Proof.
  intros Hc Hp. unfold job_begin. destruct (remembered_peer _ _ _) eqn:Er.
  - pose proof (job_of_start ps gs sh (sh_node sh) peers m0 [] m0 Hc Hp) as H.
    pose proof (fetch_start_holds (sh_tier sh) gs (sh_node sh) (sh_rr sh) peers m0 [] m0) as (_ & _ & _ & Hn).
    destruct (job_of _ _) as [sh' j] eqn:Ej. destruct H as (H1 & H2 & H3).
    split_and!; [|done|done]. split; [done| |rewrite H2|by apply Forall_nil|rewrite H3; unfold job_held; cbn; lia].
    + injection Ej as <- _. by apply Hn.
    + by intros f ?%elem_of_nil.
  - split_and!; [|done|done]. split; [|done|auto|by apply Forall_nil|unfold job_held; cbn; lia].
    split_and!; [by rewrite app_nil_r|done|done].
Qed.

Lemma job_poll_ok ps gs left req sh peers m0 polls m :
  job_counted ps gs (sh_tier sh) (JPin peers m0 polls) ->
  let '(sh', j) := job_poll gs sh peers m0 polls m in
  job_effect ps gs left req sh (JPin peers m0 polls) sh' j [].
Proof.
  intros (Hc & Hp & _). cbn in Hc. rewrite app_nil_r in Hc. unfold job_poll.
  destruct (session_snapshot (sh_node sh) m) as [pin n] eqn:En.
  assert (Hn : prefetch n = prefetch (sh_node sh)) by (by rewrite <- (snapshot_prefetch (sh_node sh) m), En).
  destruct (_ || _).
  - pose proof (job_of_start ps gs sh (no_rpc_peer n) peers m0 (polls ++ [(m, n)]) m Hc Hp) as H.
    pose proof (fetch_start_holds (sh_tier sh) gs (no_rpc_peer n) (sh_rr sh) peers m0 (polls ++ [(m, n)]) m) as (_ & _ & Hs & _).
    destruct (job_of _ _) as [sh' j] eqn:Ej. destruct H as (H1 & H2 & H3).
    split; [done| |rewrite H2|by apply Forall_nil|rewrite H3; unfold job_held; cbn; lia].
    + injection Ej as <- _. etrans; [by apply Hs|]. by rewrite last_snoc.
    + by intros f ?%elem_of_nil.
  - split; [|done|auto|by apply Forall_nil|unfold job_held; cbn; lia]. split_and!; [by rewrite app_nil_r|done|done].
Qed.

Lemma job_effect_refl ps gs left req sh j :
  job_counted ps gs (sh_tier sh) j -> job_effect ps gs left req sh j sh j [].
Proof. intros Hc. split; [done|done|auto|by apply Forall_nil|lia]. Qed.

(** An outcome that brings a frame was read in full, within the budget the attempt holds. *)
Lemma talk_frame budget t prewarm f :
  default true (talk_ok budget <$> t) = true ->
  outcome_frames ((fun t => fetch_client_blocks_from_peer t prewarm) <$> t) = [f] ->
  frame_weight f <= 5 + MAX_CLIENT_BLOCK_RESPONSE /\ budget = Some (frame_weight f).
Proof.
  destruct t as [t|]; [|done]. cbn. unfold talk_ok, fetch_client_blocks_from_peer.
  destruct (prewarm_error t prewarm), (pt_connect t), (pt_write t); try done.
  destruct (pt_header t) as [|rh]; [done|].
  destruct (Z.ltb_spec MAX_CLIENT_BLOCK_RESPONSE (frame_len rh)) as [|Hm]; [done|].
  destruct (pt_budget t), (pt_payload t) as [|p]; try done. intros H Hf. zify_bool.
  assert (f = rh ++ p) as ->.
  { unfold response_of in Hf. repeat (case_match; [try done; by injection Hf|]); by injection Hf. }
  unfold frame_weight. rewrite length_app. split; [lia|]. subst budget. f_equal. lia.
Qed.

Lemma outcome_frames_one r : outcome_frames r = [] \/ exists f, outcome_frames r = [f].
Proof. destruct r as [[|[]]|]; cbn; eauto. Qed.

Lemma held_race cfg f reading fs :
  fetch_frames f ⊆+ fs -> job_held (JRace cfg f reading) <= sum_by frame_weight fs + sum_by (default 0) reading.
Proof.
  intros H. unfold job_held. cbn [job_frames job_reading]. pose proof (sum_by_submseteq frame_weight frame_weight_nonneg _ _ H). lia.
Qed.

Lemma job_wake_ok ps gs left req sh cfg f reading e :
  own_wake e = true -> job_counted ps gs (sh_tier sh) (JRace cfg f reading) ->
  let f' := fetch_step cfg (in_env gs sh f) e in
  job_effect ps gs left req sh (JRace cfg f reading) (env_of f')
    (JRace cfg f' (resize (length (f_set f')) None
       (match f_result f with None => reading_after f e reading | Some _ => reading end))) [].
Proof.
  intros He Hc f'. destruct (job_counted_fetch _ _ _ _ _ _ Hc) as [Hok Hw].
  destruct Hc as (_ & _ & Hr & _). destruct (wake_holds cfg (in_env gs sh f) e He) as (H1 & H2 & H3).
  destruct (fetch_step_ok cfg ps _ e Hok Hw) as [Hok' Hw']. fold f' in H1, H2, H3, Hok', Hw'.
  set (rd := match f_result f with None => _ | Some _ => _ end).
  assert (Hrd : sum_by (default 0) rd <= sum_by (default 0) reading /\ Forall (fun o => 0 <= default 0 o) rd).
  { unfold rd, reading_after. destruct (f_result f); [done|]. destruct e as [|k m| | | | |]; try done.
    destruct (f_set f !! k) as [a|]; [|done]. case_bool_decide; [by apply sum_delete|done]. }
  destruct Hrd as [Hs Hn]. split.
  - change gs with (f_others (in_env gs sh f)). rewrite <- H3. apply fetch_job_counted; [done|done|by apply resize_nonneg].
  - done.
  - intros fr Hfr. left. exact (elem_of_submseteq _ _ _ Hfr H1).
  - by apply Forall_nil.
  - etrans; [apply (held_race _ _ _ _ H1)|]. pose proof (sum_resize (length (f_set f')) rd Hn).
    unfold job_held. cbn [job_frames job_reading]. change (fetch_frames (in_env gs sh f)) with (fetch_frames f). lia.
Qed.

Lemma sum_insert_none k b (l : list (option Z)) :
  l !! k = Some b -> sum_by (default 0) (<[k := None]> l) = sum_by (default 0) l - default 0 b.
Proof. intros Hk. rewrite (sum_by_insert _ l k b None Hk). cbn. lia. Qed.

Lemma job_talk_ok ps gs left req sh cfg f reading k tag ip slot budget t :
  f_set f !! k = Some (mkAtt tag ip slot None) -> reading !! k = Some budget -> f_result f = None ->
  default true (talk_ok budget <$> t) = true -> job_counted ps gs (sh_tier sh) (JRace cfg f reading) ->
  let r := (fun t => fetch_client_blocks_from_peer t (bool_decide (tag = None))) <$> t in
  let f' := fetch_step cfg (in_env gs sh f) (FEnd k r) in
  job_effect ps gs left req sh (JRace cfg f reading) (env_of f') (JRace cfg f' (<[k := None]> reading))
    ((fun fr => (ip, req, fr)) <$> outcome_frames r).
Proof.
  intros Hk Hb Hn Ht Hc r f'. destruct (job_counted_fetch _ _ _ _ _ _ Hc) as [Hok Hw].
  destruct Hc as (_ & _ & Hr & _).
  destruct (end_holds cfg (in_env gs sh f) k _ r Hn Hk eq_refl) as (H1 & H2 & H3).
  destruct (fetch_step_ok cfg ps _ (FEnd k r) Hok Hw) as [Hok' Hw']. fold f' in H1, H2, H3, Hok', Hw'.
  pose proof (talk_frame budget t (bool_decide (tag = None))) as Htf. fold r in Htf.
  change (fetch_frames (in_env gs sh f)) with (fetch_frames f) in H1. split.
  - change gs with (f_others (in_env gs sh f)). rewrite <- H3. apply fetch_job_counted; [done|done|].
    by apply Forall_insert.
  - done.
  - cbn [job_frames]. intros fr. rewrite H1, elem_of_app. intros [Hfr|Hfr]; [|by left]. right. exists ip.
    by apply (list_elem_of_fmap_2 (fun fr => (ip, req, fr))).
  - apply Forall_fmap, Forall_forall. intros fr Hfr. split; [done|]. cbn.
    destruct (outcome_frames_one r) as [E|[f0 E]]; rewrite E in Hfr; [by apply elem_of_nil in Hfr|].
    apply list_elem_of_singleton in Hfr as ->. by apply Htf.
  - unfold job_held. cbn [job_frames job_reading]. rewrite H1, sum_by_app, (sum_insert_none _ _ _ Hb).
    destruct (outcome_frames_one r) as [E|[f0 E]]; rewrite E; cbn.
    + pose proof (Forall_lookup_1 _ _ _ _ Hr Hb) as H0. cbn in H0. lia.
    + destruct (Htf f0 Ht E) as [_ ->]. cbn. lia.
Qed.

Lemma job_step_ok ps gs left req sh j e :
  job_counted ps gs (sh_tier sh) j ->
  let '(sh', j', log) := job_step gs left sh req j e in job_effect ps gs left req sh j sh' j' log.
Proof.
  intros Hc. unfold job_step. pose proof (job_effect_refl ps gs left req sh j Hc) as Hrefl.
  destruct j as [peers m0 polls|cfg f reading]; destruct e as [m|k hdr|k t|e]; try exact Hrefl.
  - pose proof (job_poll_ok ps gs left req sh peers m0 polls m Hc) as H. by destruct (job_poll _ _ _ _ _ _).
  - destruct e; try exact Hrefl. split; [|done|by intros f ?%elem_of_nil|by apply Forall_nil|unfold job_held; cbn; lia].
    destruct Hc as (Hc & Hp & _). split_and!; [done|done|]. by cbn; split_and!.
  - destruct (f_set f !! k) as [[tag ip slot []]|] eqn:Hk; try exact Hrefl.
    destruct (reading !! k) as [[|]|] eqn:Hb; try exact Hrefl.
    destruct (_ && _) eqn:Eg; [|exact Hrefl]. zify_bool. destruct Hc as (C1 & C2 & C3 & C4).
    split; [|done|by left|by apply Forall_nil|].
    + split_and!; [done|done|]. split; [|exact C4]. apply Forall_insert; [done|cbn; lia].
    + unfold job_held. cbn [job_frames job_reading]. rewrite (sum_by_insert _ _ _ _ _ Hb). cbn. lia.
  - destruct (f_set f !! k) as [[tag ip slot []]|] eqn:Hk; try exact Hrefl.
    destruct (reading !! k) as [budget|] eqn:Hb; [|exact Hrefl]. destruct (f_result f) eqn:Hn; [exact Hrefl|].
    destruct (default true _) eqn:Et; [|exact Hrefl].
    pose proof (job_talk_ok ps gs left req sh cfg f reading k tag ip slot budget t Hk Hb Hn Et Hc) as H. cbn zeta in H.
    by destruct t as [t|]; cbn in *; [destruct (fetch_client_blocks_from_peer t _)|].
  - destruct (own_wake e) eqn:He; [|exact Hrefl]. by apply job_wake_ok.
Qed.

(** ** The invariant *)

(** An upstream answered [req] with [f]. *)
Definition answered_by (asked : list (string * bytes * bytes)) (req f : bytes) : Prop :=
  exists ip, (ip, req, f) ∈ asked.

(** The background fetch of a prefetch asks for its range. *)
Definition linked (tasks : list Background) (p : Prefetch) : Prop :=
  exists b, tasks !! pf_task p = Some b /\ bg_req b = client_block_range_request (pf_start p) (pf_end p).

Definition job_fine (ps : list string) (asked : list (string * bytes * bytes)) (req : bytes) (j : Job) : Prop :=
  job_local ps j /\ forall f, f ∈ job_frames j -> answered_by asked req f.

Definition request_ok (ps : list string) (tasks : list Background) (asked : list (string * bytes * bytes))
    (r : Request) : Prop :=
  match rq_at r with
  | QAwait req p _ => linked tasks p /\ req = client_block_range_request (pf_start p) (pf_end p)
  | QFetch req j => job_fine ps asked req j
  | QGot req (inr f) | QWrite req f => answered_by asked req f
  | QAhead req f p => answered_by asked req f /\ linked tasks p
  | _ => True
  end.

Definition task_ok (ps : list string) (asked : list (string * bytes * bytes)) (b : Background) : Prop :=
  match bg_at b with
  | BgJob j => job_fine ps asked (bg_req b) j
  | BgDone (Some (inr f)) => answered_by asked (bg_req b) f
  | _ => True
  end.

Definition nodes_ok (tasks : list Background) (nodes : gmap Z PNode) : Prop :=
  forall n nd p, nodes !! n = Some nd -> prefetch nd = Some p -> linked tasks p.

Definition log_ok (log : list (string * bytes * bytes)) : Prop :=
  Forall (fun x => frame_weight x.2 <= 5 + MAX_CLIENT_BLOCK_RESPONSE) log.

Definition written_ok (requests : list Request) (asked : list (string * bytes * bytes))
    (written : list (nat * bytes * bytes)) : Prop :=
  NoDup (fst ∘ fst <$> written) /\
  Forall (fun w => (exists r, requests !! w.1.1 = Some r /\ rq_at r = QDone) /\
                   exists f, w.2 `prefix_of` f /\ answered_by asked w.1.2 f) written.

Definition all_slots (s : Service) : list nat :=
  sv_guards s ++ (sv_requests s ≫= request_slots) ++ (sv_tasks s ≫= task_slots).

Record service_inv (ps : list string) (s : Service) : Prop := {
  si_counted : counted (sv_tier s, all_slots s);
  si_peers : Priority.peers (sv_tier s) = ps;
  si_requests : Forall (request_ok ps (sv_tasks s) (sv_asked s)) (sv_requests s);
  si_tasks : Forall (task_ok ps (sv_asked s)) (sv_tasks s);
  si_nodes : nodes_ok (sv_tasks s) (sv_nodes s);
  si_log : log_ok (sv_asked s);
  si_held : bytes_held s <= CLIENT_BLOCK_RESPONSE_BYTES;
  si_fetching : (fetching s <= CLIENT_BLOCK_FETCH_SLOTS)%nat;
  si_prefetching : (prefetching s <= PREFETCH_SLOTS)%nat;
  si_written : written_ok (sv_requests s) (sv_asked s) (sv_written s)
}.

(** *** Monotonicity *)

(** The tasks keep their places and requests. *)
Definition tasks_extend (l l' : list Background) : Prop :=
  forall i b, l !! i = Some b -> exists b', l' !! i = Some b' /\ bg_req b' = bg_req b.

Lemma linked_mono l l' p : tasks_extend l l' -> linked l p -> linked l' p.
Proof. intros He (b & Hb & Hr). destruct (He _ _ Hb) as (b' & Hb' & Hr'). exists b'. split; [done|congruence]. Qed.

Lemma answered_mono asked log req f : answered_by asked req f -> answered_by (asked ++ log) req f.
Proof. intros [ip H]. exists ip. apply elem_of_app. by left. Qed.

Lemma job_fine_mono ps asked log req j : job_fine ps asked req j -> job_fine ps (asked ++ log) req j.
Proof. intros [H1 H2]. split; [done|]. intros f Hf. by apply answered_mono, H2. Qed.

#[local] Hint Resolve linked_mono answered_mono job_fine_mono : hyper.

Lemma request_ok_mono ps l l' asked log r :
  tasks_extend l l' -> request_ok ps l asked r -> request_ok ps l' (asked ++ log) r.
Proof.
  unfold request_ok. intros He. destruct (rq_at r) as [|? ? ?| |? ?|? [|]|? ? ?|? ?|]; try done; eauto with hyper;
    intros []; split; eauto with hyper.
Qed.

Lemma task_ok_mono ps asked log b : task_ok ps asked b -> task_ok ps (asked ++ log) b.
Proof. unfold task_ok. destruct (bg_at b) as [| |[[|]|]|]; try done; eauto with hyper. Qed.

Lemma tasks_extend_refl l : tasks_extend l l.
Proof. intros i b. eauto. Qed.

Lemma tasks_extend_insert l i b b' : l !! i = Some b -> bg_req b' = bg_req b -> tasks_extend l (<[i := b']> l).
Proof.
  intros Hi Hr k c Hk. destruct (decide (i = k)) as [->|Hne].
  - exists b'. split; [|congruence]. apply list_lookup_insert_eq. by eapply lookup_lt_Some.
  - exists c. by rewrite list_lookup_insert_ne.
Qed.

Lemma tasks_extend_snoc l b : tasks_extend l (l ++ [b]).
Proof. intros i c Hi. exists c. split; [|done]. by apply lookup_app_l_Some. Qed.

#[local] Hint Resolve tasks_extend_refl tasks_extend_insert tasks_extend_snoc : hyper.

Lemma slots_outside_request s i r :
  sv_requests s !! i = Some r -> all_slots s ≡ₚ outside_request s i ++ request_slots r.
Proof.
  intros Hi. unfold all_slots, outside_request. rewrite (delete_Permutation _ _ _ Hi) at 1. rewrite bind_cons.
  solve_Permutation.
Qed.

Lemma slots_outside_task s b t :
  sv_tasks s !! b = Some t -> all_slots s ≡ₚ outside_task s b ++ task_slots t.
Proof.
  intros Hi. unfold all_slots, outside_task. rewrite (delete_Permutation _ _ _ Hi) at 1. rewrite bind_cons.
  solve_Permutation.
Qed.

Lemma count_insert {A} (f : A -> bool) l i x y :
  l !! i = Some x ->
  (length (filter (fun z => f z = true) (<[i := y]> l)) + (if f x then 1 else 0) =
   length (filter (fun z => f z = true) l) + (if f y then 1 else 0))%nat.
Proof.
  intros Hi. pose proof (lookup_lt_Some _ _ _ Hi). rewrite insert_take_drop by done.
  rewrite <- (take_drop_middle _ _ _ Hi) at 3. rewrite !filter_app, !length_app, !filter_cons.
  destruct (decide (f x = true)) as [->|Hx], (decide (f y = true)) as [->|Hy]; cbn;
    rewrite ?(not_true_is_false _ Hx), ?(not_true_is_false _ Hy); lia.
Qed.

(** *** Updates *)

Section updates.
Context (ps : list string) (s : Service) (Hs : service_inv ps s).

Lemma held_outside_request i r :
  sv_requests s !! i = Some r ->
  budget_left s = CLIENT_BLOCK_RESPONSE_BYTES - request_held r - sum_by request_held (delete i (sv_requests s)) -
                  sum_by task_held (sv_tasks s).
Proof. intros Hi. unfold budget_left, bytes_held. rewrite (sum_by_lookup _ _ _ _ Hi). lia. Qed.

(** One request moves on. *)
Lemma update_request s' i r r' log :
  sv_requests s !! i = Some r -> rq_at r <> QDone ->
  sv_requests s' = <[i := r']> (sv_requests s) -> sv_guards s' = sv_guards s -> sv_tasks s' = sv_tasks s ->
  sv_asked s' = sv_asked s ++ log -> sv_written s' = sv_written s ->
  counted (sv_tier s', outside_request s i ++ request_slots r') -> Priority.peers (sv_tier s') = ps ->
  request_ok ps (sv_tasks s) (sv_asked s ++ log) r' -> nodes_ok (sv_tasks s) (sv_nodes s') -> log_ok log ->
  request_held r' <= Z.max (request_held r) (request_held r + budget_left s) ->
  (in_fetch r' = true -> in_fetch r = true \/ (fetching s < CLIENT_BLOCK_FETCH_SLOTS)%nat) ->
  service_inv ps s'.
Proof.
  intros Hi Hq Er Eg Et Ea Ew Hc Hp Hok Hn Hl Hh Hf.
  pose proof (lookup_lt_Some _ _ _ Hi) as Hlt. destruct Hs. split.
  - eapply counted_perm; [|exact Hc]. unfold all_slots, outside_request. rewrite Er, Eg, Et.
    rewrite (delete_Permutation (<[i := r']> (sv_requests s)) i r') by (by apply list_lookup_insert_eq).
    rewrite bind_cons. rewrite !delete_take_drop, take_insert_ge, drop_insert_lt by lia. solve_Permutation.
  - done.
  - rewrite Er, Et, Ea. apply Forall_insert; [|done]. eapply Forall_impl; [done|]. intros x.
    apply request_ok_mono, tasks_extend_refl.
  - rewrite Et, Ea. eapply Forall_impl; [done|]. intros x. apply task_ok_mono.
  - by rewrite Et.
  - rewrite Ea. by apply Forall_app.
  - unfold bytes_held, budget_left, bytes_held in *. rewrite Er, Et, (sum_by_insert _ _ _ _ _ Hi). lia.
  - unfold fetching in *. rewrite Er. pose proof (count_insert in_fetch _ _ _ r' Hi) as Hcnt.
    destruct (in_fetch r') eqn:E'; [|destruct (in_fetch r); lia].
    destruct (Hf eq_refl) as [E|]; [rewrite E in Hcnt|destruct (in_fetch r)]; lia.
  - unfold prefetching in *. by rewrite Et.
  - rewrite Er, Ea, Ew. destruct si_written0 as [Hnd Hall]. split; [done|]. eapply Forall_impl; [exact Hall|].
    cbn. intros w [(x & Hx & Hd) (f & Hpre & Ha)]. split; [|exists f; split; [done|by apply answered_mono]].
    exists x. split; [|done]. rewrite list_lookup_insert_ne; [done|]. intros E. rewrite E in Hi. congruence.
Qed.

(** One background fetch moves on. *)
Lemma update_task s' b t t' log :
  sv_tasks s !! b = Some t -> bg_req t' = bg_req t ->
  sv_tasks s' = <[b := t']> (sv_tasks s) -> sv_guards s' = sv_guards s -> sv_requests s' = sv_requests s ->
  sv_asked s' = sv_asked s ++ log -> sv_written s' = sv_written s ->
  counted (sv_tier s', outside_task s b ++ task_slots t') -> Priority.peers (sv_tier s') = ps ->
  task_ok ps (sv_asked s ++ log) t' -> nodes_ok (sv_tasks s) (sv_nodes s') -> log_ok log ->
  task_held t' <= Z.max (task_held t) (task_held t + budget_left s) ->
  (running t' = true -> running t = true) ->
  service_inv ps s'.
Proof.
  intros Hi Hq Et Eg Er Ea Ew Hc Hp Hok Hn Hl Hh Hf.
  pose proof (lookup_lt_Some _ _ _ Hi) as Hlt.
  assert (Hext : tasks_extend (sv_tasks s) (sv_tasks s')) by (rewrite Et; eauto with hyper).
  destruct Hs. split.
  - eapply counted_perm; [|exact Hc]. unfold all_slots, outside_task. rewrite Er, Eg, Et.
    rewrite (delete_Permutation (<[b := t']> (sv_tasks s)) b t') by (by apply list_lookup_insert_eq).
    rewrite bind_cons. rewrite !delete_take_drop, take_insert_ge, drop_insert_lt by lia. solve_Permutation.
  - done.
  - rewrite Er, Ea. eapply Forall_impl; [done|]. intros x. by apply request_ok_mono.
  - rewrite Et, Ea. apply Forall_insert; [|done]. eapply Forall_impl; [done|]. intros x. apply task_ok_mono.
  - intros n nd p H1 H2. eapply linked_mono; [exact Hext|by eapply Hn].
  - rewrite Ea. by apply Forall_app.
  - unfold bytes_held, budget_left, bytes_held in *. rewrite Er, Et, (sum_by_insert _ _ _ _ _ Hi). lia.
  - unfold fetching in *. by rewrite Er.
  - unfold prefetching in *. rewrite Et. pose proof (count_insert running _ _ _ t' Hi) as Hcnt.
    destruct (running t') eqn:E'; [rewrite (Hf eq_refl) in Hcnt; lia|destruct (running t); lia].
  - rewrite Er, Ea, Ew. destruct si_written0 as [Hnd Hall]. split; [done|]. eapply Forall_impl; [exact Hall|].
    cbn. intros w [Hd (f & Hpre & Ha)]. split; [done|exists f; split; [done|by apply answered_mono]].
Qed.

(** A node changes, its prefetch at most dropped or replaced by a linked one. *)
Lemma update_node n nd :
  (forall p, prefetch nd = Some p -> linked (sv_tasks s) p) -> service_inv ps (put_node s n nd).
Proof.
  intros Hp. destruct Hs. split; try done. cbn. intros k nd' p Hk Hpf.
  destruct (decide (n = k)) as [->|Hne]; [rewrite lookup_insert_eq in Hk|rewrite lookup_insert_ne in Hk by done; eauto].
  injection Hk as <-. by apply Hp.
Qed.

Lemma node_prefetch n p : prefetch (node_at s n) = Some p -> linked (sv_tasks s) p.
Proof.
  unfold node_at. destruct (sv_nodes s !! n) as [nd|] eqn:E; [|done]. cbn. destruct Hs. eauto.
Qed.

End updates.

(** A fetch holds what it returned. *)
Lemma job_held_result ps j :
  job_local ps j ->
  0 <= job_held j /\ sum_by frame_weight (result_frames (job_result j)) <= job_held j /\
  (forall f, f ∈ result_frames (job_result j) -> f ∈ job_frames j) /\
  (is_Some (job_result j) -> job_slots j = []).
Proof.
  destruct j as [peers m0 polls|cfg f rd]; [intros _; unfold job_held; cbn; split_and!; [lia|lia|done|by intros []]|].
  intros (Hr & Hw & _). pose proof (sum_resize 0 rd Hr) as H0. rewrite resize_0 in H0. cbn in H0.
  pose proof (sum_by_nonneg frame_weight frame_weight_nonneg (fetch_frames f)) as H1.
  unfold job_held. cbn [job_frames job_reading job_result job_slots]. split; [lia|].
  destruct (f_result f) as [r|] eqn:E.
  - unfold fetch_frames in *. rewrite E in *. unfold waits in Hw. rewrite E in Hw. rewrite Hw. split_and!; [lia|done|done].
  - split_and!; [cbn; lia|by intros x ?%elem_of_nil|by intros []].
Qed.

(** *** Steps *)

Section steps.
Context (ps : list string) (s : Service) (Hs : service_inv ps s).

(** A request moves to a phase without a fetch. *)
Lemma move_request i r p :
  sv_requests s !! i = Some r -> rq_at r <> QDone -> request_slots r = [] ->
  request_ok ps (sv_tasks s) (sv_asked s) (mkReq (rq_node r) (rq_peers r) p) ->
  match p with QFetch _ _ => False | _ => True end ->
  sum_by frame_weight (phase_frames p) <= Z.max (request_held r) (request_held r + budget_left s) ->
  service_inv ps (set_request s i r p).
Proof.
  intros Hi Hq Hsl Hok Hp Hh. apply (update_request ps s Hs _ i r (mkReq (rq_node r) (rq_peers r) p) []); try done.
  - by rewrite app_nil_r.
  - eapply counted_perm; [|exact (si_counted _ _ Hs)]. rewrite (slots_outside_request _ _ _ Hi), Hsl.
    unfold request_slots. cbn. by destruct p.
  - apply Hs.
  - by rewrite app_nil_r.
  - apply Hs.
  - by apply Forall_nil.
  - unfold request_held at 1. cbn. by destruct p.
  - unfold in_fetch. cbn. by destruct p.
Qed.

Lemma bytes_left : 0 <= budget_left s.
Proof. unfold budget_left. pose proof (si_held _ _ Hs). lia. Qed.

(** The fetch of a request has its slots counted. *)
Lemma request_job i r req j :
  sv_requests s !! i = Some r -> rq_at r = QFetch req j ->
  job_counted ps (outside_request s i) (sv_tier s) j /\ forall f, f ∈ job_frames j -> answered_by (sv_asked s) req f.
Proof.
  intros Hi Hq. pose proof (Forall_lookup_1 _ _ _ _ (si_requests _ _ Hs) Hi) as Hok. unfold request_ok in Hok.
  rewrite Hq in Hok. destruct Hok as [Hl Hf]. split; [|done]. split_and!; [|apply Hs|done].
  eapply counted_perm; [|exact (si_counted _ _ Hs)]. rewrite (slots_outside_request _ _ _ Hi).
  unfold request_slots. by rewrite Hq.
Qed.

Lemma task_job b t j :
  sv_tasks s !! b = Some t -> bg_at t = BgJob j ->
  job_counted ps (outside_task s b) (sv_tier s) j /\ forall f, f ∈ job_frames j -> answered_by (sv_asked s) (bg_req t) f.
Proof.
  intros Hi Hq. pose proof (Forall_lookup_1 _ _ _ _ (si_tasks _ _ Hs) Hi) as Hok. unfold task_ok in Hok.
  rewrite Hq in Hok. destruct Hok as [Hl Hf]. split; [|done]. split_and!; [|apply Hs|done].
  eapply counted_perm; [|exact (si_counted _ _ Hs)]. rewrite (slots_outside_task _ _ _ Hi).
  unfold task_slots. by rewrite Hq.
Qed.

(** What a step of a fetch does to the service. *)
Lemma effect_parts gs left req n j sh' j' log :
  job_effect ps gs left req (env_for s n) j sh' j' log ->
  (forall f, f ∈ job_frames j -> answered_by (sv_asked s) req f) ->
  job_fine ps (sv_asked s ++ log) req j' /\ nodes_ok (sv_tasks s) (<[n := sh_node sh']> (sv_nodes s)) /\ log_ok log.
Proof.
  intros [Hc Hp Hf Hl _] Hj. split_and!.
  - split; [apply Hc|]. intros f Hfr. destruct (Hf f Hfr) as [H|[ip H]]; [by apply answered_mono, Hj|].
    exists ip. apply elem_of_app. by right.
  - intros k nd p Hk Hpf. destruct (decide (n = k)) as [->|Hne].
    + rewrite lookup_insert_eq in Hk. injection Hk as <-. rewrite Hp in Hpf. exact (node_prefetch ps s Hs _ _ Hpf).
    + rewrite lookup_insert_ne in Hk by done. destruct Hs. eauto.
  - eapply Forall_impl; [exact Hl|]. by intros x [_ ?].
Qed.

Lemma fetch_moves i r req j sh' j' log :
  sv_requests s !! i = Some r ->
  (rq_at r = QFetch req j \/ (rq_at r = QSlot req /\ job_held j = 0 /\ job_frames j = [] /\
                              (fetching s < CLIENT_BLOCK_FETCH_SLOTS)%nat)) ->
  (forall f, f ∈ job_frames j -> answered_by (sv_asked s) req f) ->
  job_effect ps (outside_request s i) (budget_left s) req (env_for s (rq_node r)) j sh' j' log ->
  service_inv ps (set_request (put_env s (rq_node r) sh' log) i r (QFetch req j')).
Proof.
  intros Hi Hq Hf He. destruct (effect_parts _ _ _ _ _ _ _ _ He Hf) as (H1 & H2 & H3). destruct He as [Hc _ _ _ Hh].
  apply (update_request ps s Hs _ i r (mkReq (rq_node r) (rq_peers r) (QFetch req j')) log); try done.
  - destruct Hq as [->|[-> _]]; done.
  - apply Hc.
  - apply Hc.
  - assert (request_held r = job_held j) as ->; [|exact Hh].
    unfold request_held. destruct Hq as [->|(-> & E & _)]; done.
  - intros _. unfold in_fetch. destruct Hq as [->|(_ & _ & _ & ?)]; auto.
Qed.

Lemma task_moves b t j sh' j' log :
  sv_tasks s !! b = Some t ->
  (bg_at t = BgJob j \/ (bg_at t = BgNew /\ job_held j = 0 /\ job_frames j = [])) ->
  (forall f, f ∈ job_frames j -> answered_by (sv_asked s) (bg_req t) f) ->
  job_effect ps (outside_task s b) (budget_left s) (bg_req t) (env_for s (bg_node t)) j sh' j' log ->
  service_inv ps (set_task (put_env s (bg_node t) sh' log) b t (BgJob j')).
Proof.
  intros Hi Hq Hf He. destruct (effect_parts _ _ _ _ _ _ _ _ He Hf) as (H1 & H2 & H3). destruct He as [Hc _ _ _ Hh].
  apply (update_task ps s Hs _ b t (mkBg (bg_node t) (bg_peers t) (bg_req t) (BgJob j')) log); try done.
  - apply Hc.
  - apply Hc.
  - assert (task_held t = job_held j) as ->; [|exact Hh].
    unfold task_held. destruct Hq as [->|(-> & E & _)]; done.
  - intros _. unfold running. destruct Hq as [->|(-> & _)]; done.
Qed.

(** A background fetch ends, with an output it held or with none. *)
Lemma end_task b t p :
  sv_tasks s !! b = Some t ->
  match p with BgDone r => result_frames r = [] \/ exists j, bg_at t = BgJob j /\ job_result j = r | BgGone => True | _ => False end ->
  service_inv ps (drop_task s b t p).
Proof.
  intros Hi Hp. pose proof (Forall_lookup_1 _ _ _ _ (si_tasks _ _ Hs) Hi) as Hok.
  assert (Hnn : 0 <= task_held t).
  { unfold task_held. unfold task_ok in Hok. destruct (bg_at t) as [|j|r|]; try lia; [|apply sum_by_nonneg, frame_weight_nonneg].
    apply (job_held_result ps), Hok. }
  apply (update_task ps s Hs _ b t (mkBg (bg_node t) (bg_peers t) (bg_req t) p) []); try done.
  - by rewrite app_nil_r.
  - assert (task_slots (mkBg (bg_node t) (bg_peers t) (bg_req t) p) = []) as -> by (by destruct p).
    rewrite app_nil_r. apply counted_drops. eapply counted_perm; [|exact (si_counted _ _ Hs)].
    by rewrite (slots_outside_task _ _ _ Hi).
  - cbn. rewrite (proj1 (proj2 (evolves_drops _ _))). apply Hs.
  - rewrite app_nil_r. unfold task_ok in *. cbn. destruct p as [| |r|]; try done.
    destruct Hp as [Hp|(j & Ht & <-)]; [by destruct r as [[]|]|]. rewrite Ht in Hok.
    destruct (job_held_result ps j (proj1 Hok)) as (_ & _ & Hf & _). destruct (job_result j) as [[|f]|]; try done.
    apply Hok, Hf. by left.
  - apply Hs.
  - by apply Forall_nil.
  - unfold task_held at 1. cbn. destruct p as [| |r|]; try done; [|lia].
    destruct Hp as [->|(j & Ht & <-)]; [cbn; lia|]. unfold task_held, task_ok in *. rewrite Ht in *.
    pose proof (job_held_result ps j (proj1 Hok)). lia.
  - unfold running. cbn. by destruct p.
Qed.

End steps.

Lemma range_request req start end_ :
  Forall is_byte req -> client_block_range req = Some (start, end_) -> req = client_block_range_request start end_.
Proof. intros Hb H. by apply range_request_roundtrip in H as [-> _]. Qed.

(** A spawned background fetch takes a slot and holds nothing yet. *)
Lemma add_task ps s (Hs : service_inv ps s) ids t :
  (prefetching s < PREFETCH_SLOTS)%nat -> bg_at t = BgNew ->
  service_inv ps (mkService (sv_tier s) (sv_guards s) (sv_rr s) (sv_nodes s) ids (sv_requests s)
    (sv_tasks s ++ [t]) (sv_asked s) (sv_written s)).
Proof.
  intros Hn Ht. assert (Hslots : task_slots t = []) by (unfold task_slots; by rewrite Ht).
  assert (Hheld : task_held t = 0) by (unfold task_held; by rewrite Ht). destruct Hs. split; cbn; try done.
  - unfold all_slots. cbn. rewrite bind_app. cbn. by rewrite Hslots, !app_nil_r.
  - rewrite <- (app_nil_r (sv_asked s)). eapply Forall_impl; [done|]. intros x. apply request_ok_mono, tasks_extend_snoc.
  - apply Forall_app. split; [done|]. apply Forall_singleton. unfold task_ok. by rewrite Ht.
  - intros n nd p H1 H2. eapply linked_mono; [apply tasks_extend_snoc|]. eauto.
  - unfold bytes_held in *. cbn [sv_requests sv_tasks]. rewrite sum_by_app. cbn [sum_by foldr]. lia.
  - unfold prefetching in *. cbn. rewrite filter_app, length_app. cbn.
    destruct (decide (running t = true)); cbn; lia.
Qed.

Section handlers.
Context (ps : list string) (s : Service) (Hs : service_inv ps s) (i : nat) (r : Request).
Context (Hi : sv_requests s !! i = Some r).

(** A request with no fetch and no frame can move to any phase without them. *)
Lemma move_plain p :
  rq_at r <> QDone -> request_slots r = [] -> phase_frames p = [] ->
  request_ok ps (sv_tasks s) (sv_asked s) (mkReq (rq_node r) (rq_peers r) p) ->
  match p with QFetch _ _ => False | _ => True end -> service_inv ps (set_request s i r p).
Proof.
  intros Hq Hsl Hf Hok Hp. apply (move_request ps s Hs); try done. rewrite Hf.
  pose proof (Forall_lookup_1 _ _ _ _ (si_requests _ _ Hs) Hi) as Hr.
  pose proof (bytes_left ps s Hs). enough (0 <= request_held r) by (cbn; lia).
  unfold request_held, request_ok in *.
  destruct (rq_at r); try (apply sum_by_nonneg, frame_weight_nonneg). apply (job_held_result ps), Hr.
Qed.

Lemma request_read_ok hdr payload now :
  rq_at r = QRead -> match hdr, payload with Some h, Some p => Forall is_byte (h ++ p) | _, _ => True end ->
  service_inv ps (request_read s i r hdr payload now).
Proof.
  intros Hq Hb. unfold request_read. assert (Hsl : request_slots r = []) by (unfold request_slots; by rewrite Hq).
  assert (Hnd : rq_at r <> QDone) by (by rewrite Hq).
  destruct (read_request hdr payload) as [req|] eqn:Er; [|by apply move_plain].
  assert (Hbr : Forall is_byte req).
  { unfold read_request in Er. destruct hdr as [h|]; [|done]. destruct (65536 <? frame_len h); [done|].
    destruct payload as [p|]; [|done]. by injection Er as <-. }
  destruct (client_block_range req) as [[start end_]|] eqn:Erg; [|by apply move_plain].
  unfold take_prefetch. destruct (prefetch (node_at s (rq_node r))) as [p|] eqn:Ep.
  - assert (H1 : service_inv ps (put_node s (rq_node r) (set_prefetch (node_at s (rq_node r)) None)))
      by (apply update_node; [done|by intros]).
    destruct (serves _ _ _ _ _) eqn:Es.
    + apply (move_request ps _ H1); [done|done|done| |done|cbn; unfold request_held; rewrite Hq; cbn; lia].
      unfold request_ok. cbn [rq_at]. split; [exact (node_prefetch ps s Hs _ _ Ep)|]. unfold serves in Es. zify_bool.
      rewrite (range_request _ _ _ Hbr Erg). congruence.
    + apply (move_request ps _ H1); [done|done|done|done|done|cbn; unfold request_held; rewrite Hq; cbn; lia].
  - assert (H1 : service_inv ps (put_node s (rq_node r) (node_at s (rq_node r))))
      by (apply update_node; [done|intros p; by rewrite Ep]).
    apply (move_request ps _ H1); [done|done|done|done|done|cbn; unfold request_held; rewrite Hq; cbn; lia].
Qed.

Lemma prefetch_joined_ok req p started :
  rq_at r = QAwait req p started -> service_inv ps (prefetch_joined s i r req p).
Proof.
  intros Hq. unfold prefetch_joined. destruct (sv_tasks s !! pf_task p) as [[n peers q [| |out|]]|] eqn:Et; try done.
  pose proof (Forall_lookup_1 _ _ _ _ (si_requests _ _ Hs) Hi) as Hok. unfold request_ok in Hok. rewrite Hq in Hok.
  destruct Hok as [(b & Hb & Hreq) ->]. rewrite Et in Hb. injection Hb as <-. cbn in Hreq.
  pose proof (Forall_lookup_1 _ _ _ _ (si_tasks _ _ Hs) Et) as Hto. unfold task_ok in Hto. cbn in Hto.
  set (t := mkBg n peers q (BgDone out)) in *.
  pose proof (end_task ps s Hs (pf_task p) t BgGone Et I) as H1.
  change (drop_task s (pf_task p) t BgGone) with (set_task s (pf_task p) t BgGone) in H1.
  assert (Hh : request_held r = 0) by (unfold request_held; by rewrite Hq).
  assert (Hsl : request_slots r = []) by (unfold request_slots; by rewrite Hq).
  unfold await_prefetch. destruct out as [[e|frame]|].
  2:{ destruct (_ && _).
      - apply (move_request ps _ H1); [done|by rewrite Hq|done| |done|].
        + cbn. by rewrite <- Hreq.
        + rewrite Hh. cbn [phase_frames result_frames]. enough (frame_weight frame <= budget_left (set_task s (pf_task p) t BgGone)) by (cbn; lia).
          unfold budget_left, bytes_held, set_task. cbn [sv_requests sv_tasks]. rewrite (sum_by_insert _ _ _ _ _ Et).
          pose proof (si_held _ _ Hs) as Hm. unfold bytes_held in Hm. unfold t. unfold task_held at 2 3. cbn.
          rewrite (sum_by_lookup request_held _ _ _ Hi) in *. lia.
      - apply (move_request ps _ H1); [done|by rewrite Hq|done|done|done|rewrite Hh; cbn; lia]. }
  all: apply (move_request ps _ H1); [done|by rewrite Hq|done|done|done|rewrite Hh; cbn; lia].
Qed.

Lemma note_batch_prefetch nd range frame freshest now :
  prefetch (note_batch nd range frame freshest now).1 = prefetch nd.
Proof. unfold note_batch. destruct range as [[]|]; [|done]. by case_bool_decide. Qed.

Lemma answered_ok req frame freshest now :
  rq_at r = QGot req (inr frame) -> service_inv ps (answered s i r req frame freshest now).
Proof.
  intros Hq. unfold answered.
  pose proof (note_batch_prefetch (node_at s (rq_node r)) (client_block_range req) frame freshest now) as Hp.
  destruct (note_batch _ _ _ _ _) as [nd next]. cbn in Hp.
  pose proof (Forall_lookup_1 _ _ _ _ (si_requests _ _ Hs) Hi) as Hok. unfold request_ok in Hok. rewrite Hq in Hok.
  assert (H1 : service_inv ps (put_node s (rq_node r) nd)).
  { apply update_node; [done|]. intros p. rewrite Hp. by apply (node_prefetch ps). }
  assert (Hh : request_held r = frame_weight frame + 0) by (unfold request_held; by rewrite Hq).
  assert (Hsl : request_slots r = []) by (unfold request_slots; by rewrite Hq).
  assert (Hwrite : service_inv ps (set_request (put_node s (rq_node r) nd) i r (QWrite req frame)))
    by (apply (move_request ps _ H1); [done|by rewrite Hq|done|done|done|rewrite Hh; cbn; lia]).
  destruct next as [range|]; [|exact Hwrite].
  destruct (Nat.ltb_spec (prefetching (put_node s (rq_node r) nd)) PREFETCH_SLOTS) as [Hlt|]; [|exact Hwrite].
  set (t := mkBg (rq_node r) (rq_peers r) (client_block_range_request range.1 range.2) BgNew).
  assert (H2 := add_task ps _ H1 ((sv_ids (put_node s (rq_node r) nd) + 1) mod 2 ^ 64) t Hlt eq_refl).
  apply (move_request ps _ H2); [done|by rewrite Hq|done| |done|rewrite Hh; cbn; lia].
  unfold request_ok. cbn [rq_at]. split; [done|]. exists t. split; [|done].
  cbn. by rewrite lookup_app_r, Nat.sub_diag by lia.
Qed.

(** The answer is written once. *)
Lemma write_answer_ok req frame part :
  rq_at r = QWrite req frame -> service_inv ps (write_answer s i r req frame part).
Proof.
  intros Hq. assert (H1 : service_inv ps (set_request s i r QDone)).
  { apply move_plain; [by rewrite Hq| |done|done|done]. unfold request_slots. by rewrite Hq. }
  pose proof (Forall_lookup_1 _ _ _ _ (si_requests _ _ Hs) Hi) as Hok. unfold request_ok in Hok. rewrite Hq in Hok.
  destruct (si_written _ _ Hs) as [_ Hall0]. unfold write_answer. destruct H1. split; try done. cbn in *.
  destruct si_written0 as [Hnd Hall]. split.
  - rewrite fmap_app. apply NoDup_app. split_and!; [done| |apply NoDup_singleton]. cbn.
    intros x (w & Ex & Hw)%list_elem_of_fmap Ei%list_elem_of_singleton. rewrite Forall_forall in Hall0.
    destruct (Hall0 w Hw) as [(r' & Hr' & Hd) _]. cbn in Ex. rewrite <- Ex, Ei in Hr'. congruence.
  - apply Forall_app. split; [done|]. apply Forall_singleton. cbn. split.
    + eexists. split; [apply list_lookup_insert_eq; by eapply lookup_lt_Some|done].
    + exists frame. split; [|done]. destruct part; [apply prefix_take|done].
Qed.

End handlers.

(** Requests come as bytes. *)
Definition bytes_read (e : service_event) : Prop :=
  match e with SReq _ (SRequest (Some h) (Some p) _) => Forall is_byte (h ++ p) | _ => True end.

Lemma serve_client_blocks_ok ps s i r e :
  service_inv ps s -> sv_requests s !! i = Some r -> bytes_read (SReq i e) ->
  service_inv ps (serve_client_blocks s i r e).
Proof.
  intros Hs Hi Hb. unfold serve_client_blocks. pose proof (Forall_lookup_1 _ _ _ _ (si_requests _ _ Hs) Hi) as Hok.
  unfold request_ok in Hok.
  destruct (rq_at r) as [|req p started|req|req j|req [|frame]|req frame p|req frame|] eqn:Hq; destruct e; try done.
  - by apply (request_read_ok ps).
  - destruct (await_gives_up _ _ _ _); [|done]. apply (move_plain ps s Hs i r Hi); try done; [by rewrite Hq|].
    unfold request_slots. by rewrite Hq.
  - by eapply prefetch_joined_ok.
  - destruct (Nat.ltb_spec (fetching s) CLIENT_BLOCK_FETCH_SLOTS) as [Hlt|]; [|done].
    pose proof (job_begin_ok ps (outside_request s i) (budget_left s) req (env_for s (rq_node r)) (rq_peers r) m) as H.
    destruct (job_begin _ _ _ _) as [sh j]. destruct H as (H & _).
    + eapply counted_perm; [|exact (si_counted _ _ Hs)]. rewrite (slots_outside_request _ _ _ Hi).
      unfold request_slots. by rewrite Hq, app_nil_r.
    + apply Hs.
    + eapply (fetch_moves ps s Hs i r req (JPin (rq_peers r) m [])); [done|right; by split_and!|by intros f ?%elem_of_nil|done].
  - apply (move_plain ps s Hs i r Hi); try done; [by rewrite Hq|]. unfold request_slots. by rewrite Hq.
  - destruct (request_job ps s Hs i r req j Hi Hq) as [Hc Hf].
    pose proof (job_step_ok ps (outside_request s i) (budget_left s) req (env_for s (rq_node r)) j e Hc) as H.
    destruct (job_step _ _ _ _ _ _) as [[sh j'] log]. eapply fetch_moves; eauto.
  - destruct (job_held_result ps j (proj1 Hok)) as (_ & H1 & H2 & H3). destruct (job_result j) as [res|]; [|done].
    apply (move_request ps s Hs i r); [done|by rewrite Hq| | |done|].
    + unfold request_slots. rewrite Hq. by apply H3.
    + cbn. destruct res as [|f]; [done|]. apply (proj2 Hok), H2. by left.
    + unfold request_held. rewrite Hq. cbn [phase_frames]. lia.
  - apply (move_plain ps s Hs i r Hi); try done; [by rewrite Hq|]. unfold request_slots. by rewrite Hq.
  - by apply (answered_ok ps).
  - set (nd := install_prefetch _ _). destruct Hok as [Ha Hl].
    assert (H1 : service_inv ps (put_node s (rq_node r) nd)).
    { apply update_node; [done|]. intros p'. unfold nd, install_prefetch. destruct (_ =? _); [|by apply (node_prefetch ps)].
      by intros [= <-]. }
    apply (move_request ps _ H1); [done|by rewrite Hq|unfold request_slots; by rewrite Hq|done|done|].
    unfold request_held. rewrite Hq. cbn. lia.
  - by apply (write_answer_ok ps).
Qed.

Lemma start_prefetch_ok ps s b t e :
  service_inv ps s -> sv_tasks s !! b = Some t -> service_inv ps (start_prefetch s b t e).
Proof.
  intros Hs Hi. unfold start_prefetch. pose proof (Forall_lookup_1 _ _ _ _ (si_tasks _ _ Hs) Hi) as Hok.
  unfold task_ok in Hok. pose proof (end_task ps s Hs b t BgGone Hi I) as Hgone.
  pose proof (end_task ps s Hs b t (BgDone None) Hi (or_introl eq_refl)) as Hpanic.
  destruct (bg_at t) as [|j|out|] eqn:Hq; destruct e as [m|e| | |]; try done;
    try (case_bool_decide; [exact Hs|exact Hgone]).
  - pose proof (job_begin_ok ps (outside_task s b) (budget_left s) (bg_req t) (env_for s (bg_node t)) (bg_peers t) m) as H.
    destruct (job_begin _ _ _ _) as [sh j]. destruct H as (H & _).
    + eapply counted_perm; [|exact (si_counted _ _ Hs)]. rewrite (slots_outside_task _ _ _ Hi).
      unfold task_slots. by rewrite Hq, app_nil_r.
    + apply Hs.
    + eapply (task_moves ps s Hs b t (JPin (bg_peers t) m [])); [done|right; by split_and!|by intros f ?%elem_of_nil|done].
  - destruct (task_job ps s Hs b t j Hi Hq) as [Hc Hf].
    pose proof (job_step_ok ps (outside_task s b) (budget_left s) (bg_req t) (env_for s (bg_node t)) j e Hc) as H.
    destruct (job_step _ _ _ _ _ _) as [[sh j'] log]. eapply task_moves; eauto.
  - destruct (job_held_result ps j (proj1 Hok)) as (_ & _ & _ & H3). destruct (job_result j) as [res|] eqn:Ej; [|done].
    pose proof (end_task ps s Hs b t (BgDone (Some res)) Hi) as H. unfold drop_task, task_slots in H.
    rewrite Hq, H3 in H by done. apply H. right. by exists j.
Qed.

Lemma service_step_ok ps s e : service_inv ps s -> bytes_read e -> service_inv ps (service_step s e).
Proof.
  intros Hs He. destruct e as [node peers|i e|b e|node id|node ip|node peer|o]; cbn [service_step].
  - destruct Hs. split; cbn; try done.
    + unfold all_slots. cbn. rewrite bind_app. cbn. by rewrite !app_nil_r.
    + apply Forall_app. split; [done|]. by apply Forall_singleton.
    + unfold bytes_held in *. cbn [sv_requests sv_tasks]. rewrite sum_by_app. cbn [sum_by foldr]. unfold request_held at 2. cbn. lia.
    + unfold fetching in *. cbn [sv_requests]. rewrite filter_app, filter_cons_False, filter_nil, app_nil_r by done. lia.
    + destruct si_written0 as [Hnd Hall]. split; [done|]. eapply Forall_impl; [exact Hall|]. cbn.
      intros w [(r & Hr & Hd) Hf]. split; [|done]. exists r. split; [by apply lookup_app_l_Some|done].
  - destruct (sv_requests s !! i) as [r|] eqn:Hi; [|done]. by apply serve_client_blocks_ok.
  - destruct (sv_tasks s !! b) as [t|] eqn:Hi; [|done]. by apply start_prefetch_ok.
  - apply update_node; [done|]. intros p. unfold expire_prefetch. destruct (prefetch (node_at s node)) as [q|] eqn:Eq.
    + destruct (pf_id q =? id); [done|]. by apply (node_prefetch ps).
    + by rewrite Eq.
  - apply update_node; [done|]. by apply (node_prefetch ps).
  - by apply update_node.
  - destruct (op_step (sv_tier s, sv_guards s) o) as [t gs] eqn:Eo. pose proof (evolves_op (sv_tier s) (sv_guards s) o) as (_ & Hev & _).
    rewrite Eo in Hev. destruct Hs. split; cbn in *; try done; [|congruence].
    unfold all_slots in *. cbn. by eapply counted_other.
Qed.

Lemma service_run_ok t guards evs :
  counted (t, guards) -> Forall bytes_read evs ->
  service_inv (Priority.peers t) (run_service (service_start t guards) evs).
Proof.
  intros Hc He. unfold run_service. apply (foldl_inv_Forall service_step (service_inv (Priority.peers t)) bytes_read); [|done|].
  - split; try done.
    + unfold all_slots. cbn. by rewrite app_nil_r.
    + by apply Forall_nil.
    + apply Nat.le_0_l.
    + apply Nat.le_0_l.
    + split; [by apply NoDup_nil|by apply Forall_nil].
  - intros s e Hs Hb. by apply service_step_ok.
Qed.

(** ** Theorems *)

(** C23: a node on port 4002 gets an answer to what it asked, and at most one per connection. Over
    every interleaving of requests, races, background fetches, pins, expiries and aborts: the bytes
    written to a node are a beginning of one frame that one upstream sent in answer to exactly the
    bytes of the node's request, whether it was fetched for this request or ahead of it in the
    background; and no connection is written to twice. *)
Theorem node_gets_what_it_asked_for (t : PriorityTier) (guards : list nat) (evs : list service_event) :
  counted (t, guards) -> Forall bytes_read evs ->
  let s := run_service (service_start t guards) evs in
  NoDup (fst ∘ fst <$> sv_written s) /\
  forall i req written, (i, req, written) ∈ sv_written s ->
    exists ip frame, (ip, req, frame) ∈ sv_asked s /\ written `prefix_of` frame /\
      frame_weight frame <= 5 + MAX_CLIENT_BLOCK_RESPONSE.
Proof.
  intros Hc He s. destruct (service_run_ok t guards evs Hc He) as [_ _ _ _ _ Hl _ _ _ [Hn Hw]]. fold s in Hl, Hn, Hw.
  split; [done|]. intros i req written Hin. rewrite Forall_forall in Hw.
  destruct (Hw _ Hin) as [_ (frame & Hp & ip & Ha)]. exists ip, frame. split_and!; [done|done|].
  unfold log_ok in Hl. rewrite Forall_forall in Hl. exact (Hl _ Ha).
Qed.

(** C24: the limits the client-block service keeps gateway-wide. Over the same interleavings: at most
    eight requests race at once and at most four background fetches; all response bytes alive in the
    service (being read, kept as a last resort, waiting in a background fetch, being written) fit the
    byte budget, although the budget is asked for only when a header is read; the priority tier counts
    exactly the slots the attempts of all those fetches hold, next to the sessions'; and when every
    request is over and every background fetch gone, nothing is held. *)
Theorem client_blocks_keep_their_limits (t : PriorityTier) (guards : list nat) (evs : list service_event) :
  counted (t, guards) -> Forall bytes_read evs ->
  let s := run_service (service_start t guards) evs in
  (fetching s <= CLIENT_BLOCK_FETCH_SLOTS)%nat /\ (prefetching s <= PREFETCH_SLOTS)%nat /\
  bytes_held s <= CLIENT_BLOCK_RESPONSE_BYTES /\ counted (sv_tier s, all_slots s) /\
  (Forall (fun r => rq_at r = QDone) (sv_requests s) -> Forall (fun b => bg_at b = BgGone) (sv_tasks s) ->
   bytes_held s = 0 /\ counted (sv_tier s, sv_guards s)).
Proof.
  intros Hc He s. destruct (service_run_ok t guards evs Hc He) as [Hs _ _ _ _ _ Hh Hf Hp _]. fold s in Hs, Hh, Hf, Hp.
  split_and!; [done|done|done|done|]. intros Hr Ht.
  assert (H1 : sum_by request_held (sv_requests s) = 0 /\ sv_requests s ≫= request_slots = []).
  { clear -Hr. induction Hr as [|r l Hq _ [IH1 IH2]]; [done|]. rewrite bind_cons, IH2. unfold sum_by in *. cbn. rewrite IH1.
    unfold request_held, request_slots. by rewrite Hq. }
  assert (H2 : sum_by task_held (sv_tasks s) = 0 /\ sv_tasks s ≫= task_slots = []).
  { clear -Ht. induction Ht as [|b l Hq _ [IH1 IH2]]; [done|]. rewrite bind_cons, IH2. unfold sum_by in *. cbn. rewrite IH1.
    unfold task_held, task_slots. by rewrite Hq. }
  unfold bytes_held, all_slots in *. rewrite (proj1 H1), (proj1 H2). rewrite (proj2 H1), (proj2 H2), !app_nil_r in Hs. done.
Qed.

(** ** Witnesses *)

(** A request for a range is fetched and answered, the next range fetched ahead, and served to the
    node's next request. *)
Definition example_fetched (m : Moment) : list job_event :=
  [JPoll m; JHeader 0 [0; 0; 0; 1; 1];
   JTalk 0 (Some (mkTalk (inr [0; 0; 0; 1; 0; 0]) None None (inr [0; 0; 0; 1; 1]) None (inr [7]))); JWake (FJoin 0 m)].

Definition example_ask (start : Z) (now : Z) : request_event :=
  SRequest (Some (take 5 (client_block_range_request start (start + 99))))
    (Some (drop 5 (client_block_range_request start (start + 99)))) now.

Definition example_tier_free : PriorityTier := tier_new [] 1 (millis 1500) Prefer.

Definition example_service : list service_event :=
  [SAccept 7 ["9.9.9.9"%string]; SReq 0 (example_ask 1000 0); SReq 0 (SSlot (example_at 0))] ++
  (SReq 0 ∘ SFetch <$> example_fetched (example_at (seconds 2))) ++
  [SReq 0 SFetched; SReq 0 (SAnswered (Some 3000) (seconds 2)); STask 0 (TBegin (example_at (seconds 2)));
   SReq 0 SInstall; SReq 0 (SWritten None)] ++
  (STask 0 ∘ TFetch <$> example_fetched (example_at (seconds 4))) ++
  [STask 0 TOver; SAccept 7 ["9.9.9.9"%string]; SReq 1 (example_ask 1100 (seconds 5)); SReq 1 SJoined;
   SReq 1 (SAnswered None (seconds 5)); SReq 1 (SWritten (Some 5%nat))].

Lemma example_tier_free_counted : counted (example_tier_free, []).
Proof. split_and!; [split; [by apply NoDup_nil|done]|by apply Forall_nil|]. cbn. lia. Qed.

Lemma example_service_bytes : Forall bytes_read example_service.
Proof.
  assert (H : forallb (fun e => match e with
    | SReq _ (SRequest (Some h) (Some p) _) => forallb (fun x => (0 <=? x) && (x <? 256)) (h ++ p) | _ => true end)
    example_service = true) by (vm_compute; reflexivity).
  apply Forall_forall. intros e He. rewrite forallb_forall in H. apply list_elem_of_In in He. specialize (H e He).
  destruct e as [|i []| | | | |]; try done. destruct hdr as [h|], payload as [p|]; try done. cbn.
  apply Forall_forall. intros x Hx. rewrite forallb_forall in H. apply list_elem_of_In in Hx. specialize (H x Hx).
  zify_bool. unfold is_byte. lia.
Qed.

Lemma node_gets_what_it_asked_for_witness :
  let s := run_service (service_start example_tier_free []) example_service in
  fst ∘ fst <$> sv_written s = [0; 1]%nat /\ snd <$> sv_written s = [[0; 0; 0; 1; 1; 7]; [0; 0; 0; 1; 1]] /\
  exists ip frame, (ip, client_block_range_request 1100 1199, frame) ∈ sv_asked s /\
    [0; 0; 0; 1; 1] `prefix_of` frame.
Proof.
  intros s. split; [vm_compute; reflexivity|]. split; [vm_compute; reflexivity|].
  destruct (node_gets_what_it_asked_for example_tier_free [] example_service example_tier_free_counted
    example_service_bytes) as [_ H]. fold s in H.
  destruct (H 1%nat (client_block_range_request 1100 1199) [0; 0; 0; 1; 1]) as (ip & frame & H1 & H2 & _).
  - assert (E : sv_written s = [(0%nat, client_block_range_request 1000 1099, [0; 0; 0; 1; 1; 7]);
                                (1%nat, client_block_range_request 1100 1199, [0; 0; 0; 1; 1])])
      by (vm_compute; reflexivity).
    rewrite E. apply elem_of_cons. right. by left.
  - exists ip, frame. split; [exact H1|exact H2].
Defined.

Lemma client_blocks_keep_their_limits_witness :
  let s := run_service (service_start example_tier_free []) (take 5 example_service) in
  fetching s = 1%nat /\ bytes_held s = 6 /\ bytes_held s <= CLIENT_BLOCK_RESPONSE_BYTES.
Proof.
  split; [vm_compute; reflexivity|]. split; [vm_compute; reflexivity|].
  apply (client_blocks_keep_their_limits example_tier_free [] (take 5 example_service) example_tier_free_counted).
  apply Forall_take, example_service_bytes.
Defined.
