(* ===== verification/Cache.v ===== *)
(** The bootstrap cache: [src/gateway/cache.rs].

    Policy (when a cached bootstrap may be replayed, when a refresh waits), the write-through tap of
    a transparent bootstrap, the cache file and its writers, and the guard of a replay. A capture of
    the background refresh is in [Capture].

    Rates are compared as fractions where the code divides floating-point numbers. Whatever an await
    returns is an input of the step that awaits it; [Dropped] is a task aborted there. *)

From S2P Require Import Prelude Text Blacklist Wire Priority Node Peers Sources Relay.

Definition CACHE_REPLAY_COOLDOWN_SECS : Z := 30.
Definition CACHE_FLOOR_TTL : Z := seconds (10 * 60).
Definition MAX_BOOTSTRAP_CACHE_AGE_SECS : Z := 8 * 60.
Definition CACHE_REFRESH_SECS : Z := 4 * 60.
Definition CACHE_REFRESH_RETRY_SECS : Z := 30.
Definition CACHE_REFRESH_FORCE_BEFORE_EXPIRY_SECS : Z := 90.
Definition MIN_BOOTSTRAP_RATE_BYTES_PER_SEC : Z := 5000000.
Definition MIN_LIVE_PEERS_FOR_CACHE_REFRESH : Z := 4.
Definition FRESH_CACHE_REFRESH_MAX_INFLIGHT : nat := 1.
Definition COLD_CACHE_REFRESH_MAX_INFLIGHT : nat := 2.
Definition MAX_BOOTSTRAP_CAPTURE_BYTES : Z := 9000000000.
Definition FRESH_BOOTSTRAP_REFRESH_MAX_SECS : Z := 5 * 60.
Definition COLD_BOOTSTRAP_REFRESH_MAX_SECS : Z := 15 * 60.
Definition MAX_TAP_CAPTURE : Z := seconds (30 * 60).

(** ** Policy *)

Definition is_bootstrap_cache_fresh (now cached_at : Z) : bool :=
  negb (cached_at =? 0) && (sat_sub now cached_at <=? MAX_BOOTSTRAP_CACHE_AGE_SECS).

Definition seconds_left (now cached_at : Z) : Z :=
  sat_sub MAX_BOOTSTRAP_CACHE_AGE_SECS (sat_sub now cached_at).

Definition should_delay_cache_refresh_for_live_pool (now cached_at live_count : Z) : bool :=
  if MIN_LIVE_PEERS_FOR_CACHE_REFRESH <=? live_count then false
  else CACHE_REFRESH_FORCE_BEFORE_EXPIRY_SECS <? seconds_left now cached_at.

Definition fresh_cache_retry_delay_secs (now cached_at : Z) : Z :=
  let left := seconds_left now cached_at in
  if left <=? CACHE_REFRESH_FORCE_BEFORE_EXPIRY_SECS then 1
  else Z.min (Z.max (left - CACHE_REFRESH_FORCE_BEFORE_EXPIRY_SECS) 1) CACHE_REFRESH_RETRY_SECS.

Definition bootstrap_capture_deadline_secs (have_fresh_cache : bool) : Z :=
  if have_fresh_cache then FRESH_BOOTSTRAP_REFRESH_MAX_SECS else COLD_BOOTSTRAP_REFRESH_MAX_SECS.

Definition cache_replay_allowed (now last : Z) : bool :=
  (last =? 0) || (CACHE_REPLAY_COOLDOWN_SECS <=? sat_sub now last).

Definition should_replay_cache (now last : Z) (has_active_session : bool) (cached_at : Z) : bool :=
  negb has_active_session && is_bootstrap_cache_fresh now cached_at && cache_replay_allowed now last.

Definition bounded_cache_floor (cache_floor net_tip : Z) : Z :=
  if negb (net_tip =? 0) && (sat_add32 net_tip ACTIVE_ROUND_MAX_LAG <? cache_floor) then 0
  else cache_floor.

Definition live_greeting_for (greet : bytes) : bytes := <[5%nat := 0]> greet.

(** [raise_round_floor] as the atomic operations of one caller: a load, then exchanges until one
    succeeds or the floor is high enough. *)
Inductive Raiser :=
| Loading (round : Z)
| Trying (round cur : Z)
| Returned (round : Z) (raised : bool).

Definition try_from (round cur : Z) : Raiser :=
  if cur <? round then Trying round cur else Returned round false.

Definition raise_round_floor (floor : Z) (r : Raiser) : Z * Raiser :=
  match r with
  | Loading round => (floor, try_from round floor)
  | Trying round cur =>
      if floor =? cur then (round, Returned round true) else (floor, try_from round floor)
  | Returned _ _ => (floor, r)
  end.

(** Several callers of one floor: each event is the next operation of one of them. *)
Definition raise_step (st : Z * list Raiser) (k : nat) : Z * list Raiser :=
  match st.2 !! k with
  | Some r => let '(floor, r) := raise_round_floor st.1 r in (floor, <[k := r]> st.2)
  | None => st
  end.

(** The peers a capture may use; [candidates] is what the candidates file lists. *)
Definition capture_peer (st : gset string * list string) (ip : string) : gset string * list string :=
  if bool_decide (ip ∈ st.1) then st else ({[ip]} ∪ st.1, st.2 ++ [ip]).

Definition bootstrap_capture_peers (bl : Blacklist) (candidates live_peers : list string)
    (include_candidates : bool) : list string :=
  if negb include_candidates then live_peers
  else (foldl capture_peer (list_to_set live_peers, live_peers) (filtered bl candidates)).2.

(** ** The shared cache *)

(** [persisting] are the blobs handed to [persist_bootstrap_cache] tasks, in order. *)
Record CacheSink := mkSink {
  boot_blob : option bytes;
  boot_blob_cached_at : Z;
  disk_cache_path : option string;
  persisting : list (string * bytes)
}.

Definition sink_store (blob : bytes) (now : Z) (sink : CacheSink) : CacheSink :=
  mkSink (Some blob) now (disk_cache_path sink)
    (persisting sink ++ match disk_cache_path sink with Some p => [(p, blob)] | None => [] end).

Section Sink.
Variable lz4_decompress : bytes -> option bytes.

Definition has_live_tail (blob : bytes) : bool :=
  bool_decide (is_Some (max_block_round_in_frames lz4_decompress blob)).

(** [now] is [unix_secs] at the store. *)
Definition install_bootstrap_cache (blob : bytes) (now : Z) (sink : CacheSink) : CacheSink :=
  if has_live_tail blob then sink_store blob now sink else sink.
End Sink.

(** ** The tap of a transparent bootstrap *)

Inductive Awaited (A : Type) :=
| Got (a : A)
| Failed
| Dropped.
Arguments Got {A} a.
Arguments Failed {A}.
Arguments Dropped {A}.

Inductive HeaderRead :=
| HComplete (hdr : bytes)
| HTimedOut (finish : Awaited bytes)
| HError
| HDropped.

(** The capture: [capture], [blob], the single-flight permit, and the cache. *)
Record TapCapture := mkCap { capture : bool; blob : bytes; permit : bool; sink : CacheSink }.

(** The rate window: [win], [win_bytes], [slow]. *)
Record Window := mkWin { win : Z; win_bytes : Z; slow : Z }.

(** The copy task. [tp_node] is what has been written to the node. *)
Record Tap := mkTap {
  tp_cap : TapCapture;
  tp_frames : Z;
  tp_first : option (bytes * bytes);
  tp_win : Window;
  tp_node : bytes;
  delivered : Z;
  upstream_ended : bool;
  tp_running : bool
}.

Definition set_cap (s : Tap) (c : TapCapture) : Tap :=
  mkTap c (tp_frames s) (tp_first s) (tp_win s) (tp_node s) (delivered s) (upstream_ended s) (tp_running s).

Definition cap_off (c : TapCapture) : TapCapture := mkCap false [] (permit c) (sink c).

(** The end of the task, by [upstream_gone] or not: its permit is dropped. *)
Definition tap_ends (s : Tap) (gone : bool) : Tap :=
  mkTap (mkCap (capture (tp_cap s)) (blob (tp_cap s)) false (sink (tp_cap s))) (tp_frames s)
    (tp_first s) (tp_win s) (tp_node s) (delivered s) (upstream_ended s || gone) false.

(** One write to the node that succeeded, and the capture of the same bytes. *)
Definition tap_relay (s : Tap) (buf : bytes) : Tap :=
  let c := tp_cap s in
  mkTap (mkCap (capture c) (if capture c then blob c ++ buf else blob c) (permit c) (sink c))
    (tp_frames s) (tp_first s) (tp_win s) (tp_node s ++ buf) (delivered s + Z.of_nat (length buf))
    (upstream_ended s) (tp_running s).

Definition drop_slow_capture (deadline now : Z) (c : TapCapture) : TapCapture :=
  if capture c && (deadline <=? now) then mkCap false [] false (sink c) else c.

(** The top of the loop. *)
Definition tap_top (deadline now : Z) (c : TapCapture) : TapCapture :=
  let c := drop_slow_capture deadline now c in
  if capture c then c else mkCap (capture c) (blob c) false (sink c).

Definition cap_complete (s : Tap) : bool :=
  capture (tp_cap s) &&
  complete_bootstrap_at_frame_boundary (Z.of_nat (length (blob (tp_cap s)))) (tp_frames s).

(** What one turn of the loop reads from outside: the clock at its top and at its end, [unix_secs],
    the header, whether the writes of the header and of the prefix succeed, and for each chunk of
    the payload the clock, the read and the write. *)
Record TapTurn := mkTurn {
  tt_top : Z;
  tt_unix : Z;
  tt_header : HeaderRead;
  tt_hdr_written : bool;
  tt_prefix_written : bool;
  tt_chunks : list (Z * Awaited bytes * bool);
  tt_end : Z
}.

Fixpoint tap_chunks (deadline remaining : Z) (reads : list (Z * Awaited bytes * bool)) (s : Tap) : Tap :=
  if remaining <=? 0 then s
  else
    match reads with
    | [] => tap_ends s false
    | (now, rd, written) :: reads =>
        let s := set_cap s (drop_slow_capture deadline now (tp_cap s)) in
        match rd with
        | Got avail =>
            let chunk := take (Z.to_nat (Z.min remaining 1048576)) avail in
            if bool_decide (chunk = []) then tap_ends s true
            else if negb written then tap_ends s false
            else tap_chunks deadline (remaining - Z.of_nat (length chunk)) reads (tap_relay s chunk)
        | Failed => tap_ends s true
        | Dropped => tap_ends s false
        end
    end.

Definition tap_prefix (t : TapTurn) (len : Z) (prefix : bytes) (s : Tap) : Tap :=
  if bool_decide (prefix = []) then s
  else if len <? Z.of_nat (length prefix) then tap_ends s true
  else if negb (tt_prefix_written t) then tap_ends s false
  else tap_relay s prefix.

(** The bytes per second of a window of [el] nanoseconds are below [limit]. *)
Definition rate_below (nbytes el limit : Z) : bool := nbytes * seconds 1 <? limit * el.

Definition set_frames (s : Tap) (frames : Z) (w : Window) : Tap :=
  mkTap (tp_cap s) frames (tp_first s) w (tp_node s) (delivered s) (upstream_ended s) (tp_running s).

Definition take_first (s : Tap) : Tap :=
  mkTap (tp_cap s) (tp_frames s) None (tp_win s) (tp_node s) (delivered s) (upstream_ended s) (tp_running s).

Section Tap.
Variable lz4_decompress : bytes -> option bytes.

(** [install_bootstrap_cache(std::mem::take(&mut blob), ..)]. *)
Definition cap_install (now : Z) (c : TapCapture) : TapCapture :=
  mkCap (capture c) [] (permit c) (install_bootstrap_cache lz4_decompress (blob c) now (sink c)).

(** The header of the next frame with the payload bytes already read; [None] ends the task. *)
Definition tap_header (t : TapTurn) (s : Tap) : option (bytes * bytes) * Tap :=
  match tp_first s with
  | Some first => (Some first, take_first s)
  | None =>
      if cap_complete s then
        match tt_header t with
        | HComplete hdr => (Some (hdr, []), s)
        | HTimedOut finish =>
            let s := set_cap s (cap_off (cap_install (tt_unix t) (tp_cap s))) in
            match finish with
            | Got hdr => (Some (hdr, []), s)
            | Failed => (None, tap_ends s true)
            | Dropped => (None, tap_ends s false)
            end
        | HError => (None, tap_ends (set_cap s (cap_install (tt_unix t) (tp_cap s))) true)
        | HDropped => (None, tap_ends s false)
        end
      else
        match tt_header t with
        | HComplete hdr => (Some (hdr, []), s)
        | HDropped => (None, tap_ends s false)
        | _ =>
            (None, tap_ends (if cap_complete s then set_cap s (cap_install (tt_unix t) (tp_cap s)) else s)
                     true)
        end
  end.

(** After the payload: the frame is counted, and the rate window may end the capture. *)
Definition tap_window (t : TapTurn) (len : Z) (s : Tap) : Tap :=
  let s := set_frames s (tp_frames s + 1) (tp_win s) in
  let c := tp_cap s in
  if negb (capture c) then s
  else if MAX_BOOTSTRAP_CAPTURE_BYTES <? Z.of_nat (length (blob c)) then set_cap s (cap_off c)
  else
    let w := tp_win s in
    let nbytes := win_bytes w + 5 + len in
    let el := since (tt_end t) (win w) in
    if millis 1500 <=? el then
      if (1500000000 <? Z.of_nat (length (blob c))) && rate_below nbytes el 400000 then
        let s' := set_frames s (tp_frames s) (mkWin (tt_end t) 0 (slow w + 1)) in
        if (8 <=? slow w + 1) && cap_complete s
        then set_cap s' (cap_off (cap_install (tt_unix t) c)) else s'
      else set_frames s (tp_frames s) (mkWin (tt_end t) 0 0)
    else set_frames s (tp_frames s) (mkWin (win w) nbytes (slow w)).

(** A frame whose header is [hdr]. *)
Definition tap_frame (deadline : Z) (t : TapTurn) (hdr prefix : bytes) (s : Tap) : Tap :=
  let len := frame_len hdr in
  if MAX_ABCI_STATE_FRAME <? len then tap_ends s true
  else
    let c := tp_cap s in
    let s := if capture c && (MAX_BOOTSTRAP_CAPTURE_BYTES <? Z.of_nat (length (blob c)) + 5 + len)
             then set_cap s (cap_off c) else s in
    if negb (tt_hdr_written t) then tap_ends s false
    else
      let s := tap_prefix t len prefix (tap_relay s hdr) in
      if tp_running s then
        let s := tap_chunks deadline (len - Z.of_nat (length prefix)) (tt_chunks t) s in
        if tp_running s then tap_window t len s else s
      else s.

(** One turn of the loop. *)
Definition tap_turn (deadline : Z) (s : Tap) (t : TapTurn) : Tap :=
  if tp_running s then
    match tap_header t (set_cap s (tap_top deadline (tt_top t) (tp_cap s))) with
    | (Some (hdr, prefix), s) => tap_frame deadline t hdr prefix s
    | (None, s) => s
    end
  else s.

Definition tap_start (first_hdr first_payload_prefix : bytes) (c : CacheSink) (now : Z) : Tap :=
  mkTap (mkCap true [] true c) 0 (Some (first_hdr, first_payload_prefix)) (mkWin now 0 0) [] 0 false true.

(** How the relay ends: the copy towards the upstream, the copy task, the blacklist. *)
Inductive SpliceEnd :=
| NodeCopyEnded (n : Z) (upstream_gone : bool)
| CopyTaskEnded
| SourceBlacklisted.

(** The copy task runs for [turns]; the end of the relay drops it. *)
Definition splice_bootstrap_capture (first_hdr first_payload_prefix : bytes) (c : CacheSink) (now : Z)
    (turns : list TapTurn) (e : SpliceEnd) : Tap * Relayed :=
  let s := foldl (tap_turn (now + MAX_TAP_CAPTURE)) (tap_start first_hdr first_payload_prefix c now) turns in
  let s := tap_ends s match e with
                      | NodeCopyEnded _ gone => gone
                      | CopyTaskEnded => false
                      | SourceBlacklisted => true
                      end in
  (s, mkRelayed (delivered s) (match e with NodeCopyEnded n _ => n | _ => 0 end) (upstream_ended s)).
End Tap.

(** ** Raising a floor *)

Definition raiser_round (r : Raiser) : Z :=
  match r with Loading round | Trying round _ | Returned round _ => round end.

(** The callers that are done have their round at or below the floor; a caller's attempt is above
    what it last saw. *)
Definition raise_inv (low : Z) (rounds : list Z) (st : Z * list Raiser) : Prop :=
  raiser_round <$> st.2 = rounds /\ low <= st.1 /\ (st.1 = low \/ st.1 ∈ rounds) /\
  Forall (fun r => match r with
                   | Trying round cur => cur < round
                   | Returned round _ => round <= st.1
                   | Loading _ => True
                   end) st.2.

Lemma raise_step_inv low rounds st k :
  raise_inv low rounds st -> st.1 <= (raise_step st k).1 /\ raise_inv low rounds (raise_step st k).
Proof.
  intros Hinv. pose proof Hinv as (Hr & Hl & Hf & Hall). unfold raise_step.
  destruct (st.2 !! k) as [r|] eqn:Hk; [|split; [lia|done]].
  pose proof (Forall_lookup_1 _ _ _ _ Hall Hk) as Hrk.
  assert (Hup : forall floor r', raiser_round r' = raiser_round r -> st.1 <= floor ->
    floor = st.1 \/ floor = raiser_round r ->
    match r' with Trying round cur => cur < round | Returned round _ => round <= floor | Loading _ => True end ->
    st.1 <= (floor, <[k := r']> st.2).1 /\ raise_inv low rounds (floor, <[k := r']> st.2)).
  { intros floor r' Hrr Hle Hfl Hr'. split; [done|]. split_and!; cbn.
    - rewrite list_fmap_insert, Hr, Hrr. apply list_insert_id. rewrite <- Hr, list_lookup_fmap, Hk. done.
    - lia.
    - destruct Hfl as [->| ->]; [done|]. right. rewrite <- Hr. apply list_elem_of_fmap. exists r. split; [done|].
      by eapply list_elem_of_lookup_2.
    - apply Forall_insert; [|done]. eapply Forall_impl; [exact Hall|]. intros [] ?; lia. }
  destruct r as [round|round cur|round b]; cbn [raise_round_floor]; unfold try_from.
  - destruct (Z.ltb_spec st.1 round); apply Hup; cbn; auto; lia.
  - destruct (Z.eqb_spec st.1 cur).
    + apply Hup; cbn; auto; lia.
    + destruct (Z.ltb_spec st.1 round); apply Hup; cbn; auto; lia.
  - apply Hup; cbn; auto; lia.
Qed.

(** Concurrent callers of [raise_round_floor], in any interleaving of their atomic operations: the
    floor never goes down, is at all times the initial one or the round of one of the callers, and
    is at least the round of each caller that has returned. *)
Theorem raised_floor_is_monotone (floor : Z) (rounds : list Z) (steps : list nat) (k : nat) :
  let st := foldl raise_step (floor, Loading <$> rounds) steps in
  st.1 <= (raise_step st k).1 /\ (st.1 = floor \/ st.1 ∈ rounds) /\
  forall round raised, Returned round raised ∈ st.2 -> round <= st.1.
Proof.
  intros st. assert (Hi : raise_inv floor rounds st).
  { unfold st. apply foldl_inv; [|intros; by apply raise_step_inv].
    split_and!; cbn; [by rewrite <- list_fmap_compose, list_fmap_id|lia|by left|].
    apply Forall_fmap, Forall_true. done. }
  split; [exact (proj1 (raise_step_inv _ _ _ k Hi))|]. destruct Hi as (_ & _ & Hf & Hall). split; [done|].
  intros round raised Hin. rewrite Forall_forall in Hall. exact (Hall _ Hin).
Qed.

(** ** Lemmas: the tap *)

Definition turn_ok (t : TapTurn) : Prop :=
  match tt_header t with
  | HComplete hdr | HTimedOut (Got hdr) => header_ok hdr
  | _ => True
  end.

Definition small_frames (fs : list (Z * bytes)) : Prop :=
  Forall (fun f => Z.of_nat (length f.2) <= MAX_ABCI_STATE_FRAME) fs.

(** Every frame of [fs] whole, large enough for a bootstrap, small enough for the capture. *)
Definition whole_bootstrap (fs : list (Z * bytes)) : Prop :=
  small_frames fs /\
  complete_bootstrap_at_frame_boundary (Z.of_nat (length (encode_frames fs))) (Z.of_nat (length fs)) = true /\
  Z.of_nat (length (encode_frames fs)) <= MAX_BOOTSTRAP_CAPTURE_BYTES.

Section TapLemmas.
Variable lz4_decompress : bytes -> option bytes.
Variable sink0 : CacheSink.

(** The cache is untouched, or holds one whole bootstrap the node was sent from its beginning. *)
Definition cache_ok (node : bytes) (c : CacheSink) : Prop :=
  c = sink0 \/
  exists fs now, encode_frames fs `prefix_of` node /\ whole_bootstrap fs /\
    c = install_bootstrap_cache lz4_decompress (encode_frames fs) now sink0.

Definition tap_base (s : Tap) : Prop :=
  delivered s = Z.of_nat (length (tp_node s)) /\ cache_ok (tp_node s) (sink (tp_cap s)).

Definition tap_ended (s : Tap) : Prop :=
  tp_running s = false /\ tap_base s /\ permit (tp_cap s) = false.

(** Inside a frame of [len] bytes, after the frames [fs] and the bytes [part] of it. *)
Definition tap_mid (fs : list (Z * bytes)) (len : Z) (part : bytes) (s : Tap) : Prop :=
  tp_running s = true /\ tap_base s /\ tp_first s = None /\ small_frames fs /\
  tp_node s = encode_frames fs ++ part /\ tp_frames s = Z.of_nat (length fs) /\
  (capture (tp_cap s) = true ->
   blob (tp_cap s) = tp_node s /\ permit (tp_cap s) = true /\ sink (tp_cap s) = sink0 /\
   Z.of_nat (length (encode_frames fs)) + len <= MAX_BOOTSTRAP_CAPTURE_BYTES).

(** Between two turns. *)
Definition tap_between (s : Tap) : Prop :=
  (exists fs, tap_mid fs 0 [] s) \/
  (tp_running s = true /\ tp_node s = [] /\ tap_base s /\ tp_frames s = 0 /\
   (exists hdr prefix, tp_first s = Some (hdr, prefix) /\ header_ok hdr) /\
   (capture (tp_cap s) = true ->
    blob (tp_cap s) = [] /\ permit (tp_cap s) = true /\ sink (tp_cap s) = sink0)).

Lemma cache_ok_app node buf c : cache_ok node c -> cache_ok (node ++ buf) c.
Proof.
  intros [?|(fs & now & Hp & ? & ?)]; [by left|right]. exists fs, now. split_and!; [|done..].
  etrans; [exact Hp|]. by apply prefix_app_r.
Qed.

Lemma tap_ends_ended s gone : tap_base s -> tap_ended (tap_ends s gone).
Proof. done. Qed.

Lemma tap_base_cap s c : tap_base s -> sink c = sink (tp_cap s) -> tap_base (set_cap s c).
Proof. unfold tap_base. cbn. by intros [? ?] ->. Qed.

Lemma tap_mid_base fs len part s : tap_mid fs len part s -> tap_base s.
Proof. by intros (? & ? & _). Qed.

Lemma tap_mid_off fs len part s c :
  tap_mid fs len part s -> sink c = sink (tp_cap s) -> capture c = false \/ c = tp_cap s ->
  tap_mid fs len part (set_cap s c).
Proof.
  intros (? & ? & ? & ? & ? & ? & Hc) Hs Hcc.
  split_and!; [done|by apply tap_base_cap|done..|].
  cbn [set_cap tp_cap tp_node]. destruct Hcc as [->| ->]; [done|exact Hc].
Qed.

Lemma tap_mid_room fs len len' part s :
  tap_mid fs len part s ->
  (capture (tp_cap s) = true -> Z.of_nat (length (encode_frames fs)) + len' <= MAX_BOOTSTRAP_CAPTURE_BYTES) ->
  tap_mid fs len' part s.
Proof. unfold tap_mid. naive_solver. Qed.

Lemma drop_slow_keeps deadline now c :
  sink (drop_slow_capture deadline now c) = sink c /\
  (capture (drop_slow_capture deadline now c) = false \/ drop_slow_capture deadline now c = c).
Proof. unfold drop_slow_capture. destruct (_ && _); cbn; auto. Qed.

Lemma tap_top_keeps deadline now c :
  sink (tap_top deadline now c) = sink c /\
  (capture (tap_top deadline now c) = false \/ tap_top deadline now c = c).
Proof.
  unfold tap_top. destruct (drop_slow_keeps deadline now c) as [Hs Hc].
  destruct (capture (drop_slow_capture deadline now c)) eqn:E; cbn; [|by auto].
  split; [done|]. destruct Hc; [congruence|by right].
Qed.

Lemma tap_relay_mid fs len part buf s :
  tap_mid fs len part s -> tap_mid fs len (part ++ buf) (tap_relay s buf).
Proof.
  intros (? & [Hd Hk] & ? & ? & Hn & ? & Hc). split_and!; [done| |done..| |done|].
  - split; cbn; [rewrite Hd, length_app; lia|by apply cache_ok_app].
  - cbn. by rewrite Hn, app_assoc.
  - cbn. intros Ht. specialize (Hc Ht) as (Hb & ? & ? & ?). rewrite Ht. split_and!; [by rewrite Hb|done..].
Qed.

Lemma tap_chunks_spec fs len deadline remaining reads part s :
  0 <= remaining -> tap_mid fs len part s ->
  let s' := tap_chunks deadline remaining reads s in
  tap_ended s' \/ exists got, Z.of_nat (length got) = remaining /\ tap_mid fs len (part ++ got) s'.
Proof.
  revert remaining part s. induction reads as [|[[now rd] written] reads IH]; intros remaining part s Hr Hm; cbn.
  - destruct (Z.leb_spec remaining 0); [|left; by eapply tap_ends_ended, tap_mid_base].
    right. exists []. rewrite app_nil_r. cbn. split; [lia|done].
  - destruct (Z.leb_spec remaining 0).
    { right. exists []. rewrite app_nil_r. cbn. split; [lia|done]. }
    destruct (drop_slow_keeps deadline now (tp_cap s)) as [Hs Hc].
    apply (tap_mid_off _ _ _ _ _ Hm Hs) in Hc as Hm'.
    set (s1 := set_cap s _) in *.
    pose proof (tap_mid_base _ _ _ _ Hm') as Hb.
    destruct rd as [avail| |]; [|by left..].
    case_bool_decide; [by left|]. destruct written; cbn [negb]; [|by left].
    set (chunk := take _ avail) in *.
    assert (Hle : Z.of_nat (length chunk) <= remaining).
    { unfold chunk. rewrite length_take. lia. }
    destruct (IH (remaining - Z.of_nat (length chunk)) (part ++ chunk) (tap_relay s1 chunk))
      as [He|(got & Hg & Hm2)]; [lia|by apply tap_relay_mid|by left|].
    right. exists (chunk ++ got). split; [rewrite length_app; lia|by rewrite app_assoc].
Qed.

(** A complete capture installs a whole bootstrap. *)
Lemma cap_install_ok fs s now :
  tap_mid fs 0 [] s -> cap_complete s = true ->
  cache_ok (tp_node s) (sink (cap_install lz4_decompress now (tp_cap s))).
Proof.
  intros (_ & _ & _ & Hf & Hn & Hfr & Hc) Hcc. unfold cap_complete in Hcc.
  apply andb_true_iff in Hcc as [Hon Hcomp]. destruct (Hc Hon) as (Hb & _ & Hs & Hsz).
  rewrite app_nil_r in Hn. right. exists fs, now. cbn. rewrite Hb, Hs, Hn. split_and!; [done| |done].
  rewrite Hb, Hn, Hfr in Hcomp. split_and!; [done|done|lia].
Qed.

Lemma tap_mid_installed fs s now c :
  tap_mid fs 0 [] s -> cap_complete s = true -> capture c = false ->
  sink c = sink (cap_install lz4_decompress now (tp_cap s)) -> tap_mid fs 0 [] (set_cap s c).
Proof.
  intros Hm Hcc Hoff Hs. pose proof (cap_install_ok _ _ now Hm Hcc) as Hk.
  destruct Hm as (? & [? _] & ? & ? & ? & ? & _). split_and!; [done| |done..|].
  - split; [done|]. cbn. by rewrite Hs.
  - cbn. congruence.
Qed.

Lemma tap_header_between t s :
  turn_ok t -> tap_between s ->
  match tap_header lz4_decompress t s with
  | (Some (hdr, _), s') => header_ok hdr /\ exists fs, tap_mid fs 0 [] s'
  | (None, s') => tap_ended s'
  end.
Proof.
  intros Ht [[fs Hm]|(Hr & Hn & Hb & Hfr & (hdr & prefix & Hf & Hh) & Hc)]; unfold tap_header.
  2: { rewrite Hf. split; [done|]. exists []. unfold tap_mid, take_first; cbn.
       split_and!; [done|done|done|by apply Forall_nil_2|by rewrite Hn|done|].
       intros Hon. destruct (Hc Hon) as (-> & ? & ?). rewrite Hn.
       split_and!; [done|done|done|vm_compute; discriminate]. }
  pose proof Hm as (_ & Hb & Hf & _). rewrite Hf. unfold turn_ok in Ht.
  destruct (cap_complete s) eqn:Hcc; [|destruct (tt_header t) as [hdr|fin| |]; [by eauto|by apply tap_ends_ended..]].
  pose proof (cap_install_ok fs s (tt_unix t) Hm Hcc) as Hk.
  assert (Hi : tap_mid fs 0 [] (set_cap s (cap_off (cap_install lz4_decompress (tt_unix t) (tp_cap s)))))
    by (by eapply tap_mid_installed).
  destruct (tt_header t) as [hdr|[hdr| |]| |]; [by eauto|by eauto| | | |by apply tap_ends_ended].
  1,2: by eapply tap_ends_ended, tap_mid_base.
  apply tap_ends_ended. destruct Hb. by split.
Qed.

Lemma tap_mid_between_window fs s frames w :
  tap_mid fs 0 [] s -> frames = tp_frames s -> tap_mid fs 0 [] (set_frames s frames w).
Proof. by intros (? & ? & ? & ? & ? & ? & ?) ->. Qed.

(** The frame that has just been relayed is one more frame of the capture. *)
Lemma tap_mid_whole fs hdr payload s w :
  header_ok hdr -> Z.of_nat (length payload) = frame_len hdr -> frame_len hdr <= MAX_ABCI_STATE_FRAME ->
  tap_mid fs (5 + frame_len hdr) (hdr ++ payload) s ->
  tap_mid (fs ++ [(byte_at hdr 4, payload)]) 0 [] (set_frames s (tp_frames s + 1) w).
Proof.
  intros Hh Hp Hmax (? & ? & ? & ? & Hn & Hf & Hc).
  split_and!; [done|done|done| | | |].
  - apply Forall_app. split; [done|]. apply Forall_cons_2; [cbn; lia|by apply Forall_nil_2].
  - cbn [tp_node set_frames]. rewrite encode_frames_snoc, app_nil_r, Hn. f_equal. by apply header_payload.
  - cbn. rewrite Hf, length_app. cbn. lia.
  - cbn. intros Hon. destruct (Hc Hon) as (? & ? & ? & ?). split_and!; [done..|].
    rewrite encode_frames_snoc, length_app, encode_frame_length. cbn. lia.
Qed.

Lemma tap_window_mid fs t len s :
  (forall w, tap_mid fs 0 [] (set_frames s (tp_frames s + 1) w)) ->
  tap_mid fs 0 [] (tap_window lz4_decompress t len s).
Proof.
  intros Hm. unfold tap_window. cbn zeta. set (s1 := set_frames s _ _).
  pose proof (Hm (tp_win s)) as Hm1. fold s1 in Hm1.
  destruct (negb _); [done|]. destruct (_ <? _); [apply tap_mid_off; auto|].
  destruct (millis 1500 <=? _); [|by apply tap_mid_between_window].
  destruct (_ && rate_below _ _ _); [|by apply tap_mid_between_window].
  destruct ((8 <=? _) && cap_complete s1) eqn:E; [|by apply tap_mid_between_window].
  apply andb_true_iff in E as [_ E].
  eapply (tap_mid_installed fs _ (tt_unix t)); [by apply tap_mid_between_window|done|done|done].
Qed.

Lemma tap_frame_spec fs deadline t hdr prefix s :
  header_ok hdr -> tap_mid fs 0 [] s ->
  let s' := tap_frame lz4_decompress deadline t hdr prefix s in
  tap_ended s' \/ exists fs', tap_mid fs' 0 [] s'.
Proof.
  intros Hh Hm. unfold tap_frame. pose proof (frame_len_nonneg _ Hh) as Hnn.
  set (len := frame_len hdr) in *. pose proof (tap_mid_base _ _ _ _ Hm).
  destruct (Z.ltb_spec MAX_ABCI_STATE_FRAME len) as [|Hlen]; [by left|]. cbn zeta.
  set (s1 := if (_ && _)%bool then set_cap s _ else s).
  assert (Hm1 : tap_mid fs (5 + len) [] s1).
  { unfold s1. clear s1. destruct (capture (tp_cap s) && _) eqn:E.
    - apply (tap_mid_room fs 0); [apply tap_mid_off; auto|done].
    - apply (tap_mid_room fs 0); [done|]. intros Hon. rewrite Hon, andb_true_l in E. zify_bool.
      destruct Hm as (_ & _ & _ & _ & Hn & _ & Hc). destruct (Hc Hon) as (Hbl & _).
      rewrite Hbl, Hn, app_nil_r in E. lia. }
  destruct (tt_hdr_written t); cbn [negb]; [|left; by eapply tap_ends_ended, tap_mid_base].
  apply (tap_relay_mid _ _ _ hdr) in Hm1. cbn [app] in Hm1. set (s2 := tap_relay s1 hdr) in *.
  pose proof (tap_mid_base _ _ _ _ Hm1) as Hb2.
  assert (Hp : tap_ended (tap_prefix t len prefix s2) \/
               Z.of_nat (length prefix) <= len /\
               tap_mid fs (5 + len) (hdr ++ prefix) (tap_prefix t len prefix s2)).
  { unfold tap_prefix. case_bool_decide as Hpe; [rewrite Hpe, app_nil_r; right; split; [cbn; lia|done]|].
    destruct (Z.ltb_spec len (Z.of_nat (length prefix))); [by left|].
    destruct (tt_prefix_written t); [|by left]. right. split; [lia|]. by apply tap_relay_mid. }
  destruct Hp as [He|[Hpl Hm3]].
  { pose proof He as [-> _]. by left. }
  pose proof Hm3 as [-> _].
  destruct (tap_chunks_spec fs (5 + len) deadline (len - Z.of_nat (length prefix)) (tt_chunks t) (hdr ++ prefix)
              (tap_prefix t len prefix s2)) as [He|(got & Hg & Hm4)]; [lia|done| |].
  { pose proof He as [-> _]. by left. }
  pose proof Hm4 as [-> _]. right. exists (fs ++ [(byte_at hdr 4, prefix ++ got)]).
  apply tap_window_mid. intros w. rewrite <- app_assoc in Hm4.
  apply tap_mid_whole; [done|rewrite length_app; lia|done|done].
Qed.

Definition tap_inv (s : Tap) : Prop := tap_between s \/ tap_ended s.

Lemma tap_between_top deadline now s :
  tap_between s -> tap_between (set_cap s (tap_top deadline now (tp_cap s))).
Proof.
  intros Hb. destruct (tap_top_keeps deadline now (tp_cap s)) as [Hs Hc].
  destruct Hb as [[fs Hm]|(? & ? & ? & ? & (hdr & prefix & Hf & Hh) & Hon)].
  - left. exists fs. by apply tap_mid_off.
  - right. split_and!; [done|done|by apply tap_base_cap|done|by exists hdr, prefix|].
    cbn [set_cap tp_cap]. destruct Hc as [->| ->]; [done|exact Hon].
Qed.

Lemma tap_turn_inv deadline s t :
  turn_ok t -> tap_inv s -> tap_inv (tap_turn lz4_decompress deadline s t).
Proof.
  intros Ht [Hb|He]; [|right; unfold tap_turn; by rewrite (proj1 He)].
  assert (Hr : tp_running s = true) by (by destruct Hb as [(? & ? & _)|[? _]]).
  unfold tap_turn. rewrite Hr.
  pose proof (tap_header_between t _ Ht (tap_between_top deadline (tt_top t) s Hb)) as Hh.
  destruct (tap_header _ _ _) as [[[hdr prefix]|] s1]; [|by right].
  destruct Hh as (Hh & fs & Hm).
  destruct (tap_frame_spec fs deadline t hdr prefix s1 Hh Hm) as [He|Hm']; [by right|left; by left].
Qed.

Lemma tap_run_inv deadline s turns :
  Forall turn_ok turns -> tap_inv s -> tap_inv (foldl (tap_turn lz4_decompress deadline) s turns).
Proof.
  intros Ht. revert s. induction Ht as [|t turns Ht _ IH]; intros s Hs; cbn; [done|].
  by apply IH, tap_turn_inv.
Qed.

Lemma tap_start_inv hdr prefix now : header_ok hdr -> tap_inv (tap_start hdr prefix sink0 now).
Proof.
  intros Hh. left. right. split_and!; [done|done| |done|by exists hdr, prefix|done].
  split; [done|by left].
Qed.
End TapLemmas.

(** ** Properties: the tap *)

Section TapProperties.
Variable lz4_decompress : bytes -> option bytes.

(** C13: A tapped bootstrap, whatever its upstream and its node do and wherever its task is aborted:
    the cache afterwards is the cache before, or holds exactly one capture, which is a whole number
    of frames from the beginning of what the node was sent, at least as large as a complete
    bootstrap, within the capture limit and accepted by [has_live_tail]; the bytes reported are the
    bytes the node was sent, and the single-flight permit is free again. *)
Theorem tap_caches_a_whole_bootstrap (hdr prefix : bytes) (c : CacheSink) (now : Z)
    (turns : list TapTurn) (e : SpliceEnd) :
  header_ok hdr -> Forall turn_ok turns ->
  let '(s, r) := splice_bootstrap_capture lz4_decompress hdr prefix c now turns e in
  to_node r = Z.of_nat (length (tp_node s)) /\ permit (tp_cap s) = false /\
  (sink (tp_cap s) = c \/
   exists fs at_, whole_bootstrap fs /\ encode_frames fs `prefix_of` tp_node s /\
     complete_frame_count (encode_frames fs) = Some (Z.of_nat (length fs)) /\
     has_live_tail lz4_decompress (encode_frames fs) = true /\
     sink (tp_cap s) = sink_store (encode_frames fs) at_ c).
Proof.
  intros Hh Ht. unfold splice_bootstrap_capture.
  pose proof (tap_run_inv lz4_decompress c (now + MAX_TAP_CAPTURE) _ turns Ht
                (tap_start_inv lz4_decompress c hdr prefix now Hh)) as Hi.
  set (s := foldl _ _ _) in *.
  assert (Hb : tap_base lz4_decompress c s).
  { destruct Hi as [[(fs & Hm)|(? & ? & ? & _)]|(? & ? & _)]; [by eapply tap_mid_base|done|done]. }
  destruct Hb as [Hd Hk]. cbn. split_and!; [done|done|].
  destruct Hk as [Hk|(fs & at_ & Hp & Hw & Hs)]; [by left|]. rewrite Hs. unfold install_bootstrap_cache.
  destruct (has_live_tail _ _) eqn:E; [|by left]. right. exists fs, at_. split_and!; [done|done| |done|done].
  unfold complete_frame_count. rewrite count_frames_complete; [f_equal; lia|apply Hw|done].
Qed.

(** While the tap captures, its blob is what the node was sent and is within the limit; the permit
    is held at the header read of a turn exactly while it captures. *)
Theorem tap_permit_only_while_capturing (hdr prefix : bytes) (c : CacheSink) (now : Z)
    (turns : list TapTurn) (at_ : Z) :
  header_ok hdr -> Forall turn_ok turns ->
  let deadline := now + MAX_TAP_CAPTURE in
  let s := foldl (tap_turn lz4_decompress deadline) (tap_start hdr prefix c now) turns in
  tp_running s = true ->
  let k := tap_top deadline at_ (tp_cap s) in
  permit k = capture k /\ (deadline <= at_ -> permit k = false) /\
  (capture k = true -> blob k = tp_node s /\ Z.of_nat (length (blob k)) <= MAX_BOOTSTRAP_CAPTURE_BYTES).
Proof.
  intros Hh Ht deadline s Hr k.
  assert (Hi : tap_inv lz4_decompress c s) by (apply tap_run_inv; [done|by apply tap_start_inv]).
  assert (Hc : capture (tp_cap s) = true -> permit (tp_cap s) = true /\ blob (tp_cap s) = tp_node s /\
            Z.of_nat (length (tp_node s)) <= MAX_BOOTSTRAP_CAPTURE_BYTES).
  { destruct Hi as [[(fs & Hm)|(_ & Hn & _ & _ & _ & Hc)]|[? _]]; [| |congruence].
    - destruct Hm as (_ & _ & _ & _ & Hn & _ & Hc). intros Hon. destruct (Hc Hon) as (? & ? & _ & ?).
      split_and!; [done|done|]. rewrite Hn, app_nil_r. lia.
    - intros Hon. destruct (Hc Hon) as (-> & -> & _). rewrite Hn. split_and!; [done|done|vm_compute; discriminate]. }
  unfold k, tap_top, drop_slow_capture. destruct (capture (tp_cap s)) eqn:E; cbn [andb].
  - destruct (Hc eq_refl) as (Hp & Hb & Hl).
    destruct (Z.leb_spec deadline at_); cbn; [done|]. rewrite E, Hp.
    split_and!; [done|lia|]. intros _. by rewrite Hb.
  - rewrite E. cbn. done.
Qed.

(** An upstream that fails or goes quiet after a complete capture has it cached. *)
Theorem quiet_upstream_installs_the_capture (t : TapTurn) (s : Tap) :
  tp_first s = None -> cap_complete s = true ->
  match tt_header t with HError | HTimedOut _ => True | _ => False end ->
  sink (tp_cap (tap_header lz4_decompress t s).2) =
    install_bootstrap_cache lz4_decompress (blob (tp_cap s)) (tt_unix t) (sink (tp_cap s)).
Proof.
  intros Hf Hc Ht. unfold tap_header. rewrite Hf, Hc. by destruct (tt_header t) as [|[| |]| |].
Qed.
End TapProperties.

Lemma tap_caches_a_whole_bootstrap_witness :
  let first := [0; 0; 0; 2; 0] in
  let turns := [mkTurn 1 1 HError true true [(2, Got [8; 9; 10], true)] 3;
                mkTurn 4 4 (HComplete [0; 0; 0; 1; 1]) true true [(5, Got [7], true)] 6;
                mkTurn 7 7 HError true true [] 8] in
  let '(s, r) := splice_bootstrap_capture (fun _ => None) first [5] (mkSink None 0 None []) 0 turns CopyTaskEnded in
  tp_node s = first ++ [5; 8] ++ [0; 0; 0; 1; 1; 7] /\ r = mkRelayed 13 0 true /\
  to_node r = Z.of_nat (length (tp_node s)).
Proof.
  intros first turns.
  assert (H1 : header_ok first) by (split; [done|]; repeat (apply Forall_cons_2; [done|]); apply Forall_nil_2).
  assert (H2 : Forall turn_ok turns).
  { repeat apply Forall_cons_2; [exact I| |exact I|apply Forall_nil_2].
    split; [done|]; repeat (apply Forall_cons_2; [done|]); apply Forall_nil_2. }
  pose proof (tap_caches_a_whole_bootstrap (fun _ => None) first [5] (mkSink None 0 None []) 0 turns
                CopyTaskEnded H1 H2) as H.
  assert (E : (let '(s, r) := splice_bootstrap_capture (fun _ => None) first [5] (mkSink None 0 None []) 0 turns
                 CopyTaskEnded in (tp_node s, r)) = (first ++ [5; 8] ++ [0; 0; 0; 1; 1; 7], mkRelayed 13 0 true))
    by (vm_compute; reflexivity).
  destruct (splice_bootstrap_capture _ _ _ _ _ _ _) as [s r]. injection E as En Er.
  split_and!; [exact En|exact Er|apply H].
Defined.

(** ** The cache file *)

(** [Path::file_stem] of a file name. *)
Definition file_stem (name : string) : string :=
  match rsplit_once DOT name with
  | Some (before, _) => if bool_decide (before = EmptyString) then name else before
  | None => name
  end.

(** [path.with_extension(format!("tmp{seq}"))], in the directory of the cache. *)
Definition tmp_name (name : string) (seq : Z) : string :=
  file_stem name +:+ ".tmp" +:+ show seq.

(** The file names [remove_orphan_cache_tmps] removes. *)
Definition is_orphan (name entry : string) : bool :=
  let prefix := chars (file_stem name +:+ ".tmp") in
  bool_decide (take (length prefix) (chars entry) = prefix) &&
  forallb is_digit (drop (length prefix) (chars entry)).

(** The files of the cache's directory. [removable] are those whose removal succeeds. *)
Definition remove_orphan_cache_tmps (name : string) (removable : string -> bool)
    (fs : gmap string bytes) : gmap string bytes :=
  filter (fun e => is_orphan name e.1 && removable e.1 = false) fs.

Inductive CacheMeta :=
| MetaNotFound
| MetaError (text : string)
| Meta (modified : option Z) (len : Z).

Section Load.
Variable lz4_decompress : bytes -> option bytes.

(** [modified] is the mtime in seconds, if there is one after the epoch. *)
Definition load_bootstrap_cache (meta : CacheMeta) (read : string + bytes) (now : Z)
    : string + option (bytes * Z) :=
  match meta with
  | MetaNotFound => inr None
  | MetaError e => inl e
  | Meta modified len =>
      let cached_at := default 0 modified in
      if negb (is_bootstrap_cache_fresh now cached_at) then
        inl ("disk cache too old: " +:+ show (sat_sub now cached_at) +:+ "s")
      else if len <? MIN_COMPLETE_BOOTSTRAP_BYTES then
        inl ("disk cache too small: " +:+ show len +:+ " bytes")
      else
        match read with
        | inl e => inl e
        | inr blob =>
            match complete_frame_count blob with
            | None =>
                inl ("disk cache has incomplete frame boundary: " +:+ show (Z.of_nat (length blob)) +:+ " bytes")
            | Some frames =>
                if negb (complete_bootstrap_at_frame_boundary (Z.of_nat (length blob)) frames) then
                  inl ("disk cache incomplete: " +:+ show (Z.of_nat (length blob)) +:+ " bytes, " +:+
                       show frames +:+ " frames")
                else if negb (has_live_tail lz4_decompress blob) then
                  inl ("disk cache has no live-block tail (cut off mid-bulk): " +:+
                       show (Z.of_nat (length blob)) +:+ " bytes")
                else inr (Some (blob, cached_at))
            end
        end
  end.
End Load.

(** A call of [persist_bootstrap_cache] between the creation of its temporary file and its return. *)
Record Writer := mkWriter { w_seq : Z; w_blob : bytes; w_synced : bool }.

(** The directory, [PERSIST_SEQ], and the calls since the start of the process ([None]: returned). *)
Record Disk := mkDisk { d_files : gmap string bytes; d_seq : Z; d_writers : list (option Writer) }.

(** [DOpen] takes the sequence number and creates the file; [DWrite] writes up to byte [n];
    [DWriteError] is an error of [write_all] or [sync_all]; [DRestart] is the end of the process and
    its next start. *)
Inductive disk_event :=
| DOpen (blob : bytes) (created : bool)
| DWrite (k n : nat)
| DSync (k : nat)
| DWriteError (k : nat) (removed : bool)
| DRename (k : nat) (ok : bool)
| DRestart (removable : string -> bool).

Definition disk_call (d : Disk) (k : nat) (step : Writer -> Disk) : Disk :=
  match d_writers d !! k with Some (Some w) => step w | _ => d end.

Definition persist_bootstrap_cache (name : string) (d : Disk) (e : disk_event) : Disk :=
  let tmp w := tmp_name name (w_seq w) in
  match e with
  | DOpen blob created =>
      let seq := d_seq d in
      if created then
        mkDisk (<[tmp_name name seq := []]> (d_files d)) ((seq + 1) mod 2 ^ 64)
          (d_writers d ++ [Some (mkWriter seq blob false)])
      else mkDisk (d_files d) ((seq + 1) mod 2 ^ 64) (d_writers d)
  | DWrite k n =>
      disk_call d k (fun w =>
        if w_synced w then d
        else mkDisk (<[tmp w := take n (w_blob w)]> (d_files d)) (d_seq d) (d_writers d))
  | DSync k =>
      disk_call d k (fun w =>
        mkDisk (<[tmp w := w_blob w]> (d_files d)) (d_seq d)
          (<[k := Some (mkWriter (w_seq w) (w_blob w) true)]> (d_writers d)))
  | DWriteError k removed =>
      disk_call d k (fun w =>
        if w_synced w then d
        else mkDisk (if removed then delete (tmp w) (d_files d) else d_files d) (d_seq d)
               (<[k := None]> (d_writers d)))
  | DRename k ok =>
      disk_call d k (fun w =>
        if w_synced w then
          mkDisk
            (match ok, d_files d !! tmp w with
             | true, Some content => <[name := content]> (delete (tmp w) (d_files d))
             | _, _ => d_files d
             end) (d_seq d) (<[k := None]> (d_writers d))
        else d)
  | DRestart removable => mkDisk (remove_orphan_cache_tmps name removable (d_files d)) 0 []
  end.

(** ** Lemmas: the cache file *)

Lemma show_inj a b : 0 <= a -> 0 <= b -> show a = show b -> a = b.
Proof.
  intros Ha Hb H. apply text_inj in H. apply dec_val_show in Ha. apply dec_val_show in Hb. congruence.
Qed.

Lemma chars_inj s t : chars s = chars t -> s = t.
Proof. intros H. by rewrite <- (text_chars s), H, text_chars. Qed.

Lemma tmp_name_chars name seq : chars (tmp_name name seq) = chars (file_stem name +:+ ".tmp") ++ show_list seq.
Proof. unfold tmp_name. rewrite !chars_app, <- app_assoc. unfold show. by rewrite chars_text. Qed.

Lemma tmp_name_inj name a b : 0 <= a -> 0 <= b -> tmp_name name a = tmp_name name b -> a = b.
Proof.
  intros Ha Hb H. apply (f_equal chars) in H. rewrite !tmp_name_chars in H. simplify_list_eq.
  apply show_inj; [done..|]. unfold show. by rewrite H.
Qed.

Lemma tmp_name_orphan name seq : 0 <= seq -> is_orphan name (tmp_name name seq) = true.
Proof.
  intros H. unfold is_orphan. rewrite tmp_name_chars, take_app_length, drop_app_length.
  rewrite show_list_digits by done. by rewrite bool_decide_eq_true_2.
Qed.

Section Disk.
Variable name : string.
Hypothesis not_tmp : is_orphan name name = false.

Lemma name_not_tmp seq : 0 <= seq -> tmp_name name seq <> name.
Proof. intros H E. pose proof (tmp_name_orphan name seq H). congruence. Qed.

(** [P] holds of the content of the cache file; a call's file is its own, and holds its blob once
    it is synced. *)
Record disk_inv (P : option bytes -> Prop) (Q : bytes -> Prop) (n : Z) (d : Disk) : Prop := {
  di_seq : 0 <= d_seq d <= n;
  di_name : P (d_files d !! name);
  di_writer k w : d_writers d !! k = Some (Some w) ->
    0 <= w_seq w < d_seq d /\ Q (w_blob w) /\
    (w_synced w = true -> d_files d !! tmp_name name (w_seq w) = Some (w_blob w));
  di_apart j k v w : d_writers d !! j = Some (Some v) -> d_writers d !! k = Some (Some w) ->
    w_seq v = w_seq w -> j = k
}.

Section DiskSteps.
Variables (P : option bytes -> Prop) (Q : bytes -> Prop).
Hypothesis QP : forall b, Q b -> P (Some b).

Lemma disk_touch n d k w files o :
  disk_inv P Q n d -> d_writers d !! k = Some (Some w) ->
  (forall e, e <> tmp_name name (w_seq w) -> e <> name -> files !! e = d_files d !! e) ->
  P (files !! name) ->
  match o with
  | Some v => w_seq v = w_seq w /\ w_blob v = w_blob w /\
              (w_synced v = true -> files !! tmp_name name (w_seq w) = Some (w_blob w))
  | None => True
  end ->
  disk_inv P Q n (mkDisk files (d_seq d) (<[k := o]> (d_writers d))).
Proof.
  intros Hi Hk Hf Hp Ho. destruct (di_writer _ _ _ _ Hi _ _ Hk) as (Hs & Hq & _).
  assert (Hlk : forall j v, <[k := o]> (d_writers d) !! j = Some (Some v) ->
            (j = k /\ o = Some v) \/ (j <> k /\ d_writers d !! j = Some (Some v))).
  { intros j v. destruct (decide (j = k)) as [->|Hne].
    - rewrite list_lookup_insert_eq by (by eapply lookup_lt_Some). intros [= ->]. by left.
    - rewrite list_lookup_insert_ne by done. by right. }
  split; cbn.
  - apply Hi.
  - done.
  - intros j v [(-> & ->)|(Hne & Hj)]%Hlk.
    + destruct Ho as (-> & -> & ?). done.
    + destruct (di_writer _ _ _ _ Hi _ _ Hj) as (? & ? & Hsy). split_and!; [lia..|done|].
      intros Ht. rewrite Hf; [by apply Hsy| |by apply name_not_tmp; lia].
      intros E. apply tmp_name_inj in E; [|lia..]. by destruct (Hne (di_apart _ _ _ _ Hi _ _ _ _ Hj Hk E)).
  - intros i j v u [(-> & Ei)|(Hi1 & Hi2)]%Hlk [(-> & Ej)|(Hj1 & Hj2)]%Hlk E; [done|..]; subst.
    + destruct Ho as (Ho & _). rewrite Ho in E. by destruct (Hj1 (di_apart _ _ _ _ Hi _ _ _ _ Hj2 Hk (eq_sym E))).
    + destruct Ho as (Ho & _). rewrite Ho in E. by apply (di_apart _ _ _ _ Hi _ _ _ _ Hi2 Hk).
    + by apply (di_apart _ _ _ _ Hi _ _ _ _ Hi2 Hj2).
Qed.

Lemma disk_open n d blob created :
  n + 1 < 2 ^ 64 -> Q blob -> disk_inv P Q n d ->
  disk_inv P Q (n + 1) (persist_bootstrap_cache name d (DOpen blob created)).
Proof.
  intros Hn Hb [Hs Hp Hw Ha]. unfold persist_bootstrap_cache. rewrite Z.mod_small by lia.
  destruct created; [|split; cbn; [lia|done| |done]; intros k w Hk; destruct (Hw _ _ Hk) as (? & ? & ?); split_and!; [lia..|done|done]].
  assert (Hlk : forall k w, (d_writers d ++ [Some (mkWriter (d_seq d) blob false)]) !! k = Some (Some w) ->
            d_writers d !! k = Some (Some w) \/ (k = length (d_writers d) /\ w = mkWriter (d_seq d) blob false)).
  { intros k w [?|[Hl Hk]]%lookup_app_Some; [by left|right].
    apply list_lookup_singleton_Some in Hk as [? [= <-]]. split; [lia|done]. }
  split; cbn.
  - lia.
  - rewrite lookup_insert_ne by (apply name_not_tmp; lia). done.
  - intros k w [Hk|[-> ->]]%Hlk; [|cbn; split_and!; [lia..|done|done]].
    destruct (Hw _ _ Hk) as (? & ? & Hsy). split_and!; [lia..|done|].
    intros Ht. rewrite lookup_insert_ne; [by apply Hsy|].
    intros E. apply tmp_name_inj in E; lia.
  - intros j k v w [Hj|[-> ->]]%Hlk [Hk|[-> ->]]%Hlk E; [by eauto|..|done].
    + destruct (Hw _ _ Hj) as (? & _). cbn in E. lia.
    + destruct (Hw _ _ Hk) as (? & _). cbn in E. lia.
Qed.

Definition opened (e : disk_event) : option bytes :=
  match e with DOpen blob _ => Some blob | _ => None end.

Lemma disk_inv_mono n m d : n <= m -> disk_inv P Q n d -> disk_inv P Q m d.
Proof. intros ? [? ? ? ?]. split; [lia|done|done|done]. Qed.

Lemma disk_step_inv n d e :
  n + 1 < 2 ^ 64 -> (forall b, opened e = Some b -> Q b) -> disk_inv P Q n d ->
  disk_inv P Q (n + 1) (persist_bootstrap_cache name d e).
Proof.
  intros Hn Hq Hi. destruct e as [blob created|k m|k|k removed|k ok|removable].
  1: { apply disk_open; auto. }
  5: { pose proof (di_seq _ _ _ _ Hi). split; cbn; [lia| | |].
       - unfold remove_orphan_cache_tmps. rewrite map_lookup_filter.
         pose proof (di_name _ _ _ _ Hi) as Hp. destruct (d_files d !! name); [|exact Hp].
         cbn. rewrite not_tmp. cbn. exact Hp.
       - intros k w Hk. by rewrite lookup_nil in Hk.
       - intros j k v w Hk. by rewrite lookup_nil in Hk. }
  all: apply (disk_inv_mono n); [lia|]; cbn; unfold disk_call.
  all: destruct (d_writers d !! k) as [[w|]|] eqn:Hk; [|done..].
  all: destruct (di_writer _ _ _ _ Hi _ _ Hk) as (Hs & Hw & Hsy).
  all: pose proof (name_not_tmp (w_seq w) (proj1 Hs)) as Hne.
  all: pose proof (di_name _ _ _ _ Hi) as Hp.
  - destruct (w_synced w) eqn:Es; [done|].
    rewrite <- (list_insert_id (d_writers d) k (Some w)) by done.
    eapply disk_touch; [done|done| | |].
    + intros e He _. by rewrite lookup_insert_ne.
    + by rewrite lookup_insert_ne.
    + split_and!; [done|done|congruence].
  - eapply disk_touch; [done|done| | |].
    + intros e He _. by rewrite lookup_insert_ne.
    + by rewrite lookup_insert_ne.
    + split_and!; [done|done|]. intros _. by rewrite lookup_insert_eq.
  - destruct (w_synced w) eqn:Es; [done|]. eapply disk_touch; [done|done| | |done].
    + intros e He _. destruct removed; [by rewrite lookup_delete_ne|done].
    + destruct removed; [by rewrite lookup_delete_ne|done].
  - destruct (w_synced w) eqn:Es; [|done]. rewrite (Hsy eq_refl). destruct ok.
    + eapply disk_touch; [done|done| | |done].
      * intros e He Hn'. rewrite lookup_insert_ne, lookup_delete_ne by done. done.
      * rewrite lookup_insert_eq. by apply QP.
    + by eapply disk_touch.
Qed.

Lemma disk_run_inv evs n d :
  n + Z.of_nat (length evs) < 2 ^ 64 ->
  (forall e b, e ∈ evs -> opened e = Some b -> Q b) -> disk_inv P Q n d ->
  disk_inv P Q (n + Z.of_nat (length evs)) (foldl (persist_bootstrap_cache name) d evs).
Proof.
  revert n d. induction evs as [|e evs IH]; intros n d Hn Hq Hi.
  { by rewrite Z.add_0_r. }
  cbn [foldl length] in *.
  replace (n + Z.of_nat (S (length evs))) with (n + 1 + Z.of_nat (length evs)) in * by lia.
  apply IH; [lia| |].
  - intros e' b He. apply Hq. by right.
  - apply disk_step_inv; [lia| |done]. intros b. apply Hq. by left.
Qed.
End DiskSteps.
End Disk.

(** The cache file is the one from before, or a blob in full. *)
Lemma disk_content name files evs :
  is_orphan name name = false -> Z.of_nat (length evs) < 2 ^ 64 ->
  let d := foldl (persist_bootstrap_cache name) (mkDisk files 0 []) evs in
  d_files d !! name = files !! name \/
  exists blob created, DOpen blob created ∈ evs /\ d_files d !! name = Some blob.
Proof.
  intros Hn Hl d. set (Q := fun b => exists created, DOpen b created ∈ evs).
  assert (Hi : disk_inv name (fun o => o = files !! name \/ exists b, Q b /\ o = Some b) Q
                 (0 + Z.of_nat (length evs)) d).
  { apply disk_run_inv; [done|by eauto|lia| |].
    - intros [b0 created| | | | |] b He [= <-]. by exists created.
    - split; cbn; [lia|by left|..]; intros * Hk; by rewrite lookup_nil in Hk. }
  destruct (di_name _ _ _ _ _ Hi) as [?|(b & (created & ?) & ?)]; [by left|right; eauto].
Qed.

(** ** Properties: the cache file *)

(** C16: Whatever the writers of the cache file do, concurrently, with errors, crashes and restarts at
    any point: the cache file is the one from before or exactly one of the blobs handed to
    [persist_bootstrap_cache], never a part or a mixture of blobs; a restart that can remove files
    leaves no temporary file behind and keeps the cache file. *)
Theorem cache_file_is_never_torn (name : string) (files : gmap string bytes) (evs : list disk_event) :
  is_orphan name name = false -> Z.of_nat (length evs) < 2 ^ 64 ->
  let d := foldl (persist_bootstrap_cache name) (mkDisk files 0 []) evs in
  (d_files d !! name = files !! name \/
   exists blob created, DOpen blob created ∈ evs /\ d_files d !! name = Some blob) /\
  let d' := persist_bootstrap_cache name d (DRestart (fun _ => true)) in
  d_files d' !! name = d_files d !! name /\ forall seq, 0 <= seq -> d_files d' !! tmp_name name seq = None.
Proof.
  intros Hn Hl d. split.
  - by apply disk_content.
  - unfold persist_bootstrap_cache, remove_orphan_cache_tmps; cbn [d_files]. split.
    + rewrite map_lookup_filter. destruct (d_files d !! name); cbn; [|done]. by rewrite Hn.
    + intros seq Hs. rewrite map_lookup_filter.
      destruct (d_files d !! tmp_name name seq); cbn; [|done].
      rewrite tmp_name_orphan by done. cbn. done.
Qed.

Lemma cache_file_is_never_torn_witness :
  let evs := [DOpen [1; 2] true; DOpen [3] true; DWrite 0 1; DSync 1; DRename 1 true; DRestart (fun _ => true);
              DOpen [4; 5] true; DSync 0; DRename 0 true] in
  let d := foldl (persist_bootstrap_cache "bootstrap.cache") (mkDisk ∅ 0 []) evs in
  d_files d !! "bootstrap.cache"%string = Some [4; 5] /\
  d_files (persist_bootstrap_cache "bootstrap.cache" d (DRestart (fun _ => true))) !! "bootstrap.cache"%string
    = d_files d !! "bootstrap.cache"%string.
Proof.
  intros evs d. split; [vm_compute; reflexivity|].
  assert (H1 : is_orphan "bootstrap.cache" "bootstrap.cache" = false) by (vm_compute; reflexivity).
  assert (H2 : Z.of_nat (length evs) < 2 ^ 64) by (vm_compute; reflexivity).
  exact (proj1 (proj2 (cache_file_is_never_torn "bootstrap.cache" ∅ evs H1 H2))).
Defined.

(** A cache whose name has the extension [tmp] is removed at every start: the sequence number
    [remove_orphan_cache_tmps] looks for may be empty. *)
Example cache_named_tmp_is_an_orphan : is_orphan "boot.tmp" "boot.tmp" = true.
Proof. reflexivity. Qed.

Section LoadProperties.
Variable lz4_decompress : bytes -> option bytes.

Lemma load_sound meta read now b t :
  Forall is_byte b -> load_bootstrap_cache lz4_decompress meta read now = inr (Some (b, t)) ->
  (exists len, meta = Meta (Some t) len /\ MIN_COMPLETE_BOOTSTRAP_BYTES <= len) /\ read = inr b /\
  t <> 0 /\ now <= t + MAX_BOOTSTRAP_CACHE_AGE_SECS /\
  has_live_tail lz4_decompress b = true /\
  exists fs, b = encode_frames fs /\ small_frames fs /\
    MIN_COMPLETE_BOOTSTRAP_BYTES <= Z.of_nat (length b) /\
    MIN_COMPLETE_BOOTSTRAP_FRAMES <= Z.of_nat (length fs).
Proof.
  intros Hb. unfold load_bootstrap_cache.
  destruct meta as [|e|modified len]; [done|done|].
  destruct (is_bootstrap_cache_fresh _ _) eqn:Hf; cbn [negb]; [|done].
  destruct (Z.ltb_spec len MIN_COMPLETE_BOOTSTRAP_BYTES); [done|]. destruct read as [e|blob]; [done|].
  destruct (complete_frame_count blob) as [k|] eqn:Hk; [|done].
  destruct (complete_bootstrap_at_frame_boundary _ _) eqn:Hc; cbn [negb]; [|done].
  destruct (has_live_tail _ _) eqn:Ht; cbn [negb]; [|done]. intros [= -> <-].
  apply complete_frame_count_spec in Hk as (fs & He & -> & Hfs); [|done].
  unfold is_bootstrap_cache_fresh, sat_sub in Hf. unfold complete_bootstrap_at_frame_boundary in Hc. zify_bool.
  destruct modified as [t|]; [|done]. cbn [default] in *.
  split_and!; [by exists len|done|done|lia|done|]. exists fs. split_and!; done.
Qed.

Lemma load_accepts len now b t fs :
  Forall is_byte b -> MIN_COMPLETE_BOOTSTRAP_BYTES <= len -> t <> 0 -> now <= t + MAX_BOOTSTRAP_CACHE_AGE_SECS ->
  has_live_tail lz4_decompress b = true -> b = encode_frames fs -> small_frames fs ->
  MIN_COMPLETE_BOOTSTRAP_BYTES <= Z.of_nat (length b) -> MIN_COMPLETE_BOOTSTRAP_FRAMES <= Z.of_nat (length fs) ->
  load_bootstrap_cache lz4_decompress (Meta (Some t) len) (inr b) now = inr (Some (b, t)).
Proof.
  intros Hb Hlen Ht0 Hfresh Htail He Hs Hmb Hmf. unfold load_bootstrap_cache.
  change (default 0 (Some t)) with t.
  assert (Hf : is_bootstrap_cache_fresh now t = true).
  { unfold is_bootstrap_cache_fresh, sat_sub. rewrite (proj2 (Z.eqb_neq t 0)) by done.
    apply andb_true_iff. split; [done|]. apply Z.leb_le. unfold MAX_BOOTSTRAP_CACHE_AGE_SECS in *. lia. }
  rewrite Hf. cbn [negb]. rewrite (proj2 (Z.ltb_ge _ _)) by done.
  rewrite (proj2 (complete_frame_count_spec b (Z.of_nat (length fs)) Hb)) by (exists fs; by split_and!).
  unfold complete_bootstrap_at_frame_boundary.
  rewrite (proj2 (Z.leb_le _ _) Hmb), (proj2 (Z.leb_le _ _) Hmf), Htail. done.
Qed.

(** C39: At start the disk cache is used exactly when its file is fresh by its modification time and
    its bytes are a complete bootstrap: whole frames, at least the minimum size and number, with a
    live-block tail. So a capture of the tap is accepted again while it is fresh, and a file that is
    cut off is not. *)
Theorem disk_cache_accepted_exactly (meta : CacheMeta) (read : string + bytes) (now : Z) (b : bytes) (t : Z) :
  Forall is_byte b ->
  load_bootstrap_cache lz4_decompress meta read now = inr (Some (b, t)) <->
  (exists len, meta = Meta (Some t) len /\ MIN_COMPLETE_BOOTSTRAP_BYTES <= len) /\ read = inr b /\
  t <> 0 /\ now <= t + MAX_BOOTSTRAP_CACHE_AGE_SECS /\
  has_live_tail lz4_decompress b = true /\
  exists fs, b = encode_frames fs /\ small_frames fs /\
    MIN_COMPLETE_BOOTSTRAP_BYTES <= Z.of_nat (length b) /\
    MIN_COMPLETE_BOOTSTRAP_FRAMES <= Z.of_nat (length fs).
Proof.
  intros Hb. split; [by apply load_sound|]. intros ((len & -> & Hlen) & -> & ? & ? & ? & fs & ? & ? & ? & ?).
  by apply (load_accepts len now b t fs).
Qed.
End LoadProperties.

Lemma disk_cache_accepted_exactly_witness :
  let b := encode_frames [(0, [7])] in
  load_bootstrap_cache (fun _ => None) (Meta (Some 1000) 6000000000) (inr b) 1100 <> inr (Some (b, 1000)).
Proof.
  intros b H. assert (Hb : Forall is_byte b) by (repeat (apply Forall_cons_2; [done|]); apply Forall_nil_2).
  apply (disk_cache_accepted_exactly (fun _ => None) (Meta (Some 1000) 6000000000) (inr b) 1100 b 1000 Hb) in H
    as (_ & _ & _ & _ & _ & fs & _ & _ & Hl & _).
  by apply Hl.
Defined.
