(* ===== verification/Capture.v ===== *)
(** Captures of the background refresh: [fetch_bootstrap] and [capture_bootstrap_raced] of
    [src/gateway/cache.rs], and the refresh loop of [src/gateway/mod.rs] that calls them.

    An error of a capture is its reason with the bytes and frames read so far; the text the code
    formats from it is left out. *)

From S2P Require Import Prelude Text Blacklist Wire Priority Sources Cache.

(** ** One capture *)

Inductive CaptureReason :=
| ConnectFailed (text : string)
| HeaderFailed (text : string)
| HeaderTimeout
| NotServing (detail : string)
| FrameTooLarge (len : Z)
| CaptureTooLargeWith (len : Z)
| TooSlowEarly (len off : Z)
| LargeReadFailed (len off : Z)
| SmallReadFailed (len : Z)
| CaptureTooLarge
| TooSlowAfterState
| BulkEndedEarly.

Record CaptureError := mkErr { ce_reason : CaptureReason; ce_bytes : Z; ce_frames : Z }.

Inductive HeaderIn :=
| HdrGot (hdr : bytes)
| HdrFailed (text : string)
| HdrTimeout.

(** What a turn reads: the header, the detail of a decline, the reads of a large payload with the
    clock after each, the payload of a small frame, and the clock after the frame. [ft_frame_start]
    is the clock when the large payload begins. *)
Record FetchTurn := mkFetchTurn {
  ft_header : HeaderIn;
  ft_detail : string;
  ft_frame_start : Z;
  ft_large : list (option bytes * Z);
  ft_small : option bytes;
  ft_end : Z
}.

Record Capturing := mkCapturing { c_blob : bytes; c_frames : Z; c_first : bool; c_win : Window }.

Definition blob_len (c : Capturing) : Z := Z.of_nat (length (c_blob c)).

Definition bootstrap_capture_err (reason : CaptureReason) (c : Capturing) : CaptureError :=
  mkErr reason (blob_len c) (c_frames c).

(** The chunked read of a large frame: the payload, or why it ended. *)
Fixpoint read_large (len start : Z) (reads : list (option bytes * Z)) (got : bytes) : CaptureReason + bytes :=
  let off := Z.of_nat (length got) in
  if len <=? off then inr got
  else
    match reads with
    | [] | (None, _) :: _ => inl (LargeReadFailed len off)
    | (Some avail, now) :: reads =>
        let chunk := take (Z.to_nat (len - off)) avail in
        if bool_decide (chunk = []) then inl (LargeReadFailed len off)
        else
          let got := got ++ chunk in
          let off := Z.of_nat (length got) in
          let el := since now start in
          if (seconds 4 <? el) && rate_below off el MIN_BOOTSTRAP_RATE_BYTES_PER_SEC
          then inl (TooSlowEarly len off)
          else read_large len start reads got
    end.

Definition read_payload (t : FetchTurn) (len : Z) : CaptureReason + bytes :=
  if 50000000 <? len then read_large len (ft_frame_start t) (ft_large t) []
  else match ft_small t with Some p => inr p | None => inl (SmallReadFailed len) end.

(** The header of the next frame, or the end of the capture. *)
Definition fetch_header (t : FetchTurn) (c : Capturing) : (CaptureError + bytes) + bytes :=
  let complete := complete_bootstrap_at_frame_boundary (blob_len c) (c_frames c) in
  let stop reason :=
    inl (if complete then inr (c_blob c) else inl (bootstrap_capture_err reason c)) in
  match ft_header t with
  | HdrGot hdr => inr hdr
  | HdrFailed e => stop (HeaderFailed e)
  | HdrTimeout => stop HeaderTimeout
  end.

(** After the payload: the speed gate right behind the snapshot, then the rate window. *)
Definition fetch_window (t0 : Z) (t : FetchTurn) (len : Z) (c : Capturing)
    : (CaptureError + bytes) + Capturing :=
  let fail reason := inl (inl (bootstrap_capture_err reason c)) in
  if MAX_BOOTSTRAP_CAPTURE_BYTES <? blob_len c then fail CaptureTooLarge
  else if (900000000 <=? blob_len c) && (blob_len c <? 970000000) &&
          rate_below (blob_len c) (since (ft_end t) t0) MIN_BOOTSTRAP_RATE_BYTES_PER_SEC
  then fail TooSlowAfterState
  else
    let w := c_win c in
    let nbytes := win_bytes w + 5 + len in
    let el := since (ft_end t) (win w) in
    let next w := inr (mkCapturing (c_blob c) (c_frames c) (c_first c) w) in
    if millis 1500 <=? el then
      if (1500000000 <? blob_len c) && rate_below nbytes el 400000 then
        if 8 <=? slow w + 1 then
          if complete_bootstrap_at_frame_boundary (blob_len c) (c_frames c) then inl (inr (c_blob c))
          else fail BulkEndedEarly
        else next (mkWin (ft_end t) 0 (slow w + 1))
      else next (mkWin (ft_end t) 0 0)
    else next (mkWin (win w) nbytes (slow w)).

(** One turn of the loop: the capture ends, or goes on. *)
Definition fetch_turn (t0 : Z) (c : Capturing) (t : FetchTurn) : (CaptureError + bytes) + Capturing :=
  hdr ⇐ fetch_header t c;
  let len := frame_len hdr in
  let fail reason := inl (inl (bootstrap_capture_err reason c)) in
  if c_first c && (len <=? 4000000) then fail (NotServing (ft_detail t))
  else if MAX_ABCI_STATE_FRAME <? len then fail (FrameTooLarge len)
  else if MAX_BOOTSTRAP_CAPTURE_BYTES <? blob_len c + 5 + len then fail (CaptureTooLargeWith len)
  else
    match read_payload t len with
    | inl reason => fail reason
    | inr payload =>
        fetch_window t0 t len
          (mkCapturing (c_blob c ++ hdr ++ payload) (c_frames c + 1) false (c_win c))
    end.

Fixpoint fetch_loop (t0 : Z) (c : Capturing) (turns : list FetchTurn) : option (CaptureError + bytes) :=
  match turns with
  | [] => None
  | t :: turns =>
      match fetch_turn t0 c t with
      | inl result => Some result
      | inr c => fetch_loop t0 c turns
      end
  end.

(** [connected] is the error of connecting or greeting, if any; [t0] the clock after it. [None]: the
    capture is still running after [turns]. *)
Definition fetch_bootstrap (connected : option string) (t0 : Z) (turns : list FetchTurn)
    : option (CaptureError + bytes) :=
  match connected with
  | Some e => Some (inl (mkErr (ConnectFailed e) 0 0))
  | None => fetch_loop t0 (mkCapturing [] 0 true (mkWin t0 0 0)) turns
  end.

(** ** The race *)

(** [set] holds the addresses of the running attempts; [result] is what the race returned. *)
Record CaptureRace := mkRace {
  cr_idx : nat;
  cr_started : nat;
  cr_set : list string;
  cr_result : option (option (bytes * string))
}.

Inductive capture_event :=
| CJoin (k : nat) (r : option (CaptureError + bytes))     (* [None]: the task failed *)
| CHedge.

Definition spawn_next (peers : list string) (s : CaptureRace) : CaptureRace :=
  match peers !! cr_idx s with
  | Some ip => mkRace (S (cr_idx s)) (S (cr_started s)) (cr_set s ++ [ip]) (cr_result s)
  | None => s
  end.

(** The top of the loop. *)
Definition race_check (peers : list string) (s : CaptureRace) : CaptureRace :=
  if bool_decide (cr_set s = []) && (length peers <=? cr_idx s)%nat
  then mkRace (cr_idx s) (cr_started s) [] (Some None) else s.

Definition capture_step (peers : list string) (max_inflight : nat) (s : CaptureRace) (e : capture_event)
    : CaptureRace :=
  match cr_result s with
  | Some _ => s
  | None =>
      match e with
      | CJoin k r =>
          match cr_set s !! k with
          | None => s
          | Some ip =>
              match r with
              | Some (inr blob) => mkRace (cr_idx s) (cr_started s) [] (Some (Some (blob, ip)))
              | _ =>
                  race_check peers
                    (spawn_next peers (mkRace (cr_idx s) (cr_started s) (delete k (cr_set s)) None))
              end
          end
      | CHedge =>
          if (length (cr_set s) <? max_inflight)%nat && (cr_idx s <? length peers)%nat
          then race_check peers (spawn_next peers s) else s
      end
  end.

Definition capture_start (peers : list string) : CaptureRace :=
  if bool_decide (peers = []) then mkRace 0 0 [] (Some None)
  else spawn_next peers (mkRace 0 0 [] None).

Definition capture_bootstrap_raced (peers : list string) (max_inflight : nat) (evs : list capture_event)
    : CaptureRace :=
  foldl (capture_step peers max_inflight) (capture_start peers) evs.

(** ** The refresh loop *)

(** What a turn reads: whether a blob is cached, then the clock and the time stamp of the cache, in
    this order and not at once; the pool and the files; what the race returned in time; [unix_secs]
    for the stamp of a capture and for the retry delay. *)
Record RefreshIn := mkRefreshIn {
  ri_have_cache : bool;
  ri_now : Z;
  ri_cached_at : Z;
  ri_pool : list string;
  ri_candidates : list string;
  ri_bl : Blacklist;
  ri_raced : option (bytes * string);
  ri_stored : Z;
  ri_after : Z
}.

Record Refresh := mkRefresh { rf_cycle : Z; rf_fails : Z }.

(** A race the loop starts: its peers, attempts in flight and deadline. *)
Record RacePlan := mkPlan { pl_peers : list string; pl_inflight : nat; pl_deadline : Z }.

Definition usize_mod : Z := 2 ^ 64.

(** The window of peers: rotated by [cycle.wrapping_mul(take) % n], with [n] peers. *)
Definition capture_window (full : list string) (window : Z) (rotate : bool) (cycle : Z) : list string :=
  let n := Z.of_nat (length full) in
  let take := Z.min window n in
  let off := if rotate then ((cycle * take) mod usize_mod) mod n else 0 in
  omap (fun k => full !! Z.to_nat ((off + Z.of_nat k) mod n)) (seq 0 (Z.to_nat take)).

Definition refresh_peers (t : PriorityTier) (i : RefreshIn) (fresh : bool) (fails cycle : Z) : list string :=
  let full := strip t (bootstrap_capture_peers (ri_bl i) (ri_candidates i) (ri_pool i) (negb fresh)) in
  if bool_decide (full = []) then []
  else capture_window full (if fresh then 24 else 64) (fresh || (0 <? fails)) cycle.

Definition cold_backoff (fails : Z) : Z :=
  if fails =? 1 then 60 else if fails =? 2 then 120 else if fails =? 3 then 300 else 600.

Section RefreshLoop.
Variable lz4_decompress : bytes -> option bytes.

(** A capture that won the race and may be stored. *)
Definition refresh_won (i : RefreshIn) : option bytes :=
  match ri_raced i with
  | Some (blob, _) => if has_live_tail lz4_decompress blob then Some blob else None
  | None => None
  end.

(** What a turn does, in this order: it frees the blob, runs a race, stores a capture with its stamp,
    sleeps (seconds). *)
Record TurnEffects := mkEffects {
  te_free : bool;
  te_plan : option RacePlan;
  te_store : option (bytes * Z);
  te_delay : Z
}.

Definition refresh_turn (t : PriorityTier) (s : Refresh) (i : RefreshIn) : TurnEffects * Refresh :=
  let now := ri_now i in
  let cached_at := ri_cached_at i in
  let fresh := ri_have_cache i && is_bootstrap_cache_fresh now cached_at in
  let free := ri_have_cache i && negb fresh in
  let next_refresh := Z.min (cached_at + CACHE_REFRESH_SECS) u64_max in
  let live_count := Z.of_nat (length (ri_pool i)) in
  if fresh && (now <? next_refresh) then
    (mkEffects free None None (Z.min (sat_sub next_refresh now) CACHE_REFRESH_RETRY_SECS), s)
  else if fresh && should_delay_cache_refresh_for_live_pool now cached_at live_count then
    (mkEffects free None None (fresh_cache_retry_delay_secs now cached_at), s)
  else
    let plan := mkPlan (refresh_peers t i fresh (rf_fails s) (rf_cycle s))
                  (if fresh then FRESH_CACHE_REFRESH_MAX_INFLIGHT else COLD_CACHE_REFRESH_MAX_INFLIGHT)
                  (bootstrap_capture_deadline_secs fresh) in
    let cycle := (rf_cycle s + 1) mod usize_mod in
    match refresh_won i with
    | Some blob => (mkEffects free (Some plan) (Some (blob, ri_stored i)) CACHE_REFRESH_SECS, mkRefresh cycle 0)
    | None =>
        if fresh then
          (mkEffects free (Some plan) None (fresh_cache_retry_delay_secs (ri_after i) cached_at),
           mkRefresh cycle (rf_fails s))
        else
          let fails := Z.min (rf_fails s + 1) 4 in
          (mkEffects free (Some plan) None (cold_backoff fails), mkRefresh cycle fails)
    end.
End RefreshLoop.

(** ** Lemmas: one capture *)

Definition fetch_turn_ok (t : FetchTurn) : Prop :=
  match ft_header t with
  | HdrGot hdr =>
      header_ok hdr /\
      (frame_len hdr <= 50000000 -> forall p, ft_small t = Some p -> Z.of_nat (length p) = frame_len hdr)
  | _ => True
  end.

(** The first frame is the state snapshot. *)
Definition starts_with_state (fs : list (Z * bytes)) : Prop :=
  match fs with
  | [] => True
  | f :: _ => 4000000 < Z.of_nat (length f.2)
  end.

Definition capturing_ok (fs : list (Z * bytes)) (c : Capturing) : Prop :=
  c_blob c = encode_frames fs /\ small_frames fs /\ c_frames c = Z.of_nat (length fs) /\
  blob_len c <= MAX_BOOTSTRAP_CAPTURE_BYTES /\ c_first c = bool_decide (fs = []) /\ starts_with_state fs.

Definition whole_capture (b : bytes) : Prop :=
  exists fs, b = encode_frames fs /\ whole_bootstrap fs /\ starts_with_state fs.

Lemma capturing_whole fs c :
  capturing_ok fs c -> complete_bootstrap_at_frame_boundary (blob_len c) (c_frames c) = true ->
  whole_capture (c_blob c).
Proof.
  intros (Hb & Hs & Hf & Hl & _ & Hst) Hc. exists fs. split_and!; [done| |done].
  unfold blob_len in *. rewrite Hb in Hc, Hl. rewrite Hf in Hc. by split_and!.
Qed.

Lemma read_large_length len start reads got p :
  Z.of_nat (length got) <= len -> read_large len start reads got = inr p -> Z.of_nat (length p) = len.
Proof.
  revert got. induction reads as [|[rd now] reads IH]; intros got Hl; cbn;
    (destruct (Z.leb_spec len (Z.of_nat (length got))); [intros [= <-]; lia|]); [done|].
  destruct rd as [avail|]; [|done]. case_bool_decide; [done|]. destruct (_ && _); [done|].
  apply IH. rewrite length_app, length_take. lia.
Qed.

Lemma read_payload_length t hdr p :
  fetch_turn_ok t -> ft_header t = HdrGot hdr -> read_payload t (frame_len hdr) = inr p ->
  Z.of_nat (length p) = frame_len hdr.
Proof.
  unfold fetch_turn_ok, read_payload. intros Ht Hh. rewrite Hh in Ht. destruct Ht as [Hok Hs].
  pose proof (frame_len_nonneg _ Hok). destruct (Z.ltb_spec 50000000 (frame_len hdr)).
  - apply read_large_length. cbn. lia.
  - destruct (ft_small t) eqn:E; [|done]. intros [= <-]. by apply Hs.
Qed.

(** The end of a turn keeps the frames, and returns only a whole capture. *)
Lemma fetch_window_ok fs t0 t len c :
  capturing_ok fs c ->
  match fetch_window t0 t len c with
  | inl (inr b) => whole_capture b
  | inl (inl _) => True
  | inr c' => capturing_ok fs c' /\ c_blob c' = c_blob c
  end.
Proof.
  intros Hc. unfold fetch_window. destruct (_ <? _); [done|]. destruct (_ && rate_below _ _ _); [done|].
  cbn zeta. destruct (millis 1500 <=? _); [|by split].
  destruct (_ && rate_below _ _ _); [|by split]. destruct (8 <=? _); [|by split].
  destruct (complete_bootstrap_at_frame_boundary _ _) eqn:E; [|done]. by eapply capturing_whole.
Qed.

Lemma fetch_turn_ok_step fs t0 c t :
  fetch_turn_ok t -> capturing_ok fs c ->
  match fetch_turn t0 c t with
  | inl (inr b) => whole_capture b
  | inl (inl _) => True
  | inr c' => (exists fs', capturing_ok fs' c') /\ blob_len c + 5 <= blob_len c'
  end.
Proof.
  intros Ht Hc. unfold fetch_turn, fetch_header.
  destruct (ft_header t) as [hdr|e|] eqn:Eh; cbn [sum_bind].
  2,3: destruct (complete_bootstrap_at_frame_boundary _ _) eqn:E; [by eapply capturing_whole|done].
  pose proof Ht as Ht'. unfold fetch_turn_ok in Ht'. rewrite Eh in Ht'. destruct Ht' as [Hok _].
  destruct (c_first c && _) eqn:E1; [done|]. destruct (Z.ltb_spec MAX_ABCI_STATE_FRAME (frame_len hdr)); [done|].
  destruct (Z.ltb_spec MAX_BOOTSTRAP_CAPTURE_BYTES (blob_len c + 5 + frame_len hdr)) as [|Hroom]; [done|].
  destruct (read_payload t (frame_len hdr)) as [r|payload] eqn:Ep; [done|].
  apply read_payload_length in Ep as Hl; [|done..].
  set (c1 := mkCapturing _ _ _ _).
  assert (Hlen : blob_len c1 = blob_len c + 5 + frame_len hdr).
  { unfold blob_len, c1; cbn. rewrite !length_app, (proj1 Hok). lia. }
  assert (H1 : capturing_ok (fs ++ [(byte_at hdr 4, payload)]) c1).
  { destruct Hc as (Hb & Hs & Hf & _ & Hfirst & Hst). split_and!; cbn.
    - rewrite Hb, encode_frames_snoc. f_equal. by apply header_payload.
    - apply Forall_app. split; [done|]. apply Forall_cons_2; [cbn; lia|by apply Forall_nil_2].
    - rewrite Hf, length_app. cbn. lia.
    - lia.
    - rewrite bool_decide_eq_false_2; [done|]. by destruct fs.
    - destruct fs as [|f fs]; [|done]. cbn. rewrite Hfirst in E1. cbn in E1. zify_bool. lia. }
  pose proof (fetch_window_ok _ t0 t (frame_len hdr) c1 H1) as Hw.
  destruct (fetch_window _ _ _ _) as [[e|b]|c2]; [done|done|]. destruct Hw as [Hw Heq].
  split; [by eexists|]. unfold blob_len at 2. rewrite Heq. fold (blob_len c1).
  pose proof (frame_len_nonneg _ Hok). lia.
Qed.

Lemma fetch_loop_ok fs t0 c turns :
  Forall fetch_turn_ok turns -> capturing_ok fs c ->
  (forall b, fetch_loop t0 c turns = Some (inr b) -> whole_capture b) /\
  (MAX_BOOTSTRAP_CAPTURE_BYTES < blob_len c + 5 * Z.of_nat (length turns) ->
   is_Some (fetch_loop t0 c turns)).
Proof.
  intros Ht. revert fs c. induction Ht as [|t turns Ht _ IH]; intros fs c Hc; cbn [fetch_loop length].
  { split; [done|]. destruct Hc as (_ & _ & _ & ? & _). lia. }
  pose proof (fetch_turn_ok_step fs t0 c t Ht Hc) as Hs.
  destruct (fetch_turn t0 c t) as [[e|b]|c'].
  - split; [done|eauto].
  - split; [by intros b' [= <-]|eauto].
  - destruct Hs as [[fs' Hc'] Hgrow]. destruct (IH fs' c' Hc') as [H1 H2]. split; [done|]. intros H. apply H2. lia.
Qed.

(** C30: A capture, whatever its peer sends and however slowly: what it returns is whole frames from
    the state snapshot on, at least a complete bootstrap and within the size limit; and it returns,
    because each frame it keeps uses up five bytes of that limit. *)
Theorem capture_is_whole_and_ends (connected : option string) (t0 : Z) (turns : list FetchTurn) :
  Forall fetch_turn_ok turns ->
  (forall b, fetch_bootstrap connected t0 turns = Some (inr b) ->
     exists typ state rest,
       b = encode_frames ((typ, state) :: rest) /\ whole_bootstrap ((typ, state) :: rest) /\
       4000000 < Z.of_nat (length state)) /\
  (MAX_BOOTSTRAP_CAPTURE_BYTES < 5 * Z.of_nat (length turns) ->
   is_Some (fetch_bootstrap connected t0 turns)).
Proof.
  intros Ht. unfold fetch_bootstrap. destruct connected as [e|]; [split; [done|eauto]|].
  destruct (fetch_loop_ok [] t0 (mkCapturing [] 0 true (mkWin t0 0 0)) turns Ht) as [H1 H2].
  { split_and!; [done|by apply Forall_nil_2|done|vm_compute; discriminate|done|done]. }
  split; [|done]. intros b Hb. destruct (H1 b Hb) as (fs & -> & Hw & Hst).
  destruct fs as [|[typ state] rest]; [|by exists typ, state, rest].
  destruct Hw as (_ & Hw & _). by vm_compute in Hw.
Qed.

Lemma capture_is_whole_and_ends_witness :
  let turns := [mkFetchTurn (HdrGot [0; 0; 0; 9; 1]) "Peer full"%string 0 [] None 1] in
  fetch_bootstrap None 0 turns = Some (inl (mkErr (NotServing "Peer full") 0 0)) /\
  (MAX_BOOTSTRAP_CAPTURE_BYTES < 5 * Z.of_nat (length turns) -> is_Some (fetch_bootstrap None 0 turns)).
Proof.
  intros turns. split; [vm_compute; reflexivity|].
  apply (capture_is_whole_and_ends None 0 turns).
  apply Forall_cons_2; [|apply Forall_nil_2]. split; [|by intros].
  split; [done|]. repeat (apply Forall_cons_2; [done|]). apply Forall_nil_2.
Defined.

(** ** Lemmas: the race *)

(** Events that each change the state of the race: the times its task wakes for something. *)
Fixpoint race_wakes (peers : list string) (max_inflight : nat) (s : CaptureRace) (evs : list capture_event) : Prop :=
  match evs with
  | [] => True
  | e :: evs =>
      capture_step peers max_inflight s e <> s /\ race_wakes peers max_inflight (capture_step peers max_inflight s e) evs
  end.

Definition race_left (peers : list string) (s : CaptureRace) : nat :=
  2 * (length peers - cr_idx s) + length (cr_set s).

Section RaceLemmas.
Variables (peers : list string) (max_inflight : nat).

(** The attempts run in the order of the list; one more than was started is never in flight. *)
Record race_ok (s : CaptureRace) : Prop := {
  ro_idx : (cr_idx s <= length peers)%nat;
  ro_started : cr_started s = cr_idx s;
  ro_set : cr_set s ⊆+ take (cr_idx s) peers;
  ro_room : (length (cr_set s) <= Nat.max 1 max_inflight)%nat;
  ro_live : cr_result s = None -> cr_set s <> [];
  ro_tried : cr_result s = Some None -> cr_idx s = length peers;
  ro_done : cr_result s <> None -> cr_set s = []
}.

(** The state before the top of the loop. *)
Definition race_mid (s : CaptureRace) : Prop :=
  (cr_idx s <= length peers)%nat /\ cr_started s = cr_idx s /\ cr_set s ⊆+ take (cr_idx s) peers /\
  (length (cr_set s) <= Nat.max 1 max_inflight)%nat /\ cr_result s = None /\
  (cr_set s = [] -> cr_idx s = length peers).

Lemma race_check_ok s : race_mid s -> race_ok (race_check peers s).
Proof.
  intros (Hi & Hst & Hs & Hr & Hn & He). unfold race_check.
  case_bool_decide as E; cbn [andb].
  - rewrite (proj2 (Nat.leb_le _ _)) by (rewrite (He E); lia).
    split; cbn; auto using submseteq_nil_l; try lia; congruence.
  - split; try done; congruence.
Qed.

Lemma spawn_next_mid s :
  (cr_idx s <= length peers)%nat -> cr_started s = cr_idx s -> cr_set s ⊆+ take (cr_idx s) peers ->
  (length (cr_set s) < Nat.max 1 max_inflight)%nat -> cr_result s = None ->
  race_mid (spawn_next peers s).
Proof.
  intros Hi Hst Hs Hr Hn. unfold spawn_next, race_mid. destruct (peers !! cr_idx s) as [ip|] eqn:E; cbn.
  - apply lookup_lt_Some in E as Hl. rewrite (take_S_r peers (cr_idx s) ip E), length_app. cbn.
    split_and!; [lia|lia| |lia|done|by destruct (cr_set s)]. by apply submseteq_app.
  - apply lookup_ge_None in E. split_and!; [lia|done|done|lia|done|lia].
Qed.

Lemma capture_start_ok : race_ok (capture_start peers).
Proof.
  unfold capture_start. case_bool_decide as E.
  - split; cbn; rewrite ?E; auto using submseteq_nil_l; try lia; congruence.
  - destruct peers as [|ip ps] eqn:Ep; [done|]. unfold spawn_next; cbn.
    split; cbn; rewrite ?Ep; cbn; auto; try lia; try done.
Qed.

Lemma capture_step_ok s e : race_ok s -> race_ok (capture_step peers max_inflight s e).
Proof.
  intros Hs. unfold capture_step. destruct (cr_result s) eqn:Er; [done|]. pose proof Hs as [Hi Hst Hsub Hr Hl _ _].
  destruct e as [k r|].
  - destruct (cr_set s !! k) as [ip|] eqn:Hk; [|done].
    assert (Hlen : (length (delete k (cr_set s)) < Nat.max 1 max_inflight)%nat).
    { pose proof (length_delete (cr_set s) k (ex_intro _ _ Hk)). apply lookup_lt_Some in Hk. lia. }
    assert (Hd : delete k (cr_set s) ⊆+ take (cr_idx s) peers).
    { etrans; [|exact Hsub]. apply sublist_submseteq, sublist_delete. }
    destruct r as [[err|b]|]; [by apply race_check_ok, spawn_next_mid| |by apply race_check_ok, spawn_next_mid].
    split; cbn; auto using submseteq_nil_l; try lia; congruence.
  - destruct (_ && _) eqn:E; [|done].
    apply andb_true_iff in E as [E1 E2]. apply Nat.ltb_lt in E1, E2.
    apply race_check_ok, spawn_next_mid; auto. lia.
Qed.

Lemma race_check_left s : race_left peers (race_check peers s) = race_left peers s.
Proof. unfold race_check. case_bool_decide as E; cbn; [|done]. destruct (_ <=? _)%nat; [|done]. unfold race_left. cbn. by rewrite E. Qed.

Lemma capture_step_left s e :
  race_ok s -> capture_step peers max_inflight s e = s \/
  (race_left peers (capture_step peers max_inflight s e) < race_left peers s)%nat.
Proof.
  intros Hs. pose proof (ro_idx _ Hs) as Hi. unfold capture_step. destruct (cr_result s) eqn:Er; [by left|].
  destruct e as [k r|].
  - destruct (cr_set s !! k) as [ip|] eqn:Hk; [|by left]. right.
    pose proof (length_delete (cr_set s) k (ex_intro _ _ Hk)) as Hd. apply lookup_lt_Some in Hk.
    assert (Hf : (race_left peers (race_check peers (spawn_next peers
              (mkRace (cr_idx s) (cr_started s) (delete k (cr_set s)) None))) < race_left peers s)%nat).
    { rewrite race_check_left. unfold spawn_next. cbn [cr_idx].
      destruct (peers !! cr_idx s) eqn:E; unfold race_left; cbn [cr_idx cr_set]; [|lia].
      apply lookup_lt_Some in E. rewrite length_app. cbn. lia. }
    destruct r as [[err|b]|]; [done| |done]. unfold race_left. cbn. lia.
  - destruct (_ && _) eqn:E; [|by left]. right. apply andb_true_iff in E as [_ E]. apply Nat.ltb_lt in E.
    rewrite race_check_left. unfold spawn_next. destruct (peers !! cr_idx s) eqn:E2;
      [|apply lookup_ge_None in E2; lia]. unfold race_left. cbn. rewrite length_app. cbn. lia.
Qed.

Lemma race_wakes_bounded s evs :
  race_ok s -> race_wakes peers max_inflight s evs -> (length evs <= race_left peers s)%nat.
Proof.
  revert s. induction evs as [|e evs IH]; intros s Hs; cbn [length race_wakes]; [lia|]. intros [Hne Hw].
  apply IH in Hw; [|by apply capture_step_ok]. destruct (capture_step_left s e Hs); [done|lia].
Qed.

(** A winner is the result of an attempt at one of the peers. *)
Lemma capture_winner s evs b ip :
  race_ok s -> cr_result (foldl (capture_step peers max_inflight) s evs) = Some (Some (b, ip)) ->
  cr_result s = Some (Some (b, ip)) \/ (ip ∈ peers /\ exists k, CJoin k (Some (inr b)) ∈ evs).
Proof.
  revert s. induction evs as [|e evs IH]; intros s Hs; cbn [foldl]; [by left|]. intros H.
  destruct (IH _ (capture_step_ok s e Hs) H) as [H'|(? & k & ?)];
    [clear H; rename H' into H|right; split; [done|]; exists k; by right].
  unfold capture_step in H. destruct (cr_result s) eqn:Er; [left; congruence|].
  assert (Hnone : forall s', cr_result s' = None -> cr_result (race_check peers (spawn_next peers s')) <> Some (Some (b, ip))).
  { clear H. intros s' E. unfold race_check, spawn_next. destruct (peers !! cr_idx s'); cbn;
    destruct (_ && _); cbn; rewrite ?E; done. }
  destruct e as [k r|].
  - destruct (cr_set s !! k) as [ip'|] eqn:Hk; [|congruence].
    destruct r as [[err|b']|]; [by apply Hnone in H| |by apply Hnone in H].
    cbn in H. injection H as -> ->. right. split; [|exists k; by left].
    pose proof (elem_of_submseteq _ _ _ (list_elem_of_lookup_2 _ _ _ Hk) (ro_set _ Hs)) as Hin.
    by eapply elem_of_sublist, sublist_take.
  - destruct (_ && _); [by apply Hnone in H|congruence].
Qed.
End RaceLemmas.

(** The race for a capture, whatever its attempts do: it starts the peers in order, each once,
    at most [max_inflight] at a time (one if that is zero); it wakes fewer than twice as many times
    as there are peers; until it returns it has an attempt to wait for; it returns nothing only
    after every peer was tried, and otherwise what an attempt at one of the peers captured. *)
Theorem capture_race_is_bounded (peers : list string) (max_inflight : nat) (evs : list capture_event) :
  let s := capture_bootstrap_raced peers max_inflight evs in
  cr_set s ⊆+ take (cr_started s) peers /\ (cr_started s <= length peers)%nat /\
  (length (cr_set s) <= Nat.max 1 max_inflight)%nat /\
  (race_wakes peers max_inflight (capture_start peers) evs -> (length evs <= 2 * length peers - 1)%nat) /\
  match cr_result s with
  | None => cr_set s <> []
  | Some None => cr_started s = length peers
  | Some (Some (b, ip)) => ip ∈ peers /\ exists k, CJoin k (Some (inr b)) ∈ evs
  end.
Proof.
  intros s. pose proof (capture_start_ok peers max_inflight) as H0.
  assert (Hs : race_ok peers max_inflight s).
  { unfold s, capture_bootstrap_raced. apply foldl_inv; [done|]. intros; by apply capture_step_ok. }
  destruct Hs as [Hi Hst Hsub Hr Hl Ht _]. rewrite Hst. split_and!; [done|done|done| |].
  - intros Hw. apply race_wakes_bounded in Hw; [|done]. revert Hw. unfold capture_start.
    case_bool_decide as E; [rewrite E; cbn; lia|]. destruct peers as [|ip ps]; [done|]. cbn. lia.
  - destruct (cr_result s) as [[[b ip]|]|] eqn:Er; [|by apply Ht|by apply Hl].
    unfold s, capture_bootstrap_raced in Er. apply capture_winner in Er as [Er|?]; [|done|done].
    exfalso. revert Er. unfold capture_start, spawn_next. case_bool_decide; [done|]. by destruct (peers !! _).
Qed.

(** ** Lemmas: the refresh loop *)

Lemma omap_seq_take {A} (l : list A) (f : nat -> option A) m :
  (m <= length l)%nat -> (forall k, (k < m)%nat -> f k = l !! k) -> omap f (seq 0 m) = take m l.
Proof.
  induction m as [|m IH]; intros Hm Hf; [done|].
  destruct (lookup_lt_is_Some_2 l m ltac:(lia)) as [x Hx].
  rewrite seq_S, omap_app, IH, (take_S_r l m x Hx) by (lia || (intros; apply Hf; lia)).
  cbn. by rewrite Hf, Hx by lia.
Qed.

Lemma lookup_rotated {A} (l : list A) (off k : nat) :
  (off < length l)%nat -> (k < length l)%nat ->
  (drop off l ++ take off l) !! k = l !! ((off + k) mod length l)%nat.
Proof.
  intros Ho Hk. destruct (decide (off + k < length l)%nat) as [H|H].
  - rewrite lookup_app_l by (rewrite length_drop; lia). by rewrite lookup_drop, Nat.mod_small.
  - rewrite lookup_app_r by (rewrite length_drop; lia). rewrite length_drop, lookup_take_lt by lia.
    f_equal. rewrite (Nat.Div0.mod_eq (off + k)).
    replace ((off + k) / length l)%nat with 1%nat; [lia|].
    apply (Nat.div_unique _ _ _ (off + k - length l)); lia.
Qed.

(** The window is a stretch of the rotated list. *)
Lemma capture_window_rotation full window rotate cycle :
  full <> [] -> 0 <= window ->
  exists off, capture_window full window rotate cycle =
    take (Z.to_nat window) (drop off full ++ take off full).
Proof.
  intros Hne Hw. assert (Hn : 0 < Z.of_nat (length full)) by (destruct full; [done|cbn; lia]).
  unfold capture_window. set (n := Z.of_nat (length full)) in *. set (off := if rotate then _ else 0).
  assert (Ho : 0 <= off < n).
  { unfold off. destruct rotate; [|lia]. apply Z.mod_pos_bound. lia. }
  exists (Z.to_nat off).
  assert (Hlen : length (drop (Z.to_nat off) full ++ take (Z.to_nat off) full) = length full).
  { rewrite length_app, length_drop, length_take. lia. }
  assert (Htk : take (Z.to_nat window) (drop (Z.to_nat off) full ++ take (Z.to_nat off) full) =
                take (Z.to_nat (Z.min window n)) (drop (Z.to_nat off) full ++ take (Z.to_nat off) full)).
  { destruct (Z.min_spec window n) as [[_ ->]|[Hle ->]]; [done|].
    by rewrite (take_ge _ (Z.to_nat window)), (take_ge _ (Z.to_nat n)) by (rewrite Hlen; lia). }
  rewrite Htk. apply omap_seq_take; [rewrite Hlen; lia|]. intros k Hk. rewrite lookup_rotated by lia. f_equal.
  unfold n. rewrite <- (Nat2Z.id ((Z.to_nat off + k) mod length full)), Nat2Z.inj_mod. f_equal. f_equal. lia.
Qed.

Lemma capture_peer_elem l ip (st : gset string * list string) :
  ip ∈ (foldl capture_peer st l).2 -> ip ∈ st.2 \/ ip ∈ l.
Proof.
  revert st. induction l as [|x l IH]; intros st; cbn [foldl]; [by left|]. intros [H|H]%IH.
  - unfold capture_peer in H. case_bool_decide; [by left|]. cbn in H.
    apply elem_of_app in H as [H|H]; [by left|right]. apply list_elem_of_singleton in H. subst. by left.
  - right. by right.
Qed.

Lemma capture_peer_NoDup l (st : gset string * list string) :
  NoDup st.2 -> (forall ip, ip ∈ st.2 <-> ip ∈ st.1) -> NoDup (foldl capture_peer st l).2.
Proof.
  revert st. induction l as [|x l IH]; intros st Hn He; cbn [foldl]; [done|].
  apply IH; unfold capture_peer; case_bool_decide as Hx; cbn; try done.
  - apply NoDup_app. split_and!; [done| |apply NoDup_singleton].
    intros y Hy ->%list_elem_of_singleton. apply Hx, He, Hy.
  - intros ip. rewrite elem_of_app, He, list_elem_of_singleton. set_solver.
Qed.

(** The peers of a race: never a priority peer, from the pool, or without a fresh cache from the
    candidates that are not blacklisted; each once. *)
Lemma refresh_peers_spec t i fresh fails cycle :
  let l := refresh_peers t i fresh fails cycle in
  Forall (fun ip => Priority.contains t ip = false /\
     (ip ∈ ri_pool i \/ fresh = false /\ ip ∈ filtered (ri_bl i) (ri_candidates i))) l /\
  (NoDup (ri_pool i) -> NoDup l) /\ Z.of_nat (length l) <= (if fresh then 24 else 64).
Proof.
  unfold refresh_peers. set (cands := bootstrap_capture_peers _ _ _ _). set (full := strip t cands).
  assert (Hin : forall ip, ip ∈ full -> Priority.contains t ip = false /\
     (ip ∈ ri_pool i \/ fresh = false /\ ip ∈ filtered (ri_bl i) (ri_candidates i))).
  { intros ip Hip. assert (Hc : Priority.contains t ip = false /\ ip ∈ cands).
    { unfold full, strip in Hip. destruct (is_empty t) eqn:E.
      - split; [|done]. unfold is_empty in E. unfold Priority.contains, index. zify_bool. by rewrite E.
      - by apply list_elem_of_filter in Hip. }
    destruct Hc as [? Hc]. split; [done|]. unfold cands, bootstrap_capture_peers in Hc.
    destruct fresh; cbn [negb] in Hc; [by left|]. apply capture_peer_elem in Hc as [?|?]; [by left|by right]. }
  assert (Hnd : NoDup (ri_pool i) -> NoDup full).
  { intros Hp. assert (NoDup cands).
    { unfold cands, bootstrap_capture_peers. destruct (negb (negb fresh)); [done|].
      apply capture_peer_NoDup; [done|]. intros ip. cbn. by rewrite elem_of_list_to_set. }
    unfold full, strip. destruct (is_empty t); [done|]. by apply NoDup_filter. }
  case_bool_decide as Hf; [split_and!; [by apply Forall_nil_2|intros; apply NoDup_nil_2|destruct fresh; cbn; lia]|].
  destruct (capture_window_rotation full (if fresh then 24 else 64) (fresh || (0 <? fails)) cycle Hf) as [off ->];
    [by destruct fresh|].
  assert (Hperm : drop off full ++ take off full ≡ₚ full) by (rewrite Permutation_app_comm, take_drop; done).
  split_and!.
  - apply Forall_take, Forall_forall. intros ip Hip. apply Hin. by rewrite <- Hperm.
  - intros Hp. eapply sublist_NoDup; [|apply sublist_take]. rewrite Hperm. auto.
  - rewrite length_take. destruct fresh; lia.
Qed.

Lemma retry_delay_range now cached_at : 1 <= fresh_cache_retry_delay_secs now cached_at <= CACHE_REFRESH_RETRY_SECS.
Proof. unfold fresh_cache_retry_delay_secs, CACHE_REFRESH_RETRY_SECS. case_if; lia. Qed.

(** A postponed refresh wakes again while the cache is fresh. *)
Lemma retry_delay_in_time now cached_at live :
  should_delay_cache_refresh_for_live_pool now cached_at live = true ->
  now + fresh_cache_retry_delay_secs now cached_at
    <= cached_at + MAX_BOOTSTRAP_CACHE_AGE_SECS - CACHE_REFRESH_FORCE_BEFORE_EXPIRY_SECS.
Proof.
  unfold should_delay_cache_refresh_for_live_pool, fresh_cache_retry_delay_secs, seconds_left, sat_sub,
    MAX_BOOTSTRAP_CACHE_AGE_SECS, CACHE_REFRESH_FORCE_BEFORE_EXPIRY_SECS, CACHE_REFRESH_RETRY_SECS.
  intros H. unroll; lia.
Qed.

(** After a failed race too, unless the last stretch has begun. *)
Lemma retry_delay_after now cached_at :
  fresh_cache_retry_delay_secs now cached_at
    <= Z.max 1 (cached_at + MAX_BOOTSTRAP_CACHE_AGE_SECS - CACHE_REFRESH_FORCE_BEFORE_EXPIRY_SECS - now).
Proof.
  unfold fresh_cache_retry_delay_secs, seconds_left, sat_sub, MAX_BOOTSTRAP_CACHE_AGE_SECS,
    CACHE_REFRESH_FORCE_BEFORE_EXPIRY_SECS, CACHE_REFRESH_RETRY_SECS. case_if; lia.
Qed.

Section RefreshProperties.
Variable lz4_decompress : bytes -> option bytes.

End RefreshProperties.

(** ** The cache shared by the tap and the refresh loop *)

(** The accesses to the shared blob and stamp, one each. *)
Inductive cache_access :=
| StoreBlob (blob : bytes)
| StoreStamp (now : Z)
| FreeBlob.

Definition cache_access_step (c : CacheSink) (a : cache_access) : CacheSink :=
  match a with
  | StoreBlob b => mkSink (Some b) (boot_blob_cached_at c) (disk_cache_path c) (persisting c)
  | StoreStamp now => mkSink (boot_blob c) now (disk_cache_path c) (persisting c)
  | FreeBlob => mkSink None (boot_blob_cached_at c) (disk_cache_path c) (persisting c)
  end.

(** The store of a turn on a cache no one else writes: the blob, its stamp, and a task that persists
    the blob where the gateway has a cache file. *)
Definition refresh_store (e : TurnEffects) (c : CacheSink) : CacheSink :=
  match te_store e with
  | Some (b, now) => sink_store b now c
  | None => c
  end.

(** The turn stores in the order of the accesses above. *)
Lemma refresh_store_accesses e b now c :
  te_store e = Some (b, now) -> disk_cache_path c = None -> persisting c = [] ->
  refresh_store e c = foldl cache_access_step c [StoreBlob b; StoreStamp now].
Proof. intros He Hd Hp. unfold refresh_store, sink_store. rewrite He. cbn. by rewrite Hd, Hp. Qed.

(** The tap stores a capture and then its stamp; the refresh loop reads in between, sees a blob with
    the old stamp, and frees the capture the moment it is installed. The stamp then says fresh, and
    nothing is cached. *)
Example fresh_capture_freed_between_its_stores :
  let c0 := mkSink None 0 None [] in
  let c1 := cache_access_step c0 (StoreBlob [7]) in
  let i := mkRefreshIn (bool_decide (is_Some (boot_blob c1))) 1000 (boot_blob_cached_at c1) [] [] bl_initial None 1000 1000 in
  let e := (refresh_turn (fun _ => None) (tier_new [] 0 0 Fallback) (mkRefresh 0 0) i).1 in
  let c2 := cache_access_step c1 (StoreStamp 1000) in
  te_free e = true /\ cache_access_step c2 FreeBlob = mkSink None 1000 None [] /\
  is_bootstrap_cache_fresh 1000 1000 = true.
Proof. vm_compute. split_and!; reflexivity. Qed.
