(* ===== verification/Pace.v ===== *)
(** Pace reference streams: [src/gateway/pace.rs].

    The references share the set of peers in use, their own cooldown and the freshest round. A run
    interleaves the steps of all references with changes of the pool and of the freshest round. *)

From S2P Require Import Prelude Text Wire Freshest FailoverSession.

Definition PACE_IDLE : Z := seconds 10.
Definition PACE_RETRY : Z := seconds 2.
Definition PACE_COOLDOWN : Z := seconds 60.
Definition PACE_FIRST_BLOCK : Z := seconds 30.
Definition PACE_REFERENCES : nat := 2.

Record PaceEnd := mkEnd { pe_reason : string; pe_cool : bool }.

(** [PaceEnd::from]. *)
Definition cooled_end (reason : string) : PaceEnd := mkEnd reason true.

(** A reference: waiting with its next index, connecting to its claimed peer, or following it. *)
Inductive Ref :=
| Waiting (next : Z)
| Dialing (next : Z) (ip : string)
| Following (next : Z) (ip : string) (h : FreshestFeed) (started : Z) (p : BlockProgress).

Record Pace := mkPace {
  pc_pool : list string;
  pc_in_use : gset string;
  pc_cooled : gmap string Z;
  pc_fresh : FreshestRound;
  pc_refs : list Ref
}.

(** The choice under the locks: the cooldown is purged, a peer is picked and claimed. *)
Definition live_cooldowns (cooled : gmap string Z) (now : Z) : gmap string Z :=
  filter (fun e => now < e.2) cooled.

Definition pace_choices (pool : list string) (busy : gset string) (cooled : gmap string Z) : list string :=
  filter (fun ip => (ip ∉ busy) /\ cooled !! ip = None) pool.

Definition claim_peer (pool : list string) (busy : gset string) (cooled : gmap string Z) (next : Z) : option string :=
  let peers := pace_choices pool busy cooled in
  if bool_decide (peers = []) then None
  else peers !! Z.to_nat (next mod Z.of_nat (length peers)).

(** The clock of [follow_pace]'s loop, the read, the network tip, and the clocks [offer] and [get]
    read themselves. *)
Record PaceTurn := mkPaceTurn {
  pt_now : Z;
  pt_read : string + bytes;
  pt_tip : Z;
  pt_offer_now : Z;
  pt_get_now : Z
}.

Section Follow.
Context `{HashOrder}.
Variable lz4_decompress : bytes -> option bytes.

Definition live_frame_round (frame : bytes) : option Z :=
  if (length frame <=? 5)%nat || negb (byte_at frame 4 =? 1) then None
  else block_round lz4_decompress (drop 5 frame).

(** One turn of the loop of [follow_pace]: it ends, or goes on with its feed and progress. *)
Definition follow_turn (fr : FreshestRound) (h : FreshestFeed) (started : Z) (p : BlockProgress) (t : PaceTurn)
    : FreshestRound * (PaceEnd + FreshestFeed * BlockProgress) :=
  if (last_round p =? 0) && (PACE_FIRST_BLOCK <? pt_now t - started) then
    (fr, inl (cooled_end ("no block round within " +:+ show (as_secs PACE_FIRST_BLOCK) +:+ "s")))
  else if stalled p (pt_now t) then
    (fr, inl (cooled_end ("no block above round " +:+ show (last_round p))))
  else
    match pt_read t with
    | inl e => (fr, inl (cooled_end ("read: " +:+ e)))
    | inr frame =>
        match live_frame_round frame with
        | None => (fr, inr (h, p))
        | Some round =>
            if negb (is_plausible_mainnet_round round (pt_tip t)) then
              (fr, inl (cooled_end ("implausible round " +:+ show round)))
            else
              match on_round p round (pt_now t) with
              | None => (fr, inl (cooled_end (jump_text round (last_round p))))
              | Some p =>
                  let '(h, fr) := feed_offer fr h (pt_tip t) round (pt_offer_now t) in
                  match lagging p (fresh_get fr (pt_tip t) (pt_get_now t)) (lag_rounds fr) (grace fr) false (pt_now t) with
                  | (Some behind, _) =>
                      (fr, inl (mkEnd ("lags the freshest stream by " +:+ show behind +:+ " rounds") false))
                  | (None, p) => (fr, inr (h, p))
                  end
              end
        end
    end.

(** ** All references *)

Inductive pace_event :=
| PClaim (k : nat) (now : Z)
| PConnected (k : nat) (now : Z)
| PConnectFailed (k : nat) (e : string) (now : Z)
| PTurn (k : nat) (t : PaceTurn) (now : Z)
| PPool (pool : list string)
| PFresh (fr : FreshestRound).

Definition set_ref (s : Pace) (fr : FreshestRound) (k : nat) (r : Ref) : Pace :=
  mkPace (pc_pool s) (pc_in_use s) (pc_cooled s) fr (<[k := r]> (pc_refs s)).

(** After [follow_pace]: the peer is free again, and avoided for a while if it misbehaved. *)
Definition pace_over (s : Pace) (fr : FreshestRound) (k : nat) (next : Z) (ip : string) (e : PaceEnd) (now : Z)
    : Pace :=
  mkPace (pc_pool s) (pc_in_use s ∖ {[ip]})
    (if pe_cool e then <[ip := now + PACE_COOLDOWN]> (pc_cooled s) else pc_cooled s) fr
    (<[k := Waiting next]> (pc_refs s)).

Definition run_pace_reference (s : Pace) (e : pace_event) : Pace :=
  match e with
  | PClaim k now =>
      match pc_refs s !! k with
      | Some (Waiting next) =>
          let cooled := live_cooldowns (pc_cooled s) now in
          match claim_peer (pc_pool s) (pc_in_use s) cooled next with
          | None => mkPace (pc_pool s) (pc_in_use s) cooled (pc_fresh s) (pc_refs s)
          | Some ip =>
              mkPace (pc_pool s) ({[ip]} ∪ pc_in_use s) cooled (pc_fresh s)
                (<[k := Dialing ((next + 1) mod 2 ^ 64) ip]> (pc_refs s))
          end
      | _ => s
      end
  | PConnected k now =>
      match pc_refs s !! k with
      | Some (Dialing next ip) =>
          let '(h, fr) := feed (pc_fresh s) ip in
          set_ref s fr k (Following next ip h now (BlockProgress_new 0 now))
      | _ => s
      end
  | PConnectFailed k e now =>
      match pc_refs s !! k with
      | Some (Dialing next ip) => pace_over s (pc_fresh s) k next ip (cooled_end ("connect: " +:+ e)) now
      | _ => s
      end
  | PTurn k t now =>
      match pc_refs s !! k with
      | Some (Following next ip h started p) =>
          match follow_turn (pc_fresh s) h started p t with
          | (fr, inl e) => pace_over s (feed_drop fr h) k next ip e now
          | (fr, inr (h, p)) => set_ref s fr k (Following next ip h started p)
          end
      | _ => s
      end
  | PPool pool => mkPace pool (pc_in_use s) (pc_cooled s) (pc_fresh s) (pc_refs s)
  | PFresh fr => mkPace (pc_pool s) (pc_in_use s) (pc_cooled s) fr (pc_refs s)
  end.
End Follow.

Definition pace_start (pool : list string) (fr : FreshestRound) (n : nat) : Pace :=
  mkPace pool ∅ ∅ fr (Waiting ∘ Z.of_nat <$> seq 0 n).

(** ** Lemmas *)

Definition claimed (r : Ref) : option string :=
  match r with
  | Waiting _ => None
  | Dialing _ ip | Following _ ip _ _ _ => Some ip
  end.

Definition claims (s : Pace) : list string := omap claimed (pc_refs s).

Definition pace_inv (s : Pace) : Prop := NoDup (claims s) /\ pc_in_use s = list_to_set (claims s).

Lemma claim_peer_spec pool busy cooled next ip :
  claim_peer pool busy cooled next = Some ip -> ip ∈ pool /\ (ip ∉ busy) /\ cooled !! ip = None.
Proof.
  unfold claim_peer. case_bool_decide; [done|]. intros Hl%list_elem_of_lookup_2.
  unfold pace_choices in Hl. apply list_elem_of_filter in Hl. tauto.
Qed.

Lemma claim_peer_none pool busy cooled next :
  claim_peer pool busy cooled next = None -> forall ip, ip ∈ pool -> ip ∈ busy \/ is_Some (cooled !! ip).
Proof.
  unfold claim_peer. case_bool_decide as E.
  - intros _ ip Hip. destruct (decide (ip ∈ busy)) as [|Hb]; [by left|]. right.
    destruct (cooled !! ip) eqn:Ec; [eauto|]. exfalso.
    assert (Hin : ip ∈ pace_choices pool busy cooled) by (by apply list_elem_of_filter).
    rewrite E in Hin. by apply not_elem_of_nil in Hin.
  - intros Hn%lookup_ge_None. set (l := pace_choices pool busy cooled) in *.
    assert (0 < Z.of_nat (length l)) by (destruct l; [done|cbn; lia]).
    pose proof (Z.mod_pos_bound next (Z.of_nat (length l)) ltac:(lia)). lia.
Qed.

Section Invariant.
Context `{HashOrder}.
Variable lz4_decompress : bytes -> option bytes.

Lemma pace_keep_inv s k r r' pool cooled fr :
  pc_refs s !! k = Some r -> claimed r' = claimed r -> pace_inv s ->
  pace_inv (mkPace pool (pc_in_use s) cooled fr (<[k := r']> (pc_refs s))).
Proof.
  intros Hk Hc [Hn Hu]. destruct (omap_insert claimed _ k r Hk) as (rest & H1 & H2). specialize (H2 r'). rewrite Hc in H2.
  assert (Hp : omap claimed (<[k := r']> (pc_refs s)) ≡ₚ claims s) by (unfold claims; by rewrite H1, H2).
  unfold pace_inv, claims. cbn. rewrite Hp. by split.
Qed.

Lemma pace_over_inv s fr k r next ip e now :
  pc_refs s !! k = Some r -> claimed r = Some ip -> pace_inv s -> pace_inv (pace_over s fr k next ip e now).
Proof.
  intros Hk Hc [Hn Hu]. destruct (omap_insert claimed _ k r Hk) as (rest & H1 & H2). specialize (H2 (Waiting next)).
  rewrite Hc in H1. cbn in H1, H2. unfold claims in *. rewrite H1 in Hn. apply NoDup_cons in Hn as [Hni Hn].
  unfold pace_inv, pace_over, claims. cbn. rewrite H2. split; [done|]. rewrite Hu, H1. set_solver.
Qed.

Lemma pace_step_inv s e : pace_inv s -> pace_inv (run_pace_reference lz4_decompress s e).
Proof.
  intros Hi. destruct e as [k now|k now|k e now|k t now|pool|fr]; cbn; [..|done|done].
  all: destruct (pc_refs s !! k) as [[next|next ip|next ip h started p]|] eqn:Hk; try done.
  - destruct (claim_peer _ _ _ _) as [ip|] eqn:Ec; [|done]. apply claim_peer_spec in Ec as (_ & Hb & _).
    destruct (omap_insert claimed _ k _ Hk) as (rest & H1 & H2). specialize (H2 (Dialing ((next + 1) mod 2 ^ 64) ip)).
    cbn in H1, H2. destruct Hi as [Hn Hu]. unfold pace_inv, claims in *. cbn. rewrite H2.
    split.
    + apply NoDup_cons. rewrite <- H1. split; [|done]. rewrite Hu in Hb. by rewrite elem_of_list_to_set in Hb.
    + rewrite Hu, H1. done.
  - by eapply pace_keep_inv.
  - by eapply pace_over_inv.
  - destruct (follow_turn _ _ _ _ _ _) as [fr [e|[h' p']]]; [by eapply pace_over_inv|by eapply pace_keep_inv].
Qed.

Lemma pace_start_inv pool fr n : pace_inv (pace_start pool fr n).
Proof.
  unfold pace_inv, claims, pace_start. cbn.
  assert (E : forall l, omap claimed ((Waiting ∘ Z.of_nat) <$> l) = []) by (induction l; done).
  rewrite E. split; [apply NoDup_nil_2|done].
Qed.

(** Under every interleaving of the references with each other and with the pool: no two
    references are ever on the same peer, and the peers in use are exactly those a reference is on,
    so no claim leaks. A waiting reference claims a peer of the pool that is neither in use nor
    cooling down, and claims none only if the pool has no such peer. *)
Theorem pace_references_never_share (pool : list string) (fr : FreshestRound) (n : nat) (evs : list pace_event)
    (k : nat) (now : Z) :
  let s := foldl (run_pace_reference lz4_decompress) (pace_start pool fr n) evs in
  NoDup (claims s) /\ pc_in_use s = list_to_set (claims s) /\
  match pc_refs s !! k, pc_refs (run_pace_reference lz4_decompress s (PClaim k now)) !! k with
  | Some (Waiting _), Some (Dialing _ ip) =>
      ip ∈ pc_pool s /\ (ip ∉ pc_in_use s) /\ forall until, pc_cooled s !! ip = Some until -> until <= now
  | Some (Waiting _), _ =>
      forall ip, ip ∈ pc_pool s -> ip ∈ pc_in_use s \/ exists until, pc_cooled s !! ip = Some until /\ now < until
  | _, _ => True
  end.
Proof.
  intros s. assert (Hi : pace_inv s).
  { unfold s. apply foldl_inv; [apply pace_start_inv|]. intros; by apply pace_step_inv. }
  split_and!; [apply Hi|apply Hi|]. cbn [run_pace_reference].
  destruct (pc_refs s !! k) as [[next|next ip|next ip h started p]|] eqn:Hk; [|done..].
  destruct (claim_peer _ _ _ _) as [ip|] eqn:Ec; cbn [pc_refs].
  - rewrite list_lookup_insert_eq by (by eapply lookup_lt_Some).
    apply claim_peer_spec in Ec as (? & ? & Hc). split_and!; [done|done|]. intros u Hu.
    unfold live_cooldowns in Hc. rewrite map_lookup_filter, Hu in Hc. cbn in Hc.
    destruct (decide (now < u)) as [Hlt|]; [|lia]. rewrite option_guard_True in Hc by done. done.
  - rewrite Hk. intros ip Hip. destruct (claim_peer_none _ _ _ _ Ec ip Hip) as [?|[until Hu]]; [by left|right].
    exists until. unfold live_cooldowns in Hu. by apply map_lookup_filter_Some in Hu.
Qed.
End Invariant.
