(* ===== verification/Gateway.v ===== *)
(** The gateway around its sessions: [src/gateway/mod.rs], [src/gateway/session.rs] and the replay
    guard of [src/gateway/cache.rs].

    The refresher of the pool and the network tip; the cooldown of pool peers whose session failed;
    routing of a connection; the begin and end of a push session; bootstrap sessions of all nodes
    with the replay guard and the tap permit they contend for. *)

From S2P Require Import Prelude Text Blacklist Wire Priority Freshest PushSession Node Peers Sources Race FailoverSession ClientBlocks ClientFetch Relay Cache.

Definition PEER_FILE_TIP_MAX_AGE : Z := seconds (15 * 60).
Definition SESSION_FAULT_COOLDOWN : Z := seconds 30.
Definition RELAY_UPSTREAM_IDLE : Z := seconds 60.

(** ** The pool refresher *)

(** [contents] is the peer file, empty when it cannot be read. *)
Definition read_pool (bl : Blacklist) (t : PriorityTier) (contents : list string) : list string :=
  filtered bl (strip t (read_node_peers contents)).

Definition next_net_tip (fresh : option Z) (since_fresh : Z) : option Z :=
  match fresh with
  | Some tip => Some tip
  | None => if PEER_FILE_TIP_MAX_AGE <? since_fresh then Some 0 else None
  end.

(** [age] is the age of the peer file, if the file system tells; [contents] what is read. *)
Definition fresh_peer_file_tip (age : option Z) (contents : option string) : option Z :=
  match age with
  | None => None
  | Some age =>
      if PEER_FILE_TIP_MAX_AGE <? age then None
      else match contents with Some s => extract_round_tip s | None => None end
  end.

Record Refresher := mkRefresher { rp_pool : list string; rp_tip : Z; rp_last_fresh : Z }.

(** A turn of the refresher: the reloaded blacklist, the peer file, its age and contents, and the
    clock. *)
Record PoolTurn := mkPoolTurn {
  po_bl : Blacklist;
  po_file : list string;
  po_age : option Z;
  po_contents : option string;
  po_now : Z
}.

Definition refresh_pool (t : PriorityTier) (s : Refresher) (i : PoolTurn) : Refresher :=
  let p := read_pool (po_bl i) t (po_file i) in
  let pool := if bool_decide (p = [])
              then filter (fun ip => Blacklist.contains (po_bl i) ip = false) (rp_pool s) else p in
  let fresh := fresh_peer_file_tip (po_age i) (po_contents i) in
  let last_fresh := match fresh with Some _ => po_now i | None => rp_last_fresh s end in
  mkRefresher pool (default (rp_tip s) (next_net_tip fresh (since (po_now i) last_fresh))) last_fresh.

(** The state [run_gateway] starts with. *)
Definition refresher_start (t : PriorityTier) (i : PoolTurn) : Refresher :=
  mkRefresher (read_pool (po_bl i) t (po_file i))
    (default 0 (fresh_peer_file_tip (po_age i) (po_contents i))) (po_now i).

(** ** Peer cooldown *)

Abbreviation PeerCooldown := (gmap string Z).

Definition cooling_at (m : PeerCooldown) (now : Z) : PeerCooldown := filter (fun e => now < e.2) m.

Definition mark (m : PeerCooldown) (ip : string) (now : Z) : PeerCooldown :=
  <[ip := now + SESSION_FAULT_COOLDOWN]> (cooling_at m now).

Definition usable_peers (m : PeerCooldown) (peers : list string) (now : Z) : list string * PeerCooldown :=
  let m := cooling_at m now in
  if bool_decide (m = ∅) then (peers, m)
  else
    let out := filter (fun ip => match m !! ip with Some until => until <=? now | None => true end = true) peers in
    (if bool_decide (out = []) then peers else out, m).

Definition cool_down (t : PriorityTier) (m : PeerCooldown) (ip : string) (now : Z) : PriorityTier * PeerCooldown :=
  if Priority.contains t ip then (mark_failed_at t ip now, m) else (t, mark m ip now).

Definition cool_down_on_fault (t : PriorityTier) (m : PeerCooldown) (ip reason : string) (now : Z)
    : PriorityTier * PeerCooldown :=
  if push_exit_is_upstream_fault reason then cool_down t m ip now else (t, m).

(** ** Routing *)

Inductive Route :=
| Closed
| Bootstrap4001 (greet : bytes)
| Live4001 (greet : bytes)
| ClientBlocks4002
| Spliced.

(** [greet] is the greeting read from a 4001 connection, if it came in time. *)
Definition route (port : Z) (t : PriorityTier) (usable : list string) (greet : option bytes) : Route :=
  if bool_decide (usable = []) && is_empty t then Closed
  else if port =? 4001 then
    match greet with
    | None => Closed
    | Some greet => if byte_at greet 5 =? 1 then Bootstrap4001 greet else Live4001 greet
    end
  else if should_fetch_forward_client_blocks port then ClientBlocks4002
  else Spliced.

(** The peer [dial_active] connects to. [polls] are the snapshots of its fifteen polls; [n] is the
    node after them. *)
Definition dial_active {P} `{UpstreamFilter} (n : NodeState P) (polls : list (option ActivePeer))
    (t : PriorityTier) (now : Z) (peers : list string) (rr : nat) : option ActivePeer * NodeState P * nat :=
  match head (omap id (take 15 polls)) with
  | Some peer => (Some peer, n, rr)
  | None =>
      let '(target, rr) :=
        if bool_decide (peers = []) || negb (pool_allowed t now) then (head (candidates_at t now), rr)
        else (peers !! (rr mod length peers)%nat, S rr) in
      match target with
      | None => (None, n, rr)
      | Some ip => let '(peer, n) := pin_lazy_active n ip in (Some peer, n, rr)
      end
  end.

(** ** Push sessions *)

(** The slot a session runs with: the one selection took, or one it takes itself. *)
Definition session_slot (t : PriorityTier) (slot : option nat) (ip : string) : option nat * PriorityTier :=
  match slot with
  | Some i => (Some i, t)
  | None => match acquire t ip with Some (i, t) => (Some i, t) | None => (None, t) end
  end.

(** The watchers that may end the session: the return to a priority peer, a stuck catch-up. *)
Definition watchers (standbys : Z) (t : PriorityTier) (ip : string) : bool * bool :=
  ((standbys =? 0) && negb (is_empty t) && negb (Priority.contains t ip), standbys =? 0).

(** ** Bootstrap sessions *)

(** The loads of [cache_replay_blob], then its exchange of [replay_in_flight]. *)
Definition replay_wanted (now last : Z) (has_active_session : bool) (cached_at : Z) (blob : option bytes)
    : option bytes :=
  match blob with
  | Some b => if should_replay_cache now last has_active_session cached_at then Some b else None
  | None => None
  end.

Definition replay_claim (in_flight : bool) (blob : bytes) : option bytes * bool :=
  if in_flight then (None, true) else (Some blob, true).

Definition cache_replay_blob (now last : Z) (has_active_session : bool) (cached_at : Z) (blob : option bytes)
    (in_flight : bool) : option bytes * bool :=
  match replay_wanted now last has_active_session cached_at blob with
  | Some b => replay_claim in_flight b
  | None => (None, in_flight)
  end.

(** A session of [handle_4001_bootstrap]: it has read the cache's state; replays the blob; looks for a
    serving peer; relays with the tap's permit or without it; is over. *)
Inductive BootSession :=
| BGreeted (node : Z) (wanted : option bytes)
| BReplaying (node : Z) (blob : bytes)
| BSelecting (node : Z)
| BTapping (node : Z)
| BRelaying (node : Z)
| BOver.

Record Bootstraps := mkBoots {
  bs_cache : CacheSink;
  bs_in_flight : gset Z;            (* nodes whose [replay_in_flight] is set *)
  bs_last_replay : gmap Z Z;        (* [last_cache_replay_secs] *)
  bs_tap_free : bool;               (* the permit of [capture_tap] *)
  bs_sessions : list BootSession
}.

Inductive boot_session_event :=
| BGreet (node : Z) (now : Z) (has_active : bool)
| BDecide (k : nat) (now : Z)
| BReplayed (k : nat) (ok : bool) (now : Z)
| BServed (k : nat)
| BTapReleased (k : nat)
| BEnd (k : nat)
| BCache (c : CacheSink).

Definition set_boot (s : Bootstraps) (k : nat) (b : BootSession) (in_flight : gset Z) (last : gmap Z Z)
    (tap_free : bool) : Bootstraps :=
  mkBoots (bs_cache s) in_flight last tap_free (<[k := b]> (bs_sessions s)).

(** What a session gives back when it ends or is dropped. *)
Definition drop_boot (s : Bootstraps) (k : nat) (b b' : BootSession) : Bootstraps :=
  set_boot s k b'
    (match b with BReplaying n _ => bs_in_flight s ∖ {[n]} | _ => bs_in_flight s end)
    (bs_last_replay s)
    (match b with BTapping _ => true | _ => bs_tap_free s end).

(** One step of one session: the greeting with the loads of [cache_replay_blob]; its exchange and the
    stamp of [replay_cache_then_live]; the end of the replay's writes; in [transparent_bootstrap] the
    choice of a peer with the tap's permit, the tap letting go of it, and the end. *)
Definition handle_4001_bootstrap (cache_coldstart : bool) (s : Bootstraps) (e : boot_session_event) : Bootstraps :=
  match e with
  | BGreet node now has_active =>
      let wanted :=
        if cache_coldstart then
          replay_wanted now (default 0 (bs_last_replay s !! node)) has_active
            (boot_blob_cached_at (bs_cache s)) (boot_blob (bs_cache s))
        else None in
      mkBoots (bs_cache s) (bs_in_flight s) (bs_last_replay s) (bs_tap_free s)
        (bs_sessions s ++ [BGreeted node wanted])
  | BDecide k now =>
      match bs_sessions s !! k with
      | Some (BGreeted node (Some blob)) =>
          match replay_claim (bool_decide (node ∈ bs_in_flight s)) blob with
          | (Some blob, _) =>
              set_boot s k (BReplaying node blob) ({[node]} ∪ bs_in_flight s)
                (<[node := now]> (bs_last_replay s)) (bs_tap_free s)
          | (None, _) => drop_boot s k (BGreeted node (Some blob)) (BSelecting node)
          end
      | Some (BGreeted node None) => drop_boot s k (BGreeted node None) (BSelecting node)
      | _ => s
      end
  | BReplayed k ok now =>
      match bs_sessions s !! k with
      | Some (BReplaying node blob) =>
          let s := drop_boot s k (BReplaying node blob) BOver in
          if ok then set_boot s k BOver (bs_in_flight s) (<[node := now]> (bs_last_replay s)) (bs_tap_free s)
          else s
      | _ => s
      end
  | BServed k =>
      match bs_sessions s !! k with
      | Some (BSelecting node) =>
          if cache_coldstart && bs_tap_free s
          then set_boot s k (BTapping node) (bs_in_flight s) (bs_last_replay s) false
          else drop_boot s k (BSelecting node) (BRelaying node)
      | _ => s
      end
  | BTapReleased k =>
      match bs_sessions s !! k with
      | Some (BTapping node) => drop_boot s k (BTapping node) (BRelaying node)
      | _ => s
      end
  | BEnd k => match bs_sessions s !! k with Some b => drop_boot s k b BOver | None => s end
  | BCache c => mkBoots c (bs_in_flight s) (bs_last_replay s) (bs_tap_free s) (bs_sessions s)
  end.

(** After the relay: a server that ended it early is not remembered; a priority peer never is. *)
Definition relay_begins (t : PriorityTier) (servers : list string) (ip : string) : list string :=
  if Priority.contains t ip then servers else remember_state_server servers ip.

Definition relay_over (servers : list string) (ip : string) (r : Relayed) : list string :=
  if rel_upstream_ended r && (to_node r <? MIN_COMPLETE_BOOTSTRAP_BYTES) then forget_state_server servers ip
  else servers.

(** The floor a replay sets: the rounds of its blob, bounded by the tip. *)
Definition replay_floor (lz4_decompress : bytes -> option bytes) (blob : bytes) (net_tip : Z) : Z :=
  bounded_cache_floor (default 0 (max_block_round_in_frames lz4_decompress blob)) net_tip.

(** The writes of a replay: the blob in chunks of eight megabytes; [ok] answers each write. *)
Fixpoint write_chunks (fuel : nat) (size : nat) (blob : bytes) (ok : nat -> bool) (k : nat) : bytes * bool :=
  match fuel with
  | O => ([], true)
  | S fuel =>
      match blob with
      | [] => ([], true)
      | _ =>
          if ok k then
            let '(sent, done) := write_chunks fuel size (drop size blob) ok (S k) in
            (take size blob ++ sent, done)
          else ([], false)
      end
  end.

Definition replay_writes (blob : bytes) (ok : nat -> bool) : bytes * bool :=
  write_chunks (length blob) (Z.to_nat (8 * 1024 * 1024)) blob ok 0.

(** ** Lemmas: the refresher *)

Lemma filtered_clean bl l : Forall (fun ip => Blacklist.contains bl ip = false) (filtered bl l).
Proof.
  unfold filtered. destruct (size (bl_list bl) =? 0)%nat eqn:E; apply Forall_forall; intros ip Hip.
  - unfold Blacklist.contains. by rewrite E.
  - by apply list_elem_of_filter in Hip as [? _].
Qed.

Lemma refresh_pool_clean t s i :
  Forall (fun ip => Blacklist.contains (po_bl i) ip = false) (rp_pool (refresh_pool t s i)).
Proof.
  unfold refresh_pool, read_pool. cbn. case_bool_decide; [|apply filtered_clean].
  apply Forall_forall. intros ip Hip. by apply list_elem_of_filter in Hip as [? _].
Qed.

Definition turn_tip (i : PoolTurn) : option Z := fresh_peer_file_tip (po_age i) (po_contents i).

(** The tip is unknown, or the latest fresh reading. *)
Definition tip_read (h : list PoolTurn) (s : Refresher) : Prop :=
  rp_tip s = 0 \/ exists j, j ∈ h /\ turn_tip j = Some (rp_tip s) /\ rp_last_fresh s = po_now j.

Lemma tip_read_step h t s i :
  tip_read h s -> tip_read (h ++ [i]) (refresh_pool t s i) /\
  (rp_tip (refresh_pool t s i) = 0 \/ since (po_now i) (rp_last_fresh (refresh_pool t s i)) <= PEER_FILE_TIP_MAX_AGE).
Proof.
  intros Hs. unfold tip_read, refresh_pool. cbn. fold (turn_tip i). destruct (turn_tip i) as [tip|] eqn:E; cbn.
  - split; [right; exists i; split; [apply elem_of_app; right; by left|by rewrite E]|].
    right. unfold since, PEER_FILE_TIP_MAX_AGE, seconds. lia.
  - destruct (Z.ltb_spec PEER_FILE_TIP_MAX_AGE (since (po_now i) (rp_last_fresh s))); cbn; [by split; left|].
    split; [|by right]. destruct Hs as [?|(j & ? & ?)]; [by left|right]. exists j. split; [|done].
    apply elem_of_app. by left.
Qed.

(** ** Properties: the refresher *)

(** After any turns of the refresher, with whatever the peer file holds: no address the current
    blacklist refuses is in the pool; a turn leaves the pool empty only if the file has no usable
    peer and every pool peer is blacklisted; and the network tip is unknown, or a reading of a peer
    file written at most fifteen minutes before its turn, that turn itself at most fifteen minutes
    ago. *)
Theorem pool_and_tip_stay_current (t : PriorityTier) (i0 i : PoolTurn) (turns : list PoolTurn) :
  let s := foldl (refresh_pool t) (refresher_start t i0) turns in
  let s' := refresh_pool t s i in
  Forall (fun ip => Blacklist.contains (po_bl i) ip = false) (rp_pool s') /\
  (rp_pool s' = [] ->
   read_pool (po_bl i) t (po_file i) = [] /\ Forall (fun ip => Blacklist.contains (po_bl i) ip = true) (rp_pool s)) /\
  (rp_tip s' = 0 \/
   exists j age, j ∈ i0 :: turns ++ [i] /\ turn_tip j = Some (rp_tip s') /\ po_age j = Some age /\
     age <= PEER_FILE_TIP_MAX_AGE /\ since (po_now i) (po_now j) <= PEER_FILE_TIP_MAX_AGE).
Proof.
  intros s s'. split; [apply refresh_pool_clean|]. split.
  - unfold s', refresh_pool. cbn. case_bool_decide as E; [|done]. intros Hf. split; [done|].
    apply Forall_forall. intros ip Hip. destruct (Blacklist.contains (po_bl i) ip) eqn:Ec; [done|exfalso].
    assert (Hin : ip ∈ filter (fun ip => Blacklist.contains (po_bl i) ip = false) (rp_pool s))
      by (by apply list_elem_of_filter). rewrite Hf in Hin. by apply not_elem_of_nil in Hin.
  - assert (Hh : tip_read (i0 :: turns) s).
    { unfold s. clear. change (i0 :: turns) with ([i0] ++ turns).
      assert (H0 : tip_read [i0] (refresher_start t i0)).
      { unfold tip_read, refresher_start, turn_tip. cbn. destruct (fresh_peer_file_tip _ _) as [tip|] eqn:E; [|by left].
        right. exists i0. split; [by left|]. by rewrite E. }
      revert H0. generalize [i0] (refresher_start t i0). induction turns as [|j turns IH]; intros h s0 Hs; cbn.
      - by rewrite app_nil_r.
      - replace (h ++ j :: turns) with ((h ++ [j]) ++ turns) by (by rewrite <- app_assoc).
        apply IH. by apply tip_read_step. }
    destruct (tip_read_step _ t s i Hh) as [[?|(j & Hj & Htip & Hl)] Hr]; [by left|].
    destruct Hr as [?|Hr]; [by left|right]. fold s' in Htip, Hl, Hr. rewrite Hl in Hr.
    pose proof Htip as Ha. unfold turn_tip, fresh_peer_file_tip in Ha.
    destruct (po_age j) as [age|] eqn:Eage; [|done].
    destruct (Z.ltb_spec PEER_FILE_TIP_MAX_AGE age); [done|]. by exists j, age.
Qed.

(** ** Lemmas: the peer cooldown *)

Inductive cooldown_op := CMark (ip : string) (now : Z) | CUsable (peers : list string) (now : Z).

Definition op_time (o : cooldown_op) : Z := match o with CMark _ now | CUsable _ now => now end.

Definition cooldown_step (m : PeerCooldown) (o : cooldown_op) : PeerCooldown :=
  match o with
  | CMark ip now => mark m ip now
  | CUsable peers now => (usable_peers m peers now).2
  end.

(** [ip] was marked less than the cooldown ago. *)
Definition marked (now : Z) (ip : string) (o : cooldown_op) : Prop :=
  match o with
  | CMark ip' t => ip' = ip /\ now < t + SESSION_FAULT_COOLDOWN
  | CUsable _ _ => False
  end.

#[global] Instance marked_dec now ip o : Decision (marked now ip o).
Proof. destruct o; cbn; apply _. Defined.

(** [m] holds exactly the marks of [ops] that still matter at [now] or later. *)
Definition remembers (m : PeerCooldown) (ops : list cooldown_op) (now : Z) : Prop :=
  (forall ip u, m !! ip = Some u -> u <= now + SESSION_FAULT_COOLDOWN) /\
  forall later ip, now <= later ->
    (exists u, m !! ip = Some u /\ later < u) <-> Exists (marked later ip) ops.

Lemma cooling_at_lookup m now ip u : cooling_at m now !! ip = Some u <-> m !! ip = Some u /\ now < u.
Proof. unfold cooling_at. by rewrite map_lookup_filter_Some. Qed.

Lemma remembers_purge m ops now t : t <= now -> remembers m ops t -> remembers (cooling_at m now) ops now.
Proof.
  intros Ht [Hb Hm]. split.
  - intros ip u [Hu _]%cooling_at_lookup. apply Hb in Hu. lia.
  - intros later ip Hl. rewrite <- Hm by lia. split; intros (u & Hu & ?); exists u.
    + apply cooling_at_lookup in Hu as [? _]. done.
    + split; [|done]. apply cooling_at_lookup. split; [done|lia].
Qed.

Lemma remembers_step m ops o t :
  t <= op_time o -> remembers m ops t -> remembers (cooldown_step m o) (ops ++ [o]) (op_time o).
Proof.
  intros Ht Hm. destruct (remembers_purge m ops (op_time o) t Ht Hm) as [Hb Hp].
  destruct o as [ip now|peers now]; cbn [op_time cooldown_step] in *.
  - split.
    + intros ip' u. unfold mark. destruct (decide (ip = ip')) as [<-|Hne].
      * rewrite lookup_insert_eq. intros [= <-]. lia.
      * rewrite lookup_insert_ne by done. apply Hb.
    + intros later ip' Hl. rewrite Exists_app, Exists_cons, Exists_nil, <- Hp by done. unfold mark, marked.
      destruct (decide (ip = ip')) as [<-|Hne].
      * rewrite lookup_insert_eq. split; [intros (u & [= <-] & ?); right; by left|].
        intros [(u & Hu & ?)|[[_ ?]|[]]]; [|by eexists]. eexists. split; [done|]. apply Hb in Hu. lia.
      * rewrite lookup_insert_ne by done. naive_solver.
  - assert (E : (usable_peers m peers now).2 = cooling_at m now).
    { unfold usable_peers. by case_bool_decide. }
    rewrite E. split; [done|].
    intros later ip Hl. rewrite Exists_app, Exists_cons, Exists_nil, <- Hp by done. cbn. naive_solver.
Qed.

Lemma remembers_run ops m h t :
  StronglySorted (fun a b => op_time a <= op_time b) ops -> Forall (fun o => t <= op_time o) ops ->
  remembers m h t ->
  forall now, t <= now -> Forall (fun o => op_time o <= now) ops ->
  remembers (cooling_at (foldl cooldown_step m ops) now) (h ++ ops) now.
Proof.
  intros Hs. revert m h t. induction Hs as [|o ops Hs IH Ho]; intros m h t Ht Hm now Hnow Hle; cbn.
  - rewrite app_nil_r. by eapply remembers_purge.
  - apply Forall_cons in Ht as [Ht _]. apply Forall_cons in Hle as [Hle1 Hle].
    rewrite cons_middle, app_assoc. apply (IH _ _ (op_time o)); [done|by eapply remembers_step|done|done].
Qed.

(** ** Properties: the peer cooldown *)

(** Whatever sessions ended on a fault and whatever connections asked before, in the order of
    the clock: the pool peers a new connection may use are exactly those whose last fault is at
    least [SESSION_FAULT_COOLDOWN] old, in the order of the pool; all of them if none is. *)
Theorem cooldown_leaves_exactly_the_rested (ops : list cooldown_op) (peers : list string) (now : Z) :
  StronglySorted (fun a b => op_time a <= op_time b) ops -> Forall (fun o => op_time o <= now) ops ->
  let rested := filter (fun ip => ~ Exists (marked now ip) ops) peers in
  (usable_peers (foldl cooldown_step ∅ ops) peers now).1 = if bool_decide (rested = []) then peers else rested.
Proof.
  intros Hs Hle rested.
  assert (Hr : remembers (cooling_at (foldl cooldown_step ∅ ops) now) ops now).
  { destruct ops as [|o ops].
    { cbn. split; [intros ip u Hu; by apply cooling_at_lookup in Hu as [? _]|].
      intros later ip _. split; [intros (u & Hu & _); by apply cooling_at_lookup in Hu as [? _]|by intros ?%Exists_nil]. }
    apply (remembers_run (o :: ops) ∅ [] (op_time o)); try done.
    - apply StronglySorted_inv in Hs as [_ Hs]. apply Forall_cons_2; [lia|done].
    - split; [done|]. intros later ip _. split; [by intros (u & ? & _)|by intros ?%Exists_nil].
    - by apply Forall_cons in Hle as [? _]. }
  destruct Hr as [_ Hr]. unfold usable_peers. set (m := cooling_at _ now) in *.
  assert (Hcool : forall ip, is_Some (m !! ip) <-> Exists (marked now ip) ops).
  { intros ip. rewrite <- Hr by lia. split; [intros [u Hu]; exists u; split; [done|]|intros (u & ? & _); by exists u].
    unfold m in Hu. by apply cooling_at_lookup in Hu as [_ ?]. }
  case_bool_decide as Em; cbn [fst].
  - assert (E : rested = peers).
    { apply filter_all, Forall_forall. intros ip _. rewrite <- Hcool, Em, lookup_empty. by intros [? ?]. }
    rewrite E. by case_bool_decide.
  - assert (E : filter (fun ip => match m !! ip with Some until => until <=? now | None => true end = true) peers = rested).
    { apply list_filter_iff. intros ip. rewrite <- Hcool. destruct (m !! ip) as [u|] eqn:Eu.
      - unfold m in Eu. apply cooling_at_lookup in Eu as [_ ?]. rewrite (proj2 (Z.leb_gt u now)) by done.
        split; [done|]. intros []. by eexists.
      - split; [by intros _ [? ?]|done]. }
    rewrite E. done.
Qed.

Lemma cooldown_leaves_exactly_the_rested_witness :
  let ops := [CMark "1.1.1.1" 0; CUsable [] (seconds 5); CMark "2.2.2.2" (seconds 20)] in
  let peers := ["1.1.1.1"; "2.2.2.2"; "3.3.3.3"]%string in
  (usable_peers (foldl cooldown_step ∅ ops) peers (seconds 30)).1 = ["1.1.1.1"; "3.3.3.3"]%string.
Proof.
  intros ops peers.
  etrans; [apply (cooldown_leaves_exactly_the_rested ops peers (seconds 30))|vm_compute; reflexivity].
  - repeat constructor; vm_compute; discriminate.
  - repeat (apply Forall_cons_2; [vm_compute; discriminate|]). apply Forall_nil_2.
Defined.

(** A mark outlasts every operation before its end. *)
Lemma marked_stays m ip at_ ops now :
  (exists u, m !! ip = Some u /\ at_ + SESSION_FAULT_COOLDOWN <= u) ->
  now < at_ + SESSION_FAULT_COOLDOWN -> Forall (fun o => at_ <= op_time o <= now) ops ->
  exists u, cooling_at (foldl cooldown_step m ops) now !! ip = Some u /\ now < u.
Proof.
  intros Hm Hu Ho. revert m Hm. induction Ho as [|o ops Ho _ IH]; intros m (u & Hm & Hle); cbn [foldl].
  { exists u. split; [|lia]. apply cooling_at_lookup. split; [done|lia]. }
  assert (Hc : cooling_at m (op_time o) !! ip = Some u) by (apply cooling_at_lookup; split; [done|lia]).
  apply IH. destruct o as [ip' t|peers t]; cbn [cooldown_step op_time] in *.
  - unfold mark. destruct (decide (ip' = ip)) as [->|Hne].
    + rewrite lookup_insert_eq. eexists. split; [done|lia].
    + rewrite lookup_insert_ne by done. eauto.
  - exists u. split; [|done]. unfold usable_peers. by case_bool_decide.
Qed.

(** A peer that cools down is offered only when every peer does. *)
Lemma usable_cooling m peers now ip :
  (exists u, cooling_at m now !! ip = Some u) -> ip ∈ (usable_peers m peers now).1 ->
  (usable_peers m peers now).1 = peers /\ Forall (fun ip => is_Some (cooling_at m now !! ip)) peers.
Proof.
  intros [u Hu]. unfold usable_peers. set (c := cooling_at m now) in *.
  assert (Hlate : forall ip v, c !! ip = Some v -> (v <=? now) = false).
  { intros ip' v Hv. unfold c in Hv. apply cooling_at_lookup in Hv as [_ ?]. by apply Z.leb_gt. }
  case_bool_decide as Ee; [by rewrite Ee, lookup_empty in Hu|]. cbn [fst]. case_bool_decide as Eo.
  - intros _. split; [done|]. apply Forall_forall. intros ip' Hip. destruct (c !! ip') eqn:Ec; [eauto|exfalso].
    eapply (not_elem_of_nil ip'). rewrite <- Eo. apply list_elem_of_filter. by rewrite Ec.
  - intros [Hf _]%list_elem_of_filter. rewrite Hu, (Hlate _ _ Hu) in Hf. done.
Qed.

(** ** Lemmas: bootstrap sessions *)

Definition replaying (b : BootSession) : option Z := match b with BReplaying n _ => Some n | _ => None end.
Definition tapping (b : BootSession) : option Z := match b with BTapping n => Some n | _ => None end.

(** The blob a session replays or is about to replay, and its node. *)
Definition replay_of (b : BootSession) : option (Z * bytes) :=
  match b with
  | BReplaying n blob | BGreeted n (Some blob) => Some (n, blob)
  | _ => None
  end.

Definition bootstraps_inv (s : Bootstraps) : Prop :=
  NoDup (omap replaying (bs_sessions s)) /\
  bs_in_flight s = list_to_set (omap replaying (bs_sessions s)) /\
  (length (omap tapping (bs_sessions s)) + (if bs_tap_free s then 1 else 0) = 1)%nat.

(** A session that changes neither its replay nor its permit. *)
Lemma set_boot_keeps s k b b' last :
  bs_sessions s !! k = Some b -> replaying b' = replaying b -> tapping b' = tapping b -> bootstraps_inv s ->
  bootstraps_inv (set_boot s k b' (bs_in_flight s) last (bs_tap_free s)).
Proof.
  intros Hk Hr Ht (H1 & H2 & H3).
  destruct (omap_insert replaying _ _ _ Hk) as (r1 & E1 & F1). specialize (F1 b'). rewrite Hr, <- E1 in F1.
  destruct (omap_insert tapping _ _ _ Hk) as (r2 & E2 & F2). specialize (F2 b'). rewrite Ht, <- E2 in F2.
  unfold bootstraps_inv, set_boot. cbn. rewrite F1, F2. by split_and!.
Qed.

(** A session that gives back what it holds. *)
Lemma drop_boot_inv s k b b' :
  bs_sessions s !! k = Some b -> replaying b' = None -> tapping b' = None -> bootstraps_inv s ->
  bootstraps_inv (drop_boot s k b b').
Proof.
  intros Hk Hr Ht (H1 & H2 & H3).
  destruct (omap_insert replaying _ _ _ Hk) as (r1 & E1 & F1). specialize (F1 b'). rewrite Hr in F1. cbn in F1.
  destruct (omap_insert tapping _ _ _ Hk) as (r2 & E2 & F2). specialize (F2 b'). rewrite Ht in F2. cbn in F2.
  rewrite E1 in H1. rewrite E2 in H3. rewrite E1 in H2. unfold bootstraps_inv, drop_boot, set_boot. cbn.
  rewrite F1, F2. apply NoDup_app in H1 as (_ & Hd & H1). rewrite length_app in H3.
  split_and!; [done| |]; destruct b; cbn in *; try done; try lia.
  - rewrite H2. specialize (Hd node ltac:(by left)). set_solver.
Qed.

Lemma boot_step_inv cache s e : bootstraps_inv s -> bootstraps_inv (handle_4001_bootstrap cache s e).
Proof.
  intros Hi. destruct e as [node now act|k now|k ok now|k|k|k|c]; cbn [handle_4001_bootstrap].
  - destruct Hi as (H1 & H2 & H3). unfold bootstraps_inv. cbn. rewrite !omap_app. cbn. rewrite !app_nil_r. by split_and!.
  - destruct (bs_sessions s !! k) as [[node [blob|]|?|?|?|?|]|] eqn:Hk; try done; [|by apply drop_boot_inv].
    unfold replay_claim. case_bool_decide as Hb; [by apply drop_boot_inv|].
    destruct Hi as (H1 & H2 & H3).
    destruct (omap_insert replaying _ _ _ Hk) as (r1 & E1 & F1). specialize (F1 (BReplaying node blob)).
    destruct (omap_insert tapping _ _ _ Hk) as (r2 & E2 & F2). specialize (F2 (BReplaying node blob)).
    cbn in E1, F1, E2, F2. unfold bootstraps_inv, set_boot. cbn. rewrite F1, F2, <- E2, <- E1.
    split_and!; [|by rewrite H2|done]. apply NoDup_cons. split; [|done].
    rewrite H2 in Hb. by rewrite elem_of_list_to_set in Hb.
  - destruct (bs_sessions s !! k) as [[?|node blob|?|?|?|]|] eqn:Hk; try done.
    assert (Hd : bootstraps_inv (drop_boot s k (BReplaying node blob) BOver)) by (by apply drop_boot_inv).
    destruct ok; [|done]. apply (set_boot_keeps _ _ BOver); [|done|done|done].
    cbn. apply list_lookup_insert_eq. by eapply lookup_lt_Some.
  - destruct (bs_sessions s !! k) as [[?|?|node|?|?|]|] eqn:Hk; try done.
    destruct (cache && bs_tap_free s) eqn:E; [|by apply drop_boot_inv].
    apply andb_true_iff in E as [_ E]. destruct Hi as (H1 & H2 & H3). rewrite E in H3.
    destruct (omap_insert replaying _ _ _ Hk) as (r1 & E1 & F1). specialize (F1 (BTapping node)).
    destruct (omap_insert tapping _ _ _ Hk) as (r2 & E2 & F2). specialize (F2 (BTapping node)).
    cbn in E1, F1, E2, F2. rewrite E2 in H3. unfold bootstraps_inv, set_boot. cbn. rewrite F1, F2, <- E1.
    split_and!; [done|done|]. cbn. lia.
  - destruct (bs_sessions s !! k) as [[?|?|?|node|?|]|] eqn:Hk; try done. by apply drop_boot_inv.
  - destruct (bs_sessions s !! k) as [b|] eqn:Hk; [|done]. by apply drop_boot_inv.
  - done.
Qed.

(** Where a replayed blob comes from: the cache at the greeting, when it was fresh and the node had
    no session. *)
Definition replay_source (caches : list CacheSink) (greets : list boot_session_event) (r : Z * bytes) : Prop :=
  exists c now last, c ∈ caches /\ BGreet r.1 now false ∈ greets /\ boot_blob c = Some r.2 /\
    is_bootstrap_cache_fresh now (boot_blob_cached_at c) = true /\ cache_replay_allowed now last = true.

Definition cache_of (e : boot_session_event) : option CacheSink := match e with BCache c => Some c | _ => None end.

Lemma boot_step_sources cache caches evs s e :
  e ∈ evs -> (forall c, cache_of e = Some c -> c ∈ caches) -> bs_cache s ∈ caches ->
  Forall (replay_source caches evs) (omap replay_of (bs_sessions s)) ->
  let s' := handle_4001_bootstrap cache s e in
  bs_cache s' ∈ caches /\ Forall (replay_source caches evs) (omap replay_of (bs_sessions s')).
Proof.
  intros He Hc Hin Hs.
  assert (Hdrop : forall k b', replay_of b' = None ->
    Forall (replay_source caches evs) (omap replay_of (<[k := b']> (bs_sessions s)))).
  { intros k b' Hb. destruct (bs_sessions s !! k) as [b|] eqn:Hk.
    - destruct (omap_insert replay_of _ _ _ Hk) as (r & E & F). specialize (F b'). rewrite Hb in F. cbn in F.
      rewrite E in Hs. apply Forall_app in Hs as [_ Hs]. by rewrite F.
    - rewrite list_insert_ge by (by apply lookup_ge_None). done. }
  destruct e as [node now act|k now|k ok now|k|k|k|c]; cbn [handle_4001_bootstrap].
  - split; [done|]. cbn. rewrite omap_app. apply Forall_app. split; [done|]. cbn.
    destruct cache; [|by apply Forall_nil_2]. unfold replay_wanted, should_replay_cache.
    destruct (boot_blob (bs_cache s)) as [b|] eqn:Eb; [|by apply Forall_nil_2].
    destruct (negb act && _ && _) eqn:E; [|by apply Forall_nil_2].
    apply andb_true_iff in E as [E Ea]. apply andb_true_iff in E as [En Ef]. apply negb_true_iff in En. subst act.
    apply Forall_cons_2; [|by apply Forall_nil_2]. by exists (bs_cache s), now, (default 0 (bs_last_replay s !! node)).
  - destruct (bs_sessions s !! k) as [[node [blob|]|?|?|?|?|]|] eqn:Hk; try done; [|split; [done|by apply Hdrop]].
    unfold replay_claim. case_bool_decide; [split; [done|by apply Hdrop]|]. split; [done|]. cbn.
    destruct (omap_insert replay_of _ _ _ Hk) as (r & E & F). specialize (F (BReplaying node blob)).
    rewrite F. by rewrite E in Hs.
  - destruct (bs_sessions s !! k) as [[?|node blob|?|?|?|]|] eqn:Hk; try done.
    destruct ok; (split; [done|]); cbn; [rewrite list_insert_insert_eq|]; by apply Hdrop.
  - destruct (bs_sessions s !! k) as [[?|?|node|?|?|]|] eqn:Hk; try done.
    destruct (cache && bs_tap_free s); (split; [done|]); by apply Hdrop.
  - destruct (bs_sessions s !! k) as [[?|?|?|node|?|]|] eqn:Hk; try done. split; [done|by apply Hdrop].
  - destruct (bs_sessions s !! k) as [b|] eqn:Hk; [|done]. split; [done|by apply Hdrop].
  - split; [by apply Hc|done].
Qed.

(** ** Properties: bootstrap sessions *)

(** C12: Under every interleaving of the bootstrap sessions of all nodes, with cache updates, ends and
    aborts at any point: a node has at most one cache replay at a time, and its guard is set exactly
    while one runs; at most one session holds the tap's permit, and the permit is free exactly when
    none does; and every replay sends the blob that was cached when its node greeted, at which time
    that cache was fresh and the node had no session. *)
Theorem replays_and_taps_are_exclusive (cache_coldstart : bool) (c0 : CacheSink) (evs : list boot_session_event) :
  let s := foldl (handle_4001_bootstrap cache_coldstart) (mkBoots c0 ∅ ∅ true []) evs in
  NoDup (omap replaying (bs_sessions s)) /\
  bs_in_flight s = list_to_set (omap replaying (bs_sessions s)) /\
  (length (omap tapping (bs_sessions s)) + (if bs_tap_free s then 1 else 0) = 1)%nat /\
  Forall (fun r => exists c now, (c = c0 \/ BCache c ∈ evs) /\ BGreet r.1 now false ∈ evs /\
            boot_blob c = Some r.2 /\ is_bootstrap_cache_fresh now (boot_blob_cached_at c) = true)
    (omap replay_of (bs_sessions s)).
Proof.
  intros s.
  assert (Hi : bootstraps_inv s).
  { unfold s. apply foldl_inv; [|intros; by apply boot_step_inv]. split_and!; [apply NoDup_nil_2|done|done]. }
  destruct Hi as (H1 & H2 & H3). split_and!; [done..|].
  set (caches := c0 :: omap cache_of evs).
  assert (Hs : bs_cache s ∈ caches /\ Forall (replay_source caches evs) (omap replay_of (bs_sessions s))).
  { assert (Hgen : forall l s0, l ⊆ evs -> bs_cache s0 ∈ caches ->
      Forall (replay_source caches evs) (omap replay_of (bs_sessions s0)) ->
      let s := foldl (handle_4001_bootstrap cache_coldstart) s0 l in
      bs_cache s ∈ caches /\ Forall (replay_source caches evs) (omap replay_of (bs_sessions s))).
    { induction l as [|e l IH]; intros s0 Hsub Hc Hf; cbn; [done|].
      destruct (boot_step_sources cache_coldstart caches evs s0 e) as [Hc' Hf']; [|..|done|done|].
      - apply Hsub. by left.
      - intros c Hce. right. apply list_elem_of_omap. exists e. split; [|done]. apply Hsub. by left.
      - apply IH; [|done|done]. intros x Hx. apply Hsub. by right. }
    apply Hgen; [done|by left|by apply Forall_nil_2]. }
  destruct Hs as [_ Hs]. eapply Forall_impl; [exact Hs|].
  intros r (c & now & last & Hc & Hg & Hb & Hf & _). exists c, now. split_and!; [|done..].
  apply elem_of_cons in Hc as [?|Hc]; [by left|right].
  apply list_elem_of_omap in Hc as (e & He & Hce). destruct e; try done. by injection Hce as ->.
Qed.

(** ** The replay itself *)

Lemma write_chunks_spec fuel size blob ok k :
  (0 < size)%nat -> (length blob <= fuel)%nat ->
  let '(sent, done) := write_chunks fuel size blob ok k in
  sent `prefix_of` blob /\ (done = true -> sent = blob) /\ ((forall j, ok j = true) -> done = true).
Proof.
  intros Hsz. revert blob k. induction fuel as [|fuel IH]; intros blob k Hf; cbn.
  { destruct blob; [|cbn in Hf; lia]. done. }
  destruct blob as [|b blob]; [done|]. destruct (ok k) eqn:Ek.
  - specialize (IH (drop size (b :: blob)) (S k)). rewrite length_drop in IH.
    specialize (IH ltac:(cbn in *; lia)). destruct (write_chunks _ _ _ _ _) as [sent done].
    destruct IH as (H1 & H2 & H3). split_and!; [|intros Hd; by rewrite (H2 Hd), take_drop|done].
    rewrite <- (take_drop size (b :: blob)) at 2. by apply prefix_app.
  - split_and!; [apply prefix_nil|done|]. intros Hall. by rewrite Hall in Ek.
Qed.

(** A replay that reports success has sent the whole blob, one that fails a prefix of it; the floor
    it sets never lies beyond the network tip and the lag a stream may have, when the tip is known. *)
Theorem replay_sends_the_blob (lz4_decompress : bytes -> option bytes) (blob : bytes) (ok : nat -> bool) (net_tip : Z) :
  (let '(sent, done) := replay_writes blob ok in
   sent `prefix_of` blob /\ (done = true -> sent = blob) /\ ((forall j, ok j = true) -> done = true)) /\
  (net_tip <> 0 -> replay_floor lz4_decompress blob net_tip <= Z.max 0 (sat_add32 net_tip ACTIVE_ROUND_MAX_LAG)).
Proof.
  split; [apply write_chunks_spec; lia|]. intros Hn. unfold replay_floor, bounded_cache_floor.
  rewrite (proj2 (Z.eqb_neq _ _) Hn). cbn. case_if; zify_bool; lia.
Qed.
