(* ===== verification/Start.v ===== *)
(** The start of the gateway: the beginning of [run_gateway] of [src/gateway/mod.rs], with the place of
    the cache file ([src/gateway/cache.rs]) and of the blacklist file.

    Paths are those of files: the last component is a name, neither [.] nor [..], with no slash
    behind it. *)

From S2P Require Import Prelude Text Blacklist Wire Priority Freshest Node Peers Sources Race Cache Pace Gateway.

Definition SLASH : ascii := "/"%char.

(** ** Paths *)

Fixpoint drop_slashes (l : list ascii) : list ascii :=
  match l with c :: l' => if decide (c = SLASH) then drop_slashes l' else l | [] => [] end.

(** [Path::parent], [Path::file_name] and [Path::join] with a file name. *)
Definition parent (path : string) : option string :=
  match rsplit_list SLASH (chars path) with
  | Some (dir, _) =>
      let dir := rev (drop_slashes (rev dir)) in
      Some (if decide (dir = []) then text [SLASH] else text dir)
  | None => if decide (path = EmptyString) then None else Some EmptyString
  end.

Definition file_name (path : string) : string :=
  match rsplit_list SLASH (chars path) with Some (_, name) => text name | None => path end.

Definition join_path (dir name : string) : string :=
  if decide (dir = EmptyString) then name
  else if decide (last (chars dir) = Some SLASH) then dir +:+ name
  else dir +:+ text [SLASH] +:+ name.

Definition peer_file_dir (path : string) : string :=
  match parent path with
  | Some d => if decide (d = EmptyString) then "." else d
  | None => "."
  end.

(** [probe]: whether a new file can be created in a directory. *)
Definition cache_parent_writable (probe : string -> bool) (path : string) : bool :=
  match parent path with Some d => probe d | None => false end.

Definition TMP_CACHE : string := "/tmp/hypersync-bootstrap.cache".

Definition bootstrap_cache_path (env : string -> option string) (probe : string -> bool) (node_peer_file : string) : string :=
  match env "HYPERSYNC_BOOT_CACHE"%string with
  | Some path => path
  | None =>
      let peer_dir_cache := join_path (default "." (parent node_peer_file)) "bootstrap.cache" in
      if cache_parent_writable probe peer_dir_cache then peer_dir_cache else TMP_CACHE
  end.

(** ** The start *)

(** What the start reads from outside: the environment, the blacklist file of a directory, the peer
    file with its age, where files can be created, the files of a directory, which of them can be
    removed, the modification time of the cache file and the errors of its metadata and of its read,
    and both clocks. *)
Record StartWorld := mkStart {
  bw_env : string -> option string;
  bw_bl_file : string -> option string;
  bw_peers : list string;
  bw_age : option Z;
  bw_contents : option string;
  bw_probe : string -> bool;
  bw_dir : string -> gmap string bytes;
  bw_removable : string -> bool;
  bw_mtime : option Z;
  bw_meta_error : option string;
  bw_read_error : option string;
  bw_unix : Z;
  bw_now : Z
}.

(** [g_dir]: the files next to the cache file after the start. *)
Record Started := mkStarted {
  g_tier : PriorityTier;
  g_blacklist : Blacklist;
  g_refresher : Refresher;
  g_cache : CacheSink;
  g_dir : gmap string bytes;
  g_rr : Z;
  g_tap_permits : Z;
  g_freshest : FreshestRound;
  g_cooldown : gmap string Z;
  g_refs : option Pace
}.

(** The directory of a path, as the code lists it. *)
Definition dir_of (path : string) : string :=
  match parent path with Some d => if decide (d = EmptyString) then "." else d | None => "." end.

(** [std::fs::metadata] and [std::fs::read] of the cache file. *)
Definition meta_of (w : StartWorld) (files : gmap string bytes) (name : string) : CacheMeta :=
  match bw_meta_error w, files !! name with
  | Some e, _ => MetaError e
  | None, Some b => Meta (bw_mtime w) (Z.of_nat (length b))
  | None, None => MetaNotFound
  end.

Definition read_of (w : StartWorld) (files : gmap string bytes) (name : string) : string + bytes :=
  match bw_read_error w, files !! name with
  | Some e, _ => inl e
  | None, Some b => inr b
  | None, None => inl "not found"%string
  end.

Section Start.
Context (lz4_decompress : bytes -> option bytes).

(** [if let Some(path) = &disk_cache_path]: the files left, and the cache in memory. *)
Definition start_cache (w : StartWorld) (path : option string) : gmap string bytes * CacheSink :=
  match path with
  | None => (∅, mkSink None 0 None [])
  | Some path =>
      let name := file_name path in
      let files := remove_orphan_cache_tmps name (bw_removable w) (bw_dir w (dir_of path)) in
      (files,
       match load_bootstrap_cache lz4_decompress (meta_of w files name) (read_of w files name) (bw_unix w) with
       | inr (Some (blob, cached_at)) => mkSink (Some blob) cached_at (Some path) []
       | _ => mkSink None 0 (Some path) []
       end)
  end.

(** [HYPERSYNC_REFERENCE_STREAM]: on unless it is [0]. *)
Definition reference_streams (push : bool) (env : string -> option string) : bool :=
  push && match env "HYPERSYNC_REFERENCE_STREAM"%string with
          | None => true
          | Some v => negb (bool_decide (trim v = "0"%string))
          end.

Definition gateway_start (w : StartWorld) (node_peer_file : string) (push cache_coldstart : bool) : Started :=
  let tier := from_env (bw_env w) in
  let bl := (reload bl_initial (bw_env w "HYPERSYNC_IP_BLACKLIST"%string) (bw_bl_file w (peer_file_dir node_peer_file))).2 in
  let refresher := refresher_start tier (mkPoolTurn bl (bw_peers w) (bw_age w) (bw_contents w) (bw_now w)) in
  let path := if cache_coldstart then Some (bootstrap_cache_path (bw_env w) (bw_probe w) node_peer_file) else None in
  let '(files, cache) := start_cache w path in
  let freshest := FreshestRound_new PEER_LAG_ROUNDS PEER_LAG_GRACE FRESHEST_STALE in
  mkStarted tier bl refresher cache files 0 1 freshest ∅
    (if reference_streams push (bw_env w) then Some (pace_start (rp_pool refresher) freshest PACE_REFERENCES) else None).
End Start.

(** ** Lemmas: paths *)

Lemma rsplit_list_app c l a b : rsplit_list c l = Some (a, b) -> l = a ++ c :: b /\ c ∉ b.
Proof.
  revert a b. induction l as [|x l IH]; intros a b; cbn [rsplit_list]; [done|].
  destruct (rsplit_list c l) as [[a' b']|] eqn:E.
  - intros [= <- <-]. destruct (IH _ _ eq_refl) as [-> ?]. done.
  - case_decide; [|done]. intros [= <- <-]. subst. split; [done|]. by apply rsplit_list_None.
Qed.

(** A file that is put into a directory has its name there. *)
Lemma file_name_join dir name : SLASH ∉ chars name -> file_name (join_path dir name) = name.
Proof.
  intros Hn. unfold file_name, join_path. case_decide; [|case_decide as Hl].
  - by rewrite (proj2 (rsplit_list_None _ _) Hn).
  - apply last_Some in Hl as (l & Hl). rewrite chars_app, Hl, <- app_assoc.
    change ([SLASH] ++ chars name) with (SLASH :: chars name). by rewrite rsplit_list_sep, text_chars.
  - rewrite !chars_app, chars_text. change ([SLASH] ++ chars name) with (SLASH :: chars name).
    by rewrite rsplit_list_sep, text_chars.
Qed.

Lemma default_cache_name env probe file :
  env "HYPERSYNC_BOOT_CACHE"%string = None ->
  file_name (bootstrap_cache_path env probe file) ∈ ["bootstrap.cache"; "hypersync-bootstrap.cache"]%string.
Proof.
  intros E. unfold bootstrap_cache_path. rewrite E. destruct (cache_parent_writable _ _).
  - rewrite file_name_join by (vm_compute; set_solver). set_solver.
  - vm_compute. set_solver.
Qed.

(** ** Lemmas: the cache *)

Section StartLemmas.
Context (lz4_decompress : bytes -> option bytes).

(** A bootstrap the gateway takes back from disk. *)
Definition recoverable (b : bytes) : Prop :=
  has_live_tail lz4_decompress b = true /\
  exists fs, b = encode_frames fs /\ small_frames fs /\
    MIN_COMPLETE_BOOTSTRAP_BYTES <= Z.of_nat (length b) /\ MIN_COMPLETE_BOOTSTRAP_FRAMES <= Z.of_nat (length fs).

Lemma remove_orphans_keeps name removable fs :
  is_orphan name name = false -> remove_orphan_cache_tmps name removable fs !! name = fs !! name.
Proof.
  intros Hn. unfold remove_orphan_cache_tmps. rewrite map_lookup_filter. destruct (fs !! name); [|done]. cbn. by rewrite Hn.
Qed.

Lemma start_cache_sound w path b :
  is_orphan (file_name path) (file_name path) = false -> Forall is_byte b ->
  boot_blob (start_cache lz4_decompress w (Some path)).2 = Some b ->
  bw_dir w (dir_of path) !! file_name path = Some b /\ recoverable b /\
  exists t, bw_mtime w = Some t /\ boot_blob_cached_at (start_cache lz4_decompress w (Some path)).2 = t /\
    is_bootstrap_cache_fresh (bw_unix w) t = true.
Proof.
  intros Hn Hb. unfold start_cache. cbn [snd]. set (files := remove_orphan_cache_tmps _ _ _).
  assert (Ef : files !! file_name path = bw_dir w (dir_of path) !! file_name path) by (by apply remove_orphans_keeps).
  destruct (load_bootstrap_cache _ _ _ _) as [e|[[b' t]|]] eqn:E; [done| |done]. cbn. intros [= ->].
  apply load_sound in E as ((len & Em & _) & Er & Ht & Hfr & Htail & fs & Hfs); [|done].
  unfold meta_of in Em. unfold read_of in Er. rewrite Ef in *. destruct (bw_meta_error w); [done|].
  destruct (bw_read_error w); [done|]. destruct (bw_dir w _ !! _) as [b0|]; [|done]. injection Er as ->. injection Em as Em _.
  split_and!; [done|split; [done|by exists fs]|]. exists t. split_and!; [done|done|].
  unfold is_bootstrap_cache_fresh, sat_sub. apply andb_true_iff. split; [by apply negb_true_iff, Z.eqb_neq|].
  apply Z.leb_le. unfold MAX_BOOTSTRAP_CACHE_AGE_SECS in *. lia.
Qed.

Lemma start_cache_recovers w path b t :
  is_orphan (file_name path) (file_name path) = false -> Forall is_byte b -> recoverable b ->
  bw_dir w (dir_of path) !! file_name path = Some b -> bw_meta_error w = None -> bw_read_error w = None ->
  bw_mtime w = Some t -> is_bootstrap_cache_fresh (bw_unix w) t = true ->
  (start_cache lz4_decompress w (Some path)).2 = mkSink (Some b) t (Some path) [].
Proof.
  intros Hn Hb (Htail & fs & He & Hs & Hmb & Hmf) Hd Hme Hre Hmt Hfr. unfold start_cache. cbn [snd].
  unfold meta_of, read_of. rewrite remove_orphans_keeps, Hd, Hme, Hre, Hmt by done.
  unfold is_bootstrap_cache_fresh, sat_sub in Hfr. zify_bool.
  rewrite (load_accepts lz4_decompress (Z.of_nat (length b)) (bw_unix w) b t fs); try done; unfold MAX_BOOTSTRAP_CACHE_AGE_SECS in *; lia.
Qed.

Lemma gateway_start_cache w file push :
  let path := bootstrap_cache_path (bw_env w) (bw_probe w) file in
  let g := gateway_start lz4_decompress w file push true in
  (g_dir g, g_cache g) = start_cache lz4_decompress w (Some path).
Proof. cbn zeta. unfold gateway_start. by destruct (start_cache _ _ _) as [files cache]. Qed.

Lemma from_env_ok env : tier_ok (from_env env).
Proof.
  unfold from_env. set (ps := priority_peers_from_raw _).
  assert (Hn : NoDup ps).
  { unfold ps, priority_peers_from_raw. apply foldl_inv; [by apply NoDup_nil_2|]. intros out item Ho. destruct (parse_ipv4 item); [|done].
    case_decide; [done|]. apply NoDup_app. split_and!; [done|set_solver|apply NoDup_singleton]. }
  pose proof (tier_new_ok ps) as Ht. destruct (env "HYPERSYNC_PRIORITY_BOOTSTRAP"%string); by apply Ht.
Qed.

Lemma read_pool_clean bl t contents :
  tier_ok t -> Forall (fun ip => Blacklist.contains bl ip = false /\ ip ∉ peers t) (read_pool bl t contents).
Proof.
  intros Ht. apply Forall_forall. intros ip Hip. pose proof (filtered_clean bl (strip t (read_node_peers contents))) as Hc.
  rewrite Forall_forall in Hc. split; [by apply Hc|]. unfold read_pool, filtered in Hip.
  assert (Hs : ip ∈ strip t (read_node_peers contents)) by (destruct (_ =? 0)%nat; [done|by apply list_elem_of_filter in Hip as [_ ?]]).
  unfold strip in Hs. destruct (is_empty t) eqn:Ee.
  - unfold is_empty in Ee. destruct (peers t); [set_solver|done].
  - apply list_elem_of_filter in Hs as [Hs _]. unfold Priority.contains in Hs. apply bool_decide_eq_false in Hs.
    by rewrite index_is_Some in Hs.
Qed.
End StartLemmas.

(** ** Property *)

Section Property.
Context (lz4_decompress : bytes -> option bytes).

(** C15: a restart takes the cache back, and only a good one. After any history of the writers of the
    cache file, with errors and crashes at any point, the gateway starts over the directory they
    left: a blob in its cache is in full one that was persisted (or the file from before), is a
    complete bootstrap and is fresh; a complete bootstrap in a fresh and readable file is taken, and
    offered at once to a node that asks for one; no temporary file of a writer stays if files can be
    removed; and the pool names no blacklisted and no priority peer. *)
Theorem restart_recovers_the_cache (w : StartWorld) (file : string) (push : bool) (files : gmap string bytes)
    (evs : list disk_event) :
  let path := bootstrap_cache_path (bw_env w) (bw_probe w) file in
  let name := file_name path in
  let d := foldl (persist_bootstrap_cache name) (mkDisk files 0 []) evs in
  is_orphan name name = false -> Z.of_nat (length evs) < 2 ^ 64 -> bw_dir w (dir_of path) = d_files d ->
  let g := gateway_start lz4_decompress w file push true in
  (forall b, Forall is_byte b -> boot_blob (g_cache g) = Some b ->
     (files !! name = Some b \/ exists created, DOpen b created ∈ evs) /\ recoverable lz4_decompress b /\
     is_bootstrap_cache_fresh (bw_unix w) (boot_blob_cached_at (g_cache g)) = true) /\
  (forall b t, Forall is_byte b -> recoverable lz4_decompress b -> d_files d !! name = Some b ->
     bw_meta_error w = None -> bw_read_error w = None -> bw_mtime w = Some t ->
     is_bootstrap_cache_fresh (bw_unix w) t = true ->
     g_cache g = mkSink (Some b) t (Some path) [] /\
     cache_replay_blob (bw_unix w) 0 false t (boot_blob (g_cache g)) false = (Some b, true)) /\
  ((forall e, bw_removable w e = true) -> forall seq, 0 <= seq -> g_dir g !! tmp_name name seq = None) /\
  Forall (fun ip => Blacklist.contains (g_blacklist g) ip = false /\ ip ∉ peers (g_tier g)) (rp_pool (g_refresher g)).
Proof.
  intros path name d Hn Hl Hd g. pose proof (gateway_start_cache lz4_decompress w file push) as Eg. cbn zeta in Eg.
  fold path g in Eg. assert (Ec : g_cache g = (start_cache lz4_decompress w (Some path)).2) by (by rewrite <- Eg).
  split_and!.
  - intros b Hb Hbl. rewrite Ec in *. destruct (start_cache_sound _ w path b Hn Hb Hbl) as (H1 & H2 & t & _ & -> & H4).
    split_and!; [|done|done]. rewrite Hd in H1. pose proof (disk_content name files evs Hn Hl) as Hc.
    cbn zeta in Hc. fold d in Hc. fold name in H1.
    destruct Hc as [E|(b' & cr & Hin & E)]; rewrite E in H1; [by left|injection H1 as ->; right; by exists cr].
  - intros b t Hb Hr Hfile Hme Hre Hmt Hfr. rewrite Ec. rewrite <- Hd in Hfile.
    rewrite (start_cache_recovers _ w path b t Hn Hb Hr Hfile Hme Hre Hmt Hfr). split; [done|].
    unfold cache_replay_blob, replay_wanted, should_replay_cache. cbn. by rewrite Hfr.
  - intros Hrm seq Hs. assert (Ed : g_dir g = (start_cache lz4_decompress w (Some path)).1) by (by rewrite <- Eg).
    rewrite Ed. unfold start_cache. cbn [fst]. unfold remove_orphan_cache_tmps. rewrite map_lookup_filter.
    destruct (bw_dir w _ !! _); cbn; [|done]. fold name. by rewrite tmp_name_orphan, Hrm.
  - unfold g, gateway_start. destruct (start_cache _ _ _) as [fs cache].
    cbn [g_blacklist g_tier g_refresher refresher_start rp_pool po_bl po_file]. apply read_pool_clean, from_env_ok.
Qed.
End Property.

(** A gateway next to [/pd/peers.json], whose last writer crashed before its rename. *)
Lemma restart_recovers_the_cache_witness :
  let w := mkStart (fun _ => None) (fun _ => None) ["9.9.9.9"; "8.8.8.8"]%string None None (fun _ => true)
    (fun _ => d_files (foldl (persist_bootstrap_cache "bootstrap.cache") (mkDisk ∅ 0 [])
       [DOpen [1; 2] true; DSync 0; DRename 0 true; DOpen [3; 4] true; DWrite 1 1])) (fun _ => true) (Some 1000) None None 1100 0 in
  let g := gateway_start (fun _ => None) w "/pd/peers.json" true true in
  disk_cache_path (g_cache g) = Some "/pd/bootstrap.cache"%string /\ g_dir g = {["bootstrap.cache"%string := [1; 2]]} /\
  Forall (fun ip => Blacklist.contains (g_blacklist g) ip = false /\ ip ∉ peers (g_tier g)) (rp_pool (g_refresher g)).
Proof.
  cbn zeta. split_and!; [vm_compute; reflexivity|vm_compute; reflexivity|].
  apply (restart_recovers_the_cache (fun _ => None) _ "/pd/peers.json" true ∅
    [DOpen [1; 2] true; DSync 0; DRename 0 true; DOpen [3; 4] true; DWrite 1 1]); vm_compute; reflexivity.
Defined.
