(* ===== verification/Session.v ===== *)
(** The sessions of the gateway, from a greeting to the end: [src/gateway/session.rs] with the accept
    loop of [src/gateway/mod.rs].

    All 4001 connections of all nodes as one machine. A connection runs a handler; the handlers share
    the priority tier, the nodes, the peer cooldown, the memory of state servers and the rotation
    counter. The races of [Race], standby dials and client-block fetches take part as the holders of
    [gw_racing], the slots taken and not handed over; the end of a race hands one of them to the
    connection that waited. What a session does between its begin and its end is in [PushServe],
    [FailoverSession], [Relay] and [Cache]. *)

From S2P Require Import Prelude Text Blacklist Wire Priority Sock Freshest PushSession Relay PushServe Node Peers Sources Race FailoverSession ClientBlocks ClientFetch Cache Gateway.

Definition usize_count : Z := 2 ^ 64.

(** ** Connections *)

(** What follows a pin. *)
Inductive Next := NPush | NSplice | NRelay.

(** Where a handler stands. [AtPinning]: between the two steps of [pin_active]. [AtPush]: the pin of
    the session's guard, the current pin and its slot; [AtSwitching]: inside [on_switch]. *)
Inductive Phase :=
| AtGreeted (greet : bytes)
| AtReplaying (greet : bytes)
| AtLiveSel (cfg : LiveCfg) (floor : Z)
| AtFallback (candidates : list string) (floor : Z)
| AtSpliceSel (candidates : list string)
| AtBootSel (candidates : list string)
| AtPinning (next : Next) (peer : ActivePeer) (slot : option nat)
| AtPush (guard peer : ActivePeer) (slot : option nat)
| AtSwitching (guard peer : ActivePeer) (slot : option nat) (new : ActivePeer) (new_slot : option nat)
| AtSplice (peer : ActivePeer) (slot : option nat)
| AtRelay (peer : ActivePeer) (slot : option nat)
| AtOver.

(** A connection: its node, the pool peers it may use, its handler. *)
Record Conn := mkConn { c_node : Z; c_peers : list string; c_at : Phase }.

Record GatewayCtx {P : Type} := mkGw {
  gw_tier : PriorityTier;
  gw_racing : list nat;
  gw_nodes : gmap Z (NodeState P);
  gw_cooldown : PeerCooldown;
  gw_servers : list string;
  gw_rr : Z;
  gw_conns : list Conn;
  gw_orphans : list (Z * ActivePeer)     (* pins of sessions that panicked after a switch *)
}.
Arguments GatewayCtx : clear implicits.

(** The settings of the process: [--push], the number of standbys. *)
Record GwCfg := mkGwCfg { gc_push : bool; gc_standbys : Z }.

(** The lag guard a new live peer is held to: none for hot-standby sessions. *)
Definition select_guard (cfg : GwCfg) (freshest : FreshestRound) : option FreshestRound :=
  if gc_standbys cfg =? 0 then Some freshest else None.

Section Session.
Context {P : Type} `{UpstreamFilter}.
Abbreviation Gw := (GatewayCtx P).

Definition node_of (s : Gw) (n : Z) : NodeState P := default (NodeState_new n 0) (gw_nodes s !! n).

(** A handler moves on: its connection, its node, the tier and the slots in races. *)
Definition move (s : Gw) (k : nat) (c : Conn) (ph : Phase) (t : PriorityTier) (racing : list nat) (nd : NodeState P)
    : Gw :=
  mkGw P t racing (<[c_node c := nd]> (gw_nodes s)) (gw_cooldown s) (gw_servers s) (gw_rr s)
    (<[k := mkConn (c_node c) (c_peers c) ph]> (gw_conns s)) (gw_orphans s).

Definition move_on (s : Gw) (k : nat) (c : Conn) (ph : Phase) : Gw :=
  move s k c ph (gw_tier s) (gw_racing s) (node_of s (c_node c)).

Definition set_rr (s : Gw) (n : Z) : Gw :=
  mkGw P (gw_tier s) (gw_racing s) (gw_nodes s) (gw_cooldown s) (gw_servers s) ((gw_rr s + n) mod usize_count)
    (gw_conns s) (gw_orphans s).

Definition set_servers (s : Gw) (l : list string) : Gw :=
  mkGw P (gw_tier s) (gw_racing s) (gw_nodes s) (gw_cooldown s) l (gw_rr s) (gw_conns s) (gw_orphans s).

Definition set_cooling (s : Gw) (m : PeerCooldown) : Gw :=
  mkGw P (gw_tier s) (gw_racing s) (gw_nodes s) m (gw_servers s) (gw_rr s) (gw_conns s) (gw_orphans s).

Definition set_orphans (s : Gw) (l : list (Z * ActivePeer)) : Gw :=
  mkGw P (gw_tier s) (gw_racing s) (gw_nodes s) (gw_cooldown s) (gw_servers s) (gw_rr s) (gw_conns s) l.

Definition set_node (s : Gw) (node : Z) (nd : NodeState P) : Gw :=
  mkGw P (gw_tier s) (gw_racing s) (<[node := nd]> (gw_nodes s)) (gw_cooldown s) (gw_servers s) (gw_rr s)
    (gw_conns s) (gw_orphans s).

Definition set_floor (n : NodeState P) (f : Z) : NodeState P :=
  mkNode P (n_ip n) (n_active n) (next_active_epoch n) (last_cache_replay_secs n) f (last_seen_secs n)
    (open_conns n) (lazy_active n) (rpc_peer n) (replay_in_flight n) (last_repin_attempt n) (last_catchup_cut n)
    (last_client_blocks n) (prefetch n).

(** ** Selecting *)

(** [handle_4001_live] up to its selection. *)
Definition handle_4001_live (cfg : GwCfg) (s : Gw) (k : nat) (c : Conn) (now : Z) : Gw :=
  let start := Z.to_nat (gw_rr s) in
  let s := set_rr s 1 in
  if gc_push cfg then move_on s k c (AtLiveSel (live_cfg (gw_tier s) (c_peers c) start now) 0)
  else move_on s k c (AtSpliceSel (tiered_peers (gw_tier s) (c_peers c) start now)).

(** [replay_cache_then_live] after its writes: the floor of the blob is bounded and raised, and a
    live peer above it is selected. *)
Definition replay_cache_then_live (s : Gw) (k : nat) (c : Conn) (written : bool) (scanned net_tip now : Z) : Gw :=
  if negb written then move_on s k c AtOver
  else
    let floor := bounded_cache_floor scanned net_tip in
    let nd := node_of s (c_node c) in
    let nd := if floor =? 0 then nd else set_floor nd (Z.max (Node.live_floor nd) floor) in
    let start := Z.to_nat (gw_rr s) in
    let s := set_rr s 1 in
    move s k c (AtLiveSel (live_cfg (gw_tier s) (c_peers c) start now) floor) (gw_tier s) (gw_racing s) nd.

(** The floor's task after [CACHE_FLOOR_TTL]. *)
Definition floor_expires (s : Gw) (node floor : Z) : Gw :=
  let nd := node_of s node in
  if Node.live_floor nd =? floor then set_node s node (set_floor nd 0) else s.

(** [transparent_bootstrap] up to its selection. *)
Definition transparent_bootstrap (s : Gw) (k : nat) (c : Conn) (now : Z) : Gw :=
  let start := Z.to_nat (gw_rr s) in
  let s := set_rr s (Z.of_nat BOOTSTRAP_SELECT_MAX_PEERS) in
  let cands := bootstrap_source_list (bootstrap (gw_tier s)) (candidates_at (gw_tier s) now) (gw_servers s)
                 (c_peers c) start in
  move s k c (AtBootSel cands) (gw_tier s) (gw_racing s) (set_floor (node_of s (c_node c)) 0).

(** The slot a race hands over: the [j]-th of those in races. *)
Definition handed (racing : list nat) (j : option nat) : option (option nat * list nat) :=
  match j with
  | None => Some (None, racing)
  | Some j => match racing !! j with Some i => Some (Some i, delete j racing) | None => None end
  end.

(** A selected peer: the first step of its pin. A state server is remembered unless it is a priority
    peer. *)
Definition begin_pin (s : Gw) (k : nat) (c : Conn) (next : Next) (ip : string) (j : option nat) : Gw :=
  match handed (gw_racing s) j with
  | None => s
  | Some (slot, racing) =>
      let s := match next with
               | NRelay => set_servers s (relay_begins (gw_tier s) (gw_servers s) ip)
               | _ => s
               end in
      let '(peer, nd) := take_epoch (node_of s (c_node c)) ip in
      move s k c (AtPinning next peer slot) (gw_tier s) racing nd
  end.

(** [serve_push_4001_fallback] up to its race. *)
Definition serve_push_4001_fallback (s : Gw) (k : nat) (c : Conn) (start : nat) (floor now : Z) : Gw :=
  move_on s k c (AtFallback (tiered_peers (gw_tier s) (c_peers c) start now) floor).

(** The end of a connection's selection: its winner with the slot, or none. *)
Definition selected (s : Gw) (k : nat) (c : Conn) (r : option (string * option nat)) (now : Z) : Gw :=
  match c_at c, r with
  | AtLiveSel cfg _, Some (ip, j) =>
      if bool_decide (ip ∈ lc_prio cfg ++ lc_peers cfg) then begin_pin s k c NPush ip j else s
  | AtLiveSel cfg floor, None => serve_push_4001_fallback s k c (lc_start cfg) floor now
  | AtFallback cands _, Some (ip, j) => if bool_decide (ip ∈ cands) then begin_pin s k c NPush ip j else s
  | AtSpliceSel cands, Some (ip, j) => if bool_decide (ip ∈ cands) then begin_pin s k c NSplice ip j else s
  | AtBootSel cands, Some (ip, j) => if bool_decide (ip ∈ cands) then begin_pin s k c NRelay ip j else s
  | AtFallback _ _, None | AtSpliceSel _, None | AtBootSel _, None => move_on s k c AtOver
  | _, _ => s
  end.

(** ** Sessions *)

(** The second step of a pin; a push session also takes a slot if it was handed none. *)
Definition pinned (s : Gw) (k : nat) (c : Conn) (next : Next) (peer : ActivePeer) (slot : option nat) : Gw :=
  let nd := store_pin (node_of s (c_node c)) peer in
  match next with
  | NPush =>
      let '(slot, t) := session_slot (gw_tier s) slot (ap_ip peer) in
      move s k c (AtPush peer peer slot) t (gw_racing s) nd
  | NSplice => move s k c (AtSplice peer slot) (gw_tier s) (gw_racing s) nd
  | NRelay => move s k c (AtRelay peer slot) (gw_tier s) (gw_racing s) nd
  end.

(** [on_switch] of a hot-standby session. *)
Definition switch_begins (s : Gw) (k : nat) (c : Conn) (guard peer : ActivePeer) (slot : option nat) (ip : string)
    (j : option nat) : Gw :=
  match handed (gw_racing s) j with
  | None => s
  | Some (new_slot, racing) =>
      let '(new, nd) := take_epoch (node_of s (c_node c)) ip in
      move s k c (AtSwitching guard peer slot new new_slot) (gw_tier s) racing nd
  end.

Definition switched (s : Gw) (k : nat) (c : Conn) (guard : ActivePeer) (slot : option nat) (new : ActivePeer)
    (new_slot : option nat) : Gw :=
  let nd := store_pin (node_of s (c_node c)) new in
  let '(new_slot, t) :=
    match new_slot with
    | Some i => (Some i, gw_tier s)
    | None => match try_acquire (gw_tier s) (ap_ip new) with Some (i, t) => (Some i, t) | None => (None, gw_tier s) end
    end in
  move s k c (AtPush guard new new_slot) (release t slot) (gw_racing s) nd.

(** The drops at the end of a handler: the pin if it is current, the slot. *)
Definition drop_session_of (s : Gw) (k : nat) (c : Conn) (t : PriorityTier) (peer : ActivePeer) (slot : option nat) : Gw :=
  move s k c AtOver (release t slot) (gw_racing s) (clear_active_if_current (node_of s (c_node c)) peer).

(** The end of [serve_push_repinned]: the current pin, and the guard's. *)
Definition push_over (s : Gw) (k : nat) (c : Conn) (guard peer : ActivePeer) (slot : option nat) (reason : string) (now : Z) : Gw :=
  let '(t, m) := cool_down_on_fault (gw_tier s) (gw_cooldown s) (ap_ip peer) reason now in
  move (set_cooling s m) k c AtOver (release t slot) (gw_racing s)
    (clear_active_if_current (clear_active_if_current (node_of s (c_node c)) peer) guard).

(** The end of a plain splice; [None]: the node did not take the greeting. *)
Definition splice_over (s : Gw) (k : nat) (c : Conn) (peer : ActivePeer) (slot : option nat) (r : option Relayed)
    (now : Z) : Gw :=
  let '(t, m) :=
    match r with
    | Some r => if rel_upstream_ended r then Gateway.cool_down (gw_tier s) (gw_cooldown s) (ap_ip peer) now
                else (gw_tier s, gw_cooldown s)
    | None => (gw_tier s, gw_cooldown s)
    end in
  drop_session_of (set_cooling s m) k c t peer slot.

(** The end of a bootstrap relay; [None]: the node did not take the first bytes. *)
Definition relay_ends (s : Gw) (k : nat) (c : Conn) (peer : ActivePeer) (slot : option nat) (r : option Relayed) : Gw :=
  let servers := match r with Some r => relay_over (gw_servers s) (ap_ip peer) r | None => gw_servers s end in
  drop_session_of (set_servers s servers) k c (gw_tier s) peer slot.

(** A panic in a handler: its guards are dropped. The guard of a push session holds its first pin.
    Nothing panics inside [pin_active]. *)
Definition panicked (s : Gw) (k : nat) (c : Conn) : Gw :=
  match c_at c with
  | AtSplice peer slot | AtRelay peer slot => drop_session_of s k c (gw_tier s) peer slot
  | AtPush guard peer slot =>
      let s := drop_session_of s k c (gw_tier s) guard slot in
      if decide (peer = guard) then s else set_orphans s ((c_node c, peer) :: gw_orphans s)
  | AtPinning _ _ _ | AtSwitching _ _ _ _ _ => s
  | _ => move_on s k c AtOver
  end.

Inductive gw_event :=
| GOther (o : op)
| GAccept (node : Z) (pool : list string) (greet : option bytes) (now : Z)
| GReplay (k : nat)
| GReplayed (k : nat) (written : bool) (scanned net_tip now : Z)
| GHandle (k : nat) (now : Z)
| GSelected (k : nat) (r : option (string * option nat)) (now : Z)
| GPinned (k : nat)
| GSwitch (k : nat) (ip : string) (j : option nat)
| GPushOver (k : nat) (reason : string) (now : Z)
| GRelayOver (k : nat) (r : option Relayed) (now : Z)
| GPanic (k : nat)
| GFloorExpires (node floor : Z)
| GLazy (node : Z) (ip : string)
| GLook (node : Z).

(** A step of the gateway. *)
Definition gw_step (cfg : GwCfg) (s : Gw) (e : gw_event) : Gw :=
  match e with
  | GOther o =>
      let '(t, racing) := op_step (gw_tier s, gw_racing s) o in
      mkGw P t racing (gw_nodes s) (gw_cooldown s) (gw_servers s) (gw_rr s) (gw_conns s) (gw_orphans s)
  | GAccept node pool greet now =>
      let '(peers, m) := usable_peers (gw_cooldown s) pool now in
      let s := set_cooling s m in
      match route 4001 (gw_tier s) peers greet with
      | Bootstrap4001 g | Live4001 g =>
          mkGw P (gw_tier s) (gw_racing s) (gw_nodes s) (gw_cooldown s) (gw_servers s) (gw_rr s)
            (gw_conns s ++ [mkConn node peers (AtGreeted g)]) (gw_orphans s)
      | _ => s
      end
  | GFloorExpires node floor => floor_expires s node floor
  | GLazy node ip => set_node s node (pin_lazy_active (node_of s node) ip).2
  | GLook node => set_node s node (unpin (node_of s node))
  | GReplay k | GReplayed k _ _ _ _ | GHandle k _ | GSelected k _ _ | GPinned k | GSwitch k _ _ | GPushOver k _ _
  | GRelayOver k _ _ | GPanic k =>
      match gw_conns s !! k with
      | None => s
      | Some c =>
          match c_at c, e with
          | AtGreeted g, GReplay _ => if byte_at g 5 =? 1 then move_on s k c (AtReplaying g) else s
          | AtGreeted g, GHandle _ now =>
              if byte_at g 5 =? 1 then transparent_bootstrap s k c now else handle_4001_live cfg s k c now
          | AtReplaying _, GReplayed _ written scanned net_tip now =>
              replay_cache_then_live s k c written scanned net_tip now
          | _, GSelected _ r now => selected s k c r now
          | AtPinning next peer slot, GPinned _ => pinned s k c next peer slot
          | AtPush guard peer slot, GSwitch _ ip j =>
              if 0 <? gc_standbys cfg then switch_begins s k c guard peer slot ip j else s
          | AtSwitching guard peer slot new new_slot, GPinned _ => switched s k c guard slot new new_slot
          | AtPush guard peer slot, GPushOver _ reason now => push_over s k c guard peer slot reason now
          | AtSplice peer slot, GRelayOver _ r now => splice_over s k c peer slot r now
          | AtRelay peer slot, GRelayOver _ r _ => relay_ends s k c peer slot r
          | _, GPanic _ => panicked s k c
          | _, _ => s
          end
      end
  end.

Definition gw_start (t : PriorityTier) : Gw := mkGw P t [] ∅ ∅ [] 0 [] [].
End Session.

(** A run of the gateway; the blacklist may change before any step. *)
Definition gw_run {P} (cfg : GwCfg) (s : GatewayCtx P) (evs : list (UpstreamFilter * gw_event)) : GatewayCtx P :=
  foldl (fun s fe => @gw_step P fe.1 cfg s fe.2) s evs.

(** ** Slots and pins *)

(** The slots a handler holds. *)
Definition conn_slots (c : Conn) : list nat :=
  match c_at c with
  | AtPinning _ _ slot | AtPush _ _ slot | AtSplice _ slot | AtRelay _ slot => option_list slot
  | AtSwitching _ _ slot _ new_slot => option_list slot ++ option_list new_slot
  | _ => []
  end.

(** The pin it stored last. *)
Definition conn_pin (c : Conn) : option ActivePeer :=
  match c_at c with
  | AtPush _ peer _ | AtSwitching _ peer _ _ _ | AtSplice peer _ | AtRelay peer _ => Some peer
  | _ => None
  end.

Section SessionProofs.
Context {P : Type}.
Abbreviation Gw := (GatewayCtx P).
Implicit Types s : Gw.

Definition session_pin (n : NodeState P) : option ActivePeer := if lazy_active n then None else n_active n.

Definition owned (s : Gw) (n : Z) (p : ActivePeer) : Prop :=
  (exists k c, gw_conns s !! k = Some c /\ c_node c = n /\ conn_pin c = Some p) \/ (n, p) ∈ gw_orphans s.

(** Without standbys a session never leaves its first pin. *)
Definition unswitched (c : Conn) : Prop :=
  match c_at c with AtPush guard peer _ => peer = guard | AtSwitching _ _ _ _ _ => False | _ => True end.

Record gw_inv (cfg : GwCfg) (t0 : PriorityTier) (s : Gw) : Prop := {
  gi_slots : counted (gw_tier s, gw_racing s ++ (gw_conns s ≫= conn_slots));
  gi_pins : forall n p, session_pin (node_of s n) = Some p -> owned s n p;
  gi_tier : tier_evolves t0 (gw_tier s);
  gi_servers : NoDup (gw_servers s) /\ (length (gw_servers s) <= STATE_SERVER_MEMORY)%nat /\
    Forall (fun ip => contains t0 ip = false) (gw_servers s);
  gi_plain : gc_standbys cfg <= 0 -> gw_orphans s = [] /\ Forall unswitched (gw_conns s)
}.

Lemma node_of_insert s n n' nd :
  node_of (set_node s n nd) n' = if decide (n = n') then nd else node_of s n'.
Proof.
  unfold node_of, set_node. cbn. case_decide; subst; [by rewrite lookup_insert_eq|by rewrite lookup_insert_ne].
Qed.

(** A node changed by no handler: its session pin stays or goes. *)
Lemma inv_set_node cfg t0 s n nd :
  (forall p, session_pin nd = Some p -> session_pin (node_of s n) = Some p) ->
  gw_inv cfg t0 s -> gw_inv cfg t0 (set_node s n nd).
Proof.
  intros Hn [H1 H2 H3 H4 H5]. split; [exact H1| |exact H3|exact H4|exact H5].
  intros n' p. rewrite node_of_insert. case_decide; [subst; intros ?; apply H2; eauto|apply H2].
Qed.

(** A handler moves on: its slots are traded, and a session pin its node has now is its own, another
    handler's or an orphan's. *)
Lemma inv_move cfg t0 s k c ph t racing nd :
  let c' := mkConn (c_node c) (c_peers c) ph in
  gw_conns s !! k = Some c ->
  (forall rest, counted (gw_tier s, gw_racing s ++ conn_slots c ++ rest) -> counted (t, racing ++ conn_slots c' ++ rest)) ->
  (forall p, session_pin nd = Some p ->
    conn_pin c' = Some p \/ (c_node c, p) ∈ gw_orphans s \/
    session_pin (node_of s (c_node c)) = Some p /\ conn_pin c <> Some p) ->
  tier_evolves (gw_tier s) t ->
  (gc_standbys cfg <= 0 -> unswitched c -> unswitched c') ->
  gw_inv cfg t0 s -> gw_inv cfg t0 (move s k c ph t racing nd).
Proof.
  intros c' Hk Hs Hp Ht Hu [H1 H2 H3 H4 H5].
  assert (Hlt : (k < length (gw_conns s))%nat) by (by eapply lookup_lt_Some).
  split; [| | |exact H4|].
  - destruct (bind_insert conn_slots _ _ _ Hk) as (rest & E & E'). cbn.
    eapply counted_perm; [symmetry; apply Permutation_app_head, E'|]. apply Hs.
    eapply counted_perm; [apply Permutation_app_head, E|done].
  - assert (Hkeep : forall n p, owned s n p -> (c_node c = n -> conn_pin c <> Some p) ->
      owned (move s k c ph t racing nd) n p).
    { intros n p [(k' & c1 & Hk' & En & Ep)|Ho] Hne; [|by right]. left. exists k', c1. split_and!; [|done..].
      cbn. rewrite list_lookup_insert_ne; [done|]. intros <-. simplify_eq. by apply Hne. }
    intros n p. change (node_of (move _ _ _ _ _ _ _) n) with (node_of (set_node s (c_node c) nd) n).
    rewrite node_of_insert. case_decide as En.
    + intros Hsp. subst n. destruct (Hp p Hsp) as [Hc|[Ho|[Ho Hne]]].
      * left. exists k, c'. split_and!; [|done..]. cbn. by rewrite list_lookup_insert_eq.
      * by right.
      * apply Hkeep; [by apply H2|done].
    + intros Hsp. apply Hkeep; [by apply H2|done].
  - etransitivity; [exact H3|exact Ht].
  - intros Hg. destruct (H5 Hg) as [? Hf]. split; [done|]. cbn. apply Forall_insert; [done|].
    apply Hu; [done|]. by eapply (Forall_lookup_1 unswitched).
Qed.

Lemma inv_rr cfg t0 s n : gw_inv cfg t0 s -> gw_inv cfg t0 (set_rr s n).
Proof. by intros []. Qed.

Lemma inv_cooldown cfg t0 s m : gw_inv cfg t0 s -> gw_inv cfg t0 (set_cooling s m).
Proof. by intros []. Qed.

(** A handler without slot or pin moves on; its node may change, not its session pin. *)
Lemma inv_idle cfg t0 s k c ph nd :
  let c' := mkConn (c_node c) (c_peers c) ph in
  gw_conns s !! k = Some c -> conn_slots c = [] -> conn_pin c = None -> conn_slots c' = [] -> unswitched c' ->
  session_pin nd = session_pin (node_of s (c_node c)) ->
  gw_inv cfg t0 s -> gw_inv cfg t0 (move s k c ph (gw_tier s) (gw_racing s) nd).
Proof.
  intros c' Hk Hs Hp Hs' Hu Hn. apply inv_move; try done.
  - intros rest. fold c'. by rewrite Hs, Hs'.
  - intros p. rewrite Hn, Hp. auto.
Qed.

(** The slot handed over by a race. *)
Lemma handed_perm racing j slot racing' :
  handed racing j = Some (slot, racing') -> racing ≡ₚ option_list slot ++ racing'.
Proof.
  destruct j as [j|]; cbn; [|by intros [= <- <-]]. destruct (racing !! j) as [i|] eqn:E; [|done].
  intros [= <- <-]. by apply delete_Permutation.
Qed.

Lemma inv_pin_begins cfg t0 s k c ph slot racing j ip :
  let c' := mkConn (c_node c) (c_peers c) ph in
  gw_conns s !! k = Some c -> handed (gw_racing s) j = Some (slot, racing) ->
  conn_slots c' = conn_slots c ++ option_list slot -> conn_pin c' = conn_pin c ->
  (gc_standbys cfg <= 0 -> unswitched c -> unswitched c') ->
  gw_inv cfg t0 s -> gw_inv cfg t0 (move s k c ph (gw_tier s) racing (take_epoch (node_of s (c_node c)) ip).2).
Proof.
  intros c' Hk Hj Hs Hp Hu. apply inv_move; [done| | |done|done].
  - intros rest. fold c'. rewrite Hs. apply counted_perm. rewrite (handed_perm _ _ _ _ Hj).
    rewrite !app_assoc. apply Permutation_app_tail. rewrite <- !app_assoc, (app_assoc racing).
    apply Permutation_app_comm.
  - intros p Hsp. fold c'. rewrite Hp. destruct (decide (conn_pin c = Some p)); [by left|by right; right].
Qed.

Lemma session_slot_counted t slot ip rest slot' t' :
  session_slot t slot ip = (slot', t') ->
  counted (t, option_list slot ++ rest) -> counted (t', option_list slot' ++ rest).
Proof.
  destruct slot as [i|]; cbn; [by intros [= <- <-]|]. intros E Hc.
  pose proof (op_step_counted _ (OAcquire ip) Hc) as Hs. cbn in Hs.
  destruct (acquire t ip) as [[i t1]|]; simplify_eq/=; done.
Qed.

Lemma evolves_acquire t ip i t' : acquire t ip = Some (i, t') -> tier_evolves t t'.
Proof. intros E. pose proof (evolves_op t [] (OAcquire ip)) as Ho. cbn in Ho. by rewrite E in Ho. Qed.

Lemma counted_front t racing slots rest :
  counted (t, racing ++ slots ++ rest) <-> counted (t, slots ++ racing ++ rest).
Proof.
  split; apply counted_perm; rewrite !app_assoc; apply Permutation_app_tail, Permutation_app_comm.
Qed.

(** The end of a handler: its slot is released, its pin cleared. *)
Lemma inv_end cfg t0 s k c t slot nd :
  gw_conns s !! k = Some c -> conn_slots c = option_list slot ->
  (forall gs, counted (gw_tier s, gs) -> counted (t, gs)) -> tier_evolves (gw_tier s) t ->
  (forall p, session_pin nd = Some p ->
    (c_node c, p) ∈ gw_orphans s \/ session_pin (node_of s (c_node c)) = Some p /\ conn_pin c <> Some p) ->
  gw_inv cfg t0 s -> gw_inv cfg t0 (move s k c AtOver (release t slot) (gw_racing s) nd).
Proof.
  intros Hk Hs Hc Ht Hp. apply inv_move; [done| | | |done].
  - intros rest. rewrite Hs, counted_front. intros Hr. by apply counted_release, Hc.
  - intros p Hsp. right. auto.
  - etransitivity; [exact Ht|apply evolves_release].
Qed.

Lemma cleared_pin (n : NodeState P) peer p :
  session_pin (clear_active_if_current n peer) = Some p -> session_pin n = Some p /\ p <> peer.
Proof.
  unfold clear_active_if_current, session_pin. case_decide as E; cbn.
  - by destruct (lazy_active n).
  - destruct (lazy_active n); [done|]. intros Ha. split; [done|]. congruence.
Qed.

Lemma inv_drop cfg t0 s k c t peer slot :
  gw_conns s !! k = Some c -> conn_slots c = option_list slot -> conn_pin c = Some peer ->
  (forall gs, counted (gw_tier s, gs) -> counted (t, gs)) -> tier_evolves (gw_tier s) t ->
  gw_inv cfg t0 s -> gw_inv cfg t0 (drop_session_of s k c t peer slot).
Proof.
  intros Hk Hs Hp Hc Ht. apply inv_end; try done. intros p Hsp.
  apply cleared_pin in Hsp as [Hsp Hne]. right. split; [done|]. congruence.
Qed.

Lemma cool_down_keeps t m ip now t' m' :
  Gateway.cool_down t m ip now = (t', m') -> (forall gs, counted (t, gs) -> counted (t', gs)) /\ tier_evolves t t'.
Proof.
  unfold Gateway.cool_down, mark_failed_at. case_match; intros [= <- _]; [|done].
  split; [intros; by apply counted_cool|apply evolves_cool].
Qed.

Lemma cool_down_on_fault_keeps t m ip reason now t' m' :
  cool_down_on_fault t m ip reason now = (t', m') ->
  (forall gs, counted (t, gs) -> counted (t', gs)) /\ tier_evolves t t'.
Proof. unfold cool_down_on_fault. case_match; [apply cool_down_keeps|by intros [= <- _]]. Qed.

Lemma inv_servers cfg t0 s l :
  (NoDup l /\ (length l <= STATE_SERVER_MEMORY)%nat /\ Forall (fun ip => contains t0 ip = false) l) ->
  gw_inv cfg t0 s -> gw_inv cfg t0 (set_servers s l).
Proof. intros Hl [H1 H2 H3 H4 H5]. by split. Qed.

Lemma Forall_keep {A} (Q R : A -> Prop) `{!forall x, Decision (R x)} l : Forall Q l -> Forall Q (filter R l).
Proof. rewrite !Forall_forall. intros Hq x [_ Hx]%list_elem_of_filter. auto. Qed.

Lemma inv_relay_begins cfg t0 s ip :
  gw_inv cfg t0 s -> gw_inv cfg t0 (set_servers s (relay_begins (gw_tier s) (gw_servers s) ip)).
Proof.
  intros Hi. apply inv_servers; [|done]. destruct Hi as [_ _ H3 (Hn & Hl & Hc) _]. unfold relay_begins.
  rewrite (contains_evolves _ _ _ H3). destruct (contains t0 ip) eqn:E; [done|]. unfold remember_state_server.
  split_and!.
  - eapply sublist_NoDup; [|apply sublist_take]. constructor; [rewrite list_elem_of_filter; tauto|].
    by apply NoDup_filter.
  - rewrite length_take. lia.
  - apply Forall_take. constructor; [done|]. by apply Forall_keep.
Qed.

Lemma inv_relay_over cfg t0 s ip r :
  gw_inv cfg t0 s -> gw_inv cfg t0 (set_servers s (relay_over (gw_servers s) ip r)).
Proof.
  intros Hi. apply inv_servers; [|done]. destruct Hi as [_ _ _ (Hn & Hl & Hc) _]. unfold relay_over.
  case_match; [|done]. unfold forget_state_server. split_and!; [by apply NoDup_filter| |by apply Forall_keep].
  etransitivity; [apply length_filter|done].
Qed.

Section Steps.
Context `{UpstreamFilter} (cfg : GwCfg) (t0 : PriorityTier).
Abbreviation inv := (gw_inv cfg t0).

Lemma inv_begin_pin s k c next ip j :
  gw_conns s !! k = Some c -> conn_slots c = [] -> conn_pin c = None -> inv s -> inv (begin_pin s k c next ip j).
Proof.
  intros Hk Hs Hp Hi. unfold begin_pin. destruct (handed (gw_racing s) j) as [[slot racing]|] eqn:Hj; [|done].
  set (s1 := match next with NRelay => _ | _ => s end).
  assert (Hi1 : inv s1) by (unfold s1; destruct next; [done..|by apply inv_relay_begins]).
  assert (E : gw_conns s1 = gw_conns s /\ gw_racing s1 = gw_racing s) by (by destruct next).
  destruct E as [Ec Er]. rewrite <- Ec in Hk. rewrite <- Er in Hj.
  apply (inv_pin_begins cfg t0 s1 k c _ slot racing j ip); try done; cbn; by rewrite ?Hs, ?Hp.
Qed.

Lemma inv_selected s k c r now : gw_conns s !! k = Some c -> inv s -> inv (selected s k c r now).
Proof.
  intros Hk Hi. unfold selected.
  destruct (c_at c) eqn:Ec; try (by destruct r as [[??]|]);
    assert (Es : conn_slots c = []) by (by unfold conn_slots; rewrite Ec);
    assert (Ep : conn_pin c = None) by (by unfold conn_pin; rewrite Ec);
    (destruct r as [[ip j]|]; [case_bool_decide; [by apply inv_begin_pin|done]|by apply inv_idle]).
Qed.

Lemma inv_pinned s k c next peer slot :
  gw_conns s !! k = Some c -> c_at c = AtPinning next peer slot -> inv s -> inv (pinned s k c next peer slot).
Proof.
  intros Hk Ec Hi. unfold pinned.
  assert (Es : conn_slots c = option_list slot) by (by unfold conn_slots; rewrite Ec).
  destruct next.
  - destruct (session_slot (gw_tier s) slot (ap_ip peer)) as [slot' t] eqn:E. apply inv_move; [done| | | |done|done].
    + intros rest. rewrite Es. intros Hr%counted_front. apply counted_front.
      by apply (session_slot_counted _ _ _ _ _ _ E).
    + intros p. cbn. intros [= ->]. by left.
    + clear -E. unfold session_slot in E. destruct slot; [by simplify_eq|].
      destruct (acquire _ _) as [[i t1]|] eqn:Ea; simplify_eq; [by eapply evolves_acquire|done].
  - apply inv_move; [done|intros rest; by rewrite Es|intros p; cbn; intros [= ->]; by left|done..].
  - apply inv_move; [done|intros rest; by rewrite Es|intros p; cbn; intros [= ->]; by left|done..].
Qed.

Lemma inv_switched s k c guard peer slot new new_slot :
  gw_conns s !! k = Some c -> c_at c = AtSwitching guard peer slot new new_slot -> inv s ->
  inv (switched s k c guard slot new new_slot).
Proof.
  intros Hk Ec Hi. unfold switched.
  assert (Es : conn_slots c = option_list slot ++ option_list new_slot) by (by unfold conn_slots; rewrite Ec).
  destruct (match new_slot with Some i => _ | None => _ end) as [slot' t] eqn:E.
  assert (Hacq : tier_evolves (gw_tier s) t /\
    forall gs, counted (gw_tier s, option_list new_slot ++ gs) -> counted (t, option_list slot' ++ gs)).
  { destruct new_slot as [i|]; [by simplify_eq|].
    destruct (try_acquire _ _) as [[i t1]|] eqn:Ea; simplify_eq; [|done].
    split; [by eapply evolves_try_acquire|]. intros gs. by apply (counted_acquire _ _ (ap_ip new)). }
  destruct Hacq as [He Hc]. apply inv_move; [done| | | | |done].
  - intros rest. rewrite Es. intros Hr%counted_front. apply counted_front, counted_release, counted_front.
    rewrite <- app_assoc in Hr. by apply Hc, counted_front.
  - intros p. cbn. intros [= ->]. by left.
  - etransitivity; [exact He|apply evolves_release].
  - intros _. unfold unswitched. by rewrite Ec.
Qed.

Lemma inv_panicked s k c : gw_conns s !! k = Some c -> inv s -> inv (panicked s k c).
Proof.
  intros Hk Hi. unfold panicked. destruct (c_at c) as [| | | | | | |guard peer slot| | | |] eqn:Ec; try done;
    assert (Es : conn_slots c = _) by (unfold conn_slots; rewrite Ec; reflexivity);
    assert (Ep : conn_pin c = _) by (unfold conn_pin; rewrite Ec; reflexivity);
    [by apply inv_idle..| | | |by apply inv_idle].
  - destruct (decide (peer = guard)) as [->|Hne]; [by apply inv_drop|].
    assert (Hi' : inv (set_orphans s ((c_node c, peer) :: gw_orphans s))).
    { destruct Hi as [H1 H2 H3 H4 H5]. split; try done.
      - intros n p Hsp. destruct (H2 n p Hsp); [by left|right; by constructor].
      - intros Hg. destruct (H5 Hg) as [_ Hf]. pose proof (Forall_lookup_1 unswitched _ _ _ Hf Hk) as Hu.
        unfold unswitched in Hu. by rewrite Ec in Hu. }
    eapply (inv_end cfg t0 (set_orphans s _) k c (gw_tier s) slot
      (clear_active_if_current (node_of s (c_node c)) guard)); try done. intros p [Hsp _]%cleared_pin. cbn.
    destruct (decide (p = peer)) as [->|]; [left; by constructor|right; split; [done|congruence]].
  - by apply inv_drop.
  - by apply inv_drop.
Qed.

Lemma inv_push_over s k c guard peer slot reason now :
  gw_conns s !! k = Some c -> c_at c = AtPush guard peer slot -> inv s ->
  inv (push_over s k c guard peer slot reason now).
Proof.
  intros Hk Ec Hi. unfold push_over. destruct (cool_down_on_fault _ _ _ _ _) as [t m] eqn:E.
  apply cool_down_on_fault_keeps in E as [Hc Ht]. apply (inv_end cfg t0 (set_cooling s m)); try done.
  - by unfold conn_slots; rewrite Ec.
  - intros p [[Hsp Hne]%cleared_pin _]%cleared_pin. right. split; [done|]. unfold conn_pin. rewrite Ec. congruence.
  - by apply inv_cooldown.
Qed.

Lemma inv_splice_over s k c peer slot r now :
  gw_conns s !! k = Some c -> c_at c = AtSplice peer slot -> inv s -> inv (splice_over s k c peer slot r now).
Proof.
  intros Hk Ec Hi. unfold splice_over. destruct (match r with Some _ => _ | None => _ end) as [t m] eqn:E.
  assert (Hk' : (forall gs, counted (gw_tier s, gs) -> counted (t, gs)) /\ tier_evolves (gw_tier s) t).
  { destruct r as [r|]; [destruct (rel_upstream_ended r)|]; [by eapply cool_down_keeps|by simplify_eq..]. }
  destruct Hk' as [Hc Ht]. apply inv_drop; try done; [by unfold conn_slots; rewrite Ec|by unfold conn_pin; rewrite Ec|].
  by apply inv_cooldown.
Qed.

Lemma inv_relay_ends s k c peer slot r :
  gw_conns s !! k = Some c -> c_at c = AtRelay peer slot -> inv s -> inv (relay_ends s k c peer slot r).
Proof.
  intros Hk Ec Hi. unfold relay_ends.
  apply inv_drop; try done; [by unfold conn_slots; rewrite Ec|by unfold conn_pin; rewrite Ec|].
  destruct r; [by apply inv_relay_over|by destruct Hi].
Qed.

Lemma inv_switch_begins s k c guard peer slot ip j :
  0 < gc_standbys cfg -> gw_conns s !! k = Some c -> c_at c = AtPush guard peer slot -> inv s ->
  inv (switch_begins s k c guard peer slot ip j).
Proof.
  intros Hg Hk Ec Hi. unfold switch_begins. destruct (handed _ _) as [[new_slot racing]|] eqn:Hj; [|done].
  apply (inv_pin_begins cfg t0 s k c _ new_slot racing j ip); try done.
  - by unfold conn_slots; rewrite Ec.
  - by unfold conn_pin; rewrite Ec.
  - lia.
Qed.

Lemma inv_accept s c : conn_slots c = [] -> unswitched c -> inv s ->
  inv (mkGw P (gw_tier s) (gw_racing s) (gw_nodes s) (gw_cooldown s) (gw_servers s) (gw_rr s)
         (gw_conns s ++ [c]) (gw_orphans s)).
Proof.
  intros Hs Hu [H1 H2 H3 H4 H5]. split; try done; cbn.
  - rewrite bind_app. cbn. by rewrite Hs, !app_nil_r.
  - intros n p Hsp. destruct (H2 n p Hsp) as [(k & c1 & Hk & ?)|]; [|by right]. left. exists k, c1.
    split; [by apply lookup_app_l_Some|done].
  - intros Hg. destruct (H5 Hg). split; [done|]. apply Forall_app. auto.
Qed.

Lemma unpinned_pin (n : NodeState P) p : session_pin (unpin n) = Some p -> session_pin n = Some p.
Proof.
  unfold session_pin, unpin, unpin_blacklisted. cbn. destruct (lazy_active n); [done|].
  destruct (n_active n); [|done]. by destruct (blocked _).
Qed.

Lemma gw_step_inv s e : inv s -> inv (gw_step cfg s e).
Proof.
  intros Hi. destruct e as [o|node pool greet now|k|k w sc nt now|k now|k r now|k|k ip j|k rs now|k r now|k|node f|node ip|node];
    cbn [gw_step].
  - destruct (op_step _ o) as [t racing] eqn:Eo. destruct Hi as [H1 H2 H3 H4 H5]. split; try done; cbn.
    + by eapply counted_other.
    + pose proof (evolves_op (gw_tier s) (gw_racing s) o) as He. rewrite Eo in He. by etransitivity.
  - destruct (usable_peers _ _ _) as [peers m]. destruct (route _ _ _ _); try by apply inv_cooldown.
    all: apply (inv_accept (set_cooling s m)); [done..|by apply inv_cooldown].
  - destruct (gw_conns s !! k) as [c|] eqn:Hk; [|done]. destruct (c_at c) eqn:Ec; try done. case_match; [|done].
    apply inv_idle; try done; by unfold conn_slots, conn_pin; rewrite Ec.
  - destruct (gw_conns s !! k) as [c|] eqn:Hk; [|done]. destruct (c_at c) eqn:Ec; try done.
    unfold replay_cache_then_live.
    destruct w; cbn [negb]; (apply inv_idle; try done; try (by unfold conn_slots, conn_pin; rewrite Ec)); [|by apply inv_rr].
    by case_match.
  - destruct (gw_conns s !! k) as [c|] eqn:Hk; [|done]. destruct (c_at c) eqn:Ec; try done. case_match.
    + unfold transparent_bootstrap. apply inv_idle; try done; try (by unfold conn_slots, conn_pin; rewrite Ec).
      by apply inv_rr.
    + unfold handle_4001_live.
      case_match; (apply inv_idle; try done; try (by unfold conn_slots, conn_pin; rewrite Ec); by apply inv_rr).
  - destruct (gw_conns s !! k) as [c|] eqn:Hk; [|done].
    destruct (c_at c) eqn:Ec; by apply inv_selected.
  - destruct (gw_conns s !! k) as [c|] eqn:Hk; [|done].
    destruct (c_at c) eqn:Ec; try done; [by apply inv_pinned|by eapply inv_switched].
  - destruct (gw_conns s !! k) as [c|] eqn:Hk; [|done]. destruct (c_at c) eqn:Ec; try done.
    case_match eqn:Eg; [|done]. apply Z.ltb_lt in Eg. by apply inv_switch_begins.
  - destruct (gw_conns s !! k) as [c|] eqn:Hk; [|done]. destruct (c_at c) eqn:Ec; try done. by apply inv_push_over.
  - destruct (gw_conns s !! k) as [c|] eqn:Hk; [|done].
    destruct (c_at c) eqn:Ec; try done; [by apply inv_splice_over|by apply inv_relay_ends].
  - destruct (gw_conns s !! k) as [c|] eqn:Hk; [|done]. destruct (c_at c) eqn:Ec; by apply inv_panicked.
  - unfold floor_expires. case_match; [|done]. by apply inv_set_node.
  - apply inv_set_node; [|done]. intros p. unfold pin_lazy_active.
    destruct (n_active (unpin (node_of s node))); [apply unpinned_pin|done].
  - apply inv_set_node; [|done]. apply unpinned_pin.
Qed.
End Steps.

Lemma gw_run_inv cfg t0 evs s : gw_inv cfg t0 s -> gw_inv cfg t0 (gw_run cfg s evs).
Proof.
  intros Hi. unfold gw_run. apply (foldl_inv _ (gw_inv cfg t0)); [done|]. intros s' fe Hs. by apply gw_step_inv.
Qed.

Lemma gw_start_inv cfg t0 : counted (t0, []) -> gw_inv cfg t0 (gw_start t0).
Proof.
  intros Hc. split; cbn; [done|done|done| |done].
  split_and!; [constructor|unfold STATE_SERVER_MEMORY; lia|constructor].
Qed.

(** A panic of the [k]th handler after its hot-standby session has left its first pin. *)
Definition strands (s : Gw) (e : gw_event) (n : Z) (p : ActivePeer) : Prop :=
  exists k guard slot peers, e = GPanic k /\ gw_conns s !! k = Some (mkConn n peers (AtPush guard p slot)) /\ p <> guard.

Lemma gw_step_orphans `{UpstreamFilter} cfg s e n p :
  (n, p) ∈ gw_orphans (gw_step cfg s e) -> (n, p) ∈ gw_orphans s \/ strands s e n p.
Proof.
  assert (Hsame : gw_orphans (gw_step cfg s e) = gw_orphans s -> (n, p) ∈ gw_orphans (gw_step cfg s e) ->
    (n, p) ∈ gw_orphans s \/ strands s e n p) by (intros ->; by left).
  destruct e as [o|node pool greet now|k|k w sc nt now|k now|k r now|k|k ip j|k rs now|k r now|k|node f|node ip|node];
    try (apply Hsame; cbn [gw_step]; try done; unfold transparent_bootstrap, handle_4001_live, replay_cache_then_live, pinned, switched,
      switch_begins, push_over, splice_over, relay_ends, floor_expires, selected, begin_pin, drop_session_of;
      by repeat (case_match; try done)).
  cbn [gw_step]. destruct (gw_conns s !! k) as [[n' peers ph]|] eqn:Hk; [|by intros; left]. cbn [c_at].
  destruct ph; try (by intros; left). unfold panicked. cbn [c_at c_node]. case_decide as Hg; [by intros; left|]. cbn.
  intros [[= -> ->]|Ho]%elem_of_cons; [|by left]. right. eexists _, _, _, _. by split_and!.
Qed.

Lemma gw_run_snoc cfg s evs fe : gw_run cfg s (evs ++ [fe]) = @gw_step P fe.1 cfg (gw_run cfg s evs) fe.2.
Proof. unfold gw_run. by rewrite foldl_snoc. Qed.

Lemma orphans_stranded cfg t0 evs n p :
  (n, p) ∈ gw_orphans (gw_run cfg (gw_start (P := P) t0) evs) ->
  exists pre fe post, evs = pre ++ fe :: post /\ strands (gw_run cfg (gw_start t0) pre) fe.2 n p.
Proof.
  induction evs as [|fe evs IH] using rev_ind; [by intros ?%not_elem_of_nil|]. rewrite gw_run_snoc.
  intros [Ho|Hs]%gw_step_orphans; [|by exists evs, fe, []].
  destruct (IH Ho) as (pre & fe' & post & -> & Hs). exists pre, fe', (post ++ [fe]). by rewrite <- app_assoc.
Qed.

(** Without standbys, or in a run without panics, nothing is stranded. *)
Lemma no_orphans cfg t0 evs :
  counted (t0, []) -> gc_standbys cfg <= 0 \/ Forall (fun fe => forall k, fe.2 <> GPanic k) evs ->
  gw_orphans (gw_run cfg (gw_start (P := P) t0) evs) = [].
Proof.
  intros Hc [Hg|Hf]; [by apply (gi_plain _ _ _ (gw_run_inv cfg t0 evs _ (gw_start_inv cfg t0 Hc)))|].
  apply elem_of_nil_inv. intros [n p] (pre & fe & post & -> & k & ? & ? & ? & E & _)%orphans_stranded.
  apply Forall_app in Hf as [_ [Hf _]%Forall_cons]. by apply (Hf k).
Qed.

(** C9: no handler leaks what it holds. Over any interleaving of connections, cache replays,
    selections with their outcomes, hot-standby switches, session ends, panics, lazy pins, blacklist
    changes and the tier operations of races, the priority slots in use are exactly those held by
    races and handlers; once every handler is over and no race runs, every slot is free. A node's
    session pin is the pin of a handler that runs for this node, or was left by the panic of a
    hot-standby session that had switched away from its first pin: its guard clears the first pin
    only. So without standbys, or in a run without panics, a session pin always belongs to a running
    handler and none is left once all are over. The remembered state servers are at most eight,
    distinct, and never a priority peer. *)
Theorem handlers_hold_every_slot_and_pin (cfg : GwCfg) (t0 : PriorityTier)
    (evs : list (UpstreamFilter * gw_event)) :
  counted (t0, []) ->
  let run evs := gw_run cfg (gw_start (P := P) t0) evs in
  let s := run evs in
  let over := Forall (fun c => c_at c = AtOver) (gw_conns s) in
  let holds n p := exists k c, gw_conns s !! k = Some c /\ c_node c = n /\ conn_pin c = Some p in
  counted (gw_tier s, gw_racing s ++ (gw_conns s ≫= conn_slots)) /\
  (over -> gw_racing s = [] -> forall i, (i < length (peers t0))%nat -> load (gw_tier s) i = 0) /\
  (forall n p, session_pin (node_of s n) = Some p ->
    holds n p \/ exists pre fe post, evs = pre ++ fe :: post /\ strands (run pre) fe.2 n p) /\
  (gc_standbys cfg <= 0 \/ Forall (fun fe => forall k, fe.2 <> GPanic k) evs ->
    (forall n p, session_pin (node_of s n) = Some p -> holds n p) /\
    (over -> forall n, session_pin (node_of s n) = None)) /\
  (NoDup (gw_servers s) /\ (length (gw_servers s) <= STATE_SERVER_MEMORY)%nat /\
    Forall (fun ip => contains (gw_tier s) ip = false) (gw_servers s)).
Proof.
  intros Hc run s over holds.
  destruct (gw_run_inv cfg t0 evs _ (gw_start_inv cfg t0 Hc)) as [H1 H2 H3 (H4 & H4' & H4'') _].
  change (gw_run cfg (gw_start t0) evs) with s in H1, H2, H3, H4, H4', H4''.
  assert (Hholds : over -> forall n p, ~ holds n p).
  { intros Hover n p (k & c & Hk & _ & Hp). apply (Forall_lookup_1 _ _ _ _ Hover) in Hk.
    unfold conn_pin in Hp. by rewrite Hk in Hp. }
  split_and!; [done| | | |done|done|].
  - intros Hover Hr i Hi. assert (Es : gw_conns s ≫= conn_slots = []).
    { clear -Hover. induction Hover as [|c l Ec _ IH]; [done|]. cbn. unfold conn_slots at 1. by rewrite Ec. }
    destruct H3 as (_ & Ep & _ & _), H1 as (_ & _ & H1). cbn in H1. rewrite Hr, Es in H1. rewrite H1 by congruence. done.
  - intros n p Hsp. destruct (H2 n p Hsp) as [Ho|Ho]; [by left|right; by apply orphans_stranded].
  - intros Hq. assert (Hpin : forall n p, session_pin (node_of s n) = Some p -> holds n p).
    { intros n p Hsp. destruct (H2 n p Hsp) as [Ho|Ho]; [done|]. unfold s, run in Ho.
      rewrite no_orphans in Ho by done. by apply not_elem_of_nil in Ho. }
    split; [done|]. intros Hover n. destruct (session_pin (node_of s n)) as [p|] eqn:E; [|done].
    by destruct (Hholds Hover n p); apply Hpin.
  - eapply Forall_impl; [exact H4''|]. intros ip. by rewrite (contains_evolves _ _ _ H3).
Qed.
(** ** Faults *)

(** The peer a session's end blames, and when: the last upstream of a push session that ended by a
    fault of its stream, the upstream of a splice that ended its copy. *)
Definition blamed (s : Gw) (e : gw_event) : option (string * Z) :=
  match e with
  | GPushOver k reason at_ =>
      match c_at <$> gw_conns s !! k with
      | Some (AtPush _ peer _) => if push_exit_is_upstream_fault reason then Some (ap_ip peer, at_) else None
      | _ => None
      end
  | GRelayOver k (Some r) at_ =>
      match c_at <$> gw_conns s !! k with
      | Some (AtSplice peer _) => if rel_upstream_ended r then Some (ap_ip peer, at_) else None
      | _ => None
      end
  | _ => None
  end.

Definition ends_session (e : gw_event) : bool :=
  match e with GPushOver _ _ _ | GRelayOver _ _ _ | GPanic _ => true | _ => false end.

(** When a step reads the clock of the peer cooldown. *)
Definition cooldown_time (e : gw_event) : option Z :=
  match e with GAccept _ _ _ now | GPushOver _ _ now | GRelayOver _ _ now => Some now | _ => None end.

Lemma cool_down_op t m ip now : exists ops,
  (Gateway.cool_down t m ip now).2 = foldl cooldown_step m ops /\ Forall (fun o => op_time o = now) ops.
Proof. unfold Gateway.cool_down. case_match; [by exists []|]. exists [CMark ip now]. split; [done|by repeat constructor]. Qed.

(** What a step does to the peer cooldown. *)
Lemma gw_step_cooldown `{UpstreamFilter} cfg s e : exists ops,
  gw_cooldown (gw_step cfg s e) = foldl cooldown_step (gw_cooldown s) ops /\
  Forall (fun o => Some (op_time o) = cooldown_time e) ops.
Proof.
  assert (Hsame : gw_cooldown (gw_step cfg s e) = gw_cooldown s -> exists ops,
    gw_cooldown (gw_step cfg s e) = foldl cooldown_step (gw_cooldown s) ops /\
    Forall (fun o => Some (op_time o) = cooldown_time e) ops) by (intros E; by exists []).
  assert (Hcool : forall t m ip now t' m', Gateway.cool_down t m ip now = (t', m') -> exists ops,
    m' = foldl cooldown_step m ops /\ Forall (fun o => Some (op_time o) = Some now) ops).
  { intros t m ip now t' m' E. destruct (cool_down_op t m ip now) as (ops & Eo & Ho). rewrite E in Eo.
    exists ops. split; [done|]. eapply Forall_impl; [exact Ho|]. by intros o ->. }
  destruct e as [o|node pool greet now|k|k w sc nt now|k now|k r now|k|k ip j|k rs now|k r now|k|node f|node ip|node];
    try (apply Hsame; cbn [gw_step]; try done; unfold transparent_bootstrap, handle_4001_live, replay_cache_then_live, pinned,
      switched, switch_begins, floor_expires, selected, begin_pin, panicked, drop_session_of;
      by repeat (case_match; try done)).
  - exists [CUsable pool now]. split; [|by repeat constructor]. cbn [gw_step foldl cooldown_step].
    destruct (usable_peers _ _ _) as [peers m]. by destruct (route _ _ _ _).
  - cbn [gw_step cooldown_time] in *. destruct (gw_conns s !! k) as [c|]; [|by apply Hsame].
    destruct (c_at c); try by apply Hsame. clear Hsame. unfold push_over.
    destruct (cool_down_on_fault _ _ _ _ _) as [t m] eqn:E. unfold cool_down_on_fault in E.
    destruct (push_exit_is_upstream_fault rs); [|injection E as <- <-; by exists []]. by apply Hcool in E.
  - cbn [gw_step cooldown_time] in *. destruct (gw_conns s !! k) as [c|]; [|by apply Hsame].
    destruct (c_at c); try by apply Hsame. clear Hsame. unfold splice_over.
    destruct (match r with Some _ => _ | None => _ end) as [t m] eqn:E.
    destruct r as [r|]; [destruct (rel_upstream_ended r)|]; [by apply Hcool in E|injection E as <- <-; by exists []..].
Qed.

Lemma gw_run_cooldown cfg s evs at_ now :
  Forall (fun fe => forall t, cooldown_time fe.2 = Some t -> at_ <= t <= now) evs -> exists ops,
  gw_cooldown (gw_run cfg s evs) = foldl cooldown_step (gw_cooldown s) ops /\
  Forall (fun o => at_ <= op_time o <= now) ops.
Proof.
  induction evs as [|fe evs IH] using rev_ind; [by exists []|]. intros [Hf [Hfe _]%Forall_cons]%Forall_app.
  destruct (IH Hf) as (ops & E & Ho). rewrite gw_run_snoc.
  destruct (@gw_step_cooldown fe.1 cfg (gw_run cfg s evs) fe.2) as (ops' & E' & Ho').
  exists (ops ++ ops'). rewrite foldl_app, E', E. split; [done|]. apply Forall_app. split; [done|].
  eapply Forall_impl; [exact Ho'|]. intros o Eo. by apply Hfe.
Qed.

(** What an end that blames a peer leaves: the peer cools down in its tier or in the pool. *)
Lemma cool_down_marks t m ip at_ :
  tier_ok t -> let '(t', m') := Gateway.cool_down t m ip at_ in
  if contains t ip then cooled (at_ + PRIORITY_COOLDOWN) t' ip /\ m' = m
  else m' !! ip = Some (at_ + SESSION_FAULT_COOLDOWN).
Proof.
  intros Hok. unfold Gateway.cool_down. destruct (contains t ip) eqn:E.
  - split; [|done]. apply cooled_mark; [done| |done]. unfold contains in E. apply bool_decide_eq_true in E as [i Hi].
    apply index_lt in Hi as [_ Hi]. by eapply list_elem_of_lookup_2.
  - unfold mark. by rewrite lookup_insert_eq.
Qed.

Lemma blamed_step `{UpstreamFilter} cfg s e ip at_ :
  tier_ok (gw_tier s) -> blamed s e = Some (ip, at_) ->
  if contains (gw_tier s) ip then cooled (at_ + PRIORITY_COOLDOWN) (gw_tier (gw_step cfg s e)) ip
  else gw_cooldown (gw_step cfg s e) !! ip = Some (at_ + SESSION_FAULT_COOLDOWN).
Proof.
  intros Hok Hb.
  destruct e as [o|node pool greet now|k|k w sc nt now|k now|k r now|k|k ip' j|k rs now|k r now|k|node f|node ip'|node];
    try done; [|destruct r as [r|]; [|done]]; cbn [blamed gw_step] in *; (destruct (gw_conns s !! k) as [c|]; [|done]);
    cbn in Hb; (destruct (c_at c) as [| | | | | | |guard peer slot| |peer slot| |]; try done).
  - destruct (push_exit_is_upstream_fault rs) eqn:Ef; [|done]. injection Hb as <- <-.
    unfold push_over, cool_down_on_fault. rewrite Ef. pose proof (cool_down_marks (gw_tier s) (gw_cooldown s) (ap_ip peer) now Hok) as Hm.
    destruct (Gateway.cool_down _ _ _ _) as [t m]. cbn. destruct (contains _ _); [|done]. destruct Hm as [Hm _].
    by eapply cooled_evolves; [apply evolves_release|].
  - destruct (rel_upstream_ended r) eqn:Ef; [|done]. injection Hb as <- <-.
    unfold splice_over. rewrite Ef. pose proof (cool_down_marks (gw_tier s) (gw_cooldown s) (ap_ip peer) now Hok) as Hm.
    destruct (Gateway.cool_down _ _ _ _) as [t m]. cbn. destruct (contains _ _); [|done]. destruct Hm as [Hm _].
    by eapply cooled_evolves; [apply evolves_release|].
Qed.

(** An end that blames nobody leaves both cooldowns. *)
Lemma unblamed_step `{UpstreamFilter} cfg s e :
  ends_session e = true -> blamed s e = None ->
  cooldown_until (gw_tier (gw_step cfg s e)) = cooldown_until (gw_tier s) /\ gw_cooldown (gw_step cfg s e) = gw_cooldown s.
Proof.
  intros He Hb. assert (Hr : forall t slot, cooldown_until (release t slot) = cooldown_until t) by (by intros t [|]).
  destruct e as [o|node pool greet now|k|k w sc nt now|k now|k r now|k|k ip' j|k rs now|k r now|k|node f|node ip'|node];
    try done; cbn [gw_step blamed] in *; (destruct (gw_conns s !! k) as [c|]; [|done]); cbn in Hb;
    (destruct (c_at c) as [| | | | | | |guard peer slot| |peer slot|peer slot|] eqn:Ec; try done);
    unfold push_over, cool_down_on_fault, splice_over, relay_ends, panicked, drop_session_of; rewrite ?Ec; cbn; rewrite ?Hr; try done.
  - destruct (push_exit_is_upstream_fault rs); [done|]. cbn. by rewrite Hr.
  - destruct r as [r|]; [destruct (rel_upstream_ended r); [done|]|]; cbn; by rewrite Hr.
  - case_decide; cbn; by rewrite Hr.
Qed.

Lemma gw_run_evolves cfg t0 s evs : gw_inv cfg t0 s -> tier_evolves (gw_tier s) (gw_tier (gw_run cfg s evs)).
Proof.
  intros [H1 H2 H3 (Hn & Hl & Hs) H5]. refine (gi_tier cfg _ _ (gw_run_inv cfg (gw_tier s) evs s _)).
  split; [done|done|done| |done]. split_and!; [done|done|]. eapply Forall_impl; [exact Hs|].
  intros ip. by rewrite (contains_evolves _ _ _ H3).
Qed.

(** C28: a session that ends by the fault of its upstream at [at_] keeps that peer away for the next
    30 seconds, whatever happens in between. The blamed peer is the one a push session ran on last,
    its hot-standby switches included, when the reason is a fault of the stream, and the peer of a
    splice whose upstream ended it. A priority peer is no candidate of its tier; a pool peer is not
    among the peers of a new connection unless every peer of the pool is cooling down, when all of
    them are. Every other end of a session, a bootstrap relay's and a panic included, leaves both
    cooldowns as they are. *)
Theorem faulty_upstream_is_avoided (cfg : GwCfg) (t0 : PriorityTier) (pre post : list (UpstreamFilter * gw_event))
    (fe : UpstreamFilter * gw_event) (F : UpstreamFilter) (now : Z) :
  counted (t0, []) ->
  let s := gw_run cfg (gw_start (P := P) t0) pre in
  let s1 := @gw_step P fe.1 cfg s fe.2 in
  let s2 := gw_run cfg s1 post in
  match blamed s fe.2 with
  | Some (ip, at_) =>
      now < at_ + seconds 30 ->
      Forall (fun fe => forall t, cooldown_time fe.2 = Some t -> at_ <= t <= now) post ->
      if contains t0 ip then ip ∉ candidates_at (gw_tier s2) now
      else forall node pool greet c,
        gw_conns (gw_step cfg s2 (GAccept node pool greet now)) !! length (gw_conns s2) = Some c -> ip ∈ c_peers c ->
        c_peers c = pool /\ Forall (fun ip => exists u, gw_cooldown s2 !! ip = Some u /\ now < u) pool
  | None => ends_session fe.2 = true ->
      cooldown_until (gw_tier s1) = cooldown_until (gw_tier s) /\ gw_cooldown s1 = gw_cooldown s
  end.
Proof.
  intros Hc s s1 s2. pose proof (gw_run_inv cfg t0 pre _ (gw_start_inv cfg t0 Hc)) as Hi. fold s in Hi.
  destruct (blamed s fe.2) as [[ip at_]|] eqn:Hb; [|by intros He; apply unblamed_step].
  intros Hnow Hpost. pose proof (gi_slots _ _ _ Hi) as (Hok & _). cbn in Hok.
  pose proof (@blamed_step fe.1 cfg s fe.2 ip at_ Hok Hb) as Hm. fold s1 in Hm.
  rewrite (contains_evolves _ _ _ (gi_tier _ _ _ Hi)) in Hm.
  assert (Hi1 : gw_inv cfg t0 s1) by (by apply gw_step_inv). destruct (contains t0 ip).
  - eapply cooled_not_candidate; [eapply cooled_evolves; [by eapply gw_run_evolves|exact Hm]|].
    unfold PRIORITY_COOLDOWN. lia.
  - destruct (gw_run_cooldown cfg s1 post at_ now Hpost) as (ops & E & Ho).
    destruct (marked_stays (gw_cooldown s1) ip at_ ops now) as (u & Hu & _); [by eexists|done|done|].
    rewrite <- E in Hu. fold s2 in Hu. intros node pool greet c. cbn [gw_step].
    destruct (usable_peers (gw_cooldown s2) pool now) as [peers m] eqn:Eu.
    intros Hk Hip. assert (Ep : c_peers c = peers).
    { destruct (route _ _ _ _); cbn in Hk; try (by rewrite lookup_ge_None_2 in Hk by lia);
        rewrite list_lookup_middle in Hk by done; by injection Hk as <-. }
    rewrite Ep in Hip |- *. pose proof (usable_cooling (gw_cooldown s2) pool now ip (ex_intro _ u Hu)) as Hall.
    rewrite Eu in Hall. destruct (Hall Hip) as [Hpool Hcool]. split; [done|].
    eapply Forall_impl; [exact Hcool|]. intros ip' [v Hv]. apply cooling_at_lookup in Hv as [? ?]. by exists v.
Qed.
End SessionProofs.

(** ** Witnesses *)

(** Two nodes: the first gets a priority peer through a race's slot, the second a bootstrap relay from
    the pool; both end. *)
Definition example_run (last : list gw_event) : list (UpstreamFilter * gw_event) :=
  (fun e => (no_filter, e)) <$> (
    [GAccept 7 ["9.9.9.9"]%string (Some [0; 0; 0; 3; 0; 0; 0; 1]) 0; GHandle 0 0;
     GOther (OTryAcquire "10.0.0.1"); GSelected 0 (Some ("10.0.0.1"%string, Some 0%nat)) 1; GPinned 0;
     GAccept 8 ["9.9.9.9"]%string (Some [0; 0; 0; 3; 0; 1; 0; 1]) 2; GHandle 1 2;
     GSelected 1 (Some ("9.9.9.9"%string, None)) 3; GPinned 1] ++ last).

Lemma handlers_hold_every_slot_and_pin_witness :
  let run last := gw_run (mkGwCfg true 2) (gw_start (P := unit) example_tier) (example_run last) in
  let s := run [GSwitch 0 "9.9.9.9" None; GPinned 0] in
  let s' := run [GSwitch 0 "9.9.9.9" None; GPinned 0; GPushOver 0 "EOF" 4; GRelayOver 1 (Some (mkRelayed 0 0 true)) 5] in
  load (gw_tier s) 0 = 0 /\ session_pin (node_of s 7) = Some (mkPeer "9.9.9.9" 2) /\
  gw_servers s = ["9.9.9.9"]%string /\
  (exists k c, gw_conns s !! k = Some c /\ c_node c = 7 /\ conn_pin c = Some (mkPeer "9.9.9.9" 2)) /\
  load (gw_tier s') 0 = 0 /\ session_pin (node_of s' 7) = None /\ session_pin (node_of s' 8) = None.
Proof.
  intros run s s'.
  destruct (handlers_hold_every_slot_and_pin (P := unit) (mkGwCfg true 2) example_tier
    (example_run [GSwitch 0 "9.9.9.9" None; GPinned 0]) example_tier_counted) as (_ & _ & _ & Hp & _).
  destruct Hp as [Hp _]; [right; repeat constructor; intros k; discriminate|].
  destruct (handlers_hold_every_slot_and_pin (P := unit) (mkGwCfg true 2) example_tier
    (example_run [GSwitch 0 "9.9.9.9" None; GPinned 0; GPushOver 0 "EOF" 4; GRelayOver 1 (Some (mkRelayed 0 0 true)) 5])
    example_tier_counted) as (_ & Hl & _ & He & _).
  destruct He as [_ He]; [right; repeat constructor; intros k; discriminate|].
  split_and!; [vm_compute; reflexivity|vm_compute; reflexivity|vm_compute; reflexivity|apply Hp; vm_compute; reflexivity|
    apply Hl; [vm_compute; repeat constructor|vm_compute; reflexivity|cbn; lia]|
    apply He; vm_compute; repeat constructor|apply He; vm_compute; repeat constructor].
Defined.

(** The session of the first node has switched to a pool peer, which then stalls. *)
Lemma faulty_upstream_is_avoided_witness :
  let cfg := mkGwCfg true 2 in
  let over := (no_filter, GPushOver 0 "active block round jump" 0) in
  let pool := ["9.9.9.9"; "8.8.8.8"]%string in
  let s := gw_run cfg (gw_start (P := unit) example_tier) (example_run [GSwitch 0 "9.9.9.9" None; GPinned 0]) in
  let s1 := @gw_step unit over.1 cfg s over.2 in
  let s2 := gw_run cfg s1 [] in
  let s3 := @gw_step unit no_filter cfg s2 (GAccept 7 pool (Some [0; 0; 0; 3; 0; 0; 0; 1]) (seconds 10)) in
  blamed s over.2 = Some ("9.9.9.9"%string, 0) /\
  c_peers <$> gw_conns s3 !! length (gw_conns s2) = Some ["8.8.8.8"]%string /\
  forall c, gw_conns s3 !! length (gw_conns s2) = Some c -> "9.9.9.9"%string ∈ c_peers c -> c_peers c = pool.
Proof.
  intros cfg over pool s s1 s2 s3.
  assert (Eb : blamed s over.2 = Some ("9.9.9.9"%string, 0)) by (vm_compute; reflexivity).
  split; [exact Eb|]. split; [vm_compute; reflexivity|].
  pose proof (faulty_upstream_is_avoided (P := unit) cfg example_tier (example_run [GSwitch 0 "9.9.9.9" None; GPinned 0])
    [] over no_filter (seconds 10) example_tier_counted) as H.
  cbv zeta in H. fold s in H. rewrite Eb in H. fold s1 s2 in H.
  assert (Hnow : seconds 10 < 0 + seconds 30) by (vm_compute; reflexivity).
  specialize (H Hnow (Forall_nil_2 _)).
  assert (Ec : contains example_tier "9.9.9.9" = false) by (vm_compute; reflexivity). rewrite Ec in H.
  intros c Hc Hip. exact (proj1 (H 7 pool (Some [0; 0; 0; 3; 0; 0; 0; 1]) c Hc Hip)).
Defined.

(** A hot-standby session that panics after a switch leaves its second pin. *)
Example panic_after_a_switch_leaves_the_pin :
  let s := gw_run (mkGwCfg true 2) (gw_start (P := unit) example_tier)
    (example_run [GSwitch 0 "9.9.9.9" None; GPinned 0; GPanic 0]) in
  session_pin (node_of s 7) = Some (mkPeer "9.9.9.9" 2) /\ c_at <$> gw_conns s !! 0%nat = Some AtOver /\
  load (gw_tier s) 0 = 0.
Proof. vm_compute. done. Qed.

