(* ===== verification/Handover.v ===== *)
(** From a peer's socket to a node: the vetting of a live peer ([open_live_peer_session_with_greet] of
    [src/gateway/select.rs]) reading its socket, and the push session that takes the socket over
    ([replay_cache_then_live] and [handle_4001_live] of [src/gateway/session.rs], [serve_push] of
    [src/push/live.rs]). *)

From S2P Require Import Prelude Text Blacklist Wire Priority Sock Freshest PushSession Relay PushServe Node Peers Sources.

Definition GREETING_MAX_LEN : Z := 1000.

(** The error a failed read of a frame gives. *)
Definition vet_error (e : FrameError) : IoErr :=
  mkErr (match e with FrameElapsed => Sources.TimedOut | _ => OtherKind end) (frame_error_text e).

Section Handover.
Context `{HashOrder} (lz4_decompress : bytes -> option bytes).

(** The vetting loop on a socket; a turn has the time left and the floor of the lag guard. *)
Fixpoint vet_stream (turns : list (Z * Z)) (s : list Read) (min_round_exclusive net_tip : Z) (kept : list bytes)
    (kept_bytes : Z) : IoErr + (list bytes * Z * list Read) :=
  match turns with
  | [] => inl (mkErr Sources.TimedOut "deadline has elapsed")
  | (remaining, floor) :: turns =>
      if remaining =? 0 then inl (other "no live block before deadline")
      else
        match read_live_frame_with_timeout MAX_LIVE_FRAME s with
        | (inl e, _) => inl (vet_error e)
        | (inr frame, s) =>
            match vet_turn lz4_decompress frame floor min_round_exclusive net_tip kept kept_bytes with
            | VetFails err => inl err
            | VetGoesOn kept kept_bytes => vet_stream turns s min_round_exclusive net_tip kept kept_bytes
            | VetAccepts frames round => inr (frames, round, s)
            end
        end
  end.

(** A connected peer that has our greeting: its own is read and vetted, then its first block. *)
Definition vet_peer (ip : string) (turns : list (Z * Z)) (s : list Read) (min_round_exclusive net_tip : Z)
    : IoErr + (LivePeerSession * list Read) :=
  match read_live_frame_with_timeout GREETING_MAX_LEN s with
  | (inl e, _) => inl (vet_error e)
  | (inr g, s) =>
      greeting ⇐ connect_and_greet_4001 (inr g);
      r ⇐ vet_stream turns s min_round_exclusive net_tip [] 0;
      inr (mkLive ip greeting r.1.1 r.1.2 None, r.2)
  end.

(** The session a vetted peer is handed to: it starts at the round selection started from. *)
Definition live_push_config (live : LivePeerSession) (cache_floor : Z) (freshest : option FreshestFeed) : PushConfig :=
  mkPushConfig (Some (lp_greeting live)) (lp_prefetched live) cache_floor freshest.

(** ** Lemmas: what was read *)

(** A vetting that succeeds has read frames it passes over, then the block it accepts, and leaves
    the rest of the socket. *)
Lemma vet_stream_spec turns s min_round tip kept n frames round s' :
  Forall is_byte (data s) -> vet_stream turns s min_round tip kept n = inr (frames, round, s') ->
  exists fs frame, concat (fs ++ [frame]) ++ data s' = data s /\ Forall is_byte (data s') /\
    Forall (framed MAX_LIVE_FRAME) (fs ++ [frame]) /\ frames = (kept_of lz4_decompress (kept, n) fs).1 ++ [frame] /\
    vet_round lz4_decompress frame = Some round /\ vet_skips round min_round tip = false /\
    round_lag_from_tip round tip ACTIVE_ROUND_MAX_LAG = None.
Proof.
  revert s kept n. induction turns as [|[rem floor] turns IH]; intros s kept n Hb; cbn [vet_stream]; [done|].
  destruct (rem =? 0); [done|].
  destruct (read_live_frame_with_timeout MAX_LIVE_FRAME s) as [[e|f] s1] eqn:Ef; [done|].
  destruct (read_frame_data _ _ _ _ Hb Ef) as (E1 & Hb1 & Hf).
  assert (Hgo : forall kept' n', kept_of lz4_decompress (kept, n) [f] = (kept', n') ->
    vet_stream turns s1 min_round tip kept' n' = inr (frames, round, s') ->
    exists fs frame, concat (fs ++ [frame]) ++ data s' = data s /\ Forall is_byte (data s') /\
      Forall (framed MAX_LIVE_FRAME) (fs ++ [frame]) /\ frames = (kept_of lz4_decompress (kept, n) fs).1 ++ [frame] /\
      vet_round lz4_decompress frame = Some round /\ vet_skips round min_round tip = false /\
      round_lag_from_tip round tip ACTIVE_ROUND_MAX_LAG = None).
  { intros kept' n' Ek Hv. destruct (IH s1 kept' n' Hb1 Hv) as (fs & frame & E2 & Hb2 & Hw & Efr & Hr).
    exists (f :: fs), frame. rewrite <- Ek in Efr.
    split_and!; [cbn; by rewrite <- app_assoc, E2|done|by apply Forall_cons_2|exact Efr|apply Hr..]. }
  unfold vet_turn. unfold kept_of in Hgo at 1. cbn in Hgo. destruct (vet_round lz4_decompress f) as [r|] eqn:Ev.
  - destruct (vet_skips r min_round tip) eqn:Es; [by apply Hgo|].
    destruct (round_lag_from_tip r tip ACTIVE_ROUND_MAX_LAG) eqn:El; [intros [=]|].
    destruct (r <? floor); [intros [=]|]. intros [= <- <- <-].
    exists [], f. split_and!; try done; [cbn; by rewrite app_nil_r|by apply Forall_cons_2; [|apply Forall_nil_2]].
  - destruct (keep_frame kept n f) as [k' n']. by apply Hgo.
Qed.

(** What a vetted peer is: its greeting, the frames kept and the first block start its stream. *)
Record vetted (live : LivePeerSession) (s s' : list Read) (min_round tip : Z) : Prop := {
  vd_stream : exists fs frame, concat (lp_greeting live :: fs ++ [frame]) ++ data s' = data s /\
    Forall (framed MAX_LIVE_FRAME) (fs ++ [frame]) /\
    lp_prefetched live = (kept_of lz4_decompress ([], 0) fs).1 ++ [frame] /\
    vet_round lz4_decompress frame = Some (lp_first_round live);
  vd_rest : Forall is_byte (data s');
  vd_passed : vet_skips (lp_first_round live) min_round tip = false;
  vd_lag : round_lag_from_tip (lp_first_round live) tip ACTIVE_ROUND_MAX_LAG = None
}.

Lemma vet_peer_vetted ip turns s min_round tip live s' :
  Forall is_byte (data s) -> vet_peer ip turns s min_round tip = inr (live, s') -> vetted live s s' min_round tip.
Proof.
  intros Hb. unfold vet_peer. destruct (read_live_frame_with_timeout GREETING_MAX_LEN s) as [[e|g] s1] eqn:Eg; [done|].
  destruct (read_frame_data _ _ _ _ Hb Eg) as (E1 & Hb1 & _).
  unfold connect_and_greet_4001. cbn [sum_bind]. destruct (response_is_peer_full g); [done|]. cbn [sum_bind].
  destruct (vet_stream turns s1 min_round tip [] 0) as [e|[[frames round] s2]] eqn:Ev; [done|]. cbn [sum_bind fst snd].
  intros [= <- <-]. destruct (vet_stream_spec _ _ _ _ _ _ _ _ _ Hb1 Ev) as (fs & frame & E2 & Hb2 & Hw & Hk & Hr & Hs & Hl).
  split; cbn; [|done..]. exists fs, frame. split_and!; [by rewrite <- app_assoc, E2|done..].
Qed.

(** At most 65 frames, of at most 16 MB together. *)
Lemma vetted_fits live s s' min_round tip feed :
  vetted live s s' min_round tip -> prefetch_fits (live_push_config live min_round feed).
Proof.
  intros [(fs & frame & _ & Hw & Ep & _) _ _ _]. apply Forall_app in Hw as [_ Hw]. apply Forall_cons in Hw as [(Hf & _ & Hm) _].
  destruct (kept_of_bound lz4_decompress fs) as (H1 & H2 & H3 & _). cbn zeta in H1, H2, H3.
  unfold prefetch_fits, live_push_config. cbn [prefetched_frames]. rewrite Ep. set (k := (kept_of _ _ fs).1) in *.
  rewrite bytes_of_app, length_app. change (bytes_of [frame]) with (Z.of_nat (length frame) + 0).
  change (bytes_of k) with (total_len k). cbn [length].
  unfold VET_KEEP_MAX_FRAMES, VET_KEEP_MAX_BYTES, MAX_LIVE_FRAME, PUSH_MERGE_QUEUE_FRAMES in *.
  change NODE_QUEUE_BYTES with 67108864. lia.
Qed.

(** ** Lemmas: the session before its loop *)

Abbreviation step := (serve_push lz4_decompress).

Lemma frames_of_concat fs rest :
  Forall (framed MAX_LIVE_FRAME) fs ->
  frames_of MAX_LIVE_FRAME (concat fs ++ rest) = fs ++ frames_of MAX_LIVE_FRAME rest.
Proof. induction 1 as [|f fs Hf _ IH]; [done|]. cbn [concat]. by rewrite <- app_assoc, frames_of_cons, IH. Qed.

(** C6: From a vetted peer's socket to the node. Whatever a peer sends and in whatever segments, when
    its vetting succeeds, the push session that takes its socket over (with the floor of a cache
    replay, or 0) sends the node, under any interleaving, the peer's own greeting and then the gated
    stream. The bytes after the greeting are cut into frames by their headers: those vetting passed
    over, the first block it accepted, the ones that follow. Of the first only control frames come to
    the gates, those vetting kept; then the block and what follows it, in order and without a hole.
    From these the node gets every frame without a round and each block above the floor read for it
    and above the blocks already sent, so the rounds strictly increase above the session's floor. What
    the node has is a prefix of these bytes, and all of them once nothing is queued; while the pump
    runs, exactly what it has read from the socket has come to the gates. *)
Theorem vetted_peer_reaches_the_node (ip : string) (turns : list (Z * Z)) (sock sock' : list Read)
    (cache_floor net_tip now : Z) (live : LivePeerSession) (feed : option FreshestFeed) (evs : list serve_event) :
  Forall is_byte (data sock) -> 0 <= cache_floor ->
  vet_peer ip turns sock cache_floor net_tip = inr (live, sock') ->
  let s := run_serve lz4_decompress (live_push_config live cache_floor feed) sock' now evs in
  exists stream skipped first later n floors,
    data sock = lp_greeting live ++ stream /\
    frames_of MAX_LIVE_FRAME stream = skipped ++ first :: later /\
    vet_round lz4_decompress first = Some (lp_first_round live) /\
    let kept := (kept_of lz4_decompress ([], 0) skipped).1 in
    kept `sublist_of` filter (fun f => vet_round lz4_decompress f = None) skipped /\
    let seen := take n (kept ++ first :: later) in
    length floors = length seen /\ Forall (fun fl => fl ∈ omap event_floor evs) floors /\
    let sent := gated lz4_decompress cache_floor (zip seen floors) in
    node_bytes s `prefix_of` lp_greeting live ++ concat sent /\
    (sv_phase s = Running -> held (sv_queue s) = [] -> sv_hand s = None ->
       node_bytes s = lp_greeting live ++ concat sent) /\
    (sv_phase s = Running -> sv_active s = None -> exists k, n = (length kept + 1 + k)%nat /\
       data sock' = concat (take k later) ++ data (sv_sock s)) /\
    StronglySorted Z.lt (cache_floor :: omap (frame_round lz4_decompress) sent).
Proof.
  intros Hb Hf Hv s. destruct (vet_peer_vetted _ _ _ _ _ _ _ Hb Hv) as [(fs & frame & Ed & Hw & Ep & Hr) Hb' _ _].
  set (cfg := live_push_config live cache_floor feed) in *.
  destruct (session_delivers_stream lz4_decompress cfg sock' now evs Hf Hb')
    as (own & stream & n & floors & H1 & -> & H3 & H4 & H5 & H6 & H7 & H8 & _).
  fold s in H5, H6, H7. cbn [app] in H1. subst stream.
  assert (Epf : prefetched_frames cfg = (kept_of lz4_decompress ([], 0) fs).1 ++ [frame]) by exact Ep.
  rewrite Epf, <- app_assoc in *. cbn [app] in *.
  exists (concat (fs ++ [frame]) ++ data sock'), fs, frame, (frames_of MAX_LIVE_FRAME (data sock')), n, floors.
  cbn zeta. split_and!; [by rewrite <- Ed; cbn; rewrite <- app_assoc|by rewrite frames_of_concat, <- app_assoc|done| |done..| |done].
  - by apply (kept_of_bound lz4_decompress fs).
  - intros Hrun Ha. destruct (H7 Hrun Ha) as (k & -> & E). exists k. rewrite length_app. by split.
Qed.

(** C8: a vetted peer's prefetched frames never block the session. At most 65 frames of at most 16 MB
    are handed over, which fit the node's queue together: wherever the session stands before its
    loop, whatever the node and the other tasks have done, its own steps (send what waits, take the
    next prefetched frame) lead to the loop or to an exit, though nobody reads the queue yet. *)
Theorem vetted_handover_never_blocks (ip : string) (turns : list (Z * Z)) (sock sock' : list Read)
    (cache_floor net_tip now : Z) (live : LivePeerSession) (feed : option FreshestFeed) (evs : list serve_event)
    (ins : list (FreshestRound * Z * Z * Z)) (l : list bytes) (t : Z) :
  Forall is_byte (data sock) -> 0 <= cache_floor ->
  vet_peer ip turns sock cache_floor net_tip = inr (live, sock') ->
  let cfg := live_push_config live cache_floor feed in
  let s := run_serve lz4_decompress cfg sock' now evs in
  sv_phase s = Prefetching l -> (length l <= length ins)%nat ->
  match sv_phase (foldl (step cfg) s (prefetch_drive ins t)) with Running | Ended _ => True | _ => False end.
Proof.
  intros Hb Hf Hv cfg s Hph Hl. pose proof (vet_peer_vetted _ _ _ _ _ _ _ Hb Hv) as Hvd.
  apply (prefetch_drive_runs lz4_decompress cfg sock' s l); [by eapply vetted_fits| | |done|done].
  - apply run_serve_inv; [done|apply Hvd].
  - unfold s, run_serve. apply foldl_inv; [unfold one_send; cbn; lia|]. intros; by apply one_send_step.
Qed.
(** ** The first block *)

(** Before the first block is judged the session stands at the round it started from. *)
Definition at_baseline (cfg : PushConfig) (s : Serve) : Prop :=
  match sv_phase s with
  | Greeting =>
      active_round (sv_push s) = initial_last_forwarded cfg /\
      gate_last (gate (sv_push s)) = initial_last_forwarded cfg
  | Prefetching l =>
      (exists pre, prefetched_frames cfg = pre ++ l) /\
      (l <> [] -> active_round (sv_push s) = initial_last_forwarded cfg /\
        gate_last (gate (sv_push s)) = initial_last_forwarded cfg)
  | _ => True
  end.

Lemma no_round_passes st fr f tip floor now :
  framed MAX_LIVE_FRAME f -> vet_round lz4_decompress f = None ->
  exists st' kind, process_live_frame lz4_decompress st fr f tip floor now = (Forwarded kind, st', fr) /\
    active_round st' = active_round st /\ gate st' = gate st.
Proof.
  intros (Hl & H5 & _) Hv. unfold process_live_frame. rewrite (proj2 (Nat.ltb_ge _ _)) by lia.
  unfold sat_sub. rewrite Hl, Z.max_r, Z.eqb_refl by lia. cbn [negb]. unfold vet_round in Hv.
  rewrite (proj2 (Nat.leb_le _ _)) in Hv by lia. cbn [andb] in Hv.
  destruct (byte_at f 4 =? 1); cbn [negb]; [rewrite Hv|]; by repeat eexists.
Qed.

Lemma step_baseline cfg k frame s e :
  prefetched_frames cfg = k ++ [frame] ->
  Forall (fun f => framed MAX_LIVE_FRAME f /\ vet_round lz4_decompress f = None) k ->
  at_baseline cfg s -> at_baseline cfg (step cfg s e).
Proof.
  intros Ek Hk Hb. unfold serve_push. destruct (sv_phase s) as [|l| |r] eqn:Ep.
  - destruct e; try done. destruct (greeting_target _ _) as [|[g sock]]; [done|]. unfold at_baseline in *. rewrite Ep in Hb.
    destruct (write_greeting w); cbn; [done|]. split; [by exists []|done].
  - assert (Hsame : forall s', sv_phase s' = sv_phase s -> sv_push s' = sv_push s -> at_baseline cfg s').
    { intros s' E1 E2. unfold at_baseline in *. by rewrite E1, E2. }
    destruct e, l as [|f rest]; try done.
    + destruct (sv_idle s); [|done]. unfold at_baseline in Hb. rewrite Ep in Hb. destruct Hb as [[pre Epre] Hb].
      unfold serve_prefetched. destruct (process_live_frame _ _ _ _ _ _ _) as [[v st'] fr'] eqn:Ev.
      destruct v as [err| |kind]; [done|..].
      all: unfold at_baseline; cbn; (split; [exists (pre ++ [f]); by rewrite <- app_assoc|]); intros Hr.
      all: destruct rest as [|g rest] using rev_ind; [done|]; clear IHrest.
      all: assert (Hin : f ∈ k) by
        (rewrite Ek, app_comm_cons, app_assoc in Epre; apply app_inj_tail in Epre as [-> _]; set_solver).
      all: rewrite Forall_forall in Hk; destruct (Hk f Hin) as [Hw Hn].
      all: destruct (no_round_passes (sv_push s) fr f tip floor now Hw Hn) as (st2 & kind2 & E2 & E3 & E4).
      all: rewrite E2 in Ev; simplify_eq. rewrite E3, E4. by apply Hb.
    + by destruct (sv_idle s).
    + destruct (sv_hand s); [|done]. by destruct (q_acquire _ _); [apply Hsame|].
    + destruct (sv_hand s); [|done]. by destruct (q_acquire _ _); [apply Hsame|].
    + by destruct (q_push _); [apply Hsame|].
    + by destruct (q_push _); [apply Hsame|].
    + by apply Hsame.
    + by apply Hsame.
  - assert (Hrun : forall s', sv_phase s' = Running \/ (exists r, sv_phase s' = Ended r) -> at_baseline cfg s').
    { intros s' [E|[r E]]; unfold at_baseline; by rewrite E. }
    apply Hrun. clear -Ep.
    assert (Hsel : forall e, sv_phase (serve_select s e) = Running \/ (exists r, sv_phase (serve_select s e) = Ended r)).
    { intros e'. unfold serve_select. case_bool_decide; [|by left]. destruct (select_step _ _ _); cbn; [right|left]; eauto. }
    destruct e; try apply Hsel; try (left; exact Ep); try (left; exact eq_refl).
    + left. destruct (sv_hand s); [|done]. by destruct (q_acquire _ _).
    + left. by destruct (q_push _).
    + left. destruct (_ && _); [|done]. unfold serve_pump. destruct (pump_read _) as [rd sock].
      by destruct (pump_step _ _ _) as [[[e| |k] st] [f|]].
    + left. by destruct (sv_active s).
    + left. by destruct (q_recv _).
    + unfold serve_written. destruct (q_written _) as [[f q]|]; [|by left].
      destruct (select_step _ _ _); cbn; [right|left]; eauto.
    + destruct (joined_ready s e); [apply Hsel|by left].
  - done.
Qed.

(** C10: the first block of a vetted peer at the session's gates. When the session comes to it and the
    tip and the node's floor still allow it, it is forwarded exactly when the session started from
    round 0 or the block is at most [MAX_ACTIVE_ROUND_JUMP] above the floor of the cache replay.
    Above that, though vetting accepted the peer, the session ends as the peer's fault. *)
Theorem first_block_meets_the_jump_guard (ip : string) (turns : list (Z * Z)) (sock sock' : list Read)
    (cache_floor net_tip now : Z) (live : LivePeerSession) (feed : option FreshestFeed) (evs : list serve_event)
    (f : bytes) (fr : FreshestRound) (tip floor t : Z) :
  Forall is_byte (data sock) -> 0 <= cache_floor ->
  vet_peer ip turns sock cache_floor net_tip = inr (live, sock') ->
  let cfg := live_push_config live cache_floor feed in
  let s := run_serve lz4_decompress cfg sock' now evs in
  sv_phase s = Prefetching [f] -> sv_idle s = true ->
  is_plausible_mainnet_round (lp_first_round live) tip = true ->
  round_lag_from_tip (lp_first_round live) tip ACTIVE_ROUND_MAX_LAG = None -> floor < lp_first_round live ->
  let s' := step cfg s (VPrefetched fr tip floor t) in
  if (cache_floor =? 0) || (lp_first_round live <=? sat_add32 cache_floor MAX_ACTIVE_ROUND_JUMP)
  then sv_phase s' = Prefetching [] /\ sv_hand s' = Some f
  else exists reason, sv_phase s' = Ended reason /\ push_exit_is_upstream_fault reason = true.
Proof.
  intros Hb Hf Hv cfg s Hph Hid Hpl Hlag Hfl s'.
  destruct (vet_peer_vetted _ _ _ _ _ _ _ Hb Hv) as [(fs & frame & _ & Hw & Epf & Hr) Hb' Hsk _].
  apply Forall_app in Hw as [Hwk Hw]. apply Forall_cons in Hw as [(Hl & H5 & _) _].
  assert (Hbase : at_baseline cfg s).
  { unfold s, run_serve. apply foldl_inv; [done|]. intros s0 e. apply (step_baseline cfg _ frame s0 e Epf).
    destruct (kept_of_bound lz4_decompress fs) as (_ & _ & _ & Hk). rewrite Forall_forall in Hwk |- *.
    intros x Hx. apply (sublist_subseteq _ _ Hk), list_elem_of_filter in Hx as [? Hx]. auto. }
  unfold at_baseline in Hbase. rewrite Hph in Hbase. destruct Hbase as [[pre Epre] Hbase].
  destruct (Hbase ltac:(done)) as [Ear Egl]. change (initial_last_forwarded cfg) with cache_floor in Ear, Egl.
  assert (f = frame) as ->.
  { unfold cfg, live_push_config in Epre. cbn in Epre. rewrite Epf in Epre. by apply app_inj_tail in Epre as [_ ->]. }
  destruct (run_serve_inv lz4_decompress cfg sock' now evs Hf Hb') as ((Hg & _) & _). fold s in Hg.
  assert (Hjump : (negb (active_round (sv_push s) =? 0) && (sat_add32 (active_round (sv_push s)) MAX_ACTIVE_ROUND_JUMP <? lp_first_round live)) =
    negb ((cache_floor =? 0) || (lp_first_round live <=? sat_add32 cache_floor MAX_ACTIVE_ROUND_JUMP))).
  { rewrite Ear, negb_orb. by rewrite Z.leb_antisym, negb_involutive. }
  unfold vet_round in Hr. rewrite (proj2 (Nat.leb_le _ _)) in Hr by lia. cbn [andb] in Hr.
  destruct (byte_at frame 4 =? 1) eqn:Ety; [|done].
  assert (Hmin : cache_floor < lp_first_round live).
  { unfold vet_skips in Hsk. zify_bool. lia. }
  unfold s', serve_push. rewrite Hph, Hid. unfold serve_prefetched, process_live_frame.
  rewrite (proj2 (Nat.ltb_ge _ _)) by lia. unfold sat_sub. rewrite Hl, Z.max_r, Z.eqb_refl by lia. cbn [negb].
  rewrite Ety, Hr, Hpl. cbn [negb]. cbv zeta. rewrite Hjump.
  destruct ((cache_floor =? 0) || _); cbn [negb].
  - destruct (offer_round _ _ _ _ _) as [h fr']. rewrite Hlag. unfold floor_and_gate.
    rewrite (proj2 (Z.leb_gt _ _)) by lia. cbn [gate].
    destruct (should_forward_active (gate (sv_push s)) (lp_first_round live) Hg ltac:(lia)) as (Hsf & _ & _).
    destruct (should_forward _ _ _) as [ok g]. cbn in Hsf. rewrite Egl, (proj2 (Z.ltb_lt _ _)) in Hsf by lia. by subst ok.
  - eexists. split; [reflexivity|]. reflexivity.
Qed.

End Handover.

(** ** Witnesses *)

(** A peer that accepts, sends a control frame, then a block; in odd segments. *)
Definition example_peer (round : Z) : list Read :=
  let b := [0; 0; 0; 1; 0; 3] ++ make_frame 1 0 [7] ++ make_frame 21 1 (block_payload round) in
  [RData (take 4 b); RData (drop 4 (take 15 b)); RData (drop 15 b)].

Definition example_live (round : Z) : LivePeerSession :=
  mkLive "1.1.1.1" [0; 0; 0; 1; 0; 3] [make_frame 1 0 [7]; make_frame 21 1 (block_payload round)] round None.

Definition example_fresh : FreshestRound := FreshestRound_new PEER_LAG_ROUNDS PEER_LAG_GRACE FRESHEST_STALE.
Definition example_turns : list (Z * Z) := [(1, 0); (1, 0)].

Lemma example_vetted round :
  round = 2000000001 \/ round = 2000020001 ->
  Forall is_byte (data (example_peer round)) /\
  vet_peer no_lz4 "1.1.1.1" example_turns (example_peer round) 2000000000 2000000000 = inr (example_live round, []).
Proof.
  intros [->| ->]; (split; [apply (bool_decide_unpack _); vm_compute; exact I|vm_compute; reflexivity]).
Qed.

Lemma vetted_peer_reaches_the_node_witness :
  let s := run_serve no_lz4 (live_push_config (example_live 2000000001) 2000000000 None) [] 0
    [VGreeting WriteOk 0; VPrefetched example_fresh 2000000000 0 0; VAcquire; VPush;
     VPrefetched example_fresh 2000000000 0 0; VAcquire; VPush; VStart 0; VRecv; VWritten WriteOk 0; VRecv;
     VWritten WriteOk 0] in
  node_bytes s = data (example_peer 2000000001) /\
  exists stream skipped first later n floors,
    data (example_peer 2000000001) = [0; 0; 0; 1; 0; 3] ++ stream /\
    frames_of MAX_LIVE_FRAME stream = skipped ++ first :: later /\
    node_bytes s `prefix_of` [0; 0; 0; 1; 0; 3] ++
      concat (gated no_lz4 2000000000 (zip (take n ((kept_of no_lz4 ([], 0) skipped).1 ++ first :: later)) floors)).
Proof.
  intros s. split; [vm_compute; reflexivity|].
  destruct (example_vetted 2000000001 ltac:(by left)) as [Hb Hv].
  destruct (vetted_peer_reaches_the_node no_lz4 _ _ _ _ 2000000000 _ 0 _ None
    [VGreeting WriteOk 0; VPrefetched example_fresh 2000000000 0 0; VAcquire; VPush;
     VPrefetched example_fresh 2000000000 0 0; VAcquire; VPush; VStart 0; VRecv; VWritten WriteOk 0; VRecv;
     VWritten WriteOk 0] Hb ltac:(lia) Hv) as (stream & skipped & first & later & n & floors & H1 & H2 & _ & _ & _ & _ & H3 & _).
  by exists stream, skipped, first, later, n, floors.
Defined.

Lemma vetted_handover_never_blocks_witness :
  let cfg := live_push_config (example_live 2000000001) 2000000000 None in
  let s := run_serve no_lz4 cfg [] 0 [VGreeting WriteOk 0] in
  match sv_phase (foldl (serve_push no_lz4 cfg) s
    (prefetch_drive [(example_fresh, 2000000000, 0, 0); (example_fresh, 2000000000, 0, 0)] 0)) with
  | Running | Ended _ => True
  | _ => False
  end.
Proof.
  destruct (example_vetted 2000000001 ltac:(by left)) as [Hb Hv].
  refine (vetted_handover_never_blocks no_lz4 _ _ _ _ 2000000000 _ 0 _ None [VGreeting WriteOk 0]
    [(example_fresh, 2000000000, 0, 0); (example_fresh, 2000000000, 0, 0)] _ 0 Hb _ Hv _ _).
  - lia.
  - vm_compute. reflexivity.
  - cbn. lia.
Defined.

(** A block one above the guard: the peer was vetted and is blamed. *)
Lemma first_block_meets_the_jump_guard_witness :
  let cfg := live_push_config (example_live 2000020001) 2000000000 None in
  let s := run_serve no_lz4 cfg [] 0 [VGreeting WriteOk 0; VPrefetched example_fresh 0 0 0; VAcquire; VPush] in
  exists reason, sv_phase (serve_push no_lz4 cfg s (VPrefetched example_fresh 2000000000 0 0)) = Ended reason /\
    push_exit_is_upstream_fault reason = true.
Proof.
  destruct (example_vetted 2000020001 ltac:(by right)) as [Hb Hv].
  refine (first_block_meets_the_jump_guard no_lz4 _ _ _ _ 2000000000 _ 0 _ None
    [VGreeting WriteOk 0; VPrefetched example_fresh 0 0 0; VAcquire; VPush]
    (make_frame 21 1 (block_payload 2000020001)) example_fresh 2000000000 0 0 Hb _ Hv _ _ _ _ _);
    first [lia | vm_compute; reflexivity].
Defined.
