(* ===== verification/EnvCheck.v ===== *)
(** The startup check of the settings: [src/env_check.rs], against the readers of [Priority] and
    [FailoverSession].

    A problem is kept as data; the text printed for it is left out. *)

From S2P Require Import Prelude Text Priority FailoverSession.

Definition DAY_MS : Z := 86400000.
Definition DAY_SECS : Z := 86400.

(** Key, minimum, maximum. *)
Definition FAILOVER_NUMBERS : list (string * Z * Z) := [
  ("HYPERSYNC_FAILOVER_STALL_MS"%string, 50, DAY_MS);
  ("HYPERSYNC_FAILOVER_LAG_MS"%string, 20, DAY_MS);
  ("HYPERSYNC_FAILOVER_DWELL_MS"%string, 0, DAY_MS);
  ("HYPERSYNC_FAILOVER_ROTATE_MS"%string, 0, DAY_MS);
  ("HYPERSYNC_FAILOVER_ROTATE_SECS"%string, 10, DAY_SECS)].

Inductive Problem :=
| PeerNotIpv4 (n : nat)
| PeerNotPublic (n : nat)
| PeerRepeats (n : nat)
| PeerCount (valid want : Z)
| NotA (key value want : string).

(** [Ipv4Addr::is_private], [is_loopback], [is_link_local], [is_documentation], [is_multicast] and
    [is_broadcast], then the ranges the code adds. *)
Definition is_public (ip : Ipv4) : bool :=
  let a := oct1 ip in let b := oct2 ip in let c := oct3 ip in
  negb ((a =? 10) || ((a =? 172) && (16 <=? b) && (b <=? 31)) || ((a =? 192) && (b =? 168)) ||
        (a =? 127) ||
        ((a =? 169) && (b =? 254)) ||
        ((a =? 192) && (b =? 0) && (c =? 2)) || ((a =? 198) && (b =? 51) && (c =? 100)) ||
        ((a =? 203) && (b =? 0) && (c =? 113)) ||
        ((224 <=? a) && (a <=? 239)) ||
        ((a =? 255) && (b =? 255) && (c =? 255) && (oct4 ip =? 255)) ||
        (a =? 0) || (240 <=? a) ||
        ((a =? 100) && (64 <=? b) && (b <? 128)) ||
        ((a =? 192) && (b =? 0) && (c =? 0)) ||
        ((a =? 192) && (b =? 88) && (c =? 99)) ||
        ((a =? 198) && (18 <=? b) && (b <? 20))).

Definition parse_bool (v : string) : option bool :=
  let v := to_ascii_lowercase (trim_quotes (trim v)) in
  if bool_decide (v ∈ ["1"; "true"; "yes"; "on"]%string) then Some true
  else if bool_decide (v ∈ ["0"; "false"; "no"; "off"]%string) then Some false
  else None.

(** Blank is unset. *)
Definition present (env : string -> option string) (k : string) : option string :=
  match env k with
  | Some v => if bool_decide (trim v = EmptyString) then None else Some v
  | None => None
  end.

(** One entry of the peer list: the addresses seen so far, the valid ones, the problems. *)
Definition check_peer (st : list Ipv4 * Z * list Problem) (e : nat * string) : list Ipv4 * Z * list Problem :=
  let '(seen, valid, out) := st in
  let n := S e.1 in
  match parse_ipv4 e.2 with
  | None => (seen, valid, out ++ [PeerNotIpv4 n])
  | Some ip =>
      if negb (is_public ip) then (seen, valid, out ++ [PeerNotPublic n])
      else if bool_decide (ip ∈ seen) then (seen, valid, out ++ [PeerRepeats n])
      else (ip :: seen, valid + 1, out)
  end.

Definition check_number (env : string -> option string) (key : string) (min max : Z) : list Problem :=
  match present env key with
  | None => []
  | Some v =>
      let bad := [NotA key v ("whole number in " +:+ show min +:+ "..=" +:+ show max)] in
      match parse_uint u64_max (trim v) with
      | Some n => if (min <=? n) && (n <=? max) then [] else bad
      | None => bad
      end
  end.

Definition check_expected (env : string -> option string) (valid : Z) : list Problem :=
  match present env "HYPERSYNC_PRIORITY_PEERS_EXPECTED" with
  | None => []
  | Some v =>
      match parse_uint u64_max (trim v) with
      | Some want => if want =? valid then [] else [PeerCount valid want]
      | None => [NotA "HYPERSYNC_PRIORITY_PEERS_EXPECTED" v "whole number"]
      end
  end.

Definition check_setting {A} (env : string -> option string) (key want : string) (parse : string -> option A)
    : list Problem :=
  match present env key with
  | Some v => match parse v with Some _ => [] | None => [NotA key v want] end
  | None => []
  end.

Definition problems (env : string -> option string) (gateway : bool) : list Problem :=
  let '(_, valid, out) :=
    match present env "HYPERSYNC_PRIORITY_PEERS" with
    | Some raw => foldl check_peer ([], 0, []) (imap pair (split_csv raw))
    | None => ([], 0, [])
    end in
  let out := out ++ check_expected env valid in
  if negb gateway then out
  else
    out ++ check_setting env "HYPERSYNC_PRIORITY_EXCLUSIVE" "1|0|true|false|yes|no|on|off" parse_bool ++
    check_setting env "HYPERSYNC_PRIORITY_BOOTSTRAP" "fallback|never|prefer" policy_parse ++
    check_number env "HYPERSYNC_PRIORITY_MAX_SESSIONS" 0 u64_max ++
    check_number env "HYPERSYNC_PRIORITY_STAGE_MS" 200 3000 ++
    check_number env "HYPERSYNC_FAILOVER_STANDBYS" 0 16 ++
    (FAILOVER_NUMBERS ≫= fun '(k, min, max) => check_number env k min max).

(** ** Lemmas *)

(** A number as it is written: the default only when the setting is unset or blank. *)
Definition written_number (env : string -> option string) (k : string) (d : Z) : option Z :=
  match present env k with
  | None => Some d
  | Some v => parse_uint u64_max (trim v)
  end.

Lemma check_number_reads env k min max d :
  check_number env k min max = [] -> min <= d <= max ->
  exists n, written_number env k d = Some n /\ default d (v ← env k; parse_uint u64_max (trim v)) = n /\
    min <= n <= max.
Proof.
  unfold check_number, written_number, present. destruct (env k) as [v|]; cbn; [|eauto].
  case_bool_decide as E.
  - intros _ Hd. exists d. split_and!; [done| |lia..]. rewrite E. done.
  - destruct (parse_uint u64_max (trim v)) as [n|]; [|done]. intros H _. exists n.
    destruct (_ && _) eqn:Er; [|done]. zify_bool. split_and!; done.
Qed.

Lemma trim_start_nil l : trim_start_list l = [] <-> forallb is_space l = true.
Proof.
  induction l as [|x l IH]; cbn; [done|]. destruct (is_space x); cbn; [exact IH|done].
Qed.

Lemma trim_start_head l x r : trim_start_list l = x :: r -> is_space x = false.
Proof. induction l as [|y l IH]; cbn; [done|]. destruct (is_space y) eqn:E; [exact IH|]. by intros [= <- _]. Qed.

Lemma trim_blank v : trim v = EmptyString -> forallb is_space (chars v) = true.
Proof.
  unfold trim, trim_list. intros H. apply (f_equal chars) in H. rewrite chars_text in H.
  apply trim_start_nil. destruct (trim_start_list (chars v)) as [|x r] eqn:E; [done|exfalso].
  apply trim_start_head in E as Hx.
  assert (Hr : trim_start_list (rev (x :: r)) = []) by (rewrite <- (rev_involutive (trim_start_list _)), H; done).
  apply trim_start_nil in Hr. cbn in Hr. rewrite forallb_app in Hr. cbn in Hr. rewrite Hx in Hr.
  by destruct (forallb is_space (rev r)).
Qed.

Lemma split_csv_blank v : trim v = EmptyString -> split_csv v = [].
Proof.
  intros Hv. apply trim_blank in Hv as Hs. unfold split_csv, split_on.
  rewrite split_list_free.
  - cbn. rewrite text_chars, Hv. done.
  - intros Hin. rewrite forallb_forall in Hs. apply list_elem_of_In, Hs in Hin. done.
Qed.

(** The entries accepted so far are what the reader has collected. *)
Lemma check_peers_reads items k seen valid out st :
  foldl check_peer (seen, valid, out) (imap (fun i x => ((k + i)%nat, x)) items) = st -> st.2 = [] ->
  forall acc, Forall valid_ip seen -> acc = show_ipv4 <$> rev seen ->
  foldl (fun out item => match parse_ipv4 item with
     | Some ip => let s := show_ipv4 ip in if decide (s ∈ out) then out else out ++ [s]
     | None => out end) acc items = acc ++ items /\
  (NoDup acc -> NoDup (acc ++ items)) /\
  Forall (fun p => exists ip, parse_ipv4 p = Some ip /\ is_public ip = true) items.
Proof.
  revert k seen valid out. induction items as [|x items IH]; intros k seen valid out Hst Hout acc Hval Hacc.
  { cbn. rewrite app_nil_r. split_and!; [done|done|by apply Forall_nil_2]. }
  cbn [imap foldl] in *. rewrite Nat.add_0_r in Hst.
  assert (Hgrow : forall l s, s.2 <> [] -> (foldl check_peer s l).2 <> []).
  { clear. induction l as [|e l IHl]; intros [[se va] o] Ho; [done|]. cbn [foldl]. apply IHl. unfold check_peer.
    destruct (parse_ipv4 e.2); [|by destruct o]. destruct (negb _); [by destruct o|]. case_bool_decide; [by destruct o|done]. }
  assert (Himap : imap (λ i y, ((k + S i)%nat, y)) items = imap (λ i y, ((S k + i)%nat, y)) items)
    by (apply imap_ext; intros; f_equal; lia).
  unfold compose in Hst. rewrite Himap in Hst. unfold check_peer at 2 in Hst. cbn [fst snd] in Hst.
  destruct (parse_ipv4 x) as [ip|] eqn:Ep.
  2: { exfalso. eapply Hgrow; [|rewrite Hst; exact Hout]. cbn. by destruct out. }
  destruct (negb (is_public ip)) eqn:Epub.
  { exfalso. eapply Hgrow; [|rewrite Hst; exact Hout]. cbn. by destruct out. }
  destruct (bool_decide (ip ∈ seen)) eqn:Eseen.
  { exfalso. eapply Hgrow; [|rewrite Hst; exact Hout]. cbn. by destruct out. }
  apply bool_decide_eq_false in Eseen. apply negb_false_iff in Epub.
  apply parse_ipv4_canonical in Ep as Hc. destruct Hc as [Hv Hx]. cbn zeta.
  assert (Hnew : x ∉ acc).
  { rewrite Hacc, Hx. intros Hin. apply list_elem_of_fmap in Hin as (ip' & He & Hin).
    apply list_elem_of_In, in_rev, list_elem_of_In in Hin.
    apply Eseen. replace ip with ip'; [done|].
    rewrite Forall_forall in Hval. specialize (Hval ip' Hin). apply parse_show_ipv4 in Hval. congruence. }
  rewrite <- Hx. rewrite decide_False by done.
  destruct (IH (S k) (ip :: seen) (valid + 1) out Hst Hout (acc ++ [x])) as (H1 & H2 & H3); [by apply Forall_cons_2|..].
  { rewrite Hacc. cbn. rewrite fmap_app. cbn. by rewrite Hx. }
  rewrite H1, <- app_assoc. split_and!; [done| |].
  - intros Hn. rewrite <- app_assoc in H2. apply H2. apply NoDup_app. split_and!; [done| |apply NoDup_singleton].
    intros y Hy ->%list_elem_of_singleton. done.
  - apply Forall_cons_2; [|done]. by exists ip.
Qed.

Lemma check_setting_reads {A} env k want (parse : string -> option A) v :
  check_setting env k want parse = [] -> present env k = Some v -> is_Some (parse v).
Proof. unfold check_setting. intros H E. rewrite E in H. destruct (parse v); [eauto|done]. Qed.

Lemma priority_peers_read env seen valid out :
  match present env "HYPERSYNC_PRIORITY_PEERS" with
  | Some raw => foldl check_peer ([], 0, []) (imap pair (split_csv raw))
  | None => ([], 0, [])
  end = (seen, valid, out) -> out = [] ->
  let ps := priority_peers_from_raw (default EmptyString (env "HYPERSYNC_PRIORITY_PEERS")) in
  ps = default [] (split_csv <$> present env "HYPERSYNC_PRIORITY_PEERS") /\ NoDup ps /\
  Forall (fun p => exists ip, parse_ipv4 p = Some ip /\ is_public ip = true) ps.
Proof.
  unfold present. destruct (env "HYPERSYNC_PRIORITY_PEERS"%string) as [raw|]; cbn zeta.
  2: { intros _ _. split_and!; [done|apply NoDup_nil_2|by apply Forall_nil_2]. }
  change (default EmptyString (Some raw)) with raw. case_bool_decide as E.
  - intros _ _. unfold priority_peers_from_raw. rewrite split_csv_blank by done.
    split_and!; [done|apply NoDup_nil_2|by apply Forall_nil_2].
  - intros Hst Hout.
    destruct (check_peers_reads (split_csv raw) 0 [] 0 [] (seen, valid, out)) with (acc := @nil string) as (H1 & H2 & H3);
      [exact Hst|exact Hout|by apply Forall_nil_2|done|].
    assert (E1 : priority_peers_from_raw raw = split_csv raw) by exact H1.
    rewrite E1. split_and!; [done|apply H2, NoDup_nil_2|done].
Qed.

Lemma exclusive_read env want :
  check_setting env "HYPERSYNC_PRIORITY_EXCLUSIVE" want parse_bool = [] ->
  Some (exclusive_setting (env "HYPERSYNC_PRIORITY_EXCLUSIVE")) =
    match present env "HYPERSYNC_PRIORITY_EXCLUSIVE" with Some v => parse_bool v | None => Some true end.
Proof.
  intros Hc. pose proof (fun v => check_setting_reads env "HYPERSYNC_PRIORITY_EXCLUSIVE" want parse_bool v Hc) as Hs. unfold present in *.
  destruct (env "HYPERSYNC_PRIORITY_EXCLUSIVE"%string) as [v|]; [|done]. revert Hs. case_bool_decide as E; intros Hs.
  - cbn. rewrite E. done.
  - destruct (Hs v eq_refl) as [b Hb]. rewrite Hb. unfold exclusive_setting, parse_bool in *.
    set (w := to_ascii_lowercase _) in *. case_bool_decide as E1; [|case_bool_decide as E2; [|done]]; injection Hb as <-.
    + assert (Hno : Forall (fun w => w ∉ ["0"; "false"; "no"; "off"]%string) ["1"; "true"; "yes"; "on"]%string)
        by (apply (bool_decide_unpack _); vm_compute; exact I).
      rewrite Forall_forall in Hno. rewrite bool_decide_eq_true_2; [done|exact (Hno w E1)].
    + rewrite bool_decide_eq_false_2; [done|]. by intros [].
Qed.

Lemma app_nil_inv {A} (l k : list A) : l ++ k = [] -> l = [] /\ k = [].
Proof. by destruct l. Qed.

(** A checked number of the goal is read as written. *)
Ltac read_number :=
  match goal with
  | H : check_number ?env ?k ?lo ?hi = [] |- context [written_number ?env ?k ?d] =>
      destruct (check_number_reads env k lo hi d H) as (? & -> & ? & ?);
      [unfold DEFAULT_STAGE_MS, u64_max, DAY_MS, DAY_SECS; lia|]
  end.

(** ** Properties *)

(** C40: A gateway whose environment passes the startup check runs with the settings as they are
    written: every listed priority peer, in order, distinct and public; flags, policy and numbers
    exactly as parsed, no value dropped, raised, lowered or replaced by a default; defaults only
    for settings that are unset or blank. *)
Theorem accepted_settings_are_read_as_written (env : string -> option string) :
  problems env true = [] ->
  let t := from_env env in
  let f := failover_from_env env in
  let num k d := written_number env k d in
  (peers t = default [] (split_csv <$> present env "HYPERSYNC_PRIORITY_PEERS") /\ NoDup (peers t) /\
   Forall (fun p => exists ip, parse_ipv4 p = Some ip /\ is_public ip = true) (peers t)) /\
  Some (exclusive_flag t) =
    match present env "HYPERSYNC_PRIORITY_EXCLUSIVE" with Some v => parse_bool v | None => Some true end /\
  Some (bootstrap t) =
    match present env "HYPERSYNC_PRIORITY_BOOTSTRAP" with
    | Some v => policy_parse v
    | None => Some (if exclusive_flag t then Prefer else Fallback)
    end /\
  Some (max_sessions t) = num "HYPERSYNC_PRIORITY_MAX_SESSIONS"%string 0 /\
  Some (stage t) = millis <$> num "HYPERSYNC_PRIORITY_STAGE_MS"%string DEFAULT_STAGE_MS /\
  Some (standbys f) = num "HYPERSYNC_FAILOVER_STANDBYS"%string 0 /\
  Some (fo_stall f) = millis <$> num "HYPERSYNC_FAILOVER_STALL_MS"%string 400 /\
  Some (fo_lag f) = millis <$> num "HYPERSYNC_FAILOVER_LAG_MS"%string 150 /\
  Some (fo_min_dwell f) = millis <$> num "HYPERSYNC_FAILOVER_DWELL_MS"%string 10000 /\
  Some (rotate_slower f) = millis <$> num "HYPERSYNC_FAILOVER_ROTATE_MS"%string 100 /\
  Some (rotate_every f) = seconds <$> num "HYPERSYNC_FAILOVER_ROTATE_SECS"%string 60.
Proof.
  intros H t f num. unfold problems in H.
  destruct (match present env "HYPERSYNC_PRIORITY_PEERS" with Some _ => _ | None => _ end) as [[seen valid] out] eqn:Ep.
  cbn [negb] in H. unfold FAILOVER_NUMBERS in H. cbn [mbind list_bind] in H.
  repeat match goal with
  | H : _ ++ _ = [] |- _ => apply app_nil_inv in H as [? ?]
  end.
  pose proof (priority_peers_read env seen valid out Ep ltac:(done)) as Hp.
  split_and!; [apply Hp..|by eapply exclusive_read| | | | | | | | |].
  1: { unfold t, from_env. cbn [bootstrap with_exclusive tier_new exclusive_flag].
       pose proof (fun v => check_setting_reads env "HYPERSYNC_PRIORITY_BOOTSTRAP" "fallback|never|prefer"
         policy_parse v ltac:(done)) as Hs. unfold present in *.
       destruct (env "HYPERSYNC_PRIORITY_BOOTSTRAP"%string) as [v|]; [|done].
       revert Hs. case_bool_decide as E; case_decide; try done.
       intros Hs. by destruct (Hs v eq_refl) as [b ->]. }
  all: unfold num, t, f; read_number; cbn; f_equal.
  all: unfold from_env, failover_from_env, clamp;
    cbn [max_sessions stage with_exclusive tier_new standbys fo_stall fo_lag fo_min_dwell rotate_slower rotate_every].
  all: match goal with E : default _ _ = _ |- _ => rewrite E end; try done; try (f_equal; lia); lia.
Qed.

Lemma accepted_settings_are_read_as_written_witness :
  let env k := if bool_decide (k = "HYPERSYNC_PRIORITY_PEERS")%string then Some " 1.2.3.4, 5.6.7.8"%string
               else if bool_decide (k = "HYPERSYNC_FAILOVER_STALL_MS")%string then Some "250"%string else None in
  problems env true = [] /\ peers (from_env env) = ["1.2.3.4"; "5.6.7.8"]%string /\
  Some (fo_stall (failover_from_env env)) = millis <$> Some 250.
Proof.
  intros env. assert (H : problems env true = []) by (vm_compute; reflexivity).
  destruct (accepted_settings_are_read_as_written env H) as ((H1 & _) & _ & _ & _ & _ & _ & H2 & _).
  split; [exact H|]. split; [rewrite H1; vm_compute; reflexivity|rewrite H2; vm_compute; reflexivity].
Defined.
