(* ===== verification/Proxy.v ===== *)
(** The other modes: the fixed-list proxy ([src/push/proxy.rs]), the merge mode
    ([src/push/legacy.rs]) and the public probe responder ([src/responder.rs]).

    [fail_over] is modelled as its atomic operations, so that calls of several sessions and of the
    stall monitor interleave; the load of [active] with the scan of [bad_until], and the bump of the
    generation with the store of [last_data_ms], are one step each. *)

From S2P Require Import Prelude Text Wire PushSession Peers ClientBlocks.

(** ** Failing over *)

Definition COOLDOWN_MS : Z := 30000.
Definition STALL_MS : Z := 20000.

(** The next upstream after [cur] that is not cooling down. *)
Definition pick_next (cur : nat) (bad_until : list Z) (now_ms : Z) (n : nat) : option nat :=
  head (filter (fun j => nth j bad_until 0 <= now_ms) ((fun off => (cur + off) mod n)%nat <$> seq 1 (n - 1))).

(** A call of [fail_over]: begun, its upstream marked, the next one picked, stored. *)
Inductive Call :=
| CBegun (idx : nat) (now : Z)
| CMarked (idx : nat) (now : Z)
| CPicked (idx j : nat) (now : Z)
| CStored (now : Z)
| CReturned.

(** A session: the generation it loaded, then the upstream. *)
Inductive ProxySession :=
| SLoading (gen : Z)
| SOn (gen : Z) (idx : nat).

Record ProxyState := mkProxy {
  px_hosts : nat;                    (* how many *)
  px_active : nat;
  px_generation : Z;
  px_bad_until : list Z;
  px_last_data : Z;
  px_calls : list Call;
  px_sessions : list ProxySession
}.

Inductive proxy_event :=
| PFailOver (idx : nat) (now : Z)    (* a call begins *)
| PCall (k : nat)                    (* its next operation *)
| PConn                              (* a connection loads the generation *)
| PLoadActive (k : nat)              (* ... and the active upstream *)
| PData (now : Z).

Definition set_call (s : ProxyState) (k : nat) (c : Call) : ProxyState :=
  mkProxy (px_hosts s) (px_active s) (px_generation s) (px_bad_until s) (px_last_data s)
    (<[k := c]> (px_calls s)) (px_sessions s).

Definition fail_over (s : ProxyState) (k : nat) : ProxyState :=
  match px_calls s !! k with
  | Some (CBegun idx now) =>
      mkProxy (px_hosts s) (px_active s) (px_generation s) (<[idx := now + COOLDOWN_MS]> (px_bad_until s))
        (px_last_data s) (<[k := CMarked idx now]> (px_calls s)) (px_sessions s)
  | Some (CMarked idx now) =>
      if (px_active s =? idx)%nat then
        match pick_next idx (px_bad_until s) now (px_hosts s) with
        | Some j => set_call s k (CPicked idx j now)
        | None => set_call s k CReturned
        end
      else set_call s k CReturned
  | Some (CPicked idx j now) =>
      mkProxy (px_hosts s) j (px_generation s) (px_bad_until s) (px_last_data s)
        (<[k := CStored now]> (px_calls s)) (px_sessions s)
  | Some (CStored now) =>
      mkProxy (px_hosts s) (px_active s) ((px_generation s + 1) mod 2 ^ 64) (px_bad_until s) now
        (<[k := CReturned]> (px_calls s)) (px_sessions s)
  | _ => s
  end.

Definition proxy_step (s : ProxyState) (e : proxy_event) : ProxyState :=
  match e with
  | PFailOver idx now =>
      mkProxy (px_hosts s) (px_active s) (px_generation s) (px_bad_until s) (px_last_data s)
        (px_calls s ++ [CBegun idx now]) (px_sessions s)
  | PCall k => fail_over s k
  | PConn =>
      mkProxy (px_hosts s) (px_active s) (px_generation s) (px_bad_until s) (px_last_data s) (px_calls s)
        (px_sessions s ++ [SLoading (px_generation s)])
  | PLoadActive k =>
      match px_sessions s !! k with
      | Some (SLoading gen) =>
          mkProxy (px_hosts s) (px_active s) (px_generation s) (px_bad_until s) (px_last_data s) (px_calls s)
            (<[k := SOn gen (px_active s)]> (px_sessions s))
      | _ => s
      end
  | PData now =>
      mkProxy (px_hosts s) (px_active s) (px_generation s) (px_bad_until s) now (px_calls s) (px_sessions s)
  end.

Definition proxy_start (n : nat) : ProxyState := mkProxy n 0 0 (replicate n 0) 0 [] [].

(** The stall monitor's tick: the upstream it fails over, if any. *)
Definition stall_check (s : ProxyState) (now : Z) : option nat :=
  if negb (px_last_data s =? 0) && (STALL_MS <? sat_sub now (px_last_data s)) then Some (px_active s) else None.

(** [wait_superseded] of a session. *)
Definition superseded (s : ProxyState) (p : ProxySession) : bool :=
  match p with SLoading gen | SOn gen _ => negb (px_generation s =? gen) end.

(** ** One connection *)

Inductive N2uEnd := NodeEnd | UpstreamGone | UpstreamStalled.

Definition raw_proxy_fault (p : Z) (up : option (bool * Z)) (down : option (N2uEnd * Z)) : option string :=
  let upstream_first :=
    match up, down with
    | Some (_, u), Some (_, d) => u <=? d
    | Some _, None => true
    | _, _ => false
    end in
  if upstream_first then
    match up with
    | Some (closed, _) => if (p =? 4001) && closed then Some "upstream closed the stream"%string else None
    | None => None
    end
  else
    match down with
    | Some (UpstreamStalled, _) => Some "upstream stopped reading"%string
    | Some (UpstreamGone, _) => if p =? 4001 then Some "upstream write failed"%string else None
    | _ => None
    end.

(** [payload] is the outcome of reading as many bytes as asked. *)
Definition read_first_frame (hdr : string + bytes) (payload : Z -> string + bytes) (bootstrap : bool)
    : string + bytes :=
  match hdr with
  | inl e => inl e
  | inr hdr =>
      let len := frame_len hdr in
      if bootstrap && (4000000 <? len) then
        if 1500000000 <? len then inl ("implausible abci_state len=" +:+ show len) else inr hdr
      else if bootstrap && (1000 <? len) then
        inl ("not serving abci_state (status frame len=" +:+ show len +:+ ")")
      else if 1000 <? len then inl ("live first frame too large len=" +:+ show len)
      else
        match payload len with
        | inl e => inl e
        | inr p =>
            let frame := hdr ++ p in
            if bootstrap && negb (response_is_peer_full frame)
            then inl ("not serving abci_state (status frame len=" +:+ show len +:+ ")")
            else inr frame
        end
  end.

(** What [proxy_conn] does with a connection once it has dialed: [inl] fails the upstream over. *)
Inductive ProxyPlan :=
| PlanClose
| PlanPush (greeting : bytes)
| PlanSplice (first : bytes)
| PlanRaw (first : bytes).

Definition proxy_conn (p : Z) (push : bool) (dialed : bool) (greet : option bytes) (greet_written : bool)
    (first : string + bytes) : string + ProxyPlan :=
  if negb dialed then inl "dial failed"%string
  else
    let rest bootstrap first :=
      inr (if push && (p =? 4001) && negb bootstrap then PlanPush first
           else if push then PlanSplice first else PlanRaw first) in
    if p =? 4001 then
      match greet with
      | None => inr PlanClose
      | Some greet =>
          if negb greet_written then inl "greeting write failed"%string
          else
            match first with
            | inl e => inl ("first frame: " +:+ e)
            | inr f => if response_is_peer_full f then inl "peer full"%string else rest (byte_at greet 5 =? 1) f
            end
      end
    else rest false [].

(** ** The merge mode *)

(** [pump] of [legacy.rs] for one frame: the frame it forwards and the window of seen rounds. *)
Definition legacy_pump (lz4_decompress : bytes -> option bytes) (d : RoundDedup) (len typ : Z) (payload : bytes)
    : option bytes * RoundDedup :=
  if 50000000 <? len then (None, d)
  else if negb (typ =? 1) then (None, d)
  else
    let frame := make_frame len typ payload in
    match block_round lz4_decompress payload with
    | Some r => let '(fresh, d) := is_new d r in (if fresh then Some frame else None, d)
    | None => (Some frame, d)
    end.

(** ** The responder *)

Definition MAX_CONNS : Z := 256.
Definition MAX_REQUEST : Z := 64.
Definition PEER_FULL : bytes := [0; 0; 0; 1; 0; 4].
Definition EMPTY_PEER_TABLE : bytes := [0; 0; 0; 2; 0; 1; 0].
Definition PEER_ONLY : bytes := [0; 0; 0; 3; 0; 0; 1; 0].
Definition QUERY_PEERS : bytes := [0; 1].

Inductive Counted := Probes | Greetings | QueryPeers | OtherRpc | Bad.

(** [read] is the first read: [None] on an error, [Some []] at the end of the stream or after the
    timeout. *)
Definition answer_4001 (read : option bytes) : Counted * option bytes :=
  match read with
  | Some [] => (Probes, None)
  | Some _ => (Greetings, Some PEER_FULL)
  | None => (Bad, None)
  end.

(** [hdr] and [body] are the reads that completed within the timeout. *)
Definition responder_request (hdr body : option bytes) : option bytes :=
  match hdr with
  | None => None
  | Some hdr =>
      if MAX_REQUEST <? frame_len hdr then None
      else match body with Some b => Some (byte_at hdr 4 :: b) | None => None end
  end.

Definition answer_4002 (hdr body : option bytes) : Counted * option bytes :=
  match responder_request hdr body with
  | Some req => if bool_decide (req = QUERY_PEERS) then (QueryPeers, Some EMPTY_PEER_TABLE) else (OtherRpc, Some PEER_ONLY)
  | None => (Bad, None)
  end.

(** ** Lemmas *)

Lemma pick_next_spec cur bad now n :
  (cur < n)%nat ->
  match pick_next cur bad now n with
  | Some j => (j < n)%nat /\ j <> cur /\ nth j bad 0 <= now
  | None => forall j, (j < n)%nat -> j <> cur -> now < nth j bad 0
  end.
Proof.
  intros Hc. unfold pick_next. set (l := _ <$> seq 1 (n - 1)).
  assert (Hl : forall j, j ∈ l <-> (j < n)%nat /\ j <> cur).
  { intros j. unfold l. rewrite list_elem_of_fmap. split.
    - intros (off & -> & Ho). apply elem_of_seq in Ho.
      assert (Hm : ((cur + off) mod n)%nat = (if decide (cur + off < n) then cur + off else cur + off - n)%nat).
      { case_decide; [by apply Nat.mod_small|]. rewrite (Nat.Div0.mod_eq (cur + off) n).
        replace ((cur + off) / n)%nat with 1%nat; [lia|]. apply (Nat.div_unique _ _ _ (cur + off - n)); lia. }
      rewrite Hm. case_decide; lia.
    - intros [Hj Hne]. exists (if decide (cur < j) then j - cur else j + n - cur)%nat. split.
      + case_decide.
        * rewrite Nat.mod_small by lia. lia.
        * replace (cur + (j + n - cur))%nat with (j + 1 * n)%nat by lia.
          rewrite Nat.Div0.mod_add, Nat.mod_small by lia. done.
      + apply elem_of_seq. case_decide; lia. }
  destruct (head _) as [j|] eqn:E.
  - apply head_Some_elem_of in E. apply list_elem_of_filter in E as [Hb Hj]. apply Hl in Hj. tauto.
  - apply head_None in E. intros j Hj Hne. apply Z.nle_gt. intros Hle.
    apply (not_elem_of_nil j). rewrite <- E. apply list_elem_of_filter. split; [done|]. by apply Hl.
Qed.

Definition stored (s : ProxyState) : Prop := exists k now, px_calls s !! k = Some (CStored now).

Definition session_follows (s : ProxyState) (p : ProxySession) : Prop :=
  match p with
  | SLoading g => g <= px_generation s
  | SOn g i => g <= px_generation s /\ (i = px_active s \/ g < px_generation s \/ stored s)
  end.

(** [m] bounds the generation. *)
Definition proxy_inv (n : nat) (m : Z) (s : ProxyState) : Prop :=
  px_hosts s = n /\ 0 <= px_generation s <= m /\ Forall (session_follows s) (px_sessions s) /\
  Forall (fun c => match c with CBegun idx _ | CMarked idx _ => (idx < n)%nat
                              | CPicked idx j _ => (j < n)%nat /\ j <> idx | _ => True end) (px_calls s).

(** A step that leaves the active upstream, the generation and the stored calls alone. *)
Lemma follows_keep s s' p :
  px_active s' = px_active s -> px_generation s' = px_generation s -> (stored s -> stored s') ->
  session_follows s p -> session_follows s' p.
Proof. intros Ha Hg Hs. destruct p as [g|g i]; cbn; rewrite Hg; [done|]. rewrite Ha. naive_solver. Qed.

Lemma stored_insert s k c c' :
  px_calls s !! k = Some c -> (forall now, c <> CStored now) -> stored s -> stored (set_call s k c').
Proof.
  intros Hk Hc (j & now & Hj). exists j, now. cbn. rewrite list_lookup_insert_ne; [done|]. intros ->. naive_solver.
Qed.

Lemma proxy_step_inv n m s e :
  m + 1 < 2 ^ 64 -> match e with PFailOver idx _ => (idx < n)%nat | _ => True end ->
  proxy_inv n m s -> proxy_inv n (m + 1) (proxy_step s e).
Proof.
  intros Hm He (Hh & Hg & Hf & Hc). destruct e as [idx now|k| |k|now]; cbn [proxy_step].
  - split_and!; cbn; [done|lia|lia| |].
    + eapply Forall_impl; [exact Hf|]. intros p. apply follows_keep; [done|done|].
      intros (j & now' & Hj). exists j, now'. cbn. by apply lookup_app_l_Some.
    + apply Forall_app. split; [done|]. apply Forall_cons_2; [done|by apply Forall_nil_2].
  - unfold fail_over. destruct (px_calls s !! k) as [c|] eqn:Hk; [|split_and!; try done; lia].
    pose proof (Forall_lookup_1 _ _ _ _ Hc Hk) as Hck.
    assert (Hkeep : forall c' bad data, (forall now, c <> CStored now) ->
        match c' with CBegun idx _ | CMarked idx _ => (idx < n)%nat | CPicked idx j _ => (j < n)%nat /\ j <> idx | _ => True end ->
        proxy_inv n (m + 1) (mkProxy (px_hosts s) (px_active s) (px_generation s) bad data (<[k := c']> (px_calls s)) (px_sessions s))).
    { intros c' bad data Hns Hok. split_and!; cbn; [done|lia|lia| |by apply Forall_insert].
      eapply Forall_impl; [exact Hf|]. intros p. apply follows_keep; [done|done|].
      intros Hst. exact (stored_insert s k c c' Hk Hns Hst). }
    destruct c as [idx now|idx now|idx j now|now|].
    + by apply Hkeep.
    + destruct (_ =? _)%nat; [|by apply Hkeep].
      pose proof (pick_next_spec idx (px_bad_until s) now n Hck) as Hp. rewrite Hh.
      destruct (pick_next _ _ _ _) as [j|]; apply Hkeep; [done|tauto|done|done].
    + split_and!; cbn; [done|lia|lia| |by apply Forall_insert].
      eapply Forall_impl; [exact Hf|]. intros [g|g i]; cbn; [done|]. intros [? _]. split; [done|]. right. right.
      exists k, now. cbn. apply list_lookup_insert_eq. by eapply lookup_lt_Some.
    + rewrite Z.mod_small by lia. split_and!; cbn; [done|lia|lia| |by apply Forall_insert].
      eapply Forall_impl; [exact Hf|]. intros [g|g i]; cbn; [lia|]. intros [? _]. split; [lia|]. right. left. lia.
    + split_and!; try done; lia.
  - split_and!; cbn; [done|lia|lia| |done]. apply Forall_app. split; [done|].
    apply Forall_cons_2; [cbn; lia|by apply Forall_nil_2].
  - destruct (px_sessions s !! k) as [[g|]|] eqn:Hk; [|split_and!; try done; lia..].
    split_and!; cbn; [done|lia|lia| |done]. apply Forall_insert; [done|].
    pose proof (Forall_lookup_1 _ _ _ _ Hf Hk). cbn in *. split; [done|by left].
  - split_and!; cbn; [done|lia|lia|done|done].
Qed.

Lemma proxy_run_inv n m s evs :
  m + Z.of_nat (length evs) + 1 < 2 ^ 64 ->
  Forall (fun e => match e with PFailOver idx _ => (idx < n)%nat | _ => True end) evs ->
  proxy_inv n m s -> proxy_inv n (m + Z.of_nat (length evs)) (foldl proxy_step s evs).
Proof.
  intros Hb He. revert m s Hb. induction He as [|e evs He _ IH]; intros m s Hb H0; [by rewrite Z.add_0_r|].
  cbn [foldl length] in *. replace (m + Z.of_nat (S (length evs))) with (m + 1 + Z.of_nat (length evs)) in * by lia.
  apply IH; [lia|]. apply proxy_step_inv; [lia|done|done].
Qed.

(** ** Properties *)

(** Under every interleaving of the atomic operations of failovers and of new connections: a
    session is on the active upstream, or is superseded and ends, unless a failover is between its
    store of the active and its bump of the generation, which supersedes it next. A failover picks
    another upstream that is not cooling down, and picks none only if all others are. *)
Theorem proxy_sessions_follow_the_active (n : nat) (evs : list proxy_event) (k : nat) :
  Z.of_nat (length evs) + 1 < 2 ^ 64 ->
  Forall (fun e => match e with PFailOver idx _ => (idx < n)%nat | _ => True end) evs ->
  let s := foldl proxy_step (proxy_start n) evs in
  Forall (fun p => match p with
                   | SOn _ i => i = px_active s \/ superseded s p = true \/ stored s
                   | SLoading _ => True
                   end) (px_sessions s) /\
  (forall p, p ∈ px_sessions s -> match px_calls s !! k with Some (CStored _) => superseded (fail_over s k) p = true | _ => True end) /\
  match px_calls s !! k with
  | Some (CMarked idx now) =>
      px_active s = idx ->
      match px_calls (fail_over s k) !! k with
      | Some (CPicked _ j _) => (j < n)%nat /\ j <> idx /\ nth j (px_bad_until s) 0 <= now
      | _ => forall j, (j < n)%nat -> j <> idx -> now < nth j (px_bad_until s) 0
      end
  | _ => True
  end.
Proof.
  intros Hl He s.
  assert (Hi : proxy_inv n (0 + Z.of_nat (length evs)) s).
  { apply proxy_run_inv; [lia|done|]. split_and!; cbn; [done|lia|lia|by apply Forall_nil_2|by apply Forall_nil_2]. }
  destruct Hi as (Hh & Hg & Hf & Hc). split_and!.
  - eapply Forall_impl; [exact Hf|]. intros [g|g i]; cbn; [done|]. intros [_ [?|[?|?]]]; [by left| |by right; right].
    right. left. apply negb_true_iff, Z.eqb_neq. lia.
  - intros p Hp. rewrite Forall_forall in Hf. specialize (Hf p Hp). unfold fail_over.
    destruct (px_calls s !! k) as [[]|]; try done. unfold superseded. cbn. rewrite Z.mod_small by lia.
    destruct p; cbn in Hf; apply negb_true_iff, Z.eqb_neq; lia.
  - unfold fail_over. destruct (px_calls s !! k) as [[|idx now| | |]|] eqn:Hk; try done. intros Ha.
    rewrite Ha, Nat.eqb_refl, Hh. pose proof (Forall_lookup_1 _ _ _ _ Hc Hk) as Hidx.
    pose proof (pick_next_spec idx (px_bad_until s) now n Hidx) as Hp.
    destruct (pick_next _ _ _ _) as [j|]; cbn; rewrite list_lookup_insert_eq by (by eapply lookup_lt_Some); [tauto|done].
Qed.

Lemma proxy_sessions_follow_the_active_witness :
  let evs := [PConn; PLoadActive 0; PFailOver 0 5; PCall 0; PCall 0; PCall 0; PCall 0] in
  let s := foldl proxy_step (proxy_start 2) evs in
  px_active s = 1%nat /\ px_sessions s = [SOn 0 0] /\
  Forall (fun p => match p with
                   | SOn _ i => i = px_active s \/ superseded s p = true \/ stored s
                   | SLoading _ => True
                   end) (px_sessions s).
Proof.
  intros evs s. split; [vm_compute; reflexivity|]. split; [vm_compute; reflexivity|].
  assert (H1 : Z.of_nat (length evs) + 1 < 2 ^ 64) by (vm_compute; reflexivity).
  assert (H2 : Forall (fun e => match e with PFailOver idx _ => (idx < 2)%nat | _ => True end) evs)
    by (repeat constructor).
  exact (proj1 (proxy_sessions_follow_the_active 2 evs 0 H1 H2)).
Defined.

(** The answers of the responder are what the gateway's own readers take them for: a refusal, a peer
    table without peers, a peer-only error. *)
Theorem responder_answers_are_understood (read hdr body : option bytes) :
  match (answer_4001 read).2 with Some f => response_is_peer_full f = true | None => True end /\
  match answer_4002 hdr body with
  | (QueryPeers, Some f) => parse_query_peers_response (drop 5 f) = []
  | (_, Some f) => response_is_peer_only (drop 5 f) = true
  | (_, None) => True
  end.
Proof.
  split.
  - destruct read as [[|b l]|]; [done|vm_compute; reflexivity|done].
  - unfold answer_4002. destruct (responder_request hdr body); [|done]. case_bool_decide; vm_compute; reflexivity.
Qed.

(** On a side port an upstream that closes or resets is never blamed; a node that leaves first never
    blames its upstream on any port. *)
Theorem raw_proxy_blames_fairly (p : Z) (up : option (bool * Z)) (down : option (N2uEnd * Z)) (why : string) :
  raw_proxy_fault p up down = Some why ->
  p = 4001 \/ exists d, down = Some (UpstreamStalled, d) /\ forall c u, up = Some (c, u) -> d < u.
Proof.
  unfold raw_proxy_fault. destruct up as [[c u]|]; destruct down as [[[| |] d]|]; unroll; try done; auto.
  all: intros; right; eexists; split; [done|]; intros ? ? [= <- <-]; lia.
Qed.
