(* ===== verification/ProxyConn.v ===== *)
(** The connections of the other modes: one raw proxied connection from its dial to its end
    ([proxy_conn] of [src/push/proxy.rs]) and the merge mode from its upstreams to its node ([serve]
    and [pump] of [src/push/legacy.rs]). *)

From S2P Require Import Prelude Text Blacklist Wire Sock Freshest PushSession Relay Peers ClientBlocks Proxy.

(** ** A raw proxied connection *)

Definition SETTLE : Z := millis 100.

(** Waiting for the first end; for the other direction; over, with the failover's reason. *)
Inductive RawPhase :=
| RSelect
| RSettle (first_up : bool)
| ROver (fault : option string).

Record RawConn := mkRaw {
  rx_up2 : Copy bool;              (* upstream -> node: ended by the upstream? *)
  rx_n2u : Copy N2uEnd;            (* node -> upstream *)
  rx_up2_at : Z;                   (* when the loops ended *)
  rx_n2u_at : Z;
  rx_last_data : Z;                (* what it stored into [last_data_ms] *)
  rx_up : option (bool * Z);       (* the ends joined *)
  rx_down : option (N2uEnd * Z);
  rx_phase : RawPhase;
  rx_tasks : bool                  (* not aborted yet *)
}.

Definition raw_start (last_data : Z) : RawConn :=
  mkRaw copy_start copy_start 0 0 last_data None None RSelect true.

Inductive raw_event :=
| YUp2 (e : copy_event) (now : Z)
| YN2u (e : copy_event) (now : Z)
| YSuperseded
| YJoin (up : bool) (panicked : bool)
| YSettled (panicked : bool)
| YAborted.

Definition up2_step : Copy bool -> copy_event -> Copy bool := copy_step true None (fun _ => false).

Definition n2u_step : Copy N2uEnd -> copy_event -> Copy N2uEnd :=
  copy_step NodeEnd None (fun w => match w with WriteError _ => UpstreamGone | _ => UpstreamStalled end).

(** The upstream's data is stamped when it is read, before it is written. *)
Definition stamps (c : Copy bool) (e : copy_event) : bool := bool_decide (copy_takes c e <> []).

(** A loop's result with the time of its end. *)
Definition loop_end {R} (c : Copy R) (at_ : Z) (panicked : bool) : option (R * Z) :=
  match cp_end c with Some r => if panicked then None else Some (r, at_) | None => None end.

Definition raw_set (s : RawConn) (up : option (bool * Z)) (down : option (N2uEnd * Z)) (ph : RawPhase) : RawConn :=
  mkRaw (rx_up2 s) (rx_n2u s) (rx_up2_at s) (rx_n2u_at s) (rx_last_data s) up down ph (rx_tasks s).

Definition raw_conn (p : Z) (s : RawConn) (e : raw_event) : RawConn :=
  match e with
  | YUp2 e now =>
      if rx_tasks s then
        let c := up2_step (rx_up2 s) e in
        let at_ := match cp_end (rx_up2 s), cp_end c with None, Some _ => now | _, _ => rx_up2_at s end in
        mkRaw c (rx_n2u s) at_ (rx_n2u_at s) (if stamps (rx_up2 s) e then now else rx_last_data s)
          (rx_up s) (rx_down s) (rx_phase s) true
      else s
  | YN2u e now =>
      if rx_tasks s then
        let c := n2u_step (rx_n2u s) e in
        let at_ := match cp_end (rx_n2u s), cp_end c with None, Some _ => now | _, _ => rx_n2u_at s end in
        mkRaw (rx_up2 s) c (rx_up2_at s) at_ (rx_last_data s) (rx_up s) (rx_down s) (rx_phase s) true
      else s
  | YAborted => match rx_phase s with
                | ROver _ => mkRaw (rx_up2 s) (rx_n2u s) (rx_up2_at s) (rx_n2u_at s) (rx_last_data s) (rx_up s)
                               (rx_down s) (rx_phase s) false
                | _ => s
                end
  | YSuperseded => match rx_phase s with RSelect => raw_set s None None (ROver None) | _ => s end
  | YJoin up panicked =>
      match rx_phase s with
      | RSelect =>
          if up then
            if bool_decide (is_Some (cp_end (rx_up2 s))) || panicked
            then raw_set s (loop_end (rx_up2 s) (rx_up2_at s) panicked) None (RSettle true) else s
          else
            if bool_decide (is_Some (cp_end (rx_n2u s))) || panicked
            then raw_set s None (loop_end (rx_n2u s) (rx_n2u_at s) panicked) (RSettle false) else s
      | _ => s
      end
  | YSettled panicked =>
      match rx_phase s with
      | RSettle first_up =>
          let up := if first_up then rx_up s else loop_end (rx_up2 s) (rx_up2_at s) panicked in
          let down := if first_up then loop_end (rx_n2u s) (rx_n2u_at s) panicked else rx_down s in
          raw_set s up down (ROver (raw_proxy_fault p up down))
      | _ => s
      end
  end.

(** Every end of [proxy_conn] once it has dialed: the reason it fails the upstream over, if any. *)
Inductive ProxyEnd :=
| EndClosed
| EndPush (exit_reason : string)
| EndSplice
| EndRaw (fault : option string).

Definition proxy_fault (e : ProxyEnd) : option string :=
  match e with
  | EndPush reason => if push_exit_is_upstream_fault reason then Some "push session failed"%string else None
  | EndRaw fault => fault
  | _ => None
  end.

(** ** The merge mode *)

Definition MERGE_WINDOW : Z := 16384.
Definition MERGE_CHANNEL : nat := 4096.

(** [mg_log] records the frames that passed the window, [mg_seen] the rounds brought to it. *)
Record Merge := mkMerge {
  mg_dedup : RoundDedup;
  mg_hands : list (option bytes);      (* what each pump is sending *)
  mg_chan : list bytes;
  mg_node : list bytes;                (* written to the node *)
  mg_open : bool;                      (* the node takes frames *)
  mg_log : list (option Z * bytes);
  mg_seen : list Z
}.

Definition merge_start (upstreams : nat) : Merge :=
  mkMerge (RoundDedup_new MERGE_WINDOW) (replicate upstreams None) [] [] true [] [].

Inductive merge_event :=
| MFrame (k : nat) (len typ : Z) (payload : bytes)
| MSend (k : nat)
| MWrite (ok : bool).

Section Merge.
Context (lz4_decompress : bytes -> option bytes).

(** One step of a pump or of the loop that writes to the node. *)
Definition merge_step (s : Merge) (e : merge_event) : Merge :=
  match e with
  | MFrame k len typ payload =>
      match mg_hands s !! k with
      | Some None =>
          let '(out, d) := legacy_pump lz4_decompress (mg_dedup s) len typ payload in
          let r := if (50000000 <? len) || negb (typ =? 1) then None else block_round lz4_decompress payload in
          mkMerge d (<[k := out]> (mg_hands s)) (mg_chan s) (mg_node s) (mg_open s)
            (match out with Some f => mg_log s ++ [(r, f)] | None => mg_log s end) (mg_seen s ++ option_list r)
      | _ => s
      end
  | MSend k =>
      match mg_hands s !! k with
      | Some (Some f) =>
          if negb (mg_open s) then
            mkMerge (mg_dedup s) (<[k := None]> (mg_hands s)) (mg_chan s) (mg_node s) false (mg_log s) (mg_seen s)
          else if (length (mg_chan s) <? MERGE_CHANNEL)%nat then
            mkMerge (mg_dedup s) (<[k := None]> (mg_hands s)) (mg_chan s ++ [f]) (mg_node s) true (mg_log s) (mg_seen s)
          else s
      | _ => s
      end
  | MWrite ok =>
      match mg_chan s with
      | f :: rest =>
          if mg_open s then
            if ok then mkMerge (mg_dedup s) (mg_hands s) rest (mg_node s ++ [f]) true (mg_log s) (mg_seen s)
            else mkMerge (mg_dedup s) (mg_hands s) [] (mg_node s) false (mg_log s) (mg_seen s)
          else s
      | [] => s
      end
  end.
End Merge.

(** ** Lemmas: the raw connection *)

Definition no_panic (e : raw_event) : Prop :=
  match e with YJoin _ panicked | YSettled panicked => panicked = false | _ => True end.

(** What the connection reads at a step: from the upstream, from the node. *)
Definition raw_takes (s : RawConn) (e : raw_event) : bytes * bytes :=
  match e with
  | YUp2 e _ => (if rx_tasks s then copy_takes (rx_up2 s) e else [], [])
  | YN2u e _ => ([], if rx_tasks s then copy_takes (rx_n2u s) e else [])
  | _ => ([], [])
  end.

Definition raw_trace (p : Z) (st : RawConn * bytes * bytes) (e : raw_event) : RawConn * bytes * bytes :=
  let '(s, from_up, from_node) := st in
  (raw_conn p s e, from_up ++ (raw_takes s e).1, from_node ++ (raw_takes s e).2).

Definition run_raw (p last_data : Z) (evs : list raw_event) : RawConn * bytes * bytes :=
  foldl (raw_trace p) (raw_start last_data, [], []) evs.

(** An end joined is the end of its loop, which has ended for good. *)
Definition raw_inv (st : RawConn * bytes * bytes) : Prop :=
  let '(s, from_up, from_node) := st in
  copy_ok from_up (rx_up2 s) /\ copy_ok from_node (rx_n2u s) /\
  match rx_phase s with
  | RSettle true => rx_up s = loop_end (rx_up2 s) (rx_up2_at s) false /\ is_Some (cp_end (rx_up2 s))
  | RSettle false => rx_down s = loop_end (rx_n2u s) (rx_n2u_at s) false /\ is_Some (cp_end (rx_n2u s))
  | _ => True
  end.

Lemma copy_ended_stays {R} (re : R) ie we c e r : cp_end c = Some r -> copy_step re ie we c e = c.
Proof. intros E. unfold copy_step. by rewrite E. Qed.

Lemma raw_step_inv p st e : no_panic e -> raw_inv st -> raw_inv (raw_trace p st e).
Proof.
  destruct st as [[s fu] fn]. intros He (H1 & H2 & H3). unfold raw_trace.
  destruct e as [e now|e now| |up pk|pk|]; cbn [raw_conn raw_takes fst snd]; rewrite ?app_nil_r.
  - destruct (rx_tasks s); [|rewrite app_nil_r; by split_and!]. split_and!; [by apply copy_step_ok|done|]. cbn.
    destruct (rx_phase s) as [|[]|]; try done. destruct H3 as [E [r Hr]]. unfold up2_step.
    rewrite (copy_ended_stays _ _ _ _ _ r Hr). rewrite Hr. split; [done|by eexists].
  - destruct (rx_tasks s); [|rewrite app_nil_r; by split_and!]. split_and!; [done|by apply copy_step_ok|]. cbn.
    destruct (rx_phase s) as [|[]|]; try done. destruct H3 as [E [r Hr]]. unfold n2u_step.
    rewrite (copy_ended_stays _ _ _ _ _ r Hr). rewrite Hr. split; [done|by eexists].
  - destruct (rx_phase s) eqn:Ep; (split_and!; [done|done|]); cbn; rewrite ?Ep; done.
  - cbn in He. subst pk. destruct (rx_phase s) eqn:Ep; [|split_and!; [done|done|by rewrite Ep]..].
    destruct up; rewrite orb_false_r; case_bool_decide; (split_and!; [done|done|]); cbn; rewrite ?Ep; done.
  - destruct (rx_phase s) eqn:Ep; [split_and!; [done|done|by rewrite Ep]|split_and!; done|split_and!; [done|done|by rewrite Ep]].
  - destruct (rx_phase s) eqn:Ep; (split_and!; [done|done|]); cbn; rewrite ?Ep; done.
Qed.

Lemma run_raw_inv p last evs : Forall no_panic evs -> raw_inv (run_raw p last evs).
Proof.
  intros Hf. unfold run_raw.
  assert (H0 : raw_inv (raw_start last, [], [])) by (split_and!; [apply copy_ok_start..|done]).
  revert H0. generalize (raw_start last, @nil Z, @nil Z). induction Hf as [|e evs He _ IH]; intros st H0; [done|].
  cbn. apply IH. by apply raw_step_inv.
Qed.

(** ** Lemmas: the merge *)

Definition slot_index (r : Z) : nat := Z.to_nat (Z.land r (MERGE_WINDOW - 1)).

Definition rounds_of (l : list (option Z * bytes)) : list Z := omap fst l.

Record window_ok (d : RoundDedup) (log seen : list Z) : Prop := {
  wo_mask : mask d = MERGE_WINDOW - 1;
  wo_len : length (slots d) = Z.to_nat MERGE_WINDOW;
  wo_slots : forall i v, slots d !! i = Some v -> v <> 0 -> v ∈ log;
  wo_seen : forall r, r ∈ seen -> r <> 0 -> r ∈ log;
  wo_once : forall a, (forall r, r ∈ seen -> a <= r < a + MERGE_WINDOW) ->
    NoDup log /\ forall r, r ∈ log -> slots d !! slot_index r = Some r
}.

Lemma slot_index_spec r : Z.of_nat (slot_index r) = r mod MERGE_WINDOW /\ (slot_index r < Z.to_nat MERGE_WINDOW)%nat.
Proof.
  unfold slot_index, MERGE_WINDOW. change (16384 - 1) with (Z.ones 14). rewrite Z.land_ones by lia.
  change (2 ^ 14) with 16384. pose proof (Z.mod_pos_bound r 16384). lia.
Qed.

Lemma slot_index_inj a r r' :
  a <= r < a + MERGE_WINDOW -> a <= r' < a + MERGE_WINDOW -> slot_index r = slot_index r' -> r = r'.
Proof.
  intros Hr Hr' E. apply (f_equal Z.of_nat) in E. rewrite !(proj1 (slot_index_spec _)) in E.
  unfold MERGE_WINDOW in *. pose proof (Z.div_mod r 16384). pose proof (Z.div_mod r' 16384). nia.
Qed.

Lemma window_step d log seen r :
  window_ok d log seen -> (forall x, x ∈ log -> x ∈ seen) ->
  let '(fresh, d') := is_new d r in window_ok d' (if fresh then log ++ [r] else log) (seen ++ [r]).
Proof.
  intros [Hm Hl Hs Hn Ho] Hsub. unfold is_new. rewrite Hm. fold (slot_index r).
  destruct (slot_index_spec r) as [_ Hlt]. rewrite <- Hl in Hlt.
  destruct (lookup_lt_is_Some_2 _ _ Hlt) as [v Hv]. rewrite (nth_lookup_Some _ _ 0 v Hv).
  set (log' := if negb (v =? r) then log ++ [r] else log).
  assert (Hin : r <> 0 -> r ∈ log').
  { intros Hr. unfold log'. destruct (Z.eqb_spec v r) as [->|]; cbn; [by eapply Hs|set_solver]. }
  assert (Hincl : forall x, x ∈ log -> x ∈ log') by (intros x Hx; unfold log'; destruct (negb _); set_solver).
  split; cbn; [done|by rewrite length_insert| | |].
  - intros i w Hi Hw. apply list_lookup_insert_Some in Hi as [(_ & <- & _)|[_ Hi]]; eauto.
  - intros x Hx Hx0. apply elem_of_app in Hx as [Hx|Hx%list_elem_of_singleton]; [|subst]; eauto.
  - intros a Ha. destruct (Ho a) as [Hnd Hsl]; [intros x Hx; apply Ha; set_solver|].
    assert (Hra : a <= r < a + MERGE_WINDOW) by (apply Ha; set_solver).
    assert (Hkeep : forall x, x ∈ log -> <[slot_index r := r]> (slots d) !! slot_index x = Some x).
    { intros x Hx. destruct (decide (x = r)) as [->|Hne]; [by apply list_lookup_insert_eq|].
      rewrite list_lookup_insert_ne; [by apply Hsl|]. intros E. apply Hne. symmetry.
      apply (slot_index_inj a); [done| |done]. apply Ha. set_solver. }
    unfold log'. destruct (Z.eqb_spec v r) as [->|Hne]; cbn; [done|]. split.
    + apply NoDup_app. split_and!; [done| |apply NoDup_singleton]. intros x Hx Hx'%list_elem_of_singleton.
      subst x. specialize (Hsl r Hx). congruence.
    + intros x Hx. apply elem_of_app in Hx as [Hx|Hx%list_elem_of_singleton]; [by apply Hkeep|subst].
      by apply list_lookup_insert_eq.
Qed.

Section MergeProofs.
Context (lz4_decompress : bytes -> option bytes).

Definition merge_inv (s : Merge) : Prop :=
  window_ok (mg_dedup s) (rounds_of (mg_log s)) (mg_seen s) /\
  (forall r, r ∈ rounds_of (mg_log s) -> r ∈ mg_seen s) /\
  mg_node s ⊆+ (mg_log s).*2 /\
  (mg_open s = true -> mg_node s ++ mg_chan s ++ omap id (mg_hands s) ≡ₚ (mg_log s).*2).

Lemma hands_insert (hands : list (option bytes)) k x y :
  hands !! k = Some x -> exists rest, omap id hands ≡ₚ option_list x ++ rest /\
    omap id (<[k := y]> hands) ≡ₚ option_list y ++ rest.
Proof. intros Hk. destruct (omap_insert id _ _ _ Hk) as (rest & E & E'). exists rest. by split; [|apply E']. Qed.

Lemma merge_frame_inv s k out d log seen :
  mg_hands s !! k = Some None -> window_ok d (rounds_of log) seen -> (forall r, r ∈ rounds_of log -> r ∈ seen) ->
  log.*2 = (mg_log s).*2 ++ option_list out -> merge_inv s ->
  merge_inv (mkMerge d (<[k := out]> (mg_hands s)) (mg_chan s) (mg_node s) (mg_open s) log seen).
Proof.
  intros Hk Hw Hsub El (_ & _ & Hn & Ho). unfold merge_inv. cbn. rewrite El. split_and!; [done|done| |].
  - etrans; [exact Hn|apply submseteq_inserts_r; done].
  - intros Hop. destruct (hands_insert _ _ _ out Hk) as (rest & E & E'). rewrite E', <- (Ho Hop), E. cbn.
    rewrite <- !app_assoc. do 2 apply Permutation_app_head. apply Permutation_app_comm.
Qed.

Lemma merge_step_inv s e : merge_inv s -> merge_inv (merge_step lz4_decompress s e).
Proof.
  intros Hi. pose proof Hi as (Hw & Hsub & Hn & Ho). destruct e as [k len typ payload|k|ok]; cbn [merge_step].
  - destruct (mg_hands s !! k) as [[f|]|] eqn:Hk; try done.
    unfold legacy_pump. destruct (50000000 <? len); cbn [orb].
    { rewrite app_nil_r. apply merge_frame_inv; try done. by rewrite app_nil_r. }
    destruct (negb (typ =? 1)); [rewrite app_nil_r; apply merge_frame_inv; try done; by rewrite app_nil_r|].
    destruct (block_round lz4_decompress payload) as [r|].
    + pose proof (window_step _ _ _ r Hw Hsub) as Hstep. destruct (is_new (mg_dedup s) r) as [[] d]; cbn.
      * apply merge_frame_inv; try done; unfold rounds_of in *; rewrite ?omap_app, ?fmap_app; cbn; [done| |done].
        intros x Hx. set_solver.
      * apply merge_frame_inv; try done; [|by rewrite app_nil_r]. set_solver.
    + rewrite app_nil_r. apply merge_frame_inv; try done; unfold rounds_of in *; rewrite ?omap_app, ?fmap_app; cbn;
        rewrite ?app_nil_r; done.
  - destruct (mg_hands s !! k) as [[f|]|] eqn:Hk; try done. destruct (mg_open s) eqn:Eo; cbn [negb].
    + destruct (_ <? _)%nat; [|done]. unfold merge_inv. cbn. split_and!; [done|apply Hsub|done|]. intros _.
      destruct (hands_insert _ _ _ None Hk) as (rest & E & E'). rewrite E', <- (Ho eq_refl), E. cbn. by rewrite <- app_assoc.
    + by split_and!.
  - destruct (mg_chan s) as [|f rest] eqn:Ec; [done|]. destruct (mg_open s) eqn:Eo; [|done].
    specialize (Ho eq_refl). destruct ok; unfold merge_inv; cbn; (split_and!; [done|apply Hsub| |]).
    + rewrite <- Ho. apply submseteq_app; [done|]. apply submseteq_skip, submseteq_nil_l.
    + intros _. rewrite <- Ho. by rewrite <- app_assoc.
    + done.
    + done.
Qed.

Lemma merge_start_inv n : merge_inv (merge_start n).
Proof.
  unfold merge_inv, merge_start. cbn [mg_dedup mg_hands mg_chan mg_node mg_open mg_log mg_seen].
  assert (Hp : next_power_of_two MERGE_WINDOW = MERGE_WINDOW) by (vm_compute; reflexivity).
  split_and!; [|intros r Hr; by apply elem_of_nil in Hr|apply submseteq_nil_l|].
  - unfold RoundDedup_new. rewrite Hp. split; cbn [slots mask]; [done|by rewrite length_replicate| | |].
    + intros i v Hv Hne. by apply lookup_replicate in Hv as [-> _].
    + intros r Hr. by apply elem_of_nil in Hr.
    + intros a _. split; [constructor|]. intros r Hr. by apply elem_of_nil in Hr.
  - intros _. cbn [app]. induction n as [|n IH]; [done|]. exact IH.
Qed.

(** C34: the merge is complete and, within its window, without duplicates. Whatever the upstreams send
    and however their pumps and the writer interleave: every round (other than 0) that arrived in a
    block from any upstream has been let through, and the node has received, or is about to receive
    from the channel and the pumps, exactly the frames let through, as long as it takes frames. A
    round is let through once if the rounds that arrived span at most 16384. *)
Theorem merge_is_complete (n : nat) (evs : list merge_event) :
  let s := foldl (merge_step lz4_decompress) (merge_start n) evs in
  (forall r, r ∈ mg_seen s -> r <> 0 -> r ∈ rounds_of (mg_log s)) /\
  (forall r, r ∈ rounds_of (mg_log s) -> r ∈ mg_seen s) /\
  (forall a, (forall r, r ∈ mg_seen s -> a <= r < a + MERGE_WINDOW) -> NoDup (rounds_of (mg_log s))) /\
  mg_node s ⊆+ (mg_log s).*2 /\
  (mg_open s = true -> mg_node s ++ mg_chan s ++ omap id (mg_hands s) ≡ₚ (mg_log s).*2).
Proof.
  intros s. assert (Hi : merge_inv s) by (apply foldl_inv; [apply merge_start_inv|intros; by apply merge_step_inv]).
  destruct Hi as ([_ _ _ Hseen Honce] & Hsub & Hn & Ho). split_and!; try done. intros a Ha. by apply (Honce a).
Qed.
End MergeProofs.

Definition merged_rounds (rounds : list Z) : list Z :=
  rounds_of (mg_log (foldl (merge_step no_lz4) (merge_start 1)
    (rounds ≫= fun r => [MFrame 0 21 1 (block_payload r); MSend 0; MWrite true]))).

(** A round is let through again when another of the same slot came between. *)
Example merge_window_wraps :
  merged_rounds [2000000000; 2000000001; 2000000000] = [2000000000; 2000000001] /\
  merged_rounds [2000000000; 2000016384; 2000000000] = [2000000000; 2000016384; 2000000000].
Proof. vm_compute. split; reflexivity. Qed.

(** ** The raw connection *)

Lemma run_raw_snoc p last evs e : run_raw p last (evs ++ [e]) = raw_trace p (run_raw p last evs) e.
Proof. unfold run_raw. by rewrite foldl_app. Qed.

(** How a connection came to its end. *)
Definition raw_ended_by (p last : Z) (pre : list raw_event) (e : raw_event) (fault : option string) : Prop :=
  let s := (run_raw p last pre).1.1 in
  match e with
  | YSuperseded => rx_phase s = RSelect /\ fault = None
  | YSettled _ =>
      (is_Some (cp_end (rx_up2 s)) \/ is_Some (cp_end (rx_n2u s))) /\
      fault = raw_proxy_fault p (loop_end (rx_up2 s) (rx_up2_at s) false) (loop_end (rx_n2u s) (rx_n2u_at s) false)
  | _ => False
  end.

Lemma raw_over p last evs fault :
  Forall no_panic evs -> rx_phase (run_raw p last evs).1.1 = ROver fault ->
  exists pre e post, evs = pre ++ e :: post /\ raw_ended_by p last pre e fault.
Proof.
  induction evs as [|e evs IH] using rev_ind; [done|]. intros [Hf He]%Forall_app. rewrite run_raw_snoc.
  assert (Hold : rx_phase (run_raw p last evs).1.1 = ROver fault ->
    exists pre e0 post, evs ++ [e] = pre ++ e0 :: post /\ raw_ended_by p last pre e0 fault).
  { intros Hr. destruct (IH Hf Hr) as (pre & e0 & post & -> & Hb). exists pre, e0, (post ++ [e]).
    by rewrite <- app_assoc. }
  pose proof (run_raw_inv p last evs Hf) as Hi. apply Forall_cons in He as [He _].
  assert (Hnew : raw_ended_by p last evs e fault ->
    exists pre e0 post, evs ++ [e] = pre ++ e0 :: post /\ raw_ended_by p last pre e0 fault).
  { intros Hb. by exists evs, e, []. }
  unfold raw_ended_by in Hnew. destruct (run_raw p last evs) as [[s fu] fn]. cbn [fst raw_trace] in *.
  destruct Hi as (_ & _ & Hj). destruct e as [e now|e now| |up pk|pk|]; cbn [raw_conn].
  - by destruct (rx_tasks s).
  - by destruct (rx_tasks s).
  - destruct (rx_phase s) eqn:Ep; cbn; rewrite ?Ep; [|by intros [=]|exact Hold]. intros [= <-]. by apply Hnew.
  - destruct (rx_phase s) eqn:Ep; cbn; rewrite ?Ep; [|by intros [=]|exact Hold].
    destruct up, (_ || _); cbn; rewrite ?Ep; done.
  - cbn in He. subst pk. destruct (rx_phase s) as [|first_up|f] eqn:Ep; cbn; rewrite ?Ep; [by intros [=]| |exact Hold].
    intros [= <-]. apply Hnew. destruct first_up; destruct Hj as [-> Hs]; auto.
  - destruct (rx_phase s) eqn:Ep; cbn; rewrite ?Ep; [by intros [=]..|exact Hold].
Qed.

(** A raw proxied connection is faithful and blames fairly. Whatever the two sides, the failovers
    of other sessions and the scheduler do: the node was sent a prefix of what was read from the
    upstream and the upstream a prefix of what was read from the node; when the connection ends, it
    was superseded, and nobody is failed over, or one direction had ended, and whether the upstream
    is failed over depends only on how and when the directions had ended by the close of the settle
    wait, not on which of them the select noticed first. *)
Theorem raw_connection_is_fair (p last_data : Z) (evs : list raw_event) :
  Forall no_panic evs ->
  let '(s, from_up, from_node) := run_raw p last_data evs in
  cp_out (rx_up2 s) `prefix_of` from_up /\ cp_out (rx_n2u s) `prefix_of` from_node /\
  forall fault, rx_phase s = ROver fault ->
    exists pre e post, evs = pre ++ e :: post /\ raw_ended_by p last_data pre e fault.
Proof.
  intros Hf. pose proof (run_raw_inv p last_data evs Hf) as Hi. pose proof (raw_over p last_data evs) as Ho.
  destruct (run_raw p last_data evs) as [[s fu] fn]. destruct Hi as ((_ & _ & H1 & _) & (_ & _ & H2 & _) & _).
  split_and!; [done|done|]. intros fault. by apply Ho.
Qed.

(** The upstream closes, the node right after it; the select notices the node first. *)
Lemma raw_connection_is_fair_witness :
  let evs := [YUp2 (CRead (CData [1; 2])) 5; YUp2 (CWrite WriteOk 0) 6; YUp2 (CRead CClosed) 7;
              YN2u (CRead CClosed) 8; YJoin false false; YSettled false] in
  rx_phase (run_raw 4001 0 evs).1.1 = ROver (Some "upstream closed the stream"%string) /\
  exists pre e post, evs = pre ++ e :: post /\ raw_ended_by 4001 0 pre e (Some "upstream closed the stream"%string).
Proof.
  intros evs. split; [vm_compute; reflexivity|].
  assert (Hf : Forall no_panic evs) by (repeat constructor).
  pose proof (raw_connection_is_fair 4001 0 evs Hf) as H.
  destruct (run_raw 4001 0 evs) as [[s fu] fn] eqn:E. destruct H as (_ & _ & Ho). apply Ho.
  replace s with (run_raw 4001 0 evs).1.1 by (by rewrite E). vm_compute. reflexivity.
Defined.
