(* ===== verification/ProxyServe.v ===== *)
(** The proxy as a process: [run_proxy] and [proxy_conn] of [src/push/proxy.rs], and the dials of the
    relay and merge modes ([src/push/legacy.rs]).

    Connections of all ports run next to each other, each through its phases (the loads of the
    failover state, the dial, the vetting of the first frame, a push session, a splice or a raw copy)
    over its own socket; they share the failover state of [Proxy]. [pr_events] records the operations
    on that state and is read by no step. *)

From S2P Require Import Prelude Text Blacklist Wire Sock Freshest PushSession Relay PushServe Peers ClientBlocks Proxy ProxyConn.

(** ** Addresses *)

(** Every port of the range the node dials. *)
Definition PROXY_PORTS : list Z := (fun i => 4000 + Z.of_nat i) <$> seq 0 11.

(** [u.rsplit_once(':')]: the host. *)
Definition host_part (u : string) : string :=
  match rsplit_once COLON u with Some (h, _) => h | None => u end.

Definition proxy_addr (hosts : list string) (idx : nat) (p : Z) : option string :=
  (fun h => h +:+ ":" +:+ show p) <$> hosts !! idx.

(** [connect_greet]: the address dialed; [connected] and [written] are the results of the dial (within
    its timeout) and of the write. *)
Definition greet_target (addr : string) : string :=
  if bool_decide (COLON ∈ chars addr) then addr else addr +:+ ":4001".

Definition connect_greet {S : Type} (dial : string -> option S) (bl : Blacklist) (addr : string) (written : bool) : option S :=
  match Blacklist.connect dial bl (greet_target addr) with
  | Dialed (Some s) => if written then Some s else None
  | _ => None
  end.

(** A connection of [run_relay] to port [p]: what it splices the node with. *)
Definition relay_conn {S : Type} (dial : string -> option S) (bl : Blacklist) (upstream : string) (p : Z) : option S :=
  match Blacklist.connect dial bl (host_part upstream +:+ ":" +:+ show p) with
  | Dialed (Some s) => Some s
  | _ => None
  end.

(** ** The first frame *)

(** [read_first_frame] over the upstream's socket; [io] is the text of a failed read. *)
Definition first_frame (io : string) (bootstrap : bool) (s : list Read) : (string + bytes) * list Read :=
  match fill true 5 [] s with
  | (Filled, hdr, s1) =>
      let pay := fill true (Z.to_nat (frame_len hdr)) [] s1 in
      (read_first_frame (inr hdr) (fun _ => match pay with (Filled, p, _) => inr p | _ => inl io end) bootstrap,
       if 1000 <? frame_len hdr then s1 else pay.2)
  | (_, _, s1) => (inl io, s1)
  end.

(** ** The process *)

Inductive PxConn :=
| XLoad (p : Z)
| XDial (p : Z) (idx : nat)
| XPush (idx : nat) (greeting : bytes) (sock : list Read) (s : Serve)
| XSplice (idx : nat) (s : Splice)
| XRaw (p : Z) (idx : nat) (s : RawConn)
| XOver.

(** [pr_monitor]: the stall monitor's call of [fail_over], while it runs, and its clock. *)
Record Proxied := mkProxied {
  pr_push : bool;
  pr_hosts : list string;
  pr_state : ProxyState;
  pr_conns : list PxConn;
  pr_monitor : option (nat * Z);
  pr_events : list proxy_event
}.

(** [None]: no upstreams given. *)
Definition proxied_start (upstreams : list string) (push : bool) : option Proxied :=
  let hosts := host_part <$> upstreams in
  if bool_decide (hosts = []) then None
  else Some (mkProxied push hosts (proxy_start (length hosts)) [] None []).

(** What one connection meets between its dial and its plan. *)
Record Dialing := mkDialing {
  dl_bl : Blacklist;
  dl_dial : string -> option (list Read);
  dl_greet : option bytes;
  dl_greet_written : bool;
  dl_first_written : bool;
  dl_io : string;
  dl_now : Z;                          (* the proxy's clock, in milliseconds *)
  dl_start : Z
}.

Inductive proxied_event :=
| QConn (p : Z)
| QActive (j : nat)
| QPlanned (j : nat) (d : Dialing)
| QServe (j : nat) (e : serve_event)
| QSplice (j : nat) (e : splice_event)
| QRaw (j : nat) (e : raw_event)
| QClosed (j : nat) (now : Z)
| QCall (k : nat)
| QMonitor (now : Z).

Definition emit (s : Proxied) (e : proxy_event) : Proxied :=
  mkProxied (pr_push s) (pr_hosts s) (proxy_step (pr_state s) e) (pr_conns s) (pr_monitor s) (pr_events s ++ [e]).

Definition set_conn (s : Proxied) (j : nat) (c : PxConn) : Proxied :=
  mkProxied (pr_push s) (pr_hosts s) (pr_state s) (<[j := c]> (pr_conns s)) (pr_monitor s) (pr_events s).

Definition set_monitor (s : Proxied) (m : option (nat * Z)) : Proxied :=
  mkProxied (pr_push s) (pr_hosts s) (pr_state s) (pr_conns s) m (pr_events s).

(** The generation the connection loaded is no longer the current one. *)
Definition conn_superseded (s : Proxied) (j : nat) : bool :=
  match px_sessions (pr_state s) !! j with Some p => superseded (pr_state s) p | None => false end.

(** The push session's configuration: the vetted first frame is the greeting, nothing is prefetched,
    no freshest round. *)
Definition proxy_push_config (first : bytes) : PushConfig := mkPushConfig (Some first) [] 0 None.

(** Its shared atomics: no network tip, no floor, no end of the caller's. *)
Definition proxy_serve_event (e : serve_event) : option serve_event :=
  match e with
  | VPrefetched fr _ _ now => Some (VPrefetched fr 0 0 now)
  | VPump fr _ _ now io => Some (VPump fr 0 0 now io)
  | VJoined (EvEndWhen _) => None
  | e => Some e
  end.

Definition fail_conn (s : Proxied) (j idx : nat) (now : Z) : Proxied := emit (set_conn s j XOver) (PFailOver idx now).

Section Process.
Context `{HashOrder} (lz4_decompress : bytes -> option bytes).

(** [proxy_conn] from the dial to its plan. *)
Definition plan_conn (s : Proxied) (j : nat) (p : Z) (idx : nat) (d : Dialing) : Proxied :=
  let sock := match proxy_addr (pr_hosts s) idx p with
              | Some addr => match Blacklist.connect (dl_dial d) (dl_bl d) addr with Dialed o => o | _ => None end
              | None => None
              end in
  let bootstrap := match dl_greet d with Some g => byte_at g 5 =? 1 | None => false end in
  let '(first, rest) := first_frame (dl_io d) bootstrap (default [] sock) in
  match proxy_conn p (pr_push s) (bool_decide (is_Some sock)) (dl_greet d) (dl_greet_written d) first with
  | inl _ => fail_conn s j idx (dl_now d)
  | inr PlanClose => set_conn s j XOver
  | inr (PlanPush g) => set_conn s j (XPush idx g (default [] sock) (serve_start (proxy_push_config g) rest (dl_start d)))
  | inr (PlanSplice f) =>
      set_conn s j (if bool_decide (f = []) || dl_first_written d then XSplice idx splice_start else XOver)
  | inr (PlanRaw f) =>
      set_conn s j (if bool_decide (f = []) || dl_first_written d
                    then XRaw p idx (raw_start (px_last_data (pr_state s))) else XOver)
  end.

(** A step of a push session. *)
Definition conn_serve (s : Proxied) (j : nat) (e : serve_event) : Proxied :=
  match pr_conns s !! j, proxy_serve_event e with
  | Some (XPush idx g sock sv), Some e =>
      if match e with VJoined EvSuperseded => conn_superseded s j | _ => true end
      then set_conn s j (XPush idx g sock (serve_push lz4_decompress (proxy_push_config g) sv e)) else s
  | _, _ => s
  end.

(** A step of a raw copy; data from the upstream is stamped. *)
Definition conn_raw (s : Proxied) (j : nat) (e : raw_event) : Proxied :=
  match pr_conns s !! j with
  | Some (XRaw p idx r) =>
      if match e with YSuperseded => conn_superseded s j | _ => true end then
        let s := set_conn s j (XRaw p idx (raw_conn p r e)) in
        match e with
        | YUp2 c now => if rx_tasks r && stamps (rx_up2 r) c then emit s (PData now) else s
        | _ => s
        end
      else s
  | _ => s
  end.

(** The end of a connection: the fault it reports. *)
Definition conn_end (c : PxConn) : option ProxyEnd :=
  match c with
  | XPush _ _ _ sv => match sv_phase sv with Ended r => Some (EndPush r) | _ => None end
  | XSplice _ sp => if bool_decide (is_Some (sp_result sp)) then Some EndSplice else None
  | XRaw _ _ r => match rx_phase r with ROver fault => Some (EndRaw fault) | _ => None end
  | _ => None
  end.

Definition conn_idx (c : PxConn) : option nat :=
  match c with XDial _ idx | XPush idx _ _ _ | XSplice idx _ | XRaw _ idx _ => Some idx | _ => None end.

Definition conn_closed (s : Proxied) (j : nat) (now : Z) : Proxied :=
  match pr_conns s !! j with
  | Some c =>
      match conn_end c, conn_idx c with
      | Some e, Some idx =>
          match proxy_fault e with Some _ => fail_conn s j idx now | None => set_conn s j XOver end
      | _, _ => s
      end
  | None => s
  end.

Definition run_proxy (s : Proxied) (e : proxied_event) : Proxied :=
  match e with
  | QConn p =>
      if bool_decide (p ∈ PROXY_PORTS) then
        let s := emit s PConn in
        mkProxied (pr_push s) (pr_hosts s) (pr_state s) (pr_conns s ++ [XLoad p]) (pr_monitor s) (pr_events s)
      else s
  | QActive j =>
      match pr_conns s !! j with
      | Some (XLoad p) => set_conn (emit s (PLoadActive j)) j (XDial p (px_active (pr_state s)))
      | _ => s
      end
  | QPlanned j d => match pr_conns s !! j with Some (XDial p idx) => plan_conn s j p idx d | _ => s end
  | QServe j e => conn_serve s j e
  | QSplice j e =>
      match pr_conns s !! j with
      | Some (XSplice idx sp) =>
          if match e with XCancelled => conn_superseded s j | _ => true end
          then set_conn s j (XSplice idx (splice_with_idle false sp e)) else s
      | _ => s
      end
  | QRaw j e => conn_raw s j e
  | QClosed j now => conn_closed s j now
  | QCall k => emit s (PCall k)
  | QMonitor now =>
      if pr_push s then s
      else
        match pr_monitor s with
        | None =>
            match stall_check (pr_state s) now with
            | Some idx => emit (set_monitor s (Some (length (px_calls (pr_state s)), now))) (PFailOver idx now)
            | None => s
            end
        | Some (k, then_) =>
            match px_calls (pr_state s) !! k with
            | Some CReturned => emit (set_monitor s None) (PData then_)
            | _ => s
            end
        end
  end.
End Process.

(** ** Lemmas: the failover state *)

Definition event_in (n : nat) (e : proxy_event) : Prop := match e with PFailOver idx _ => (idx < n)%nat | _ => True end.

Definition active_in (n : nat) (s : ProxyState) : Prop :=
  px_hosts s = n /\ (px_active s < n)%nat /\
  Forall (fun c => match c with CBegun idx _ | CMarked idx _ => (idx < n)%nat | CPicked _ j _ => (j < n)%nat | _ => True end) (px_calls s).

Lemma active_in_step n s e : event_in n e -> active_in n s -> active_in n (proxy_step s e).
Proof.
  intros He (Hh & Ha & Hc). destruct e as [idx now|k| |k|now]; cbn [proxy_step].
  - split_and!; cbn; [done|done|]. apply Forall_app. split; [done|by apply Forall_singleton].
  - unfold fail_over. destruct (px_calls s !! k) as [c|] eqn:Hk; [|done].
    pose proof (Forall_lookup_1 _ _ _ _ Hc Hk) as Hck. destruct c as [idx now|idx now|idx j now|now|]; try done.
    + split_and!; cbn; [done|done|by apply Forall_insert].
    + destruct (_ =? _)%nat; [|split_and!; cbn; [done|done|by apply Forall_insert]].
      pose proof (pick_next_spec idx (px_bad_until s) now n Hck) as Hp. rewrite Hh.
      destruct (pick_next _ _ _ _) as [j|]; (split_and!; cbn; [done|done|]); apply Forall_insert; try done. tauto.
    + split_and!; cbn; [done|done|by apply Forall_insert].
    + split_and!; cbn; [done|done|by apply Forall_insert].
  - by split_and!.
  - destruct (px_sessions s !! k) as [[g|]|]; by split_and!.
  - by split_and!.
Qed.

Lemma active_in_run n evs : (0 < n)%nat -> Forall (event_in n) evs -> active_in n (foldl proxy_step (proxy_start n) evs).
Proof.
  intros Hn He. apply foldl_inv_Forall with (Q := event_in n); [|done|intros; by apply active_in_step].
  split_and!; cbn; [done|lia|by apply Forall_nil_2].
Qed.

Lemma sessions_kept s e :
  match e with PConn | PLoadActive _ => False | _ => True end -> px_sessions (proxy_step s e) = px_sessions s.
Proof.
  destruct e as [idx now|k| |k|now]; cbn [proxy_step]; try done. intros _. unfold fail_over.
  destruct (px_calls s !! k) as [[]|]; try done. destruct (_ =? _)%nat; [|done]. by destruct (pick_next _ _ _ _).
Qed.

(** ** Lemmas: a connection *)

(** The first frame of a live connection is the beginning of its stream. *)
Lemma first_frame_data io s f rest : first_frame io false s = (inr f, rest) -> data s = f ++ data rest.
Proof.
  unfold first_frame. destruct (fill true 5 [] s) as [[[] hdr] s1] eqn:E1; try done.
  apply fill_data in E1 as [E1 _]. cbn [app] in E1. unfold read_first_frame. cbn [andb].
  destruct (1000 <? frame_len hdr); [done|].
  destruct (fill true _ [] s1) as [[[] p] s2] eqn:E2; cbn [snd]; try done. intros [= <- <-].
  apply fill_data in E2 as [E2 _]. cbn [app] in E2. by rewrite <- E1, <- E2, app_assoc.
Qed.

Lemma plan_push p push dialed greet gw first g :
  proxy_conn p push dialed greet gw first = inr (PlanPush g) ->
  dialed = true /\ p = 4001 /\ first = inr g /\ response_is_peer_full g = false /\
  match greet with Some b => byte_at b 5 =? 1 | None => false end = false.
Proof.
  unfold proxy_conn. destruct dialed; [|done]. cbn [negb]. destruct (Z.eqb_spec p 4001) as [->|Hp].
  - destruct greet as [b|]; [|done]. destruct gw; [|done]. cbn [negb]. destruct first as [e|f]; [done|].
    destruct (response_is_peer_full f) eqn:Ef; [done|]. destruct push; cbn; [|done].
    destruct (byte_at b 5 =? 1); cbn; [done|]. by intros [= ->].
  - destruct push; cbn; [|done]. done.
Qed.

Section ConnLemmas.
Context `{HashOrder} (lz4_decompress : bytes -> option bytes).

(** The proxy's sessions have no floor. *)
Definition no_floor (e : serve_event) : Prop := event_floor e = None \/ event_floor e = Some 0.

Lemma proxy_serve_no_floor e e' : proxy_serve_event e = Some e' -> no_floor e'.
Proof. unfold no_floor, proxy_serve_event. repeat case_match; intros E; simplify_eq; cbn; auto. Qed.

Lemma zip_no_floor evs (seen : list bytes) floors :
  Forall no_floor evs -> length floors = length seen -> Forall (fun fl => fl ∈ omap event_floor evs) floors ->
  zip seen floors = (fun f => (f, 0)) <$> seen.
Proof.
  intros He. revert seen. induction floors as [|fl floors IH]; intros [|f seen] Hl Hf; try done.
  apply Forall_cons in Hf as [Hfl Hf]. cbn. rewrite IH by (done || by injection Hl). f_equal. f_equal.
  apply list_elem_of_omap in Hfl as (e & Hin & Ee). rewrite Forall_forall in He.
  destruct (He e Hin) as [E|E]; congruence.
Qed.

(** A push session of the proxy was run on the rest of its socket. *)
Definition push_conn (c : PxConn) : Prop :=
  match c with
  | XPush _ g sock sv => exists rest now evs,
      sv = run_serve lz4_decompress (proxy_push_config g) rest now evs /\ data sock = g ++ data rest /\ Forall no_floor evs
  | _ => True
  end.

Definition conn_ok (n : nat) (sessions : list ProxySession) (j : nat) (c : PxConn) : Prop :=
  match c with
  | XLoad _ => exists g, sessions !! j = Some (SLoading g)
  | XOver => True
  | c => exists gen idx, conn_idx c = Some idx /\ sessions !! j = Some (SOn gen idx) /\ (idx < n)%nat /\ push_conn c
  end.

Record proxied_inv (n : nat) (s : Proxied) : Prop := {
  pi_hosts : length (pr_hosts s) = n;
  pi_log : pr_state s = foldl proxy_step (proxy_start n) (pr_events s);
  pi_events : Forall (event_in n) (pr_events s);
  pi_len : length (pr_conns s) = length (px_sessions (pr_state s));
  pi_conns : forall j c, pr_conns s !! j = Some c -> conn_ok n (px_sessions (pr_state s)) j c
}.

Lemma pi_active n s : (0 < n)%nat -> proxied_inv n s -> (px_active (pr_state s) < n)%nat.
Proof. intros Hn [_ Hl He _ _]. rewrite Hl. by apply (active_in_run n _ Hn He). Qed.

Lemma emit_inv n s e :
  match e with PConn | PLoadActive _ => False | _ => True end -> event_in n e -> proxied_inv n s -> proxied_inv n (emit s e).
Proof.
  intros He Hin [H1 H2 H3 H4 H5]. split; cbn; [done|by rewrite foldl_app, <- H2| | |].
  - apply Forall_app. split; [done|by apply Forall_singleton].
  - by rewrite sessions_kept.
  - rewrite sessions_kept by done. exact H5.
Qed.

Lemma set_conn_inv n s j c :
  (forall c0, pr_conns s !! j = Some c0 -> conn_ok n (px_sessions (pr_state s)) j c) -> proxied_inv n s ->
  proxied_inv n (set_conn s j c).
Proof.
  intros Hc [H1 H2 H3 H4 H5]. split; cbn; [done|done|done|by rewrite length_insert|].
  intros i c' Hi. apply list_lookup_insert_Some in Hi as [(-> & <- & Hl)|[Hne Hi]]; [|by apply H5].
  destruct (lookup_lt_is_Some_2 (pr_conns s) i) as [c0 Hc0]; [done|]. by eapply Hc.
Qed.

Lemma fail_conn_inv n s j idx now : (idx < n)%nat -> proxied_inv n s -> proxied_inv n (fail_conn s j idx now).
Proof. intros Hi Hs. apply emit_inv; [done|done|]. by apply set_conn_inv. Qed.

Lemma set_monitor_inv n s m : proxied_inv n s -> proxied_inv n (set_monitor s m).
Proof. by intros [H1 H2 H3 H4 H5]. Qed.

(** A connection goes on to another phase with the same upstream. *)
Lemma set_same_inv n s j c c' :
  proxied_inv n s -> pr_conns s !! j = Some c -> is_Some (conn_idx c) -> conn_idx c' = conn_idx c -> push_conn c' ->
  proxied_inv n (set_conn s j c').
Proof.
  intros Hs Hj [idx Hi] Hi' Hp. apply set_conn_inv; [|done]. intros _ _. pose proof (pi_conns n s Hs j c Hj) as Hc.
  rewrite Hi in Hi'. destruct c; try done; destruct Hc as (gen & idx' & E & Hse & Hlt & _); rewrite Hi in E; injection E as <-;
    (destruct c'; try done; cbn [conn_idx] in Hi'; injection Hi' as ->; exists gen, idx; by split_and!).
Qed.

Lemma plan_conn_inv n s j p idx d :
  proxied_inv n s -> pr_conns s !! j = Some (XDial p idx) -> proxied_inv n (plan_conn s j p idx d).
Proof.
  intros Hs Hj. assert (Hlt : (idx < n)%nat).
  { destruct (pi_conns n s Hs j _ Hj) as (gen & i & [= <-] & _ & Hlt & _). done. }
  unfold plan_conn. set (sock := match proxy_addr _ _ _ with Some _ => _ | None => _ end).
  destruct (first_frame _ _ _) as [first rest] eqn:Ef.
  destruct (proxy_conn _ _ _ _ _ _) as [why|[|g|f|f]] eqn:Ep.
  - by apply fail_conn_inv.
  - by apply set_conn_inv.
  - apply plan_push in Ep as (_ & _ & -> & _ & Eb). rewrite Eb in Ef.
    eapply set_same_inv; [done|done|by eexists|done|]. exists rest, (dl_start d), []. split_and!; [done|by eapply first_frame_data|by apply Forall_nil_2].
  - destruct (_ || _); [|by apply set_conn_inv]. by eapply set_same_inv; [|done|by eexists|..].
  - destruct (_ || _); [|by apply set_conn_inv]. by eapply set_same_inv; [|done|by eexists|..].
Qed.

Lemma conn_serve_inv n s j e : proxied_inv n s -> proxied_inv n (conn_serve lz4_decompress s j e).
Proof.
  intros Hs. unfold conn_serve. destruct (pr_conns s !! j) as [[| |idx g sock sv| | |]|] eqn:Hj; try done.
  destruct (proxy_serve_event e) as [e'|] eqn:Ee; [|done].
  assert (Hgo : proxied_inv n (set_conn s j (XPush idx g sock (serve_push lz4_decompress (proxy_push_config g) sv e')))).
  { destruct (pi_conns n s Hs j _ Hj) as (gen & i & _ & _ & _ & rest & now & evs & -> & Hd & Hfl).
    eapply set_same_inv; [done|done|by eexists|done|]. exists rest, now, (evs ++ [e']). split_and!; [|done|].
    - unfold run_serve. by rewrite foldl_app.
    - apply Forall_app. split; [done|]. by eapply Forall_singleton, proxy_serve_no_floor. }
  destruct e'; try exact Hgo. destruct e0; try exact Hgo. by destruct (conn_superseded s j).
Qed.

Lemma conn_raw_inv n s j e : proxied_inv n s -> proxied_inv n (conn_raw s j e).
Proof.
  intros Hs. unfold conn_raw. destruct (pr_conns s !! j) as [[| | | |p idx r|]|] eqn:Hj; try done.
  destruct (match e with YSuperseded => _ | _ => true end); [|done].
  assert (Hset : proxied_inv n (set_conn s j (XRaw p idx (raw_conn p r e)))) by (eapply set_same_inv; [done|done|by eexists|done|done]).
  destruct e; try done. destruct (_ && _); [|done]. by apply emit_inv.
Qed.

Lemma conn_closed_inv n s j now : proxied_inv n s -> proxied_inv n (conn_closed s j now).
Proof.
  intros Hs. unfold conn_closed. destruct (pr_conns s !! j) as [c|] eqn:Hj; [|done].
  destruct (conn_end c) as [e|] eqn:Ee; [|done]. destruct (conn_idx c) as [idx|] eqn:Ei; [|done].
  destruct (proxy_fault e); [|by apply set_conn_inv]. apply fail_conn_inv; [|done].
  pose proof (pi_conns n s Hs j c Hj) as Hc. destruct c; try done; destruct Hc as (gen & i & E & _ & Hlt & _);
    rewrite Ei in E; by injection E as ->.
Qed.

(** The loads of a connection. *)
Lemma open_inv n s p :
  proxied_inv n s ->
  proxied_inv n (mkProxied (pr_push s) (pr_hosts s) (proxy_step (pr_state s) PConn) (pr_conns s ++ [XLoad p]) (pr_monitor s)
    (pr_events s ++ [PConn])).
Proof.
  intros [H1 H2 H3 H4 H5]. split; cbn; [done|by rewrite foldl_app, <- H2| | |].
  - apply Forall_app. split; [done|by apply Forall_singleton].
  - rewrite !length_app. cbn. lia.
  - intros j c Hj. apply lookup_app_Some in Hj as [Hj|[Hl Hj]].
    + specialize (H5 j c Hj). assert (Hlt : (j < length (px_sessions (pr_state s)))%nat) by (rewrite <- H4; by eapply lookup_lt_Some).
      destruct c; try done; cbn in *; by rewrite lookup_app_l by done.
    + apply list_lookup_singleton_Some in Hj as [Hj <-]. assert (j = length (pr_conns s)) as -> by lia.
      exists (px_generation (pr_state s)). rewrite H4. by rewrite list_lookup_middle.
Qed.

Lemma load_inv n s j p :
  (0 < n)%nat -> proxied_inv n s -> pr_conns s !! j = Some (XLoad p) ->
  proxied_inv n (set_conn (emit s (PLoadActive j)) j (XDial p (px_active (pr_state s)))).
Proof.
  intros Hn Hs Hj. pose proof (pi_active n s Hn Hs) as Ha. destruct Hs as [H1 H2 H3 H4 H5].
  destruct (H5 j _ Hj) as [g Hg]. split; cbn -[proxy_step]; [done|by rewrite foldl_app, <- H2| | |].
  - apply Forall_app. split; [done|by apply Forall_singleton].
  - cbn [proxy_step]. rewrite Hg. cbn. by rewrite !length_insert.
  - cbn [proxy_step]. rewrite Hg. cbn. intros i c Hi. apply list_lookup_insert_Some in Hi as [(-> & <- & Hl)|[Hne Hi]].
    + exists g, (px_active (pr_state s)). split_and!; [done| |done|done]. apply list_lookup_insert_eq. by rewrite <- H4.
    + specialize (H5 i c Hi). destruct c; try done; cbn in *; by rewrite list_lookup_insert_ne.
Qed.

Lemma run_proxy_inv n s e : (0 < n)%nat -> proxied_inv n s -> proxied_inv n (run_proxy lz4_decompress s e).
Proof.
  intros Hn Hs. destruct e as [p|j|j d|j e|j e|j e|j now|k|now]; cbn [run_proxy].
  - case_bool_decide; [|done]. by apply (open_inv n s p).
  - destruct (pr_conns s !! j) as [[p| | | | |]|] eqn:Hj; try done. by apply load_inv.
  - destruct (pr_conns s !! j) as [[|p idx| | | |]|] eqn:Hj; try done. by apply plan_conn_inv.
  - by apply conn_serve_inv.
  - destruct (pr_conns s !! j) as [[| | |idx sp| |]|] eqn:Hj; try done.
    destruct (match e with XCancelled => _ | _ => true end); [|done]. by eapply set_same_inv; [|done|by eexists|..].
  - by apply conn_raw_inv.
  - by apply conn_closed_inv.
  - by apply emit_inv.
  - destruct (pr_push s); [done|]. destruct (pr_monitor s) as [[k t]|].
    + destruct (px_calls (pr_state s) !! k) as [[]|]; try done. apply emit_inv; [done|done|]. by apply set_monitor_inv.
    + unfold stall_check. destruct (_ && _); [|done]. apply emit_inv; [done|by apply pi_active|]. by apply set_monitor_inv.
Qed.

Lemma emit_length s e : length (pr_events (emit s e)) = S (length (pr_events s)).
Proof. cbn. rewrite length_app. cbn. lia. Qed.

Lemma run_proxy_events s e : (length (pr_events (run_proxy lz4_decompress s e)) <= S (length (pr_events s)))%nat.
Proof.
  destruct e as [p|j|j d|j e|j e|j e|j now|k|now]; cbn [run_proxy].
  - case_bool_decide; [|lia]. cbn [pr_events]. rewrite emit_length. lia.
  - destruct (pr_conns s !! j) as [[]|]; try lia. cbn. rewrite length_app. cbn. lia.
  - destruct (pr_conns s !! j) as [[]|]; try lia. unfold plan_conn. destruct (first_frame _ _ _) as [first rest].
    destruct (proxy_conn _ _ _ _ _ _) as [why|[]]; cbn; rewrite ?length_app; cbn; lia.
  - unfold conn_serve. destruct (pr_conns s !! j) as [[]|], (proxy_serve_event e) as [e'|]; try lia.
    destruct (match e' with VJoined _ => _ | _ => true end); cbn; lia.
  - destruct (pr_conns s !! j) as [[]|]; try lia. destruct (match e with XCancelled => _ | _ => true end); cbn; lia.
  - unfold conn_raw. destruct (pr_conns s !! j) as [[]|]; try lia. destruct (match e with YSuperseded => _ | _ => true end); [|lia].
    destruct e; try (cbn; lia). destruct (_ && _); cbn; rewrite ?length_app; cbn; lia.
  - unfold conn_closed. destruct (pr_conns s !! j) as [c|]; [|lia]. destruct (conn_end c), (conn_idx c); try lia.
    destruct (proxy_fault _); cbn; rewrite ?length_app; cbn; lia.
  - rewrite emit_length. lia.
  - destruct (pr_push s); [lia|]. destruct (pr_monitor s) as [[k t]|].
    + destruct (px_calls (pr_state s) !! k) as [[]|]; try lia. rewrite emit_length. cbn. lia.
    + destruct (stall_check _ _); [|lia]. rewrite emit_length. cbn. lia.
Qed.

Lemma run_length s evs :
  (length (pr_events (foldl (run_proxy lz4_decompress) s evs)) <= length (pr_events s) + length evs)%nat.
Proof.
  revert s. induction evs as [|e evs IH]; intros s; cbn [foldl length]; [lia|].
  pose proof (IH (run_proxy lz4_decompress s e)). pose proof (run_proxy_events s e). lia.
Qed.

Lemma proxied_run upstreams push s0 evs :
  proxied_start upstreams push = Some s0 ->
  proxied_inv (length upstreams) (foldl (run_proxy lz4_decompress) s0 evs) /\ (0 < length upstreams)%nat /\
  (length (pr_events (foldl (run_proxy lz4_decompress) s0 evs)) <= length evs)%nat.
Proof.
  unfold proxied_start. case_bool_decide as Hh; [done|]. intros [= <-].
  assert (Hn : (0 < length upstreams)%nat) by (destruct upstreams; [done|cbn; lia]).
  split_and!; [|done|apply run_length]. apply foldl_inv; [|intros s e; by apply run_proxy_inv].
  split; cbn; [by rewrite length_fmap|by rewrite length_fmap|by apply Forall_nil_2|done|done].
Qed.

(** A session that follows. *)
Lemma conn_follows n s j gen idx :
  proxied_inv n s -> Z.of_nat (length (pr_events s)) + 1 < 2 ^ 64 -> px_sessions (pr_state s) !! j = Some (SOn gen idx) ->
  idx = px_active (pr_state s) \/ conn_superseded s j = true \/ stored (pr_state s).
Proof.
  intros [_ Hl He _ _] Hb Hj.
  assert (Hi : proxy_inv n (0 + Z.of_nat (length (pr_events s))) (pr_state s)).
  { rewrite Hl. apply proxy_run_inv; [lia|exact He|].
    split_and!; cbn; [done|lia|lia|by apply Forall_nil_2|by apply Forall_nil_2]. }
  destruct Hi as (_ & _ & Hf & _). destruct (Forall_lookup_1 _ _ _ _ Hf Hj) as [Hg [Ha|[Ha|Ha]]]; auto.
  right. left. unfold conn_superseded. rewrite Hj. cbn. apply negb_true_iff, Z.eqb_neq. lia.
Qed.
End ConnLemmas.

(** ** Property *)

Section Property.
Context `{HashOrder} (lz4_decompress : bytes -> option bytes).

(** C17: in push mode every node is served by one upstream, the active one or one it is leaving. Over
    every interleaving of connections, failovers, the stall monitor and the tasks of the sessions:
    the upstream of a push session is one of the list; its socket starts with the first frame the
    connection was vetted by, and what the node has received is that frame and then the gated frames
    of the rest of the same socket, cut by their headers: every frame without a round and every block
    above those already sent, in order; a prefix of these bytes, and all of them once nothing is
    queued. The upstream is the active one, or the session is superseded, or a failover has stored
    another active upstream and is about to supersede it; and a superseded session that is not writing
    ends when it polls, without its upstream being failed over for it. *)
Theorem proxied_node_has_one_upstream (upstreams : list string) (push : bool) (s0 : Proxied) (evs : list proxied_event)
    (j idx : nat) (g : bytes) (sock : list Read) (sv : Serve) :
  proxied_start upstreams push = Some s0 -> Z.of_nat (length evs) + 1 < 2 ^ 64 ->
  let s := foldl (run_proxy lz4_decompress) s0 evs in
  pr_conns s !! j = Some (XPush idx g sock sv) -> Forall is_byte (data sock) ->
  (idx < length upstreams)%nat /\
  (exists stream n, data sock = g ++ stream /\
     let sent := gated lz4_decompress 0 ((fun f => (f, 0)) <$> take n (frames_of MAX_LIVE_FRAME stream)) in
     node_bytes sv `prefix_of` g ++ concat sent /\
     (sv_phase sv = Running -> held (sv_queue sv) = [] -> sv_hand sv = None -> node_bytes sv = g ++ concat sent) /\
     (sv_phase sv = Running -> sv_active sv = None ->
        stream = concat (take n (frames_of MAX_LIVE_FRAME stream)) ++ data (sv_sock sv)) /\
     StronglySorted Z.lt (0 :: omap (frame_round lz4_decompress) sent)) /\
  (idx = px_active (pr_state s) \/ conn_superseded s j = true \/ stored (pr_state s)) /\
  (conn_superseded s j = true -> sv_phase sv = Running -> q_writing (sv_queue sv) = [] ->
   forall now, let s' := conn_closed (conn_serve lz4_decompress s j (VJoined EvSuperseded)) j now in
     pr_conns s' !! j = Some XOver /\ pr_state s' = pr_state s).
Proof.
  intros H0 Hb s Hj Hby. destruct (proxied_run lz4_decompress upstreams push s0 evs H0) as (Hi & Hn & Hl). fold s in Hi, Hl.
  destruct (pi_conns _ _ s Hi j _ Hj) as (gen & i & [= <-] & Hse & Hlt & rest & now & es & Hsv & Hd & Hfl).
  split_and!; [done| |apply (conn_follows lz4_decompress (length upstreams) s j gen); [done|lia|done]|].
  - rewrite Hd in Hby. apply Forall_app in Hby as [_ Hby].
    destruct (session_delivers_stream lz4_decompress (proxy_push_config g) rest now es) as
      (own & stream & n & floors & H1 & -> & H3 & H4 & H5 & H6 & H7 & H8 & _); [done|done|].
    rewrite <- Hsv in H5, H6, H7. cbn [app] in H1. subst stream. exists (data rest), n. split; [done|]. cbn zeta.
    cbn [prefetched_frames proxy_push_config app length Nat.add] in *.
    rewrite <- (zip_no_floor _ _ _ Hfl H3 H4). split_and!; [done|done| |done].
    intros Hrun Ha. by destruct (H7 Hrun Ha) as (k & -> & ?).
  - intros Hsup Hrun Hq now'. unfold conn_serve. rewrite Hj. cbn [proxy_serve_event]. rewrite Hsup.
    set (s1 := set_conn s j _). assert (Ej : pr_conns s1 !! j = Some (XPush idx g sock
      (sv_end sv (session_reason "active superseded by failover" (stats (sv_push sv)))))).
    { unfold s1. cbn. rewrite list_lookup_insert_eq by (by eapply lookup_lt_Some). do 2 f_equal.
      unfold serve_push. rewrite Hrun. cbn. unfold serve_select. by rewrite bool_decide_eq_true_2. }
    unfold conn_closed. rewrite Ej. cbn [conn_end conn_idx sv_end sv_phase proxy_fault].
    assert (Ef : push_exit_is_upstream_fault (session_reason "active superseded by failover" (stats (sv_push sv))) = false) by reflexivity.
    rewrite Ef. split; [|done]. cbn. apply list_lookup_insert_eq. rewrite length_insert. by eapply lookup_lt_Some.
Qed.
End Property.

(** A node that dials 4001: the active upstream answers with its greeting and one block. *)
Definition example_px_sock : list Read :=
  [RData ([0; 0; 0; 1; 0; 3] ++ make_frame 21 1 (block_payload 2000000001))].

Definition example_px_run : list proxied_event :=
  let fr := FreshestRound_new PEER_LAG_ROUNDS PEER_LAG_GRACE FRESHEST_STALE in
  [QConn 4001; QActive 0;
   QPlanned 0 (mkDialing bl_initial (fun a => if decide (a = "1.1.1.1:4001"%string) then Some example_px_sock else None)
     (Some [0; 0; 0; 3; 0; 0; 0; 0]) true true "" 0 0);
   QServe 0 (VGreeting WriteOk 0); QServe 0 (VStart 0); QServe 0 (VPump fr 0 0 0 "");
   QServe 0 VAcquire; QServe 0 VPush; QServe 0 VRecv; QServe 0 (VWritten WriteOk 0)].

Definition example_px_start : Proxied :=
  mkProxied true ["1.1.1.1"; "2.2.2.2"]%string (proxy_start 2) [] None [].

Definition example_px : Proxied := foldl (run_proxy no_lz4) example_px_start example_px_run.

Definition example_px_serve : Serve :=
  match pr_conns example_px !! 0%nat with
  | Some (XPush _ _ _ sv) => sv
  | _ => serve_start (proxy_push_config []) [] 0
  end.

Lemma proxied_node_has_one_upstream_witness :
  node_bytes example_px_serve = [0; 0; 0; 1; 0; 3] ++ make_frame 21 1 (block_payload 2000000001) /\
  exists stream n, data example_px_sock = [0; 0; 0; 1; 0; 3] ++ stream /\
    node_bytes example_px_serve `prefix_of` [0; 0; 0; 1; 0; 3] ++
      concat (gated no_lz4 0 ((fun f => (f, 0)) <$> take n (frames_of MAX_LIVE_FRAME stream))).
Proof.
  split; [vm_compute; reflexivity|].
  pose proof (proxied_node_has_one_upstream no_lz4 ["1.1.1.1:4001"; "2.2.2.2"]%string true example_px_start example_px_run 0 0
    [0; 0; 0; 1; 0; 3] example_px_sock example_px_serve) as Hw. cbn zeta in Hw.
  destruct Hw as (_ & (stream & n & H1 & H2 & _) & _).
  - vm_compute. reflexivity.
  - vm_compute. reflexivity.
  - vm_compute. reflexivity.
  - vm_compute. repeat (apply Forall_cons_2; [split; [discriminate|reflexivity]|]). apply Forall_nil_2.
  - exists stream, n. split; [exact H1|exact H2].
Defined.
