(* ===== verification/Responder.v ===== *)
(** The public probe responder as a whole: the accept loops, the connection limit and the counters of
    [src/responder.rs]; the answers are in [Proxy]. *)

From S2P Require Import Prelude Text Wire PushSession Peers ClientBlocks Proxy.

Definition u64_inc (n : Z) : Z := (n + 1) mod 2 ^ 64.

(** The counters of [Stats]: those of the answers by their kind, then [busy] and [from_priority]. *)
Record Stats := mkStats { st_answers : Counted -> Z; st_busy : Z; st_from_priority : Z }.

Definition Stats_default : Stats := mkStats (fun _ => 0) 0 0.

#[global] Instance Counted_eq_dec : EqDecision Counted.
Proof. solve_decision. Defined.

Definition ALL_COUNTED : list Counted := [Probes; Greetings; QueryPeers; OtherRpc; Bad].

(** The seven values, in the order of the log line, and the counters after it. *)
Definition take (s : Stats) : list Z * Stats :=
  ((st_answers s <$> ALL_COUNTED) ++ [st_busy s; st_from_priority s], Stats_default).

Definition count_one (s : Stats) (c : Counted) : Stats :=
  mkStats (fun c' => if decide (c = c') then u64_inc (st_answers s c') else st_answers s c') (st_busy s) (st_from_priority s).

(** [rs_sent] records what each closed connection was sent. *)
Record Responder := mkResponder {
  rs_permits : Z;
  rs_open : list Z;                   (* the ports of the connections held *)
  rs_stats : Stats;
  rs_sent : list (option bytes)
}.

Inductive responder_event :=
| RAccept (port : Z) (priority : bool)
| RFirst (k : nat) (read : option bytes)           (* what a 4001 connection's read gives *)
| RRequest (k : nat) (hdr body : option bytes)     (* what a 4002 connection's reads give *)
| RGone (k : nat)                                  (* the task of a connection panics *)
| RTake.

Definition close (s : Responder) (k : nat) (r : Counted * option bytes) : Responder :=
  mkResponder (rs_permits s + 1) (delete k (rs_open s)) (count_one (rs_stats s) r.1) (rs_sent s ++ [r.2]).

Definition serve (s : Responder) (e : responder_event) : Responder :=
  match e with
  | RAccept port priority =>
      let st := rs_stats s in
      if rs_permits s <=? 0 then
        mkResponder (rs_permits s) (rs_open s) (mkStats (st_answers st) (u64_inc (st_busy st)) (st_from_priority st)) (rs_sent s)
      else
        mkResponder (rs_permits s - 1) (rs_open s ++ [port])
          (mkStats (st_answers st) (st_busy st) (if priority then u64_inc (st_from_priority st) else st_from_priority st))
          (rs_sent s)
  | RFirst k read =>
      match rs_open s !! k with
      | Some port => if port =? 4001 then close s k (answer_4001 read) else s
      | None => s
      end
  | RRequest k hdr body =>
      match rs_open s !! k with
      | Some port => if port =? 4001 then s else close s k (answer_4002 hdr body)
      | None => s
      end
  | RGone k =>
      match rs_open s !! k with
      | Some _ => mkResponder (rs_permits s + 1) (delete k (rs_open s)) (rs_stats s) (rs_sent s)
      | None => s
      end
  | RTake => mkResponder (rs_permits s) (rs_open s) (take (rs_stats s)).2 (rs_sent s)
  end.

Definition run_responder : Responder := mkResponder MAX_CONNS [] Stats_default [].

(** ** Lemmas *)

Definition answers (s : Stats) : Z := foldr Z.add 0 (st_answers s <$> ALL_COUNTED).

(** [n] bounds the counters: nothing has wrapped. *)
Definition responder_inv (n : Z) (s : Responder) : Prop :=
  0 <= rs_permits s /\ rs_permits s + Z.of_nat (length (rs_open s)) = MAX_CONNS /\
  (forall c, 0 <= st_answers (rs_stats s) c <= n) /\ 0 <= st_busy (rs_stats s) <= n /\
  0 <= st_from_priority (rs_stats s) <= n /\
  Forall (fun f => f ∈ [None; Some PEER_FULL; Some EMPTY_PEER_TABLE; Some PEER_ONLY]) (rs_sent s).

Lemma u64_inc_small n m : 0 <= n <= m -> m + 1 < 2 ^ 64 -> u64_inc n = n + 1.
Proof. intros. unfold u64_inc. apply Z.mod_small. lia. Qed.

Lemma count_answers n s c :
  (forall c', 0 <= st_answers s c' <= n) -> n + 1 < 2 ^ 64 -> answers (count_one s c) = answers s + 1.
Proof.
  intros H Hn. unfold answers, count_one, ALL_COUNTED. cbn [st_answers fmap list_fmap foldr].
  destruct c; repeat first [rewrite decide_True by done | rewrite decide_False by done];
    rewrite (u64_inc_small _ n) by auto; lia.
Qed.

Lemma close_inv n s k r port :
  rs_open s !! k = Some port -> n + 1 < 2 ^ 64 ->
  r.2 ∈ [None; Some PEER_FULL; Some EMPTY_PEER_TABLE; Some PEER_ONLY] ->
  responder_inv n s -> responder_inv (n + 1) (close s k r).
Proof.
  intros Hk Hn Hr (H1 & H2 & H3 & H4 & H5 & H6). unfold close, responder_inv. cbn.
  pose proof (length_delete _ k (mk_is_Some _ _ Hk)) as Hd. pose proof (lookup_lt_Some _ _ _ Hk).
  split_and!; try lia.
  - intros c. specialize (H3 c). case_decide; [rewrite (u64_inc_small _ n)|]; lia.
  - apply Forall_app. split; [done|]. apply Forall_cons_2; [done|by apply Forall_nil_2].
Qed.

Lemma answers_known read hdr body :
  (answer_4001 read).2 ∈ [None; Some PEER_FULL; Some EMPTY_PEER_TABLE; Some PEER_ONLY] /\
  (answer_4002 hdr body).2 ∈ [None; Some PEER_FULL; Some EMPTY_PEER_TABLE; Some PEER_ONLY].
Proof.
  split; [destruct read as [[|]|]; cbn; set_solver|]. unfold answer_4002.
  destruct (responder_request hdr body); [|cbn; set_solver]. case_bool_decide; cbn; set_solver.
Qed.

Lemma serve_inv n s e : n + 1 < 2 ^ 64 -> responder_inv n s -> responder_inv (n + 1) (serve s e).
Proof.
  intros Hn Hi. pose proof Hi as (H1 & H2 & H3 & H4 & H5 & H6).
  assert (Hmono : responder_inv (n + 1) s).
  { split_and!; try done; try lia. intros c. specialize (H3 c). lia. }
  destruct e as [port pr|k read|k hdr body|k|]; cbn [serve].
  - destruct (Z.leb_spec (rs_permits s) 0).
    + unfold responder_inv. cbn. rewrite (u64_inc_small _ n) by done. split_and!; try done; try lia.
      intros c. specialize (H3 c). lia.
    + unfold responder_inv. cbn. rewrite length_app. cbn. rewrite (u64_inc_small _ n) by done.
      split_and!; try done; try lia; try (by destruct pr; lia). intros c. specialize (H3 c). lia.
  - destruct (rs_open s !! k) as [port|] eqn:Hk; [|done]. destruct (port =? 4001); [|done].
    apply (close_inv n s k _ port); [done|done|by apply (answers_known read None None)|done].
  - destruct (rs_open s !! k) as [port|] eqn:Hk; [|done]. destruct (port =? 4001); [done|].
    apply (close_inv n s k _ port); [done|done|by apply (answers_known None hdr body)|done].
  - destruct (rs_open s !! k) as [port|] eqn:Hk; [|done]. destruct Hmono as (_ & _ & M3 & M4 & M5 & M6).
    pose proof (length_delete _ k (mk_is_Some _ _ Hk)). pose proof (lookup_lt_Some _ _ _ Hk).
    split_and!; cbn; try done; lia.
  - unfold responder_inv. cbn. split_and!; try done; try lia.
Qed.

Lemma serve_run_inv n s evs :
  n + Z.of_nat (length evs) < 2 ^ 64 -> responder_inv n s ->
  responder_inv (n + Z.of_nat (length evs)) (foldl serve s evs).
Proof.
  revert n s. induction evs as [|e evs IH]; intros n s Hn Hi; [by rewrite Z.add_0_r|]. cbn [length foldl] in *.
  replace (n + Z.of_nat (S (length evs))) with (n + 1 + Z.of_nat (length evs)) by lia.
  apply IH; [lia|]. apply serve_inv; [lia|done].
Qed.

(** The responder keeps to its limit and answers nothing else. Over any run (of fewer than 2^64
    events): at most 256 connections are held and their permits come back, also from a panicked task;
    a new connection is refused, and counted busy, exactly when 256 are held; a connection that is
    answered is counted once, and is sent nothing, the refusal, the empty peer table or the peer-only
    error. *)
Theorem responder_keeps_to_its_limit (evs : list responder_event) (port : Z) (pr : bool) (k : nat) (p : Z)
    (read hdr body : option bytes) :
  Z.of_nat (length evs) + 1 < 2 ^ 64 ->
  let s := foldl serve run_responder evs in
  rs_permits s + Z.of_nat (length (rs_open s)) = MAX_CONNS /\ 0 <= rs_permits s /\
  (let s' := serve s (RAccept port pr) in
   if decide (Z.of_nat (length (rs_open s)) = MAX_CONNS)
   then rs_open s' = rs_open s /\ st_busy (rs_stats s') = st_busy (rs_stats s) + 1
   else rs_open s' = rs_open s ++ [port] /\ st_busy (rs_stats s') = st_busy (rs_stats s)) /\
  (rs_open s !! k = Some p ->
   let s' := serve s (if p =? 4001 then RFirst k read else RRequest k hdr body) in
   rs_open s' = delete k (rs_open s) /\ answers (rs_stats s') = answers (rs_stats s) + 1) /\
  Forall (fun f => f ∈ [None; Some PEER_FULL; Some EMPTY_PEER_TABLE; Some PEER_ONLY]) (rs_sent s).
Proof.
  intros Hl s. assert (Hi : responder_inv (0 + Z.of_nat (length evs)) s).
  { apply serve_run_inv; [lia|]. unfold run_responder, responder_inv, MAX_CONNS. cbn.
    split_and!; try done; try lia. }
  destruct Hi as (H1 & H2 & H3 & H4 & H5 & H6). set (n := 0 + Z.of_nat (length evs)) in *.
  split_and!; [done|done| | |done].
  - cbn [serve]. destruct (Z.leb_spec (rs_permits s) 0), (decide _); cbn; try lia; [|done].
    rewrite (u64_inc_small _ n) by (done || lia). done.
  - intros Hk. destruct (p =? 4001) eqn:Ep; cbn [serve]; rewrite Hk, Ep; cbn; (split; [done|]);
      apply (count_answers n); try done; lia.
Qed.

Lemma responder_keeps_to_its_limit_witness :
  let s := foldl serve run_responder [RAccept 4001 false; RAccept 4002 true; RFirst 0 (Some [1])] in
  rs_sent s = [Some PEER_FULL] /\ rs_open s = [4002] /\ st_from_priority (rs_stats s) = 1 /\
  rs_permits s + Z.of_nat (length (rs_open s)) = MAX_CONNS.
Proof.
  intros s. split; [vm_compute; reflexivity|]. split; [vm_compute; reflexivity|]. split; [vm_compute; reflexivity|].
  exact (proj1 (responder_keeps_to_its_limit [RAccept 4001 false; RAccept 4002 true; RFirst 0 (Some [1])] 0 false 0 0
    None None None eq_refl)).
Defined.
