(* ===== verification/CacheMode.v ===== *)
(** The standalone cache mode: [run_cache], [feed_state], [feed_live] and [insert_live] of
    [src/testing.rs].

    Two feeders fill a state and a map of live blocks by round, and broadcast new blocks; a node gets
    the state, then the buffered blocks in round order, then the broadcasts since it connected. A
    feeder inserts a block in one step and broadcasts it in the next. The fields [cl_backlog] and
    [cl_got] record what happened and are read by no step; what a node is due is computed from the
    history of the feeders ([due]), not recorded. *)

From S2P Require Import Prelude Text Wire BTree Freshest PushSession.

Definition LIVE_CAP : nat := Z.to_nat 50000.
Definition BROADCAST_CAP : nat := Z.to_nat 16384.
Definition STATE_FRAME_MIN : Z := 4000000.
Definition STATE_FRAME_MAX : Z := 1500000000.
Definition LIVE_FRAME_MAX : Z := 50000000.

(** The map is trimmed from its lowest round. *)
Definition insert_live (live : list (Z * bytes)) (round : Z) (frame : bytes) (cap : nat)
    : bool * list (Z * bytes) :=
  match bt_get round live with
  | Some _ => (false, live)
  | None => let m := bt_insert round frame live in (true, drop (length m - cap) m)
  end.

(** Where a node's task stands. *)
Inductive ClientPhase :=
| KWaiting
| KState (state : bytes)
| KBacklog (rest : list bytes)
| KStreaming
| KGone.

Record Client := mkClient {
  cl_phase : ClientPhase;
  cl_queue : list bytes;               (* broadcasts not received yet *)
  cl_lagged : bool;
  cl_out : list bytes;                 (* frames written to the node *)
  cl_state : option bytes;
  cl_backlog : list (Z * bytes);       (* the blocks listed after the state *)
  cl_got : list bytes                  (* broadcasts written *)
}.

(** [cm_hand b]: the block a feeder has inserted and not broadcast yet ([true]: the live feeder). *)
Record CacheMode := mkCacheMode {
  cm_state : option bytes;
  cm_live : list (Z * bytes);
  cm_hand : bool -> option bytes;
  cm_clients : list Client
}.

Inductive cache_event :=
| KStateFrame (len typ : Z) (payload : bytes)    (* read by [feed_state] *)
| KLiveFrame (len typ : Z) (payload : bytes)     (* read by [feed_live] *)
| KSend (live_feeder : bool)                     (* its [btx.send] *)
| KConnect
| KFetch (k : nat)                               (* the state is there *)
| KTimeout (k : nat)                             (* it is not, within 60 seconds *)
| KWrite (k : nat) (ok : bool).

Section CacheMode.
Context (lz4_decompress : bytes -> option bytes).

(** A broadcast: a receiver that is too far behind loses its oldest frames. *)
Definition receive (f : bytes) (c : Client) : Client :=
  match cl_phase c with
  | KGone => c
  | _ =>
      let q := cl_queue c ++ [f] in
      mkClient (cl_phase c) (drop (length q - BROADCAST_CAP) q)
        (cl_lagged c || (BROADCAST_CAP <? length q)%nat) (cl_out c) (cl_state c) (cl_backlog c) (cl_got c)
  end.

Definition set_hand (s : CacheMode) (who : bool) (f : option bytes) : bool -> option bytes :=
  fun b => if Bool.eqb b who then f else cm_hand s b.

(** A block from a feeder: stored, and to be broadcast if its round is new. *)
Definition feed_block (s : CacheMode) (who : bool) (payload frame : bytes) : CacheMode :=
  match block_round lz4_decompress payload with
  | Some r =>
      let '(new, live) := insert_live (cm_live s) r frame LIVE_CAP in
      mkCacheMode (cm_state s) live (if new then set_hand s who (Some frame) else cm_hand s) (cm_clients s)
  | None => s
  end.

(** A feeder reads its next frame once it has broadcast the last one. *)
Definition feed_state (s : CacheMode) (len typ : Z) (payload : bytes) : CacheMode :=
  if bool_decide (is_Some (cm_hand s false)) then s
  else if STATE_FRAME_MAX <? len then s
  else
    let frame := make_frame len typ payload in
    if STATE_FRAME_MIN <? len then mkCacheMode (Some frame) (cm_live s) (cm_hand s) (cm_clients s)
    else if typ =? 1 then feed_block s false payload frame
    else s.

Definition feed_live (s : CacheMode) (len typ : Z) (payload : bytes) : CacheMode :=
  if bool_decide (is_Some (cm_hand s true)) then s
  else if LIVE_FRAME_MAX <? len then s
  else if typ =? 1 then feed_block s true payload (make_frame len typ payload)
  else s.

Definition feed_send (s : CacheMode) (who : bool) : CacheMode :=
  match cm_hand s who with
  | Some f => mkCacheMode (cm_state s) (cm_live s) (set_hand s who None) (receive f <$> cm_clients s)
  | None => s
  end.

(** After the state is written the buffered blocks are listed in round order. *)
Definition client_write (live : list (Z * bytes)) (c : Client) (ok : bool) : Client :=
  let gone := mkClient KGone (cl_queue c) (cl_lagged c) (cl_out c) (cl_state c) (cl_backlog c) (cl_got c) in
  match cl_phase c with
  | KState st =>
      if ok then mkClient (KBacklog live.*2) (cl_queue c) (cl_lagged c) (cl_out c ++ [st]) (Some st) live (cl_got c)
      else gone
  | KBacklog (f :: rest) =>
      if ok then mkClient (KBacklog rest) (cl_queue c) (cl_lagged c) (cl_out c ++ [f]) (cl_state c) (cl_backlog c) (cl_got c)
      else gone
  | KBacklog [] =>
      mkClient KStreaming (cl_queue c) (cl_lagged c) (cl_out c) (cl_state c) (cl_backlog c) (cl_got c)
  | KStreaming =>
      match cl_queue c with
      | f :: q =>
          if ok then mkClient KStreaming q (cl_lagged c) (cl_out c ++ [f]) (cl_state c) (cl_backlog c)
                       (cl_got c ++ [f])
          else gone
      | [] => c
      end
  | _ => c
  end.

Definition run_cache (s : CacheMode) (e : cache_event) : CacheMode :=
  let client k f :=
    match cm_clients s !! k with
    | Some c => mkCacheMode (cm_state s) (cm_live s) (cm_hand s) (<[k := f c]> (cm_clients s))
    | None => s
    end in
  match e with
  | KStateFrame len typ payload => feed_state s len typ payload
  | KLiveFrame len typ payload => feed_live s len typ payload
  | KSend who => feed_send s who
  | KConnect =>
      mkCacheMode (cm_state s) (cm_live s) (cm_hand s) (cm_clients s ++ [mkClient KWaiting [] false [] None [] []])
  | KFetch k =>
      client k (fun c =>
        match cl_phase c, cm_state s with
        | KWaiting, Some st =>
            mkClient (KState st) (cl_queue c) (cl_lagged c) (cl_out c) (cl_state c) (cl_backlog c) (cl_got c)
        | _, _ => c
        end)
  | KTimeout k =>
      client k (fun c =>
        match cl_phase c with
        | KWaiting =>
            mkClient KGone (cl_queue c) (cl_lagged c) (cl_out c) (cl_state c) (cl_backlog c) (cl_got c)
        | _ => c
        end)
  | KWrite k ok => client k (fun c => client_write (cm_live s) c ok)
  end.

Definition cache_start : CacheMode := mkCacheMode None [] (fun _ => None) [].

(** ** What a node is due *)

(** The frame a step broadcasts. *)
Definition broadcast (s : CacheMode) (e : cache_event) : list bytes :=
  match e with KSend who => option_list (cm_hand s who) | _ => [] end.

(** The block a step adds to the buffer, with its round. *)
Definition inserted (s : CacheMode) (e : cache_event) : option (Z * bytes) :=
  let new who max len typ payload :=
    if bool_decide (cm_hand s who = None) && (len <=? max) && (typ =? 1) then
      r ← block_round lz4_decompress payload;
      match bt_get r (cm_live s) with None => Some (r, make_frame len typ payload) | Some _ => None end
    else None in
  match e with
  | KStateFrame len typ payload => new false STATE_FRAME_MIN len typ payload
  | KLiveFrame len typ payload => new true LIVE_FRAME_MAX len typ payload
  | _ => None
  end.

(** The broadcasts of a run that find the [k]th node connected. *)
Fixpoint due (k : nat) (s : CacheMode) (evs : list cache_event) : list bytes :=
  match evs with
  | [] => []
  | e :: evs => (if (k <? length (cm_clients s))%nat then broadcast s e else []) ++ due k (run_cache s e) evs
  end.

(** A block is in the buffer, or the buffer is full of later ones. *)
Definition kept (r : Z) (f : bytes) (live : list (Z * bytes)) : Prop :=
  bt_get r live = Some f \/ length live = LIVE_CAP /\ Forall (fun kv => r < kv.1) live.

Abbreviation cache_run := (foldl run_cache cache_start).

(** ** Lemmas *)

Lemma bt_insert_length {V} (k : Z) (v : V) m : bt_get k m = None -> length (bt_insert k v m) = S (length m).
Proof.
  induction m as [|[k' v'] m IH]; cbn; [done|]. destruct (k =? k') eqn:E; [done|]. intros Hm.
  destruct (k <? k'); [done|]. cbn. by rewrite IH.
Qed.

Lemma bt_get_insert {V} (k r : Z) (v : V) m : bt_get r (bt_insert k v m) = if decide (k = r) then Some v else bt_get r m.
Proof. by rewrite !bt_get_gmap, bt_insert_gmap, lookup_insert. Qed.

Lemma bt_drop_ok {V} n (m : list (Z * V)) : bt_ok m -> bt_ok (drop n m).
Proof.
  revert m. induction n as [|n IH]; intros m Hm; [by rewrite drop_0|]. destruct m as [|[k v] m]; [done|].
  apply bt_ok_cons in Hm as [Hm _]. by apply IH.
Qed.

Lemma insert_live_ok live r f cap :
  bt_ok live -> (length live <= cap)%nat ->
  bt_ok (insert_live live r f cap).2 /\ (length (insert_live live r f cap).2 <= cap)%nat.
Proof.
  intros Hok Hl. unfold insert_live. destruct (bt_get r live) eqn:E; [done|]. cbn.
  split; [by apply bt_drop_ok, bt_insert_ok|]. rewrite length_drop, bt_insert_length by done. lia.
Qed.

Lemma due_snoc k s evs e :
  due k s (evs ++ [e]) = due k s evs ++
    (if (k <? length (cm_clients (foldl run_cache s evs)))%nat then broadcast (foldl run_cache s evs) e else []).
Proof.
  revert s. induction evs as [|e' evs IH]; intros s; cbn [app due foldl]; [by rewrite app_nil_r|].
  by rewrite IH, app_assoc.
Qed.

(** A node's bytes: the state, the buffered blocks so far, the broadcasts so far; [d] is what it is
    due. *)
Record client_ok (d : list bytes) (c : Client) : Prop := {
  co_backlog : bt_ok (cl_backlog c);
  co_queue : (length (cl_queue c) <= BROADCAST_CAP)%nat;
  co_sub : cl_got c ++ cl_queue c `sublist_of` d;
  co_all : cl_lagged c = false -> cl_phase c <> KGone -> cl_got c ++ cl_queue c = d;
  co_out : exists done rest, (cl_backlog c).*2 = done ++ rest /\ cl_out c = option_list (cl_state c) ++ done ++ cl_got c /\
    (rest <> [] -> cl_got c = []) /\
    match cl_phase c with
    | KWaiting | KState _ => cl_state c = None /\ cl_backlog c = [] /\ cl_got c = []
    | KBacklog l => l = rest /\ is_Some (cl_state c)
    | KStreaming => rest = [] /\ is_Some (cl_state c)
    | KGone => cl_state c = None -> cl_backlog c = [] /\ cl_got c = []
    end
}.

Lemma receive_ok f d c : client_ok d c -> client_ok (d ++ [f]) (receive f c).
Proof.
  intros Hc. pose proof Hc as [H1 H2 H3 H4 H5].
  assert (Hg : cl_phase c = KGone \/ cl_phase c <> KGone) by (destruct (cl_phase c); auto).
  set (q := cl_queue c ++ [f]).
  assert (Hq : (length q = length (cl_queue c) + 1)%nat) by (unfold q; rewrite length_app; cbn; lia).
  destruct Hg as [Eg|Hg].
  { assert (Er : receive f c = c) by (unfold receive; by rewrite Eg). rewrite Er.
    split; [done|done|by apply sublist_inserts_r|done|done]. }
  assert (E : receive f c = mkClient (cl_phase c) (drop (length q - BROADCAST_CAP) q)
    (cl_lagged c || (BROADCAST_CAP <? length q)%nat) (cl_out c) (cl_state c) (cl_backlog c) (cl_got c))
    by (unfold receive; by destruct (cl_phase c)).
  rewrite E. split; cbn [cl_phase cl_queue cl_lagged cl_out cl_state cl_backlog cl_got];
    [done|rewrite length_drop; lia| | |done].
  - etrans; [apply sublist_app; [done|apply sublist_drop]|]. unfold q. rewrite app_assoc. by apply sublist_app.
  - intros [Hl Hn]%orb_false_iff _. apply Nat.ltb_ge in Hn. replace (length q - BROADCAST_CAP)%nat with 0%nat by lia.
    rewrite drop_0. unfold q. by rewrite app_assoc, H4.
Qed.

Lemma client_write_ok live d c ok : bt_ok live -> client_ok d c -> client_ok d (client_write live c ok).
Proof.
  intros Hlive Hc. pose proof Hc as [H1 H2 H3 H4 (pre & rest & E1 & E2 & E3 & H5)].
  assert (Hgone : (cl_state c = None -> cl_backlog c = [] /\ cl_got c = []) ->
    client_ok d (mkClient KGone (cl_queue c) (cl_lagged c) (cl_out c) (cl_state c) (cl_backlog c) (cl_got c))).
  { intros Hn. split; [exact H1|exact H2|exact H3|done|]. by exists pre, rest. }
  unfold client_write. destruct (cl_phase c) as [|st|l| |] eqn:Ep; [done| | | |done].
  - destruct H5 as (Es & Eb & Eg). destruct ok; [|by apply Hgone]. rewrite Eb in E1. symmetry in E1. apply app_nil in E1 as [-> ->].
    split; [exact Hlive|exact H2|exact H3|intros Hl _; by apply H4|]. exists [], live.*2. cbn. rewrite E2, Es, Eg.
    split_and!; done.
  - destruct H5 as [-> Hs]. destruct rest as [|f rest].
    + split; [exact H1|exact H2|exact H3|intros Hl _; by apply H4|]. by exists pre, [].
    + destruct ok; [|apply Hgone; intros Hn; rewrite Hn in Hs; by destruct Hs].
      assert (Eg : cl_got c = []) by (by apply E3).
      split; [exact H1|exact H2|exact H3|intros Hl _; by apply H4|]. exists (pre ++ [f]), rest. cbn.
      rewrite E1, E2, Eg, <- !app_assoc, !app_nil_r. by split_and!.
  - destruct H5 as [-> Hs]. destruct (cl_queue c) as [|f q] eqn:Eq; [done|].
    destruct ok; [|apply Hgone; intros Hn; rewrite Hn in Hs; by destruct Hs].
    split; cbn [cl_phase cl_queue cl_lagged cl_out cl_state cl_backlog cl_got]; [exact H1| | | |].
    + cbn in H2. lia.
    + by rewrite <- app_assoc.
    + intros Hl _. rewrite <- app_assoc. cbn. by apply H4.
    + exists pre, []. rewrite E2, <- !app_assoc. by split_and!.
Qed.

(** The buffer's invariant. *)
Definition live_ok (s : CacheMode) : Prop := bt_ok (cm_live s) /\ (length (cm_live s) <= LIVE_CAP)%nat.

Lemma feed_block_live s who payload frame : live_ok s -> live_ok (feed_block s who payload frame).
Proof.
  intros [H1 H2]. unfold feed_block. destruct (block_round lz4_decompress payload) as [r|]; [|done].
  destruct (insert_live_ok (cm_live s) r frame LIVE_CAP H1 H2) as [Ho Hl]. by destruct (insert_live _ _ _ _) as [new live].
Qed.

Lemma run_cache_live s e : live_ok s -> live_ok (run_cache s e).
Proof.
  intros Hi. destruct e as [len typ p|len typ p|who| |k|k|k ok]; cbn [run_cache]; try done.
  - unfold feed_state. case_bool_decide; [done|]. destruct (_ <? len); [done|]. destruct (_ <? len); [done|].
    destruct (_ =? _); [by apply feed_block_live|done].
  - unfold feed_live. case_bool_decide; [done|]. destruct (_ <? len); [done|]. destruct (_ =? _); [by apply feed_block_live|done].
  - unfold feed_send. by destruct (cm_hand s who).
  - by destruct (cm_clients s !! k).
  - by destruct (cm_clients s !! k).
  - by destruct (cm_clients s !! k).
Qed.

(** What a step does to a connected node: nothing, a broadcast, or its task moves. *)
Definition moved (s : CacheMode) (e : cache_event) (k : nat) (c0 c : Client) : Prop :=
  broadcast s e = [] /\ c = c0 \/ (exists f, broadcast s e = [f] /\ c = receive f c0) \/
  broadcast s e = [] /\
    ((exists ok, e = KWrite k ok /\ c = client_write (cm_live s) c0 ok) \/
     cl_phase c0 = KWaiting /\
       ((exists st, cm_state s = Some st /\
           c = mkClient (KState st) (cl_queue c0) (cl_lagged c0) (cl_out c0) (cl_state c0) (cl_backlog c0) (cl_got c0)) \/
        c = mkClient KGone (cl_queue c0) (cl_lagged c0) (cl_out c0) (cl_state c0) (cl_backlog c0) (cl_got c0))).

Lemma run_cache_clients s e k c :
  cm_clients (run_cache s e) !! k = Some c ->
  cm_clients s !! k = None /\ e = KConnect /\ k = length (cm_clients s) /\ c = mkClient KWaiting [] false [] None [] [] \/
  exists c0, cm_clients s !! k = Some c0 /\ moved s e k c0 c.
Proof.
  assert (Hsame : cm_clients (run_cache s e) = cm_clients s -> broadcast s e = [] ->
    cm_clients (run_cache s e) !! k = Some c -> exists c0, cm_clients s !! k = Some c0 /\ moved s e k c0 c)
    by (intros E1 E2 Hk; rewrite E1 in Hk; exists c; split; [done|by left]).
  unfold moved in *.
  intros Hk. destruct e as [len typ p|len typ p|who| |i|i|i ok].
  - right. apply Hsame; [|done|done]. cbn [run_cache]. unfold feed_state, feed_block.
    repeat (case_match; try done).
  - right. apply Hsame; [|done|done]. cbn [run_cache]. unfold feed_live, feed_block. repeat (case_match; try done).
  - right. cbn [run_cache] in Hk. unfold feed_send in Hk. cbn [broadcast]. destruct (cm_hand s who) as [f|] eqn:Eh.
    + cbn in Hk. rewrite list_lookup_fmap in Hk. destruct (cm_clients s !! k) as [c0|]; [|done]. injection Hk as <-.
      exists c0. split; [done|]. right. left. by exists f.
    + exists c. auto.
  - cbn in Hk. apply lookup_app_Some in Hk as [Hk|[Hl Hk]]; [right; exists c; auto|]. left.
    apply list_lookup_singleton_Some in Hk as [Hk <-]. split_and!; [by apply lookup_ge_None|done|lia|done].
  - right. cbn in Hk. destruct (cm_clients s !! i) as [ci|] eqn:Ei; [|by exists c; auto]. cbn in Hk.
    apply list_lookup_insert_Some in Hk as [(-> & <- & _)|[_ Hk]]; [|exists c; auto]. exists ci. split; [done|].
    destruct (cl_phase ci) eqn:Ep; try (by left). destruct (cm_state s) as [st|] eqn:Est; [|by left]. right. right. split; [done|]. right. eauto.
  - right. cbn in Hk. destruct (cm_clients s !! i) as [ci|] eqn:Ei; [|by exists c; auto]. cbn in Hk.
    apply list_lookup_insert_Some in Hk as [(-> & <- & _)|[_ Hk]]; [|exists c; auto]. exists ci. split; [done|].
    destruct (cl_phase ci) eqn:Ep; try (by left). right. right. split; [done|]. right. eauto.
  - right. cbn in Hk. destruct (cm_clients s !! i) as [ci|] eqn:Ei; [|by exists c; auto]. cbn in Hk.
    apply list_lookup_insert_Some in Hk as [(-> & <- & _)|[_ Hk]]; [|exists c; auto]. exists ci. split; [done|].
    right. right. split; [done|]. left. eauto.
Qed.

(** Trimming the lowest round keeps every later block. *)
Lemma drop_kept r f m :
  bt_ok m -> (length m <= S LIVE_CAP)%nat -> bt_get r m = Some f -> kept r f (drop (length m - LIVE_CAP) m).
Proof.
  intros Hok Hl Hg. destruct (decide (length m = S LIVE_CAP)) as [E|]; [|left; by replace (length m - LIVE_CAP)%nat with 0%nat by lia].
  rewrite E. replace (S LIVE_CAP - LIVE_CAP)%nat with 1%nat by lia. destruct m as [|[k v] m]; [done|]. cbn in Hg |- *.
  rewrite drop_0. apply bt_ok_cons in Hok as [_ Hk]. destruct (Z.eqb_spec r k) as [->|]; [|by left]. right. injection E as E. by split.
Qed.

Lemma insert_live_kept live r f r' f' :
  bt_ok live -> (length live <= LIVE_CAP)%nat -> kept r f live -> kept r f (insert_live live r' f' LIVE_CAP).2.
Proof.
  intros Hok Hl Hk. unfold insert_live. destruct (bt_get r' live) eqn:Er'; [done|]. cbn.
  pose proof (bt_insert_length r' f' live Er') as Hm. pose proof (bt_insert_ok r' f' live Hok) as Hmok.
  destruct Hk as [Hg|[Hc Hall]].
  - apply drop_kept; [done|lia|]. rewrite bt_get_insert. case_decide; [congruence|done].
  - right. rewrite length_drop, Hm, Hc. split; [lia|]. replace (S LIVE_CAP - LIVE_CAP)%nat with 1%nat by lia.
    destruct live as [|[k v] live]; [cbn; constructor|]. cbn [bt_insert]. apply Forall_cons in Hall as [Hh Ht]. cbn in Hh, Er'.
    destruct (r' <? k) eqn:E1; [by apply Forall_cons_2|]. destruct (r' =? k) eqn:E2; [done|]. cbn. rewrite drop_0.
    apply bt_insert_Forall; [cbn; lia|done].
Qed.

Lemma insert_live_new live r f :
  bt_ok live -> (length live <= LIVE_CAP)%nat -> bt_get r live = None -> kept r f (insert_live live r f LIVE_CAP).2.
Proof.
  intros Hok Hl Hr. unfold insert_live. rewrite Hr. cbn. pose proof (bt_insert_length r f live Hr).
  apply drop_kept; [by apply bt_insert_ok|lia|]. rewrite bt_get_insert. by case_decide.
Qed.

Lemma run_cache_kept s e r f : live_ok s -> kept r f (cm_live s) -> kept r f (cm_live (run_cache s e)).
Proof.
  intros [H1 H2] Hk.
  assert (Hb : forall who p fr, kept r f (cm_live (feed_block s who p fr))).
  { intros who p fr. unfold feed_block. destruct (block_round lz4_decompress p) as [r'|]; [|done].
    pose proof (insert_live_kept (cm_live s) r f r' fr H1 H2 Hk). by destruct (insert_live _ _ _ _). }
  destruct e as [len typ p|len typ p|who| |k|k|k ok]; cbn [run_cache];
    [unfold feed_state|unfold feed_live|unfold feed_send| | | |]; try done; repeat (case_match; try done).
Qed.

(** ** From the buffer to the nodes *)

(** An inserted block is buffered and in its feeder's hand. *)
Lemma inserted_step s e r f :
  live_ok s -> inserted s e = Some (r, f) ->
  kept r f (cm_live (run_cache s e)) /\ exists who, cm_hand (run_cache s e) who = Some f.
Proof.
  intros [H1 H2] Hi.
  assert (Hb : forall who p fr, (r0 ← block_round lz4_decompress p;
      match bt_get r0 (cm_live s) with None => Some (r0, fr) | Some _ => None end) = Some (r, f) ->
    kept r f (cm_live (feed_block s who p fr)) /\ exists who', cm_hand (feed_block s who p fr) who' = Some f).
  { intros who p fr Hr. unfold feed_block. destruct (block_round lz4_decompress p) as [r0|]; [|done]. cbn in Hr.
    destruct (bt_get r0 (cm_live s)) eqn:Eg; [done|]. injection Hr as <- <-.
    pose proof (insert_live_new (cm_live s) r0 fr H1 H2 Eg) as Hk. unfold insert_live in *. rewrite Eg in *. cbn in *.
    split; [done|]. exists who. unfold set_hand. by destruct who. }
  destruct e as [len typ p|len typ p|who| |k|k|k ok]; try done; cbn [inserted run_cache] in *;
    (destruct (_ && _) eqn:E in Hi; [|done]); apply andb_true_iff in E as [[Eh%bool_decide_eq_true El]%andb_true_iff Et].
  - unfold feed_state. rewrite Eh. rewrite bool_decide_eq_false_2 by (by intros [? ?]).
    replace (STATE_FRAME_MAX <? len) with false by (unfold STATE_FRAME_MAX, STATE_FRAME_MIN in *; lia).
    replace (STATE_FRAME_MIN <? len) with false by lia. rewrite Et. by apply Hb.
  - unfold feed_live. rewrite Eh. rewrite bool_decide_eq_false_2 by (by intros [? ?]).
    replace (LIVE_FRAME_MAX <? len) with false by lia. rewrite Et. by apply Hb.
Qed.

(** A feeder holds its block until it broadcasts it. *)
Lemma hand_step s e who f :
  cm_hand s who = Some f -> cm_hand (run_cache s e) who = Some f \/ f ∈ broadcast s e.
Proof.
  intros Hh.
  assert (Hb : forall who' p fr, cm_hand s who' = None -> cm_hand (feed_block s who' p fr) who = Some f).
  { intros who' p fr Hn. unfold feed_block. destruct (block_round lz4_decompress p); [|done].
    destruct (insert_live _ _ _ _) as [[] live]; [|done]. cbn. unfold set_hand.
    destruct (Bool.eqb who who') eqn:E; [|done]. apply Bool.eqb_prop in E as ->. congruence. }
  destruct e as [len typ p|len typ p|who'| |k|k|k ok]; cbn [run_cache broadcast].
  - left. unfold feed_state. case_bool_decide as En; [done|]. apply eq_None_not_Some in En. repeat (case_match; try done). by apply Hb.
  - left. unfold feed_live. case_bool_decide as En; [done|]. apply eq_None_not_Some in En. repeat (case_match; try done). by apply Hb.
  - unfold feed_send. destruct (cm_hand s who') as [f'|] eqn:E; [|by left]. destruct (decide (who = who')) as [->|Hne].
    + right. rewrite Hh in E. injection E as <-. cbn. by apply list_elem_of_singleton.
    + left. cbn. unfold set_hand. by destruct who, who'.
  - by left.
  - left. by case_match.
  - left. by case_match.
  - left. by case_match.
Qed.

Lemma run_cache_length s e : (length (cm_clients s) <= length (cm_clients (run_cache s e)))%nat.
Proof.
  destruct e as [len typ p|len typ p|who'| |k|k|k ok]; cbn [run_cache];
    [unfold feed_state, feed_block|unfold feed_live, feed_block|unfold feed_send| | | |];
    repeat (case_match; cbn [cm_clients]; rewrite ?length_fmap, ?length_insert; try done); [lia..|].
  cbn. rewrite length_app. lia.
Qed.

Lemma due_app k s evs evs' : due k s (evs ++ evs') = due k s evs ++ due k (foldl run_cache s evs) evs'.
Proof. revert s. induction evs as [|e evs IH]; intros s; cbn [app due foldl]; [done|]. by rewrite IH, app_assoc. Qed.

Lemma hand_due k who f evs s :
  (k < length (cm_clients s))%nat -> cm_hand s who = Some f ->
  f ∈ due k s evs \/ cm_hand (foldl run_cache s evs) who = Some f.
Proof.
  revert s. induction evs as [|e evs IH]; intros s Hk Hh; [by right|]. cbn [due foldl].
  rewrite (proj2 (Nat.ltb_lt _ _) Hk), elem_of_app. pose proof (run_cache_length s e) as Hl.
  destruct (hand_step s e who f Hh) as [Hh'|Hb]; [|by left; left].
  destruct (IH (run_cache s e) ltac:(lia) Hh') as [H|H]; [by left; right|by right].
Qed.

Lemma due_unconnected k evs : (length (cm_clients (cache_run evs)) <= k)%nat -> due k cache_start evs = [].
Proof.
  induction evs as [|e evs IH] using rev_ind; intros Hk; [done|]. rewrite due_snoc. rewrite foldl_snoc in Hk.
  pose proof (run_cache_length (cache_run evs) e). rewrite IH by lia.
  by replace (k <? length (cm_clients (cache_run evs)))%nat with false by (symmetry; apply Nat.ltb_ge; lia).
Qed.

Lemma cache_run_live evs : live_ok (cache_run evs).
Proof. apply foldl_inv; [split; [constructor|cbn; lia]|intros; by apply run_cache_live]. Qed.

(** Where a node's state and buffered blocks come from. *)
Definition stated (evs : list cache_event) (st : bytes) : Prop :=
  exists pre post, evs = pre ++ post /\ cm_state (cache_run pre) = Some st.

Definition listed (evs : list cache_event) (k : nat) (blocks : list (Z * bytes)) : Prop :=
  exists pre post, evs = pre ++ KWrite k true :: post /\ blocks = cm_live (cache_run pre).

Record node_ok (evs : list cache_event) (k : nat) (c : Client) : Prop := {
  no_client : client_ok (due k cache_start evs) c;
  no_state : forall st, cl_state c = Some st -> stated evs st /\ listed evs k (cl_backlog c);
  no_phase : forall st, cl_phase c = KState st -> stated evs st
}.

Lemma stated_snoc evs e st : stated evs st -> stated (evs ++ [e]) st.
Proof. intros (pre & post & -> & Hs). exists pre, (post ++ [e]). by rewrite app_assoc. Qed.

Lemma listed_snoc evs e k b : listed evs k b -> listed (evs ++ [e]) k b.
Proof. intros (pre & post & -> & Hs). exists pre, (post ++ [e]). by rewrite <- app_assoc. Qed.

Lemma node_start_ok evs k : due k cache_start evs = [] -> node_ok evs k (mkClient KWaiting [] false [] None [] []).
Proof. intros E. split; [|done|done]. rewrite E. split; [constructor|cbn; lia|done|done|by exists [], []]. Qed.

Lemma client_write_node evs k c ok :
  node_ok evs k c -> due k cache_start (evs ++ [KWrite k ok]) = due k cache_start evs ->
  node_ok (evs ++ [KWrite k ok]) k (client_write (cm_live (cache_run evs)) c ok).
Proof.
  intros [H1 H2 H3] Ed. split.
  - rewrite Ed. apply client_write_ok; [apply cache_run_live|done].
  - intros st. assert (Hs : cl_state c = Some st -> stated (evs ++ [KWrite k ok]) st /\ listed (evs ++ [KWrite k ok]) k (cl_backlog c))
      by (intros [? ?]%H2; by split; [apply stated_snoc|apply listed_snoc]).
    unfold client_write. destruct (cl_phase c) as [|st'|[|f l]| |]; [done| |done|by destruct ok| |done].
    + destruct ok; [|done]. intros [= <-]. cbn. split; [by apply stated_snoc, H3|]. by exists evs, [].
    + destruct (cl_queue c); [done|]. by destruct ok.
  - intros st. unfold client_write. intros Hp. apply stated_snoc, H3. revert Hp.
    destruct (cl_phase c) as [|st'|[|f l]| |] eqn:Ep; rewrite ?Ep; try done; try (by destruct ok).
    destruct (cl_queue c); [by rewrite Ep|by destruct ok].
Qed.

Lemma node_step evs e k c :
  (forall c0, cm_clients (cache_run evs) !! k = Some c0 -> node_ok evs k c0) ->
  cm_clients (run_cache (cache_run evs) e) !! k = Some c -> node_ok (evs ++ [e]) k c.
Proof.
  intros IH Hk. pose proof (due_snoc k cache_start evs e) as Ed.
  apply run_cache_clients in Hk as [(Hn & -> & Ek & ->)|(c0 & H0 & Hk)].
  { apply node_start_ok. rewrite Ed, due_unconnected by lia. by case_match. }
  pose proof (IH c0 H0) as Hc. rewrite (proj2 (Nat.ltb_lt _ _) (lookup_lt_Some _ _ _ H0)) in Ed.
  assert (Hst : forall c', cl_state c' = cl_state c0 -> cl_backlog c' = cl_backlog c0 ->
    client_ok (due k cache_start (evs ++ [e])) c' -> (forall st, cl_phase c' = KState st -> stated (evs ++ [e]) st) ->
    node_ok (evs ++ [e]) k c').
  { intros c' E1 E2 Hc' Hp. split; [done| |done]. rewrite E1, E2. intros st [? ?]%(no_state _ _ _ Hc).
    by split; [apply stated_snoc|apply listed_snoc]. }
  destruct Hk as [[Eb ->]|[(f & Eb & ->)|[Eb [(ok & -> & ->)|[Ep Hk]]]]]; rewrite Eb, ?app_nil_r in Ed.
  - apply Hst; [done|done|rewrite Ed; apply Hc|]. intros st Hp. by apply stated_snoc, (no_phase _ _ _ Hc).
  - apply Hst; [unfold receive; by destruct (cl_phase c0)..|rewrite Ed; by apply receive_ok, Hc|].
    intros st Hp. apply stated_snoc, (no_phase _ _ _ Hc). revert Hp. unfold receive. destruct (cl_phase c0) eqn:Ep; cbn; congruence.
  - by apply client_write_node.
  - pose proof (no_client _ _ _ Hc) as [C1 C2 C3 C4 (d & r & E1 & E2 & E3 & C5)]. rewrite Ep in C5.
    destruct Hk as [(st & Es & ->)| ->]; (apply Hst; [done|done| |]); rewrite ?Ed; try done.
    + split; [exact C1|exact C2|exact C3|intros Hl _; apply C4; [done|by rewrite Ep]|by exists d, r].
    + intros st' [= <-]. exists evs, [e]. done.
    + split; [exact C1|exact C2|exact C3|done|]. exists d, r. cbn. split_and!; try done. tauto.
Qed.

Lemma cache_run_node evs k c : cm_clients (cache_run evs) !! k = Some c -> node_ok evs k c.
Proof.
  revert c. induction evs as [|e evs IH] using rev_ind; intros c; [done|]. rewrite foldl_snoc. by apply node_step.
Qed.

(** What became of a block that was new: kept in the buffer or pushed out by 50,000 later ones, and,
    for a node connected by then, broadcast to it or still in a feeder's hand. *)
Lemma inserted_later pre e post r f k :
  inserted (cache_run pre) e = Some (r, f) ->
  kept r f (cm_live (cache_run (pre ++ e :: post))) /\
  ((k < length (cm_clients (cache_run pre)))%nat ->
   f ∈ due k cache_start (pre ++ e :: post) \/ exists who, cm_hand (cache_run (pre ++ e :: post)) who = Some f).
Proof.
  intros Hi. destruct (inserted_step _ e r f (cache_run_live pre) Hi) as [Hkept [who Hh]]. split.
  - rewrite foldl_app. cbn [foldl]. induction post as [|e' post IH] using rev_ind; [done|].
    rewrite foldl_snoc. apply run_cache_kept; [|done].
    replace (foldl run_cache (run_cache (cache_run pre) e) post) with (cache_run (pre ++ e :: post))
      by (by rewrite foldl_app). apply cache_run_live.
  - intros Hk. rewrite due_app, foldl_app, elem_of_app. cbn [due foldl]. rewrite elem_of_app.
    pose proof (run_cache_length (cache_run pre) e).
    destruct (hand_due k who f post (run_cache (cache_run pre) e) ltac:(lia) Hh); [by left; right; right|right; by exists who].
Qed.

(** C35: what a node gets from the standalone cache, whatever the feeders send, the nodes read and the
    scheduler does: the state the state feeder had cached, then the blocks buffered when the state was
    through, one per round and in strictly increasing round order, then, in order, only blocks
    broadcast since it connected. Unless it left or fell more than 16384 broadcasts behind, what it
    got and what waits for it are together exactly the broadcasts of the run since it connected: a new
    block that arrives while it is connected reaches it, waits in its queue, or is in the hand of the
    feeder that is about to broadcast it. A new block stays in the buffer unless 50,000 later ones
    push it out, and the buffer never holds more than 50,000. *)
Theorem cache_node_misses_nothing (evs : list cache_event) (k : nat) (c : Client) :
  let s := cache_run evs in
  cm_clients s !! k = Some c ->
  (length (cm_live s) <= LIVE_CAP)%nat /\ (length (cl_queue c) <= BROADCAST_CAP)%nat /\
  StronglySorted Z.lt (cl_backlog c).*1 /\
  (exists n, cl_out c = option_list (cl_state c) ++ take n (cl_backlog c).*2 ++ cl_got c /\
    (cl_got c <> [] -> take n (cl_backlog c).*2 = (cl_backlog c).*2)) /\
  (forall st, cl_state c = Some st ->
    (exists pre post, evs = pre ++ post /\ cm_state (cache_run pre) = Some st) /\
    exists pre post, evs = pre ++ KWrite k true :: post /\ cl_backlog c = cm_live (cache_run pre)) /\
  (cl_state c = None -> cl_out c = []) /\
  cl_got c `sublist_of` due k cache_start evs /\
  (cl_lagged c = false -> cl_phase c <> KGone -> cl_got c ++ cl_queue c = due k cache_start evs) /\
  (forall pre e post r f, evs = pre ++ e :: post -> inserted (cache_run pre) e = Some (r, f) ->
    kept r f (cm_live s) /\
    ((k < length (cm_clients (cache_run pre)))%nat -> cl_lagged c = false -> cl_phase c <> KGone ->
     f ∈ cl_got c ++ cl_queue c \/ exists who, cm_hand s who = Some f)).
Proof.
  intros s Hk. pose proof (cache_run_node evs k c Hk) as [Hc Hst _].
  destruct Hc as [H1 H2 H3 H4 (d & r & E1 & E2 & E3 & H5)].
  split_and!; [apply cache_run_live|done|exact H1| |exact Hst| | |done|].
  - exists (length d). rewrite E1, take_app_length. split; [done|]. intros Hg.
    destruct r as [|f r]; [by rewrite app_nil_r|]. by destruct Hg; apply E3.
  - intros En. assert (Eb : cl_backlog c = [] /\ cl_got c = []).
    { destruct (cl_phase c); [tauto|tauto|destruct H5 as [_ [? ?]]; congruence|destruct H5 as [_ [? ?]]; congruence|auto]. }
    destruct Eb as [Eb Eg]. rewrite Eb in E1. symmetry in E1. apply app_nil in E1 as [-> _]. by rewrite E2, En, Eg.
  - etrans; [|exact H3]. by apply sublist_inserts_r.
  - intros pre e post r0 f -> Hi. destruct (inserted_later pre e post r0 f k Hi) as [Hkept Hdue].
    split; [done|]. intros Hlt Hl Hp. rewrite (H4 Hl Hp). by apply Hdue.
Qed.
End CacheMode.

(** A block that arrives between the connection and the end of the state's transfer reaches the node
    twice: buffered, and broadcast. *)
Definition example_cache_run : list cache_event :=
  [KStateFrame 4000001 1 [9]; KConnect; KLiveFrame 21 1 (block_payload 2000000001); KSend true; KFetch 0;
   KWrite 0 true; KWrite 0 true; KWrite 0 true; KWrite 0 true].

Lemma cache_node_misses_nothing_witness :
  let s := foldl (run_cache no_lz4) cache_start example_cache_run in
  let f := make_frame 21 1 (block_payload 2000000001) in
  exists c, cm_clients s !! 0%nat = Some c /\ cl_out c = [make_frame 4000001 1 [9]; f; f] /\
    cl_got c ++ cl_queue c = due no_lz4 0 cache_start example_cache_run /\
    (f ∈ cl_got c ++ cl_queue c \/ exists who, cm_hand s who = Some f).
Proof.
  intros s f. destruct (cm_clients s !! 0%nat) as [c|] eqn:E; [|vm_compute in E; discriminate E].
  destruct (cache_node_misses_nothing no_lz4 example_cache_run 0 c E) as (_ & _ & _ & _ & _ & _ & _ & H & Hi).
  exists c. split; [done|]. split; [vm_compute in E; injection E as <-; vm_compute; reflexivity|].
  split; [apply H; vm_compute in E; injection E as <-; [reflexivity|discriminate]|].
  apply (Hi (take 2 example_cache_run) (KLiveFrame 21 1 (block_payload 2000000001)) (drop 3 example_cache_run) 2000000001 f);
    [reflexivity|vm_compute; reflexivity|vm_compute; lia|vm_compute in E; injection E as <-; reflexivity|
     vm_compute in E; injection E as <-; discriminate].
Defined.
