(* ===== verification/CommandLine.v ===== *)
(** The command line: [main] and [parse_gateway_args] of [src/main.rs]. *)

From S2P Require Import Prelude Text Blacklist Wire Priority Freshest PushSession Peers FailoverCore FailoverSession EnvCheck.

Record GatewayArgs := mkGatewayArgs {
  peer_file : string;
  arg_push : bool;
  arg_cache : bool;
  live_ignored : bool
}.

(** The loop over the arguments. *)
Fixpoint gateway_args (g : GatewayArgs) (args : list string) : string + GatewayArgs :=
  match args with
  | [] => inr g
  | a :: rest =>
      if bool_decide (a = "--push")%string then gateway_args (mkGatewayArgs (peer_file g) true (arg_cache g) (live_ignored g)) rest
      else if bool_decide (a = "--cache")%string
      then gateway_args (mkGatewayArgs (peer_file g) (arg_push g) true (live_ignored g)) rest
      else if bool_decide (a = "--live")%string then
        match rest with
        | v :: rest =>
            match parse_uint u32_max v with
            | Some _ => gateway_args (mkGatewayArgs (peer_file g) (arg_push g) (arg_cache g) true) rest
            | None => inl "--live needs a number"%string
            end
        | [] => inl "--live needs a number"%string
        end
      else if starts_with "--" a then inl ("unknown flag " +:+ a)
      else if bool_decide (peer_file g = "")%string
      then gateway_args (mkGatewayArgs a (arg_push g) (arg_cache g) (live_ignored g)) rest
      else inl ("unexpected argument " +:+ a)
  end.

Definition parse_gateway_args (args : list string) : string + GatewayArgs :=
  match gateway_args (mkGatewayArgs "" false false false) args with
  | inl e => inl e
  | inr g =>
      inr (if bool_decide (peer_file g = "")%string
           then mkGatewayArgs "/nodepeers" (arg_push g) (arg_cache g) (live_ignored g) else g)
  end.

(** What the process does: a mode with its parameters, or it exits. *)
Inductive Mode :=
| RunBench (dir : string) (iters : Z)
| RunMock (bind dir : string) (start end_ : Z)
| RunResponder (bind : string)
| RunFakenode (args : list string)
| RunRelay (upstream : string)
| RunProxy (upstreams : list string) (push : bool)
| RunCache (port : Z) (upstream : string)
| RunPeerd (interval : Z)
| RunGateway (g : GatewayArgs)
| RunMerge (port : Z) (upstreams : list string)
| Exit (code : Z).

Definition arg (args : list string) (i : nat) (dflt : string) : string := default dflt (args !! i).

Definition num (max : Z) (args : list string) (i : nat) (dflt : Z) : Z :=
  default dflt (a ← args !! i; parse_uint max a).

Definition is_mode (args : list string) (m : string) : bool := bool_decide (args !! 1%nat = Some m).

(** [args] with the program's name first; [env] reads the environment; [bl] is the blacklist read
    from the data directory. *)
Definition main_mode (env : string -> option string) (bl : Blacklist) (args : list string) : Mode :=
  if negb (bool_decide (problems env (is_mode args "gateway") = [])) then Exit 2
  else if is_mode args "bench" then RunBench (arg args 2 ".") (num u64_max args 3 1000000)
  else if is_mode args "mock" then
    RunMock (arg args 2 "127.0.0.1:6001") (arg args 3 ".") (num u64_max args 4 0) (num u64_max args 5 12)
  else if is_mode args "responder" then RunResponder (arg args 2 "0.0.0.0")
  else if is_mode args "fakenode" then RunFakenode (drop 2 args)
  else if is_mode args "relay" then
    RunRelay (default "172.18.0.2:4001"%string (match args !! 3%nat with Some u => Some u | None => args !! 2%nat end))
  else if is_mode args "proxy" then
    RunProxy (filtered bl (default [] (split_csv <$> head (filter (fun a => starts_with "--" a = false) (drop 2 args)))))
      (bool_decide ("--push"%string ∈ args))
  else if is_mode args "cache" then RunCache (num 65535 args 2 4001) (arg args 3 "172.18.0.2:4001")
  else if is_mode args "peerd" then RunPeerd (num u64_max args 2 300)
  else if is_mode args "gateway" then
    match parse_gateway_args (drop 2 args) with inr g => RunGateway g | inl _ => Exit 2 end
  else
    match args !! 1%nat with
    | None => Exit 2
    | Some a =>
        match parse_uint 65535 a with
        | None => Exit 2
        | Some p =>
            RunMerge p (match args !! 2%nat with
                        | Some s => split_csv s
                        | None => ["74.63.207.101"; "64.140.170.202"]%string
                        end)
        end
    end.

(** ** The gateway's arguments *)

Inductive Token := TPush | TCache | TLive (v : string) | TPath (p : string).

#[global] Instance Token_eq_dec : EqDecision Token.
Proof. solve_decision. Defined.

Definition render (t : Token) : list string :=
  match t with
  | TPush => ["--push"]%string
  | TCache => ["--cache"]%string
  | TLive v => ["--live"%string; v]
  | TPath p => [p]
  end.

Definition token_ok (t : Token) : Prop :=
  match t with
  | TLive v => is_Some (parse_uint u32_max v)
  | TPath p => starts_with "--" p = false
  | _ => True
  end.

Definition paths (ts : list Token) : list string := omap (fun t => match t with TPath p => Some p | _ => None end) ts.

Definition given (ts : list Token) (f : Token -> bool) : bool := existsb f ts.
Definition is_push (t : Token) : bool := match t with TPush => true | _ => false end.
Definition is_cache (t : Token) : bool := match t with TCache => true | _ => false end.
Definition is_live (t : Token) : bool := match t with TLive _ => true | _ => false end.

(** Paths taken one after the other: each but the last is empty. *)
Fixpoint path_of (cur : string) (ps : list string) : option string :=
  match ps with
  | [] => Some cur
  | p :: ps => if bool_decide (cur = "")%string then path_of p ps else None
  end.

(** What the arguments of a list of tokens mean, after [g]. *)
Definition meaning (g : GatewayArgs) (ts : list Token) (g' : GatewayArgs) : Prop :=
  path_of (peer_file g) (paths ts) = Some (peer_file g') /\
  arg_push g' = arg_push g || given ts is_push /\ arg_cache g' = arg_cache g || given ts is_cache /\
  live_ignored g' = live_ignored g || given ts is_live.

Lemma meaning_cons g t ts g1 g' :
  meaning g [t] g1 -> meaning g1 ts g' -> meaning g (t :: ts) g'.
Proof.
  unfold meaning. cbn. intros (A1 & A2 & A3 & A4) (B1 & B2 & B3 & B4). split_and!.
  - destruct t as [| | |p]; cbn in A1 |- *; fold (paths ts); [congruence..|].
    destruct (bool_decide (peer_file g = ""%string)); [congruence|done].
  - rewrite B2, A2. by destruct (arg_push g), (is_push t).
  - rewrite B3, A3. by destruct (arg_cache g), (is_cache t).
  - rewrite B4, A4. by destruct (live_ignored g), (is_live t).
Qed.

Lemma meaning_nil g g' : meaning g [] g' <-> g' = g.
Proof.
  unfold meaning. cbn. rewrite !orb_false_r. split; [|by intros ->].
  destruct g, g'. cbn. intros ([=] & -> & -> & ->). by subst.
Qed.

Lemma not_dashed p a : starts_with "--" p = false -> starts_with "--" a = true -> p <> a.
Proof. congruence. Qed.

Lemma gateway_args_render t g rest :
  token_ok t ->
  gateway_args g (render t ++ rest) =
  match t with
  | TPush => gateway_args (mkGatewayArgs (peer_file g) true (arg_cache g) (live_ignored g)) rest
  | TCache => gateway_args (mkGatewayArgs (peer_file g) (arg_push g) true (live_ignored g)) rest
  | TLive _ => gateway_args (mkGatewayArgs (peer_file g) (arg_push g) (arg_cache g) true) rest
  | TPath p => if bool_decide (peer_file g = "")%string
               then gateway_args (mkGatewayArgs p (arg_push g) (arg_cache g) (live_ignored g)) rest
               else inl ("unexpected argument " +:+ p)
  end.
Proof.
  destruct t as [| |v|p]; intros Ht; [done|done| |].
  - cbn in Ht. destruct Ht as [n Hn]. cbn. by rewrite Hn.
  - cbn in Ht. cbn [render app gateway_args].
    rewrite !bool_decide_eq_false_2 by (intros ->; vm_compute in Ht; discriminate). by rewrite Ht.
Qed.

Lemma gateway_args_sound args g g' :
  gateway_args g args = inr g' ->
  exists ts, Forall token_ok ts /\ args = ts ≫= render /\ meaning g ts g'.
Proof.
  remember (length args) as n eqn:En. assert (Hn : (length args <= n)%nat) by lia. clear En.
  revert args g Hn. induction n as [|n IH]; intros args g Hn.
  { destruct args; [|cbn in Hn; lia]. intros [= <-]. exists []. split_and!; [by apply Forall_nil_2|done|by apply meaning_nil]. }
  destruct args as [|a rest]; [intros [= <-]; exists []; split_and!; [by apply Forall_nil_2|done|by apply meaning_nil]|].
  cbn in Hn. assert (Hstep : forall t g1 rest', token_ok t -> a :: rest = render t ++ rest' -> (length rest' <= n)%nat ->
    meaning g [t] g1 -> gateway_args g1 rest' = inr g' ->
    exists ts, Forall token_ok ts /\ a :: rest = ts ≫= render /\ meaning g ts g').
  { intros t g1 rest' Ht E Hl Hm Hr. destruct (IH rest' g1 Hl Hr) as (ts & H1 & -> & H3). exists (t :: ts).
    split_and!; [by apply Forall_cons_2|exact E|by eapply meaning_cons]. }
  cbn [gateway_args]. case_bool_decide as E1; [subst a|].
  { apply (Hstep TPush); try done; [lia|]. unfold meaning. cbn. rewrite !orb_false_r, orb_true_r. done. }
  case_bool_decide as E2; [subst a|].
  { apply (Hstep TCache); try done; [lia|]. unfold meaning. cbn. rewrite !orb_false_r, orb_true_r. done. }
  case_bool_decide as E3; [subst a|].
  { destruct rest as [|v rest]; [done|]. destruct (parse_uint u32_max v) eqn:Ev; [|done]. cbn in Hn.
    apply (Hstep (TLive v)); [by eexists|done|lia|]. unfold meaning. cbn. rewrite !orb_false_r, orb_true_r. done. }
  destruct (starts_with "--" a) eqn:Es; [done|]. case_bool_decide as E4; [|done].
  apply (Hstep (TPath a)); [done|done|lia|]. unfold meaning. cbn. rewrite !orb_false_r, E4. done.
Qed.

Lemma gateway_args_complete ts g g' :
  Forall token_ok ts -> meaning g ts g' -> gateway_args g (ts ≫= render) = inr g'.
Proof.
  intros Hts. revert g. induction Hts as [|t ts Ht _ IH]; intros g Hm.
  { apply meaning_nil in Hm as ->. done. }
  rewrite bind_cons, gateway_args_render by done. destruct Hm as (H1 & H2 & H3 & H4). cbn in H1, H2, H3, H4.
  fold (given ts is_push) (given ts is_cache) (given ts is_live) in H2, H3, H4.
  assert (Hgo : forall g1, path_of (peer_file g1) (paths ts) = Some (peer_file g') ->
    arg_push g1 = arg_push g || is_push t -> arg_cache g1 = arg_cache g || is_cache t ->
    live_ignored g1 = live_ignored g || is_live t -> gateway_args g1 (ts ≫= render) = inr g').
  { intros g1 A1 A2 A3 A4. apply IH. unfold meaning. rewrite A2, A3, A4, H2, H3, H4, <- !orb_assoc. done. }
  destruct t as [| |v|p]; cbn in H1; try (apply Hgo; cbn; rewrite ?orb_true_r, ?orb_false_r; done).
  case_bool_decide as E; [|done]. apply Hgo; cbn; rewrite ?orb_false_r; done.
Qed.

(** The gateway's command line means exactly what it says. It is accepted exactly when it is made,
    in any order, of the flags, of [--live] with a number, and of paths of which each but the last is
    empty; the gateway then runs with precisely the flags given and with that path, or [/nodepeers]
    when none is given. Anything else is refused. *)
Theorem gateway_args_mean_what_they_say (args : list string) (g : GatewayArgs) :
  parse_gateway_args args = inr g <->
  exists ts p, Forall token_ok ts /\ args = ts ≫= render /\ path_of "" (paths ts) = Some p /\
    g = mkGatewayArgs (if bool_decide (p = "")%string then "/nodepeers"%string else p) (given ts is_push) (given ts is_cache)
          (given ts is_live).
Proof.
  unfold parse_gateway_args. set (g0 := mkGatewayArgs "" false false false). split.
  - destruct (gateway_args g0 args) as [e|g1] eqn:E; [done|]. intros [= <-].
    destruct (gateway_args_sound args g0 g1 E) as (ts & H1 & H2 & H3 & H4 & H5 & H6). cbn in H3, H4, H5, H6.
    exists ts, (peer_file g1). split_and!; [done|done|done|]. rewrite <- H4, <- H5, <- H6.
    case_bool_decide; [done|]. by destruct g1.
  - intros (ts & p & H1 & -> & H3 & ->).
    rewrite (gateway_args_complete ts g0 (mkGatewayArgs p (given ts is_push) (given ts is_cache) (given ts is_live)));
      [|done|by split_and!]. cbn. by case_bool_decide.
Qed.

Example refused_command_lines :
  parse_gateway_args ["--live"; "/pd/peers.json"]%string = inl "--live needs a number"%string /\
  parse_gateway_args ["/pd/peers.json"; "--psuh"]%string = inl "unknown flag --psuh"%string /\
  parse_gateway_args ["/a"; "/b"]%string = inl "unexpected argument /b"%string.
Proof. vm_compute. done. Qed.
