(* ===== verification/Tools.v ===== *)
(** The benchmark and the mock upstream of [src/testing.rs] ([run_bench], [run_mock]) over captured
    blocks, and the shared lock of [src/util.rs].

    [lz4_flex]'s two entry points are parameters: [lz4_decompress] is
    [decompress_size_prepended(..).ok()], [compress] is [compress_prepend_size]. *)

From S2P Require Import Prelude Text Wire Sock FailoverCore FailoverSession FailoverIO.

(** ** The lock of [util.rs] *)

(** A [std::sync::Mutex]: the state, and whether a holder panicked. *)
Record Mutex (T : Type) := mkMutex { guarded : T; poisoned : bool }.
Arguments mkMutex {T} _ _.
Arguments guarded {T} _.
Arguments poisoned {T} _.

(** What [lock] hands out, and the mutex with its flag cleared if it was set. *)
Definition lock {T} (m : Mutex T) : T * Mutex T :=
  if poisoned m then (guarded m, mkMutex (guarded m) false) else (guarded m, m).

(** A task that holds the lock: it changes the state by [f] and releases the guard, or panics there. *)
Inductive Holder (T : Type) := Finishes (f : T -> T) | Panics (f : T -> T).
Arguments Finishes {T} _.
Arguments Panics {T} _.

Definition with_lock {T} (m : Mutex T) (u : Holder T) : Mutex T :=
  let '(v, m) := lock m in
  match u with Finishes f => mkMutex (f v) (poisoned m) | Panics f => mkMutex (f v) true end.

(** ** The benchmark *)

Definition CAPTURED_BLOCKS : nat := 12.
Definition BENCH_WINDOW : Z := 16384.

Definition block_path (dir : string) (i : Z) : string := (dir +:+ "/block" +:+ show i +:+ ".bin")%string.

Section Tools.
Context (lz4_decompress : bytes -> option bytes) (compress : bytes -> bytes).
Context (file : string -> option bytes).

(** The blocks [i], [i + 1], ... read and compressed; [None]: a read failed and the process panics. *)
Fixpoint read_blocks (dir : string) (i : Z) (n : nat) : option (list bytes) :=
  match n with
  | O => Some []
  | S n => d ← file (block_path dir i); ps ← read_blocks dir (i + 1) n; Some (compress d :: ps)
  end.

Definition mismatches (payloads : list bytes) : nat :=
  length (filter (fun p => block_round lz4_decompress p <> block_round_full lz4_decompress p) payloads).

Record BenchRun := mkBench { bn_dedup : RoundDedup; bn_forwarded : Z; bn_bytes : Z }.

(** One turn of the timed loop. *)
Definition bench_turn (payloads : list bytes) (s : BenchRun) (i : nat) : BenchRun :=
  let p := nth (i mod length payloads) payloads [] in
  let nbytes := bn_bytes s + Z.of_nat (length p) in
  match block_round lz4_decompress p with
  | None => mkBench (bn_dedup s) (bn_forwarded s) nbytes
  | Some r =>
      let lap := Z.of_nat (i / length payloads) mod 2 ^ 32 in
      let rr := (r + (lap * 12) mod 2 ^ 32) mod 2 ^ 32 in
      let '(fresh, d) := is_new (bn_dedup s) rr in
      mkBench d (if fresh then bn_forwarded s + 1 else bn_forwarded s) nbytes
  end.

Definition bench_loop (payloads : list bytes) (iters : nat) : BenchRun :=
  foldl (bench_turn payloads) (mkBench (RoundDedup_new BENCH_WINDOW) 0 0) (seq 0 iters).

(** The mismatches reported, and the counters at the end of the loop. *)
Definition run_bench (dir : string) (iters : nat) : option (nat * BenchRun) :=
  payloads ← read_blocks dir 0 CAPTURED_BLOCKS;
  Some (mismatches payloads, bench_loop payloads iters).

(** ** The mock upstream *)

(** The frames of the blocks [start..end_]. *)
Definition mock_frames (dir : string) (start end_ : Z) : option (list bytes) :=
  (ps ← read_blocks dir start (Z.to_nat (end_ - start)); Some (map (encode_frame 1) ps)).

(** A write that fails (after a part of the frame) ends the task. *)
Fixpoint mock_writes (frames : list bytes) (ws : list (option nat)) : bytes * bool :=
  match frames, ws with
  | [], _ => ([], true)
  | _, [] => ([], false)
  | f :: frames, None :: ws => let '(out, all) := mock_writes frames ws in (f ++ out, all)
  | f :: _, Some n :: _ => (take n f, false)
  end.

(** One connection: what the node's socket delivers, the outcomes of the writes (one that never
    returns is a missing one), and what the node is sent; whatever the greeting read ends with, the
    frames follow, unless it never ends. *)
Definition mock_conn (frames : list bytes) (sock : list Read) (ws : list (option nat)) : bytes * bool :=
  match fill false 8 [] sock with
  | (Pending, _, _) => ([], false)
  | _ => mock_writes (frames ++ frames ++ frames) ws
  end.

(** ** Lemmas *)

(** What the tools rely on from lz4_flex's compressor: its output decompresses to the input and
    starts with the input's size. *)
Definition compress_sound : Prop :=
  forall d, lz4_decompress (compress d) = Some d /\ take 4 (compress d) = to_le 4 (Z.of_nat (length d)).

(** The captured blocks of a directory, none larger than a block may be. *)
Definition captured (dir : string) (i : Z) (ds : list bytes) : Prop :=
  forall k d, ds !! k = Some d ->
    file (block_path dir (i + Z.of_nat k)) = Some d /\ Z.of_nat (length d) <= MAX_DECOMPRESSED_BLOCK.

Lemma read_blocks_captured dir i ds : captured dir i ds -> read_blocks dir i (length ds) = Some (compress <$> ds).
Proof.
  revert i. induction ds as [|d ds IH]; intros i Hc; [done|]. cbn [read_blocks length].
  destruct (Hc O d) as [E _]; [done|]. rewrite Z.add_0_r in E. rewrite E. cbn.
  rewrite IH; [done|]. intros k d' Hk. destruct (Hc (S k) d') as [E' ?]; [done|]. split; [|done].
  rewrite <- E'. do 2 f_equal. lia.
Qed.

Lemma compressed_block d :
  compress_sound -> Z.of_nat (length d) <= MAX_DECOMPRESSED_BLOCK ->
  decompress_block lz4_decompress (compress d) = Some d.
Proof.
  intros Hc Hd. destruct (Hc d) as [H1 H2]. unfold decompress_block, declared_size_ok. rewrite H1, H2.
  assert (4 <= length (compress d))%nat.
  { apply (f_equal length) in H2. rewrite length_take, to_le_length in H2. lia. }
  destruct (Nat.leb_spec 4 (length (compress d))); [|lia]. cbn [andb]. rewrite from_le_to_le, Z.mod_small.
  - destruct (Z.leb_spec (Z.of_nat (length d)) MAX_DECOMPRESSED_BLOCK); [done|lia].
  - unfold MAX_DECOMPRESSED_BLOCK in Hd. change (256 ^ Z.of_nat 4) with 4294967296. lia.
Qed.

Lemma compressed_round d :
  lz4_flex_sound lz4_decompress -> compress_sound -> Z.of_nat (length d) <= MAX_DECOMPRESSED_BLOCK ->
  block_round lz4_decompress (compress d) = find_block_round d /\
  block_round_full lz4_decompress (compress d) = find_block_round d.
Proof. intros Hs Hc Hd. apply block_round_agrees; [done|]. by apply compressed_block. Qed.

(** A dedup window that holds only smaller rounds calls a round new. *)
Lemma is_new_above d r :
  Forall (fun v => v < r) (slots d) -> 0 < r ->
  is_new d r = (true, snd (is_new d r)) /\ Forall (fun v => v < r + 1) (slots (snd (is_new d r))).
Proof.
  intros Hf Hr. unfold is_new. set (i := Z.to_nat _). cbn [snd slots]. split.
  - f_equal. apply negb_true_iff, Z.eqb_neq.
    destruct (nth_in_or_default i (slots d) 0) as [Hin| ->]; [|lia].
    rewrite List.Forall_forall in Hf. apply Hf in Hin. lia.
  - apply Forall_insert; [|lia]. eapply Forall_impl; [exact Hf|]. cbn. lia.
Qed.

Lemma bench_turn_fresh payloads r0 s i :
  payloads <> [] -> length payloads = 12%nat -> 0 < r0 -> r0 + Z.of_nat i < 2 ^ 32 ->
  (forall k p, payloads !! k = Some p -> block_round lz4_decompress p = Some (r0 + Z.of_nat k)) ->
  Forall (fun v => v < r0 + Z.of_nat i) (slots (bn_dedup s)) ->
  let s' := bench_turn payloads s i in
  bn_forwarded s' = bn_forwarded s + 1 /\ Forall (fun v => v < r0 + Z.of_nat (S i)) (slots (bn_dedup s')).
Proof.
  intros Hne Hl Hr0 Hi Hr Hs. unfold bench_turn. rewrite Hl.
  pose proof (Nat.div_mod i 12 ltac:(lia)) as Hdm. pose proof (Nat.mod_upper_bound i 12 ltac:(lia)).
  destruct (lookup_lt_is_Some_2 payloads (i mod 12)) as [p Hp]; [lia|].
  rewrite (nth_lookup_Some _ _ [] p Hp), (Hr _ _ Hp).
  replace ((r0 + Z.of_nat (i mod 12) + (Z.of_nat (i / 12) mod 2 ^ 32 * 12) mod 2 ^ 32) mod 2 ^ 32)
    with (r0 + Z.of_nat i).
  2:{ rewrite (Z.mod_small (Z.of_nat (i / 12))) by lia. rewrite (Z.mod_small (_ * 12)) by lia.
      rewrite Z.mod_small by lia. lia. }
  destruct (is_new_above (bn_dedup s) (r0 + Z.of_nat i) Hs) as [E Hf]; [lia|].
  destruct (is_new (bn_dedup s) (r0 + Z.of_nat i)) as [b d]. cbn in E, Hf. injection E as ->. cbn.
  split; [done|]. replace (r0 + Z.of_nat (S i)) with (r0 + Z.of_nat i + 1) by lia. done.
Qed.

Lemma mock_writes_prefix frames ws :
  let '(out, all) := mock_writes frames ws in
  out `prefix_of` concat frames /\ (all = true -> out = concat frames).
Proof.
  revert ws. induction frames as [|f frames IH]; intros [|[n|] ws]; cbn [mock_writes concat]; try done.
  - split; [apply prefix_nil|done].
  - split; [|done]. etrans; [apply prefix_take|apply prefix_app_r; done].
  - specialize (IH ws). destruct (mock_writes frames ws) as [out all]. destruct IH as [H1 H2].
    split; [by apply prefix_app|]. intros Ha. by rewrite (H2 Ha).
Qed.

(** ** Properties *)

(** The benchmark's check never reports a mismatch: on every captured block of legal size the bounded
    decoder and the full decompression give the same round. *)
Theorem bench_finds_no_mismatch dir ds iters :
  lz4_flex_sound lz4_decompress -> compress_sound -> length ds = CAPTURED_BLOCKS -> captured dir 0 ds ->
  exists s, run_bench dir iters = Some (O, s).
Proof.
  intros Hs Hc Hl Hd. unfold run_bench. rewrite <- Hl, (read_blocks_captured _ _ _ Hd). cbn.
  eexists. f_equal. f_equal. unfold mismatches. apply length_zero_iff_nil.
  destruct (filter _ (compress <$> ds)) as [|p ps] eqn:E; [done|].
  assert (Hp : p ∈ p :: ps) by constructor. rewrite <- E in Hp. apply list_elem_of_filter in Hp as [Hne Hin].
  apply list_elem_of_fmap in Hin as (d & -> & Hin). apply list_elem_of_lookup in Hin as [k Hk].
  destruct (compressed_round d Hs Hc) as [H1 H2]; [by apply (Hd k)|]. by rewrite H1, H2 in Hne.
Qed.

(** On twelve consecutive blocks the timed loop forwards every frame: the shift by twelve rounds a lap
    makes each turn's round new to the window, up to the last round of a [u32]. *)
Theorem bench_forwards_every_frame dir ds r0 iters :
  lz4_flex_sound lz4_decompress -> compress_sound -> length ds = CAPTURED_BLOCKS -> captured dir 0 ds ->
  (forall k d, ds !! k = Some d -> find_block_round d = Some (r0 + Z.of_nat k)) ->
  0 < r0 -> r0 + Z.of_nat iters <= 2 ^ 32 ->
  exists s, run_bench dir iters = Some s /\ bn_forwarded (snd s) = Z.of_nat iters.
Proof.
  intros Hs Hc Hl Hd Hrd Hr0 Hit. unfold run_bench. rewrite <- Hl, (read_blocks_captured _ _ _ Hd). cbn [mbind option_bind].
  eexists. split; [done|]. cbn [snd]. unfold bench_loop.
  set (ps := compress <$> ds).
  assert (Hps : length ps = 12%nat) by (unfold ps; by rewrite length_fmap).
  assert (Hr : forall k p, ps !! k = Some p -> block_round lz4_decompress p = Some (r0 + Z.of_nat k)).
  { intros k p Hk. unfold ps in Hk. apply list_lookup_fmap_Some in Hk as (d & -> & Hk). rewrite <- (Hrd k d) by done.
    apply compressed_round; [done..|]. by apply (Hd k). }
  assert (H : let s := foldl (bench_turn ps) (mkBench (RoundDedup_new BENCH_WINDOW) 0 0) (seq 0 iters) in
              bn_forwarded s = Z.of_nat iters /\ Forall (fun v => v < r0 + Z.of_nat iters) (slots (bn_dedup s))); [|apply H].
  induction iters as [|n IH].
  - split; [done|]. cbn [seq foldl bn_dedup RoundDedup_new slots]. apply Forall_replicate. lia.
  - rewrite seq_S, foldl_app. cbn [foldl Nat.add]. destruct IH as [E Hf]; [lia|].
    destruct (bench_turn_fresh ps r0 _ n ltac:(by destruct ps) Hps Hr0 ltac:(lia) Hr Hf) as [E' Hf'].
    split; [rewrite E', E; lia|done].
Qed.

(** A node connected to the mock reads the captured blocks three times over, whatever the segments:
    each frame is whole and carries its block. *)
Theorem mock_replays_the_capture dir ds start frames sock ws out node :
  compress_sound -> captured dir start ds ->
  (forall d, d ∈ ds -> Z.of_nat (length (compress d)) <= MAX_LIVE_FRAME) ->
  mock_frames dir start (start + Z.of_nat (length ds)) = Some frames ->
  mock_conn frames sock ws = (out, true) -> flowing node -> data node = out ->
  (exists s', read_frames (3 * length ds) MAX_LIVE_FRAME node = (frames ++ frames ++ frames, s') /\ data s' = []) /\
  (fun f => decompress_block lz4_decompress (drop 5 f)) <$> frames = Some <$> ds.
Proof.
  intros Hc Hd Hmax. unfold mock_frames. replace (start + Z.of_nat (length ds) - start) with (Z.of_nat (length ds)) by lia.
  rewrite Nat2Z.id, (read_blocks_captured _ _ _ Hd). intros [= <-] Hm Hf Hn. split.
  - assert (Hout : out = concat ((encode_frame 1 <$> (compress <$> ds)) ++ (encode_frame 1 <$> (compress <$> ds)) ++ (encode_frame 1 <$> (compress <$> ds)))).
    { unfold mock_conn in Hm. set (fs := _ ++ _) in *.
      pose proof (mock_writes_prefix fs ws) as Hp. destruct (mock_writes fs ws) as [o a].
      destruct (fill false 8 [] sock) as [[[] g] s1]; injection Hm as <- E; try done; subst a; by apply Hp. }
    set (fs := encode_frame 1 <$> (compress <$> ds)) in *.
    assert (Hsh : Forall shaped fs).
    { apply Forall_fmap, Forall_fmap, Forall_forall. intros d Hin. exists 1, (compress d). split; [done|by apply Hmax]. }
    replace (3 * length ds)%nat with (length (fs ++ fs ++ fs))
      by (unfold fs; rewrite !length_app, !length_fmap; lia).
    apply read_shaped; [by repeat apply Forall_app_2|done|]. by rewrite Hn, app_nil_r.
  - rewrite <- !list_fmap_compose. apply list_fmap_ext. intros k d Hk. cbn [compose].
    rewrite <- (app_nil_r (encode_frame 1 _)), drop5_encode, app_nil_r. apply compressed_block; [done|]. by apply (Hd k).
Qed.
End Tools.

(** The lock is transparent: whatever mix of tasks holds it, panicking or not, every one of them gets
    the state the ones before it left, and the flag only says whether the last one panicked. *)
Theorem lock_survives_panics {T} (m : Mutex T) (us : list (Holder T)) :
  guarded (foldl with_lock m us) = foldl (fun v u => match u with Finishes f | Panics f => f v end) (guarded m) us /\
  poisoned (foldl with_lock m us) = match last us with Some (Panics _) => true | Some (Finishes _) => false | None => poisoned m end.
Proof.
  revert m. induction us as [|u us IH]; intros m; [done|]. cbn [foldl]. destruct (IH (with_lock m u)) as [-> ->].
  assert (Hg : guarded (with_lock m u) = match u with Finishes f | Panics f => f (guarded m) end).
  { unfold with_lock, lock. destruct (poisoned m), u; done. }
  split; [by rewrite Hg|]. destruct us as [|u' us].
  2:{ change (last (u :: u' :: us)) with (last (u' :: us)). destruct (last (u' :: us)) eqn:E; [done|]. by apply last_None in E. }
  cbn [last].
  unfold with_lock, lock. destruct (poisoned m) eqn:E, u; cbn; congruence.
Qed.
