(* ===== verification/FakeNode.v ===== *)
(** The synthetic node that tests a gateway from outside: [fakenode] in [src/testing.rs].

    It bootstraps, follows the live stream and sends one client-block request, over the sockets of
    [Sock], and turns what it saw into an exit code. The theorem says what the code means: the
    bootstrap bar is the one of the gateway's own cache, the live bar ten frames and a round, and the
    request passes exactly when the gateway's own reading of the answer is a batch. *)

From S2P Require Import Prelude Text Blacklist Wire Priority Sock Freshest PushSession Node Sources Race ClientBlocks ClientFetch.

(** [build_client_block_range_request]. *)
Definition build_client_block_range_request (start_round end_round : Z) : bytes :=
  to_be 4 11 ++ [0] ++ [0] ++ [252] ++ to_le 4 start_round ++ [252] ++ to_le 4 end_round.

Definition FK_MAX_FRAME : Z := 1500000000.
Definition FK_BOOT_BUF : Z := 1048576.
Definition FK_LIVE_BUF : Z := 4194304.
Definition FK_RPC_TEXT : Z := 65536.

(** A connection that was greeted: the local address and what its reads will meet. *)
Definition FkConn : Type := option (string * list Read).

Definition fk_connect (dialed : option string) (greeted : bool) (s : list Read) : FkConn :=
  match dialed with
  | None => None
  | Some src => if greeted then Some (src, s) else None
  end.

(** One frame header before the deadline: its length and type. *)
Definition fk_read_hdr (s : list Read) : option (Z * Z) * list Read :=
  match fill true 5 [] s with
  | (Filled, hdr, s) =>
      (if frame_len hdr <=? FK_MAX_FRAME then Some (frame_len hdr, byte_at hdr 4) else None, s)
  | (_, _, s) => (None, s)
  end.

(** Discards [remaining] bytes in reads of at most [buf_len]; each turn takes at least one, so
    [remaining] turns are enough. *)
Fixpoint fk_drain (fuel : nat) (buf_len remaining : nat) (s : list Read) : bool * list Read :=
  match remaining with
  | O => (true, s)
  | _ =>
      match fuel, s with
      | S fuel, RData b :: s =>
          let n := Nat.min (length b) (Nat.min remaining buf_len) in
          if (n =? 0)%nat then (false, s)
          else fk_drain fuel buf_len (remaining - n) (if (n <? length b)%nat then RData (drop n b) :: s else s)
      | _, _ :: s => (false, s)
      | _, [] => (false, [])
      end
  end.

Definition drain (buf_len len : Z) (s : list Read) : bool * list Read :=
  fk_drain (Z.to_nat len) (Z.to_nat buf_len) (Z.to_nat len) s.

(** The loop of [fakenode_bootstrap]. *)
Fixpoint boot_loop (fuel : nat) (s : list Read) (nbytes frames : Z) : bool * Z * Z :=
  match fuel with
  | O => (false, nbytes, frames)
  | S fuel =>
      match fk_read_hdr s with
      | (None, _) => (false, nbytes, frames)
      | (Some (len, _), s) =>
          match drain FK_BOOT_BUF len s with
          | (false, _) => (false, nbytes, frames)
          | (true, s) =>
              let nbytes := nbytes + (5 + len) in
              let frames := frames + 1 in
              if (MIN_COMPLETE_BOOTSTRAP_BYTES <=? nbytes) && (MIN_COMPLETE_BOOTSTRAP_FRAMES <=? frames)
              then (true, nbytes, frames) else boot_loop fuel s nbytes frames
          end
      end
  end.

(** Each turn reads a header, so the bytes of the socket bound the turns. *)
Definition turns (s : list Read) : nat := S (length (data s)).

Definition fakenode_bootstrap (c : FkConn) : bool * Z * Z * string :=
  match c with
  | None => (false, 0, 0, "?"%string)
  | Some (src, s) => (boot_loop (turns s) s 0 0, src)
  end.

Section FakeNode.
Context (lz4_decompress : bytes -> option bytes).

(** The loop of [fakenode_live]: frames, distinct rounds, highest round. *)
Fixpoint live_loop (fuel : nat) (s : list Read) (frames : Z) (rounds : gset Z) (max_round : Z) : Z * gset Z * Z :=
  match fuel with
  | O => (frames, rounds, max_round)
  | S fuel =>
      match fk_read_hdr s with
      | (None, _) => (frames, rounds, max_round)
      | (Some (len, typ), s) =>
          if (typ =? 1) && (len <=? FK_LIVE_BUF) then
            match fill true (Z.to_nat len) [] s with
            | (Filled, payload, s) =>
                match block_round lz4_decompress payload with
                | Some r => live_loop fuel s (frames + 1) ({[r]} ∪ rounds) (Z.max max_round r)
                | None => live_loop fuel s (frames + 1) rounds max_round
                end
            | _ => (frames, rounds, max_round)
            end
          else
            match drain FK_LIVE_BUF len s with
            | (false, _) => (frames, rounds, max_round)
            | (true, s) => live_loop fuel s (frames + 1) rounds max_round
            end
      end
  end.

Definition fakenode_live (c : FkConn) : bool * Z * Z * Z * string :=
  match c with
  | None => (false, 0, 0, 0, "?"%string)
  | Some (src, s) =>
      let '(frames, rounds, max_round) := live_loop (turns s) s 0 ∅ 0 in
      ((10 <=? frames) && negb (bool_decide (rounds = ∅)), frames, Z.of_nat (size rounds), max_round, src)
  end.

End FakeNode.

(** The request of [fakenode_rpc]. *)
Definition fakenode_request (max_round : Z) : bytes :=
  build_client_block_range_request (sat_sub max_round 1000) (sat_sub max_round 1000 + 99).

(** [fakenode_rpc]: [c] is the dialed connection, [written] whether the request could be written. *)
Definition fakenode_rpc (c : option (list Read)) (written : bool) (max_round : Z) : bool :=
  if max_round =? 0 then false
  else
    match c with
    | None => false
    | Some s =>
        if negb written then false
        else
          match fk_read_hdr s with
          | (None, _) => false
          | (Some (len, typ), s) =>
              if (typ =? 0) && (len <=? FK_RPC_TEXT) then
                match fill true (Z.to_nat len) [] s with
                | (Filled, payload, _) =>
                    if response_is_peer_only payload then false
                    else if response_has_no_client_blocks payload ||
                            response_has_client_block_round_too_large payload ||
                            response_is_structured_round_too_large payload ||
                            response_has_client_block_round_too_small payload then false
                    else true
                | _ => false
                end
              else (drain FK_BOOT_BUF len s).1
          end
    end.

(** The arguments of [run_fakenode]; [None] is its usage text and exit code 64. *)
Record FakeArgs := mkFakeArgs { fa_ip : string; fa_port : Z; fa_live_secs : Z; fa_rpc : bool; fa_label : string }.

Fixpoint flag_val (name : string) (args : list string) : option string :=
  match args with
  | [] => None
  | a :: args => if bool_decide (a = name) then head args else flag_val name args
  end.

Definition fakenode_args (args : list string) : option FakeArgs :=
  match args with
  | [] => None
  | target :: _ =>
      if starts_with "--" target then None
      else
        match (match rsplit_once COLON target with
               | Some (ip, p) => (fun p => (ip, p)) <$> parse_uint 65535 p
               | None => Some (target, 4001)
               end) with
        | None => None
        | Some (ip, port) =>
            Some (mkFakeArgs ip port
              (default 30 (flag_val "--live-secs" args ≫= parse_uint (2 ^ 64 - 1)))
              (bool_decide ("--rpc"%string ∈ args)) (default "fakenode"%string (flag_val "--label" args)))
        end
  end.

(** The connections the run will get, in the order it opens them. *)
Record FakeWorld := mkFakeWorld {
  fw_boot : FkConn; fw_live : FkConn; fw_rpc : option (list Read); fw_rpc_written : bool
}.

Definition run_fakenode (lz4_decompress : bytes -> option bytes) (args : list string) (w : FakeWorld) : Z :=
  match fakenode_args args with
  | None => 64
  | Some a =>
      let '(boot_pass, _, _, _) := fakenode_bootstrap (fw_boot w) in
      let '(live_pass, _, _, max_round, _) := fakenode_live lz4_decompress (fw_live w) in
      let rpc := if fa_rpc a then Some (fakenode_rpc (fw_rpc w) (fw_rpc_written w) max_round) else None in
      let code := if negb boot_pass then Z.lor 0 1 else 0 in
      let code := if negb live_pass then Z.lor code 2 else code in
      if bool_decide (rpc = Some false) then Z.lor code 4 else code
  end.

(** ** Lemmas: reading *)

Definition fits (f : Z * bytes) : Prop := Z.of_nat (length f.2) <= FK_MAX_FRAME.

Lemma fk_read_hdr_flowing s typ p rest :
  flowing s -> data s = encode_frame typ p ++ rest -> Z.of_nat (length p) <= FK_MAX_FRAME ->
  exists s', fk_read_hdr s = (Some (Z.of_nat (length p), typ), s') /\ flowing s' /\ data s' = p ++ rest.
Proof.
  unfold FK_MAX_FRAME. intros Hs Hd Hp. unfold fk_read_hdr. pose proof (fill_flowing true 5 [] s Hs) as Hf. rewrite Hd in Hf.
  destruct (fill true 5 [] s) as [[st h] s1].
  destruct st; [|destruct Hf as (_ & _ & _ & Hf); rewrite length_app, encode_frame_length in Hf; lia..].
  destruct Hf as (-> & Hd1 & Hs1 & _). cbn [app]. rewrite take5_encode. rewrite drop5_encode in Hd1.
  exists s1. split; [|done]. f_equal. rewrite header_len by (unfold u32_max; lia).
  by rewrite (proj2 (Z.leb_le _ _)) by (unfold FK_MAX_FRAME; lia).
Qed.

Lemma fk_read_hdr_over s : flowing s -> data s = [] -> (fk_read_hdr s).1 = None.
Proof.
  intros Hs Hd. unfold fk_read_hdr. pose proof (fill_flowing true 5 [] s Hs) as Hf. rewrite Hd in Hf.
  destruct (fill true 5 [] s) as [[[] h] s1]; try done. cbn in Hf. lia.
Qed.

Lemma fk_drain_flowing fuel buf_len s p rest :
  (0 < buf_len)%nat -> flowing s -> data s = p ++ rest -> (length p <= fuel)%nat ->
  exists s', fk_drain fuel buf_len (length p) s = (true, s') /\ flowing s' /\ data s' = rest.
Proof.
  intros Hbuf. revert s p. induction fuel as [|fuel IH]; intros s p Hs Hd Hl.
  { destruct p; [|cbn in Hl; lia]. exists s. by destruct s. }
  destruct p as [|x p]; [exists s; by destruct s|].
  destruct Hs as [|r s [b [-> Hb]] Hs]; [done|]. rewrite data_cons in Hd.
  set (q := x :: p) in *. assert (Hq : (0 < length q)%nat) by (cbn; lia).
  assert (Hb' : (0 < length b)%nat) by (destruct b; [done|cbn; lia]).
  set (n := Nat.min (length b) (Nat.min (length q) buf_len)).
  assert (Hn : (0 < n <= length q)%nat /\ (n <= length b)%nat) by lia.
  assert (E : fk_drain (S fuel) buf_len (length q) (RData b :: s) =
    fk_drain fuel buf_len (length (drop n q)) (if (n <? length b)%nat then RData (drop n b) :: s else s)).
  { rewrite length_drop. cbn [fk_drain]. destruct (length q) eqn:El; [lia|]. fold n.
    destruct (Nat.eqb_spec n 0); [lia|done]. }
  rewrite E. apply IH.
  - destruct (Nat.ltb_spec n (length b)); [|done]. constructor; [|done]. eexists. split; [done|].
    intros Ex%(f_equal length). rewrite length_drop in Ex. cbn in Ex. lia.
  - assert (Ht : drop n (b ++ data s) = drop n (q ++ rest)) by (by rewrite Hd).
    rewrite !drop_app_le in Ht by lia. destruct (Nat.ltb_spec n (length b)); [by rewrite data_cons|].
    by rewrite (drop_ge b) in Ht by lia.
  - rewrite length_drop. lia.
Qed.

Lemma drain_flowing buf_len s p rest :
  0 < buf_len -> flowing s -> data s = p ++ rest ->
  exists s', drain buf_len (Z.of_nat (length p)) s = (true, s') /\ flowing s' /\ data s' = rest.
Proof.
  intros Hb Hs Hd. unfold drain. rewrite Nat2Z.id. apply fk_drain_flowing; [lia|done|done|done].
Qed.

Lemma fill_payload s p rest :
  flowing s -> data s = p ++ rest ->
  exists s', fill true (Z.to_nat (Z.of_nat (length p))) [] s = (Filled, p, s') /\ flowing s' /\ data s' = rest.
Proof.
  intros Hs Hd. rewrite Nat2Z.id. pose proof (fill_flowing true (length p) [] s Hs) as Hf. rewrite Hd in Hf.
  destruct (fill true (length p) [] s) as [[[] h] s1]; try (destruct Hf as (_ & _ & _ & Hf); rewrite length_app in Hf; lia).
  destruct Hf as (-> & Hd1 & Hs1 & _). exists s1. by rewrite take_app_length, drop_app_length in *.
Qed.

Lemma encode_frames_cons typ p fs : encode_frames ((typ, p) :: fs) = encode_frame typ p ++ encode_frames fs.
Proof. done. Qed.

(** Enough turns for the frames and the read that finds no more. *)
Lemma frames_turns fs rest n :
  (length (encode_frames fs ++ rest) < n)%nat -> (length fs < n)%nat.
Proof.
  rewrite length_app. revert n. induction fs as [|[typ p] fs IH]; intros n Hn; [cbn in *; lia|].
  rewrite encode_frames_cons, length_app, encode_frame_length in Hn. cbn [length].
  specialize (IH (n - 1)%nat ltac:(lia)). lia.
Qed.

(** ** Lemmas: the three phases *)

Lemma bar_mono b f b' f' :
  b <= b' -> f <= f' -> complete_bootstrap_at_frame_boundary b f = true ->
  complete_bootstrap_at_frame_boundary b' f' = true.
Proof. unfold complete_bootstrap_at_frame_boundary. intros ? ? H. zify_bool. apply andb_true_iff. lia. Qed.

Lemma boot_loop_flowing fs rest fuel s nbytes frames :
  Forall fits fs -> flowing s -> data s = encode_frames fs ++ rest -> (length fs < fuel)%nat ->
  complete_bootstrap_at_frame_boundary nbytes frames = false ->
  let bar := complete_bootstrap_at_frame_boundary (nbytes + Z.of_nat (length (encode_frames fs)))
               (frames + Z.of_nat (length fs)) in
  (bar = true -> (boot_loop fuel s nbytes frames).1.1 = true) /\
  (rest = [] -> (boot_loop fuel s nbytes frames).1.1 = bar).
Proof.
  intros Hf. revert fuel s nbytes frames. induction Hf as [|[typ p] fs Hp Hf IH]; intros fuel s nbytes frames Hs Hd Hl Hn bar.
  - unfold bar. cbn [length encode_frames map concat]. rewrite !Z.add_0_r, Hn. split; [done|]. intros ->.
    destruct fuel as [|fuel]; [done|]. cbn [boot_loop]. pose proof (fk_read_hdr_over s Hs Hd) as Hr.
    by destruct (fk_read_hdr s) as [[] ?].
  - destruct fuel as [|fuel]; [cbn in Hl; lia|]. rewrite encode_frames_cons, <- app_assoc in Hd. cbn in Hp.
    destruct (fk_read_hdr_flowing s typ p _ Hs Hd Hp) as (s1 & E1 & Hs1 & Hd1).
    destruct (drain_flowing FK_BOOT_BUF s1 p _ ltac:(done) Hs1 Hd1) as (s2 & E2 & Hs2 & Hd2).
    cbn [boot_loop]. rewrite E1, E2.
    assert (Htot : nbytes + Z.of_nat (length (encode_frames ((typ, p) :: fs))) =
      nbytes + (5 + Z.of_nat (length p)) + Z.of_nat (length (encode_frames fs)))
      by (rewrite encode_frames_cons, length_app, encode_frame_length; lia).
    assert (Hcnt : frames + Z.of_nat (length ((typ, p) :: fs)) = frames + 1 + Z.of_nat (length fs)) by (cbn [length]; lia).
    unfold bar. rewrite Htot, Hcnt.
    change ((MIN_COMPLETE_BOOTSTRAP_BYTES <=? ?b) && (MIN_COMPLETE_BOOTSTRAP_FRAMES <=? ?f))
      with (complete_bootstrap_at_frame_boundary b f).
    destruct (complete_bootstrap_at_frame_boundary (nbytes + (5 + Z.of_nat (length p))) (frames + 1)) eqn:Eb.
    + split; [done|]. intros _. cbn. symmetry. eapply bar_mono; [| |exact Eb]; lia.
    + apply IH; [done|done|cbn in Hl; lia|done].
Qed.

Section Live.
Context (lz4_decompress : bytes -> option bytes).

(** The round [fakenode_live] reads from a frame. *)
Definition live_round (f : Z * bytes) : option Z :=
  if (f.1 =? 1) && (Z.of_nat (length f.2) <=? FK_LIVE_BUF) then block_round lz4_decompress f.2 else None.

Lemma live_loop_flowing fs fuel s frames rounds max_round :
  Forall fits fs -> flowing s -> data s = encode_frames fs -> (length fs < fuel)%nat ->
  live_loop lz4_decompress fuel s frames rounds max_round =
    (frames + Z.of_nat (length fs), list_to_set (omap live_round fs) ∪ rounds,
     foldl Z.max max_round (omap live_round fs)).
Proof.
  intros Hf. revert fuel s frames rounds max_round.
  induction Hf as [|[typ p] fs Hp Hf IH]; intros fuel s frames rounds max_round Hs Hd Hl;
    (destruct fuel as [|fuel]; [cbn in Hl; lia|]); cbn [live_loop].
  - pose proof (fk_read_hdr_over s Hs Hd) as Hr. destruct (fk_read_hdr s) as [[] ?]; [done|]. cbn. f_equal.
    rewrite union_empty_l_L. by rewrite Z.add_0_r.
  - rewrite encode_frames_cons in Hd. cbn in Hp, Hl.
    destruct (fk_read_hdr_flowing s typ p _ Hs Hd Hp) as (s1 & -> & Hs1 & Hd1).
    assert (Elr : live_round (typ, p) = if (typ =? 1) && (Z.of_nat (length p) <=? FK_LIVE_BUF)
      then block_round lz4_decompress p else None) by done.
    cbn [omap list_omap length]. rewrite Elr.
    replace (frames + Z.of_nat (S (length fs))) with (frames + 1 + Z.of_nat (length fs)) by lia.
    destruct (_ && _).
    + destruct (fill_payload s1 p _ Hs1 Hd1) as (s2 & -> & Hs2 & Hd2).
      destruct (block_round lz4_decompress p) as [r|]; rewrite IH by (done || lia); [|done].
      cbn [list_to_set foldl]. by rewrite union_assoc_L, (union_comm_L _ {[r]}).
    + destruct (drain_flowing FK_LIVE_BUF s1 p _ ltac:(done) Hs1 Hd1) as (s2 & -> & Hs2 & Hd2). apply IH; [done|done|lia].
Qed.

End Live.

(** The gateway's own reading of an answer. *)
Definition is_batch (f : bytes) : bool := match response_of f with Frames _ => true | _ => false end.

Lemma fakenode_rpc_flowing s typ p max_round :
  flowing s -> data s = encode_frame typ p -> Z.of_nat (length p) <= FK_MAX_FRAME -> 0 < max_round ->
  fakenode_rpc (Some s) true max_round =
    (if (typ =? 0) && (Z.of_nat (length p) <=? FK_RPC_TEXT) then is_batch (encode_frame typ p) else true).
Proof.
  intros Hs Hd Hp Hm. unfold fakenode_rpc. rewrite (proj2 (Z.eqb_neq _ _)) by lia. cbn [negb].
  destruct (fk_read_hdr_flowing s typ p [] Hs ltac:(by rewrite app_nil_r) Hp) as (s1 & -> & Hs1 & Hd1).
  destruct (_ && _).
  - destruct (fill_payload s1 p _ Hs1 Hd1) as (s2 & -> & _). unfold is_batch, response_of.
    pose proof (drop5_encode typ p []) as E. rewrite !app_nil_r in E. rewrite E.
    destruct (response_is_peer_only p); [done|].
    destruct (response_has_no_client_blocks p); [done|]. destruct (response_has_client_block_round_too_large p); [done|].
    destruct (response_is_structured_round_too_large p); [done|].
    by destruct (response_has_client_block_round_too_small p).
  - by destruct (drain_flowing FK_BOOT_BUF s1 p [] ltac:(done) Hs1 Hd1) as (s2 & -> & _).
Qed.

(** The request is the gateway's own format. *)
Lemma fakenode_request_spec max_round :
  0 <= max_round <= u32_max ->
  client_block_range (fakenode_request max_round) = Some (sat_sub max_round 1000, sat_sub max_round 1000 + 99).
Proof.
  intros Hm. unfold u32_max in Hm.
  assert (Hr : 0 <= sat_sub max_round 1000 /\ sat_sub max_round 1000 + 99 <= u32_max) by (unfold sat_sub, u32_max; lia).
  apply range_request_roundtrip; [|split_and!; [done|unfold u32_max in *; lia..]].
  unfold fakenode_request, build_client_block_range_request. rewrite !Forall_app.
  split_and!; try apply to_le_bytes; try (repeat (apply Forall_cons; split); try done; unfold is_byte; lia).
Qed.

(** ** Theorems *)

(** A bootstrap the gateway's cache would keep passes, whatever follows it on the socket. *)
Theorem fakenode_accepts_a_cached_bootstrap (blob rest : bytes) (n : Z) (src : string) (s : list Read) :
  Forall is_byte blob -> complete_frame_count blob = Some n ->
  complete_bootstrap_at_frame_boundary (Z.of_nat (length blob)) n = true ->
  flowing s -> data s = blob ++ rest -> (fakenode_bootstrap (Some (src, s))).1.1.1 = true.
Proof.
  intros Hb Hc Hbar Hs Hd. apply complete_frame_count_spec in Hc as (fs & -> & -> & Hf); [|done]. cbn.
  eapply (boot_loop_flowing fs rest (turns s) s 0 0); [done|done|done| |done|exact Hbar].
  apply (frames_turns fs rest). unfold turns. rewrite Hd. lia.
Qed.

(** The exit code of the synthetic node means what it says. Whatever frames the gateway sends on the
    three connections, and however the network cuts their bytes: bit 0 is clear exactly when the
    bootstrap meets the bar of the gateway's own cache, bit 1 exactly when ten live frames came and
    one of them had a round, bit 2 exactly when no request was asked for or a round was known and the
    answer is one the gateway itself would take for a batch (or is not a short text frame); and the
    request sent is one the gateway reads as the hundred rounds that start a thousand below the
    highest. *)
Theorem fakenode_verdict_is_exact (lz4 : bytes -> option bytes) (args : list string) (a : FakeArgs)
    (srcb srcl : string) (sb sl sr : list Read) (fb fl : list (Z * bytes)) (typ : Z) (p : bytes) :
  fakenode_args args = Some a -> Forall fits fb -> Forall fits fl -> fits (typ, p) ->
  flowing sb -> flowing sl -> flowing sr ->
  data sb = encode_frames fb -> data sl = encode_frames fl -> data sr = encode_frame typ p ->
  Forall (fun r => 0 <= r <= u32_max) (omap (live_round lz4) fl) ->
  let max_round := foldl Z.max 0 (omap (live_round lz4) fl) in
  let boot := complete_bootstrap_at_frame_boundary (Z.of_nat (length (encode_frames fb))) (Z.of_nat (length fb)) in
  let live := (10 <=? Z.of_nat (length fl)) && negb (bool_decide (omap (live_round lz4) fl = [])) in
  let rpc := (0 <? max_round) &&
    (if (typ =? 0) && (Z.of_nat (length p) <=? FK_RPC_TEXT) then is_batch (encode_frame typ p) else true) in
  run_fakenode lz4 args (mkFakeWorld (Some (srcb, sb)) (Some (srcl, sl)) (Some sr) true) =
    (if boot then 0 else 1) + (if live then 0 else 2) + (if fa_rpc a && negb rpc then 4 else 0) /\
  client_block_range (fakenode_request max_round) = Some (sat_sub max_round 1000, sat_sub max_round 1000 + 99).
Proof.
  intros Ha Hfb Hfl Hp Hsb Hsl Hsr Hdb Hdl Hdr Hr max_round boot live rpc.
  assert (Hm : 0 <= max_round <= u32_max).
  { unfold max_round. apply (foldl_inv_Forall Z.max (fun m => 0 <= m <= u32_max) (fun r => 0 <= r <= u32_max));
      [unfold u32_max; lia|done|intros; lia]. }
  split; [|by apply fakenode_request_spec].
  unfold run_fakenode. rewrite Ha. cbn [fw_boot fw_live fw_rpc fw_rpc_written fakenode_bootstrap fakenode_live].
  assert (Ht : forall fs s, data s = encode_frames fs -> (length fs < turns s)%nat).
  { intros fs s Hd. apply (frames_turns fs []). unfold turns. rewrite Hd, app_nil_r. lia. }
  assert (Eb : (boot_loop (turns sb) sb 0 0).1.1 = boot).
  { apply (boot_loop_flowing fb []); [done|done|by rewrite app_nil_r|by apply Ht|done|done]. }
  destruct (boot_loop (turns sb) sb 0 0) as [[bp nb] nf]. cbn in Eb. subst bp.
  rewrite (live_loop_flowing lz4 fl) by (try done; by apply Ht). fold max_round.
  replace (bool_decide (list_to_set (omap (live_round lz4) fl) ∪ ∅ = (∅ : gset Z)))
    with (bool_decide (omap (live_round lz4) fl = [])).
  2:{ apply bool_decide_ext. rewrite union_empty_r_L. split; [by intros ->|].
      destruct (omap (live_round lz4) fl) as [|r l]; [done|]. cbn. set_solver. }
  rewrite Z.add_0_l. fold live.
  assert (Er : fakenode_rpc (Some sr) true max_round = rpc).
  { unfold rpc. destruct (Z.ltb_spec 0 max_round); [by apply fakenode_rpc_flowing|].
    unfold fakenode_rpc. by rewrite (proj2 (Z.eqb_eq max_round 0)) by lia. }
  rewrite Er. destruct boot, live, (fa_rpc a), rpc; vm_compute; reflexivity.
Qed.

(** ** Witnesses *)

Definition example_live_frames : list (Z * bytes) :=
  (0, [7]) :: ((fun r => (1, block_payload r)) <$> [2000000001; 2000000002; 2000000003; 2000000004; 2000000005;
     2000000006; 2000000007; 2000000008; 2000000009]).

Lemma example_live_rounds :
  omap (live_round no_lz4) example_live_frames = (fun i => 2000000000 + Z.of_nat i) <$> seq 1 9.
Proof. vm_compute. reflexivity. Qed.

Lemma fakenode_verdict_is_exact_witness :
  run_fakenode no_lz4 ["127.0.0.1:4001"; "--rpc"]%string
    (mkFakeWorld (Some ("10.0.0.9"%string, [RData (encode_frame 0 [3])]))
       (Some ("10.0.0.9"%string, [RData (encode_frames example_live_frames)]))
       (Some [RData (encode_frame 1 [9; 9])]) true) = 1.
Proof.
  refine (proj1 (fakenode_verdict_is_exact no_lz4 ["127.0.0.1:4001"; "--rpc"]%string
    (mkFakeArgs "127.0.0.1" 4001 30 true "fakenode") "10.0.0.9" "10.0.0.9" [RData (encode_frame 0 [3])]
    [RData (encode_frames example_live_frames)] [RData (encode_frame 1 [9; 9])] [(0, [3])] example_live_frames 1 [9; 9]
    _ _ _ _ _ _ _ _ _ _ _)).
  - vm_compute. reflexivity.
  - repeat constructor; vm_compute; discriminate.
  - repeat constructor; vm_compute; discriminate.
  - vm_compute. discriminate.
  - constructor; [eexists; split; [reflexivity|discriminate]|constructor].
  - constructor; [eexists; split; [reflexivity|discriminate]|constructor].
  - constructor; [eexists; split; [reflexivity|discriminate]|constructor].
  - vm_compute. reflexivity.
  - vm_compute. reflexivity.
  - vm_compute. reflexivity.
  - rewrite example_live_rounds. apply Forall_fmap, Forall_seq. intros i Hi. unfold u32_max. cbn. lia.
Defined.

(** A gateway that cannot be dialed gives the code of its failed phases, not 64. *)
Example fakenode_dial_failure_is_not_64 :
  run_fakenode no_lz4 ["127.0.0.1:4001"; "--rpc"]%string (mkFakeWorld None None None false) = 7 /\
  run_fakenode no_lz4 ["127.0.0.1:x"]%string (mkFakeWorld None None None false) = 64.
Proof. split; vm_compute; reflexivity. Qed.
